(* ===== verification/_CoqProject ===== *)
-Q . S2P
Prelude.v
OnDisk.v
Lru.v
Context.v
Io.v
BufferPool.v
PoolView.v
Imap.v
SegTable.v
Log.v
Checkpoint.v
Crash.v
LogView.v
Inode.v
FileView.v
InodeDisk.v
InodeCache.v
Directory.v
DirBlock.v
DirView.v
Gc.v
GcSelect.v
GcClean.v
Fuse.v
Mount.v
Recovery.v
Mkfs.v
MkfsView.v
Unmount.v
Typed.v
Fsck.v
FsckView.v
FuseView.v
NameView.v
Debug.v
DebugView.v
Cli.v
Demo.v
