(* ===== verification/Prelude.v ===== *)
(** * LSFS: a log-structured file system, its model and its theorems

    The program is a FUSE daemon ([src/src/], [src/include/]) with the tools [mkfs.lsfs],
    [fsck.lsfs] and [lsfs-debug] ([src/tools/]).  Block 0 of an image is the superblock,
    two checkpoint regions of 256 blocks follow, two blocks hold the segment usage table,
    and the rest is the log: segments of 1024 blocks of 4096 bytes, the first block of a
    segment describing the others.  The daemon collects blocks in a segment buffer and
    writes whole segments; an inode map, saved in the checkpoint regions in turn, says
    where each inode was written last.  Mounting loads the newer complete checkpoint and
    rolls the log forward along the segment summaries.  A collector empties segments with
    few live blocks.  Inodes are cached in a hash table with an LRU list, files are trees
    of block addresses, directories are files of variable-length entries, and the FUSE
    handlers combine all of it.

    ** How programs are modelled

    A function of the program is a computation [Op A] ([M lsfs_context A] below): a
    function from the state to [option (A * state)].  [None] is undefined behaviour (an
    access outside an array, a signed overflow, a use of freed memory) or a loop that does
    not end within its bound; since every theorem about an execution is stated with [wp]
    or concludes [Some], it includes that the execution ends and is defined, apart from the
    accesses outside an object that are listed below.  Error codes are values.  The state [lsfs_context] is the [struct lsfs_context] of [lsfs.h] with
    the image file ([c_disk], a map from block numbers to bytes), the sequence of writes
    and syncs the file received ([c_trace]) and the number of questions asked so far to
    the environment ([c_tick]).  The class [Env] is the environment: clock, short and
    failing transfers, failing [fsync], failing allocation, random numbers, user, and the
    bytes of memory the program reads without having written them.  Theorems hold for all
    environments unless they say [Healthy] (no call fails) or [BlockAtomic] (a transfer
    that stops early stops at a block boundary).  Machine integers are [Z] with the
    wrap-around of their width written out ([u8] to [u64], [to_i64], [i64_check]).

    A pointer is an address: of a cached inode in [ic_heap], of a buffer its index.  So
    two names of one inode are one address and updates through one are seen through the
    other.

    The program moves whole blocks of 4096 bytes to and from smaller structures.  These
    accesses reach outside an object; they are not [None], since then nothing could be said
    of mounting or of writing an inode, but have the following effect, and where
    a theorem says that executions are defined, these accesses are excepted:
    - reading the superblock of 4080 bytes: the 16 bytes behind it are the inode cache for
      the daemon ([read_superblock]; it is initialised afterwards), the counters for
      [fsck.lsfs] ([fill_context]), the stack for [lsfs-debug.c:60] and [280], where they
      are dropped;
    - reading a checkpoint header of 48 bytes ([checkpoint.c:176]) and a segment header of
      24 bytes ([checkpoint.c:240]) on the stack: what falls behind them is dropped;
    - writing a superblock, or an inode of 296 bytes ([inode.c:371]): the structure is
      written and then bytes of the environment ([over_read]);
    - copying the inode from its block for numbers whose remainder by 16 is 13 or more
      ([inode.c:205]): what lies behind the block comes from the environment.

    The sizes that the static assertions of [ondisk.h] demand are not those of the
    structures ([structures_layout]); the model follows the structures.

    ** Files, and the code they model

    - this file: integers, arrays with bounds, little-endian bytes, the monad with its
      rules ([wp_bind] and the like), record updates;
    - [OnDisk]: [include/ondisk.h]; the class [OnDisk] with its laws [OnDiskLaws] is the
      interface through which all other files encode and decode structures;
    - [Lru]: the two doubly linked lists ([buffer_touch] of [io.c], [inode_lru_add] and
      [inode_lru_remove] of [inode.c]) and their list abstraction [lru_repr];
    - [Context]: [include/lsfs.h] and the environment; the class [Keeps] of computations
      whose runs stay in a relation, with the tactic [keeping] that derives instances;
    - [Io], [BufferPool], [PoolView]: [io.c], block transfers and the buffer pool;
    - [Imap]: [imap.c], the sorted array against a finite map ([imap_map]);
    - [SegTable]: segment addresses, allocation and release of [segment.c], the thresholds
      and dead blocks of [gc.c], against a set of free segments;
    - [Log]: append, flush, initialisation of [segment.c] with the writing half of
      [checkpoint.c], which call each other; the invariant [log_wf];
    - [Checkpoint]: the reading half of [checkpoint.c]; [Crash]: what a crash can leave of
      the writes of [Log], with a volatile write cache; [LogView]: the log as one array of
      blocks, the segment buffer laid over the disk;
    - [Inode]: [inode.c]; [FileView]: files as arrays of blocks; [InodeDisk]: inodes on
      the disk; [InodeCache]: the cache and its invariant;
    - [Directory]: [directory.c]; [DirBlock]: the entries of a block as a list of records;
      [DirView]: a directory as a finite map from names;
    - [Gc]: [gc.c]; [GcSelect], [GcClean]: the choice and the cleaning of a segment;
    - [Fuse]: [fuse_ops.c]; [FuseView]: files, byte by byte, through the handlers;
    - [Mount]: [main.c] and opening the image; [Recovery]: what mounting establishes;
    - [Mkfs], [MkfsView]: [mkfs.lsfs.c] and what it leaves on the image;
    - [Unmount]: sessions, from mounting over unmounting to mounting again;
    - [Typed]: every number of the context stays in the range of its C type;
    - [Fsck], [FsckView]: [fsck.lsfs.c] and what its verdict means;
    - [Debug], [DebugView]: [lsfs-debug.c], its output and what it shows;
    - [Cli]: the words of a command line and the main functions of the four programs;
    - [Demo]: a file system of four segments on which the theorems are applied.

    ** What the theorems show

    - Crashes: at every instant of a checkpoint, and of every call of the log, whatever
      subset of the unsynced writes survives, the image mounts to the map of the previous
      checkpoint or to the new one ([checkpoint_crash_atomic], [log_crash_safe]).
    - Recovery: mounting computes the inode map that [recovered_map] reads off the image,
      the checkpoint and the summaries after it ([mount_replays_log]), so what was flushed
      comes back ([flushed_inode_returns]); mounting begins a session, a session goes on
      under every use of the log ([session_invariant]), and unmounting and mounting again
      gives the same map and the same blocks ([remount_same]).
    - The log: all sequences of its operations are defined and keep its invariant
      ([log_operations_safe]); an appended block is on disk after the next flush
      ([append_survives]) as long as free segments remain, and not otherwise
      ([full_log_overwrites]); summaries read back up to 340 blocks
      ([flush_summary_readback]).
    - Abstractions: the inode map is a finite map ([imap_refines_map]), the usage table a
      set of free segments ([segtable_refines_free_set]), a directory a finite map from
      names ([dir_refines_map], [dir_init_creates]), a file an array of blocks
      ([inode_write_block_updates], [file_write_flush_read]), the buffer pool is
      transparent ([pool_transparent]) and keeps its invariant under every sequence of
      calls, failing ones included ([pool_safe]).
    - Inodes: the cache keeps its invariant under every sequence of operations
      ([inode_cache_safe]) and every number keeps to the range of its type
      ([context_stays_typed]); inodes reach the disk ([inode_write_persists]) and some are
      found again ([inode_reload]).
    - The collector: choice of the best segment in double precision ([gc_select_best]),
      safe cleaning ([gc_clean_safe]), bounded runs ([gc_run_bounded]), and what it gives
      up ([gc_frees_unmoved]).
    - Handlers and mounting: a write is read back after [fsync]
      ([fuse_write_fsync_read]); mounting establishes the invariants all the operations
      rely on ([mount_establishes]) and succeeds on usable images ([mount_succeeds]); a
      formatted image mounts ([format_mounts]), and no check of the checker finds an error
      on it, so that its verdict depends on the count the image carries
      ([format_fsck_verdict]); a clean verdict of the checker means what it should
      ([fsck_sound]).
    - Formats: the fields of the structures on disk lie at the offsets and have the widths
      of [ondisk.h] ([structures_layout]).
    - Tools: the commands of [lsfs-debug] end and leave the image alone when the times on
      it can be printed, except for an inode past the end of its block ([debug_defined]);
      its dump of the inode map lists the entries of the checkpoint ([dump_imap_lists]);
      the size given to [mkfs.lsfs], in six spellings of the option, is the size it
      formats ([mkfs_size_option]).
    - Defects, proved as such: [stale_add_destroys], [indirect_write_lost],
      [unflushed_write_invisible], [fresh_root_unreachable], [imap_save_limit] and those
      named above that state what is lost.

    ** Bounds of loops

    Loops over a fixed range are [for_each] or structural.  The others carry a bound, and
    reaching it is [None], so that the theorems show it is not reached: [flush_fuel] is 2,
    since a checkpoint written by a flush finds the buffer empty
    ([flush_recursion_bounded]); the bisections of [imap.c] halve a range of fewer than
    2^32 entries, 32 and 33 rounds; [scan_fuel] is the number of bytes left in a directory, each
    entry taking at least one; [cache_fuel] is one more than the inodes in the heap, the
    longest chain or list; a pool chain or list has at most 256 buffers; the evictions of
    one call are at most the count of the cache; [gc_run_fuel] is 5, the limit of the
    loop's condition; [transfer_fuel] is the number of blocks a transfer can touch.

    ** Not modelled

    - Locks, the condition variable and the scheduling of threads: operations run one
      after the other, which the locks of the program are there to ensure; the collector's
      thread is the loop [gc_thread_func], whose argument is what the others do during its
      waits, and [lsfs_buffer_pool_destroy], which only destroys a lock, has no effect.
    - The progress messages of [mkfs.lsfs], [fsck.lsfs] and of the daemon, and the
      daemon's signal handlers, which have no effect on the image.
    - The C library: [getopt_long], [strtoull], [atoi] and the conversions of [printf] are
      defined in [Cli] and [Debug] as their documentation describes them, as far as the
      programs use them; [localtime] and [strftime] are an argument, [calendar].
    - The FUSE library: the session is an argument of [lsfs_main], the bytes of a
      directory entry in a reply an argument of [lsfs_op_readdir].

    ** Further work

    The name space through the handlers (create, mkdir, unlink, rename and readdir as
    operations on a tree), the safety of the handlers in every environment, and the
    attributes of inodes. *)
From stdpp Require Export base tactics numbers list list_numbers gmap.
From Stdlib Require Import ZArith Lia.

#[global] Open Scope Z_scope.

(** * Machine integers: a [w]-bit value is a [Z], wrap-around is written out. *)

Definition u8 (z : Z) : Z := z mod 2 ^ 8.
Definition u16 (z : Z) : Z := z mod 2 ^ 16.
Definition u32 (z : Z) : Z := z mod 2 ^ 32.
Definition u64 (z : Z) : Z := z mod 2 ^ 64.

(** Conversion of an unsigned 64-bit value to [off_t] (two's complement). *)
Definition to_i64 (z : Z) : Z := if u64 z <? 2 ^ 63 then u64 z else u64 z - 2 ^ 64.

(** A signed 64-bit result, undefined when it does not fit. *)
Definition i64_check (z : Z) : option Z :=
  if (- 2 ^ 63 <=? z) && (z <? 2 ^ 63) then Some z else None.

Lemma u8_small z : 0 <= z < 2 ^ 8 → u8 z = z.
Proof. apply Z.mod_small. Qed.
Lemma u16_small z : 0 <= z < 2 ^ 16 → u16 z = z.
Proof. apply Z.mod_small. Qed.
Lemma u32_small z : 0 <= z < 2 ^ 32 → u32 z = z.
Proof. apply Z.mod_small. Qed.
Lemma u64_small z : 0 <= z < 2 ^ 64 → u64 z = z.
Proof. apply Z.mod_small. Qed.
Lemma u32_range z : 0 <= u32 z < 2 ^ 32.
Proof. by apply Z.mod_pos_bound. Qed.
Lemma u64_range z : 0 <= u64 z < 2 ^ 64.
Proof. by apply Z.mod_pos_bound. Qed.

Lemma to_i64_small z : 0 <= z < 2 ^ 63 → to_i64 z = z.
Proof.
  intros Hz. unfold to_i64. rewrite u64_small by lia.
  destruct (Z.ltb_spec z (2 ^ 63)); lia.
Qed.

Lemma i64_check_ok z : - 2 ^ 63 <= z < 2 ^ 63 → i64_check z = Some z.
Proof.
  intros Hz. unfold i64_check.
  destruct (Z.leb_spec (- 2 ^ 63) z), (Z.ltb_spec z (2 ^ 63)); simpl; (done || lia).
Qed.

(** * C arrays: a list indexed by [Z]; an access out of range has no result. *)
Section Arrays.
Context {A : Type}.
Implicit Types (l : list A) (i : Z) (x : A).

Definition arr_get l i : option A := if i <? 0 then None else l !! Z.to_nat i.

Definition arr_set l i x : option (list A) :=
  if (0 <=? i) && (i <? Z.of_nat (length l)) then Some (<[Z.to_nat i := x]> l) else None.

(** [memcpy]/[memmove] of [src] over [l] at element [off]; the caller is
    responsible for the bounds, as in C. *)
Definition splice l (off : nat) (src : list A) : list A :=
  take off l ++ src ++ drop (off + length src) l.

Definition slice (off len : nat) l : list A := take len (drop off l).

Lemma arr_get_Some l i : 0 <= i < Z.of_nat (length l) → ∃ x, arr_get l i = Some x.
Proof.
  intros Hi. unfold arr_get. destruct (Z.ltb_spec i 0); [lia|].
  apply lookup_lt_is_Some_2. lia.
Qed.

Lemma arr_get_lookup l i x :
  arr_get l i = Some x ↔ 0 <= i ∧ l !! Z.to_nat i = Some x.
Proof. unfold arr_get. destruct (Z.ltb_spec i 0); naive_solver lia. Qed.

Lemma arr_get_nat l (n : nat) : arr_get l (Z.of_nat n) = l !! n.
Proof. unfold arr_get. destruct (Z.ltb_spec (Z.of_nat n) 0); [lia|]. by rewrite Nat2Z.id. Qed.

Lemma arr_get_bound l i x : arr_get l i = Some x → 0 <= i < Z.of_nat (length l).
Proof. rewrite arr_get_lookup. intros [? ?%lookup_lt_Some]. lia. Qed.

Lemma arr_set_ok l i x :
  0 <= i < Z.of_nat (length l) → arr_set l i x = Some (<[Z.to_nat i := x]> l).
Proof.
  intros Hi. unfold arr_set.
  destruct (Z.leb_spec 0 i), (Z.ltb_spec i (Z.of_nat (length l))); simpl; (done || lia).
Qed.

Lemma arr_set_inv l i x l' :
  arr_set l i x = Some l' → 0 <= i < Z.of_nat (length l) ∧ l' = <[Z.to_nat i := x]> l.
Proof.
  unfold arr_set.
  destruct (Z.leb_spec 0 i), (Z.ltb_spec i (Z.of_nat (length l))); simpl; naive_solver lia.
Qed.

Lemma length_splice l off src :
  (off + length src <= length l)%nat → length (splice l off src) = length l.
Proof. intros H. unfold splice. rewrite !length_app, length_take, length_drop. lia. Qed.

Lemma splice_take l off src n :
  (n <= off)%nat → (off <= length l)%nat → take n (splice l off src) = take n l.
Proof.
  intros Hn Hl. unfold splice. rewrite take_app_le by (rewrite length_take; lia).
  rewrite take_take. f_equal. lia.
Qed.

Lemma splice_slice l off src :
  (off + length src <= length l)%nat → slice off (length src) (splice l off src) = src.
Proof.
  intros H. unfold slice, splice.
  rewrite drop_app_length' by (rewrite length_take; lia).
  by rewrite take_app_length.
Qed.

Lemma length_slice off len l :
  (off + len <= length l)%nat → length (slice off len l) = len.
Proof. intros H. unfold slice. rewrite length_take, length_drop. lia. Qed.

Lemma take_splice_end l off src :
  (off <= length l)%nat → take (off + length src) (splice l off src) = take off l ++ src.
Proof.
  intros H. unfold splice. rewrite app_assoc. apply take_app_length'.
  rewrite length_app, length_take. lia.
Qed.

Lemma list_alter_insert_Some (f : A → A) l (i : nat) x :
  l !! i = Some x → alter f i l = <[i := f x]> l.
Proof.
  intros Hi. apply list_eq. intros j. destruct (decide (i = j)) as [<-|].
  - rewrite list_lookup_alter_eq, Hi, list_lookup_insert_eq by (by eapply lookup_lt_Some). done.
  - by rewrite list_lookup_alter_ne, list_lookup_insert_ne.
Qed.

Lemma filter_bool_ext (p q : A → bool) l :
  (∀ x, x ∈ l → p x = q x) → filter p l = filter q l.
Proof.
  induction l as [|x l IH]; intros H; [done|]. rewrite !filter_cons.
  rewrite (H x) by set_solver. rewrite IH by set_solver. done.
Qed.

(** Opening a gap at [pos] in the first [n] elements and filling it, and closing
    it: what the two [memmove]s of a sorted array do. *)
Lemma insert_gap l (pos n : nat) x :
  (pos <= n)%nat → (n < length l)%nat →
  take (S n) (<[pos := x]> (splice l (S pos) (slice pos (n - pos) l))) =
    take pos l ++ x :: slice pos (n - pos) l.
Proof.
  intros Hpos Hn. assert (length (slice pos (n - pos) l) = (n - pos)%nat) as Hlen
    by (apply length_slice; lia).
  rewrite take_insert_lt by lia.
  replace (S n) with (S pos + length (slice pos (n - pos) l))%nat by lia.
  rewrite take_splice_end by lia.
  rewrite insert_app_l by (rewrite length_take; lia).
  rewrite (take_S_r l pos (default x (l !! pos))).
  2:{ destruct (lookup_lt_is_Some_2 l pos) as [y Hy]; [lia|]. by rewrite Hy. }
  rewrite insert_app_r_alt by (rewrite length_take; lia).
  rewrite length_take, Nat.min_l, Nat.sub_diag by lia. cbn. by rewrite <-app_assoc.
Qed.

Lemma close_gap l (idx n : nat) :
  (idx < n)%nat → (n <= length l)%nat →
  take (n - 1) (splice l idx (slice (S idx) (n - idx - 1) l)) =
    take idx l ++ slice (S idx) (n - idx - 1) l.
Proof.
  intros Hi Hn. assert (length (slice (S idx) (n - idx - 1) l) = (n - idx - 1)%nat) as Hlen
    by (apply length_slice; lia).
  replace (n - 1)%nat with (idx + length (slice (S idx) (n - idx - 1) l))%nat by lia.
  apply take_splice_end. lia.
Qed.
End Arrays.

(** * Little-endian byte strings *)

Definition is_byte (b : Z) : Prop := 0 <= b < 256.

Fixpoint le_bytes (n : nat) (z : Z) : list Z :=
  match n with
  | O => []
  | S n => z mod 256 :: le_bytes n (z / 256)
  end.

Fixpoint le_val (bs : list Z) : Z :=
  match bs with
  | [] => 0
  | b :: bs => b + 256 * le_val bs
  end.

Lemma length_le_bytes n z : length (le_bytes n z) = n.
Proof. revert z. induction n; intros; simpl; auto. Qed.

Lemma le_bytes_bytes n z : Forall is_byte (le_bytes n z).
Proof.
  revert z. induction n as [|n IH]; intros z; simpl; constructor; [|apply IH].
  unfold is_byte. apply Z.mod_pos_bound. lia.
Qed.

Lemma le_val_le_bytes n z : le_val (le_bytes n z) = z mod 256 ^ Z.of_nat n.
Proof.
  revert z. induction n as [|n IH]; intros z; cbn [le_bytes le_val].
  - by rewrite Z.mod_1_r.
  - rewrite IH, Nat2Z.inj_succ, Z.pow_succ_r by lia.
    rewrite Z.rem_mul_r by lia. lia.
Qed.

Lemma le_val_small n z : 0 <= z < 256 ^ Z.of_nat n → le_val (le_bytes n z) = z.
Proof. intros Hz. rewrite le_val_le_bytes. by apply Z.mod_small. Qed.

Lemma le_val_range bs : Forall is_byte bs → 0 <= le_val bs < 256 ^ Z.of_nat (length bs).
Proof.
  induction 1 as [|b bs Hb Hbs IH]; cbn [le_val length]; [lia|].
  rewrite Nat2Z.inj_succ, Z.pow_succ_r by lia. unfold is_byte in Hb. lia.
Qed.

Lemma le_bytes_le_val bs : Forall is_byte bs → le_bytes (length bs) (le_val bs) = bs.
Proof.
  induction 1 as [|b bs Hb Hbs IH]; cbn [le_val length le_bytes]; [done|].
  unfold is_byte in Hb. f_equal.
  - rewrite Z.mul_comm, Z.mod_add by lia. apply Z.mod_small; lia.
  - rewrite Z.mul_comm, Z.div_add by lia. rewrite Z.div_small by lia. apply IH.
Qed.

(** A cursor over a byte buffer: the value read and the rest of the buffer. *)
Definition get_le (n : nat) (bs : list Z) : Z * list Z := (le_val (take n bs), drop n bs).

Definition get_bytes (n : nat) (bs : list Z) : list Z * list Z := (take n bs, drop n bs).

Lemma get_le_bytes n z rest :
  0 <= z < 256 ^ Z.of_nat n → get_le n (le_bytes n z ++ rest) = (z, rest).
Proof.
  intros Hz. unfold get_le.
  rewrite take_app_length' by (by rewrite length_le_bytes).
  rewrite drop_app_length' by (by rewrite length_le_bytes).
  by rewrite le_val_small.
Qed.

Lemma get_bytes_app n bs rest : length bs = n → get_bytes n (bs ++ rest) = (bs, rest).
Proof. intros <-. unfold get_bytes. by rewrite take_app_length, drop_app_length. Qed.

(** * Chunks: cutting a byte string in pieces of [n], the last one padded with
    zeros; this is how a [calloc]ed buffer of whole blocks holds an array. *)
Fixpoint chunks (k n : nat) (bs : list Z) : list (list Z) :=
  match k with
  | O => []
  | S k => (take n bs ++ replicate (n - length bs) 0) :: chunks k n (drop n bs)
  end.

Lemma length_chunks k n bs : length (chunks k n bs) = k.
Proof. revert bs. induction k; intros; simpl; auto. Qed.

Lemma chunks_lengths k n bs : Forall (λ c, length c = n) (chunks k n bs).
Proof.
  revert bs. induction k as [|k IH]; intros bs; simpl; constructor; [|apply IH].
  rewrite length_app, length_take, length_replicate. lia.
Qed.

Lemma concat_chunks k n bs :
  (length bs <= k * n)%nat →
  concat (chunks k n bs) = bs ++ replicate (k * n - length bs) 0.
Proof.
  revert bs. induction k as [|k IH]; intros bs Hl.
  { simpl in *. destruct bs; simpl in *; [done|lia]. }
  cbn [chunks concat]. rewrite IH by (rewrite length_drop; lia).
  rewrite length_drop. destruct (decide (n <= length bs)%nat).
  - replace (n - length bs)%nat with 0%nat by lia. simpl. rewrite app_nil_r.
    rewrite app_assoc, take_drop. do 2 f_equal. lia.
  - rewrite drop_ge, take_ge by lia. simpl. rewrite <-app_assoc.
    rewrite <-replicate_add. do 2 f_equal. lia.
Qed.

(** * The effect of a C function

    [M S A] is a computation over the state [S]: [None] stands for undefined
    behaviour (an array access out of range, a division by zero, a signed
    overflow) or for a loop that did not end within its fuel; theorems that give
    a [Some] result therefore include memory safety and termination. *)
Definition M (S A : Type) : Type := S → option (A * S).

#[export] Instance M_ret {S} : MRet (M S) := λ A a s, Some (a, s).
#[export] Instance M_bind {S} : MBind (M S) := λ A B f m s,
  match m s with
  | Some (a, s') => f a s'
  | None => None
  end.

Section Effects.
Context {S : Type}.

Definition undefined {A} : M S A := λ _, None.
Definition gets {A} (f : S → A) : M S A := λ s, Some (f s, s).
Definition modify (f : S → S) : M S () := λ s, Some (tt, f s).
Definition of_opt {A} (o : option A) : M S A :=
  match o with Some a => mret a | None => undefined end.

(** Iterate [body] over a list, as a [for] loop over a range does. *)
Fixpoint for_each {A} (l : list A) (body : A → M S ()) : M S () :=
  match l with
  | [] => mret tt
  | x :: l => _ ← body x; for_each l body
  end.
End Effects.

(** Total-correctness weakest precondition. *)
Definition wp {S A} (m : M S A) (Q : A → S → Prop) (s : S) : Prop :=
  match m s with
  | Some (a, s') => Q a s'
  | None => False
  end.

Section WP.
Context {S : Type}.
Implicit Types s : S.

Lemma wp_ret {A} (a : A) Q s : Q a s → wp (mret a) Q s.
Proof. done. Qed.

Lemma wp_bind {A B} (m : M S A) (f : A → M S B) Q s :
  wp m (λ a s', wp (f a) Q s') s → wp (m ≫= f) Q s.
Proof. unfold wp, mbind, M_bind. destruct (m s) as [[a s']|]; done. Qed.

Lemma wp_gets {A} (f : S → A) Q s : Q (f s) s → wp (gets f) Q s.
Proof. done. Qed.

Lemma wp_modify (f : S → S) Q s : Q tt (f s) → wp (modify f) Q s.
Proof. done. Qed.

Lemma wp_of_opt {A} (o : option A) a Q s : o = Some a → Q a s → wp (of_opt o) Q s.
Proof. by intros ->. Qed.

Lemma wp_mono {A} (m : M S A) (P Q : A → S → Prop) s :
  wp m P s → (∀ a s', P a s' → Q a s') → wp m Q s.
Proof. unfold wp. destruct (m s) as [[a s']|]; auto. Qed.

Lemma wp_intro {A} (m : M S A) Q s a s' : m s = Some (a, s') → Q a s' → wp m Q s.
Proof. unfold wp. by intros ->. Qed.

Lemma wp_elim {A} (m : M S A) Q s : wp m Q s → ∃ a s', m s = Some (a, s') ∧ Q a s'.
Proof. unfold wp. destruct (m s) as [[a s']|]; [eauto|done]. Qed.

Lemma wp_run {A} (m : M S A) Q s a s' : wp m Q s → m s = Some (a, s') → Q a s'.
Proof. unfold wp. intros H E. by rewrite E in H. Qed.

Lemma wp_and {A} (m : M S A) P Q s :
  wp m P s → wp m Q s → wp m (λ a s', P a s' ∧ Q a s') s.
Proof. unfold wp. destruct (m s) as [[a s']|]; auto. Qed.

(** A [for] loop keeps an invariant indexed by the elements still to come. *)
Lemma wp_for_each {A} (l : list A) (body : A → M S ()) (I : list A → S → Prop)
    (Q : () → S → Prop) s :
  I l s →
  (∀ x l' s, I (x :: l') s → wp (body x) (λ _ s', I l' s') s) →
  (∀ s, I [] s → Q tt s) →
  wp (for_each l body) Q s.
Proof.
  intros HI Hstep Hend. revert s HI.
  induction l as [|x l IH]; intros s HI; cbn [for_each].
  - apply wp_ret. by apply Hend.
  - apply wp_bind. eapply wp_mono; [by apply Hstep|]. intros [] s' HI'. by apply IH.
Qed.

Lemma bind_run {A B} (m : M S A) (f : A → M S B) s a s' :
  m s = Some (a, s') → (m ≫= f) s = f a s'.
Proof. unfold mbind, M_bind. by intros ->. Qed.

(** Two continuations that agree on what [m] can return are interchangeable. *)
Lemma bind_ext {A B} (m : M S A) (f g : A → M S B) s :
  (∀ a s', m s = Some (a, s') → f a s' = g a s') → (m ≫= f) s = (m ≫= g) s.
Proof. unfold mbind, M_bind. destruct (m s) as [[a s']|]; auto. Qed.

Lemma bind_Some_inv {A B} (m : M S A) (f : A → M S B) s b s'' :
  (m ≫= f) s = Some (b, s'') ↔ ∃ a s', m s = Some (a, s') ∧ f a s' = Some (b, s'').
Proof. unfold mbind, M_bind. destruct (m s) as [[a s']|]; naive_solver. Qed.
End WP.

Create HintDb lsfs discriminated.
#[export] Hint Resolve wp_ret wp_gets wp_modify : lsfs.

(** One step of symbolic execution of a [wp] goal. *)
Ltac wp_step :=
  lazymatch goal with
  | |- wp (mbind _ _) _ _ => apply wp_bind
  | |- wp (mret _) _ _ => apply wp_ret
  | |- wp (gets _) _ _ => apply wp_gets
  | |- wp (modify _) _ _ => apply wp_modify
  end; cbv beta.
Ltac wp_steps := repeat wp_step.

(** Case analysis on the integer test at the head of the goal. *)
Ltac zcase :=
  match goal with
  | |- context [Z.eqb ?a ?b] => destruct (Z.eqb_spec a b)
  | |- context [Z.ltb ?a ?b] => destruct (Z.ltb_spec a b)
  | |- context [Z.leb ?a ?b] => destruct (Z.leb_spec a b)
  end.

(** * Record update: [r <| f := v |>] and [r <| f ::= g |>]

    A record type declares its eta-expansion once ([Eta]); the setter of a field
    is found by abstracting the field's projection in it. *)
Class Eta (R : Type) := eta : R → R.
Class FieldSet {R T : Type} (proj : R → T) := field_set : (T → T) → R → R.
Arguments field_set {_ _} proj {_} _ _.

Ltac solve_field_set :=
  lazymatch goal with
  | |- @FieldSet ?R ?T ?proj =>
      let i := constr:(ltac:(typeclasses eauto) : Eta R) in
      let e := eval hnf in (@eta R i) in
      lazymatch eval pattern proj in e with
      | ?F _ =>
          let t := constr:(fun (g : T → T) (r : R) => F (fun x => g (proj x)) r) in
          let t := eval cbv beta in t in
          exact t
      end
  end.
#[export] Hint Extern 1 (FieldSet _) => solve_field_set : typeclass_instances.

Declare Scope lsfs_scope.
Delimit Scope lsfs_scope with lsfs.
Notation "r '<|' f '::=' g '|>'" := (field_set f g r)
  (at level 12, f at next level, left associativity, format "r  '<|'  f  '::='  g  '|>'") : lsfs_scope.
Notation "r '<|' f ':=' v '|>'" := (field_set f (λ _, v) r)
  (at level 12, f at next level, left associativity, format "r  '<|'  f  ':='  v  '|>'") : lsfs_scope.
#[global] Open Scope lsfs_scope.
Arguments field_set /.
