(* ===== verification/OnDisk.v ===== *)
(** On-disk format of LSFS ([include/ondisk.h]): the layout constants, the packed
    structures with their fields in declaration order, and for each structure its
    little-endian image ([enc]) and the view of a buffer through a pointer to the
    structure ([dec]).  The class [OnDisk] is the interface the rest of the
    development uses; arrays of structures are handled once for all instances. *)
From S2P Require Import Prelude.

(** * Constants *)
Definition LSFS_MAGIC : Z := 0x4C534653.
Definition LSFS_SEGMENT_MAGIC : Z := 0x5345474D.
Definition LSFS_CHECKPOINT_MAGIC : Z := 0x43484B50.
Definition LSFS_VERSION : Z := 1.
Definition LSFS_BLOCK_SIZE : Z := 4096.
Definition LSFS_SEGMENT_BLOCKS : Z := 1024.
Definition LSFS_SEGMENT_SIZE : Z := LSFS_SEGMENT_BLOCKS * LSFS_BLOCK_SIZE.
Definition LSFS_MAX_SEGMENTS : Z := 256.
Definition LSFS_MAX_INODES : Z := 65536.
Definition LSFS_SUPERBLOCK_BLOCK : Z := 0.
Definition LSFS_CHECKPOINT0_START : Z := 1.
Definition LSFS_CHECKPOINT0_BLOCKS : Z := 256.
Definition LSFS_CHECKPOINT1_START : Z := 257.
Definition LSFS_CHECKPOINT1_BLOCKS : Z := 256.
Definition LSFS_SEGTABLE_START : Z := 513.
Definition LSFS_SEGTABLE_BLOCKS : Z := 512.
Definition LSFS_LOG_START : Z := 1025.
Definition LSFS_ROOT_INO : Z := 1.
Definition LSFS_DIRECT_BLOCKS : Z := 12.
Definition LSFS_SYMLINK_INLINE_MAX : Z := 64.
Definition LSFS_NAME_MAX : Z := 255.
Definition LSFS_FT_UNKNOWN : Z := 0.
Definition LSFS_FT_REG_FILE : Z := 1.
Definition LSFS_FT_DIR : Z := 2.
Definition LSFS_FT_CHRDEV : Z := 3.
Definition LSFS_FT_BLKDEV : Z := 4.
Definition LSFS_FT_FIFO : Z := 5.
Definition LSFS_FT_SOCK : Z := 6.
Definition LSFS_FT_SYMLINK : Z := 7.
Definition LSFS_INODE_DELETED : Z := 1.
Definition LSFS_SEG_FREE : Z := 0.
Definition LSFS_SEG_ACTIVE : Z := 1.
Definition LSFS_SEG_FULL : Z := 2.
Definition LSFS_SEG_CLEANING : Z := 3.
Definition LSFS_BLOCK_TYPE_DATA : Z := 0.
Definition LSFS_BLOCK_TYPE_INODE : Z := 1.
Definition LSFS_BLOCK_TYPE_INDIRECT : Z := 2.
Definition LSFS_BLOCK_TYPE_DIRENT : Z := 3.

(** * Structures *)
Record lsfs_superblock := mk_superblock {
  sb_magic : Z; sb_version : Z; sb_block_size : Z; sb_segment_size : Z;
  sb_total_blocks : Z; sb_total_segments : Z; sb_inode_count : Z;
  sb_checkpoint_region0 : Z; sb_checkpoint_region1 : Z;
  sb_active_checkpoint : Z; sb_padding1 : Z;
  sb_log_head : Z; sb_free_segments : Z;
  sb_uuid : list Z;
  sb_created_at : Z; sb_mounted_at : Z; sb_mount_count : Z; sb_state : Z;
  sb_reserved : list Z }.

Record lsfs_inode := mk_inode {
  i_ino : Z; i_mode : Z; i_uid : Z; i_gid : Z;
  i_size : Z; i_blocks : Z; i_atime : Z; i_mtime : Z; i_ctime : Z;
  i_nlink : Z; i_flags : Z;
  i_direct : list Z;
  i_indirect : Z; i_double_indirect : Z;
  i_symlink : list Z;
  i_generation : Z;
  i_reserved : list Z }.

(** The fixed part of a directory entry; the name follows it in the buffer. *)
Record lsfs_dirent := mk_dirent {
  de_ino : Z; de_rec_len : Z; de_name_len : Z; de_file_type : Z }.

Record lsfs_imap_entry := mk_imap_entry {
  ie_ino : Z; ie_version : Z; ie_location : Z }.

Record lsfs_segment_header := mk_segment_header {
  sh_magic : Z; sh_segment_id : Z; sh_timestamp : Z; sh_block_count : Z; sh_checksum : Z }.

Record lsfs_block_info := mk_block_info {
  bi_ino : Z; bi_offset : Z; bi_type : Z; bi_reserved : list Z }.

Record lsfs_segment_usage := mk_segment_usage {
  su_segment_id : Z; su_state : Z; su_live_blocks : Z; su_reserved : Z; su_timestamp : Z }.

Record lsfs_checkpoint_header := mk_checkpoint_header {
  ch_magic : Z; ch_version : Z; ch_sequence : Z; ch_timestamp : Z; ch_log_head : Z;
  ch_imap_entries : Z; ch_segment_entries : Z; ch_checksum : Z; ch_complete : Z }.

#[export] Instance eta_superblock : Eta lsfs_superblock := λ r,
  mk_superblock (sb_magic r) (sb_version r) (sb_block_size r) (sb_segment_size r)
    (sb_total_blocks r) (sb_total_segments r) (sb_inode_count r)
    (sb_checkpoint_region0 r) (sb_checkpoint_region1 r) (sb_active_checkpoint r)
    (sb_padding1 r) (sb_log_head r) (sb_free_segments r) (sb_uuid r)
    (sb_created_at r) (sb_mounted_at r) (sb_mount_count r) (sb_state r) (sb_reserved r).
#[export] Instance eta_inode : Eta lsfs_inode := λ r,
  mk_inode (i_ino r) (i_mode r) (i_uid r) (i_gid r) (i_size r) (i_blocks r)
    (i_atime r) (i_mtime r) (i_ctime r) (i_nlink r) (i_flags r) (i_direct r)
    (i_indirect r) (i_double_indirect r) (i_symlink r) (i_generation r) (i_reserved r).
#[export] Instance eta_dirent : Eta lsfs_dirent := λ r,
  mk_dirent (de_ino r) (de_rec_len r) (de_name_len r) (de_file_type r).
#[export] Instance eta_imap_entry : Eta lsfs_imap_entry := λ r,
  mk_imap_entry (ie_ino r) (ie_version r) (ie_location r).
#[export] Instance eta_segment_header : Eta lsfs_segment_header := λ r,
  mk_segment_header (sh_magic r) (sh_segment_id r) (sh_timestamp r) (sh_block_count r)
    (sh_checksum r).
#[export] Instance eta_block_info : Eta lsfs_block_info := λ r,
  mk_block_info (bi_ino r) (bi_offset r) (bi_type r) (bi_reserved r).
#[export] Instance eta_segment_usage : Eta lsfs_segment_usage := λ r,
  mk_segment_usage (su_segment_id r) (su_state r) (su_live_blocks r) (su_reserved r)
    (su_timestamp r).
#[export] Instance eta_checkpoint_header : Eta lsfs_checkpoint_header := λ r,
  mk_checkpoint_header (ch_magic r) (ch_version r) (ch_sequence r) (ch_timestamp r)
    (ch_log_head r) (ch_imap_entries r) (ch_segment_entries r) (ch_checksum r) (ch_complete r).

(** * The interface: a packed structure and its image *)
Class OnDisk (A : Type) := {
  sizeof : nat;
  enc : A → list Z;
  dec : list Z → A;
  disk_wf : A → Prop }.
Arguments sizeof A {_}.

Class OnDiskLaws (A : Type) `{!OnDisk A} : Prop := {
  sizeof_pos : (0 < sizeof A)%nat;
  length_enc (a : A) : disk_wf a → length (enc a) = sizeof A;
  enc_bytes (a : A) : disk_wf a → Forall is_byte (enc a);
  dec_enc (a : A) rest : disk_wf a → dec (enc a ++ rest) = a;
  dec_wf bs : Forall is_byte bs → (sizeof A <= length bs)%nat → disk_wf (dec bs);
  enc_dec bs : Forall is_byte bs → (sizeof A <= length bs)%nat → enc (dec bs) = take (sizeof A) bs }.

(** Ranges of the fields. *)
Definition is_u8 (z : Z) : Prop := 0 <= z < 2 ^ 8.
Definition is_u16 (z : Z) : Prop := 0 <= z < 2 ^ 16.
Definition is_u32 (z : Z) : Prop := 0 <= z < 2 ^ 32.
Definition is_u64 (z : Z) : Prop := 0 <= z < 2 ^ 64.
Definition is_bytes (n : nat) (bs : list Z) : Prop := length bs = n ∧ Forall is_byte bs.

Notation put_u8 := (le_bytes 1).
Notation put_u16 := (le_bytes 2).
Notation put_u32 := (le_bytes 4).
Notation put_u64 := (le_bytes 8).

Lemma get_u8 z rest : is_u8 z → get_le 1 (put_u8 z ++ rest) = (z, rest).
Proof. intros Hz. apply (get_le_bytes 1). exact Hz. Qed.
Lemma get_u16 z rest : is_u16 z → get_le 2 (put_u16 z ++ rest) = (z, rest).
Proof. intros Hz. apply (get_le_bytes 2). exact Hz. Qed.
Lemma get_u32 z rest : is_u32 z → get_le 4 (put_u32 z ++ rest) = (z, rest).
Proof. intros Hz. apply (get_le_bytes 4). exact Hz. Qed.
Lemma get_u64 z rest : is_u64 z → get_le 8 (put_u64 z ++ rest) = (z, rest).
Proof. intros Hz. apply (get_le_bytes 8). exact Hz. Qed.

(** A fixed-size array of [uint64_t], as in an inode or an indirect block. *)
Definition enc_u64s (zs : list Z) : list Z := concat (put_u64 <$> zs).

Fixpoint dec_u64s (n : nat) (bs : list Z) : list Z :=
  match n with
  | O => []
  | S n => le_val (take 8 bs) :: dec_u64s n (drop 8 bs)
  end.

Lemma length_enc_u64s zs : length (enc_u64s zs) = (8 * length zs)%nat.
Proof.
  induction zs as [|z zs IH]; [done|].
  unfold enc_u64s in *. cbn [fmap list_fmap concat length].
  rewrite length_app, length_le_bytes, IH. lia.
Qed.

Lemma enc_u64s_bytes zs : Forall is_byte (enc_u64s zs).
Proof.
  apply Forall_concat, Forall_fmap, Forall_true. intros z. apply le_bytes_bytes.
Qed.

Lemma dec_enc_u64s zs rest :
  Forall is_u64 zs → dec_u64s (length zs) (enc_u64s zs ++ rest) = zs.
Proof.
  induction 1 as [|z zs Hz Hzs IH]; [done|].
  unfold enc_u64s in *. cbn [fmap list_fmap concat length dec_u64s].
  rewrite <-app_assoc.
  rewrite take_app_length' by (by rewrite length_le_bytes).
  rewrite drop_app_length' by (by rewrite length_le_bytes).
  rewrite IH, le_val_small by exact Hz. done.
Qed.

Lemma le_val_take n bs : Forall is_byte bs → 0 <= le_val (take n bs) < 256 ^ Z.of_nat n.
Proof.
  intros H. pose proof (le_val_range (take n bs) ltac:(by apply Forall_take)) as Hr.
  pose proof (Z.pow_le_mono_r 256 (Z.of_nat (length (take n bs))) (Z.of_nat n)) as Hp.
  rewrite length_take in *. lia.
Qed.

Lemma le_bytes_take n bs :
  Forall is_byte bs → (n <= length bs)%nat → le_bytes n (le_val (take n bs)) = take n bs.
Proof.
  intros Hb Hn. rewrite <-(le_bytes_le_val (take n bs)) at 2 by by apply Forall_take.
  rewrite length_take. f_equal. lia.
Qed.

Lemma dec_u64s_range n bs : Forall is_byte bs → Forall is_u64 (dec_u64s n bs).
Proof.
  revert bs. induction n as [|n IH]; intros bs Hb; cbn [dec_u64s]; constructor.
  - apply (le_val_take 8 bs Hb).
  - by apply IH, Forall_drop.
Qed.

Lemma enc_dec_u64s n bs :
  Forall is_byte bs → (8 * n <= length bs)%nat → enc_u64s (dec_u64s n bs) = take (8 * n) bs.
Proof.
  unfold enc_u64s. revert bs. induction n as [|n IH]; intros bs Hb Hn; [done|].
  cbn [dec_u64s fmap list_fmap concat].
  rewrite IH, le_bytes_take by (rewrite ?length_drop; auto using Forall_drop; lia).
  rewrite take_take_drop. f_equal. lia.
Qed.

Lemma length_dec_u64s n bs : length (dec_u64s n bs) = n.
Proof. revert bs. induction n; intros; simpl; auto. Qed.

Definition get_le_array (n : nat) (bs : list Z) : list Z * list Z :=
  (dec_u64s n bs, drop (8 * n) bs).

Lemma get_u64s n zs rest :
  length zs = n → Forall is_u64 zs → get_le_array n (enc_u64s zs ++ rest) = (zs, rest).
Proof.
  intros <- Hzs. unfold get_le_array. rewrite dec_enc_u64s by done.
  by rewrite drop_app_length' by (by rewrite length_enc_u64s).
Qed.

(** * Instances

    The lengths of the trailing [reserved] arrays are those the header declares. *)
Definition sb_reserved_len : nat := Z.to_nat 3960.
Definition i_reserved_len : nat := Z.to_nat 48.

#[export] Instance superblock_ondisk : OnDisk lsfs_superblock := {
  sizeof := 120 + sb_reserved_len;
  enc s :=
    put_u32 (sb_magic s) ++ put_u32 (sb_version s) ++ put_u32 (sb_block_size s) ++
    put_u32 (sb_segment_size s) ++ put_u64 (sb_total_blocks s) ++
    put_u64 (sb_total_segments s) ++ put_u64 (sb_inode_count s) ++
    put_u64 (sb_checkpoint_region0 s) ++ put_u64 (sb_checkpoint_region1 s) ++
    put_u32 (sb_active_checkpoint s) ++ put_u32 (sb_padding1 s) ++
    put_u64 (sb_log_head s) ++ put_u64 (sb_free_segments s) ++ sb_uuid s ++
    put_u64 (sb_created_at s) ++ put_u64 (sb_mounted_at s) ++
    put_u32 (sb_mount_count s) ++ put_u32 (sb_state s) ++ sb_reserved s;
  dec bs :=
    let '(magic, bs) := get_le 4 bs in let '(version, bs) := get_le 4 bs in
    let '(block_size, bs) := get_le 4 bs in let '(segment_size, bs) := get_le 4 bs in
    let '(total_blocks, bs) := get_le 8 bs in let '(total_segments, bs) := get_le 8 bs in
    let '(inode_count, bs) := get_le 8 bs in let '(region0, bs) := get_le 8 bs in
    let '(region1, bs) := get_le 8 bs in let '(active, bs) := get_le 4 bs in
    let '(padding1, bs) := get_le 4 bs in let '(log_head, bs) := get_le 8 bs in
    let '(free_segments, bs) := get_le 8 bs in let '(uuid, bs) := get_bytes 16 bs in
    let '(created, bs) := get_le 8 bs in let '(mounted, bs) := get_le 8 bs in
    let '(mount_count, bs) := get_le 4 bs in let '(state, bs) := get_le 4 bs in
    let '(reserved, _) := get_bytes sb_reserved_len bs in
    mk_superblock magic version block_size segment_size total_blocks total_segments
      inode_count region0 region1 active padding1 log_head free_segments uuid
      created mounted mount_count state reserved;
  disk_wf s :=
    is_u32 (sb_magic s) ∧ is_u32 (sb_version s) ∧ is_u32 (sb_block_size s) ∧
    is_u32 (sb_segment_size s) ∧ is_u64 (sb_total_blocks s) ∧
    is_u64 (sb_total_segments s) ∧ is_u64 (sb_inode_count s) ∧
    is_u64 (sb_checkpoint_region0 s) ∧ is_u64 (sb_checkpoint_region1 s) ∧
    is_u32 (sb_active_checkpoint s) ∧ is_u32 (sb_padding1 s) ∧
    is_u64 (sb_log_head s) ∧ is_u64 (sb_free_segments s) ∧ is_bytes 16 (sb_uuid s) ∧
    is_u64 (sb_created_at s) ∧ is_u64 (sb_mounted_at s) ∧ is_u32 (sb_mount_count s) ∧
    is_u32 (sb_state s) ∧ is_bytes sb_reserved_len (sb_reserved s) }.

#[export] Instance inode_ondisk : OnDisk lsfs_inode := {
  sizeof := 248 + i_reserved_len;
  enc i :=
    put_u32 (i_ino i) ++ put_u32 (i_mode i) ++ put_u32 (i_uid i) ++ put_u32 (i_gid i) ++
    put_u64 (i_size i) ++ put_u64 (i_blocks i) ++ put_u64 (i_atime i) ++
    put_u64 (i_mtime i) ++ put_u64 (i_ctime i) ++ put_u32 (i_nlink i) ++
    put_u32 (i_flags i) ++ enc_u64s (i_direct i) ++ put_u64 (i_indirect i) ++
    put_u64 (i_double_indirect i) ++ i_symlink i ++ put_u64 (i_generation i) ++
    i_reserved i;
  dec bs :=
    let '(ino, bs) := get_le 4 bs in let '(mode, bs) := get_le 4 bs in
    let '(uid, bs) := get_le 4 bs in let '(gid, bs) := get_le 4 bs in
    let '(size, bs) := get_le 8 bs in let '(blocks, bs) := get_le 8 bs in
    let '(atime, bs) := get_le 8 bs in let '(mtime, bs) := get_le 8 bs in
    let '(ctime, bs) := get_le 8 bs in let '(nlink, bs) := get_le 4 bs in
    let '(flags, bs) := get_le 4 bs in
    let '(direct, bs) := get_le_array 12 bs in
    let '(indirect, bs) := get_le 8 bs in let '(double_indirect, bs) := get_le 8 bs in
    let '(symlink, bs) := get_bytes 64 bs in let '(generation, bs) := get_le 8 bs in
    let '(reserved, _) := get_bytes i_reserved_len bs in
    mk_inode ino mode uid gid size blocks atime mtime ctime nlink flags direct indirect
      double_indirect symlink generation reserved;
  disk_wf i :=
    is_u32 (i_ino i) ∧ is_u32 (i_mode i) ∧ is_u32 (i_uid i) ∧ is_u32 (i_gid i) ∧
    is_u64 (i_size i) ∧ is_u64 (i_blocks i) ∧ is_u64 (i_atime i) ∧ is_u64 (i_mtime i) ∧
    is_u64 (i_ctime i) ∧ is_u32 (i_nlink i) ∧ is_u32 (i_flags i) ∧
    (length (i_direct i) = 12%nat ∧ Forall is_u64 (i_direct i)) ∧
    is_u64 (i_indirect i) ∧ is_u64 (i_double_indirect i) ∧ is_bytes 64 (i_symlink i) ∧
    is_u64 (i_generation i) ∧ is_bytes i_reserved_len (i_reserved i) }.

#[export] Instance dirent_ondisk : OnDisk lsfs_dirent := {
  sizeof := 8;
  enc d := put_u32 (de_ino d) ++ put_u16 (de_rec_len d) ++ put_u8 (de_name_len d) ++
           put_u8 (de_file_type d);
  dec bs :=
    let '(ino, bs) := get_le 4 bs in let '(rec_len, bs) := get_le 2 bs in
    let '(name_len, bs) := get_le 1 bs in let '(file_type, _) := get_le 1 bs in
    mk_dirent ino rec_len name_len file_type;
  disk_wf d := is_u32 (de_ino d) ∧ is_u16 (de_rec_len d) ∧ is_u8 (de_name_len d) ∧
               is_u8 (de_file_type d) }.

#[export] Instance imap_entry_ondisk : OnDisk lsfs_imap_entry := {
  sizeof := 16;
  enc e := put_u32 (ie_ino e) ++ put_u32 (ie_version e) ++ put_u64 (ie_location e);
  dec bs :=
    let '(ino, bs) := get_le 4 bs in let '(version, bs) := get_le 4 bs in
    let '(location, _) := get_le 8 bs in mk_imap_entry ino version location;
  disk_wf e := is_u32 (ie_ino e) ∧ is_u32 (ie_version e) ∧ is_u64 (ie_location e) }.

#[export] Instance segment_header_ondisk : OnDisk lsfs_segment_header := {
  sizeof := 24;
  enc h := put_u32 (sh_magic h) ++ put_u32 (sh_segment_id h) ++ put_u64 (sh_timestamp h) ++
           put_u32 (sh_block_count h) ++ put_u32 (sh_checksum h);
  dec bs :=
    let '(magic, bs) := get_le 4 bs in let '(segment_id, bs) := get_le 4 bs in
    let '(timestamp, bs) := get_le 8 bs in let '(block_count, bs) := get_le 4 bs in
    let '(checksum, _) := get_le 4 bs in
    mk_segment_header magic segment_id timestamp block_count checksum;
  disk_wf h := is_u32 (sh_magic h) ∧ is_u32 (sh_segment_id h) ∧ is_u64 (sh_timestamp h) ∧
               is_u32 (sh_block_count h) ∧ is_u32 (sh_checksum h) }.

#[export] Instance block_info_ondisk : OnDisk lsfs_block_info := {
  sizeof := 12;
  enc b := put_u32 (bi_ino b) ++ put_u32 (bi_offset b) ++ put_u8 (bi_type b) ++ bi_reserved b;
  dec bs :=
    let '(ino, bs) := get_le 4 bs in let '(offset, bs) := get_le 4 bs in
    let '(type, bs) := get_le 1 bs in let '(reserved, _) := get_bytes 3 bs in
    mk_block_info ino offset type reserved;
  disk_wf b := is_u32 (bi_ino b) ∧ is_u32 (bi_offset b) ∧ is_u8 (bi_type b) ∧
               is_bytes 3 (bi_reserved b) }.

#[export] Instance segment_usage_ondisk : OnDisk lsfs_segment_usage := {
  sizeof := 24;
  enc u := put_u32 (su_segment_id u) ++ put_u32 (su_state u) ++ put_u32 (su_live_blocks u) ++
           put_u32 (su_reserved u) ++ put_u64 (su_timestamp u);
  dec bs :=
    let '(segment_id, bs) := get_le 4 bs in let '(state, bs) := get_le 4 bs in
    let '(live_blocks, bs) := get_le 4 bs in let '(reserved, bs) := get_le 4 bs in
    let '(timestamp, _) := get_le 8 bs in
    mk_segment_usage segment_id state live_blocks reserved timestamp;
  disk_wf u := is_u32 (su_segment_id u) ∧ is_u32 (su_state u) ∧ is_u32 (su_live_blocks u) ∧
               is_u32 (su_reserved u) ∧ is_u64 (su_timestamp u) }.

#[export] Instance checkpoint_header_ondisk : OnDisk lsfs_checkpoint_header := {
  sizeof := 48;
  enc h := put_u32 (ch_magic h) ++ put_u32 (ch_version h) ++ put_u64 (ch_sequence h) ++
           put_u64 (ch_timestamp h) ++ put_u64 (ch_log_head h) ++
           put_u32 (ch_imap_entries h) ++ put_u32 (ch_segment_entries h) ++
           put_u32 (ch_checksum h) ++ put_u32 (ch_complete h);
  dec bs :=
    let '(magic, bs) := get_le 4 bs in let '(version, bs) := get_le 4 bs in
    let '(sequence, bs) := get_le 8 bs in let '(timestamp, bs) := get_le 8 bs in
    let '(log_head, bs) := get_le 8 bs in let '(imap_entries, bs) := get_le 4 bs in
    let '(segment_entries, bs) := get_le 4 bs in let '(checksum, bs) := get_le 4 bs in
    let '(complete, _) := get_le 4 bs in
    mk_checkpoint_header magic version sequence timestamp log_head imap_entries
      segment_entries checksum complete;
  disk_wf h := is_u32 (ch_magic h) ∧ is_u32 (ch_version h) ∧ is_u64 (ch_sequence h) ∧
               is_u64 (ch_timestamp h) ∧ is_u64 (ch_log_head h) ∧
               is_u32 (ch_imap_entries h) ∧ is_u32 (ch_segment_entries h) ∧
               is_u32 (ch_checksum h) ∧ is_u32 (ch_complete h) }.

(** Every instance satisfies the laws by the same argument: the lengths add up,
    and the cursor reads back the fields one after the other. *)
Ltac codec_length := rewrite !length_app, ?length_le_bytes, ?length_enc_u64s.
Ltac codec_bytes :=
  repeat (apply Forall_app; split); auto using le_bytes_bytes, enc_u64s_bytes.
Ltac codec_read :=
  repeat first
    [ rewrite get_u8 by done | rewrite get_u16 by done | rewrite get_u32 by done
    | rewrite get_u64 by done | rewrite get_bytes_app by done
    | rewrite get_u64s by done ];
  cbv iota beta zeta.
(** The other direction: the fields read from bytes are in range, and their
    encodings put side by side are the bytes that were read. *)
Ltac codec_side := rewrite ?length_drop; auto using Forall_drop, Forall_take; lia.
Ltac codec_ranges :=
  split_and!;
  repeat first
    [ apply (le_val_take 1) | apply (le_val_take 2) | apply (le_val_take 4) | apply (le_val_take 8)
    | apply length_dec_u64s | apply dec_u64s_range | split ];
  rewrite ?length_take, ?length_drop; auto 30 using Forall_drop, Forall_take; try lia.
Ltac codec_join :=
  rewrite ?drop_drop, ?le_bytes_take by codec_side;
  try (rewrite enc_dec_u64s by codec_side);
  rewrite ?app_assoc, ?take_take_drop; f_equal; try lia.
Ltac solve_codec :=
  split;
  [ cbn; lia
  | intros a Hwf; destruct a; cbn -[le_bytes enc_u64s Z.to_nat] in *; unfold is_bytes in *;
    destruct_and?; codec_length; lia
  | intros a Hwf; destruct a; cbn -[le_bytes enc_u64s Z.to_nat] in *; unfold is_bytes in *;
    destruct_and?; codec_bytes
  | intros a rest Hwf; destruct a; cbn -[le_bytes get_le get_bytes enc_u64s get_le_array Z.to_nat] in *;
    unfold is_bytes in *; destruct_and?; rewrite <-?app_assoc; codec_read; try done
  | intros bs Hb Hlen; cbn -[take drop le_val dec_u64s Z.to_nat] in *; codec_ranges
  | intros bs Hb Hlen; cbn -[take drop le_val le_bytes enc_u64s dec_u64s Z.to_nat Nat.add] in *;
    codec_join ].

#[export] Instance dirent_laws : OnDiskLaws lsfs_dirent.
Proof. solve_codec. Qed.
#[export] Instance imap_entry_laws : OnDiskLaws lsfs_imap_entry.
Proof. solve_codec. Qed.
#[export] Instance segment_header_laws : OnDiskLaws lsfs_segment_header.
Proof. solve_codec. Qed.
#[export] Instance block_info_laws : OnDiskLaws lsfs_block_info.
Proof. solve_codec. Qed.
#[export] Instance segment_usage_laws : OnDiskLaws lsfs_segment_usage.
Proof. solve_codec. Qed.
#[export] Instance checkpoint_header_laws : OnDiskLaws lsfs_checkpoint_header.
Proof. solve_codec. Qed.
#[export] Instance superblock_laws : OnDiskLaws lsfs_superblock.
Proof. solve_codec. Qed.
#[export] Instance inode_laws : OnDiskLaws lsfs_inode.
Proof. solve_codec. Qed.

(** * Arrays of structures *)
Section StructArrays.
Context {A : Type} `{!OnDisk A, !OnDiskLaws A}.
Implicit Types (l : list A) (bs : list Z).

Definition enc_array l : list Z := concat (enc <$> l).

Fixpoint dec_array (n : nat) bs : list A :=
  match n with
  | O => []
  | S n => dec bs :: dec_array n (drop (sizeof A) bs)
  end.

(** [&array[i]] over a byte buffer. *)
Definition dec_at (i : nat) bs : A := dec (drop (i * sizeof A) bs).

Lemma length_enc_array l :
  Forall disk_wf l → length (enc_array l) = (length l * sizeof A)%nat.
Proof using Type*.
  induction 1 as [|a l Ha Hl IH]; [done|].
  unfold enc_array in *. cbn [fmap list_fmap concat length].
  rewrite length_app, IH, length_enc by done. lia.
Qed.

Lemma enc_array_bytes l : Forall disk_wf l → Forall is_byte (enc_array l).
Proof using Type*.
  intros Hl. apply Forall_concat, Forall_fmap.
  eapply Forall_impl; [exact Hl|]. intros a Ha. by apply enc_bytes.
Qed.

Lemma length_dec_array n bs : length (dec_array n bs) = n.
Proof. revert bs. induction n; intros; simpl; auto. Qed.

Lemma dec_array_wf n bs :
  Forall is_byte bs → (n * sizeof A <= length bs)%nat → Forall disk_wf (dec_array n bs).
Proof using Type*.
  revert bs. induction n as [|n IH]; intros bs Hb Hn; cbn [dec_array]; constructor.
  - apply dec_wf; [done|lia].
  - apply IH; [by apply Forall_drop|]. rewrite length_drop. lia.
Qed.

Lemma dec_array_enc l rest :
  Forall disk_wf l → dec_array (length l) (enc_array l ++ rest) = l.
Proof using Type*.
  induction 1 as [|a l Ha Hl IH]; [done|].
  unfold enc_array in *. cbn [fmap list_fmap concat length dec_array].
  rewrite <-app_assoc, dec_enc by done.
  rewrite drop_app_length' by (by rewrite length_enc). by rewrite IH.
Qed.

(** A structure is decoded from its own bytes only. *)
Lemma dec_app bs rest :
  Forall is_byte bs → Forall is_byte rest → (sizeof A <= length bs)%nat → dec (bs ++ rest) = (dec bs : A).
Proof using Type*.
  intros Hb Hr Hl. assert (Forall is_byte (bs ++ rest)) as Hbr by by apply Forall_app.
  assert (sizeof A <= length (bs ++ rest))%nat as Hlr by (rewrite length_app; lia).
  rewrite <-(dec_enc (dec (bs ++ rest)) [] (dec_wf _ Hbr Hlr)), <-(dec_enc (dec bs) [] (dec_wf _ Hb Hl)).
  do 2 f_equal. rewrite !enc_dec by done. by rewrite take_app_le.
Qed.

Lemma dec_at_enc l i a rest :
  Forall disk_wf l → l !! i = Some a → dec_at i (enc_array l ++ rest) = a.
Proof using Type*.
  intros Hl Hi. unfold dec_at. revert i Hi.
  induction Hl as [|b l Hb Hl IH]; intros i Hi; [done|].
  unfold enc_array in *. cbn [fmap list_fmap concat]. rewrite <-app_assoc.
  destruct i as [|i]; simpl in Hi.
  - simplify_eq. by rewrite Nat.mul_0_l, drop_0, dec_enc.
  - replace (S i * sizeof A)%nat with (length (enc b) + i * sizeof A)%nat
      by (rewrite length_enc by done; lia).
    rewrite <-drop_drop, drop_app_length. by apply IH.
Qed.
End StructArrays.

(** * Blocks *)
Notation BS := (Z.to_nat LSFS_BLOCK_SIZE).
Definition is_block (b : list Z) : Prop := is_bytes BS b.
Definition zero_block : list Z := replicate BS 0.

Lemma mul_BS k : Z.of_nat (k * BS) = Z.of_nat k * 4096.
Proof. rewrite Nat2Z.inj_mul, Z2Nat.id by done. done. Qed.

(** A [calloc]ed buffer of [k] blocks whose beginning is overwritten by [bs]. *)
Definition to_blocks (k : nat) (bs : list Z) : list (list Z) := chunks k BS bs.

Lemma zeros_bytes n : Forall is_byte (replicate n 0).
Proof. apply Forall_replicate. unfold is_byte. lia. Qed.

Lemma zero_block_is_block : is_block zero_block.
Proof. split; [apply length_replicate|apply zeros_bytes]. Qed.

Lemma le_val_zeros n : le_val (replicate n 0) = 0.
Proof. induction n as [|n IH]; [done|]. cbn [replicate le_val]. rewrite IH. lia. Qed.

Lemma to_blocks_wf k bs : Forall is_byte bs → Forall is_block (to_blocks k bs).
Proof.
  intros Hbs. unfold to_blocks. revert bs Hbs.
  induction k as [|k IH]; intros bs Hbs; cbn [chunks]; constructor.
  - split.
    + rewrite length_app, length_take, length_replicate. lia.
    + apply Forall_app; split; [by apply Forall_take|apply zeros_bytes].
  - apply IH. by apply Forall_drop.
Qed.

Lemma length_concat_blocks (sd : list (list Z)) :
  Forall is_block sd → length (concat sd) = (length sd * BS)%nat ∧ Forall is_byte (concat sd).
Proof.
  induction 1 as [|blk sd [Hl Hb] _ [IHl IHb]]; [done|]. cbn [concat length]. rewrite length_app, IHl, Hl.
  split; [done|by apply Forall_app].
Qed.

Lemma splice_is_block blk off src :
  is_block blk → (off + length src <= BS)%nat → Forall is_byte src → is_block (splice blk off src).
Proof.
  intros [Hl Hb] Hoff Hsrc. split.
  - rewrite length_splice; lia.
  - unfold splice. repeat (apply Forall_app; split); auto using Forall_take, Forall_drop.
Qed.

#[export] Hint Resolve zero_block_is_block zeros_bytes le_bytes_bytes : lsfs.

(** * Theorems *)

(** A codec: values in range are read back whatever follows them, and a byte string
    long enough is the image of the value read from it. *)
Definition codec_ok (A : Type) `{!OnDisk A} : Prop :=
  (∀ (a : A) rest, disk_wf a → length (enc a) = sizeof A ∧ dec (enc a ++ rest) = a) ∧
  (∀ bs, Forall is_byte bs → (sizeof A <= length bs)%nat →
     disk_wf (dec bs) ∧ enc (dec bs) = take (sizeof A) bs).

Lemma codec_law A `{!OnDisk A, !OnDiskLaws A} : codec_ok A.
Proof.
  split; [intros a rest Ha; split; [by apply length_enc|by apply dec_enc]|].
  intros bs Hb Hl; split; [by apply dec_wf|by apply enc_dec].
Qed.

(** The number in the [n] bytes from [off] on. *)
Definition le_at (bs : list Z) (n off : nat) : Z := le_val (slice off n bs).

(** C32. The layout of the packed structures: whatever the bytes, each field is read from the
    offset and with the width that the declarations in [ondisk.h] give it, little-endian,
    and the structures occupy the sizes that result; encoding and
    decoding are inverse to each other, so that the offsets are also those at which the
    fields are stored. *)
Theorem structures_layout bs :
  dec bs = {| sb_magic := le_at bs 4 0; sb_version := le_at bs 4 4; sb_block_size := le_at bs 4 8;
    sb_segment_size := le_at bs 4 12; sb_total_blocks := le_at bs 8 16; sb_total_segments := le_at bs 8 24;
    sb_inode_count := le_at bs 8 32; sb_checkpoint_region0 := le_at bs 8 40;
    sb_checkpoint_region1 := le_at bs 8 48; sb_active_checkpoint := le_at bs 4 56; sb_padding1 := le_at bs 4 60;
    sb_log_head := le_at bs 8 64; sb_free_segments := le_at bs 8 72; sb_uuid := slice 80 16 bs;
    sb_created_at := le_at bs 8 96; sb_mounted_at := le_at bs 8 104; sb_mount_count := le_at bs 4 112;
    sb_state := le_at bs 4 116; sb_reserved := slice 120 (Z.to_nat 3960) bs |} ∧
  dec bs = {| i_ino := le_at bs 4 0; i_mode := le_at bs 4 4; i_uid := le_at bs 4 8; i_gid := le_at bs 4 12;
    i_size := le_at bs 8 16; i_blocks := le_at bs 8 24; i_atime := le_at bs 8 32; i_mtime := le_at bs 8 40;
    i_ctime := le_at bs 8 48; i_nlink := le_at bs 4 56; i_flags := le_at bs 4 60;
    i_direct := (λ k, le_at bs 8 (64 + 8 * k)) <$> seq 0 12; i_indirect := le_at bs 8 160;
    i_double_indirect := le_at bs 8 168; i_symlink := slice 176 64 bs; i_generation := le_at bs 8 240;
    i_reserved := slice 248 48 bs |} ∧
  dec bs = {| de_ino := le_at bs 4 0; de_rec_len := le_at bs 2 4; de_name_len := le_at bs 1 6;
    de_file_type := le_at bs 1 7 |} ∧
  dec bs = {| ie_ino := le_at bs 4 0; ie_version := le_at bs 4 4; ie_location := le_at bs 8 8 |} ∧
  dec bs = {| sh_magic := le_at bs 4 0; sh_segment_id := le_at bs 4 4; sh_timestamp := le_at bs 8 8;
    sh_block_count := le_at bs 4 16; sh_checksum := le_at bs 4 20 |} ∧
  dec bs = {| bi_ino := le_at bs 4 0; bi_offset := le_at bs 4 4; bi_type := le_at bs 1 8;
    bi_reserved := slice 9 3 bs |} ∧
  dec bs = {| su_segment_id := le_at bs 4 0; su_state := le_at bs 4 4; su_live_blocks := le_at bs 4 8;
    su_reserved := le_at bs 4 12; su_timestamp := le_at bs 8 16 |} ∧
  dec bs = {| ch_magic := le_at bs 4 0; ch_version := le_at bs 4 4; ch_sequence := le_at bs 8 8;
    ch_timestamp := le_at bs 8 16; ch_log_head := le_at bs 8 24; ch_imap_entries := le_at bs 4 32;
    ch_segment_entries := le_at bs 4 36; ch_checksum := le_at bs 4 40; ch_complete := le_at bs 4 44 |} ∧
  sizeof lsfs_superblock = Z.to_nat 4080 ∧ sizeof lsfs_inode = 296%nat ∧ sizeof lsfs_dirent = 8%nat ∧
  sizeof lsfs_imap_entry = 16%nat ∧ sizeof lsfs_segment_header = 24%nat ∧ sizeof lsfs_block_info = 12%nat ∧
  sizeof lsfs_segment_usage = 24%nat ∧ sizeof lsfs_checkpoint_header = 48%nat ∧
  codec_ok lsfs_superblock ∧ codec_ok lsfs_inode ∧ codec_ok lsfs_dirent ∧
  codec_ok lsfs_imap_entry ∧ codec_ok lsfs_segment_header ∧ codec_ok lsfs_block_info ∧
  codec_ok lsfs_segment_usage ∧ codec_ok lsfs_checkpoint_header.
Proof.
  split_and!; try (apply codec_law; apply _); try done.
  all: cbn [dec superblock_ondisk inode_ondisk dirent_ondisk imap_entry_ondisk segment_header_ondisk
            block_info_ondisk segment_usage_ondisk checkpoint_header_ondisk].
  all: unfold get_le, get_bytes, get_le_array, le_at, slice, sb_reserved_len; cbn [dec_u64s fmap list_fmap seq].
  all: rewrite ?drop_drop; cbn [Nat.add Nat.mul]; by rewrite ?drop_0.
Qed.

(** The sizes of the packed structures, computed from their declarations: every
    encoding has exactly that length, and the two sizes that the header asserts to be
    4096 and 256 are 4080 and 296, so both [_Static_assert]s are false. *)
Theorem struct_sizes (s : lsfs_superblock) (i : lsfs_inode) :
  disk_wf s → disk_wf i →
  Z.of_nat (length (enc s)) = 4080 ∧ 4080 ≠ LSFS_BLOCK_SIZE ∧
  Z.of_nat (length (enc i)) = 296 ∧ 296 ≠ 256.
Proof.
  intros Hs Hi. rewrite !length_enc by done.
  cbn [sizeof superblock_ondisk inode_ondisk].
  unfold sb_reserved_len, i_reserved_len, LSFS_BLOCK_SIZE. lia.
Qed.
