(* ===== verification/Lru.v ===== *)
(** The doubly linked LRU lists of the buffer pool ([src/io.c]) and of the inode
    cache ([src/inode.c]).  The links are modelled field by field: [lru_prev] and
    [lru_next] map the address of a node to its [prev]/[next] pointer, an absent
    entry is [NULL].  [lru_repr] relates the pointers to the list of nodes from
    the least to the most recently used one. *)
From S2P Require Import Prelude.

Record lru := mk_lru {
  lru_head : option Z; lru_tail : option Z;
  lru_prev : gmap Z Z; lru_next : gmap Z Z }.
#[export] Instance eta_lru : Eta lru := λ r,
  mk_lru (lru_head r) (lru_tail r) (lru_prev r) (lru_next r).

(** [node->field = p] *)
Definition set_link (n : Z) (p : option Z) (m : gmap Z Z) : gmap Z Z :=
  partial_alter (λ _, p) n m.

Lemma set_link_eq n p m : set_link n p m !! n = p.
Proof. apply lookup_partial_alter_eq. Qed.
Lemma set_link_ne n n' p m : n ≠ n' → set_link n p m !! n' = m !! n'.
Proof. apply lookup_partial_alter_ne. Qed.

Definition lru_empty : lru := mk_lru None None ∅ ∅.

(** ** Operations *)

(** [inode_lru_remove] *)
Definition inode_lru_remove (n : Z) (d : lru) : lru :=
  let d := match lru_prev d !! n with
           | Some p => d <| lru_next ::= set_link p (lru_next d !! n) |>
           | None => d <| lru_head := lru_next d !! n |>
           end in
  let d := match lru_next d !! n with
           | Some q => d <| lru_prev ::= set_link q (lru_prev d !! n) |>
           | None => d <| lru_tail := lru_prev d !! n |>
           end in
  d <| lru_prev ::= set_link n None |> <| lru_next ::= set_link n None |>.

(** [inode_lru_add] *)
Definition inode_lru_add (n : Z) (d : lru) : lru :=
  let d := d <| lru_prev ::= set_link n (lru_tail d) |> <| lru_next ::= set_link n None |> in
  let d := match lru_tail d with
           | Some t => d <| lru_next ::= set_link t (Some n) |>
           | None => d
           end in
  let d := d <| lru_tail := Some n |> in
  match lru_head d with
  | Some _ => d
  | None => d <| lru_head := Some n |>
  end.

(** [buffer_touch] *)
Definition buffer_touch (n : Z) (d : lru) : lru :=
  if bool_decide (Some n = lru_tail d) then d else
  let d := match lru_prev d !! n with
           | Some p => d <| lru_next ::= set_link p (lru_next d !! n) |>
           | None => d <| lru_head := lru_next d !! n |>
           end in
  let d := match lru_next d !! n with
           | Some q => d <| lru_prev ::= set_link q (lru_prev d !! n) |>
           | None => d
           end in
  let d := d <| lru_prev ::= set_link n (lru_tail d) |> <| lru_next ::= set_link n None |> in
  let d := match lru_tail d with
           | Some t => d <| lru_next ::= set_link t (Some n) |>
           | None => d
           end in
  let d := d <| lru_tail := Some n |> in
  match lru_head d with
  | Some _ => d
  | None => d <| lru_head := Some n |>
  end.

(** ** Representation *)
Record lru_repr (d : lru) (l : list Z) : Prop := {
  repr_nodup : NoDup l;
  repr_head : lru_head d = head l;
  repr_tail : lru_tail d = last l;
  repr_links l1 n l2 :
    l = l1 ++ n :: l2 → lru_prev d !! n = last l1 ∧ lru_next d !! n = head l2 }.

Lemma lru_empty_repr : lru_repr lru_empty [].
Proof. split; [constructor|done..|]. intros [] ? ? ?; simplify_list_eq. Qed.

Lemma app_split_cases (l1 l2 k1 k2 : list Z) n :
  l1 ++ l2 = k1 ++ n :: k2 →
  (∃ m, l1 = k1 ++ n :: m ∧ k2 = m ++ l2) ∨ (∃ m, k1 = l1 ++ m ∧ l2 = m ++ n :: k2).
Proof.
  intros [([|b k] & -> & H)|(k & -> & ->)]%app_eq_inv; simplify_list_eq.
  - right. exists []. by rewrite app_nil_r.
  - left. eauto.
  - right. eauto.
Qed.

Lemma set_link_set_link n p p' m : set_link n p (set_link n p' m) = set_link n p m.
Proof. unfold set_link. by rewrite partial_alter_partial_alter_eq. Qed.

(** Which links have to change for [x] to leave the list, and for [x] to be added
    at its end. *)
Lemma repr_unlink d d' l1 x l2 :
  lru_repr d (l1 ++ x :: l2) →
  lru_head d' = head (l1 ++ l2) → lru_tail d' = last (l1 ++ l2) →
  (∀ n, n ≠ x → lru_next d' !! n = if bool_decide (Some n = last l1) then head l2 else lru_next d !! n) →
  (∀ n, n ≠ x → lru_prev d' !! n = if bool_decide (Some n = head l2) then last l1 else lru_prev d !! n) →
  lru_repr d' (l1 ++ l2).
Proof.
  intros [Hnd _ _ Hl] Hh Ht Hn Hp.
  assert (x ∉ l1 ++ l2 ∧ NoDup (l1 ++ l2)) as [Hx Hnd'].
  { by apply NoDup_cons; rewrite Permutation_middle. }
  split; [done..|]. intros k1 n k2 Heq.
  assert (n ≠ x) as Hne by (intros ->; apply Hx; rewrite Heq; set_solver).
  rewrite Hn, Hp by done.
  destruct (app_split_cases _ _ _ _ _ Heq) as [(m & -> & ->)|(m & -> & ->)].
  - destruct (Hl k1 n (m ++ x :: l2)) as [Hpn Hnn]; [by simplify_list_eq|].
    rewrite (bool_decide_eq_false_2 (Some n = head l2)).
    2:{ destruct l2 as [|q l2]; [done|]. intros [= ->]. rewrite NoDup_app in Hnd'.
        destruct Hnd' as (_ & H & _). apply (H q); set_solver. }
    split; [done|]. case_bool_decide as Hlast.
    + destruct m as [|y m]; [done|]. exfalso.
      rewrite last_app_cons, last_cons_cons in Hlast.
      rewrite <-app_assoc in Hnd'. apply NoDup_app in Hnd' as (_ & _ & Hnd').
      simpl in Hnd'. apply NoDup_cons in Hnd' as [Hin _]. apply Hin.
      symmetry in Hlast. apply last_Some_elem_of in Hlast. set_solver.
    + rewrite Hnn. destruct m; [|done]. exfalso. apply Hlast. by rewrite last_snoc.
  - destruct (Hl (l1 ++ x :: m) n k2) as [Hpn Hnn]; [by simplify_list_eq|].
    rewrite (bool_decide_eq_false_2 (Some n = last l1)).
    2:{ intros H. symmetry in H. apply last_Some_elem_of in H. rewrite NoDup_app in Hnd'.
        destruct Hnd' as (_ & H' & _). apply (H' n); set_solver. }
    split; [|done]. case_bool_decide as Hhead.
    + destruct m as [|y m]; [by rewrite app_nil_r|]. exfalso. injection Hhead as ->.
      apply NoDup_app in Hnd' as (_ & _ & Hnd'). simpl in Hnd'.
      apply NoDup_cons in Hnd' as [Hin _]. set_solver.
    + rewrite Hpn. destruct m; [done|]. by rewrite !last_app_cons, last_cons_cons.
Qed.

Lemma repr_append d d' l x :
  lru_repr d l → x ∉ l →
  lru_head d' = head (l ++ [x]) → lru_tail d' = Some x →
  lru_prev d' !! x = last l → lru_next d' !! x = None →
  (∀ n, n ≠ x → lru_next d' !! n = if bool_decide (Some n = last l) then Some x else lru_next d !! n) →
  (∀ n, n ≠ x → lru_prev d' !! n = lru_prev d !! n) →
  lru_repr d' (l ++ [x]).
Proof.
  intros [Hnd _ _ Hl] Hx Hh Ht Hpx Hnx Hn Hp.
  assert (NoDup (l ++ [x])) as Hnd'.
  { apply NoDup_app. split_and!; [done| |apply NoDup_singleton]. set_solver. }
  split; [done..|by rewrite last_snoc|]. intros k1 n k2 Heq.
  destruct (app_split_cases _ _ _ _ _ Heq) as [(m & -> & ->)|(m & -> & Hm)].
  - assert (n ≠ x) as Hne by (intros ->; set_solver).
    destruct (Hl k1 n m eq_refl) as [Hpn Hnn]. rewrite Hn, Hp by done.
    split; [done|]. rewrite Hnn. case_bool_decide as Hlast.
    + destruct m as [|y m]; [done|]. exfalso.
      rewrite last_app_cons, last_cons_cons in Hlast.
      symmetry in Hlast. apply last_Some_elem_of in Hlast.
      apply NoDup_app in Hnd as (_ & _ & Hnd). apply NoDup_cons in Hnd as [Hin _]. done.
    + destruct m as [|y m]; [|done]. exfalso. apply Hlast. by rewrite last_snoc.
  - destruct m as [|? [|? ?]]; simplify_list_eq. done.
Qed.

(** ** The operations on the abstract list *)

Lemma repr_ends d l1 x l2 :
  lru_repr d (l1 ++ x :: l2) →
  lru_prev d !! x = last l1 ∧ lru_next d !! x = head l2 ∧ x ∉ l1 ∧ x ∉ l2 ∧
  last l1 ≠ Some x ∧ head l2 ≠ Some x ∧ lru_head d = head (l1 ++ x :: l2) ∧
  lru_tail d = last (l1 ++ x :: l2).
Proof.
  intros [Hnd Hh Ht Hl]. destruct (Hl l1 x l2 eq_refl) as [Hp Hn].
  apply NoDup_app in Hnd as (_ & Hd & [Hx2 _]%NoDup_cons).
  assert (x ∉ l1) as Hx1 by (intros ?%Hd; set_solver).
  split_and!; try done; intros H.
  - by apply last_Some_elem_of in H.
  - by apply head_Some_elem_of in H.
Qed.

Lemma set_link_opt n x p m :
  set_link p x m !! n = if bool_decide (Some n = Some p) then x else m !! n.
Proof.
  case_bool_decide as H.
  - injection H as ->. apply set_link_eq.
  - apply set_link_ne. congruence.
Qed.

Lemma inode_lru_remove_fields d x p q :
  lru_prev d !! x = p → lru_next d !! x = q → p ≠ Some x →
  let d' := inode_lru_remove x d in
  lru_head d' = (if p is Some _ then lru_head d else q) ∧
  lru_tail d' = (if q is Some _ then lru_tail d else p) ∧
  (∀ n, n ≠ x → lru_next d' !! n = (if bool_decide (Some n = p) then q else lru_next d !! n)) ∧
  (∀ n, n ≠ x → lru_prev d' !! n = (if bool_decide (Some n = q) then p else lru_prev d !! n)).
Proof.
  intros Hp Hq Hpx d'. subst d'. unfold inode_lru_remove. rewrite Hp.
  destruct p as [p|]; cbn; rewrite ?(set_link_ne p x) by congruence; rewrite Hq;
    destruct q as [q|]; cbn; rewrite ?Hp; split_and!; try done;
    intros n Hn; rewrite !(set_link_ne x n) by congruence; rewrite ?set_link_opt; done.
Qed.

Lemma inode_lru_remove_repr d l1 x l2 :
  lru_repr d (l1 ++ x :: l2) → lru_repr (inode_lru_remove x d) (l1 ++ l2).
Proof.
  intros Hr. destruct (repr_ends _ _ _ _ Hr) as (Hp & Hn & Hx1 & Hx2 & Hpx & Hnx & Hh & Ht).
  destruct (inode_lru_remove_fields d x _ _ Hp Hn Hpx) as (Hh' & Ht' & Hn' & Hp').
  eapply repr_unlink; [exact Hr|..|exact Hn'|exact Hp'].
  - rewrite Hh', Hh. destruct l1 as [|a l1]; [done|].
    destruct (last (a :: l1)) eqn:E; [done|]. by apply last_None in E.
  - rewrite Ht', Ht. destruct l2 as [|b l2]; simpl.
    + by rewrite app_nil_r.
    + by rewrite !last_app_cons, last_cons_cons.
Qed.

Lemma inode_lru_add_repr d l x :
  lru_repr d l → x ∉ l → lru_repr (inode_lru_add x d) (l ++ [x]).
Proof.
  intros Hr Hx. destruct Hr as [Hnd Hh Ht Hl] eqn:E. clear E.
  assert (last l ≠ Some x) as Hlx by (intros H; by apply last_Some_elem_of in H).
  eapply repr_append; [exact Hr|done|..]; unfold inode_lru_add; cbn; rewrite Ht.
  all: destruct (last l) as [t|] eqn:El; cbn; rewrite Hh.
  all: destruct (head l) as [h|] eqn:Eh; cbn.
  all: try (apply head_None in Eh; subst l; simplify_eq).
  all: try (apply last_None in El; subst l; simplify_eq).
  all: rewrite ?set_link_eq; try done.
  1: destruct l; simplify_eq/=; done.
  1: rewrite set_link_ne by congruence; apply set_link_eq.
  all: intros n Hn; rewrite ?(set_link_opt _ _ t), set_link_ne by done; done.
Qed.

(** Touching a node that is not the last one unlinks it and appends it. *)
Lemma buffer_touch_unlink d l1 x l2 :
  lru_repr d (l1 ++ x :: l2) → l2 ≠ [] →
  buffer_touch x d = inode_lru_add x (inode_lru_remove x d).
Proof.
  intros Hr Hl2. destruct (repr_ends _ _ _ _ Hr) as (Hp & Hn & Hx1 & Hx2 & Hpx & Hnx & Hh & Ht).
  destruct l2 as [|q l2]; [done|]. simpl in Hn, Hnx.
  assert (lru_tail d ≠ Some x) as Hxt.
  { rewrite Ht, last_app_cons, last_cons_cons. intros H. by apply last_Some_elem_of in H. }
  unfold buffer_touch, inode_lru_add, inode_lru_remove.
  rewrite bool_decide_eq_false_2 by congruence. rewrite Hp.
  destruct (last l1) as [p|]; cbn; rewrite ?(set_link_ne p x) by congruence; rewrite Hn; cbn;
    destruct (lru_tail d) as [t|]; cbn; destruct (lru_head d) as [h|]; cbn;
    by rewrite !set_link_set_link.
Qed.

(** [buffer_touch] makes its node the most recently used one and keeps the order
    of the others. *)
Lemma buffer_touch_repr d l1 x l2 :
  lru_repr d (l1 ++ x :: l2) → lru_repr (buffer_touch x d) (l1 ++ l2 ++ [x]).
Proof.
  intros Hr. destruct (decide (l2 = [])) as [->|Hl2].
  - destruct (repr_ends _ _ _ _ Hr) as (_ & _ & _ & _ & _ & _ & _ & Ht).
    unfold buffer_touch. rewrite Ht, last_snoc, bool_decide_eq_true_2 by done. done.
  - erewrite buffer_touch_unlink by done. rewrite app_assoc.
    destruct (repr_ends _ _ _ _ Hr) as (_ & _ & Hx1 & Hx2 & _).
    apply inode_lru_add_repr; [by apply inode_lru_remove_repr|set_solver].
Qed.

(** * Hash chains

    The chains of the buffer pool and of the inode cache: [next p] is the [next] field of
    the node at [p], if there is a node. *)

(** The nodes met from [first]. *)
Fixpoint links (next : Z → option (option Z)) (first : option Z) (ps : list Z) : Prop :=
  match ps with
  | [] => first = None
  | p :: ps => first = Some p ∧ ∃ q, next p = Some q ∧ links next q ps
  end.

Lemma links_ext next next' first ps :
  links next first ps → (∀ p, p ∈ ps → next' p = next p) → links next' first ps.
Proof.
  revert first. induction ps as [|p ps IH]; intros first; [done|].
  intros (-> & q & Hp & Hc) Hext. split; [done|]. exists q. split.
  - rewrite Hext; [done|set_solver].
  - apply IH; [done|]. set_solver.
Qed.

Lemma links_elem next first ps p : links next first ps → p ∈ ps → is_Some (next p).
Proof.
  revert first. induction ps as [|q ps IH]; intros first; [set_solver|].
  intros (_ & n & Hq & Hc) [->|Hin]%elem_of_cons; [by eexists|by eapply IH].
Qed.

(** The node before [p] skips it. *)
Lemma links_skip next next' first l1 x p l2 :
  links next first (l1 ++ x :: p :: l2) → NoDup (l1 ++ x :: p :: l2) →
  next' x = next p → (∀ q, q ≠ x → q ≠ p → next' q = next q) →
  links next' first (l1 ++ x :: l2).
Proof.
  intros Hc Hnd Hx Hq. revert first Hc Hnd. induction l1 as [|y l1 IH]; intros first; cbn [app].
  - intros (-> & nx & Hnx & -> & np & Hp & Hc) [Hxn [Hpn Hnd]%NoDup_cons]%NoDup_cons.
    split; [done|]. exists np. split; [congruence|].
    eapply links_ext; [exact Hc|]. intros z Hz. apply Hq; set_solver.
  - intros (-> & ny & Hy & Hc) [Hyn Hnd]%NoDup_cons. split; [done|]. exists ny.
    split; [|by apply IH]. rewrite Hq; [done|set_solver..].
Qed.
