(* ===== verification/Context.v ===== *)
(** The filesystem context of [include/lsfs.h]: error codes, the in-memory
    structures, the environment (clock, kernel answers, allocator, uninitialised
    memory) and the state every operation of the daemon works on. *)
From S2P Require Import Prelude OnDisk Lru.

(** * Error codes *)
Definition LSFS_OK : Z := 0.
Definition LSFS_ERR_IO : Z := -1.
Definition LSFS_ERR_NOMEM : Z := -2.
Definition LSFS_ERR_NOSPC : Z := -3.
Definition LSFS_ERR_CORRUPT : Z := -4.
Definition LSFS_ERR_EXIST : Z := -5.
Definition LSFS_ERR_NOENT : Z := -6.
Definition LSFS_ERR_NOTDIR : Z := -7.
Definition LSFS_ERR_ISDIR : Z := -8.
Definition LSFS_ERR_NOTEMPTY : Z := -9.
Definition LSFS_ERR_INVAL : Z := -10.

(** The result of a function with an out parameter: the value stored through the
    pointer when the function returns [LSFS_OK], the error code otherwise. *)
Inductive res (A : Type) := Ok (a : A) | Err (e : Z).
Arguments Ok {A} a.
Arguments Err {A} e.

(** * In-memory structures *)
Definition LSFS_INODE_CACHE_SIZE : Z := 1024.
Definition LSFS_INODE_CACHE_BUCKETS : Z := 256.
Definition LSFS_BUFFER_POOL_SIZE : Z := 256.
Definition LSFS_BUFFER_HASH_SIZE : Z := 64.

(** [struct lsfs_inode_mem]; the LRU links are kept in the cache's [ic_lru]. *)
Record lsfs_inode_mem := mk_inode_mem {
  im_disk_inode : lsfs_inode; im_disk_location : Z; im_version : Z;
  im_refcount : Z; im_dirty : bool; im_next : option Z }.

(** [struct lsfs_inode_cache]: [ic_heap] holds the allocated inodes by address,
    [ic_brk] is the next address the allocator hands out. *)
Record lsfs_inode_cache := mk_inode_cache {
  ic_heap : gmap Z lsfs_inode_mem; ic_brk : Z;
  ic_buckets : list (option Z); ic_lru : lru; ic_count : Z }.

(** [struct lsfs_imap]: [imap_entries] is the allocated array ([capacity] slots),
    of which the first [imap_count] are in use. *)
Record lsfs_imap := mk_imap {
  imap_entries : list lsfs_imap_entry; imap_capacity : Z; imap_count : Z; imap_next_ino : Z }.

(** [struct lsfs_segment_buffer]: the segment's blocks and their descriptions. *)
Record lsfs_segment_buffer := mk_segment_buffer {
  sg_data : list (list Z); sg_block_info : list lsfs_block_info;
  sg_segment_id : Z; sg_block_count : Z }.

Record lsfs_segment_table := mk_segment_table {
  st_entries : list lsfs_segment_usage; st_count : Z; st_free_count : Z }.

(** [struct lsfs_buffer]; pointers to buffers are indices in the pool's array. *)
Record lsfs_buffer := mk_buffer {
  b_data : list Z; b_block_num : Z; b_valid : bool; b_dirty : bool; b_refcount : Z;
  b_hash_next : option Z }.

Record lsfs_buffer_pool := mk_buffer_pool {
  bp_buffers : list lsfs_buffer; bp_hash : list (option Z); bp_lru : lru }.

(** What the image file received, oldest first: block writes and [fsync]s. *)
Inductive io_event :=
  | IoWrite (b : Z) (blk : list Z)
  | IoSync.

(** [struct lsfs_context], with the backing file ([c_disk] maps a block number to
    its contents, an absent block is a hole and reads as zeros), the trace of what
    was written to it, and [c_tick], the number of questions asked so far to the
    environment. *)
Record lsfs_context := mk_ctx {
  c_disk : gmap Z (list Z); c_trace : list io_event; c_disk_size : Z;
  c_sb : lsfs_superblock;
  c_icache : lsfs_inode_cache; c_imap : lsfs_imap; c_segtable : lsfs_segment_table;
  c_segbuf : lsfs_segment_buffer; c_bufpool : lsfs_buffer_pool;
  c_checkpoint_seq : Z; c_last_checkpoint : Z; c_writes_since_checkpoint : Z;
  c_gc_running : bool; c_gc_signal : bool;
  c_mounted : bool; c_readonly : bool;
  c_tick : nat }.

#[export] Instance eta_inode_mem : Eta lsfs_inode_mem := λ r,
  mk_inode_mem (im_disk_inode r) (im_disk_location r) (im_version r) (im_refcount r)
    (im_dirty r) (im_next r).
#[export] Instance eta_inode_cache : Eta lsfs_inode_cache := λ r,
  mk_inode_cache (ic_heap r) (ic_brk r) (ic_buckets r) (ic_lru r) (ic_count r).
#[export] Instance eta_imap : Eta lsfs_imap := λ r,
  mk_imap (imap_entries r) (imap_capacity r) (imap_count r) (imap_next_ino r).
#[export] Instance eta_segment_buffer : Eta lsfs_segment_buffer := λ r,
  mk_segment_buffer (sg_data r) (sg_block_info r) (sg_segment_id r) (sg_block_count r).
#[export] Instance eta_segment_table : Eta lsfs_segment_table := λ r,
  mk_segment_table (st_entries r) (st_count r) (st_free_count r).
#[export] Instance eta_buffer : Eta lsfs_buffer := λ r,
  mk_buffer (b_data r) (b_block_num r) (b_valid r) (b_dirty r) (b_refcount r) (b_hash_next r).
#[export] Instance eta_buffer_pool : Eta lsfs_buffer_pool := λ r,
  mk_buffer_pool (bp_buffers r) (bp_hash r) (bp_lru r).
#[export] Instance eta_ctx : Eta lsfs_context := λ r,
  mk_ctx (c_disk r) (c_trace r) (c_disk_size r) (c_sb r) (c_icache r) (c_imap r)
    (c_segtable r) (c_segbuf r) (c_bufpool r) (c_checkpoint_seq r) (c_last_checkpoint r)
    (c_writes_since_checkpoint r) (c_gc_running r) (c_gc_signal r) (c_mounted r)
    (c_readonly r) (c_tick r).

(** * The environment

    Everything the daemon asks from outside is an oracle indexed by the number of
    the question, so that an execution is a function of the environment.
    [env_pread]/[env_pwrite] give [None] when the kernel transfers all the bytes
    asked for, [Some n] when it stops after [n] bytes ([n < 0]: the call fails). *)
Class Env := {
  env_time : nat → Z;               (* time(NULL) *)
  env_clock : nat → Z * Z;          (* clock_gettime: seconds, nanoseconds *)
  env_pread : nat → option Z;
  env_pwrite : nat → option Z;
  env_fsync : nat → bool;
  env_alloc : nat → bool;           (* malloc, calloc, realloc, pthread_*_init *)
  env_mem : nat → list Z;           (* bytes of memory the program did not write *)
  env_rand : nat → Z;
  env_uid : Z; env_gid : Z }.

(** An environment in which no call fails. *)
Class Healthy (E : Env) : Prop := {
  healthy_pread t : env_pread t = None;
  healthy_pwrite t : env_pwrite t = None;
  healthy_fsync t : env_fsync t = true;
  healthy_alloc t : env_alloc t = true }.

Notation Op := (M lsfs_context).

(** [ret = m; if (ret != LSFS_OK) return ret; k] *)
Definition if_ok (m k : Op Z) : Op Z := ret ← m; if negb (ret =? LSFS_OK) then mret ret else k.
Notation "m ';?' k" := (if_ok m k)
  (at level 100, k at level 200, right associativity, only parsing) : lsfs_scope.

Lemma wp_if_ok m k Q s :
  wp m (λ r s', if decide (r = LSFS_OK) then wp k Q s' else Q r s') s → wp (m ;? k) Q s.
Proof.
  intros H. unfold if_ok. apply wp_bind. eapply wp_mono; [exact H|]. intros r s'.
  destruct (Z.eqb_spec r LSFS_OK); case_decide; done.
Qed.

Section Questions.
Context `{E : Env}.

Definition ask {A} (q : nat → A) : Op A := λ s,
  Some (q (c_tick s), s <| c_tick ::= S |>).

(** [(uint64_t)time(NULL)] *)
Definition time_now : Op Z := t ← ask env_time; mret (u64 t).
End Questions.

(** * Relations between the states before and after *)

(** Whenever [m] ends, the states before and after are in the relation. *)
Class Keeps `{E : Env} (R : relation lsfs_context) {A} (m : Op A) : Prop :=
  keeps s r s' : m s = Some (r, s') → R s s'.

Section Keeps.
Context `{E : Env} (R : relation lsfs_context) `{!PreOrder R}.

#[export] Instance keeps_ret {A} (a : A) : Keeps R (mret a).
Proof. by intros s r s' [= _ <-]. Qed.
#[export] Instance keeps_undefined {A} : Keeps R (undefined (A := A)).
Proof. by intros s r s'. Qed.
#[export] Instance keeps_gets {A} (f : lsfs_context → A) : Keeps R (gets f).
Proof. by intros s r s' [= _ <-]. Qed.
#[export] Instance keeps_of_opt {A} (o : option A) : Keeps R (of_opt o).
Proof. destruct o; apply _. Qed.

Lemma keeps_bind {A B} (m : Op A) (f : A → Op B) : Keeps R m → (∀ a, Keeps R (f a)) → Keeps R (m ≫= f).
Proof.
  intros Hm Hf s r s' (a & s1 & H1 & H2)%bind_Some_inv. apply Hm in H1. apply (Hf a) in H2. by etrans.
Qed.

(** The result of the first part may be used for the second. *)
Lemma keeps_bind_with {A B} (P : A → Prop) (m : Op A) (f : A → Op B) :
  (∀ s a s', m s = Some (a, s') → R s s' ∧ P a) → (∀ a, P a → Keeps R (f a)) → Keeps R (m ≫= f).
Proof.
  intros Hm Hf s r s' (a & s1 & H1 & H2)%bind_Some_inv. destruct (Hm _ _ _ H1) as [? HP]. apply (Hf a HP) in H2.
  by etrans.
Qed.

Lemma keeps_if_ok (m k : Op Z) : Keeps R m → Keeps R k → Keeps R (m ;? k).
Proof. intros Hm Hk. apply keeps_bind; [done|]. intros r. by case_match; [apply _|]. Qed.

Lemma keeps_for_each {A} (l : list A) (body : A → Op ()) : (∀ x, Keeps R (body x)) → Keeps R (for_each l body).
Proof.
  intros Hb. induction l as [|x l IH]; cbn [for_each]; [apply _|]. by apply keeps_bind.
Qed.

Lemma keeps_modify f : (∀ s, R s (f s)) → Keeps R (modify f).
Proof. by intros Hf s r s' [= _ <-]. Qed.

Lemma keeps_ask {A} (q : nat → A) : (∀ s, R s (s <| c_tick ::= S |>)) → Keeps R (ask q).
Proof. by intros Hf s r s' [= _ <-]. Qed.
End Keeps.

(** Follows the structure of a function down to the functions it calls; [tac] shows that a
    single step is in the relation. *)
Ltac keeping tac :=
  repeat (intros; cbv zeta; lazymatch goal with
  | |- Keeps _ (_ ;? _) => apply keeps_if_ok; [apply _|..]
  | |- Keeps _ (_ ≫= _) => apply keeps_bind; [apply _|..]
  | |- Keeps _ (for_each _ _) => apply keeps_for_each; [apply _|]
  | |- Keeps _ (modify _) => apply keeps_modify; tac
  | |- Keeps _ (ask _) => apply keeps_ask; tac
  | |- Keeps _ (match ?x with _ => _ end) => destruct x
  | |- Keeps _ _ => solve [apply _]
  end).

(** A concrete environment: a clock that stands still, no failures. *)
Definition still_env (now : Z) : Env := {|
  env_time _ := now; env_clock _ := (now, 0);
  env_pread _ := None; env_pwrite _ := None; env_fsync _ := true; env_alloc _ := true;
  env_mem _ := zero_block; env_rand _ := 0; env_uid := 0; env_gid := 0 |}.

#[export] Instance still_env_healthy now : Healthy (still_env now).
Proof. by split. Qed.
