(* ===== verification/Io.v ===== *)
(** The block I/O layer, [src/io.c] lines 72-186: reading and writing whole
    blocks of the image file with bounds checks, short transfers and the read-only
    flag, and [fsync]. *)
From S2P Require Import Prelude OnDisk Lru Context.

(** * The image file *)
Definition disk_block (d : gmap Z (list Z)) (b : Z) : list Z := default zero_block (d !! b).

Definition disk_blocks (d : gmap Z (list Z)) (start : Z) (count : nat) : list (list Z) :=
  (λ i : nat, disk_block d (start + Z.of_nat i)) <$> seq 0 count.

(** The blocks a [pwrite] of [blks] at block [start] changes when [n] bytes are
    transferred; the last one may be written in part. *)
Fixpoint pwrite_updates (d : gmap Z (list Z)) (start : Z) (blks : list (list Z)) (n : Z)
    : list (Z * list Z) :=
  match blks with
  | [] => []
  | blk :: blks =>
      if LSFS_BLOCK_SIZE <=? n
      then (start, blk) :: pwrite_updates d (start + 1) blks (n - LSFS_BLOCK_SIZE)
      else if 0 <? n
      then [(start, take (Z.to_nat n) blk ++ drop (Z.to_nat n) (disk_block d start))]
      else []
  end.

Definition apply_updates (d : gmap Z (list Z)) (us : list (Z * list Z)) : gmap Z (list Z) :=
  foldl (λ d u, <[u.1 := u.2]> d) d us.

Section Io.
Context `{E : Env}.

(** [pread] of [size] bytes (whole blocks) at [off]: the blocks when the whole
    request was served, [None] otherwise. *)
Definition sys_pread (off : Z) (count : Z) : Op (option (list (list Z))) :=
  r ← ask env_pread;
  size ← gets c_disk_size;
  d ← gets c_disk;
  mret (if (0 <=? off) && (off + count * LSFS_BLOCK_SIZE <=? size) then
          match r with
          | None => Some (disk_blocks d (off / LSFS_BLOCK_SIZE) (Z.to_nat count))
          | Some _ => None
          end
        else None).

(** [pwrite]: the number of bytes transferred, and the file is updated. *)
Definition sys_pwrite (off : Z) (blks : list (list Z)) : Op Z :=
  r ← ask env_pwrite;
  let size := Z.of_nat (length blks) * LSFS_BLOCK_SIZE in
  let n := if 0 <=? off then match r with None => size | Some n => Z.min n size end else -1 in
  d ← gets c_disk;
  let us := pwrite_updates d (off / LSFS_BLOCK_SIZE) blks n in
  _ ← modify (λ s, s <| c_disk := apply_updates d us |>
                     <| c_trace ::= λ tr, tr ++ ((λ u, IoWrite u.1 u.2) <$> us) |>);
  mret n.

Definition lsfs_read_block (block_num : Z) : Op (res (list Z)) :=
  offset ← of_opt (i64_check (to_i64 block_num * LSFS_BLOCK_SIZE));
  fin ← of_opt (i64_check (offset + LSFS_BLOCK_SIZE));
  size ← gets c_disk_size;
  if to_i64 size <? fin then mret (Err LSFS_ERR_IO) else
  r ← sys_pread offset 1;
  match r with
  | Some [blk] => mret (Ok blk)
  | _ => mret (Err LSFS_ERR_IO)
  end.

Definition lsfs_write_block (block_num : Z) (buf : list Z) : Op Z :=
  offset ← of_opt (i64_check (to_i64 block_num * LSFS_BLOCK_SIZE));
  ro ← gets c_readonly;
  if (ro : bool) then mret LSFS_ERR_IO else
  fin ← of_opt (i64_check (offset + LSFS_BLOCK_SIZE));
  size ← gets c_disk_size;
  if to_i64 size <? fin then mret LSFS_ERR_IO else
  n ← sys_pwrite offset [buf];
  mret (if n =? LSFS_BLOCK_SIZE then LSFS_OK else LSFS_ERR_IO).

Definition lsfs_read_blocks (start_block : Z) (count : Z) : Op (res (list (list Z))) :=
  offset ← of_opt (i64_check (to_i64 start_block * LSFS_BLOCK_SIZE));
  let size := u64 (count * LSFS_BLOCK_SIZE) in
  fin ← of_opt (i64_check (offset + to_i64 size));
  dsize ← gets c_disk_size;
  if to_i64 dsize <? fin then mret (Err LSFS_ERR_IO) else
  r ← sys_pread offset count;
  match r with
  | Some blks => mret (Ok blks)
  | None => mret (Err LSFS_ERR_IO)
  end.

Definition lsfs_write_blocks (start_block : Z) (blks : list (list Z)) : Op Z :=
  offset ← of_opt (i64_check (to_i64 start_block * LSFS_BLOCK_SIZE));
  let size := u64 (Z.of_nat (length blks) * LSFS_BLOCK_SIZE) in
  ro ← gets c_readonly;
  if (ro : bool) then mret LSFS_ERR_IO else
  fin ← of_opt (i64_check (offset + to_i64 size));
  dsize ← gets c_disk_size;
  if to_i64 dsize <? fin then mret LSFS_ERR_IO else
  n ← sys_pwrite offset blks;
  mret (if n =? to_i64 size then LSFS_OK else LSFS_ERR_IO).

Definition lsfs_sync : Op Z :=
  ok ← ask env_fsync;
  if (ok : bool) then
    _ ← modify (λ s, s <| c_trace ::= λ tr, tr ++ [IoSync] |>);
    mret LSFS_OK
  else mret LSFS_ERR_IO.
End Io.

(** * Facts about the image file *)

(** The updates of a complete write. *)
Fixpoint place (start : Z) (blks : list (list Z)) : list (Z * list Z) :=
  match blks with
  | [] => []
  | blk :: blks => (start, blk) :: place (start + 1) blks
  end.

Definition write_range (start : Z) (blks : list (list Z)) (d : gmap Z (list Z)) :=
  apply_updates d (place start blks).

Definition writes (start : Z) (blks : list (list Z)) : list io_event :=
  (λ u, IoWrite u.1 u.2) <$> place start blks.

Lemma pwrite_updates_full d start blks :
  pwrite_updates d start blks (Z.of_nat (length blks) * LSFS_BLOCK_SIZE) = place start blks.
Proof.
  revert start. induction blks as [|blk blks IH]; intros start; [done|].
  cbn [pwrite_updates place length]. unfold LSFS_BLOCK_SIZE in *.
  destruct (Z.leb_spec 4096 (Z.of_nat (S (length blks)) * 4096)); [|lia].
  f_equal. rewrite <-IH. f_equal. lia.
Qed.

Lemma disk_block_insert d b blk b' :
  disk_block (<[b := blk]> d) b' = if decide (b = b') then blk else disk_block d b'.
Proof. unfold disk_block. rewrite lookup_insert. by case_decide. Qed.

Lemma apply_updates_outside d us b :
  b ∉ us.*1 → disk_block (apply_updates d us) b = disk_block d b.
Proof.
  revert d. induction us as [|[b' blk] us IH]; intros d Hb; [done|].
  cbn [apply_updates foldl fst snd] in *. fold (apply_updates (<[b':=blk]> d) us).
  rewrite IH by set_solver. rewrite disk_block_insert, decide_False by set_solver. done.
Qed.

Lemma pwrite_updates_range d start blks n b :
  b ∈ (pwrite_updates d start blks n).*1 → start <= b < start + Z.of_nat (length blks).
Proof.
  revert start n. induction blks as [|blk blks IH]; intros start n Hb; [set_solver|].
  cbn [pwrite_updates length] in *. repeat case_match; cbn in Hb.
  - apply elem_of_cons in Hb as [->|Hb]; [lia|]. apply IH in Hb. lia.
  - apply elem_of_cons in Hb as [->|Hb]; [lia|set_solver].
  - set_solver.
Qed.

Lemma place_range start blks b :
  b ∈ (place start blks).*1 → start <= b < start + Z.of_nat (length blks).
Proof. rewrite <-(pwrite_updates_full ∅). apply pwrite_updates_range. Qed.

Lemma write_range_outside d start blks b :
  ¬ start <= b < start + Z.of_nat (length blks) →
  disk_block (write_range start blks d) b = disk_block d b.
Proof. intros Hb. apply apply_updates_outside. by intros ?%place_range. Qed.

Lemma write_range_inside d start blks i blk :
  blks !! i = Some blk → disk_block (write_range start blks d) (start + Z.of_nat i) = blk.
Proof.
  unfold write_range. revert d start i.
  induction blks as [|blk' blks IH]; intros d start i Hi; [done|].
  cbn [place apply_updates foldl fst snd].
  fold (apply_updates (<[start := blk']> d) (place (start + 1) blks)).
  destruct i as [|i]; simpl in Hi.
  - simplify_eq. rewrite Z.add_0_r, apply_updates_outside.
    + by rewrite disk_block_insert, decide_True.
    + intros ?%place_range. lia.
  - replace (start + Z.of_nat (S i)) with (start + 1 + Z.of_nat i) by lia. by apply IH.
Qed.

Lemma length_disk_blocks d start count : length (disk_blocks d start count) = count.
Proof. unfold disk_blocks. by rewrite length_fmap, length_seq. Qed.

Lemma disk_blocks_lookup d start count i :
  (i < count)%nat → disk_blocks d start count !! i = Some (disk_block d (start + Z.of_nat i)).
Proof.
  intros Hi. unfold disk_blocks. rewrite list_lookup_fmap, lookup_seq_lt by done. done.
Qed.

Lemma disk_blocks_write_range d start blks :
  disk_blocks (write_range start blks d) start (length blks) = blks.
Proof.
  apply list_eq_same_length with (length blks); [done|by rewrite length_disk_blocks|].
  intros i x y Hi Hx Hy. rewrite disk_blocks_lookup in Hx by done. simplify_eq.
  by apply write_range_inside.
Qed.

Lemma disk_blocks_ext d d' start count :
  (∀ b, start <= b < start + Z.of_nat count → disk_block d b = disk_block d' b) →
  disk_blocks d start count = disk_blocks d' start count.
Proof.
  intros H. apply list_eq_same_length with count; rewrite ?length_disk_blocks; [done..|].
  intros i x y Hi Hx Hy. rewrite disk_blocks_lookup in Hx, Hy by done. simplify_eq.
  apply H. lia.
Qed.

(** * What the I/O operations do *)

(** [n] blocks from block [b] lie within the image. *)
Definition in_disk (s : lsfs_context) (b n : Z) : Prop :=
  0 <= b ∧ 0 <= n ∧ (b + n) * LSFS_BLOCK_SIZE <= c_disk_size s < 2 ^ 63.

(** No byte offset of these blocks overflows [off_t]. *)
Definition addressable (s : lsfs_context) (b n : Z) : Prop :=
  0 <= b ∧ 0 <= n ∧ b + n < 2 ^ 51 ∧ 0 <= c_disk_size s < 2 ^ 63.

Lemma in_disk_addressable s b n : in_disk s b n → addressable s b n.
Proof. unfold in_disk, addressable, LSFS_BLOCK_SIZE. lia. Qed.

(** The image holds bytes: every block of it is one of [LSFS_BLOCK_SIZE] bytes. *)
Definition disk_ok (s : lsfs_context) : Prop := ∀ b, is_block (disk_block (c_disk s) b).

(** Only the image, its trace and the environment's clock change. *)
Definition io_frame (s s' : lsfs_context) : Prop :=
  s' = s <| c_disk := c_disk s' |> <| c_trace := c_trace s' |> <| c_tick := c_tick s' |>.

Lemma io_frame_refl s : io_frame s s.
Proof. by destruct s. Qed.
#[export] Hint Resolve io_frame_refl : core.

Lemma io_frame_trans s1 s2 s3 : io_frame s1 s2 → io_frame s2 s3 → io_frame s1 s3.
Proof. unfold io_frame. intros -> ->. by destruct s1. Qed.

(** I/O that leaves the blocks from [k] on as they are. *)
Definition io_below (k : Z) (s s' : lsfs_context) : Prop :=
  io_frame s s' ∧ (disk_ok s → disk_ok s') ∧ ∀ b, k <= b → disk_block (c_disk s') b = disk_block (c_disk s) b.

Lemma io_below_refl k s : io_below k s s.
Proof. done. Qed.
Lemma io_below_trans k s1 s2 s3 : io_below k s1 s2 → io_below k s2 s3 → io_below k s1 s3.
Proof.
  intros (H1 & Hb1 & Hd1) (H2 & Hb2 & Hd2). split_and!; [by eapply io_frame_trans|auto|].
  intros b Hb. by rewrite Hd2, Hd1.
Qed.
#[export] Hint Resolve io_below_refl : core.

Definition after_write (start : Z) (blks : list (list Z)) (s : lsfs_context) : lsfs_context :=
  s <| c_disk ::= write_range start blks |> <| c_trace ::= λ tr, tr ++ writes start blks |>
    <| c_tick ::= S |>.

Definition ticked (s : lsfs_context) : lsfs_context := s <| c_tick ::= S |>.

Section IoSpecs.
Context `{E : Env}.
Implicit Types s : lsfs_context.

Lemma off_check b k : 0 <= b → 0 <= k → b + k < 2 ^ 51 →
  i64_check (to_i64 b * LSFS_BLOCK_SIZE) = Some (b * LSFS_BLOCK_SIZE) ∧
  to_i64 (u64 (k * LSFS_BLOCK_SIZE)) = k * LSFS_BLOCK_SIZE ∧
  i64_check (b * LSFS_BLOCK_SIZE + k * LSFS_BLOCK_SIZE) = Some ((b + k) * LSFS_BLOCK_SIZE).
Proof.
  unfold LSFS_BLOCK_SIZE. intros Hb Hk Hbk. rewrite to_i64_small by lia.
  rewrite u64_small, to_i64_small by lia. rewrite !i64_check_ok by lia.
  split_and!; [done..|]. f_equal. lia.
Qed.

Lemma div_off b : b * LSFS_BLOCK_SIZE / LSFS_BLOCK_SIZE = b.
Proof. by apply Z.div_mul. Qed.

(** Reading: the result depends on the bounds and on the kernel's answer. *)
Lemma read_blocks_run s b k :
  addressable s b k →
  lsfs_read_blocks b k s =
    if (b + k) * LSFS_BLOCK_SIZE <=? c_disk_size s then
      match env_pread (c_tick s) with
      | None => Some (Ok (disk_blocks (c_disk s) b (Z.to_nat k)), ticked s)
      | Some _ => Some (Err LSFS_ERR_IO, ticked s)
      end
    else Some (Err LSFS_ERR_IO, s).
Proof.
  intros (Hb & Hk & Hbk & Hsz). destruct (off_check b k Hb Hk Hbk) as (H1 & H2 & H3).
  unfold lsfs_read_blocks, mbind, M_bind, of_opt, gets. rewrite H1. cbn -[sys_pread].
  rewrite H2, H3. cbn -[sys_pread]. rewrite to_i64_small by done.
  destruct (Z.ltb_spec (c_disk_size s) ((b + k) * LSFS_BLOCK_SIZE)),
    (Z.leb_spec ((b + k) * LSFS_BLOCK_SIZE) (c_disk_size s)); try lia; [done|].
  unfold sys_pread, ask, mbind, M_bind, gets, mret, M_ret. cbn.
  rewrite div_off. unfold LSFS_BLOCK_SIZE in *.
  destruct (Z.leb_spec 0 (b * 4096)), (Z.leb_spec (b * 4096 + k * 4096) (c_disk_size s)); try lia.
  by destruct (env_pread (c_tick s)).
Qed.

Lemma read_block_run s b :
  addressable s b 1 →
  lsfs_read_block b s =
    if (b + 1) * LSFS_BLOCK_SIZE <=? c_disk_size s then
      match env_pread (c_tick s) with
      | None => Some (Ok (disk_block (c_disk s) b), ticked s)
      | Some _ => Some (Err LSFS_ERR_IO, ticked s)
      end
    else Some (Err LSFS_ERR_IO, s).
Proof.
  intros (Hb & Hk & Hbk & Hsz). destruct (off_check b 1 Hb Hk Hbk) as (H1 & _ & H3).
  unfold lsfs_read_block, mbind, M_bind, of_opt, gets. rewrite H1. cbn -[sys_pread].
  rewrite Z.mul_1_l in H3. rewrite H3. cbn -[sys_pread]. rewrite to_i64_small by done.
  destruct (Z.ltb_spec (c_disk_size s) ((b + 1) * LSFS_BLOCK_SIZE)),
    (Z.leb_spec ((b + 1) * LSFS_BLOCK_SIZE) (c_disk_size s)); try lia; [done|].
  unfold sys_pread, ask, mbind, M_bind, gets, mret, M_ret. cbn.
  rewrite div_off. unfold LSFS_BLOCK_SIZE in *.
  destruct (Z.leb_spec 0 (b * 4096)), (Z.leb_spec (b * 4096 + 1 * 4096) (c_disk_size s)); try lia.
  destruct (env_pread (c_tick s)); [done|].
  unfold disk_blocks. change (Z.to_nat 1) with 1%nat. cbn. by rewrite Z.add_0_r.
Qed.

(** The bytes a [pwrite] transfers when the kernel answers [r]. *)
Definition transferred (r : option Z) (size : Z) : Z :=
  match r with None => size | Some n => Z.min n size end.

Definition after_pwrite (b : Z) (blks : list (list Z)) (n : Z) s : lsfs_context :=
  let us := pwrite_updates (c_disk s) b blks n in
  s <| c_disk ::= λ d, apply_updates d us |>
    <| c_trace ::= λ tr, tr ++ ((λ u, IoWrite u.1 u.2) <$> us) |> <| c_tick ::= S |>.

Lemma write_blocks_run s b blks :
  addressable s b (Z.of_nat (length blks)) →
  lsfs_write_blocks b blks s =
    if c_readonly s then Some (LSFS_ERR_IO, s) else
    let size := Z.of_nat (length blks) * LSFS_BLOCK_SIZE in
    if b * LSFS_BLOCK_SIZE + size <=? c_disk_size s then
      let n := transferred (env_pwrite (c_tick s)) size in
      Some (if n =? size then LSFS_OK else LSFS_ERR_IO, after_pwrite b blks n s)
    else Some (LSFS_ERR_IO, s).
Proof.
  intros (Hb & Hk & Hbk & Hsz).
  destruct (off_check b (Z.of_nat (length blks)) Hb Hk Hbk) as (H1 & H2 & H3).
  unfold lsfs_write_blocks, mbind, M_bind, of_opt, gets. rewrite H1. cbn -[sys_pwrite].
  destruct (c_readonly s); [done|]. rewrite H2, H3. cbn -[sys_pwrite].
  rewrite to_i64_small by done. rewrite <-Z.mul_add_distr_r.
  destruct (Z.ltb_spec (c_disk_size s) ((b + Z.of_nat (length blks)) * LSFS_BLOCK_SIZE)),
    (Z.leb_spec ((b + Z.of_nat (length blks)) * LSFS_BLOCK_SIZE) (c_disk_size s)); try lia; [done|].
  unfold sys_pwrite, ask, mbind, M_bind, gets, modify, mret, M_ret. cbn.
  rewrite div_off. unfold LSFS_BLOCK_SIZE in *.
  destruct (Z.leb_spec 0 (b * 4096)); [done|lia].
Qed.

Lemma write_block_run s b blk :
  addressable s b 1 →
  lsfs_write_block b blk s =
    if c_readonly s then Some (LSFS_ERR_IO, s) else
    if (b + 1) * LSFS_BLOCK_SIZE <=? c_disk_size s then
      let n := transferred (env_pwrite (c_tick s)) LSFS_BLOCK_SIZE in
      Some (if n =? LSFS_BLOCK_SIZE then LSFS_OK else LSFS_ERR_IO, after_pwrite b [blk] n s)
    else Some (LSFS_ERR_IO, s).
Proof.
  intros (Hb & Hk & Hbk & Hsz). destruct (off_check b 1 Hb Hk Hbk) as (H1 & _ & H3).
  unfold lsfs_write_block, mbind, M_bind, of_opt, gets. rewrite H1. cbn -[sys_pwrite].
  rewrite Z.mul_1_l in H3. destruct (c_readonly s); [done|]. rewrite H3. cbn -[sys_pwrite].
  rewrite to_i64_small by done.
  destruct (Z.ltb_spec (c_disk_size s) ((b + 1) * LSFS_BLOCK_SIZE)),
    (Z.leb_spec ((b + 1) * LSFS_BLOCK_SIZE) (c_disk_size s)); try lia; [done|].
  unfold sys_pwrite, ask, mbind, M_bind, gets, modify, mret, M_ret. cbn.
  rewrite div_off. unfold LSFS_BLOCK_SIZE in *.
  destruct (Z.leb_spec 0 (b * 4096)); [done|lia].
Qed.
End IoSpecs.

(** A write that reports success wrote everything. *)
Lemma write_blocks_success `{E : Env} s b blks s' :
  addressable s b (Z.of_nat (length blks)) →
  lsfs_write_blocks b blks s = Some (LSFS_OK, s') → s' = after_write b blks s.
Proof.
  intros Ha Hw. rewrite write_blocks_run in Hw by done.
  destruct (c_readonly s); [done|]. cbv zeta in Hw. case_match; [|done].
  injection Hw as Hn <-. case_match eqn:Hfull; [|done]. apply Z.eqb_eq in Hfull.
  unfold after_pwrite, after_write, writes, write_range. by rewrite Hfull, pwrite_updates_full.
Qed.

(** In every environment the I/O operations return and touch nothing else. *)
Section FrameIo.
Context `{E : Env}.
Implicit Types s : lsfs_context.

Lemma read_block_frame s b :
  addressable s b 1 →
  wp (lsfs_read_block b) (λ r s', io_frame s s' ∧
    (r = Ok (disk_block (c_disk s) b) ∨ r = Err LSFS_ERR_IO) ∧ c_disk s' = c_disk s) s.
Proof. intros H. unfold wp. rewrite read_block_run by done. repeat case_match; simplify_eq; split_and!; by auto. Qed.

Lemma read_blocks_frame s b k :
  addressable s b k →
  wp (lsfs_read_blocks b k) (λ r s', io_frame s s' ∧
    (r = Ok (disk_blocks (c_disk s) b (Z.to_nat k)) ∨ r = Err LSFS_ERR_IO) ∧
    c_disk s' = c_disk s) s.
Proof. intros H. unfold wp. rewrite read_blocks_run by done. repeat case_match; simplify_eq; split_and!; by auto. Qed.

Lemma write_blocks_frame s b blks :
  addressable s b (Z.of_nat (length blks)) →
  wp (lsfs_write_blocks b blks) (λ _ s', io_frame s s' ∧
    ∀ b', ¬ b <= b' < b + Z.of_nat (length blks) →
      disk_block (c_disk s') b' = disk_block (c_disk s) b') s.
Proof.
  intros H. unfold wp. rewrite write_blocks_run by done. cbv zeta.
  repeat case_match; simplify_eq; (split; [done|]); intros b' Hb'; try done.
  all: apply apply_updates_outside; by intros ?%pwrite_updates_range.
Qed.

Lemma write_block_frame s b blk :
  addressable s b 1 →
  wp (lsfs_write_block b blk) (λ _ s', io_frame s s' ∧
    ∀ b', b' ≠ b → disk_block (c_disk s') b' = disk_block (c_disk s) b') s.
Proof.
  intros H. unfold wp. rewrite write_block_run by done. cbv zeta.
  repeat case_match; simplify_eq; (split; [done|]); intros b' Hb'; try done.
  all: apply apply_updates_outside; intros ?%pwrite_updates_range; cbn in *; lia.
Qed.

Lemma sync_frame s : wp lsfs_sync (λ _ s', io_frame s s' ∧ c_disk s' = c_disk s) s.
Proof. unfold wp, lsfs_sync, ask, mbind, M_bind. by destruct (env_fsync (c_tick s)). Qed.

(** Bytes written over bytes give bytes, also when the kernel stops in a block. *)
Lemma pwrite_updates_bytes d start blks n :
  Forall is_block blks → (∀ b, is_block (disk_block d b)) →
  ∀ b, is_block (disk_block (apply_updates d (pwrite_updates d start blks n)) b).
Proof.
  intros Hblks Hd. set (d0 := d). assert (∀ b, is_block (disk_block d0 b)) as Hd0 by done.
  unfold d0 at 1. clearbody d0. revert start n d Hd. induction Hblks as [|blk blks Hblk _ IH]; intros start n d Hd; [done|].
  cbn [pwrite_updates]. destruct (LSFS_BLOCK_SIZE <=? n).
  - cbn. apply IH. intros b. rewrite disk_block_insert. by case_decide.
  - destruct (0 <? n); [|done]. intros b. cbn. rewrite disk_block_insert. case_decide; [|done].
    destruct Hblk as [Hl Hb], (Hd0 start) as [Hl' Hb']. split.
    + rewrite length_app, length_take, length_drop. lia.
    + apply Forall_app. auto using Forall_take, Forall_drop.
Qed.

Lemma write_blocks_bytes s b blks :
  addressable s b (Z.of_nat (length blks)) → Forall is_block blks → disk_ok s →
  wp (lsfs_write_blocks b blks) (λ _ s', disk_ok s') s.
Proof.
  intros H Hb Hok. unfold wp. rewrite write_blocks_run by done. cbv zeta.
  repeat case_match; simplify_eq; try done; intros b'; by apply pwrite_updates_bytes.
Qed.

Lemma write_blocks_below k s b blks :
  addressable s b (Z.of_nat (length blks)) → b + Z.of_nat (length blks) <= k → Forall is_block blks →
  wp (lsfs_write_blocks b blks) (λ _ s', io_below k s s') s.
Proof.
  intros H Hk Hb. destruct (wp_elim _ _ _ (write_blocks_frame s b blks H)) as (r & s' & Hrun & Hf & Ho).
  eapply wp_intro; [exact Hrun|]. split_and!; [done| |].
  - intros Hok. exact (wp_run _ _ _ _ _ (write_blocks_bytes s b blks H Hb Hok) Hrun).
  - intros b' Hb'. apply Ho. lia.
Qed.

Lemma write_block_bytes s b blk :
  addressable s b 1 → is_block blk → disk_ok s → wp (lsfs_write_block b blk) (λ _ s', disk_ok s') s.
Proof.
  intros H Hb Hok. unfold wp. rewrite write_block_run by done. cbv zeta.
  repeat case_match; simplify_eq; try done; intros b'; apply pwrite_updates_bytes; auto.
Qed.

Lemma write_block_below k s b blk :
  addressable s b 1 → b < k → is_block blk → wp (lsfs_write_block b blk) (λ _ s', io_below k s s') s.
Proof.
  intros H Hk Hb. destruct (wp_elim _ _ _ (write_block_frame s b blk H)) as (r & s' & Hrun & Hf & Ho).
  eapply wp_intro; [exact Hrun|]. split_and!; [done| |].
  - intros Hok. exact (wp_run _ _ _ _ _ (write_block_bytes s b blk H Hb Hok) Hrun).
  - intros b' Hb'. apply Ho. lia.
Qed.

Lemma sync_below k s : wp lsfs_sync (λ _ s', io_below k s s') s.
Proof.
  eapply wp_mono; [apply sync_frame|]. intros r s' [Hf Hd]. unfold io_below, disk_ok. by rewrite Hd.
Qed.

Lemma ask_frame {A} (q : nat → A) s : wp (ask q) (λ a s', io_frame s s' ∧ a = q (c_tick s)) s.
Proof. done. Qed.

Lemma time_now_frame s :
  wp time_now (λ t s', io_frame s s' ∧ c_disk s' = c_disk s ∧ 0 <= t < 2 ^ 64) s.
Proof. split_and!; [done|done|apply u64_range..]. Qed.

Lemma time_now_run s : wp time_now (λ t _, t = u64 (env_time (c_tick s))) s.
Proof. done. Qed.
End FrameIo.

Section HealthyIo.
Context `{E : Env, !Healthy E}.
Implicit Types s : lsfs_context.

Lemma read_block_ok s b :
  in_disk s b 1 → lsfs_read_block b s = Some (Ok (disk_block (c_disk s) b), ticked s).
Proof using Type*.
  intros H. rewrite read_block_run by by apply in_disk_addressable.
  rewrite healthy_pread. destruct H as (_ & _ & H & _). by rewrite (proj2 (Z.leb_le _ _) H).
Qed.

Lemma read_blocks_ok s b k :
  in_disk s b k →
  lsfs_read_blocks b k s = Some (Ok (disk_blocks (c_disk s) b (Z.to_nat k)), ticked s).
Proof using Type*.
  intros H. rewrite read_blocks_run by by apply in_disk_addressable.
  rewrite healthy_pread. destruct H as (_ & _ & H & _). by rewrite (proj2 (Z.leb_le _ _) H).
Qed.

Lemma write_blocks_ok s b blks :
  in_disk s b (Z.of_nat (length blks)) → c_readonly s = false →
  lsfs_write_blocks b blks s = Some (LSFS_OK, after_write b blks s).
Proof using Type*.
  intros H Hro. rewrite write_blocks_run by by apply in_disk_addressable.
  rewrite Hro, healthy_pwrite. cbn [transferred]. rewrite Z.eqb_refl.
  rewrite <-Z.mul_add_distr_r. destruct H as (_ & _ & H & _).
  rewrite (proj2 (Z.leb_le _ _) H).
  unfold after_pwrite, after_write, writes, write_range. by rewrite pwrite_updates_full.
Qed.

Lemma write_block_ok s b blk :
  in_disk s b 1 → c_readonly s = false →
  lsfs_write_block b blk s = Some (LSFS_OK, after_write b [blk] s).
Proof using Type*.
  intros H Hro. rewrite write_block_run by by apply in_disk_addressable.
  rewrite Hro, healthy_pwrite. cbn [transferred]. rewrite Z.eqb_refl.
  destruct H as (_ & _ & H & _). by rewrite (proj2 (Z.leb_le _ _) H).
Qed.

Lemma sync_ok s :
  lsfs_sync s = Some (LSFS_OK, ticked s <| c_trace ::= λ tr, tr ++ [IoSync] |>).
Proof using Type*.
  unfold lsfs_sync, ask, mbind, M_bind. cbn. by rewrite healthy_fsync.
Qed.
End HealthyIo.

(** * Theorems *)

(** Whatever the kernel answers, a write that reports success followed by a read of
    the same range that reports success returns the data written, and the blocks
    outside the range are those from before. *)
Theorem write_read_blocks `{E : Env} s b blks s1 got s2 :
  addressable s b (Z.of_nat (length blks)) →
  lsfs_write_blocks b blks s = Some (LSFS_OK, s1) →
  lsfs_read_blocks b (Z.of_nat (length blks)) s1 = Some (Ok got, s2) →
  got = blks ∧ io_frame s s1 ∧ io_frame s1 s2 ∧
  ∀ b', ¬ b <= b' < b + Z.of_nat (length blks) →
        disk_block (c_disk s2) b' = disk_block (c_disk s) b'.
Proof.
  intros Ha Hw Hr. rewrite (write_blocks_success _ _ _ _ Ha Hw) in *.
  rewrite read_blocks_run in Hr by done. case_match; [|done]. case_match; [done|].
  injection Hr as <- <-. rewrite Nat2Z.id. cbn [after_write].
  split_and!; [apply disk_blocks_write_range|done|done|].
  intros b' Hb'. by apply write_range_outside.
Qed.

(** C33. A write that does not report success leaves every block outside its range as it
    was; on a read-only mount or out of the bounds of the image nothing is written
    at all, not even attempted. *)
Theorem write_failure_contained `{E : Env} s b blks :
  addressable s b (Z.of_nat (length blks)) →
  wp (lsfs_write_blocks b blks) (λ r s',
    io_frame s s' ∧
    (r ≠ LSFS_OK → r = LSFS_ERR_IO) ∧
    (∀ b', ¬ b <= b' < b + Z.of_nat (length blks) →
       disk_block (c_disk s') b' = disk_block (c_disk s) b') ∧
    (c_readonly s = true ∨ c_disk_size s < (b + Z.of_nat (length blks)) * LSFS_BLOCK_SIZE →
       r = LSFS_ERR_IO ∧ s' = s)) s.
Proof.
  intros Ha. unfold wp. rewrite write_blocks_run by done.
  destruct (c_readonly s) eqn:Hro; [by split_and!|].
  cbv zeta. rewrite <-Z.mul_add_distr_r.
  destruct (Z.leb_spec ((b + Z.of_nat (length blks)) * LSFS_BLOCK_SIZE) (c_disk_size s));
    [|by split_and!].
  split_and!.
  - done.
  - case_match; done.
  - intros b' Hb'. apply apply_updates_outside. by intros ?%pwrite_updates_range.
  - intros [|]; [done|lia].
Qed.
