(* ===== verification/BufferPool.v ===== *)
(** The block buffer pool, [src/io.c] lines 188-403: 256 buffers in hash chains and
    an LRU list.  A pointer to a buffer is its index in the pool's array. *)
From S2P Require Import Prelude OnDisk Lru Context Io.

Definition buffer_hash (block_num : Z) : Z := u32 (block_num mod LSFS_BUFFER_HASH_SIZE).

Definition zero_buffer : lsfs_buffer := mk_buffer zero_block 0 false false 0 None.

Definition pool_size : nat := Z.to_nat LSFS_BUFFER_POOL_SIZE.

(** One round of the loop of [lsfs_buffer_pool_init]; the [memset] made every link
    [NULL] already. *)
Definition pool_init_link (d : lru) (i : Z) : lru :=
  let d := if i =? 0
           then d <| lru_head := Some i |> <| lru_prev ::= set_link i None |>
           else d <| lru_prev ::= set_link i (Some (i - 1)) |>
                  <| lru_next ::= set_link (i - 1) (Some i) |> in
  if i =? LSFS_BUFFER_POOL_SIZE - 1
  then d <| lru_tail := Some i |> <| lru_next ::= set_link i None |>
  else d.

(** The buffers of a fresh pool. *)
Definition fresh_pool : lsfs_buffer_pool :=
  mk_buffer_pool (replicate pool_size zero_buffer) (replicate (Z.to_nat LSFS_BUFFER_HASH_SIZE) None)
    (foldl pool_init_link lru_empty (seqZ 0 LSFS_BUFFER_POOL_SIZE)).

Section PoolOps.
Context `{E : Env}.

Definition set_pool (f : lsfs_buffer_pool → lsfs_buffer_pool) : Op () :=
  modify (λ s, s <| c_bufpool ::= f |>).

Definition lsfs_buffer_pool_init : Op Z :=
  ok ← ask env_alloc;
  if negb ok then
    _ ← set_pool (λ _, mk_buffer_pool (replicate pool_size zero_buffer)
          (replicate (Z.to_nat LSFS_BUFFER_HASH_SIZE) None) lru_empty);
    mret LSFS_ERR_NOMEM
  else _ ← set_pool (λ _, fresh_pool); mret LSFS_OK.

(** [buf->field] for the buffer at index [i] *)
Definition get_buffer (i : Z) : Op lsfs_buffer :=
  p ← gets c_bufpool;
  of_opt (arr_get (bp_buffers p) i).

Definition upd_buffer (i : Z) (f : lsfs_buffer → lsfs_buffer) : Op () :=
  p ← gets c_bufpool;
  b ← of_opt (arr_get (bp_buffers p) i);
  bs ← of_opt (arr_set (bp_buffers p) i (f b));
  set_pool (λ p, p <| bp_buffers := bs |>).

Definition set_bucket (h : Z) (v : option Z) : Op () :=
  p ← gets c_bufpool;
  hs ← of_opt (arr_set (bp_hash p) h v);
  set_pool (λ p, p <| bp_hash := hs |>).

Definition touch (i : Z) : Op () := set_pool (λ p, p <| bp_lru ::= buffer_touch i |>).

(** The rest of the chain walk of [buffer_evict]: [prev] is the buffer whose
    [hash_next] is the pointer looked at. *)
Fixpoint unchain_from (fuel : nat) (i prev : Z) : Op () :=
  match fuel with
  | O => undefined
  | S fuel =>
      b ← get_buffer prev;
      match b_hash_next b with
      | None => mret tt
      | Some j =>
          if j =? i then
            bi ← get_buffer i;
            upd_buffer prev (λ b, b <| b_hash_next := b_hash_next bi |>)
          else unchain_from fuel i j
      end
  end.

Definition unchain (i : Z) : Op () :=
  b ← get_buffer i;
  let hash := buffer_hash (b_block_num b) in
  p ← gets c_bufpool;
  first ← of_opt (arr_get (bp_hash p) hash);
  match first with
  | None => mret tt
  | Some j =>
      if j =? i then set_bucket hash (b_hash_next b)
      else unchain_from pool_size i j
  end.

(** The buffer is unused: write it back, take it out of its chain, reset it. *)
Definition evict_buffer (i : Z) : Op () :=
  b ← get_buffer i;
  _ ← (if b_dirty b && b_valid b then
         r ← lsfs_write_block (b_block_num b) (b_data b);
         if r =? LSFS_OK then upd_buffer i (λ b, b <| b_dirty := false |>) else mret tt
       else mret tt);
  _ ← (if b_valid b then unchain i else mret tt);
  upd_buffer i (λ b, b <| b_valid := false |> <| b_dirty := false |> <| b_hash_next := None |>).

(** [buffer_evict]: the first buffer of the LRU list with no reference. *)
Fixpoint evict_from (fuel : nat) (cur : option Z) : Op (option Z) :=
  match fuel with
  | O => undefined
  | S fuel =>
      match cur with
      | None => mret None
      | Some i =>
          b ← get_buffer i;
          if b_refcount b =? 0 then _ ← evict_buffer i; mret (Some i)
          else
            p ← gets c_bufpool;
            evict_from fuel (lru_next (bp_lru p) !! i)
      end
  end.

Definition buffer_evict : Op (option Z) :=
  p ← gets c_bufpool;
  evict_from (S pool_size) (lru_head (bp_lru p)).

(** The search of [lsfs_buffer_get] in a hash chain. *)
Fixpoint find_in_chain (fuel : nat) (block_num : Z) (cur : option Z) : Op (option Z) :=
  match fuel with
  | O => undefined
  | S fuel =>
      match cur with
      | None => mret None
      | Some i =>
          b ← get_buffer i;
          if b_valid b && (b_block_num b =? block_num) then mret (Some i)
          else find_in_chain fuel block_num (b_hash_next b)
      end
  end.

Definition lsfs_buffer_get (block_num : Z) : Op (option Z) :=
  let hash := buffer_hash block_num in
  p ← gets c_bufpool;
  first ← of_opt (arr_get (bp_hash p) hash);
  hit ← find_in_chain (S pool_size) block_num first;
  match hit with
  | Some i =>
      _ ← upd_buffer i (λ b, b <| b_refcount := u32 (b_refcount b + 1) |>);
      _ ← touch i;
      mret (Some i)
  | None =>
      victim ← buffer_evict;
      match victim with
      | None => mret None
      | Some i =>
          r ← lsfs_read_block block_num;
          match r with
          | Err _ => mret None
          | Ok data =>
              _ ← upd_buffer i (λ b, b <| b_data := data |> <| b_block_num := block_num |>
                                       <| b_valid := true |> <| b_dirty := false |>
                                       <| b_refcount := 1 |>);
              p ← gets c_bufpool;
              first ← of_opt (arr_get (bp_hash p) hash);
              _ ← upd_buffer i (λ b, b <| b_hash_next := first |>);
              _ ← set_bucket hash (Some i);
              _ ← touch i;
              mret (Some i)
          end
      end
  end.

(** [lsfs_buffer_put]; a [NULL] buffer is ignored. *)
Definition lsfs_buffer_put (buf : option Z) : Op () :=
  match buf with
  | None => mret tt
  | Some i =>
      b ← get_buffer i;
      if 0 <? b_refcount b then upd_buffer i (λ b, b <| b_refcount ::= Z.pred |>) else mret tt
  end.

(** [lsfs_buffer_flush] *)
Fixpoint flush_buffers (ids : list Z) (ret : Z) : Op Z :=
  match ids with
  | [] => mret ret
  | i :: ids =>
      b ← get_buffer i;
      if b_valid b && b_dirty b then
        r ← lsfs_write_block (b_block_num b) (b_data b);
        if r =? LSFS_OK then
          _ ← upd_buffer i (λ b, b <| b_dirty := false |>);
          flush_buffers ids ret
        else flush_buffers ids LSFS_ERR_IO
      else flush_buffers ids ret
  end.

Definition lsfs_buffer_flush : Op Z := flush_buffers (seqZ 0 LSFS_BUFFER_POOL_SIZE) LSFS_OK.
End PoolOps.
