(* ===== verification/PoolView.v ===== *)
(** The buffer pool of [src/io.c]: the invariant of its chains and its LRU list, and that
    it is transparent: blocks read and written through the pool are those of the disk. *)
From S2P Require Import Prelude OnDisk Lru Context Io BufferPool.

(** * The invariant *)

Definition buf (p : lsfs_buffer_pool) (i : Z) : option lsfs_buffer := arr_get (bp_buffers p) i.

Definition put_buf (i : Z) (b : lsfs_buffer) (p : lsfs_buffer_pool) : lsfs_buffer_pool :=
  p <| bp_buffers ::= <[Z.to_nat i := b]> |>.

Lemma buf_put p i b j : is_Some (buf p i) → buf (put_buf i b p) j = if decide (j = i) then Some b else buf p j.
Proof.
  intros [b0 Hi]. apply arr_get_lookup in Hi as [Hi Hl]. unfold buf, arr_get, put_buf. cbn.
  case_decide as Hj; [subst j|].
  - destruct (Z.ltb_spec i 0); [lia|]. apply list_lookup_insert_eq. by eapply lookup_lt_Some.
  - destruct (Z.ltb_spec j 0); [done|]. rewrite list_lookup_insert_ne by lia. done.
Qed.

Lemma buf_put_eq p i b0 b : buf p i = Some b0 → buf (put_buf i b p) i = Some b.
Proof. intros H. rewrite buf_put by by eexists. by rewrite decide_True. Qed.
Lemma buf_put_ne p i b j : is_Some (buf p i) → j ≠ i → buf (put_buf i b p) j = buf p j.
Proof. intros H Hj. rewrite buf_put by done. by rewrite decide_False. Qed.

(** The buffer at [i] holds block [n]. *)
Definition holds (p : lsfs_buffer_pool) (n i : Z) (b : lsfs_buffer) : Prop :=
  buf p i = Some b ∧ b_valid b = true ∧ b_block_num b = n.

(** [ch h] are the buffers of the chain of bucket [h], [l] the LRU list. *)
Record pool_repr (p : lsfs_buffer_pool) (ch : Z → list Z) (l : list Z) : Prop := {
  pr_length : length (bp_buffers p) = pool_size;
  pr_buckets : length (bp_hash p) = Z.to_nat LSFS_BUFFER_HASH_SIZE;
  pr_chain h : 0 <= h < LSFS_BUFFER_HASH_SIZE →
    ∃ first, arr_get (bp_hash p) h = Some first ∧ links (λ i, b_hash_next <$> buf p i) first (ch h);
  pr_nodup h : NoDup (ch h);
  pr_member h i : 0 <= h < LSFS_BUFFER_HASH_SIZE →
    i ∈ ch h ↔ ∃ b n, holds p n i b ∧ buffer_hash n = h;
  pr_unique n i j b b' : holds p n i b → holds p n j b' → i = j;
  pr_lru : lru_repr (bp_lru p) l;
  pr_listed i : i ∈ l ↔ 0 <= i < LSFS_BUFFER_POOL_SIZE }.

(** What a buffer can hold: a clean one agrees with the disk, a referenced one is valid. *)
Definition buffer_ok (s : lsfs_context) (b : lsfs_buffer) : Prop :=
  is_block (b_data b) ∧ 0 <= b_refcount b < 2 ^ 32 ∧
  (0 < b_refcount b → b_valid b = true) ∧
  (b_valid b = true → in_disk s (b_block_num b) 1 ∧
    (b_dirty b = false → b_data b = disk_block (c_disk s) (b_block_num b))).

Definition pool_wf (s : lsfs_context) : Prop :=
  (∃ ch l, pool_repr (c_bufpool s) ch l) ∧
  (∀ i b, buf (c_bufpool s) i = Some b → buffer_ok s b) ∧ disk_ok s ∧ 0 <= c_disk_size s < 2 ^ 63.

Lemma buffer_hash_range n : 0 <= buffer_hash n < LSFS_BUFFER_HASH_SIZE.
Proof.
  unfold buffer_hash, LSFS_BUFFER_HASH_SIZE. pose proof (Z.mod_pos_bound n 64).
  rewrite u32_small by lia. lia.
Qed.

Lemma buf_range p ch l i : pool_repr p ch l → is_Some (buf p i) ↔ 0 <= i < LSFS_BUFFER_POOL_SIZE.
Proof.
  intros Hr. unfold buf. split.
  - intros [b Hb%arr_get_bound]. rewrite (pr_length _ _ _ Hr) in Hb. unfold pool_size, LSFS_BUFFER_POOL_SIZE in *. lia.
  - intros Hi. destruct (arr_get_Some (bp_buffers p) i) as [b Hb]; [|by eexists].
    rewrite (pr_length _ _ _ Hr). unfold pool_size, LSFS_BUFFER_POOL_SIZE in *. lia.
Qed.

(** Walks along chains and along the list have enough fuel. *)
Lemma nodup_pool_size ps : NoDup ps → (∀ i, i ∈ ps → 0 <= i < LSFS_BUFFER_POOL_SIZE) → (length ps <= pool_size)%nat.
Proof.
  intros Hnd Hin. transitivity (length (seqZ 0 LSFS_BUFFER_POOL_SIZE)); [|by rewrite length_seqZ].
  apply submseteq_length, NoDup_submseteq; [done|]. intros i Hi. apply elem_of_seqZ. specialize (Hin i Hi). lia.
Qed.

(** * Steps on the representation *)

(** A buffer is changed in place. *)
Lemma pool_update p ch l i b b' :
  pool_repr p ch l → buf p i = Some b → b_hash_next b' = b_hash_next b →
  b_valid b' = b_valid b → b_block_num b' = b_block_num b →
  pool_repr (put_buf i b' p) ch l.
Proof.
  intros [Hlen Hbk Hc Hnd Hm Hu Hl Hli] Hi Hn Hv Hb.
  assert (is_Some (buf p i)) as Hs by by eexists.
  assert (∀ n j c, holds (put_buf i b' p) n j c → ∃ c', holds p n j c') as Hh1.
  { intros n j c (Hj & ? & ?). destruct (decide (j = i)) as [->|Hne].
    - erewrite buf_put_eq in Hj by exact Hi. injection Hj as <-. exists b. split_and!; congruence.
    - rewrite buf_put_ne in Hj by done. by exists c. }
  assert (∀ n j c, holds p n j c → ∃ c', holds (put_buf i b' p) n j c') as Hh2.
  { intros n j c (Hj & ? & ?). destruct (decide (j = i)) as [->|Hne].
    - exists b'. split_and!; [by eapply buf_put_eq|congruence..].
    - exists c. split_and!; [|done..]. by rewrite buf_put_ne. }
  split; try done.
  - by cbn; rewrite length_insert.
  - intros h Hhr. destruct (Hc h Hhr) as (first & Hf & Hch). exists first. split; [done|].
    eapply links_ext; [exact Hch|]. intros j _. cbn beta. destruct (decide (j = i)) as [->|Hne].
    + erewrite buf_put_eq by exact Hi. rewrite Hi. cbn. by rewrite Hn.
    + by rewrite buf_put_ne.
  - intros h j Hhr. rewrite (Hm h j Hhr). split.
    + intros (c & n & [c' ?]%Hh2 & ?). eauto.
    + intros (c & n & [c' ?]%Hh1 & ?). eauto.
  - intros n j k c c' [? H1]%Hh1 [? H2]%Hh1. by eapply Hu.
Qed.

(** A buffer becomes the most recently used one. *)
Lemma pool_touch p ch l i :
  pool_repr p ch l → is_Some (buf p i) → ∃ l', pool_repr (p <| bp_lru ::= buffer_touch i |>) ch l'.
Proof.
  intros Hr Hi. pose proof Hr as [Hlen Hbk Hc Hnd Hm Hu Hl Hli].
  rewrite (buf_range p ch l i Hr) in Hi. apply Hli in Hi as (l1 & l2 & ->)%list_elem_of_split.
  exists (l1 ++ l2 ++ [i]). split; try done.
  - by apply buffer_touch_repr.
  - intros j. rewrite <-Hli. cbn. set_solver.
Qed.

(** A buffer that holds nothing takes block [n] and becomes the first of its chain. *)
Definition chained (i : Z) (b : lsfs_buffer) (p : lsfs_buffer_pool) : lsfs_buffer_pool :=
  put_buf i b p <| bp_hash ::= <[Z.to_nat (buffer_hash (b_block_num b)) := Some i]> |>.

Lemma pool_insert p ch l i b0 b :
  pool_repr p ch l → buf p i = Some b0 → b_valid b0 = false → b_valid b = true →
  (∀ j c, ¬ holds p (b_block_num b) j c) →
  arr_get (bp_hash p) (buffer_hash (b_block_num b)) = Some (b_hash_next b) →
  pool_repr (chained i b p)
    (λ h, if decide (h = buffer_hash (b_block_num b)) then i :: ch h else ch h) l.
Proof.
  intros [Hlen Hbk Hc Hnd Hm Hu Hl Hli] Hi Hv0 Hv Hfree Hfirst.
  set (h0 := buffer_hash (b_block_num b)) in *. pose proof (buffer_hash_range (b_block_num b)) as Hh0. fold h0 in Hh0.
  assert (is_Some (buf p i)) as Hs by by eexists.
  assert (∀ j, buf (chained i b p) j = buf (put_buf i b p) j) as Hbuf by done.
  assert (∀ n j c, j ≠ i → holds (chained i b p) n j c ↔ holds p n j c) as Hhold.
  { intros n j c Hj. unfold holds. by rewrite Hbuf, buf_put_ne. }
  assert (∀ n c, holds (chained i b p) n i c ↔ c = b ∧ n = b_block_num b) as Hholdi.
  { intros n c. unfold holds. rewrite Hbuf, (buf_put_eq _ _ _ _ Hi). naive_solver. }
  assert (∀ n c, ¬ holds p n i c) as Hnoti by (intros n c (? & ? & _); congruence).
  assert (∀ h, 0 <= h < LSFS_BUFFER_HASH_SIZE → i ∉ ch h) as Hni.
  { intros h Hh (c & n & H & _)%(Hm h i Hh). by eapply Hnoti. }
  assert (∀ ps first, i ∉ ps → links (λ j, b_hash_next <$> buf p j) first ps →
    links (λ j, b_hash_next <$> buf (chained i b p) j) first ps) as Hlinks.
  { intros ps first Hps H. eapply links_ext; [exact H|]. intros j Hj. cbn beta.
    rewrite Hbuf, buf_put_ne; [done|done|]. intros ->. done. }
  split; try done.
  - by cbn; rewrite length_insert.
  - by cbn; rewrite length_insert.
  - intros h Hh. destruct (Hc h Hh) as (first & Hf & Hch). pose proof (Hlinks _ _ (Hni h Hh) Hch) as Hch'.
    cbn [chained field_set bp_hash]. case_decide as Heq.
    + exists (Some i). split.
      { apply arr_get_lookup. split; [lia|]. rewrite Heq. apply list_lookup_insert_eq. cbn. rewrite Hbk. lia. }
      split; [done|]. exists first. split; [|done]. cbn beta. rewrite Hbuf, (buf_put_eq _ _ _ _ Hi). cbn.
      rewrite Heq in Hf. congruence.
    + exists first. split; [|done]. apply arr_get_lookup in Hf as [? Hf]. apply arr_get_lookup. split; [done|].
      cbn. by rewrite list_lookup_insert_ne by lia.
  - intros h. case_decide as Heq; [|done]. constructor; [|done]. apply Hni. lia.
  - intros h j Hh. transitivity (j ∈ ch h ∨ (j = i ∧ h = h0)); [case_decide; set_solver|].
    rewrite (Hm h j Hh). destruct (decide (j = i)) as [->|Hj].
    + setoid_rewrite Hholdi. split; [intros [(c & n & H & _)|[_ ->]]; [by apply Hnoti in H|by exists b, (b_block_num b)]|].
      intros (c & n & [-> ->] & <-). by right.
    + setoid_rewrite (Hhold _ j _ Hj). naive_solver.
  - intros n j k c c' Hj Hk. destruct (decide (j = i)) as [->|Hji], (decide (k = i)) as [->|Hki]; [done|..].
    + rewrite Hholdi in Hj. rewrite Hhold in Hk by done. destruct Hj as [-> ->]. by apply Hfree in Hk.
    + rewrite Hholdi in Hk. rewrite Hhold in Hj by done. destruct Hk as [-> ->]. by apply Hfree in Hj.
    + rewrite Hhold in Hj, Hk by done. by eapply Hu.
Qed.

(** Two buffers that differ in their place in the chain only. *)
Definition rechained (b b' : lsfs_buffer) : Prop := b' = b <| b_hash_next := b_hash_next b' |>.

Lemma rechained_refl b : rechained b b.
Proof. by destruct b. Qed.

(** [i] has left the chain [l1 ++ i :: l2] of bucket [h]. *)
Record cut (p : lsfs_buffer_pool) (h i : Z) (l1 l2 : list Z) (p' : lsfs_buffer_pool) : Prop := {
  ct_buckets : length (bp_hash p') = length (bp_hash p);
  ct_others h' : h' ≠ h → arr_get (bp_hash p') h' = arr_get (bp_hash p) h';
  ct_chain : ∃ first, arr_get (bp_hash p') h = Some first ∧
    links (λ j, b_hash_next <$> buf p' j) first (l1 ++ l2);
  ct_length : length (bp_buffers p') = length (bp_buffers p);
  ct_outside j : j ∉ l1 → buf p' j = buf p j;
  ct_bufs j : option_Forall2 rechained (buf p j) (buf p' j);
  ct_lru : bp_lru p' = bp_lru p }.

Lemma cut_holds p h i l1 l2 p' n j : cut p h i l1 l2 p' → (∃ c, holds p' n j c) ↔ ∃ c, holds p n j c.
Proof.
  intros Hcut. unfold holds. pose proof (ct_bufs _ _ _ _ _ _ Hcut j) as Hj.
  inversion Hj as [b b' Hb H1 H2|]; [|naive_solver].
  rewrite Hb. split; intros (c & [= <-] & ? & ?); eexists; (split; [done|]); by rewrite Hb in *.
Qed.

Lemma pool_remove p ch l h i l1 l2 p' b' :
  pool_repr p ch l → 0 <= h < LSFS_BUFFER_HASH_SIZE → ch h = l1 ++ i :: l2 →
  cut p h i l1 l2 p' → b_valid b' = false →
  pool_repr (put_buf i b' p') (λ h', if decide (h' = h) then l1 ++ l2 else ch h') l.
Proof.
  intros [Hlen Hbk Hc Hnd Hm Hu Hl Hli] Hh Hch Hcut Hv'.
  pose proof Hcut as [Cb Co (first & Cf & Cc) Cl Cout Cbs Clru].
  assert (∃ b n, holds p n i b ∧ buffer_hash n = h) as (b & n & (Hi & Hv & Hn) & Hhash).
  { apply (Hm h i Hh). rewrite Hch. set_solver. }
  assert (i ∉ l1 ++ l2 ∧ NoDup (l1 ++ l2)) as [Hin Hnd'].
  { apply NoDup_cons. rewrite Permutation_middle, <-Hch. apply Hnd. }
  assert (is_Some (buf p' i)) as Hi'.
  { destruct (Cbs i); [by eexists|done]. }
  assert (∀ m j c, holds (put_buf i b' p') m j c → j ≠ i ∧ ∃ c', holds p m j c') as Hh1.
  { intros m j c (Hj & ? & ?). rewrite buf_put in Hj by done. case_decide as Hji; [simplify_eq; congruence|].
    split; [done|]. apply (cut_holds _ _ _ _ _ _ m j Hcut). by exists c. }
  assert (∀ m j c, j ≠ i → holds p m j c → ∃ c', holds (put_buf i b' p') m j c') as Hh2.
  { intros m j c Hji H. destruct (proj2 (cut_holds _ _ _ _ _ _ m j Hcut) (ex_intro _ c H)) as (c' & ? & ? & ?).
    exists c'. split_and!; [|done..]. by rewrite buf_put_ne. }
  assert (∀ ps f, i ∉ ps → links (λ j, b_hash_next <$> buf p' j) f ps →
    links (λ j, b_hash_next <$> buf (put_buf i b' p') j) f ps) as Hlinks.
  { intros ps f Hps H. eapply links_ext; [exact H|]. intros j Hj. cbn beta. rewrite buf_put_ne; [done|done|congruence]. }
  split; try done.
  - cbn. rewrite length_insert. congruence.
  - cbn. congruence.
  - intros h' Hh'. case_decide as Heq; [subst h'; exists first; split; [done|]; by apply Hlinks|].
    destruct (Hc h' Hh') as (f' & Hf' & Hch'). exists f'. split; [by cbn; rewrite Co|].
    assert (∀ j, j ∈ ch h' → j ∉ ch h) as Hdisj.
    { intros j (c & m & H1 & E1)%(Hm h' j Hh') (c' & m' & H2 & E2)%(Hm h j Hh).
      destruct H1 as (H1 & _ & <-), H2 as (H2 & _ & <-). congruence. }
    apply Hlinks; [intros Hij; apply (Hdisj i Hij); rewrite Hch; set_solver|].
    eapply links_ext; [exact Hch'|]. intros j Hj%Hdisj. cbn beta. rewrite Cout; [done|]. rewrite Hch in Hj. set_solver.
  - intros h'. by case_decide.
  - intros h' j Hh'. transitivity (j ∈ ch h' ∧ j ≠ i).
    { case_decide as Heq; [subst h'; rewrite Hch; set_solver|]. split; [|by intros [? _]]. intros Hj.
      split; [done|]. intros ->. apply (Hm h' i Hh') in Hj as (c & m & (H1 & _ & <-) & E1). congruence. }
    rewrite (Hm h' j Hh'). split.
    + intros [(c & m & H & E) Hji]. destruct (Hh2 m j c Hji H) as [c' ?]. eauto.
    + intros (c & m & [Hji [c' ?]]%Hh1 & E). eauto 10.
  - intros m j k c c' [_ [? H1]]%Hh1 [_ [? H2]]%Hh1. by eapply Hu.
  - cbn. by rewrite Clru.
Qed.

(** * What the pool shows *)

(** Block [n] as a holder of its buffer sees it: the buffer that holds it, or the disk. *)
Definition pool_block (s : lsfs_context) (n : Z) : list Z :=
  match List.find (λ b, b_valid b && (b_block_num b =? n)) (bp_buffers (c_bufpool s)) with
  | Some b => b_data b
  | None => disk_block (c_disk s) n
  end.

Inductive shows (s : lsfs_context) (n : Z) : list Z → Prop :=
  | shows_buffer i b : holds (c_bufpool s) n i b → shows s n (b_data b)
  | shows_disk : (∀ i b, ¬ holds (c_bufpool s) n i b) → shows s n (disk_block (c_disk s) n).

Lemma pool_block_shows s n : shows s n (pool_block s n).
Proof.
  unfold pool_block. destruct (List.find _ _) as [b|] eqn:Hf.
  - apply List.find_some in Hf as [Hin [Hv Hn%Z.eqb_eq]%andb_true_iff]. apply list_elem_of_In, list_elem_of_lookup in Hin as [k Hk].
    eapply (shows_buffer s n (Z.of_nat k)). split_and!; [|done..]. unfold buf. by rewrite arr_get_nat.
  - apply shows_disk. intros i b (Hi & Hv & Hn). apply arr_get_lookup in Hi as [_ Hi%list_elem_of_lookup_2%list_elem_of_In].
    apply (List.find_none _ _ Hf) in Hi. rewrite Hv, Hn, Z.eqb_refl in Hi. done.
Qed.

Lemma shows_unique s ch l n d d' : pool_repr (c_bufpool s) ch l → shows s n d → shows s n d' → d = d'.
Proof.
  intros Hr [i b H|H] [j c H'|H']; [|by apply H' in H|by apply H in H'|done].
  assert (i = j) as <- by by eapply pr_unique. destruct H as [H _], H' as [H' _]. congruence.
Qed.

Lemma shows_eq s ch l n d : pool_repr (c_bufpool s) ch l → shows s n d → pool_block s n = d.
Proof. intros Hr H. eapply shows_unique; [done|apply pool_block_shows|done]. Qed.

Definition with_pool (p : lsfs_buffer_pool) (s : lsfs_context) : lsfs_context := s <| c_bufpool := p |>.

(** Everything but the pool and the image is as before. *)
Definition pool_frame (s s' : lsfs_context) : Prop := io_frame s (with_pool (c_bufpool s) s').

Lemma pool_frame_refl s : pool_frame s s.
Proof. by destruct s. Qed.
Lemma pool_frame_trans s1 s2 s3 : pool_frame s1 s2 → pool_frame s2 s3 → pool_frame s1 s3.
Proof.
  unfold pool_frame, io_frame, with_pool. destruct s1, s2, s3; cbn. intros [=] [=]. by subst.
Qed.
Lemma pool_frame_fields s s' :
  pool_frame s s' → c_disk_size s' = c_disk_size s ∧ c_readonly s' = c_readonly s.
Proof. unfold pool_frame, io_frame, with_pool. destruct s, s'; cbn. intros [=]. by subst. Qed.

(** Two buffers with the same contents and use: dirtiness and place in the chain differ. *)
Definition same_block (b b' : lsfs_buffer) : Prop :=
  b_data b' = b_data b ∧ b_block_num b' = b_block_num b ∧ b_valid b' = b_valid b ∧ b_refcount b' = b_refcount b.

Lemma rechained_same b b' : rechained b b' → same_block b b'.
Proof. by intros ->. Qed.

(** The contents of a buffer in use do not change. *)
Definition kept (s s' : lsfs_context) : Prop :=
  ∀ j c, buf (c_bufpool s) j = Some c → 0 < b_refcount c → ∃ c', buf (c_bufpool s') j = Some c' ∧ same_block c c'.

Lemma pool_kept_refl s : kept s s.
Proof. intros j c H _. by exists c. Qed.
Lemma pool_kept_trans s1 s2 s3 : kept s1 s2 → kept s2 s3 → kept s1 s3.
Proof.
  intros H1 H2 j c Hj Hc. destruct (H1 j c Hj Hc) as (c' & Hj' & Ha & Hb & Hv & Hr).
  destruct (H2 j c' Hj') as (c'' & Hj'' & ? & ? & ? & ?); [lia|]. exists c''. split; [done|]. split_and!; congruence.
Qed.
#[local] Hint Resolve pool_frame_refl pool_kept_refl : core.

Definition agree (s s' : lsfs_context) (j : Z) : Prop :=
  option_Forall2 same_block (buf (c_bufpool s) j) (buf (c_bufpool s') j).

Lemma agree_refl s j : agree s s j.
Proof. unfold agree. by destruct (buf _ j); constructor. Qed.

Lemma agree_holds s s' n j b : agree s s' j → holds (c_bufpool s) n j b → ∃ b', holds (c_bufpool s') n j b' ∧ b_data b' = b_data b.
Proof.
  intros H (Hj & Hv & Hn). unfold agree in H. rewrite Hj in H. inversion H as [? c (? & ? & ? & ?) E1 E2|].
  exists c. split_and!; [split_and!|]; congruence.
Qed.

Lemma agree_holds_inv s s' n j b : agree s s' j → holds (c_bufpool s') n j b → ∃ b', holds (c_bufpool s) n j b'.
Proof.
  intros H (Hj & Hv & Hn). unfold agree in H. rewrite Hj in H. inversion H as [c ? (? & ? & ? & ?) E1 E2|].
  exists c. split_and!; congruence.
Qed.

(** All buffers agree, and so do the blocks that are not in the pool. *)
Lemma shows_agree s s' n d :
  (∀ j, agree s s' j) →
  ((∀ i b, ¬ holds (c_bufpool s) n i b) → disk_block (c_disk s') n = disk_block (c_disk s) n) →
  shows s n d → shows s' n d.
Proof.
  intros Ha Hd [i b H|H].
  - destruct (agree_holds _ _ _ _ _ (Ha i) H) as (b' & H' & <-). by eapply shows_buffer.
  - rewrite <-(Hd H). apply shows_disk. intros i b Hb. destruct (agree_holds_inv _ _ _ _ _ (Ha i) Hb) as [? ?]. by eapply H.
Qed.

(** A buffer is given up whose block is on the disk. *)
Lemma shows_drop s s' ch l i b n d :
  pool_repr (c_bufpool s) ch l → buf (c_bufpool s) i = Some b →
  (∃ b', buf (c_bufpool s') i = Some b' ∧ b_valid b' = false) → (∀ j, j ≠ i → agree s s' j) →
  (∀ m, m ≠ b_block_num b ∨ b_valid b = false → disk_block (c_disk s') m = disk_block (c_disk s) m) →
  (b_valid b = true → disk_block (c_disk s') (b_block_num b) = b_data b) →
  shows s n d → shows s' n d.
Proof.
  intros Hr Hi (b' & Hi' & Hv') Ha Hd Hn Hs.
  assert (∀ j c, holds (c_bufpool s') n j c → j ≠ i ∧ ∃ c', holds (c_bufpool s) n j c') as Hinv.
  { intros j c Hc. assert (j ≠ i) by (intros ->; destruct Hc as (? & ? & _); congruence).
    split; [done|]. by eapply agree_holds_inv; [apply Ha|]. }
  destruct Hs as [j c Hj|H].
  - destruct (decide (j = i)) as [->|Hji].
    + destruct Hj as (Hj & Hv & <-). rewrite Hi in Hj. injection Hj as <-. rewrite <-Hn by done. apply shows_disk.
      intros j c [Hji [c' Hc']]%Hinv. apply Hji. by eapply (pr_unique _ _ _ Hr).
    + destruct (agree_holds _ _ _ _ _ (Ha j Hji) Hj) as (c' & H' & <-). by eapply shows_buffer.
  - rewrite <-Hd; [apply shows_disk; intros j c [_ [c' Hc']]%Hinv; by eapply H|].
    destruct (b_valid b) eqn:Hv; [|by right]. left. intros ->. by eapply (H i b).
Qed.

(** * The operations *)

Section PoolOps.
Context `{E : Env}.
Implicit Types s : lsfs_context.

Lemma get_buffer_run s i b : buf (c_bufpool s) i = Some b → get_buffer i s = Some (b, s).
Proof. intros H. unfold buf in H. unfold get_buffer, mbind, M_bind, gets, of_opt. by rewrite H. Qed.

Lemma upd_buffer_run s i b f :
  buf (c_bufpool s) i = Some b → upd_buffer i f s = Some (tt, with_pool (put_buf i (f b) (c_bufpool s)) s).
Proof.
  intros H. unfold upd_buffer, mbind, M_bind, gets, of_opt. unfold buf in H. rewrite H. cbn.
  rewrite arr_set_ok by (by eapply arr_get_bound). done.
Qed.

Lemma unchain_from_run fuel s i b q l1 x l2 :
  links (λ j, b_hash_next <$> buf (c_bufpool s) j) (Some q) (l1 ++ x :: i :: l2) → NoDup (l1 ++ x :: i :: l2) →
  buf (c_bufpool s) i = Some b → (length l1 < fuel)%nat →
  ∃ bx, buf (c_bufpool s) x = Some bx ∧
    unchain_from fuel i q s =
      Some (tt, with_pool (put_buf x (bx <| b_hash_next := b_hash_next b |>) (c_bufpool s)) s).
Proof.
  intros Hc Hnd Hi Hf. revert fuel q Hc Hnd Hf.
  induction l1 as [|y l1 IH]; intros fuel q; cbn [app length]; (destruct fuel as [|fuel]; [lia|]).
  - intros ([= ->] & nx & Hx & -> & np & Hp & _) Hnd _. cbn [unchain_from].
    destruct (buf (c_bufpool s) x) as [bx|] eqn:Hbx; [|done]. cbn in Hx. injection Hx as Hx. exists bx. split; [done|].
    erewrite bind_run by by apply get_buffer_run. rewrite Hx, Z.eqb_refl.
    erewrite bind_run by by apply get_buffer_run. by erewrite upd_buffer_run.
  - intros ([= ->] & ny & Hy & Hc) [Hyn Hnd]%NoDup_cons Hf. cbn [unchain_from].
    destruct (buf (c_bufpool s) y) as [by'|] eqn:Hby; [|done]. cbn in Hy. injection Hy as Hy.
    destruct ny as [z|]; [|by destruct l1; destruct Hc].
    assert (z ≠ i) as Hzi.
    { destruct l1 as [|w l1]; cbn in Hc; destruct Hc as ([= ->] & _); apply NoDup_cons in Hnd as [? _]; set_solver. }
    destruct (IH fuel z Hc Hnd ltac:(lia)) as (bx & Hbx & Hrun). exists bx. split; [done|].
    erewrite bind_run by by apply get_buffer_run. rewrite Hy, (proj2 (Z.eqb_neq _ _) Hzi). done.
Qed.

Lemma set_bucket_cut s ch l i b l2 :
  pool_repr (c_bufpool s) ch l → buf (c_bufpool s) i = Some b →
  let h := buffer_hash (b_block_num b) in
  arr_get (bp_hash (c_bufpool s)) h = Some (Some i) →
  links (λ j, b_hash_next <$> buf (c_bufpool s) j) (b_hash_next b) l2 →
  ∃ p', set_bucket h (b_hash_next b) s = Some (tt, with_pool p' s) ∧ cut (c_bufpool s) h i [] l2 p'.
Proof.
  intros Hr Hi h Hf Hc. pose proof (arr_get_bound _ _ _ Hf) as Hb.
  eexists. split.
  - unfold set_bucket, mbind, M_bind, gets, of_opt. rewrite arr_set_ok by done. done.
  - split; try done; cbn.
    + apply length_insert.
    + intros h' Hne. unfold arr_get. destruct (Z.ltb_spec h' 0); [done|]. rewrite list_lookup_insert_ne by lia. done.
    + exists (b_hash_next b). split; [|done]. apply arr_get_lookup. split; [lia|]. apply list_lookup_insert_eq. lia.
    + intros j. unfold buf. cbn. destruct (arr_get (bp_buffers (c_bufpool s)) j); constructor. apply rechained_refl.
Qed.

(** The walk of the eviction finds the buffer in its chain. *)
Lemma unchain_run s ch l i b :
  pool_repr (c_bufpool s) ch l → buf (c_bufpool s) i = Some b → b_valid b = true →
  let h := buffer_hash (b_block_num b) in
  ∃ l1 l2 p', unchain i s = Some (tt, with_pool p' s) ∧ ch h = l1 ++ i :: l2 ∧ cut (c_bufpool s) h i l1 l2 p'.
Proof.
  intros Hr Hi Hv h. pose proof (buffer_hash_range (b_block_num b)) as Hh. fold h in Hh.
  destruct (pr_chain _ _ _ Hr h Hh) as (first & Hf & Hc). pose proof (pr_nodup _ _ _ Hr h) as Hnd.
  assert (length (ch h) <= pool_size)%nat as Hsize.
  { apply nodup_pool_size; [done|]. intros j (c & n & (Hj & _) & _)%(pr_member _ _ _ Hr h j Hh).
    apply (buf_range _ _ _ _ Hr). by eexists. }
  assert (i ∈ ch h) as (l1 & l2 & Hch)%list_elem_of_split.
  { apply (pr_member _ _ _ Hr); [done|]. exists b, (b_block_num b). done. }
  rewrite Hch in Hc, Hnd, Hsize. exists l1, l2. unfold unchain.
  erewrite bind_run by by apply get_buffer_run. unfold mbind, M_bind, gets, of_opt. fold h. rewrite Hf. cbn [mret M_ret].
  destruct (last l1) as [x|] eqn:Hlast; [apply last_Some in Hlast as [l0 ->]|apply last_None in Hlast; subst l1].
  - rewrite <-app_assoc in Hc, Hnd, Hsize. cbn [app] in Hc, Hnd, Hsize.
    destruct first as [q|]; [|by destruct l0, Hc].
    assert (i ∉ l0 ++ [x]) as Hin.
    { pose proof (pr_nodup _ _ _ Hr h) as Hd. rewrite Hch, <-Permutation_middle in Hd. apply NoDup_cons in Hd as [Hn _]. set_solver. }
    assert (q ≠ i) as Hqi by (destruct l0; destruct Hc as ([= ->] & _); set_solver).
    rewrite (proj2 (Z.eqb_neq _ _) Hqi).
    destruct (unchain_from_run pool_size s i b q l0 x l2 Hc Hnd Hi) as (bx & Hbx & ->).
    { rewrite length_app in Hsize. cbn in Hsize. lia. }
    eexists. split_and!; [done|done|]. assert (is_Some (buf (c_bufpool s) x)) as Hsx by by eexists.
    assert (x ≠ i) as Hxi by set_solver.
    split; try done.
    + exists (Some q). split; [done|]. rewrite <-app_assoc.
      eapply links_skip; [exact Hc|exact Hnd| |]; cbn beta.
      * erewrite buf_put_eq by exact Hbx. by rewrite Hi.
      * intros j Hjx _. by rewrite buf_put_ne.
    + cbn. apply length_insert.
    + intros j Hj. rewrite buf_put_ne; [done|done|set_solver].
    + intros j. rewrite buf_put by done. case_decide as Hj; [subst j; rewrite Hbx; by constructor|].
      destruct (buf (c_bufpool s) j); constructor. apply rechained_refl.
  - cbn [app] in Hc. destruct Hc as (-> & next & Hnext & Hc). rewrite Hi in Hnext. cbn in Hnext. injection Hnext as <-.
    rewrite Z.eqb_refl. destruct (set_bucket_cut s ch l i b l2 Hr Hi Hf Hc) as (p' & Hrun & Hcut).
    by exists p'.
Qed.

(** Writing a block back, in every environment. *)
Lemma pool_write_back_wp s n data :
  in_disk s n 1 → is_block data → disk_ok s →
  wp (lsfs_write_block n data) (λ r s', io_frame s s' ∧ disk_ok s' ∧
    (∀ m, m ≠ n → disk_block (c_disk s') m = disk_block (c_disk s) m) ∧
    (r = LSFS_OK → disk_block (c_disk s') n = data) ∧
    (Healthy E → c_readonly s = false → r = LSFS_OK)) s.
Proof.
  intros Hn Hb Hok. pose proof (in_disk_addressable _ _ _ Hn) as Ha.
  pose proof (wp_and _ _ _ _ (write_block_frame s n data Ha) (write_block_bytes s n data Ha Hb Hok)) as H.
  apply wp_elim in H as (r & s' & Hrun & [Hf Ho] & Hok'). eapply wp_intro; [exact Hrun|].
  split_and!; [done..| |].
  - intros ->. rewrite write_block_run in Hrun by done. destruct (c_readonly s); [done|]. cbv zeta in Hrun.
    case_match; [|done]. injection Hrun as Hfull <-. case_match eqn:Hlen; [|done]. apply Z.eqb_eq in Hlen.
    unfold after_pwrite. rewrite Hlen. cbn. rewrite disk_block_insert. by rewrite decide_True.
  - intros HE Hro. rewrite write_block_ok in Hrun by done. congruence.
Qed.

(** No buffer is in use. *)
Definition idle s : Prop := ∀ i b, buf (c_bufpool s) i = Some b → b_refcount b = 0.

(** What an operation of the pool does to the state; when no call fails, also to the
    contents seen through it. *)
Record pool_step s s' : Prop := {
  ps_wf : pool_wf s';
  ps_frame : pool_frame s s';
  ps_kept : kept s s';
  ps_free n : (∀ i b, ¬ holds (c_bufpool s) n i b) →
    (∀ i b, ¬ holds (c_bufpool s') n i b) ∧ disk_block (c_disk s') n = disk_block (c_disk s) n;
  ps_idle : idle s → idle s';
  ps_shows : Healthy E → c_readonly s = false → ∀ n d, shows s n d → shows s' n d }.

Lemma pool_step_refl s : pool_wf s → pool_step s s.
Proof. by split. Qed.
Lemma pool_step_trans s1 s2 s3 : pool_step s1 s2 → pool_step s2 s3 → pool_step s1 s3.
Proof.
  intros [? F1 ? D1 ? S1] [? ? ? D2 ? S2]. split; [done|by eapply pool_frame_trans|by eapply pool_kept_trans| |by auto|].
  - intros n Hn. destruct (D1 n Hn) as [Hn1 <-]. by apply D2.
  - intros HE Hro n d Hs. apply S2; [done| |by apply S1]. by destruct (pool_frame_fields _ _ F1) as [_ ->].
Qed.

Lemma buffer_ok_same s s' c c' :
  buffer_ok s c → same_block c c' → b_dirty c' = b_dirty c → c_disk_size s' = c_disk_size s →
  (b_valid c = true → disk_block (c_disk s') (b_block_num c) = disk_block (c_disk s) (b_block_num c)) →
  buffer_ok s' c'.
Proof.
  intros (Hb & Hr & Hu & Hv) (Ed & En & Ev & Er) Edi Hsz Hd. unfold buffer_ok, in_disk in *.
  rewrite Ed, En, Ev, Er, Edi, Hsz. split_and!; [done|lia|lia|done|]. intros Hval. rewrite Hd by done. by apply Hv.
Qed.

(** The buffer [i] is dropped; [s1] is the state after the write-back, of which only the
    image counts. *)
Lemma evict_finish s s1 i b b3 :
  pool_wf s → buf (c_bufpool s) i = Some b → b_refcount b = 0 →
  io_frame s (with_pool (c_bufpool s) s1) → disk_ok s1 →
  (∀ m, m ≠ b_block_num b ∨ b_valid b = false → disk_block (c_disk s1) m = disk_block (c_disk s) m) →
  (Healthy E → c_readonly s = false → b_valid b = true → disk_block (c_disk s1) (b_block_num b) = b_data b) →
  (∃ p', (∀ j, j ≠ i → option_Forall2 rechained (buf (c_bufpool s) j) (buf p' j)) ∧ is_Some (buf p' i) ∧
     (∃ ch l, pool_repr (put_buf i b3 p') ch l) ∧ c_bufpool s1 = put_buf i b3 p') →
  b_valid b3 = false → b_refcount b3 = 0 → b_data b3 = b_data b →
  pool_step s s1.
Proof.
  intros Hwf Hi Hrc Hf Hok1 Hd Hdn (p' & Hp' & Hi' & (ch' & l' & Hr') & Hpool) Hv3 Hr3 Hd3.
  pose proof Hwf as ((ch & l & Hr) & Hbs & Hok & Hsz).
  destruct (pool_frame_fields _ _ Hf) as [Esz _].
  assert (buf (c_bufpool s1) i = Some b3) as Hi3.
  { rewrite Hpool. destruct Hi' as [? Hi']. by eapply buf_put_eq. }
  assert (∀ j, j ≠ i → option_Forall2 rechained (buf (c_bufpool s) j) (buf (c_bufpool s1) j)) as Hj.
  { intros j Hj. rewrite Hpool, buf_put_ne by done. by apply Hp'. }
  assert (∀ j, j ≠ i → agree s s1 j) as Hag.
  { intros j Hne. unfold agree. destruct (Hj j Hne); constructor. by apply rechained_same. }
  split.
  - split_and!; [by rewrite Hpool; eauto| |done|lia|lia].
    intros j c Hc. destruct (decide (j = i)) as [->|Hne].
    + rewrite Hi3 in Hc. injection Hc as <-. destruct (Hbs i b Hi) as (? & _). unfold buffer_ok.
      rewrite Hv3, Hr3, Hd3. split_and!; [done|lia|lia|lia|done].
    + specialize (Hj j Hne). rewrite Hc in Hj. inversion Hj as [c0 ? Hre E1 E2|]. symmetry in E1.
      eapply buffer_ok_same; [by eapply Hbs|by apply rechained_same|by rewrite Hre|done|]. intros Hv.
      apply Hd. destruct (b_valid b) eqn:Hvb; [|by right]. left. intros En. apply Hne.
      by eapply (pr_unique _ _ _ Hr (b_block_num c0) _ _ c0 b).
  - done.
  - intros j c Hc Hpos. assert (j ≠ i) as Hne by (intros ->; assert (c = b) as -> by congruence; lia).
    specialize (Hj j Hne). rewrite Hc in Hj. inversion Hj as [? c' Hre E1 E2|]. exists c'. split; [done|]. by apply rechained_same.
  - intros n Hn. split.
    + intros j c Hc. destruct (decide (j = i)) as [->|Hne]; [destruct Hc as (? & ? & _); congruence|].
      destruct (agree_holds_inv _ _ _ _ _ (Hag j Hne) Hc) as [c' Hc']. by eapply Hn.
    + apply Hd. destruct (b_valid b) eqn:Hv; [|by right]. left. intros ->. by eapply (Hn i b).
  - intros Hidle j c Hc. destruct (decide (j = i)) as [->|Hne]; [congruence|].
    specialize (Hj j Hne). rewrite Hc in Hj. inversion Hj as [c0 ? Hre E1 E2|]. symmetry in E1. rewrite Hre. by apply (Hidle j c0).
  - intros HE Hro n d. eapply shows_drop; eauto.
Qed.

Definition reset (b : lsfs_buffer) : lsfs_buffer :=
  b <| b_valid := false |> <| b_dirty := false |> <| b_hash_next := None |>.

(** The second half of an eviction: out of the chain, and reset. *)
Lemma evict_tail_wp s ch l i b :
  pool_repr (c_bufpool s) ch l → buf (c_bufpool s) i = Some b →
  wp (_ ← (if b_valid b then unchain i else mret tt); upd_buffer i reset) (λ _ s',
    ∃ p', s' = with_pool (put_buf i (reset b) p') s ∧
      (∀ j, j ≠ i → option_Forall2 rechained (buf (c_bufpool s) j) (buf p' j)) ∧ is_Some (buf p' i) ∧
      ∃ ch' l', pool_repr (put_buf i (reset b) p') ch' l') s.
Proof.
  intros Hr Hi. apply wp_bind. destruct (b_valid b) eqn:Hv.
  - pose proof (buffer_hash_range (b_block_num b)) as Hh.
    destruct (unchain_run s ch l i b Hr Hi Hv) as (l1 & l2 & p' & Hrun & Hch & Hcut).
    eapply wp_intro; [exact Hrun|].
    assert (buf p' i = Some b) as Hi'.
    { rewrite (ct_outside _ _ _ _ _ _ Hcut); [done|]. pose proof (pr_nodup _ _ _ Hr (buffer_hash (b_block_num b))) as Hnd.
      rewrite Hch in Hnd. apply NoDup_app in Hnd as (_ & Hd & _). intros Hin. apply (Hd i Hin). by apply elem_of_cons; left. }
    eapply wp_intro; [by apply (upd_buffer_run (with_pool p' s))|]. exists p'. split_and!; [done| |by eexists|].
    + intros j _. apply Hcut.
    + eauto using pool_remove.
  - apply wp_ret. eapply wp_intro; [by apply upd_buffer_run|]. exists (c_bufpool s). split_and!; [done| |by eexists|].
    + intros j _. destruct (buf (c_bufpool s) j); constructor. apply rechained_refl.
    + exists ch, l. pose proof Hr as [Hlen Hbk Hc Hnd Hm Hu Hl Hli]. assert (is_Some (buf (c_bufpool s) i)) as Hs by by eexists.
      assert (∀ n j c, holds (put_buf i (reset b) (c_bufpool s)) n j c ↔ holds (c_bufpool s) n j c) as Hh.
      { intros n j c. unfold holds. rewrite buf_put by done. case_decide as Hj; [subst j|done].
        rewrite Hi. split; intros ([= <-] & ? & ?); [done|congruence]. }
      split; try done.
      * cbn. by rewrite length_insert.
      * intros h Hhr. destruct (Hc h Hhr) as (first & Hf & Hch). exists first. split; [done|].
        eapply links_ext; [exact Hch|]. intros j (c & n & (Hj & Hvj & _) & _)%(Hm h j Hhr). cbn beta.
        rewrite buf_put_ne; [done|done|]. intros ->. congruence.
      * intros h j Hhr. rewrite (Hm h j Hhr). by setoid_rewrite Hh.
      * intros n j k c c'. rewrite !Hh. apply Hu.
Qed.

Lemma evict_buffer_wp s i b :
  pool_wf s → buf (c_bufpool s) i = Some b → b_refcount b = 0 →
  wp (evict_buffer i) (λ _ s', pool_step s s' ∧
    ∃ b', buf (c_bufpool s') i = Some b' ∧ b_valid b' = false) s.
Proof.
  intros Hwf Hi Hrc. pose proof Hwf as ((ch & l & Hr) & Hbs & Hok & Hsz).
  destruct (Hbs i b Hi) as (Hblk & _ & _ & Hval).
  unfold evict_buffer. apply wp_bind. eapply wp_intro; [by apply get_buffer_run|]. apply wp_bind.
  assert (wp (if b_dirty b && b_valid b
      then r ← lsfs_write_block (b_block_num b) (b_data b);
           if r =? LSFS_OK then upd_buffer i (λ b0, b0 <| b_dirty := false |>) else mret tt
      else mret tt) (λ _ s1,
    io_frame s (with_pool (c_bufpool s) s1) ∧ disk_ok s1 ∧
    (∀ m, m ≠ b_block_num b ∨ b_valid b = false → disk_block (c_disk s1) m = disk_block (c_disk s) m) ∧
    (Healthy E → c_readonly s = false → b_valid b = true → disk_block (c_disk s1) (b_block_num b) = b_data b) ∧
    ∃ d, c_bufpool s1 = put_buf i (b <| b_dirty := d |>) (c_bufpool s)) s) as Hwb.
  { assert (put_buf i (b <| b_dirty := b_dirty b |>) (c_bufpool s) = c_bufpool s) as Hsame.
    { unfold put_buf. apply arr_get_lookup in Hi as [_ Hi].
      assert (b <| b_dirty := b_dirty b |> = b) as -> by by destruct b.
      destruct (c_bufpool s) as [bs hs lr] eqn:Hp. cbn in *. by rewrite list_insert_id. }
    destruct (b_dirty b) eqn:Hdi, (b_valid b) eqn:Hv; cbn [andb].
    2:{ apply wp_ret. split_and!; [apply pool_frame_refl|done|done|done|by eexists]. }
    3:{ apply wp_ret. split_and!; [apply pool_frame_refl|done|done|done|by eexists]. }
    2:{ apply wp_ret. split_and!; [apply pool_frame_refl|done|done|intros _ _ _; symmetry; by apply Hval|by eexists]. }
    destruct (Hval eq_refl) as [Hin _]. apply wp_bind. eapply wp_mono; [by apply pool_write_back_wp|].
    intros r s1 (Hf & Hok1 & Ho & Hd & Hh). assert (c_bufpool s1 = c_bufpool s) as Hp1 by by rewrite Hf.
    assert (io_frame s (with_pool (c_bufpool s) s1)) as Hf' by (rewrite <-Hp1; by destruct s1).
    destruct (Z.eqb_spec r LSFS_OK) as [->|Hne].
    - eapply wp_intro; [apply upd_buffer_run; rewrite Hp1; exact Hi|].
      split_and!; [done|done|naive_solver|by intros; apply Hd|]. exists false. cbn. by rewrite Hp1.
    - apply wp_ret. split_and!; [done|done|naive_solver|intros HE Hro; exfalso; auto|]. exists true. by rewrite Hp1. }
  eapply wp_mono; [exact Hwb|]. intros _ s1 (Hf & Hok1 & Ho & Hd & (di & Hp1)).
  set (b1 := b <| b_dirty := di |>) in *.
  assert (buf (c_bufpool s1) i = Some b1) as Hi1 by (rewrite Hp1; by eapply buf_put_eq).
  assert (pool_repr (c_bufpool s1) ch l) as Hr1 by (rewrite Hp1; by eapply pool_update).
  eapply wp_mono; [exact (evict_tail_wp s1 ch l i b1 Hr1 Hi1)|].
  intros _ s2 (p' & -> & Hj & Hi' & Hr'). split; [|exists (reset b1); split; [|done]].
  2:{ destruct Hi' as [? Hi']. by eapply buf_put_eq. }
  eapply (evict_finish s _ i b (reset b1)); try done. exists p'. split_and!; [|done..].
  intros j Hne. specialize (Hj j Hne). rewrite Hp1, buf_put_ne in Hj; [done|by eexists|done].
Qed.

(** ** Eviction *)

Lemma evict_from_wp fuel s l1 l2 ch :
  pool_wf s → pool_repr (c_bufpool s) ch (l1 ++ l2) →
  (∀ i b, i ∈ l1 → buf (c_bufpool s) i = Some b → b_refcount b ≠ 0) → (length l2 < fuel)%nat →
  wp (evict_from fuel (head l2)) (λ r s', pool_step s s' ∧
    match r with
    | Some i => ∃ b, buf (c_bufpool s') i = Some b ∧ b_valid b = false
    | None => s' = s ∧ ∀ i b, buf (c_bufpool s) i = Some b → b_refcount b ≠ 0
    end) s.
Proof.
  intros Hwf. revert fuel l1. induction l2 as [|i l2 IH]; intros fuel l1 Hr Hl1 Hf; (destruct fuel as [|fuel]; [cbn in Hf; lia|]).
  - apply wp_ret. split; [by apply pool_step_refl|]. split; [done|]. intros i b Hi. apply (Hl1 i b); [|done].
    rewrite app_nil_r in Hr. apply (pr_listed _ _ _ Hr), (buf_range _ _ _ _ Hr). by eexists.
  - cbn [evict_from head]. assert (is_Some (buf (c_bufpool s) i)) as [b Hi].
    { apply (buf_range _ _ _ _ Hr), (pr_listed _ _ _ Hr). set_solver. }
    apply wp_bind. eapply wp_intro; [by apply get_buffer_run|]. destruct (Z.eqb_spec (b_refcount b) 0) as [H0|H0].
    + apply wp_bind. eapply wp_mono; [by eapply evict_buffer_wp|]. intros _ s' [Hs Hb]. by apply wp_ret.
    + do 2 wp_step. destruct (repr_ends _ _ _ _ (pr_lru _ _ _ Hr)) as (_ & -> & _).
      apply (IH fuel (l1 ++ [i])); [by rewrite <-app_assoc| |cbn in Hf; lia].
      intros j c [Hj|Hj%list_elem_of_singleton]%elem_of_app Hc; [by eapply Hl1|congruence].
Qed.

Lemma buffer_evict_wp s :
  pool_wf s →
  wp buffer_evict (λ r s', pool_step s s' ∧
    match r with
    | Some i => ∃ b, buf (c_bufpool s') i = Some b ∧ b_valid b = false
    | None => s' = s ∧ ∀ i b, buf (c_bufpool s) i = Some b → b_refcount b ≠ 0
    end) s.
Proof.
  intros Hwf. pose proof Hwf as ((ch & l & Hr) & _). unfold buffer_evict. do 2 wp_step.
  rewrite (repr_head _ _ (pr_lru _ _ _ Hr)). eapply (evict_from_wp _ s [] l ch); [done..|set_solver|].
  pose proof (nodup_pool_size l (repr_nodup _ _ (pr_lru _ _ _ Hr)) (λ i, proj1 (pr_listed _ _ _ Hr i))). lia.
Qed.

(** ** Looking a block up *)

Lemma find_in_chain_run fuel s n first ps :
  links (λ j, b_hash_next <$> buf (c_bufpool s) j) first ps → (length ps < fuel)%nat →
  ∃ r, find_in_chain fuel n first s = Some (r, s) ∧
    match r with
    | Some i => ∃ b, holds (c_bufpool s) n i b
    | None => ∀ i b, i ∈ ps → ¬ holds (c_bufpool s) n i b
    end.
Proof.
  revert fuel first. induction ps as [|i ps IH]; intros fuel first; (destruct fuel as [|fuel]; [cbn; lia|]).
  - intros -> _. exists None. split; [done|]. set_solver.
  - intros (-> & next & Hn & Hc) Hf. cbn [find_in_chain]. destruct (buf (c_bufpool s) i) as [b|] eqn:Hi; [|done].
    cbn in Hn. injection Hn as Hn. erewrite bind_run by by apply get_buffer_run.
    destruct (b_valid b && (b_block_num b =? n)) eqn:Hhit.
    + apply andb_true_iff in Hhit as [Hv He%Z.eqb_eq]. exists (Some i). split; [done|]. by exists b.
    + destruct (IH fuel next Hc) as (r & Hrun & Hres); [cbn in Hf; lia|]. exists r. rewrite Hn. split; [done|].
      destruct r as [j|]; [done|]. intros j c [->|Hj]%elem_of_cons; [|by apply Hres].
      intros (Hj & Hv & He). rewrite Hi in Hj. injection Hj as <-. rewrite Hv, He, Z.eqb_refl in Hhit. done.
Qed.

Lemma lookup_run s n :
  pool_wf s →
  ∃ first r, arr_get (bp_hash (c_bufpool s)) (buffer_hash n) = Some first ∧
    find_in_chain (S pool_size) n first s = Some (r, s) ∧
    match r with
    | Some i => ∃ b, holds (c_bufpool s) n i b
    | None => ∀ i b, ¬ holds (c_bufpool s) n i b
    end.
Proof.
  intros ((ch & l & Hr) & _). pose proof (buffer_hash_range n) as Hh.
  destruct (pr_chain _ _ _ Hr _ Hh) as (first & Hf & Hc).
  destruct (find_in_chain_run (S pool_size) s n first (ch (buffer_hash n)) Hc) as (r & Hrun & Hres).
  { apply Nat.lt_succ_r, nodup_pool_size; [apply (pr_nodup _ _ _ Hr)|].
    intros j (c & m & (Hj & _) & _)%(pr_member _ _ _ Hr _ j Hh). apply (buf_range _ _ _ _ Hr). by eexists. }
  exists first, r. split_and!; [done..|]. destruct r as [i|]; [done|]. intros i b Hb. apply (Hres i b); [|done].
  apply (pr_member _ _ _ Hr _ i Hh). eauto.
Qed.

(** ** Taking and dropping references *)

(** The buffers in use hold what they held. *)
Definition in_use s s' : Prop :=
  ∀ j c, buf (c_bufpool s) j = Some c → 0 < b_refcount c →
    ∃ c', buf (c_bufpool s') j = Some c' ∧ b_valid c' = true ∧ b_block_num c' = b_block_num c ∧ b_data c' = b_data c.

Lemma kept_in_use s s' : pool_wf s → kept s s' → in_use s s'.
Proof.
  intros (_ & Hbs & _) Hk j c Hc Hpos. destruct (Hk j c Hc Hpos) as (c' & Hc' & Hd & Hn & Hv & _).
  exists c'. split_and!; [done| |done..]. rewrite Hv. by apply (Hbs j c Hc).
Qed.

(** Only the count of references of a buffer changes. *)
Lemma recount_ok s i b k :
  pool_wf s → buf (c_bufpool s) i = Some b → 0 <= k < 2 ^ 32 → (0 < k → b_valid b = true) →
  let s' := with_pool (put_buf i (b <| b_refcount := k |>) (c_bufpool s)) s in
  pool_wf s' ∧ in_use s s' ∧ ∀ n d, shows s n d → shows s' n d.
Proof.
  intros Hwf Hi Hk Hkv s'. pose proof Hwf as ((ch & l & Hr) & Hbs & Hok & Hsz).
  assert (is_Some (buf (c_bufpool s) i)) as Hs by by eexists.
  assert (∀ j, buf (c_bufpool s') j = if decide (j = i) then Some (b <| b_refcount := k |>) else buf (c_bufpool s) j) as Hb'.
  { intros j. by apply buf_put. }
  split_and!.
  - split_and!; [|..]; [by exists ch, l; eapply pool_update| |done|apply Hsz|apply Hsz].
    intros j c. rewrite Hb'. case_decide as Hj; [|apply Hbs].
    intros [= <-]. destruct (Hbs i b Hi) as (? & _ & _ & ?). done.
  - intros j c Hj Hpos. rewrite Hb'. case_decide as Hji.
    + subst j. assert (c = b) as -> by congruence. eexists. split_and!; [done| |done..]. by apply (Hbs i b Hi).
    + exists c. split_and!; [done| |done..]. by apply (Hbs j c Hj).
  - intros n d [j c (Hj & Hv & Hn)|H].
    + destruct (decide (j = i)) as [->|Hji].
      * assert (c = b) as -> by congruence. change (b_data b) with (b_data (b <| b_refcount := k |>)).
        apply (shows_buffer s' n i (b <| b_refcount := k |>)).
        split_and!; [|done..]. rewrite Hb'. by rewrite decide_True.
      * apply (shows_buffer s' n j c). split_and!; [|done..]. rewrite Hb'. by rewrite decide_False.
    + apply (shows_disk s' n). intros j c (Hj & Hv & Hn). rewrite Hb' in Hj. case_decide as Hji; [|by eapply (H j c)].
      injection Hj as <-. by apply (H i b).
Qed.

Lemma touch_ok s i :
  pool_wf s → is_Some (buf (c_bufpool s) i) →
  let s' := with_pool (c_bufpool s <| bp_lru ::= buffer_touch i |>) s in
  touch i s = Some (tt, s') ∧ pool_wf s' ∧ in_use s s' ∧ ∀ n d, shows s n d → shows s' n d.
Proof.
  intros Hwf Hi s'. pose proof Hwf as ((ch & l & Hr) & Hbs & Hok & Hsz). split_and!; [done| | |].
  - destruct (pool_touch _ _ _ _ Hr Hi) as [l' Hr']. split_and!; [by exists ch, l'|exact Hbs|exact Hok|apply Hsz..].
  - intros j c Hj Hpos. exists c. split_and!; [done| |done..]. by apply (Hbs j c Hj).
  - intros n d Hs. apply (shows_agree s s'); [|done|exact Hs]. intros j. apply (agree_refl s).
Qed.

(** An empty buffer takes block [n], as it is on the disk. *)
Definition filled (n : Z) (data : list Z) (first : option Z) : lsfs_buffer := mk_buffer data n true false 1 first.

Lemma insert_ok s i b0 n first :
  pool_wf s → buf (c_bufpool s) i = Some b0 → b_valid b0 = false → in_disk s n 1 →
  (∀ j c, ¬ holds (c_bufpool s) n j c) → arr_get (bp_hash (c_bufpool s)) (buffer_hash n) = Some first →
  let s' := with_pool (chained i (filled n (disk_block (c_disk s) n) first) (c_bufpool s)) s in
  pool_wf s' ∧ in_use s s' ∧ (∀ m d, shows s m d → shows s' m d) ∧
  holds (c_bufpool s') n i (filled n (disk_block (c_disk s) n) first).
Proof.
  intros Hwf Hi Hv0 Hn Hfree Hf s'. pose proof Hwf as ((ch & l & Hr) & Hbs & Hok & Hsz).
  assert (is_Some (buf (c_bufpool s) i)) as Hs by by eexists. set (b := filled _ _ _) in *.
  assert (∀ j, buf (c_bufpool s') j = if decide (j = i) then Some b else buf (c_bufpool s) j) as Hb'.
  { intros j. by apply (buf_put (c_bufpool s) i b j). }
  assert (holds (c_bufpool s') n i b) as Hh by (split_and!; [rewrite Hb'; by rewrite decide_True|done..]).
  split_and!; [..|done].
  - split_and!; [eexists _, l; eapply (pool_insert _ ch l i b0 b); done| |done|apply Hsz|apply Hsz].
    intros j c. rewrite Hb'. case_decide as Hj; [|apply Hbs].
    intros [= <-]. unfold buffer_ok. cbn. split_and!; [apply Hok|lia|lia|done|done].
  - intros j c Hj Hpos. destruct (Hbs j c Hj) as (_ & _ & Hval & _). specialize (Hval Hpos). exists c. rewrite Hb'.
    rewrite decide_False by (intros ->; congruence). done.
  - intros m d [j c Hc|H].
    + assert (j ≠ i) as Hji by (intros ->; destruct Hc as (? & ? & _); congruence). destruct Hc as (Hj & ? & ?).
      apply (shows_buffer s' m j c). split_and!; [|done..]. rewrite Hb'. by rewrite decide_False.
    + destruct (decide (m = n)) as [->|Hm]; [by apply (shows_buffer s' n i b)|]. apply (shows_disk s' m).
      intros j c (Hj & Hv & Hmn). rewrite Hb' in Hj. case_decide as Hji; [injection Hj as <-; done|by eapply (H j c)].
Qed.

(** What every operation of the pool guarantees. *)
Record pool_result s s' : Prop := {
  pl_wf : pool_wf s';
  pl_frame : pool_frame s s';
  pl_in_use : in_use s s';
  pl_shows : Healthy E → c_readonly s = false → ∀ n d, shows s n d → shows s' n d }.

Lemma with_pool_frame p s : pool_frame s (with_pool p s).
Proof. unfold pool_frame. by destruct s. Qed.

(** The buffer [i] is in use once, no other is. *)
Definition only_use i s : Prop :=
  ∀ j b, buf (c_bufpool s) j = Some b → b_refcount b = if decide (j = i) then 1 else 0.

(** [lsfs_buffer_get] on a block that is in the pool. *)
Lemma buffer_hit_wp s n i b :
  pool_wf s → holds (c_bufpool s) n i b →
  wp (_ ← upd_buffer i (λ b, b <| b_refcount := u32 (b_refcount b + 1) |>); _ ← touch i; mret (Some i))
    (λ r s', r = Some i ∧ pool_result s s' ∧ (∃ c, holds (c_bufpool s') n i c ∧ b_data c = b_data b) ∧
       (idle s → only_use i s')) s.
Proof.
  intros Hwf (Hi & Hv & Hn). apply wp_bind. eapply wp_intro; [by apply upd_buffer_run|].
  destruct (recount_ok s i b (u32 (b_refcount b + 1)) Hwf Hi (u32_range _) (λ _, Hv)) as (Hwf1 & Hu1 & Hs1).
  set (s1 := with_pool _ s) in *. set (b1 := b <| b_refcount := _ |>) in *.
  assert (buf (c_bufpool s1) i = Some b1) as Hi1 by by eapply buf_put_eq.
  destruct (touch_ok s1 i Hwf1 ltac:(by eexists)) as (Hrun & Hwf2 & Hu2 & Hs2).
  apply wp_bind. eapply wp_intro; [exact Hrun|]. apply wp_ret. split; [done|]. split_and!.
  - split; [done|by destruct s| |by auto]. intros j c Hj Hpos. by destruct (Hu1 j c Hj Hpos) as (c' & Hj' & ?); exists c'.
  - by exists b1.
  - intros Hidle j c Hc. change (buf (c_bufpool s1) j = Some c) in Hc. unfold s1 in Hc. cbn [with_pool field_set c_bufpool] in Hc.
    rewrite buf_put in Hc by by eexists. case_decide; [|by eapply Hidle]. injection Hc as <-. cbn. by rewrite (Hidle i b Hi).
Qed.

(** The rest of [lsfs_buffer_get], when the block has been read into the buffer [i]. *)
Lemma buffer_fill_wp s n i b0 first :
  pool_wf s → buf (c_bufpool s) i = Some b0 → b_valid b0 = false → in_disk s n 1 →
  (∀ j c, ¬ holds (c_bufpool s) n j c) → arr_get (bp_hash (c_bufpool s)) (buffer_hash n) = Some first →
  wp (_ ← upd_buffer i (λ b, b <| b_data := disk_block (c_disk s) n |> <| b_block_num := n |>
                              <| b_valid := true |> <| b_dirty := false |> <| b_refcount := 1 |>);
      p ← gets c_bufpool;
      first ← of_opt (arr_get (bp_hash p) (buffer_hash n));
      _ ← upd_buffer i (λ b, b <| b_hash_next := first |>);
      _ ← set_bucket (buffer_hash n) (Some i);
      _ ← touch i;
      mret (Some i))
    (λ r s', r = Some i ∧ pool_result s s' ∧ (∃ c, holds (c_bufpool s') n i c ∧ b_data c = disk_block (c_disk s) n) ∧
       (idle s → only_use i s')) s.
Proof.
  intros Hwf Hi Hv0 Hn Hfree Hf.
  destruct (insert_ok s i b0 n first Hwf Hi Hv0 Hn Hfree Hf) as (Hwf1 & Hu1 & Hs1 & Hh1).
  set (b := filled _ _ _) in *. set (s1 := with_pool (chained _ _ _) s) in *.
  apply wp_bind. eapply wp_intro; [by apply upd_buffer_run|]. do 2 wp_step. apply wp_bind.
  eapply wp_of_opt; [exact Hf|]. apply wp_bind. eapply wp_intro; [by apply upd_buffer_run; eapply buf_put_eq|].
  apply wp_bind. eapply (wp_intro _ _ _ tt s1).
  { pose proof (arr_get_bound _ _ _ Hf) as Hb. unfold set_bucket, mbind, M_bind, gets, of_opt. cbn.
    rewrite arr_set_ok by done. unfold s1, with_pool, chained, put_buf, b, filled. destruct s as [? ? ? ? ? ? ? ? p]; cbn.
    destruct p as [bs hs lr]; cbn. rewrite list_insert_insert_eq. by destruct b0. }
  destruct (touch_ok s1 i Hwf1) as (Hrun & Hwf2 & Hu2 & Hs2); [by exists b; apply Hh1|].
  apply wp_bind. eapply wp_intro; [exact Hrun|]. apply wp_ret. split; [done|]. split_and!; [|by exists b|].
  - split; [done|by destruct s| |by auto]. intros j c Hj Hpos. by destruct (Hu1 j c Hj Hpos) as (c' & Hj' & ?); exists c'.
  - intros Hidle j c Hc. change (buf (put_buf i b (c_bufpool s)) j = Some c) in Hc.
    rewrite buf_put in Hc by by eexists. case_decide; [|by eapply Hidle]. by injection Hc as <-.
Qed.

(** [lsfs_buffer_get] returns a buffer with the block; when it does not, no buffer was
    free or the block could not be read. *)
Lemma buffer_get_wp s n :
  pool_wf s → addressable s n 1 →
  wp (lsfs_buffer_get n) (λ r s', pool_result s s' ∧
    match r with
    | Some i => (∃ b, holds (c_bufpool s') n i b ∧ shows s n (b_data b)) ∧ (idle s → only_use i s')
    | None => Healthy E → in_disk s n 1 → ∀ i b, buf (c_bufpool s) i = Some b → b_refcount b ≠ 0
    end) s.
Proof.
  intros Hwf Ha. destruct (lookup_run s n Hwf) as (first & r & Hf & Hfind & Hr).
  unfold lsfs_buffer_get. do 2 wp_step. apply wp_bind. eapply wp_of_opt; [exact Hf|].
  apply wp_bind. eapply wp_intro; [exact Hfind|]. destruct r as [i|].
  { destruct Hr as [b Hb]. eapply wp_mono; [by eapply buffer_hit_wp|]. intros ? s' (-> & Hres & (c & Hc & Hd) & Hone).
    split; [done|]. split; [|done]. exists c. split; [done|]. rewrite Hd. by eapply shows_buffer. }
  apply wp_bind. eapply wp_mono; [by apply buffer_evict_wp|]. intros [i|] s1 [[Hwf1 Hf1 Hk1 Hd1 Hid1 Hs1] Hvic].
  2:{ destruct Hvic as [-> Hvic]. apply wp_ret. split; [|done]. split; [done|done|by apply kept_in_use|done]. }
  destruct Hvic as (b0 & Hi & Hv0). destruct (Hd1 n Hr) as [Hfree Hdn].
  destruct (pool_frame_fields _ _ Hf1) as [Esz Ero].
  apply wp_bind. assert (addressable s1 n 1) as Ha1 by (unfold addressable in *; by rewrite Esz).
  assert (in_use s s1) as Hu1 by by apply kept_in_use.
  destruct (lsfs_read_block n s1) as [[rd s2]|] eqn:Hread; [|by rewrite read_block_run in Hread; [repeat case_match|]].
  pose proof (wp_run _ _ _ _ _ (read_block_frame s1 n Ha1) Hread) as (Hf2 & Hrd & Hdisk). eapply wp_intro; [exact Hread|].
  assert (c_bufpool s2 = c_bufpool s1 ∧ c_disk_size s2 = c_disk_size s1) as [Hp2 Hsz2] by by rewrite Hf2.
  assert (pool_frame s s2) as Hfr2.
  { eapply pool_frame_trans; [exact Hf1|]. unfold pool_frame. rewrite <-Hp2. by destruct s2. }
  assert (pool_wf s2) as Hwf2.
  { destruct Hwf1 as (Hrep & Hbs & Hok & Hsz). unfold pool_wf, buffer_ok, in_disk, disk_ok in *. by rewrite Hp2, Hsz2, Hdisk. }
  assert (∀ m d, shows s1 m d → shows s2 m d) as Hs12.
  { intros m d Hs. apply (shows_agree s1 s2); [|by rewrite Hdisk|exact Hs]. intros j. unfold agree. rewrite Hp2. apply agree_refl. }
  assert (in_use s s2) as Hu2 by (intros j c Hj Hpos; rewrite Hp2; by apply Hu1).
  destruct rd as [data|e].
  - destruct Hrd as [[= ->]|]; [|done].
    assert (in_disk s2 n 1) as Hin.
    { rewrite read_block_run in Hread by done. destruct (Z.leb_spec ((n + 1) * LSFS_BLOCK_SIZE) (c_disk_size s1)) as [Hle|]; [|done].
      destruct Ha1 as (? & ? & ? & ?). unfold in_disk. rewrite Hsz2. lia. }
    destruct (lookup_run s2 n Hwf2) as (first2 & _ & Hf3 & _). rewrite <-Hdisk.
    eapply wp_mono; [apply (buffer_fill_wp s2 n i b0 first2); [done|by rewrite Hp2|done|done|by rewrite Hp2|done]|].
    intros ? s3 (-> & [Hwf3 Hfr3 Hu3 Hs3] & (c & Hc & Hd) & Hone). split; [split|split].
    + done.
    + by eapply pool_frame_trans.
    + intros j c' Hj Hpos. destruct (Hk1 j c' Hj Hpos) as (c1 & Hj1 & Ed & En & Ev & Er).
      destruct (Hu3 j c1) as (c3 & Hj3 & ? & ? & ?); [by rewrite Hp2|lia|]. exists c3. split_and!; congruence.
    + intros HE Hro m d Hm. apply Hs3; [done| |by apply Hs12, Hs1]. by destruct (pool_frame_fields _ _ Hfr2) as [_ ->].
    + exists c. split; [done|]. rewrite Hd, Hdisk, Hdn. by apply shows_disk.
    + intros Hidle. apply Hone. unfold idle. rewrite Hp2. by apply Hid1.
  - apply wp_ret. split; [split; [done..|]|].
    + intros HE Hro m d Hm. by apply Hs12, Hs1.
    + intros HE Hin. rewrite read_block_ok in Hread; [done|]. unfold in_disk in *. by rewrite Esz.
Qed.

Lemma buffer_put_wp s i b :
  pool_wf s → buf (c_bufpool s) i = Some b →
  wp (lsfs_buffer_put (Some i)) (λ _ s', pool_result s s' ∧ (∀ n d, shows s n d → shows s' n d) ∧
    c_disk s' = c_disk s ∧
    ∀ j, buf (c_bufpool s') j =
      if decide (j = i) then Some (b <| b_refcount := Z.max 0 (b_refcount b - 1) |>) else buf (c_bufpool s) j) s.
Proof.
  intros Hwf Hi. pose proof Hwf as (_ & Hbs & _). destruct (Hbs i b Hi) as (_ & Hr & Hval & _).
  cbn [lsfs_buffer_put]. apply wp_bind. eapply wp_intro; [by apply get_buffer_run|].
  destruct (Z.ltb_spec 0 (b_refcount b)) as [Hpos|Hz].
  - destruct (recount_ok s i b (Z.pred (b_refcount b)) Hwf Hi ltac:(lia) (λ _, Hval Hpos)) as (Hwf1 & Hu1 & Hs1).
    eapply wp_intro; [by apply upd_buffer_run|]. split_and!; [split; [done|apply with_pool_frame|done|by auto]|done|done|].
    intros j. assert (Z.max 0 (b_refcount b - 1) = Z.pred (b_refcount b)) as -> by lia.
    apply buf_put. by eexists.
  - apply wp_ret. split_and!; [split; [done|done|by apply kept_in_use|done]|done|done|].
    intros j. case_decide as Hj; [|done]. subst j. rewrite Hi. f_equal.
    assert (Z.max 0 (b_refcount b - 1) = b_refcount b) as -> by lia. by destruct b.
Qed.

(** The holder of a buffer changes its contents and marks it dirty. *)
Definition buffer_store (i : Z) (data : list Z) : Op () :=
  upd_buffer i (λ b, b <| b_data := data |> <| b_dirty := true |>).

Lemma buffer_store_wp s n i b data :
  pool_wf s → holds (c_bufpool s) n i b → is_block data →
  wp (buffer_store i data) (λ _ s', pool_wf s' ∧ pool_frame s s' ∧ c_disk s' = c_disk s ∧
    (∀ j, j ≠ i → buf (c_bufpool s') j = buf (c_bufpool s) j) ∧
    (∃ c, holds (c_bufpool s') n i c ∧ b_data c = data ∧ b_refcount c = b_refcount b) ∧
    ∀ m d, shows s m d → shows s' m (if decide (m = n) then data else d)) s.
Proof.
  intros Hwf (Hi & Hv & Hn) Hd. pose proof Hwf as ((ch & l & Hr) & Hbs & Hok & Hsz).
  assert (is_Some (buf (c_bufpool s) i)) as Hs by by eexists.
  eapply wp_intro; [by apply upd_buffer_run|]. set (c := b <| b_data := data |> <| b_dirty := true |>).
  set (s' := with_pool _ s).
  assert (∀ j, buf (c_bufpool s') j = if decide (j = i) then Some c else buf (c_bufpool s) j) as Hb' by (intros j; by apply buf_put).
  assert (holds (c_bufpool s') n i c) as Hh by (split_and!; [rewrite Hb'; by rewrite decide_True|done..]).
  split_and!; [|apply with_pool_frame|done| |by exists c|].
  - split_and!; [exists ch, l; by eapply pool_update| |exact Hok|apply Hsz..].
    intros j x. rewrite Hb'. case_decide as Hj; [|apply Hbs]. intros [= <-].
    destruct (Hbs i b Hi) as (_ & ? & ? & Hin). unfold buffer_ok. cbn. split_and!; try done; [lia|lia|]. intros ?.
    split; [by apply Hin|done].
  - intros j Hj. rewrite Hb'. by rewrite decide_False.
  - intros m d Hm. case_decide as Heq; [subst m; by apply (shows_buffer s' n i c)|]. destruct Hm as [j x (Hj & Hvx & Hmx)|H].
    + assert (j ≠ i) by (intros ->; congruence). apply (shows_buffer s' m j x). split_and!; [|done..]. rewrite Hb'. by rewrite decide_False.
    + apply (shows_disk s' m). intros j x (Hj & Hvx & Hmx). rewrite Hb' in Hj. case_decide as Hji; [|by eapply (H j x)].
      injection Hj as <-. cbn in Hmx. congruence.
Qed.

(** ** Writing everything back *)

(** The write-back of one buffer leaves the pool with the same contents. *)
Lemma written_ok s s1 i b di :
  pool_wf s → buf (c_bufpool s) i = Some b → b_valid b = true →
  io_frame s s1 → disk_ok s1 →
  (∀ m, m ≠ b_block_num b → disk_block (c_disk s1) m = disk_block (c_disk s) m) →
  (di = false → disk_block (c_disk s1) (b_block_num b) = b_data b) →
  let s' := with_pool (put_buf i (b <| b_dirty := di |>) (c_bufpool s)) s1 in
  pool_wf s' ∧ pool_frame s s' ∧ kept s s' ∧ (∀ n d, shows s n d → shows s' n d) ∧
  ∀ j, buf (c_bufpool s') j = if decide (j = i) then Some (b <| b_dirty := di |>) else buf (c_bufpool s) j.
Proof.
  intros Hwf Hi Hv Hf Hok1 Ho Hd s'. pose proof Hwf as ((ch & l & Hr) & Hbs & Hok & Hsz).
  assert (is_Some (buf (c_bufpool s) i)) as Hs by by eexists. set (c := b <| b_dirty := di |>) in *.
  assert (c_disk_size s1 = c_disk_size s) as Esz by by rewrite Hf.
  assert (pool_frame s s') as Hfr.
  { unfold pool_frame, io_frame, with_pool in *. unfold s'. rewrite Hf. by destruct s, s1. }
  assert (∀ j, buf (c_bufpool s') j = if decide (j = i) then Some c else buf (c_bufpool s) j) as Hb' by (intros j; by apply buf_put).
  assert (∀ j, agree s s' j) as Hag.
  { intros j. unfold agree. rewrite Hb'. case_decide as Hj; [subst j; rewrite Hi; by constructor|].
    destruct (buf (c_bufpool s) j); by constructor. }
  assert (∀ n d, shows s n d → shows s' n d) as Hsh.
  { intros n d. apply shows_agree; [done|]. intros Hn. apply Ho. intros ->. by eapply (Hn i b). }
  split_and!; [|done| |done|done].
  - split_and!; [exists ch, l; by eapply pool_update| |exact Hok1|cbn; rewrite Esz; apply Hsz..].
    intros j x. rewrite Hb'. case_decide as Hj.
    + intros [= <-]. destruct (Hbs i b Hi) as (? & ? & ? & Hin). unfold buffer_ok, in_disk in *. cbn. rewrite Esz.
      split_and!; try done; [lia|lia|]. intros ?. split; [by apply Hin|]. intros Hdi. symmetry. by apply Hd.
    + intros Hx. eapply buffer_ok_same; [by eapply Hbs|done|done|done|]. intros Hvx. apply Ho. intros En. apply Hj.
      by eapply (pr_unique _ _ _ Hr (b_block_num x) _ _ x b).
  - intros j x Hx _. specialize (Hag j). unfold agree in Hag. rewrite Hx in Hag.
    inversion Hag as [? y ? E1 E2|]. by exists y.
Qed.

Definition clean_in s (ids : list Z) : Prop :=
  ∀ i b, i ∈ ids → buf (c_bufpool s) i = Some b → b_valid b = true → b_dirty b = false.

(** The outcome of writing back the buffers [ids] from state [s]. *)
Record flushed s (ids : list Z) (r : Z) s' : Prop := {
  fl_wf : pool_wf s';
  fl_frame : pool_frame s s';
  fl_kept : kept s s';
  fl_shows n d : shows s n d → shows s' n d;
  fl_clean : r = LSFS_OK → clean_in s' ids;
  fl_ok : Healthy E → c_readonly s = false → r = LSFS_OK }.

Lemma flush_one_wp s0 s ids i ret (k : Z → Op Z) Q :
  flushed s0 ids ret s → 0 <= i < LSFS_BUFFER_POOL_SIZE → i ∉ ids →
  (∀ ret' s', flushed s0 (ids ++ [i]) ret' s' → wp (k ret') Q s') →
  wp (b ← get_buffer i;
      if b_valid b && b_dirty b then
        r ← lsfs_write_block (b_block_num b) (b_data b);
        if r =? LSFS_OK then
          _ ← upd_buffer i (λ b, b <| b_dirty := false |>);
          k ret
        else k LSFS_ERR_IO
      else k ret) Q s.
Proof.
  intros [Hwf Hfr Hk Hsh Hcl Hok] Hrange Hnew Hnext. pose proof Hwf as ((ch & l & Hr) & Hbs & Hdk & _).
  assert (is_Some (buf (c_bufpool s) i)) as [b Hi] by by apply (buf_range _ _ _ _ Hr).
  apply wp_bind. eapply wp_intro; [by apply get_buffer_run|].
  destruct (b_valid b && b_dirty b) eqn:Hvd.
  2:{ apply Hnext. split; try done. intros Hret j c [Hj|Hj%list_elem_of_singleton]%elem_of_app Hc Hv; [by eapply Hcl|].
      subst j. assert (c = b) as -> by congruence. rewrite Hv in Hvd. by destruct (b_dirty b). }
  apply andb_true_iff in Hvd as [Hv Hd]. destruct (Hbs i b Hi) as (Hblk & _ & _ & Hval). destruct (Hval Hv) as [Hin _].
  apply wp_bind. eapply wp_mono; [by apply pool_write_back_wp|]. intros r s1 (Hf1 & Hok1 & Ho1 & Hd1 & Hh1).
  assert (c_bufpool s1 = c_bufpool s) as Hp1 by by rewrite Hf1.
  assert (∀ di r' s', (di = false → disk_block (c_disk s1) (b_block_num b) = b_data b) →
    s' = with_pool (put_buf i (b <| b_dirty := di |>) (c_bufpool s)) s1 →
    (r' = LSFS_OK → di = false ∧ ret = LSFS_OK) → (Healthy E → c_readonly s = false → ret = LSFS_OK → r' = LSFS_OK) →
    flushed s0 (ids ++ [i]) r' s') as Hfl.
  { intros di r' s' Hdi -> Hr' Hh'. destruct (written_ok s s1 i b di Hwf Hi Hv Hf1 Hok1 Ho1 Hdi) as (Hwf2 & Hfr2 & Hk2 & Hs2 & Hb2).
    destruct (pool_frame_fields _ _ Hfr) as [_ Ero].
    split; [done|by eapply pool_frame_trans|by eapply pool_kept_trans|by auto| |rewrite <-Ero in *; by auto].
    intros [-> Hret]%Hr' j c Hj Hc Hvc. rewrite Hb2 in Hc. case_decide as Hji; [by injection Hc as <-|].
    apply elem_of_app in Hj as [Hj|Hj%list_elem_of_singleton]; [by eapply Hcl|done]. }
  destruct (Z.eqb_spec r LSFS_OK) as [->|Hne].
  - apply wp_bind. eapply wp_intro; [apply upd_buffer_run; rewrite Hp1; exact Hi|]. apply Hnext.
    apply (Hfl false); [by auto|by rewrite Hp1|done|done].
  - apply Hnext. apply (Hfl true); [done| |done|intros HE Hro _; by destruct (Hh1 HE Hro)].
    rewrite <-Hd. assert (b <| b_dirty := b_dirty b |> = b) as -> by by destruct b.
    unfold put_buf. apply arr_get_lookup in Hi as [_ Hi]. destruct s1 as [? ? ? ? ? ? ? ? p]; cbn in *. subst p.
    destruct (c_bufpool s) as [bs hs lr]; cbn in *. unfold with_pool; cbn. by rewrite list_insert_id.
Qed.

Lemma buffer_flush_wp s : pool_wf s → wp lsfs_buffer_flush (flushed s (seqZ 0 LSFS_BUFFER_POOL_SIZE)) s.
Proof.
  intros Hwf. unfold lsfs_buffer_flush.
  assert (∀ todo ids ret s1, ids ++ todo = seqZ 0 LSFS_BUFFER_POOL_SIZE → flushed s ids ret s1 →
    wp (flush_buffers todo ret) (flushed s (ids ++ todo)) s1) as Hloop.
  { induction todo as [|i todo IH]; intros ids ret s1 Hids Hfl; [apply wp_ret; by rewrite app_nil_r|].
    cbn [flush_buffers].
    assert (i ∈ seqZ 0 LSFS_BUFFER_POOL_SIZE) as Hi%elem_of_seqZ by (rewrite <-Hids; set_solver).
    apply (flush_one_wp s s1 ids i ret (flush_buffers todo)); [done|lia| |].
    - pose proof (NoDup_seqZ 0 LSFS_BUFFER_POOL_SIZE) as Hnd. rewrite <-Hids in Hnd.
      apply NoDup_app in Hnd as (_ & Hd & _). intros Hin. apply (Hd i Hin). by apply elem_of_cons; left.
    - intros ret' s' Hfl'. rewrite (app_assoc ids [i] todo : ids ++ i :: todo = _). apply IH; [|done].
      by rewrite <-app_assoc. }
  apply (Hloop _ []); [done|]. split; try done. intros _ i b Hi. by apply elem_of_nil in Hi.
Qed.

(** When everything is written back the disk holds what the pool shows. *)
Lemma clean_disk s n d : pool_wf s → clean_in s (seqZ 0 LSFS_BUFFER_POOL_SIZE) → shows s n d → disk_block (c_disk s) n = d.
Proof.
  intros ((ch & l & Hr) & Hbs & _) Hcl [i b (Hi & Hv & Hn)|H]; [|done]. destruct (Hbs i b Hi) as (_ & _ & _ & Hval).
  destruct (Hval Hv) as [_ Hd]. rewrite Hd, Hn; [done|]. eapply Hcl; [|done..].
  apply elem_of_seqZ. assert (0 <= i < LSFS_BUFFER_POOL_SIZE) by (apply (buf_range _ _ _ _ Hr); by eexists). lia.
Qed.
End PoolOps.

(** * A fresh pool *)

Lemma init_links (k : nat) :
  (k <= pool_size)%nat →
  let d := foldl pool_init_link lru_empty (seqZ 0 (Z.of_nat k)) in
  (∀ j, lru_prev d !! j = if bool_decide (0 < j < Z.of_nat k) then Some (j - 1) else None) ∧
  (∀ j, lru_next d !! j = if bool_decide (0 <= j < Z.of_nat k - 1) then Some (j + 1) else None) ∧
  lru_head d = (if k then None else Some 0) ∧
  lru_tail d = (if (k =? pool_size)%nat then Some (LSFS_BUFFER_POOL_SIZE - 1) else None).
Proof.
  unfold pool_size. induction k as [|k IH]; intros Hk.
  - split; [|split; [|done]]; intros j; (case_bool_decide; [lia|]); apply lookup_empty.
  - destruct (IH ltac:(lia)) as (Hp & Hn & Hh & Ht).
    rewrite seqZ_S, foldl_snoc, Z.add_0_l, Nat2Z.inj_succ. set (d := foldl _ _ _) in *. clearbody d.
    unfold LSFS_BUFFER_POOL_SIZE in *.
    assert (∀ d', lru_prev (if Z.of_nat k =? 256 - 1 then d' <| lru_tail := Some (Z.of_nat k) |>
        <| lru_next ::= set_link (Z.of_nat k) None |> else d') = lru_prev d') as Ep by (intros d'; by destruct (Z.of_nat k =? 256 - 1)).
    unfold pool_init_link. cbv zeta. unfold LSFS_BUFFER_POOL_SIZE. rewrite Ep.
    split_and!.
    + intros j. destruct (Z.eqb_spec (Z.of_nat k) 0) as [E|E]; cbn; destruct (decide (Z.of_nat k = j)) as [<-|Hj].
      * rewrite set_link_eq. case_bool_decide; lia || done.
      * rewrite set_link_ne, Hp by done. do 2 case_bool_decide; lia || done.
      * rewrite set_link_eq. case_bool_decide; lia || done.
      * rewrite set_link_ne, Hp by done. do 2 case_bool_decide; lia || done.
    + intros j. destruct (Z.eqb_spec (Z.of_nat k) 0) as [E|E], (Z.eqb_spec (Z.of_nat k) (256 - 1)) as [E'|E']; try lia; cbn.
      * rewrite Hn. do 2 case_bool_decide; lia || done.
      * destruct (decide (Z.of_nat k = j)) as [<-|Hj]; [rewrite set_link_eq; case_bool_decide; lia || done|].
        rewrite set_link_ne by done. destruct (decide (Z.of_nat k - 1 = j)) as [<-|Hj'].
        -- rewrite set_link_eq. case_bool_decide; [f_equal; lia|lia].
        -- rewrite set_link_ne, Hn by done. do 2 case_bool_decide; lia || done.
      * destruct (decide (Z.of_nat k - 1 = j)) as [<-|Hj'].
        -- rewrite set_link_eq. case_bool_decide; [f_equal; lia|lia].
        -- rewrite set_link_ne, Hn by done. do 2 case_bool_decide; lia || done.
    + destruct (Z.eqb_spec (Z.of_nat k) 0) as [E|E], (Z.eqb_spec (Z.of_nat k) (256 - 1)) as [E'|E']; try lia; cbn; [by rewrite E|..];
        rewrite Hh; by destruct k.
    + transitivity (if Z.of_nat k =? 256 - 1 then Some (Z.of_nat k) else lru_tail d).
      { destruct (Z.eqb_spec (Z.of_nat k) 0) as [E|E], (Z.eqb_spec (Z.of_nat k) (256 - 1)) as [E'|E']; lia || done. }
      rewrite Ht. destruct (Z.eqb_spec (Z.of_nat k) (256 - 1)) as [E|E].
      * rewrite (proj2 (Nat.eqb_eq (S k) _)) by lia. by rewrite E.
      * rewrite (proj2 (Nat.eqb_neq k _)), (proj2 (Nat.eqb_neq (S k) _)) by lia. done.
Qed.

Lemma fresh_lru_repr : lru_repr (bp_lru fresh_pool) (seqZ 0 LSFS_BUFFER_POOL_SIZE).
Proof.
  destruct (init_links pool_size ltac:(done)) as (Hp & Hn & Hh & Ht). unfold fresh_pool. cbn [bp_lru].
  change (Z.of_nat pool_size) with LSFS_BUFFER_POOL_SIZE in *. rewrite Nat.eqb_refl in Ht.
  set (d := foldl _ _ _) in *. clearbody d. split.
  - apply NoDup_seqZ.
  - rewrite Hh. done.
  - rewrite Ht. done.
  - intros l1 n l2 Hl.
    assert (∀ j : nat, (j < 256)%nat → (l1 ++ n :: l2) !! j = Some (Z.of_nat j)) as Hlk.
    { intros j Hj. rewrite <-Hl. apply lookup_seqZ. unfold LSFS_BUFFER_POOL_SIZE. lia. }
    assert (length (l1 ++ n :: l2) = 256%nat) as Hlen by (rewrite <-Hl, length_seqZ; done).
    rewrite length_app in Hlen. cbn in Hlen.
    assert (n = Z.of_nat (length l1)) as ->.
    { specialize (Hlk (length l1) ltac:(lia)). rewrite list_lookup_middle in Hlk by done. by injection Hlk. }
    unfold LSFS_BUFFER_POOL_SIZE in *. split.
    + rewrite Hp. destruct (last l1) as [x|] eqn:Hlast; [apply last_Some in Hlast as [l0 ->]|apply last_None in Hlast; subst l1].
      * rewrite length_app in *. cbn in Hlen |- *. specialize (Hlk (length l0) ltac:(lia)).
        rewrite <-app_assoc in Hlk. cbn [app] in Hlk. rewrite list_lookup_middle in Hlk by done. injection Hlk as ->.
        case_bool_decide; [|lia]. f_equal. lia.
      * case_bool_decide; [cbn in *; lia|done].
    + rewrite Hn. destruct l2 as [|y l2]; cbn [head].
      * case_bool_decide; [cbn in *; lia|done].
      * specialize (Hlk (S (length l1)) ltac:(cbn in *; lia)). rewrite lookup_app_r in Hlk by lia.
        replace (S (length l1) - length l1)%nat with 1%nat in Hlk by lia. cbn in Hlk. injection Hlk as ->.
        case_bool_decide; [f_equal; lia|cbn in *; lia].
Qed.

Lemma fresh_buf i b : buf fresh_pool i = Some b → b = zero_buffer.
Proof. intros [_ Hi]%arr_get_lookup. unfold fresh_pool in Hi. cbn [bp_buffers] in Hi. by apply lookup_replicate in Hi as [? _]. Qed.

Lemma fresh_pool_repr : pool_repr fresh_pool (λ _, []) (seqZ 0 LSFS_BUFFER_POOL_SIZE).
Proof.
  assert (∀ n i b, ¬ holds fresh_pool n i b) as Hno by (intros n i b (->%fresh_buf & ? & _); done).
  split.
  - apply length_replicate.
  - apply length_replicate.
  - intros h Hh. exists None. split; [|done]. apply arr_get_lookup. split; [lia|].
    unfold fresh_pool. cbn [bp_hash]. apply lookup_replicate. unfold LSFS_BUFFER_HASH_SIZE in *. split; [done|lia].
  - intros _. constructor.
  - intros h i _. split; [by intros ?%elem_of_nil|]. intros (b & n & H & _). by apply Hno in H.
  - intros n i j b b' H. by apply Hno in H.
  - apply fresh_lru_repr.
  - intros i. rewrite elem_of_seqZ. lia.
Qed.

Lemma fresh_pool_wf s : disk_ok s → 0 <= c_disk_size s < 2 ^ 63 → pool_wf (with_pool fresh_pool s).
Proof.
  intros Hok Hsz. split_and!; [eexists _, _; apply fresh_pool_repr| |exact Hok|apply Hsz..].
  intros i b ->%fresh_buf. unfold buffer_ok. cbn. split_and!; [apply zero_block_is_block|lia|lia|lia|done].
Qed.

(** * Theorems *)

Inductive pool_op :=
  | PoolGet (n : Z)
  | PoolPut (i : Z)
  | PoolStore (i : Z) (data : list Z)
  | PoolFlush.

Definition pool_run `{E : Env} (op : pool_op) : Op (option Z) :=
  match op with
  | PoolGet n => lsfs_buffer_get n
  | PoolPut i => _ ← lsfs_buffer_put (Some i); mret None
  | PoolStore i data => _ ← buffer_store i data; mret None
  | PoolFlush => _ ← lsfs_buffer_flush; mret None
  end.

(** A client asks for blocks whose byte offset can be represented, returns buffers of the
    pool, and stores into buffers it holds. *)
Definition pool_allowed (s : lsfs_context) (op : pool_op) : Prop :=
  match op with
  | PoolGet n => addressable s n 1
  | PoolPut i => 0 <= i < LSFS_BUFFER_POOL_SIZE
  | PoolStore i data => is_block data ∧ ∃ b, buf (c_bufpool s) i = Some b ∧ 0 < b_refcount b
  | PoolFlush => True
  end.

(** The states a client can reach from a state in which the pool is initialised. *)
Inductive pool_reachable `{E : Env} (s0 : lsfs_context) : lsfs_context → Prop :=
  | reach_init s : lsfs_buffer_pool_init s0 = Some (LSFS_OK, s) → pool_reachable s0 s
  | reach_op s op r s' : pool_reachable s0 s → pool_allowed s op → pool_run op s = Some (r, s') → pool_reachable s0 s'.

Lemma pool_run_wp `{E : Env} s op :
  pool_wf s → pool_allowed s op →
  wp (pool_run op) (λ r s', pool_wf s' ∧
    (∀ j c, buf (c_bufpool s) j = Some c → 0 < b_refcount c →
       (∀ data, op ≠ PoolStore j data) →
       ∃ c', buf (c_bufpool s') j = Some c' ∧ b_block_num c' = b_block_num c ∧ b_data c' = b_data c) ∧
    (∀ i, r = Some i → ∃ n b, op = PoolGet n ∧ holds (c_bufpool s') n i b ∧ shows s n (b_data b))) s.
Proof.
  intros Hwf Hal. pose proof Hwf as ((ch & l & Hr) & Hbs & _). destruct op as [n|i|i data|]; cbn [pool_run].
  - eapply wp_mono; [by apply buffer_get_wp|]. intros r s' [[Hwf' _ Hu _] Hres]. split_and!; [done| |].
    + intros j c Hj Hpos _. destruct (Hu j c Hj Hpos) as (c' & ? & ? & ? & ?). by exists c'.
    + intros i ->. destruct Hres as [(b & ? & ?) _]. by exists n, b.
  - cbn in Hal. apply (buf_range _ _ _ _ Hr) in Hal as [b Hi]. apply wp_bind.
    eapply wp_mono; [by eapply buffer_put_wp|]. intros _ s' ([Hwf' _ Hu _] & _). apply wp_ret. split_and!; [done| |done].
    intros j c Hj Hpos _. destruct (Hu j c Hj Hpos) as (c' & ? & ? & ? & ?). by exists c'.
  - destruct Hal as (Hd & b & Hi & Hpos). assert (holds (c_bufpool s) (b_block_num b) i b) as Hh.
    { split_and!; [done| |done]. by apply (Hbs i b Hi). }
    apply wp_bind. eapply wp_mono; [by eapply buffer_store_wp|]. intros _ s' (Hwf' & _ & _ & Hoth & _). apply wp_ret.
    split_and!; [done| |done]. intros j c Hj _ Hne. exists c. split_and!; [|done..]. rewrite Hoth; [done|].
    intros ->. by apply (Hne data).
  - apply wp_bind. eapply wp_mono; [by apply buffer_flush_wp|]. intros r s' [Hwf' _ Hk _ _ _]. apply wp_ret.
    split_and!; [done| |done]. intros j c Hj Hpos _. destruct (Hk j c Hj Hpos) as (c' & ? & ? & ? & ? & ?). by exists c'.
Qed.

(** C21. From the initialised pool, whatever a client does within its rights and whatever
    fails, every operation ends and is defined (the walks along chains and list find what
    they look for), chains, LRU list and contents stay consistent, a buffer in use keeps
    its block and contents, and the buffer handed out for a block holds the contents last
    stored for it. *)
Theorem pool_safe `{E : Env} s0 s op :
  disk_ok s0 → 0 <= c_disk_size s0 < 2 ^ 63 → pool_reachable s0 s → pool_allowed s op →
  pool_wf s ∧ wp (pool_run op) (λ r s', pool_wf s' ∧
    (∀ j c, buf (c_bufpool s) j = Some c → 0 < b_refcount c → (∀ data, op ≠ PoolStore j data) →
       ∃ c', buf (c_bufpool s') j = Some c' ∧ b_block_num c' = b_block_num c ∧ b_data c' = b_data c) ∧
    (∀ i, r = Some i → ∃ n b, op = PoolGet n ∧ holds (c_bufpool s') n i b ∧ b_data b = pool_block s n)) s.
Proof.
  intros Hok Hsz Hreach Hal. assert (pool_wf s) as Hwf.
  { clear op Hal. induction Hreach as [s Hinit|s op r s' _ IH Hal Hrun].
    - unfold lsfs_buffer_pool_init, ask, mbind, M_bind in Hinit. destruct (env_alloc (c_tick s0)); [|done].
      assert (s = with_pool fresh_pool (s0 <| c_tick ::= S |>)) as -> by (by injection Hinit).
      by apply fresh_pool_wf.
    - by destruct (wp_run _ _ _ _ _ (pool_run_wp s op IH Hal) Hrun). }
  split; [done|]. eapply wp_mono; [by apply pool_run_wp|]. intros r s' (Hwf' & Hk & Hres). split_and!; [done..|].
  intros i Hi. destruct (Hres i Hi) as (n & b & -> & Hb & Hsh). exists n, b. split_and!; [done..|].
  destruct Hwf as ((ch & l & Hr) & _). symmetry. by eapply shows_eq.
Qed.

(** ** Transparency *)

(** Requests on single blocks, answered through the pool and on the disk. *)
Inductive request :=
  | BlockRead (n : Z)
  | BlockWrite (n : Z) (data : list Z).

Definition through_pool `{E : Env} (q : request) : Op (option (list Z)) :=
  match q with
  | BlockRead n =>
      r ← lsfs_buffer_get n;
      match r with
      | None => mret None
      | Some i => b ← get_buffer i; _ ← lsfs_buffer_put (Some i); mret (Some (b_data b))
      end
  | BlockWrite n data =>
      r ← lsfs_buffer_get n;
      match r with
      | None => mret None
      | Some i => _ ← buffer_store i data; _ ← lsfs_buffer_put (Some i); mret (Some data)
      end
  end.

Definition on_disk `{E : Env} (q : request) : Op (option (list Z)) :=
  match q with
  | BlockRead n =>
      r ← lsfs_read_block n;
      mret (match r with Ok blk => Some blk | Err _ => None end)
  | BlockWrite n data =>
      r ← lsfs_write_block n data;
      mret (if r =? LSFS_OK then Some data else None)
  end.

Fixpoint serve (run : request → Op (option (list Z))) (qs : list request) : Op (list (option (list Z))) :=
  match qs with
  | [] => mret []
  | q :: qs => a ← run q; rest ← serve run qs; mret (a :: rest)
  end.

Definition request_ok (s : lsfs_context) (q : request) : Prop :=
  match q with
  | BlockRead n => in_disk s n 1
  | BlockWrite n data => in_disk s n 1 ∧ is_block data
  end.

(** The pool over [s] shows the disk of [t]. *)
Record mirrors (s t : lsfs_context) : Prop := {
  mi_wf : pool_wf s;
  mi_idle : idle s;
  mi_size : c_disk_size t = c_disk_size s;
  mi_writable : c_readonly s = false ∧ c_readonly t = false;
  mi_shows n : shows s n (disk_block (c_disk t) n) }.

Section Transparent.
Context `{E : Env, !Healthy E}.
Implicit Types s t : lsfs_context.

Lemma mirrors_put s t i b :
  pool_wf s → only_use i s → buf (c_bufpool s) i = Some b → c_disk_size t = c_disk_size s →
  c_readonly s = false ∧ c_readonly t = false → (∀ n, shows s n (disk_block (c_disk t) n)) →
  wp (lsfs_buffer_put (Some i)) (λ _ s', mirrors s' t) s.
Proof.
  intros Hwf Hone Hi Hsz Hro Hsh. eapply wp_mono; [by eapply buffer_put_wp|].
  intros _ s' ([Hwf' Hf' _ _] & Hs' & _ & Hb'). destruct (pool_frame_fields _ _ Hf') as [Esz Ero].
  split; [done| |by rewrite Esz|by rewrite Ero|by auto].
  intros j c. rewrite Hb'. pose proof (Hone i b Hi) as H1. rewrite decide_True in H1 by done.
  case_decide as Hj; [intros [= <-]; cbn; lia|]. intros Hc. rewrite (Hone j c Hc). by rewrite decide_False.
Qed.

(** One request: the same answer, and the pool still shows the disk. *)
Lemma mirrors_request s t q :
  mirrors s t → request_ok s q →
  ∃ a s' t', through_pool q s = Some (a, s') ∧ on_disk q t = Some (a, t') ∧ mirrors s' t' ∧
    c_disk_size s' = c_disk_size s ∧ is_Some a.
Proof using Type*.
  intros [Hwf Hidle Hsz [Hro Hrot] Hsh] Hq.
  assert (∃ n, in_disk s n 1 ∧ (q = BlockRead n ∨ ∃ data, q = BlockWrite n data ∧ is_block data)) as (n & Hin & Hqn).
  { destruct q as [n|n data]; cbn in Hq; [by exists n; eauto|]. destruct Hq. exists n. eauto. }
  assert (in_disk t n 1) as Hint by (unfold in_disk in *; by rewrite Hsz).
  destruct (wp_elim _ _ _ (buffer_get_wp s n Hwf (in_disk_addressable _ _ _ Hin))) as (r & s1 & Hget & [Hwf1 Hf1 _ Hs1] & Hres).
  destruct r as [i|].
  2:{ exfalso. assert (is_Some (buf (c_bufpool s) 0)) as [b0 H0].
      { destruct Hwf as ((ch & l & Hr) & _). apply (buf_range _ _ _ _ Hr). unfold LSFS_BUFFER_POOL_SIZE. lia. }
      by apply (Hres _ Hin 0 b0 H0), (Hidle 0 b0). }
  destruct Hres as [(b & Hb & Hbs) Hone]. specialize (Hone Hidle). destruct (pool_frame_fields _ _ Hf1) as [Esz Ero].
  pose proof Hb as (Hi & _).
  assert (b_data b = disk_block (c_disk t) n) as Hdata.
  { destruct Hwf as ((ch & l & Hr) & _). by eapply shows_unique. }
  destruct Hqn as [->|(data & -> & Hblk)]; cbn [through_pool on_disk].
  - destruct (wp_elim _ _ _ (mirrors_put s1 (ticked t) i b Hwf1 Hone Hi ltac:(cbn; congruence)
      (conj (eq_trans Ero Hro) Hrot) (λ m, Hs1 _ Hro m _ (Hsh m)))) as ([] & s2 & Hput & Hmir).
    exists (Some (b_data b)), s2, (ticked t). split_and!; [| |done|by rewrite <-(mi_size _ _ Hmir)|by eexists].
    + erewrite bind_run by exact Hget. cbv beta iota. erewrite bind_run by by apply get_buffer_run. by erewrite bind_run by exact Hput.
    + erewrite bind_run by by apply read_block_ok. by rewrite Hdata.
  - destruct (wp_elim _ _ _ (buffer_store_wp s1 n i b data Hwf1 Hb Hblk))
      as ([] & s2 & Hstore & Hwf2 & Hf2 & _ & Hoth & (c & (Hc & _) & _ & Hrc) & Hs2).
    destruct (pool_frame_fields _ _ Hf2) as [Esz2 Ero2]. set (t' := after_write n [data] t).
    assert (only_use i s2) as Hone2.
    { intros j x Hx. destruct (decide (j = i)) as [->|Hj].
      - rewrite <-(decide_True (P := i = i) 1 0) at 1 by done. rewrite Hc in Hx. injection Hx as <-. rewrite Hrc.
        specialize (Hone i b Hi). rewrite decide_True in * by done. done.
      - rewrite Hoth in Hx by done. specialize (Hone j x Hx). by rewrite decide_False in Hone. }
    assert (∀ m, shows s2 m (disk_block (c_disk t') m)) as Hsh2.
    { intros m. specialize (Hs2 m _ (Hs1 _ Hro m _ (Hsh m))). unfold t', after_write, write_range. cbn.
      rewrite disk_block_insert. destruct (decide (n = m)) as [->|Hne]; [by rewrite decide_True in Hs2|].
      by rewrite decide_False in Hs2. }
    destruct (wp_elim _ _ _ (mirrors_put s2 t' i c Hwf2 Hone2 Hc ltac:(cbn; congruence)
      (conj (eq_trans Ero2 (eq_trans Ero Hro)) Hrot) Hsh2)) as ([] & s3 & Hput & Hmir).
    exists (Some data), s3, t'. split_and!; [| |done|by rewrite <-(mi_size _ _ Hmir)|by eexists].
    + erewrite bind_run by exact Hget. cbv beta iota. erewrite bind_run by exact Hstore. by erewrite bind_run by exact Hput.
    + by erewrite bind_run by by apply write_block_ok.
Qed.

Lemma mirrors_serve s t qs :
  mirrors s t → Forall (request_ok s) qs →
  ∃ out s' t', serve through_pool qs s = Some (out, s') ∧ serve on_disk qs t = Some (out, t') ∧ mirrors s' t' ∧
    Forall is_Some out.
Proof using Type*.
  revert s t. induction qs as [|q qs IH]; intros s t Hm Hqs; [by exists [], s, t; split_and!; try done; constructor|].
  apply Forall_cons in Hqs as [Hq Hqs]. destruct (mirrors_request s t q Hm Hq) as (a & s1 & t1 & Hs & Ht & Hm1 & Esz & Ha).
  destruct (IH s1 t1 Hm1) as (out & s2 & t2 & Hs2 & Ht2 & Hm2 & Hout).
  { eapply Forall_impl; [exact Hqs|]. intros [n|n data]; unfold request_ok, in_disk; by rewrite Esz. }
  exists (a :: out), s2, t2. cbn [serve]. split_and!; [..|done|by constructor].
  - erewrite bind_run by exact Hs. by erewrite bind_run by exact Hs2.
  - erewrite bind_run by exact Ht. by erewrite bind_run by exact Ht2.
Qed.
End Transparent.

(** C20. On a machine without failures the pool is transparent: any sequence of reads and
    writes of blocks, each through a buffer taken and returned, gets the answers the disk
    itself would give, and once the pool is flushed the disk is the one the requests
    applied to it directly leave behind. *)
Theorem pool_transparent `{E : Env, !Healthy E} s qs :
  pool_wf s → idle s → c_readonly s = false → (∀ n, pool_block s n = disk_block (c_disk s) n) →
  Forall (request_ok s) qs →
  ∃ out s1 s2, (out ← serve through_pool qs; _ ← lsfs_buffer_flush; mret out) s = Some (out, s1) ∧
    serve on_disk qs s = Some (out, s2) ∧ Forall is_Some out ∧
    ∀ n, disk_block (c_disk s1) n = disk_block (c_disk s2) n.
Proof.
  intros Hwf Hidle Hro Hclean Hqs.
  destruct (mirrors_serve s s qs) as (out & s1 & t1 & Hs & Ht & [Hwf1 _ _ [Hro1 _] Hsh] & Hout); [split; try done|done|].
  { intros n. rewrite <-Hclean. apply pool_block_shows. }
  destruct (wp_elim _ _ _ (buffer_flush_wp s1 Hwf1)) as (r & s2 & Hfl & [Hwf2 _ _ Hsh2 Hcl2 Hok2]).
  exists out, s2, t1. split_and!; [|done|done|].
  - erewrite bind_run by exact Hs. by erewrite bind_run by exact Hfl.
  - intros n. apply clean_disk; [done|by apply Hcl2, Hok2|by apply Hsh2].
Qed.
