(* ===== verification/Imap.v ===== *)
(** The inode map, [src/imap.c]: an array of entries sorted by inode number,
    searched by bisection, that grows on demand and is saved to and loaded from a
    checkpoint region.  The specification is a finite map from inode numbers to
    (location, version) ([imap_map]); the theorems show that every operation of
    the array implements the operation on the map. *)
From Stdlib Require Import Sorting.Sorted.
From S2P Require Import Prelude OnDisk Lru Context Io.

Definition IMAP_INITIAL_CAPACITY : Z := 1024.
Definition IMAP_GROWTH_FACTOR : Z := 2.

(** * The operations on the structure *)

Definition zero_entry : lsfs_imap_entry := mk_imap_entry 0 0 0.

(** [lsfs_imap_init]; [alloc] and [lock] are the answers of [calloc] and of
    [pthread_rwlock_init]. *)
Definition imap_init (alloc lock : bool) : res lsfs_imap :=
  if negb alloc then Err LSFS_ERR_NOMEM else
  if negb lock then Err LSFS_ERR_NOMEM else
  Ok (mk_imap (replicate (Z.to_nat IMAP_INITIAL_CAPACITY) zero_entry)
        IMAP_INITIAL_CAPACITY 0 (LSFS_ROOT_INO + 1)).

(** The [while (left <= right)] loop; the interval halves, so 32 rounds are enough
    for any [int] bounds. *)
Fixpoint imap_find_loop (fuel : nat) (entries : list lsfs_imap_entry) (left right ino : Z)
    : option Z :=
  match fuel with
  | O => None
  | S fuel =>
      if left <=? right then
        let mid := left + (right - left) / 2 in
        e ← arr_get entries mid;
        if ie_ino e =? ino then Some mid
        else if ie_ino e <? ino then imap_find_loop fuel entries (mid + 1) right ino
        else imap_find_loop fuel entries left (mid - 1) ino
      else Some (-1)
  end.

Definition imap_find (im : lsfs_imap) (ino : Z) : option Z :=
  if imap_count im =? 0 then Some (-1)
  else imap_find_loop 32 (imap_entries im) 0 (imap_count im - 1) ino.

Fixpoint insert_pos_loop (fuel : nat) (entries : list lsfs_imap_entry) (left right ino : Z)
    : option Z :=
  match fuel with
  | O => None
  | S fuel =>
      if left <? right then
        let mid := left + (right - left) / 2 in
        e ← arr_get entries mid;
        if ie_ino e <? ino then insert_pos_loop fuel entries (mid + 1) right ino
        else insert_pos_loop fuel entries left mid ino
      else Some left
  end.

Definition imap_find_insert_pos (im : lsfs_imap) (ino : Z) : option Z :=
  if imap_count im =? 0 then Some 0
  else insert_pos_loop 33 (imap_entries im) 0 (imap_count im) ino.

(** [imap_grow]; [ra] is the answer of [realloc], [junk] the bytes it finds in the
    new part of the array. *)
Definition imap_grow (ra : bool) (junk : list Z) (im : lsfs_imap) : Z * lsfs_imap :=
  let doubled := u32 (imap_capacity im * IMAP_GROWTH_FACTOR) in
  let new_capacity := if LSFS_MAX_INODES <? doubled then LSFS_MAX_INODES else doubled in
  if (LSFS_MAX_INODES <? doubled) && (new_capacity <=? imap_capacity im)
  then (LSFS_ERR_NOSPC, im)
  else if negb ra then (LSFS_ERR_NOMEM, im)
  else (LSFS_OK,
        im <| imap_entries ::= λ es,
                es ++ dec_array (Z.to_nat (new_capacity - imap_capacity im)) junk |>
           <| imap_capacity := new_capacity |>).

Definition imap_get (im : lsfs_imap) (ino : Z) : option (res (Z * Z)) :=
  idx ← imap_find im ino;
  if 0 <=? idx then
    e ← arr_get (imap_entries im) idx;
    Some (Ok (ie_location e, ie_version e))
  else Some (Err LSFS_ERR_NOENT).

(** [memmove(&a[dst], &a[src], n * sizeof)] inside one array. *)
Definition memmove {A} (a : list A) (dst src n : Z) : option (list A) :=
  if (0 <=? dst) && (0 <=? src) && (0 <=? n) && (dst + n <=? Z.of_nat (length a))
     && (src + n <=? Z.of_nat (length a))
  then Some (splice a (Z.to_nat dst) (slice (Z.to_nat src) (Z.to_nat n) a))
  else None.

Definition imap_set (ra : bool) (junk : list Z) (im : lsfs_imap) (ino location : Z)
    : option (Z * lsfs_imap) :=
  idx ← imap_find im ino;
  if 0 <=? idx then
    e ← arr_get (imap_entries im) idx;
    es ← arr_set (imap_entries im) idx
           (e <| ie_location := location |> <| ie_version ::= λ v, u32 (v + 1) |>);
    Some (LSFS_OK, im <| imap_entries := es |>)
  else
    let '(ret, im) := if imap_capacity im <=? imap_count im
                      then imap_grow ra junk im else (LSFS_OK, im) in
    if negb (ret =? LSFS_OK) then Some (ret, im) else
    pos ← imap_find_insert_pos im ino;
    es ← (if pos <? imap_count im
          then memmove (imap_entries im) (pos + 1) pos (imap_count im - pos)
          else Some (imap_entries im));
    es ← arr_set es pos (mk_imap_entry ino 1 location);
    Some (LSFS_OK, im <| imap_entries := es |> <| imap_count ::= λ c, u32 (c + 1) |>).

Definition imap_remove (im : lsfs_imap) (ino : Z) : option (Z * lsfs_imap) :=
  idx ← imap_find im ino;
  if idx <? 0 then Some (LSFS_ERR_NOENT, im) else
  es ← (if idx <? u32 (imap_count im - 1)
        then memmove (imap_entries im) idx (idx + 1) (imap_count im - idx - 1)
        else Some (imap_entries im));
  Some (LSFS_OK, im <| imap_entries := es |> <| imap_count ::= λ c, u32 (c - 1) |>).

(** The search of [lsfs_imap_alloc_ino] for an inode number that is not mapped. *)
Fixpoint first_free (im : lsfs_imap) (candidates : list Z) : option Z :=
  match candidates with
  | [] => Some 0
  | i :: rest =>
      idx ← imap_find im i;
      if idx <? 0 then Some i else first_free im rest
  end.

Definition imap_alloc_ino (im : lsfs_imap) : option (Z * lsfs_imap) :=
  if LSFS_MAX_INODES <=? imap_next_ino im then
    ino ← first_free im (seqZ (LSFS_ROOT_INO + 1) (LSFS_MAX_INODES - (LSFS_ROOT_INO + 1)));
    Some (ino, im)
  else Some (imap_next_ino im, im <| imap_next_ino ::= λ n, u32 (n + 1) |>).

(** * The abstract map and the invariant *)

Definition imap_live (im : lsfs_imap) : list lsfs_imap_entry :=
  take (Z.to_nat (imap_count im)) (imap_entries im).

Definition by_ino (a b : lsfs_imap_entry) : Prop := ie_ino a < ie_ino b.

Definition entry_binding (e : lsfs_imap_entry) : Z * (Z * Z) :=
  (ie_ino e, (ie_location e, ie_version e)).

Definition entries_map (l : list lsfs_imap_entry) : gmap Z (Z * Z) :=
  list_to_map (entry_binding <$> l).

(** What the inode map means. *)
Definition imap_map (im : lsfs_imap) : gmap Z (Z * Z) := entries_map (imap_live im).

Record imap_wf (im : lsfs_imap) : Prop := {
  imap_wf_array : Z.of_nat (length (imap_entries im)) = imap_capacity im;
  imap_wf_count : 0 <= imap_count im <= imap_capacity im;
  imap_wf_capacity : 0 < imap_capacity im < 2 ^ 31;
  imap_wf_sorted : StronglySorted by_ino (imap_live im) }.

Lemma imap_live_length im : imap_wf im → Z.of_nat (length (imap_live im)) = imap_count im.
Proof. intros [? ? ? _]. unfold imap_live. rewrite length_take. lia. Qed.

Lemma imap_live_lookup im i :
  0 <= i < imap_count im → imap_live im !! Z.to_nat i = arr_get (imap_entries im) i.
Proof.
  intros Hi. unfold imap_live, arr_get. destruct (Z.ltb_spec i 0); [lia|].
  by rewrite lookup_take_lt by lia.
Qed.

Section Sorted.
Implicit Types l : list lsfs_imap_entry.

Lemma sorted_lookup l i j a b :
  StronglySorted by_ino l → l !! i = Some a → l !! j = Some b → (i < j)%nat →
  ie_ino a < ie_ino b.
Proof.
  intros Hs. revert i j. induction Hs as [|x l Hs IH Hx]; intros i j Hi Hj Hij; [done|].
  destruct j as [|j]; [lia|]. simpl in Hj. destruct i as [|i]; simpl in Hi.
  - simplify_eq. eapply Forall_lookup_1 in Hx; [|exact Hj]. done.
  - eapply IH; [done|done|lia].
Qed.

Lemma sorted_inj l i j a b :
  StronglySorted by_ino l → l !! i = Some a → l !! j = Some b → ie_ino a = ie_ino b → i = j.
Proof.
  intros Hs Hi Hj Heq. destruct (Nat.lt_trichotomy i j) as [?|[?|?]]; [|done|].
  - pose proof (sorted_lookup _ _ _ _ _ Hs Hi Hj ltac:(done)). lia.
  - pose proof (sorted_lookup _ _ _ _ _ Hs Hj Hi ltac:(done)). lia.
Qed.

Lemma sorted_NoDup l : StronglySorted by_ino l → NoDup ((entry_binding <$> l).*1).
Proof.
  intros Hs. rewrite <-list_fmap_compose. apply NoDup_alt. intros i j x Hi Hj.
  apply list_lookup_fmap_Some in Hi as (a & -> & Ha).
  apply list_lookup_fmap_Some in Hj as (b & Heq & Hb). cbn in Heq.
  by eapply sorted_inj.
Qed.

Lemma entries_map_Some l ino v :
  StronglySorted by_ino l →
  entries_map l !! ino = Some v ↔
  ∃ i e, l !! i = Some e ∧ ie_ino e = ino ∧ v = (ie_location e, ie_version e).
Proof.
  intros Hs. unfold entries_map. rewrite <-elem_of_list_to_map by by apply sorted_NoDup.
  rewrite list_elem_of_fmap. split.
  - intros (e & Heq & (i & Hi)%list_elem_of_lookup). unfold entry_binding in Heq. naive_solver.
  - intros (i & e & Hi & <- & ->). exists e. split; [done|].
    by eapply list_elem_of_lookup_2.
Qed.

Lemma entries_map_None l ino :
  StronglySorted by_ino l →
  entries_map l !! ino = None ↔ ∀ i e, l !! i = Some e → ie_ino e ≠ ino.
Proof.
  intros Hs. rewrite eq_None_not_Some. split.
  - intros Hn i e Hi Heq. apply Hn. eexists. apply entries_map_Some; eauto 10.
  - intros Hn [v (i & e & Hi & Heq & _)%entries_map_Some]; [|done]. by eapply Hn.
Qed.

Lemma entries_map_lookup l i e :
  StronglySorted by_ino l → l !! i = Some e →
  entries_map l !! ie_ino e = Some (ie_location e, ie_version e).
Proof. intros. apply entries_map_Some; eauto 10. Qed.

(** Replacing an entry without changing its key. *)
Lemma sorted_update l i e e' :
  StronglySorted by_ino l → l !! i = Some e → ie_ino e' = ie_ino e →
  StronglySorted by_ino (<[i := e']> l).
Proof.
  intros Hs. revert i. induction Hs as [|x l Hs IH Hx]; intros i Hi Hk; [done|].
  destruct i as [|i]; simpl in Hi; simplify_eq; simpl.
  - constructor; [done|]. eapply Forall_impl; [exact Hx|]. unfold by_ino. intros; lia.
  - constructor; [by apply IH|]. apply Forall_insert; [done|]. unfold by_ino. rewrite Hk.
    by eapply Forall_lookup_1 in Hx.
Qed.

Lemma entries_map_update l i e e' :
  StronglySorted by_ino l → l !! i = Some e → ie_ino e' = ie_ino e →
  entries_map (<[i := e']> l) = <[ie_ino e := (ie_location e', ie_version e')]> (entries_map l).
Proof.
  intros Hs Hi Hk. assert (i < length l)%nat by by eapply lookup_lt_Some.
  apply map_eq. intros k. apply option_eq. intros v.
  rewrite entries_map_Some by by eapply sorted_update.
  rewrite lookup_insert_Some, entries_map_Some by done. split.
  - intros (j & a & Hj & <- & ->). apply list_lookup_insert_Some in Hj.
    destruct Hj as [(-> & -> & _)|(Hne & Hj)]; [by left|]. right. split; [|by eauto].
    intros Heq. apply Hne. by eapply sorted_inj.
  - intros [[<- <-]|(Hne & j & a & Hj & <- & ->)].
    + exists i, e'. by rewrite list_lookup_insert_eq.
    + exists j, a. rewrite list_lookup_insert_ne by congruence. done.
Qed.

(** Inserting an entry between the smaller and the larger keys. *)
Lemma sorted_insert l1 l2 e :
  StronglySorted by_ino (l1 ++ l2) →
  Forall (λ a, ie_ino a < ie_ino e) l1 → Forall (λ a, ie_ino e < ie_ino a) l2 →
  StronglySorted by_ino (l1 ++ e :: l2).
Proof.
  induction l1 as [|a l1 IH]; simpl; intros Hs H1 H2.
  - constructor; [done|exact H2].
  - apply StronglySorted_inv in Hs as [Hs Ha]. apply Forall_cons in H1 as [Hae H1].
    constructor; [by apply IH|]. apply Forall_app in Ha as [Ha1 Ha2].
    apply Forall_app; split; [done|]. by constructor.
Qed.

Lemma entries_map_insert l1 l2 e :
  StronglySorted by_ino (l1 ++ e :: l2) →
  entries_map (l1 ++ e :: l2) =
    <[ie_ino e := (ie_location e, ie_version e)]> (entries_map (l1 ++ l2)).
Proof.
  intros Hs. unfold entries_map. rewrite <-(list_to_map_cons (M := gmap Z)).
  apply list_to_map_proper; [by apply sorted_NoDup|].
  by rewrite <-(fmap_cons entry_binding e), Permutation_middle.
Qed.

Lemma sorted_delete l1 e l2 :
  StronglySorted by_ino (l1 ++ e :: l2) → StronglySorted by_ino (l1 ++ l2).
Proof.
  induction l1 as [|a l1 IH]; simpl; intros [Hs Ha]%StronglySorted_inv; [done|].
  constructor; [by apply IH|]. apply Forall_app in Ha as [? [_ ?]%Forall_cons].
  by apply Forall_app.
Qed.

Lemma entries_map_delete l1 e l2 :
  StronglySorted by_ino (l1 ++ e :: l2) →
  entries_map (l1 ++ l2) = delete (ie_ino e) (entries_map (l1 ++ e :: l2)).
Proof.
  intros Hs. rewrite entries_map_insert by done. rewrite delete_insert_id; [done|].
  apply entries_map_None; [by eapply sorted_delete|]. intros i a Ha Heq.
  assert (NoDup (ie_ino <$> l1 ++ e :: l2)) as Hnd.
  { apply sorted_NoDup in Hs. by rewrite <-list_fmap_compose in Hs. }
  rewrite fmap_app, fmap_cons, <-Permutation_middle, NoDup_cons, <-fmap_app, <-Heq in Hnd.
  apply (proj1 Hnd). apply list_elem_of_fmap_2. by eapply list_elem_of_lookup_2.
Qed.
End Sorted.

(** * Bisection *)

Lemma arr_get_live im i :
  imap_wf im → 0 <= i < imap_count im →
  ∃ e, arr_get (imap_entries im) i = Some e ∧ imap_live im !! Z.to_nat i = Some e.
Proof.
  intros Hwf Hi. rewrite (imap_live_lookup im i) by done.
  destruct (arr_get_Some (imap_entries im) i) as [e He]; [destruct Hwf; lia|]. eauto.
Qed.

(** [idx] is where [ino] is, or -1 when it is nowhere. *)
Definition found_at (im : lsfs_imap) (ino idx : Z) : Prop :=
  (idx = -1 ∧ ∀ i e, imap_live im !! i = Some e → ie_ino e ≠ ino) ∨
  (0 <= idx < imap_count im ∧ ∃ e, arr_get (imap_entries im) idx = Some e ∧ ie_ino e = ino).

Lemma imap_find_loop_S fuel es left right ino :
  imap_find_loop (S fuel) es left right ino =
    if left <=? right then
      let mid := left + (right - left) / 2 in
      e ← arr_get es mid;
      if ie_ino e =? ino then Some mid
      else if ie_ino e <? ino then imap_find_loop fuel es (mid + 1) right ino
      else imap_find_loop fuel es left (mid - 1) ino
    else Some (-1).
Proof. done. Qed.

Lemma insert_pos_loop_S fuel es left right ino :
  insert_pos_loop (S fuel) es left right ino =
    if left <? right then
      let mid := left + (right - left) / 2 in
      e ← arr_get es mid;
      if ie_ino e <? ino then insert_pos_loop fuel es (mid + 1) right ino
      else insert_pos_loop fuel es left mid ino
    else Some left.
Proof. done. Qed.

Lemma imap_find_loop_spec im fuel left right ino :
  imap_wf im → 0 <= left → right < imap_count im → right - left + 1 < 2 ^ Z.of_nat fuel →
  (∀ i e, imap_live im !! i = Some e → ie_ino e = ino → left <= Z.of_nat i <= right) →
  ∃ idx, imap_find_loop (S fuel) (imap_entries im) left right ino = Some idx ∧
         found_at im ino idx.
Proof.
  intros Hwf. revert left right. induction fuel as [|fuel IH]; intros left right Hl Hr Hf Hin.
  all: rewrite imap_find_loop_S;
    destruct (Z.leb_spec left right);
    [|exists (-1); split; [done|]; left; split; [done|];
      intros i e Hi Heq; specialize (Hin i e Hi Heq); lia].
  { change (2 ^ Z.of_nat 0) with 1 in Hf. lia. }
  cbv zeta. set (mid := left + (right - left) / 2).
  assert (left <= mid <= right) as Hmid
    by (subst mid; pose proof (Z.div_pos (right - left) 2);
        pose proof (Z.div_le_upper_bound (right - left) 2 (right - left)); lia).
  assert (2 * ((right - left) / 2) <= right - left < 2 * ((right - left) / 2) + 2) as Hhalf.
  { pose proof (Z.div_mod (right - left) 2). pose proof (Z.mod_pos_bound (right - left) 2). lia. }
  rewrite Nat2Z.inj_succ, Z.pow_succ_r in Hf by lia.
  destruct (arr_get_live im mid Hwf) as (e & He & Hlive); [lia|]. rewrite He.
  cbn [mbind option_bind].
  destruct (Z.eqb_spec (ie_ino e) ino) as [Heq|Hne].
  { exists mid. split; [done|]. right. split; [lia|]. eauto. }
  destruct (Z.ltb_spec (ie_ino e) ino) as [Hlt|Hge].
  - apply IH; [lia..|]. intros i e' Hi Heq. specialize (Hin i e' Hi Heq).
    destruct (decide (Z.of_nat i <= mid)); [|lia].
    destruct (decide (i = Z.to_nat mid)); [simplify_eq; lia|].
    pose proof (sorted_lookup _ i (Z.to_nat mid) e' e (imap_wf_sorted _ Hwf) Hi Hlive). lia.
  - apply IH; [lia..|]. intros i e' Hi Heq. specialize (Hin i e' Hi Heq).
    destruct (decide (mid <= Z.of_nat i)); [|lia].
    destruct (decide (i = Z.to_nat mid)); [simplify_eq; lia|].
    pose proof (sorted_lookup _ (Z.to_nat mid) i e e' (imap_wf_sorted _ Hwf) Hlive Hi). lia.
Qed.

Lemma imap_find_spec im ino :
  imap_wf im → ∃ idx, imap_find im ino = Some idx ∧ found_at im ino idx.
Proof.
  intros Hwf. unfold imap_find. pose proof (imap_live_length im Hwf) as Hlen.
  destruct (Z.eqb_spec (imap_count im) 0) as [H0|H0].
  - exists (-1). split; [done|]. left. split; [done|].
    intros i e Hi%lookup_lt_Some. lia.
  - destruct Hwf eqn:E. apply imap_find_loop_spec; [done|lia..|].
    intros i e Hi%lookup_lt_Some _. lia.
Qed.

Lemma insert_pos_loop_spec im fuel left right ino :
  imap_wf im → 0 <= left <= right → right <= imap_count im → right - left < 2 ^ Z.of_nat fuel →
  (∀ i e, imap_live im !! i = Some e → Z.of_nat i < left → ie_ino e < ino) →
  (∀ i e, imap_live im !! i = Some e → right <= Z.of_nat i → ino <= ie_ino e) →
  ∃ pos, insert_pos_loop (S fuel) (imap_entries im) left right ino = Some pos ∧
         0 <= pos <= imap_count im ∧
         (∀ i e, imap_live im !! i = Some e → Z.of_nat i < pos → ie_ino e < ino) ∧
         (∀ i e, imap_live im !! i = Some e → pos <= Z.of_nat i → ino <= ie_ino e).
Proof.
  intros Hwf. revert left right. induction fuel as [|fuel IH]; intros left right Hl Hr Hf Hlo Hhi.
  all: rewrite insert_pos_loop_S;
    destruct (Z.ltb_spec left right);
    [|exists left; split_and!; [done|lia..|done|]; intros i e Hi Hle; apply (Hhi i e Hi); lia].
  { change (2 ^ Z.of_nat 0) with 1 in Hf. lia. }
  cbv zeta. set (mid := left + (right - left) / 2).
  assert (2 * ((right - left) / 2) <= right - left < 2 * ((right - left) / 2) + 2) as Hhalf.
  { pose proof (Z.div_mod (right - left) 2). pose proof (Z.mod_pos_bound (right - left) 2). lia. }
  rewrite Nat2Z.inj_succ, Z.pow_succ_r in Hf by lia.
  destruct (arr_get_live im mid Hwf) as (e & He & Hlive); [lia|]. rewrite He.
  cbn [mbind option_bind].
  destruct (Z.ltb_spec (ie_ino e) ino) as [Hlt|Hge].
  - apply IH; [lia..| |done]. intros i e' Hi Hle.
    destruct (decide (i = Z.to_nat mid)); [simplify_eq; lia|].
    pose proof (sorted_lookup _ i (Z.to_nat mid) e' e (imap_wf_sorted _ Hwf) Hi Hlive). lia.
  - apply IH; [lia..|done|]. intros i e' Hi Hle.
    destruct (decide (i = Z.to_nat mid)); [simplify_eq; lia|].
    pose proof (sorted_lookup _ (Z.to_nat mid) i e e' (imap_wf_sorted _ Hwf) Hlive Hi). lia.
Qed.

Lemma imap_find_insert_pos_spec im ino :
  imap_wf im →
  ∃ pos, imap_find_insert_pos im ino = Some pos ∧ 0 <= pos <= imap_count im ∧
         (∀ i e, imap_live im !! i = Some e → Z.of_nat i < pos → ie_ino e < ino) ∧
         (∀ i e, imap_live im !! i = Some e → pos <= Z.of_nat i → ino <= ie_ino e).
Proof.
  intros Hwf. unfold imap_find_insert_pos. pose proof (imap_live_length im Hwf) as Hlen.
  destruct (Z.eqb_spec (imap_count im) 0) as [H0|H0].
  - exists 0. split_and!; [done|lia..| |]; intros i e Hi%lookup_lt_Some; lia.
  - destruct Hwf eqn:E. apply insert_pos_loop_spec; [done|lia..| |].
    + intros i e _ ?. lia.
    + intros i e Hi%lookup_lt_Some ?. lia.
Qed.

(** * The operations on the abstract map *)

Lemma found_lookup im ino idx :
  imap_wf im → found_at im ino idx →
  (idx = -1 ∧ imap_map im !! ino = None) ∨
  (0 <= idx < imap_count im ∧ ∃ e, arr_get (imap_entries im) idx = Some e ∧
     imap_live im !! Z.to_nat idx = Some e ∧ ie_ino e = ino ∧
     imap_map im !! ino = Some (ie_location e, ie_version e)).
Proof.
  intros Hwf [[-> Hn]|[Hi (e & He & <-)]].
  - left. split; [done|]. apply entries_map_None; [by apply imap_wf_sorted|done].
  - right. split; [done|]. rewrite <-imap_live_lookup in He by done.
    exists e. rewrite <-imap_live_lookup by done. split_and!; [done..|].
    eapply entries_map_lookup; [by apply imap_wf_sorted|done].
Qed.

Lemma imap_get_spec im ino :
  imap_wf im →
  imap_get im ino = Some (match imap_map im !! ino with
                          | Some (location, version) => Ok (location, version)
                          | None => Err LSFS_ERR_NOENT
                          end).
Proof.
  intros Hwf. destruct (imap_find_spec im ino Hwf) as (idx & Hf & Hat).
  unfold imap_get. rewrite Hf. cbn [mbind option_bind].
  destruct (found_lookup im ino idx Hwf Hat) as [[-> ->]|(Hi & e & He & _ & _ & ->)]; [done|].
  destruct (Z.leb_spec 0 idx); [|lia]. by rewrite He.
Qed.

Lemma imap_update_spec im ino idx e e' :
  imap_wf im → 0 <= idx < imap_count im → arr_get (imap_entries im) idx = Some e →
  ie_ino e = ino → ie_ino e' = ino →
  let im' := im <| imap_entries := <[Z.to_nat idx := e']> (imap_entries im) |> in
  imap_wf im' ∧ imap_map im' = <[ino := (ie_location e', ie_version e')]> (imap_map im).
Proof.
  intros Hwf Hi He Hk Hk' im'. rewrite <-imap_live_lookup in He by done.
  assert (imap_live im' = <[Z.to_nat idx := e']> (imap_live im)) as Hlive.
  { unfold imap_live, im'. cbn. rewrite take_insert_lt by lia. done. }
  destruct Hwf as [Ha Hc Hcap Hs]. split.
  - split; subst im'; cbn in *; rewrite ?length_insert; [done..|].
    rewrite Hlive. eapply sorted_update; [done..|congruence].
  - unfold imap_map. rewrite Hlive. rewrite <-Hk.
    erewrite entries_map_update by (done || congruence). done.
Qed.

Lemma imap_grow_spec ra junk im :
  imap_wf im → imap_count im = imap_capacity im →
  let '(r, im') := imap_grow ra junk im in
  (r = LSFS_OK ∧ ra = true ∧ imap_capacity im < LSFS_MAX_INODES ∧ imap_wf im' ∧
   imap_map im' = imap_map im ∧ imap_count im' = imap_count im ∧
   imap_count im' < imap_capacity im' ∧ imap_next_ino im' = imap_next_ino im) ∨
  (r = LSFS_ERR_NOSPC ∧ LSFS_MAX_INODES <= imap_capacity im ∧ im' = im) ∨
  (r = LSFS_ERR_NOMEM ∧ ra = false ∧ im' = im).
Proof.
  intros [Ha Hc Hcap Hs] Hfull. unfold imap_grow, IMAP_GROWTH_FACTOR, LSFS_MAX_INODES.
  rewrite u32_small by lia. cbv zeta.
  set (nc := if 65536 <? imap_capacity im * 2 then 65536 else imap_capacity im * 2).
  assert ((65536 <? imap_capacity im * 2) && (nc <=? imap_capacity im)
          = (65536 <=? imap_capacity im)) as ->.
  { subst nc. destruct (Z.ltb_spec 65536 (imap_capacity im * 2)),
      (Z.leb_spec 65536 (imap_capacity im)); simpl; (done || lia). }
  destruct (Z.leb_spec 65536 (imap_capacity im)) as [H|H]; [by eauto 10|].
  destruct ra; cbn; [|by eauto 10]. left.
  assert (imap_capacity im < nc <= 65536) as Hnc.
  { subst nc. destruct (Z.ltb_spec 65536 (imap_capacity im * 2)); lia. }
  set (im' := mk_imap _ _ _ _).
  assert (imap_live im' = imap_live im) as Hlive.
  { unfold imap_live, im'. cbn. rewrite take_app_le by lia. done. }
  split_and!; [done|done|done| |by unfold imap_map; rewrite Hlive|done|cbn; lia|done].
  split; subst im'; cbn; [|lia..|by rewrite Hlive].
  rewrite length_app, length_dec_array. lia.
Qed.

Lemma imap_insert_spec im ino pos location :
  imap_wf im → imap_count im < imap_capacity im → imap_map im !! ino = None →
  0 <= pos <= imap_count im →
  (∀ i e, imap_live im !! i = Some e → Z.of_nat i < pos → ie_ino e < ino) →
  (∀ i e, imap_live im !! i = Some e → pos <= Z.of_nat i → ino <= ie_ino e) →
  ∃ es,
    (es0 ← (if pos <? imap_count im
            then memmove (imap_entries im) (pos + 1) pos (imap_count im - pos)
            else Some (imap_entries im));
     arr_set es0 pos (mk_imap_entry ino 1 location)) = Some es ∧
    let im' := im <| imap_entries := es |> <| imap_count ::= λ c, u32 (c + 1) |> in
    imap_wf im' ∧ imap_map im' = <[ino := (location, 1)]> (imap_map im).
Proof.
  intros Hwf Hroom Hnone Hpos Hlo Hhi. pose proof Hwf as [Ha Hc Hcap Hs].
  set (n := Z.to_nat (imap_count im)). set (p := Z.to_nat pos). set (e := mk_imap_entry ino 1 location).
  set (es := <[p := e]> (splice (imap_entries im) (S p) (slice p (n - p) (imap_entries im)))).
  assert (length (slice p (n - p) (imap_entries im)) = (n - p)%nat) as Hsl
    by (apply length_slice; lia).
  assert (length (splice (imap_entries im) (S p) (slice p (n - p) (imap_entries im)))
          = length (imap_entries im)) as Hspl by (apply length_splice; lia).
  exists es. split.
  { destruct (Z.ltb_spec pos (imap_count im)).
    - unfold memmove. rewrite !(proj2 (Z.leb_le _ _)) by lia. cbn [andb mbind option_bind].
      replace (Z.to_nat (pos + 1)) with (S p) by lia.
      replace (Z.to_nat (imap_count im - pos)) with (n - p)%nat by lia.
      fold p. rewrite arr_set_ok by lia. done.
    - cbn [mbind option_bind]. rewrite arr_set_ok by lia. subst es. do 2 f_equal.
      replace (n - p)%nat with 0%nat by lia. unfold splice, slice.
      rewrite take_0. cbn [length app]. by rewrite Nat.add_0_r, take_drop. }
  cbv zeta. set (im' := im <| imap_entries := es |> <| imap_count ::= λ c, u32 (c + 1) |>).
  assert (imap_live im' = take p (imap_live im) ++ e :: drop p (imap_live im)) as Hlive.
  { unfold imap_live, im'. cbn. rewrite u32_small by lia.
    replace (Z.to_nat (imap_count im + 1)) with (S n) by lia.
    subst es. rewrite insert_gap by lia. fold n. rewrite take_take, Nat.min_l by lia.
    unfold slice. by rewrite take_drop_commute, (Nat.add_comm p), Nat.sub_add by lia. }
  assert (StronglySorted by_ino (imap_live im')) as Hs'.
  { rewrite Hlive. apply sorted_insert; [by rewrite take_drop|..]; apply Forall_lookup_2.
    - intros i a Hi. apply lookup_take_Some in Hi as [Hi Hip]. cbn. apply (Hlo i a Hi). lia.
    - intros i a Hi. rewrite lookup_drop in Hi. cbn.
      pose proof (Hhi _ _ Hi ltac:(lia)).
      pose proof (proj1 (entries_map_None _ _ Hs) Hnone _ _ Hi). lia. }
  split.
  - split; [..|done]; subst im'; cbn; rewrite ?u32_small by lia; [|lia..].
    subst es. rewrite length_insert. lia.
  - unfold imap_map. rewrite Hlive in Hs' |- *.
    rewrite entries_map_insert by done. by rewrite take_drop.
Qed.

(** Before an insertion: either there is room afterwards, or the map is full and
    unchanged. *)
Lemma imap_make_room ra junk im :
  imap_wf im →
  let step := if imap_capacity im <=? imap_count im then imap_grow ra junk im else (LSFS_OK, im) in
  (∃ im1, step = (LSFS_OK, im1) ∧ imap_wf im1 ∧ imap_count im1 < imap_capacity im1 ∧
     imap_map im1 = imap_map im ∧ imap_next_ino im1 = imap_next_ino im ∧
     (imap_count im < imap_capacity im ∨ (ra = true ∧ imap_capacity im < LSFS_MAX_INODES))) ∨
  (∃ r, step = (r, im) ∧ r ≠ LSFS_OK ∧ imap_count im = imap_capacity im ∧
     ((r = LSFS_ERR_NOSPC ∧ LSFS_MAX_INODES <= imap_capacity im) ∨
      (r = LSFS_ERR_NOMEM ∧ ra = false))).
Proof.
  intros Hwf. cbv zeta. pose proof Hwf as [_ Hc _ _].
  destruct (Z.leb_spec (imap_capacity im) (imap_count im)).
  - pose proof (imap_grow_spec ra junk im Hwf ltac:(lia)) as Hg.
    destruct (imap_grow ra junk im) as [r im1].
    destruct Hg as [Hg|[Hg|Hg]]; destruct_and!; subst.
    + left. exists im1. split_and!; try done. by right.
    + right. exists LSFS_ERR_NOSPC. split_and!; [done..|lia|by left].
    + right. exists LSFS_ERR_NOMEM. split_and!; [done..|lia|by right].
  - left. exists im. split_and!; try done. by left.
Qed.

Lemma imap_set_spec ra junk im ino location :
  imap_wf im →
  ∃ r im', imap_set ra junk im ino location = Some (r, im') ∧ imap_wf im' ∧
    imap_next_ino im' = imap_next_ino im ∧
    match imap_map im !! ino with
    | Some (_, version) =>
        r = LSFS_OK ∧ imap_map im' = <[ino := (location, u32 (version + 1))]> (imap_map im)
    | None =>
        (r = LSFS_OK ∧ imap_map im' = <[ino := (location, 1)]> (imap_map im) ∧
         (imap_count im < imap_capacity im ∨ (ra = true ∧ imap_capacity im < LSFS_MAX_INODES))) ∨
        (im' = im ∧ imap_count im = imap_capacity im ∧
         ((r = LSFS_ERR_NOSPC ∧ LSFS_MAX_INODES <= imap_capacity im) ∨
          (r = LSFS_ERR_NOMEM ∧ ra = false)))
    end.
Proof.
  intros Hwf. destruct (imap_find_spec im ino Hwf) as (idx & Hf & Hat).
  unfold imap_set. rewrite Hf. cbn [mbind option_bind].
  destruct (found_lookup im ino idx Hwf Hat) as [[-> Hnone]|(Hi & e & He & _ & Hk & ->)].
  2:{ destruct (Z.leb_spec 0 idx); [|lia]. rewrite He. cbn [mbind option_bind].
      rewrite arr_set_ok by (destruct Hwf; lia). cbn [mbind option_bind].
      eexists _, _. split; [done|].
      edestruct (imap_update_spec im ino idx e) as [Hwf' Hmap]; [done..| |]; [|eauto]. done. }
  rewrite Hnone. cbn [Z.leb Z.compare].
  destruct (imap_make_room ra junk im Hwf)
    as [(im1 & -> & Hwf1 & Hroom & Hmap1 & Hnext & Hwhy)|(r & -> & Hr & Hfull & Hwhy)].
  - cbn [negb Z.eqb LSFS_OK].
    destruct (imap_find_insert_pos_spec im1 ino Hwf1) as (pos & Hp & Hpos & Hlo & Hhi).
    rewrite Hp. cbn [mbind option_bind].
    destruct (imap_insert_spec im1 ino pos location) as (es & Hes & Hwf' & Hmap');
      [done|done|congruence|done|done|done|].
    destruct (if pos <? imap_count im1 then _ else _) as [es0|]; [|done].
    cbn [mbind option_bind] in Hes |- *. rewrite Hes. eexists _, _. split_and!; [done..|]. left. split_and!; [done| |done].
    by rewrite Hmap', Hmap1.
  - rewrite (proj2 (Z.eqb_neq r LSFS_OK)) by done. cbn [negb].
    eexists _, _. split_and!; [done..|]. by right.
Qed.

Lemma imap_remove_spec im ino :
  imap_wf im →
  ∃ r im', imap_remove im ino = Some (r, im') ∧ imap_wf im' ∧
    imap_next_ino im' = imap_next_ino im ∧
    imap_map im' = delete ino (imap_map im) ∧
    r = match imap_map im !! ino with Some _ => LSFS_OK | None => LSFS_ERR_NOENT end.
Proof.
  intros Hwf. destruct (imap_find_spec im ino Hwf) as (idx & Hf & Hat).
  unfold imap_remove. rewrite Hf. cbn [mbind option_bind].
  destruct (found_lookup im ino idx Hwf Hat) as [[-> Hnone]|(Hi & e & He & Hl & Hk & Hm)].
  { rewrite Hnone. eexists _, _. split_and!; [done..| |done]. by rewrite delete_id. }
  rewrite Hm. destruct (Z.ltb_spec idx 0); [lia|].
  pose proof Hwf as [Ha Hc Hcap Hs].
  set (n := Z.to_nat (imap_count im)). set (p := Z.to_nat idx).
  set (es := splice (imap_entries im) p (slice (S p) (n - p - 1) (imap_entries im))).
  assert (length (slice (S p) (n - p - 1) (imap_entries im)) = (n - p - 1)%nat) as Hsl
    by (apply length_slice; lia).
  assert (length es = length (imap_entries im)) as Hes by (apply length_splice; lia).
  rewrite (u32_small (imap_count im - 1)) by lia.
  assert ((if idx <? imap_count im - 1
           then memmove (imap_entries im) idx (idx + 1) (imap_count im - idx - 1)
           else Some (imap_entries im)) = Some es) as ->.
  { destruct (Z.ltb_spec idx (imap_count im - 1)).
    - unfold memmove. rewrite !(proj2 (Z.leb_le _ _)) by lia. cbn [andb].
      replace (Z.to_nat (idx + 1)) with (S p) by lia.
      by replace (Z.to_nat (imap_count im - idx - 1)) with (n - p - 1)%nat by lia.
    - subst es. replace (n - p - 1)%nat with 0%nat by lia. unfold splice, slice.
      rewrite take_0. cbn [length app]. by rewrite Nat.add_0_r, take_drop. }
  cbn [mbind option_bind].
  set (im' := im <| imap_entries := es |> <| imap_count ::= λ c, u32 (c - 1) |>).
  assert (imap_live im = take p (imap_live im) ++ e :: drop (S p) (imap_live im)) as Hsplit
    by by rewrite take_drop_middle.
  assert (imap_live im' = take p (imap_live im) ++ drop (S p) (imap_live im)) as Hlive.
  { unfold imap_live, im'. cbn [imap_entries imap_count field_set]. rewrite u32_small by lia.
    replace (Z.to_nat (imap_count im - 1)) with (n - 1)%nat by lia.
    subst es. rewrite close_gap by lia. fold n. rewrite take_take, Nat.min_l by lia.
    unfold slice. rewrite take_drop_commute. do 3 f_equal. lia. }
  rewrite Hsplit in Hs.
  exists LSFS_OK, im'. split_and!; [done| |done| |done].
  - split; [..|rewrite Hlive; by eapply sorted_delete];
      subst im'; cbn; rewrite ?u32_small by lia; lia.
  - unfold imap_map. rewrite Hlive, (entries_map_delete _ e) by done.
    by rewrite <-Hsplit, Hk.
Qed.

(** ** Allocation of inode numbers *)

Lemma imap_find_neg im ino :
  imap_wf im →
  ∃ idx, imap_find im ino = Some idx ∧ (idx <? 0) = bool_decide (imap_map im !! ino = None).
Proof.
  intros Hwf. destruct (imap_find_spec im ino Hwf) as (idx & Hf & Hat). exists idx.
  split; [done|].
  destruct (found_lookup im ino idx Hwf Hat) as [[-> ->]|(Hi & e & _ & _ & _ & ->)].
  - by rewrite bool_decide_eq_true_2.
  - rewrite bool_decide_eq_false_2 by done. apply Z.ltb_ge. lia.
Qed.

Lemma first_free_spec im l :
  imap_wf im → 0 ∉ l →
  ∃ ino, first_free im l = Some ino ∧
    ((ino = 0 ∧ ∀ i, i ∈ l → is_Some (imap_map im !! i)) ∨
     (ino ∈ l ∧ imap_map im !! ino = None)).
Proof.
  intros Hwf. induction l as [|i l IH]; intros H0; cbn [first_free].
  - exists 0. split; [done|]. left. split; [done|]. set_solver.
  - destruct (imap_find_neg im i Hwf) as (idx & -> & Hneg). cbn [mbind option_bind].
    rewrite Hneg. case_bool_decide as Hi.
    + exists i. split; [done|]. right. set_solver.
    + destruct IH as (ino & -> & Hcase); [set_solver|]. exists ino. split; [done|].
      destruct Hcase as [[-> Hall]|[Hin Hn]]; [left|right; set_solver].
      split; [done|]. intros j [->|Hj]%elem_of_cons; [by apply not_eq_None_Some|auto].
Qed.

(** Every mapped inode number was handed out earlier. *)
Definition imap_fresh (im : lsfs_imap) : Prop :=
  LSFS_ROOT_INO + 1 <= imap_next_ino im <= LSFS_MAX_INODES ∧
  ∀ ino, is_Some (imap_map im !! ino) → ino < imap_next_ino im.

Lemma imap_alloc_spec im :
  imap_wf im → imap_fresh im →
  ∃ ino im', imap_alloc_ino im = Some (ino, im') ∧ imap_wf im' ∧ imap_fresh im' ∧
    imap_map im' = imap_map im ∧ imap_next_ino im <= imap_next_ino im' ∧ ino < imap_next_ino im' ∧
    ((ino = 0 ∧ im' = im ∧
      ∀ i, LSFS_ROOT_INO < i < LSFS_MAX_INODES → is_Some (imap_map im !! i)) ∨
     (LSFS_ROOT_INO < ino < LSFS_MAX_INODES ∧ imap_map im !! ino = None)).
Proof.
  intros Hwf [Hn Hfresh]. unfold imap_alloc_ino.
  destruct (Z.leb_spec LSFS_MAX_INODES (imap_next_ino im)) as [Hle|Hlt].
  - edestruct (first_free_spec im (seqZ (LSFS_ROOT_INO + 1) (LSFS_MAX_INODES - (LSFS_ROOT_INO + 1))))
      as (ino & -> & Hcase); [done|rewrite elem_of_seqZ; unfold LSFS_ROOT_INO; lia|].
    exists ino, im. split_and!; [done..| |]; destruct Hcase as [[-> Hall]|[Hin Hnone]].
    + unfold LSFS_MAX_INODES in *. lia.
    + apply elem_of_seqZ in Hin. unfold LSFS_ROOT_INO, LSFS_MAX_INODES in *. lia.
    + left. split_and!; [done..|]. intros i Hi. apply Hall, elem_of_seqZ.
      unfold LSFS_ROOT_INO, LSFS_MAX_INODES in *. lia.
    + right. apply elem_of_seqZ in Hin. split; [|done].
      unfold LSFS_ROOT_INO, LSFS_MAX_INODES in *. lia.
  - unfold LSFS_ROOT_INO, LSFS_MAX_INODES in *.
    eexists _, _. split; [done|]. cbn. rewrite u32_small by lia. split_and!.
    + by destruct Hwf.
    + split; [unfold LSFS_ROOT_INO, LSFS_MAX_INODES; cbn; lia|].
      intros ino Hino. cbn. specialize (Hfresh ino Hino). lia.
    + done.
    + lia.
    + lia.
    + right. split; [lia|]. destruct (imap_map im !! imap_next_ino im) eqn:Eq; [|done].
      specialize (Hfresh (imap_next_ino im) ltac:(eauto)). lia.
Qed.

(** * Saving and loading a checkpoint's copy of the map *)

Definition imap_entries_per_block : Z := LSFS_BLOCK_SIZE / Z.of_nat (sizeof lsfs_imap_entry).

(** [LSFS_DIV_ROUND_UP(count, entries_per_block)] in 32 bits *)
Definition imap_blocks_needed (count : Z) : Z :=
  u32 (count + imap_entries_per_block - 1) / imap_entries_per_block.

(** The loop of [lsfs_imap_load] that finds the next inode number to hand out. *)
Definition highest_ino (es : list lsfs_imap_entry) : Z :=
  foldl (λ n e, if n <=? ie_ino e then u32 (ie_ino e + 1) else n) (LSFS_ROOT_INO + 1) es.

Section ImapOps.
Context `{E : Env}.

Definition lsfs_imap_init : Op Z :=
  alloc ← ask env_alloc;
  lock ← ask env_alloc;
  match imap_init alloc lock with
  | Ok im => _ ← modify (λ s, s <| c_imap := im |>); mret LSFS_OK
  | Err e => mret e
  end.

Definition lsfs_imap_destroy : Op () :=
  modify (λ s, s <| c_imap ::= λ im, im <| imap_entries := [] |> |>).

Definition lsfs_imap_get (ino : Z) : Op (res (Z * Z)) :=
  im ← gets c_imap;
  of_opt (imap_get im ino).

Definition lsfs_imap_set (ino location : Z) : Op Z :=
  im ← gets c_imap;
  ra ← ask env_alloc;
  junk ← ask env_mem;
  r ← of_opt (imap_set ra junk im ino location);
  _ ← modify (λ s, s <| c_imap := r.2 |>);
  mret r.1.

Definition lsfs_imap_remove (ino : Z) : Op Z :=
  im ← gets c_imap;
  r ← of_opt (imap_remove im ino);
  _ ← modify (λ s, s <| c_imap := r.2 |>);
  mret r.1.

Definition lsfs_imap_alloc_ino : Op Z :=
  im ← gets c_imap;
  r ← of_opt (imap_alloc_ino im);
  _ ← modify (λ s, s <| c_imap := r.2 |>);
  mret r.1.

Definition lsfs_imap_save (start_block : Z) : Op Z :=
  im ← gets c_imap;
  let blocks_needed := imap_blocks_needed (imap_count im) in
  if LSFS_CHECKPOINT0_BLOCKS - 1 <? blocks_needed then mret LSFS_ERR_NOSPC else
  ok ← ask env_alloc;
  if negb ok then mret LSFS_ERR_NOMEM else
  if Z.of_nat (length (imap_entries im)) <? imap_count im then undefined else
  lsfs_write_blocks start_block (to_blocks (Z.to_nat blocks_needed) (enc_array (imap_live im))).

Definition lsfs_imap_load (start_block entry_count : Z) : Op Z :=
  let blocks_needed := imap_blocks_needed entry_count in
  ok ← ask env_alloc;
  if negb ok then mret LSFS_ERR_NOMEM else
  r ← lsfs_read_blocks start_block blocks_needed;
  match r with
  | Err e => mret e
  | Ok blks =>
      im ← gets c_imap;
      ra ← ask env_alloc;
      if (imap_capacity im <? entry_count) && negb ra then mret LSFS_ERR_NOMEM else
      let buf := concat blks in
      if Z.of_nat (length buf) <? entry_count * Z.of_nat (sizeof lsfs_imap_entry)
      then undefined else
      let es := dec_array (Z.to_nat entry_count) buf in
      _ ← modify (λ s, s <| c_imap := mk_imap
            (es ++ drop (Z.to_nat entry_count) (imap_entries im))
            (Z.max entry_count (imap_capacity im)) entry_count (highest_ino es) |>);
      mret LSFS_OK
  end.
End ImapOps.

Lemma imap_blocks_needed_bounds count :
  0 <= count < 2 ^ 31 →
  0 <= imap_blocks_needed count ∧ count <= 256 * imap_blocks_needed count < count + 256.
Proof.
  intros Hc. unfold imap_blocks_needed.
  change imap_entries_per_block with 256. rewrite u32_small by lia.
  pose proof (Z.div_mod (count + 256 - 1) 256 ltac:(lia)).
  pose proof (Z.mod_pos_bound (count + 256 - 1) 256 ltac:(lia)). lia.
Qed.

Lemma imap_blocks_needed_max count :
  0 <= count <= 65280 → imap_blocks_needed count <= LSFS_CHECKPOINT0_BLOCKS - 1.
Proof.
  intros Hc. pose proof (imap_blocks_needed_bounds count ltac:(lia)).
  unfold LSFS_CHECKPOINT0_BLOCKS. lia.
Qed.

(** The bytes of the map fill the blocks that are written for it. *)
Lemma imap_image_fits (l : list lsfs_imap_entry) :
  Forall disk_wf l → Z.of_nat (length l) < 2 ^ 31 →
  let k := Z.to_nat (imap_blocks_needed (Z.of_nat (length l))) in
  (length (enc_array l) <= k * BS)%nat ∧
  concat (to_blocks k (enc_array l)) = enc_array l ++ replicate (k * BS - length (enc_array l)) 0.
Proof.
  intros Hl Hlen k.
  pose proof (imap_blocks_needed_bounds (Z.of_nat (length l)) ltac:(lia)) as Hb.
  assert (length (enc_array l) <= k * BS)%nat as Hfit.
  { rewrite length_enc_array by done. subst k.
    pose proof (mul_BS (Z.to_nat (imap_blocks_needed (Z.of_nat (length l))))).
    cbn [sizeof imap_entry_ondisk]. lia. }
  split; [done|]. unfold to_blocks. by rewrite concat_chunks.
Qed.

(** Whatever the environment answers, saving the map only does I/O. *)
Lemma imap_save_below `{E : Env} k s start :
  imap_wf (c_imap s) → Forall disk_wf (imap_live (c_imap s)) →
  addressable s start (LSFS_CHECKPOINT0_BLOCKS - 1) →
  start + LSFS_CHECKPOINT0_BLOCKS - 1 <= k →
  wp (lsfs_imap_save start) (λ _ s', io_below k s s') s.
Proof.
  intros Hwf He Ha Hk. pose proof Hwf as [Hlen Hc Hcap _]. unfold lsfs_imap_save. wp_steps.
  zcase; [by apply wp_ret|]. wp_step. eapply wp_intro; [done|]. cbv beta.
  destruct (env_alloc (c_tick s)); cbn [negb]; [|by apply wp_ret].
  rewrite (proj2 (Z.ltb_ge _ _)) by lia.
  pose proof (imap_blocks_needed_bounds (imap_count (c_imap s)) ltac:(lia)).
  eapply wp_mono; [apply (write_blocks_below k); [unfold to_blocks; rewrite length_chunks..|]|].
  - unfold addressable in *. cbn. lia.
  - lia.
  - by apply to_blocks_wf, enc_array_bytes.
  - intros r s' Hf. by eapply io_below_trans.
Qed.

Section ImapPersistence.
Context `{E : Env, !Healthy E}.
Implicit Types s : lsfs_context.

Lemma imap_save_run s start :
  imap_wf (c_imap s) → imap_count (c_imap s) <= 65280 →
  in_disk s start (imap_blocks_needed (imap_count (c_imap s))) → c_readonly s = false →
  lsfs_imap_save start s =
    Some (LSFS_OK,
          after_write start
            (to_blocks (Z.to_nat (imap_blocks_needed (imap_count (c_imap s))))
               (enc_array (imap_live (c_imap s)))) (ticked s)).
Proof using Type*.
  intros Hwf Hc Hd Hro. pose proof Hwf as [Ha Hcc Hcap _].
  unfold lsfs_imap_save, mbind, M_bind, gets, ask.
  rewrite (proj2 (Z.ltb_ge _ _)) by (apply imap_blocks_needed_max; lia).
  rewrite healthy_alloc. cbn [negb].
  rewrite (proj2 (Z.ltb_ge _ _)) by lia.
  rewrite write_blocks_ok; [done| |done].
  unfold to_blocks. rewrite length_chunks.
  pose proof (imap_blocks_needed_bounds (imap_count (c_imap s)) ltac:(lia)).
  rewrite Z2Nat.id by lia. exact Hd.
Qed.

Lemma imap_load_run s start (l : list lsfs_imap_entry) rest :
  Z.of_nat (length l) < 2 ^ 31 → Forall disk_wf l →
  in_disk s start (imap_blocks_needed (Z.of_nat (length l))) →
  concat (disk_blocks (c_disk s) start
            (Z.to_nat (imap_blocks_needed (Z.of_nat (length l))))) = enc_array l ++ rest →
  lsfs_imap_load start (Z.of_nat (length l)) s =
    Some (LSFS_OK, ticked (ticked (ticked s)) <| c_imap := mk_imap
            (l ++ drop (length l) (imap_entries (c_imap s)))
            (Z.max (Z.of_nat (length l)) (imap_capacity (c_imap s)))
            (Z.of_nat (length l)) (highest_ino l) |>).
Proof using Type*.
  intros Hlen Hl Hd Hbytes. unfold lsfs_imap_load, mbind, M_bind, gets, ask, modify.
  rewrite healthy_alloc. cbn [negb].
  rewrite read_blocks_ok by exact Hd.
  cbn [ticked field_set c_disk c_tick]. rewrite healthy_alloc. cbn [negb].
  rewrite andb_false_r, Hbytes, Nat2Z.id, dec_array_enc by done.
  rewrite length_app, length_enc_array by done. cbn [sizeof imap_entry_ondisk].
  rewrite (proj2 (Z.ltb_ge _ _)) by lia. done.
Qed.
End ImapPersistence.

Lemma imap_loaded_wf (im : lsfs_imap) l :
  imap_wf im → StronglySorted by_ino l → Z.of_nat (length l) < 2 ^ 31 →
  let im' := mk_imap (l ++ drop (length l) (imap_entries im))
               (Z.max (Z.of_nat (length l)) (imap_capacity im)) (Z.of_nat (length l))
               (highest_ino l) in
  imap_wf im' ∧ imap_live im' = l.
Proof.
  intros [Ha Hc Hcap _] Hs Hlen im'.
  assert (imap_live im' = l) as Hlive.
  { unfold imap_live, im'. cbn. by rewrite Nat2Z.id, take_app_length. }
  split; [|done]. split; subst im'; cbn; [|lia..|by rewrite Hlive].
  rewrite length_app, length_drop. lia.
Qed.

(** The number [lsfs_imap_load] hands out next is above every number of the map. *)
Lemma highest_ino_above l :
  Forall (λ e, 0 <= ie_ino e < LSFS_MAX_INODES) l →
  LSFS_ROOT_INO + 1 <= highest_ino l <= LSFS_MAX_INODES ∧
  Forall (λ e, ie_ino e < highest_ino l) l.
Proof.
  intros Hl. unfold highest_ino.
  assert (∀ n, LSFS_ROOT_INO + 1 <= n <= LSFS_MAX_INODES →
    let r := foldl (λ n e, if n <=? ie_ino e then u32 (ie_ino e + 1) else n) n l in
    n <= r <= LSFS_MAX_INODES ∧ Forall (λ e, ie_ino e < r) l) as H.
  { induction Hl as [|e l He Hl IH]; intros n Hn; cbv zeta; cbn [foldl];
      [split; [lia|constructor]|].
    unfold LSFS_MAX_INODES, LSFS_ROOT_INO in *.
    destruct (Z.leb_spec n (ie_ino e)).
    - rewrite u32_small by lia. destruct (IH (ie_ino e + 1)) as [? ?]; [lia|].
      split; [lia|]. constructor; [lia|done].
    - destruct (IH n) as [? ?]; [lia|]. split; [lia|]. constructor; [lia|done]. }
  apply H. unfold LSFS_MAX_INODES, LSFS_ROOT_INO. lia.
Qed.

(** * The specification as a transition system *)

Inductive imap_call := CallGet (ino : Z) | CallSet (ino location : Z) | CallRemove (ino : Z).
Inductive imap_reply := ReplyFound (location version : Z) | ReplyCode (r : Z).

(** One call on the array; [ra] and [junk] answer for the allocator. *)
Definition imap_run (ra : bool) (junk : list Z) (im : lsfs_imap) (c : imap_call)
    : option (imap_reply * lsfs_imap) :=
  match c with
  | CallGet ino =>
      r ← imap_get im ino;
      Some (match r with Ok (l, v) => ReplyFound l v | Err e => ReplyCode e end, im)
  | CallSet ino location =>
      '(r, im') ← imap_set ra junk im ino location; Some (ReplyCode r, im')
  | CallRemove ino =>
      '(r, im') ← imap_remove im ino; Some (ReplyCode r, im')
  end.

Fixpoint imap_runs (im : lsfs_imap) (cs : list (imap_call * (bool * list Z)))
    : option (list imap_reply * lsfs_imap) :=
  match cs with
  | [] => Some ([], im)
  | (c, (ra, junk)) :: cs =>
      '(r, im) ← imap_run ra junk im c;
      '(rs, im) ← imap_runs im cs;
      Some (r :: rs, im)
  end.

(** What a finite map answers to the same calls. *)
Inductive map_step (m : gmap Z (Z * Z)) : imap_call → imap_reply → gmap Z (Z * Z) → Prop :=
  | step_get ino l v : m !! ino = Some (l, v) → map_step m (CallGet ino) (ReplyFound l v) m
  | step_get_none ino :
      m !! ino = None → map_step m (CallGet ino) (ReplyCode LSFS_ERR_NOENT) m
  | step_set_new ino l :
      m !! ino = None →
      map_step m (CallSet ino l) (ReplyCode LSFS_OK) (<[ino := (l, 1)]> m)
  | step_set_again ino l l0 v :
      m !! ino = Some (l0, v) →
      map_step m (CallSet ino l) (ReplyCode LSFS_OK) (<[ino := (l, u32 (v + 1))]> m)
  | step_set_full ino l :
      m !! ino = None → LSFS_MAX_INODES <= Z.of_nat (size m) →
      map_step m (CallSet ino l) (ReplyCode LSFS_ERR_NOSPC) m
  | step_set_nomem ino l :
      m !! ino = None → map_step m (CallSet ino l) (ReplyCode LSFS_ERR_NOMEM) m
  | step_remove ino :
      is_Some (m !! ino) →
      map_step m (CallRemove ino) (ReplyCode LSFS_OK) (delete ino m)
  | step_remove_none ino :
      m !! ino = None → map_step m (CallRemove ino) (ReplyCode LSFS_ERR_NOENT) m.

Inductive map_steps : gmap Z (Z * Z) → list imap_call → list imap_reply → gmap Z (Z * Z) → Prop :=
  | steps_nil m : map_steps m [] [] m
  | steps_cons m c r m' cs rs m'' :
      map_step m c r m' → map_steps m' cs rs m'' → map_steps m (c :: cs) (r :: rs) m''.

Lemma imap_map_size im : imap_wf im → Z.of_nat (size (imap_map im)) = imap_count im.
Proof.
  intros Hwf. unfold imap_map, entries_map.
  rewrite map_size_list_to_map by by apply sorted_NoDup, imap_wf_sorted.
  rewrite length_fmap. by apply imap_live_length.
Qed.

Lemma imap_run_refines ra junk im c :
  imap_wf im →
  ∃ r im', imap_run ra junk im c = Some (r, im') ∧ imap_wf im' ∧
           map_step (imap_map im) c r (imap_map im').
Proof.
  intros Hwf. destruct c as [ino|ino l|ino]; cbn [imap_run].
  - rewrite imap_get_spec by done. cbn [mbind option_bind].
    destruct (imap_map im !! ino) as [[l v]|] eqn:Hm; eexists _, im; (split; [done|]);
      by (split; [done|]; constructor).
  - destruct (imap_set_spec ra junk im ino l Hwf) as (r & im' & -> & Hwf' & _ & Hcase).
    cbn [mbind option_bind]. eexists _, im'. split; [done|]. split; [done|].
    destruct (imap_map im !! ino) as [[l0 v]|] eqn:Hm.
    + destruct Hcase as [-> ->]. by econstructor.
    + destruct Hcase as [(-> & -> & _)|(-> & Hfull & [[-> Hsp]|[-> _]])]; constructor; try done.
      rewrite imap_map_size by done. lia.
  - destruct (imap_remove_spec im ino Hwf) as (r & im' & -> & Hwf' & _ & Hm' & ->).
    cbn [mbind option_bind]. eexists _, im'. split; [done|]. split; [done|]. rewrite Hm'.
    destruct (imap_map im !! ino) eqn:Hm; [by constructor; rewrite Hm|].
    rewrite delete_id by done. by constructor.
Qed.

(** * Theorems *)

(** C15. For every sequence of calls on a well-formed inode map (whatever the allocator
    answers), the sorted array returns without an out-of-range access, and its
    replies are those of the finite map it stands for; it stays well formed, and it
    refuses an insertion only when 65536 inodes are mapped or memory runs out. *)
Theorem imap_refines_map im (cs : list (imap_call * (bool * list Z))) :
  imap_wf im →
  ∃ rs im', imap_runs im cs = Some (rs, im') ∧ imap_wf im' ∧
            map_steps (imap_map im) cs.*1 rs (imap_map im').
Proof.
  revert im. induction cs as [|[c [ra junk]] cs IH]; intros im Hwf; cbn [imap_runs].
  - exists [], im. repeat split; try apply Hwf. constructor.
  - destruct (imap_run_refines ra junk im c Hwf) as (r & im1 & -> & Hwf1 & Hstep).
    cbn [mbind option_bind]. destruct (IH im1 Hwf1) as (rs & im2 & -> & Hwf2 & Hsteps).
    exists (r :: rs), im2. split; [done|]. split; [done|]. by econstructor.
Qed.

(** Allocation never hands out a number that is mapped: it returns a free number
    between 2 and 65535, or 0 exactly when every such number is mapped, and leaves
    the map and its invariants alone. *)
Theorem imap_alloc_fresh im :
  imap_wf im → imap_fresh im →
  ∃ ino im', imap_alloc_ino im = Some (ino, im') ∧ imap_wf im' ∧ imap_fresh im' ∧
    imap_map im' = imap_map im ∧
    (ino = 0 ↔ ∀ i, LSFS_ROOT_INO < i < LSFS_MAX_INODES → is_Some (imap_map im !! i)) ∧
    (ino ≠ 0 → LSFS_ROOT_INO < ino < LSFS_MAX_INODES ∧ imap_map im !! ino = None).
Proof.
  intros Hwf Hf. destruct (imap_alloc_spec im Hwf Hf) as (ino & im' & -> & Hwf' & Hf' & Hm & _ & _ & Hcase).
  exists ino, im'. split_and!; [done..| |].
  - destruct Hcase as [(-> & _ & Hall)|[Hr Hnone]]; [done|]. split.
    + unfold LSFS_ROOT_INO in *. lia.
    + intros Hall. destruct (Hall ino Hr) as [x Hx]. congruence.
  - by destruct Hcase as [(-> & _)|].
Qed.

(** Loading what was saved: on a healthy disk, a map of at most 65280 entries that
    is saved at [start] and loaded from there into any well-formed map gives back
    the same finite map, and the numbers handed out next are above all its inodes. *)
Theorem imap_save_load `{E : Env, !Healthy E} s start im0 :
  imap_wf (c_imap s) → Forall disk_wf (imap_live (c_imap s)) →
  Forall (λ e, ie_ino e < LSFS_MAX_INODES) (imap_live (c_imap s)) →
  imap_count (c_imap s) <= 65280 →
  in_disk s start (imap_blocks_needed (imap_count (c_imap s))) → c_readonly s = false →
  imap_wf im0 →
  wp (lsfs_imap_save start) (λ r1 s1, r1 = LSFS_OK ∧
    wp (lsfs_imap_load start (imap_count (c_imap s))) (λ r2 s2,
      r2 = LSFS_OK ∧ imap_wf (c_imap s2) ∧ imap_map (c_imap s2) = imap_map (c_imap s) ∧
      imap_fresh (c_imap s2)) (s1 <| c_imap := im0 |>)) s.
Proof.
  intros Hwf Hd Hino Hc Hin Hro Hwf0. pose proof (imap_live_length _ Hwf) as Hlen.
  pose proof (imap_wf_count _ Hwf) as Hcnt.
  eapply wp_intro; [by apply imap_save_run|]. split; [done|].
  destruct (imap_image_fits (imap_live (c_imap s)) Hd) as [Hfit Hbytes]; [lia|].
  rewrite <-Hlen in Hin |- *.
  assert (Z.of_nat (length (imap_live (c_imap s))) < 2 ^ 31) as Hlt by lia.
  eapply wp_intro; [eapply imap_load_run; [exact Hlt|exact Hd|exact Hin|]|].
  - cbn [c_disk after_write field_set ticked].
    erewrite <-(disk_blocks_write_range _ start (to_blocks _ _)) in Hbytes.
    unfold to_blocks in Hbytes at 2. rewrite length_chunks in Hbytes. exact Hbytes.
  - destruct (imap_loaded_wf im0 (imap_live (c_imap s)) Hwf0 (imap_wf_sorted _ Hwf) ltac:(lia))
      as [Hwf' Hlive'].
    cbn [c_imap field_set after_write ticked]. split_and!; [done|done|unfold imap_map; by rewrite Hlive'|].
    destruct (highest_ino_above (imap_live (c_imap s))) as [Hh Ha].
    { eapply Forall_impl; [by apply Forall_and; split; [exact Hd|exact Hino]|].
      intros e [He Hle]. destruct He as [He _]. unfold is_u32 in He. lia. }
    split; [done|]. intros ino [v Hv]. unfold imap_map in Hv. cbn [c_imap field_set ticked] in Hv.
    rewrite Hlive' in Hv. apply entries_map_Some in Hv as (i & e & Hi & <- & _);
      [|by apply imap_wf_sorted]. by eapply Forall_lookup_1 in Ha.
Qed.

(** C34. The checkpoint region limits the map: a map of more than 65280 inodes, fewer than
    the 65536 that can be numbered, cannot be saved; nothing is written. *)
Theorem imap_save_limit `{E : Env} s start :
  65280 < imap_count (c_imap s) < 2 ^ 31 → lsfs_imap_save start s = Some (LSFS_ERR_NOSPC, s).
Proof.
  intros Hc. unfold lsfs_imap_save. erewrite bind_run by done.
  pose proof (imap_blocks_needed_bounds (imap_count (c_imap s)) ltac:(lia)).
  unfold LSFS_CHECKPOINT0_BLOCKS. by rewrite (proj2 (Z.ltb_lt _ _)) by lia.
Qed.
