(* ===== verification/SegTable.v ===== *)
(** Segment addresses and the segment usage table: [src/segment.c] (address
    arithmetic, allocation, release) and the bookkeeping half of [src/gc.c]
    (threshold test, wake-up, dead blocks). *)
From S2P Require Import Prelude OnDisk Lru Context Io.

(** * Addresses *)

Definition lsfs_segment_to_block (segment_id offset : Z) : Z :=
  u64 (LSFS_LOG_START + u64 (segment_id * LSFS_SEGMENT_BLOCKS) + offset).

Definition lsfs_block_to_segment (block : Z) : Z * Z :=
  if block <? LSFS_LOG_START then (0, 0) else
  let log_block := u64 (block - LSFS_LOG_START) in
  (u32 (log_block / LSFS_SEGMENT_BLOCKS), u32 (log_block mod LSFS_SEGMENT_BLOCKS)).

(** * The usage table *)

Definition is_free (e : lsfs_segment_usage) : bool := su_state e =? LSFS_SEG_FREE.

(** The scan of [lsfs_segment_alloc]: the first index of the range whose entry is
    free. *)
Fixpoint find_free_segment (entries : list lsfs_segment_usage) (ids : list Z)
    : option (option Z) :=
  match ids with
  | [] => Some None
  | i :: ids =>
      e ← arr_get entries i;
      if is_free e then Some (Some i) else find_free_segment entries ids
  end.

Section TableOps.
Context `{E : Env}.

(** [table->entries[i].… = …] *)
Definition usage_update (i : Z) (f : lsfs_segment_usage → lsfs_segment_usage) : Op () :=
  t ← gets c_segtable;
  e ← of_opt (arr_get (st_entries t) i);
  es ← of_opt (arr_set (st_entries t) i (f e));
  modify (λ s, s <| c_segtable ::= λ t, t <| st_entries := es |> |>).

(** [table->free_count = fc; ctx->sb.free_segments = table->free_count] *)
Definition set_free_count (fc : Z) : Op () :=
  modify (λ s, s <| c_segtable ::= λ t, t <| st_free_count := fc |> |>
                 <| c_sb ::= λ b, b <| sb_free_segments := fc |> |>).

(** The fields [lsfs_segment_alloc] sets in the entry it takes. *)
Definition mark_active (i now : Z) (e : lsfs_segment_usage) : lsfs_segment_usage :=
  e <| su_state := LSFS_SEG_ACTIVE |> <| su_segment_id := i |>
    <| su_live_blocks := 0 |> <| su_timestamp := now |>.

Definition lsfs_segment_alloc : Op (res Z) :=
  t ← gets c_segtable;
  if st_free_count t =? 0 then mret (Err LSFS_ERR_NOSPC) else
  r ← of_opt (find_free_segment (st_entries t) (seqZ 0 (st_count t)));
  match r with
  | None => mret (Err LSFS_ERR_NOSPC)
  | Some i =>
      now ← time_now;
      _ ← usage_update i (mark_active i now);
      _ ← set_free_count (u32 (st_free_count t - 1));
      mret (Ok i)
  end.

Definition mark_free (e : lsfs_segment_usage) : lsfs_segment_usage :=
  e <| su_state := LSFS_SEG_FREE |> <| su_live_blocks := 0 |>.

Definition lsfs_segment_free (segment_id : Z) : Op Z :=
  t ← gets c_segtable;
  if st_count t <=? segment_id then mret LSFS_ERR_INVAL else
  _ ← usage_update segment_id mark_free;
  _ ← set_free_count (u32 (st_free_count t + 1));
  mret LSFS_OK.

(** [free_percent], computed in 32 bits; a division by zero is undefined. *)
Definition gc_free_percent (t : lsfs_segment_table) : option Z :=
  if st_count t =? 0 then None else Some (u32 (st_free_count t * 100) / st_count t).

Definition GC_THRESHOLD_LOW : Z := 10.

Definition lsfs_gc_needed : Op bool :=
  t ← gets c_segtable;
  p ← of_opt (gc_free_percent t);
  mret (p <? GC_THRESHOLD_LOW).

(** [pthread_cond_signal]: the collector's condition variable is signalled. *)
Definition lsfs_gc_trigger : Op () := modify (λ s, s <| c_gc_signal := true |>).

Definition lsfs_gc_mark_block_dead (block : Z) : Op () :=
  let '(segment_id, offset) := lsfs_block_to_segment block in
  t ← gets c_segtable;
  if st_count t <=? segment_id then mret tt else
  e ← of_opt (arr_get (st_entries t) segment_id);
  if 0 <? su_live_blocks e
  then usage_update segment_id (λ e, e <| su_live_blocks := u32 (su_live_blocks e - 1) |>)
  else mret tt.
End TableOps.

(** * Addresses: facts *)

Definition valid_segment (seg : Z) : Prop := 0 <= seg < 2 ^ 32.

Lemma segment_to_block_eq seg off :
  valid_segment seg → 0 <= off < 2 ^ 32 →
  lsfs_segment_to_block seg off = LSFS_LOG_START + seg * LSFS_SEGMENT_BLOCKS + off.
Proof.
  unfold valid_segment, lsfs_segment_to_block, LSFS_LOG_START, LSFS_SEGMENT_BLOCKS.
  intros Hs Ho. rewrite (u64_small (seg * 1024)) by lia. apply u64_small. lia.
Qed.

Lemma block_to_segment_eq block :
  LSFS_LOG_START <= block < LSFS_LOG_START + 2 ^ 32 * LSFS_SEGMENT_BLOCKS →
  lsfs_block_to_segment block =
    ((block - LSFS_LOG_START) / LSFS_SEGMENT_BLOCKS, (block - LSFS_LOG_START) mod LSFS_SEGMENT_BLOCKS).
Proof.
  unfold lsfs_block_to_segment, LSFS_LOG_START, LSFS_SEGMENT_BLOCKS. intros Hb.
  rewrite (proj2 (Z.ltb_ge _ _)) by lia. rewrite u64_small by lia.
  pose proof (Z.mod_pos_bound (block - 1025) 1024 ltac:(lia)).
  pose proof (Z.div_mod (block - 1025) 1024 ltac:(lia)).
  rewrite !u32_small by lia. done.
Qed.

Lemma block_to_segment_range block seg off :
  0 <= block < 2 ^ 64 → lsfs_block_to_segment block = (seg, off) →
  valid_segment seg ∧ 0 <= off < LSFS_SEGMENT_BLOCKS.
Proof.
  unfold lsfs_block_to_segment, valid_segment, LSFS_SEGMENT_BLOCKS. intros Hb.
  zcase; intros [= <- <-]; [lia|]. split; [apply u32_range|].
  pose proof (Z.mod_pos_bound (u64 (block - LSFS_LOG_START)) 1024 ltac:(lia)).
  rewrite u32_small; lia.
Qed.

Lemma block_to_segment_to_block seg off :
  valid_segment seg → 0 <= off < LSFS_SEGMENT_BLOCKS →
  lsfs_block_to_segment (lsfs_segment_to_block seg off) = (seg, off).
Proof.
  unfold valid_segment, LSFS_SEGMENT_BLOCKS. intros Hs Ho.
  rewrite segment_to_block_eq by (unfold valid_segment; lia).
  rewrite block_to_segment_eq by (unfold LSFS_LOG_START, LSFS_SEGMENT_BLOCKS; lia).
  unfold LSFS_LOG_START, LSFS_SEGMENT_BLOCKS.
  replace (1025 + seg * 1024 + off - 1025) with (off + seg * 1024) by lia.
  rewrite Z.div_add, Z.mod_add, Z.div_small, Z.mod_small by lia. done.
Qed.

(** * The table's invariant *)

Definition count_free (l : list lsfs_segment_usage) : Z := Z.of_nat (length (filter is_free l)).

Record segtable_wf (t : lsfs_segment_table) : Prop := {
  st_wf_length : Z.of_nat (length (st_entries t)) = st_count t;
  st_wf_count : st_count t < 2 ^ 32;
  st_wf_free : 0 <= st_free_count t <= count_free (st_entries t);
  st_wf_entries : Forall disk_wf (st_entries t) }.

Lemma count_free_bounds l : 0 <= count_free l <= Z.of_nat (length l).
Proof. unfold count_free. pose proof (length_filter is_free l). lia. Qed.

Lemma count_free_insert l i e e' :
  l !! i = Some e →
  count_free (<[i := e']> l) = count_free l - Z.b2z (is_free e) + Z.b2z (is_free e').
Proof.
  intros Hi. rewrite insert_take_drop by by eapply lookup_lt_Some.
  rewrite <-(take_drop_middle l i e Hi) at 3. unfold count_free.
  rewrite !filter_app, !length_app, !filter_cons.
  destruct (is_free e), (is_free e'); cbn [Z.b2z]; repeat case_decide; try done; cbn [length]; lia.
Qed.

Lemma count_free_zero l : count_free l = 0 → Forall (λ e, is_free e = false) l.
Proof.
  unfold count_free. intros H. apply Forall_lookup. intros i e Hi.
  destruct (is_free e) eqn:He; [|done]. exfalso.
  assert (e ∈ filter is_free l) as Hin.
  { apply list_elem_of_filter. split; [by rewrite He|by eapply list_elem_of_lookup_2]. }
  destruct (filter is_free l); [by apply not_elem_of_nil in Hin|done].
Qed.

Lemma count_free_none l : Forall (λ e, is_free e = false) l → count_free l = 0.
Proof.
  unfold count_free. induction 1 as [|e l He Hl IH]; [done|].
  rewrite filter_cons_False; [exact IH|]. cbv beta. rewrite He. by intros [].
Qed.

Lemma count_free_pos l i e : l !! i = Some e → is_free e = true → 0 < count_free l.
Proof.
  intros Hi He. pose proof (count_free_bounds l).
  destruct (decide (count_free l = 0)) as [H0|]; [|lia].
  apply count_free_zero in H0. rewrite (Forall_lookup_1 _ _ _ _ H0 Hi) in He. done.
Qed.

(** The scan finds the first free entry. *)
Lemma find_free_segment_spec l (i : nat) :
  (i <= length l)%nat →
  (∃ j e, find_free_segment l (seqZ (Z.of_nat i) (Z.of_nat (length l - i))) = Some (Some (Z.of_nat j)) ∧
     (i <= j)%nat ∧ l !! j = Some e ∧ is_free e = true ∧
     ∀ k e', (i <= k < j)%nat → l !! k = Some e' → is_free e' = false) ∨
  (find_free_segment l (seqZ (Z.of_nat i) (Z.of_nat (length l - i))) = Some None ∧
     ∀ k e', (i <= k)%nat → l !! k = Some e' → is_free e' = false).
Proof.
  remember (length l - i)%nat as n eqn:Hn. revert i Hn.
  induction n as [|n IH]; intros i Hn Hi.
  { right. split; [done|]. intros k e' Hk Hlk. apply lookup_lt_Some in Hlk. lia. }
  rewrite seqZ_cons by lia. cbn [find_free_segment]. rewrite arr_get_nat.
  destruct (lookup_lt_is_Some_2 l i) as [e He]; [lia|]. rewrite He. cbn [mbind option_bind].
  destruct (is_free e) eqn:Hf.
  { left. exists i, e. split_and!; [done|lia|done|done|]. intros k ? ?. lia. }
  replace (Z.succ (Z.of_nat i)) with (Z.of_nat (S i)) by lia.
  replace (Z.pred (Z.of_nat (S n))) with (Z.of_nat n) by lia.
  destruct (IH (S i)) as [(j & e' & Hj & Hij & Hlj & Hfj & Hall)|[Hnone Hall]]; [lia..| |].
  - left. exists j, e'. split_and!; [done|lia|done|done|]. intros k e'' Hk Hlk.
    destruct (decide (k = i)) as [->|]; [by simplify_eq|]. apply (Hall k); [lia|done].
  - right. split; [done|]. intros k e'' Hk Hlk.
    destruct (decide (k = i)) as [->|]; [by simplify_eq|]. apply (Hall k); [lia|done].
Qed.

(** * What the table operations do *)

(** The context after the entry [i] of the table became [f] of it, with [fc] free
    segments. *)
Definition with_entry (i : Z) (f : lsfs_segment_usage → lsfs_segment_usage) (s : lsfs_context)
    : lsfs_context :=
  s <| c_segtable ::= λ t, t <| st_entries ::= alter f (Z.to_nat i) |> |>.

Definition with_free_count (fc : Z) (s : lsfs_context) : lsfs_context :=
  s <| c_segtable ::= λ t, t <| st_free_count := fc |> |>
    <| c_sb ::= λ b, b <| sb_free_segments := fc |> |>.

Lemma table_lookup t i :
  segtable_wf t → 0 <= i < st_count t →
  ∃ e, arr_get (st_entries t) i = Some e ∧ st_entries t !! Z.to_nat i = Some e ∧ disk_wf e.
Proof.
  intros [Hl _ _ Hw] Hi. destruct (arr_get_Some (st_entries t) i) as [e He]; [lia|].
  exists e. apply arr_get_lookup in He as [? He].
  split_and!; [by apply arr_get_lookup|done|by eapply Forall_lookup_1].
Qed.

Lemma usage_update_run s i f :
  segtable_wf (c_segtable s) → 0 <= i < st_count (c_segtable s) →
  usage_update i f s = Some (tt, with_entry i f s).
Proof.
  intros Hwf Hi. destruct (table_lookup _ _ Hwf Hi) as (e & Hget & Hlk & _).
  unfold usage_update, mbind, M_bind, gets, of_opt, modify. rewrite Hget. cbn.
  rewrite arr_set_ok by (destruct Hwf; lia). cbn. unfold with_entry. cbn.
  by erewrite list_alter_insert_Some by done.
Qed.

(** Changing one entry keeps the invariant when the free count follows. *)
Lemma segtable_wf_entry t i e f fc :
  segtable_wf t → st_entries t !! Z.to_nat i = Some e → disk_wf (f e) →
  0 <= fc → fc = st_free_count t - Z.b2z (is_free e) + Z.b2z (is_free (f e)) →
  segtable_wf (t <| st_entries ::= alter f (Z.to_nat i) |> <| st_free_count := fc |>).
Proof.
  intros [Hl Hc Hf Hw] He Hfe Hfc ->. split; cbn.
  - by rewrite length_alter.
  - done.
  - erewrite list_alter_insert_Some, count_free_insert by done. lia.
  - erewrite list_alter_insert_Some by done. by apply Forall_insert.
Qed.

(** An entry that is not free leaves room in the counter. *)
Lemma free_count_room t i e :
  segtable_wf t → st_entries t !! i = Some e → is_free e = false → 0 <= st_free_count t + 1 < 2 ^ 32.
Proof.
  intros [Hl Hc Hfc _] He Hf. pose proof (count_free_insert _ _ _ (e <| su_state := LSFS_SEG_FREE |>) He) as Hn.
  rewrite Hf in Hn. cbn in Hn.
  pose proof (count_free_bounds (<[i := e <| su_state := LSFS_SEG_FREE |>]> (st_entries t))) as Hb.
  rewrite length_insert in Hb. cbn in Hb. lia.
Qed.

(** The counter is exact when it is the number of free entries.  Roll-forward may leave
    it below that number, so this is not part of the invariant. *)
Definition exact_count (t : lsfs_segment_table) : Prop := st_free_count t = count_free (st_entries t).

Lemma exact_count_entry t i e f fc :
  exact_count t → st_entries t !! Z.to_nat i = Some e →
  fc = st_free_count t - Z.b2z (is_free e) + Z.b2z (is_free (f e)) →
  exact_count (t <| st_entries ::= alter f (Z.to_nat i) |> <| st_free_count := fc |>).
Proof.
  intros Ht He ->. unfold exact_count in *. cbn.
  erewrite list_alter_insert_Some, count_free_insert by done. lia.
Qed.

Section TableSpecs.
Context `{E : Env}.
Implicit Types s : lsfs_context.

Definition after_alloc (i : Z) s : lsfs_context :=
  with_free_count (st_free_count (c_segtable s) - 1)
    (with_entry i (mark_active i (u64 (env_time (c_tick s)))) (ticked s)).

Lemma after_alloc_wf s i e :
  segtable_wf (c_segtable s) → st_entries (c_segtable s) !! Z.to_nat i = Some e →
  is_free e = true → 0 <= i → 0 < st_free_count (c_segtable s) →
  segtable_wf (c_segtable (after_alloc i s)).
Proof.
  intros Hwf He Hf Hi Hpos. pose proof Hwf as [Hl Hc _ Hw].
  pose proof (lookup_lt_Some _ _ _ He). pose proof (Forall_lookup_1 _ _ _ _ Hw He) as Hd.
  eapply (segtable_wf_entry (c_segtable s) i e); [done..| |lia|].
  - destruct Hd as (_ & _ & _ & Hr & _). cbn. unfold is_u32, is_u64, LSFS_SEG_ACTIVE in *.
    pose proof (u64_range (env_time (c_tick s))). split_and!; try lia.
  - rewrite Hf. cbn. lia.
Qed.

(** Allocation takes the first free segment, or fails when there is none. *)
Lemma segment_alloc_spec s :
  segtable_wf (c_segtable s) →
  wp lsfs_segment_alloc (λ r s',
    match r with
    | Err e => e = LSFS_ERR_NOSPC ∧ s' = s ∧ st_free_count (c_segtable s) = 0
    | Ok i => 0 < st_free_count (c_segtable s) ∧
              0 <= i < st_count (c_segtable s) ∧ s' = after_alloc i s ∧
              (∃ e, st_entries (c_segtable s) !! Z.to_nat i = Some e ∧ is_free e = true) ∧
              ∀ k e, (k < Z.to_nat i)%nat → st_entries (c_segtable s) !! k = Some e → is_free e = false
    end) s.
Proof.
  intros Hwf. pose proof Hwf as [Hl Hc Hf Hw]. pose proof (count_free_bounds (st_entries (c_segtable s))).
  unfold lsfs_segment_alloc. wp_steps. destruct (Z.eqb_spec (st_free_count (c_segtable s)) 0) as [H0|H0].
  { by wp_steps. }
  wp_step. rewrite <-Hl. pose proof (find_free_segment_spec (st_entries (c_segtable s)) 0 ltac:(lia)) as Hscan.
  rewrite Nat.sub_0_r in Hscan. change (Z.of_nat 0) with 0 in Hscan.
  destruct Hscan as [(j & e & Hj & _ & Hlj & Hfj & Hall)|[Hnone Hall]].
  - eapply wp_of_opt; [exact Hj|]. cbv beta iota.
    pose proof (lookup_lt_Some _ _ _ Hlj). unfold time_now. do 2 wp_step.
    eapply wp_intro; [done|]. wp_step. wp_step.
    eapply wp_intro; [apply usage_update_run; [done|cbn; lia]|].
    wp_step. eapply wp_intro; [done|]. wp_step.
    rewrite Nat2Z.id. split_and!; [lia..| |by eauto|].
    + unfold after_alloc, with_free_count. rewrite u32_small by lia. done.
    + intros k e' Hk. apply Hall. lia.
  - eapply wp_of_opt; [exact Hnone|]. wp_steps. split_and!; [done..|].
    assert (Forall (λ e, is_free e = false) (st_entries (c_segtable s))) as Hn%count_free_none.
    { apply Forall_lookup. intros k e. apply Hall. lia. }
    lia.
Qed.

Definition after_free (i : Z) s : lsfs_context :=
  with_free_count (u32 (st_free_count (c_segtable s) + 1)) (with_entry i mark_free s).

Lemma segment_free_run s i :
  segtable_wf (c_segtable s) → 0 <= i →
  lsfs_segment_free i s =
    if st_count (c_segtable s) <=? i then Some (LSFS_ERR_INVAL, s)
    else Some (LSFS_OK, after_free i s).
Proof.
  intros Hwf Hi. unfold lsfs_segment_free. erewrite bind_run by done.
  destruct (Z.leb_spec (st_count (c_segtable s)) i); [done|].
  erewrite bind_run by (apply usage_update_run; [done|lia]).
  by erewrite bind_run by done.
Qed.

Lemma after_free_wf s i e :
  segtable_wf (c_segtable s) → 0 <= i → st_entries (c_segtable s) !! Z.to_nat i = Some e →
  is_free e = false → segtable_wf (c_segtable (after_free i s)).
Proof.
  intros Hwf Hi He Hf. pose proof (Forall_lookup_1 _ _ _ _ (st_wf_entries _ Hwf) He) as Hd.
  eapply (segtable_wf_entry (c_segtable s) i e); [done..| |apply u32_range|].
  - destruct Hd as (? & _ & _ & ? & ?). cbn. unfold is_u32, is_u64, LSFS_SEG_FREE in *.
    split_and!; try lia.
  - rewrite Hf. cbn. rewrite u32_small by (eapply free_count_room; done). lia.
Qed.
End TableSpecs.

(** * The allocator as a transition system on the set of free segments *)

Definition free_at (l : list lsfs_segment_usage) (i : Z) : bool :=
  match arr_get l i with Some e => is_free e | None => false end.

Definition free_set (t : lsfs_segment_table) : gset Z :=
  list_to_set (filter (free_at (st_entries t)) (seqZ 0 (Z.of_nat (length (st_entries t))))).

Lemma free_at_true l i : free_at l i = true ↔ ∃ e, 0 <= i ∧ l !! Z.to_nat i = Some e ∧ is_free e = true.
Proof.
  unfold free_at. destruct (arr_get l i) as [e|] eqn:He.
  - apply arr_get_lookup in He. naive_solver.
  - split; [done|]. intros (e & Hi & Hl & _).
    assert (arr_get l i = Some e) by by apply arr_get_lookup. congruence.
Qed.

Lemma elem_of_free_set t i : i ∈ free_set t ↔ free_at (st_entries t) i = true.
Proof.
  unfold free_set. rewrite elem_of_list_to_set, list_elem_of_filter, elem_of_seqZ.
  rewrite Is_true_true. split; [naive_solver|]. intros Hf. split; [done|].
  apply free_at_true in Hf as (e & ? & ?%lookup_lt_Some & _). lia.
Qed.

Lemma size_free_set t : Z.of_nat (size (free_set t)) = count_free (st_entries t).
Proof.
  unfold free_set. rewrite size_list_to_set by (apply NoDup_filter, NoDup_seqZ).
  unfold count_free. f_equal. generalize (st_entries t). intros l.
  induction l as [|e l IH] using rev_ind; [done|].
  rewrite length_app, filter_app, length_app, <-IH. cbn [length].
  rewrite Nat.add_1_r, seqZ_S, filter_app, length_app. f_equal.
  - f_equal. apply filter_bool_ext. intros i Hi%elem_of_seqZ.
    unfold free_at, arr_get. destruct (Z.ltb_spec i 0); [done|].
    rewrite lookup_app_l by lia. done.
  - rewrite !filter_cons, !filter_nil. unfold free_at. rewrite Z.add_0_l, arr_get_nat.
    rewrite list_lookup_middle by done. by destruct (is_free e).
Qed.

Inductive seg_call := SegAlloc | SegFree (seg : Z) | SegBlockDead (block : Z).
Inductive seg_reply := SegGot (seg : Z) | SegCode (r : Z) | SegDone.

Definition seg_run `{E : Env} (c : seg_call) : Op seg_reply :=
  match c with
  | SegAlloc =>
      r ← lsfs_segment_alloc;
      mret (match r with Ok i => SegGot i | Err e => SegCode e end)
  | SegFree seg => r ← lsfs_segment_free seg; mret (SegCode r)
  | SegBlockDead block => _ ← lsfs_gc_mark_block_dead block; mret SegDone
  end.

(** What the callers see: the free segments of a table of [count]. *)
Inductive seg_step (count : Z) : gset Z → seg_call → seg_reply → gset Z → Prop :=
  | step_alloc F i :
      i ∈ F → (∀ j, j ∈ F → i <= j) → seg_step count F SegAlloc (SegGot i) (F ∖ {[i]})
  | step_alloc_full : seg_step count ∅ SegAlloc (SegCode LSFS_ERR_NOSPC) ∅
  | step_free F i :
      0 <= i < count → i ∉ F → seg_step count F (SegFree i) (SegCode LSFS_OK) (F ∪ {[i]})
  | step_free_inval F i :
      count <= i → seg_step count F (SegFree i) (SegCode LSFS_ERR_INVAL) F
  | step_block_dead F b : seg_step count F (SegBlockDead b) SegDone F.

(** Callers pass 64-bit block numbers and do not release a free segment. *)
Definition seg_call_ok (F : gset Z) (c : seg_call) : Prop :=
  match c with
  | SegAlloc => True
  | SegFree i => 0 <= i ∧ i ∉ F
  | SegBlockDead b => 0 <= b < 2 ^ 64
  end.

Lemma free_at_alter l i f e j :
  l !! Z.to_nat i = Some e → 0 <= i →
  free_at (alter f (Z.to_nat i) l) j = if decide (i = j) then is_free (f e) else free_at l j.
Proof.
  intros He Hi. unfold free_at, arr_get. destruct (Z.ltb_spec j 0).
  { by rewrite decide_False by lia. }
  case_decide as Hij.
  - subst j. by rewrite list_lookup_alter_eq, He.
  - rewrite list_lookup_alter_ne by lia. done.
Qed.

Lemma free_set_alter t t' i f e :
  st_entries t !! Z.to_nat i = Some e → 0 <= i →
  st_entries t' = alter f (Z.to_nat i) (st_entries t) →
  free_set t' = if is_free (f e) then free_set t ∪ {[i]} else free_set t ∖ {[i]}.
Proof.
  intros He Hi Ht'. apply set_eq. intros j. rewrite elem_of_free_set, Ht'.
  erewrite free_at_alter by done. pose proof (elem_of_free_set t j) as Hj.
  destruct (is_free (f e)); case_decide as Hij; subst; set_solver.
Qed.

Lemma gc_mark_block_dead_spec s block :
  segtable_wf (c_segtable s) → 0 <= block < 2 ^ 64 →
  wp (lsfs_gc_mark_block_dead block) (λ _ s',
    s' = s ∨
    ∃ i e, 0 <= i < st_count (c_segtable s) ∧ i = (lsfs_block_to_segment block).1 ∧
      st_entries (c_segtable s) !! Z.to_nat i = Some e ∧ 0 < su_live_blocks e ∧
      s' = with_entry i (λ e, e <| su_live_blocks := u32 (su_live_blocks e - 1) |>) s) s.
Proof.
  intros Hwf Hb. unfold lsfs_gc_mark_block_dead.
  destruct (lsfs_block_to_segment block) as [seg off] eqn:Hseg.
  destruct (block_to_segment_range _ _ _ Hb Hseg) as [[Hs _] _].
  wp_steps. destruct (Z.leb_spec (st_count (c_segtable s)) seg); [left; done|].
  destruct (table_lookup _ seg Hwf) as (e & Hget & Hlk & _); [lia|].
  wp_step. eapply wp_of_opt; [exact Hget|].
  destruct (Z.ltb_spec 0 (su_live_blocks e)); [|left; done].
  eapply wp_intro; [by apply usage_update_run|]. right. exists seg, e. by split_and!.
Qed.

Lemma segtable_wf_dead s i e :
  segtable_wf (c_segtable s) → st_entries (c_segtable s) !! Z.to_nat i = Some e →
  0 < su_live_blocks e →
  segtable_wf (c_segtable
    (with_entry i (λ e, e <| su_live_blocks := u32 (su_live_blocks e - 1) |>) s)).
Proof.
  intros Hwf He Hpos. pose proof Hwf as [_ _ _ Hw].
  pose proof (Forall_lookup_1 _ _ _ _ Hw He) as (Hid & Hst & Hlv & Hrs & Hts).
  eapply (segtable_wf_entry (c_segtable s) i e _ (st_free_count (c_segtable s))) in Hwf;
    [exact Hwf|done|..].
  - unfold is_u32 in *. cbn. rewrite u32_small by lia. split_and!; try done; unfold is_u32; lia.
  - apply (st_wf_free _ Hwf).
  - unfold is_free. cbn. lia.
Qed.

(** Each call simulates a step on the set of free segments. *)
Definition seg_simulates (s : lsfs_context) (c : seg_call) (r : seg_reply) (s' : lsfs_context) : Prop :=
  segtable_wf (c_segtable s') ∧ exact_count (c_segtable s') ∧
  seg_step (st_count (c_segtable s)) (free_set (c_segtable s)) c r (free_set (c_segtable s')).

Section Simulation.
Context `{E : Env}.
Implicit Types s : lsfs_context.

Lemma seg_alloc_simulates s :
  segtable_wf (c_segtable s) → exact_count (c_segtable s) →
  wp (seg_run SegAlloc) (seg_simulates s SegAlloc) s.
Proof.
  intros Hwf Hex. cbn [seg_run]. wp_step.
  eapply wp_mono; [by apply segment_alloc_spec|]. intros [i|e] s'.
  - intros (Hpos & Hi & -> & (e & He & Hf) & Hmin). wp_step.
    split_and!; [by apply after_alloc_wf with e; [..|lia|]| |].
    { eapply (exact_count_entry _ _ e); [exact Hex|exact He|]. rewrite Hf. cbn. lia. }
    rewrite (free_set_alter (c_segtable s) (c_segtable (after_alloc i s)) i
               (mark_active i (u64 (env_time (c_tick s)))) e He (proj1 Hi) eq_refl). constructor.
    + apply elem_of_free_set, free_at_true. exists e. split; [lia|done].
    + intros j (e' & Hj & He' & Hf')%elem_of_free_set%free_at_true.
      destruct (decide (i <= j)); [done|].
      rewrite (Hmin (Z.to_nat j) e' ltac:(lia) He') in Hf'. done.
  - intros (-> & -> & Hnone). rewrite Hex in Hnone. apply count_free_zero in Hnone. wp_step. split_and!; [done..|].
    assert (free_set (c_segtable s) = ∅) as ->; [|constructor].
    apply set_eq. intros j. rewrite elem_of_free_set, free_at_true. split; [|set_solver].
    intros (e & _ & He & Hf). rewrite (Forall_lookup_1 _ _ _ _ Hnone He) in Hf. done.
Qed.

Lemma seg_free_simulates s i :
  segtable_wf (c_segtable s) → exact_count (c_segtable s) → 0 <= i → i ∉ free_set (c_segtable s) →
  wp (seg_run (SegFree i)) (seg_simulates s (SegFree i)) s.
Proof.
  intros Hwf Hex Hi Hni. cbn [seg_run]. wp_step.
  destruct (decide (st_count (c_segtable s) <= i)) as [Hge|Hlt].
  - eapply wp_intro; [rewrite segment_free_run by done; by rewrite (proj2 (Z.leb_le _ _)) by lia|].
    wp_step. split_and!; [done..|by constructor].
  - eapply wp_intro; [rewrite segment_free_run by done; by rewrite (proj2 (Z.leb_gt _ _)) by lia|].
    wp_step. destruct (table_lookup _ i Hwf) as (e & _ & He & _); [lia|].
    assert (is_free e = false) as Hf.
    { destruct (is_free e) eqn:?; [|done]. exfalso. apply Hni, elem_of_free_set, free_at_true. eauto. }
    pose proof (after_free_wf s i e Hwf Hi He Hf) as Hwf'. split_and!; [done| |].
    { eapply (exact_count_entry _ _ e); [exact Hex|exact He|]. rewrite Hf. cbn.
      rewrite u32_small by (eapply free_count_room; done). lia. }
    rewrite (free_set_alter (c_segtable s) (c_segtable (after_free i s)) i mark_free e) by done.
    constructor; [lia|done].
Qed.

Lemma seg_block_dead_simulates s b :
  segtable_wf (c_segtable s) → exact_count (c_segtable s) → 0 <= b < 2 ^ 64 →
  wp (seg_run (SegBlockDead b)) (seg_simulates s (SegBlockDead b)) s.
Proof.
  intros Hwf Hex Hb. cbn [seg_run]. wp_step. eapply wp_mono; [by apply gc_mark_block_dead_spec|].
  intros _ s' [->|(i & e & Hi & _ & He & Hpos & ->)]; wp_step.
  { split_and!; [done..|constructor]. }
  split_and!; [by apply segtable_wf_dead with e| |].
  { eapply (exact_count_entry _ _ e _ (st_free_count (c_segtable s))); [exact Hex|exact He|]. unfold is_free. cbn. lia. }
  replace (free_set (c_segtable (with_entry _ _ _))) with (free_set (c_segtable s)); [constructor|].
  apply set_eq. intros j. rewrite !elem_of_free_set. cbn [c_segtable with_entry field_set st_entries].
  erewrite free_at_alter by (done || apply Hi). case_decide; [subst j|done].
  unfold free_at. by rewrite (proj2 (arr_get_lookup _ _ _) (conj (proj1 Hi) He)).
Qed.
End Simulation.

(** * Theorems *)

(** Segment addresses: numbering the blocks of the log by segment and offset and
    back is the identity in both directions, and no two positions share a block. *)
Theorem segment_address_roundtrip seg off :
  valid_segment seg → 0 <= off < LSFS_SEGMENT_BLOCKS →
  lsfs_block_to_segment (lsfs_segment_to_block seg off) = (seg, off) ∧
  LSFS_LOG_START <= lsfs_segment_to_block seg off ∧
  ∀ block, LSFS_LOG_START <= block < LSFS_LOG_START + 2 ^ 32 * LSFS_SEGMENT_BLOCKS →
    lsfs_block_to_segment block = (seg, off) → block = lsfs_segment_to_block seg off.
Proof.
  intros Hs Ho. split; [by apply block_to_segment_to_block|].
  unfold valid_segment, LSFS_SEGMENT_BLOCKS in *.
  rewrite segment_to_block_eq by (unfold valid_segment; lia). unfold LSFS_SEGMENT_BLOCKS, LSFS_LOG_START.
  split; [lia|].
  intros block Hb. rewrite block_to_segment_eq by done. intros [= Hq Hr].
  unfold LSFS_LOG_START, LSFS_SEGMENT_BLOCKS in *.
  pose proof (Z.div_mod (block - 1025) 1024 ltac:(lia)). lia.
Qed.

(** C16. The segment table refines the allocator on the set of free segments, whatever
    the environment answers: allocation takes the least free segment and fails
    exactly when none is left, release adds the segment or rejects a number out of
    range, a dead block changes no segment's state; every call keeps the table
    well-formed, and a counter that is the number of free segments stays so. *)
Theorem segtable_refines_free_set `{E : Env} s c :
  segtable_wf (c_segtable s) → st_free_count (c_segtable s) = Z.of_nat (size (free_set (c_segtable s))) →
  seg_call_ok (free_set (c_segtable s)) c →
  wp (seg_run c) (λ r s',
    segtable_wf (c_segtable s') ∧
    st_free_count (c_segtable s') = Z.of_nat (size (free_set (c_segtable s'))) ∧
    seg_step (st_count (c_segtable s)) (free_set (c_segtable s)) c r (free_set (c_segtable s'))) s.
Proof.
  intros Hwf Hex Hok. rewrite size_free_set in Hex.
  assert (wp (seg_run c) (seg_simulates s c) s) as H.
  { destruct c as [|i|b]; cbn in Hok;
      [apply seg_alloc_simulates|apply seg_free_simulates|apply seg_block_dead_simulates]; naive_solver. }
  eapply wp_mono; [exact H|]. intros r s' (Hwf' & Hex' & Hstep). split_and!; [done| |done].
  by rewrite size_free_set.
Qed.
