(* ===== verification/Log.v ===== *)
(** The log: the segment buffer of [src/segment.c] (append, flush, initialisation
    and tear-down) together with the writing half of [src/checkpoint.c]; flushing a
    segment writes a checkpoint when one is due, and writing a checkpoint flushes
    the segment buffer first. *)
From S2P Require Import Prelude OnDisk Lru Context Io Imap SegTable.

Definition CHECKPOINT_INTERVAL : Z := 100.
Definition CHECKPOINT_TIME_SEC : Z := 30.

Definition zero_info : lsfs_block_info := mk_block_info 0 0 0 [0; 0; 0].

Definition seg_blocks_nat : nat := Z.to_nat LSFS_SEGMENT_BLOCKS.
Definition empty_data : list (list Z) := replicate seg_blocks_nat zero_block.
Definition empty_info : list lsfs_block_info := replicate seg_blocks_nat zero_info.

(** A structure written as a whole block: the bytes after it are whatever follows
    it in memory. *)
Definition over_read (bs junk : list Z) : list Z := take BS (bs ++ (u8 <$> junk) ++ zero_block).

(** [LSFS_DIV_ROUND_UP(size, LSFS_BLOCK_SIZE)] as a [uint32_t] *)
Definition segtable_blocks (count : Z) : Z :=
  u32 (u64 (u64 (count * Z.of_nat (sizeof lsfs_segment_usage)) + LSFS_BLOCK_SIZE - 1) / LSFS_BLOCK_SIZE).

Section LogOps.
Context `{E : Env}.

Definition set_segbuf (f : lsfs_segment_buffer → lsfs_segment_buffer) : Op () :=
  modify (λ s, s <| c_segbuf ::= f |>).
Definition set_sb (f : lsfs_superblock → lsfs_superblock) : Op () :=
  modify (λ s, s <| c_sb ::= f |>).

Definition lsfs_checkpoint_needed : Op bool :=
  now ← time_now;
  writes ← gets c_writes_since_checkpoint;
  last ← gets c_last_checkpoint;
  mret ((CHECKPOINT_INTERVAL <=? writes) || (CHECKPOINT_TIME_SEC <=? u64 (now - last))).

(** Block 0 of the segment buffer as the flush prepares it: the header, and the
    descriptions of the other blocks when they fit. *)
Definition segment_summary (b : lsfs_segment_buffer) (now : Z) (blk0 : list Z)
    : option (list Z) :=
  let hdr := mk_segment_header LSFS_SEGMENT_MAGIC (sg_segment_id b) now (sg_block_count b) 0 in
  let blk0 := splice blk0 0 (enc hdr) in
  let n := u32 (sg_block_count b - 1) in
  let info_size := n * Z.of_nat (sizeof lsfs_block_info) in
  if Z.of_nat (sizeof lsfs_segment_header) + info_size <=? LSFS_BLOCK_SIZE then
    if Z.of_nat (length (sg_block_info b)) <? 1 + n then None else
    Some (splice blk0 (sizeof lsfs_segment_header)
            (enc_array (slice 1 (Z.to_nat n) (sg_block_info b))))
  else Some blk0.

Definition mark_full (live now : Z) (e : lsfs_segment_usage) : lsfs_segment_usage :=
  e <| su_state := LSFS_SEG_FULL |> <| su_live_blocks := live |> <| su_timestamp := now |>.

(** The first half of [lsfs_segment_flush]: the summary is put in block 0 and the
    segment is written to its place in the log. *)
Definition segment_write_out (b : lsfs_segment_buffer) (now : Z) : Op Z :=
  blk0 ← of_opt (arr_get (sg_data b) 0);
  blk0 ← of_opt (segment_summary b now blk0);
  _ ← set_segbuf (λ b, b <| sg_data ::= <[0%nat := blk0]> |>);
  data ← gets (λ s, sg_data (c_segbuf s));
  if Z.of_nat (length data) <? sg_block_count b then undefined else
  lsfs_write_blocks (lsfs_segment_to_block (sg_segment_id b) 0)
    (take (Z.to_nat (sg_block_count b)) data).

(** The second half: the usage table and the log head are updated, the next
    segment is allocated and the buffer is emptied. *)
Definition segment_next (b : lsfs_segment_buffer) (now : Z) : Op () :=
  _ ← usage_update (sg_segment_id b) (mark_full (u32 (sg_block_count b - 1)) now);
  _ ← set_sb (λ sb, sb <| sb_log_head :=
        u64 (lsfs_segment_to_block (sg_segment_id b) 0 + sg_block_count b) |>);
  r ← lsfs_segment_alloc;
  _ ← match r with
      | Err _ => lsfs_gc_trigger
      | Ok i => set_segbuf (λ b, b <| sg_segment_id := i |>)
      end;
  set_segbuf (λ b, b <| sg_data := empty_data |> <| sg_block_info := empty_info |>
                     <| sg_block_count := 1 |>).

(** [lsfs_segment_flush], given the checkpoint it writes when one is needed. *)
Definition segment_flush_body (checkpoint_write : Op Z) : Op Z :=
  b ← gets c_segbuf;
  if sg_block_count b <=? 1 then mret LSFS_OK else
  now ← time_now;
  segment_write_out b now ;?
  (_ ← segment_next b now;
   needed ← lsfs_checkpoint_needed;
   if (needed : bool) then _ ← checkpoint_write; mret LSFS_OK else mret LSFS_OK).

Definition header_block (h : lsfs_checkpoint_header) : list Z := splice zero_block 0 (enc h).

Definition region_start (cp_region : Z) : Z :=
  if cp_region =? 0 then LSFS_CHECKPOINT0_START else LSFS_CHECKPOINT1_START.

(** The first phase of a checkpoint: the header marked incomplete, the inode map
    and the usage table are written, then synced.  A usage table that cannot be
    written is ignored. *)
Definition checkpoint_prepare (checkpoint_block : Z) (header : lsfs_checkpoint_header) : Op Z :=
  lsfs_write_block checkpoint_block (header_block header) ;?
  lsfs_imap_save (u64 (checkpoint_block + 1)) ;?
  (t ← gets c_segtable;
   let seg_blocks := segtable_blocks (st_count t) in
   ok ← ask env_alloc;
   _ ← (if (ok : bool) then
          if Z.of_nat (length (st_entries t)) <? st_count t then undefined else
          lsfs_write_blocks LSFS_SEGTABLE_START
            (to_blocks (Z.to_nat seg_blocks) (enc_array (take (Z.to_nat (st_count t)) (st_entries t))))
        else mret LSFS_OK);
   lsfs_sync).

(** The second phase: the header is marked complete, the superblock names the
    region, and a last sync whose result is ignored. *)
Definition checkpoint_publish (cp_region checkpoint_block : Z) (header : lsfs_checkpoint_header)
    : Op Z :=
  lsfs_write_block checkpoint_block (header_block (header <| ch_complete := 1 |>)) ;?
  (_ ← set_sb (λ sb, sb <| sb_active_checkpoint := cp_region |>);
   sb ← gets c_sb;
   junk ← ask env_mem;
   lsfs_write_block LSFS_SUPERBLOCK_BLOCK (over_read (enc sb) junk) ;?
   (_ ← lsfs_sync;
    _ ← modify (λ s, s <| c_last_checkpoint := ch_timestamp header |>
                       <| c_writes_since_checkpoint := 0 |>);
    mret LSFS_OK)).

(** The header of the next checkpoint. *)
Definition next_header (now : Z) (s : lsfs_context) : lsfs_checkpoint_header :=
  mk_checkpoint_header LSFS_CHECKPOINT_MAGIC LSFS_VERSION
    (c_checkpoint_seq s) now (sb_log_head (c_sb s)) (imap_count (c_imap s))
    (st_count (c_segtable s)) 0 0.

(** [lsfs_checkpoint_write] once the segment buffer is flushed. *)
Definition checkpoint_commit : Op Z :=
  sb ← gets c_sb;
  let cp_region := Z.lxor (sb_active_checkpoint sb) 1 in
  let checkpoint_block := region_start cp_region in
  _ ← modify (λ s, s <| c_checkpoint_seq ::= λ q, u64 (q + 1) |>);
  now ← time_now;
  header ← gets (next_header now);
  ok ← ask env_alloc;
  if negb ok then mret LSFS_ERR_NOMEM else
  checkpoint_prepare checkpoint_block header ;?
  checkpoint_publish cp_region checkpoint_block header.

(** [lsfs_checkpoint_write], given the flush it starts with. *)
Definition checkpoint_write_body (segment_flush : Op Z) : Op Z :=
  pending ← gets (λ s, sg_block_count (c_segbuf s));
  (if 1 <? pending then segment_flush else mret LSFS_OK) ;?
  checkpoint_commit.

(** The two functions call each other: [fuel] bounds the depth of the recursion. *)
Fixpoint segment_flush_fuel (fuel : nat) : Op Z :=
  match fuel with
  | O => undefined
  | S fuel => segment_flush_body (checkpoint_write_body (segment_flush_fuel fuel))
  end.

Definition flush_fuel : nat := 2.
Definition lsfs_segment_flush : Op Z := segment_flush_fuel flush_fuel.
Definition lsfs_checkpoint_write : Op Z := checkpoint_write_body lsfs_segment_flush.

Definition lsfs_segment_append_block (data : list Z) (ino offset type : Z) : Op Z :=
  count ← gets (λ s, sg_block_count (c_segbuf s));
  ret ← (if LSFS_SEGMENT_BLOCKS <=? count then lsfs_segment_flush else mret LSFS_OK);
  if negb (ret =? LSFS_OK) then mret 0 else
  b ← gets c_segbuf;
  let block_idx := sg_block_count b in
  blocks ← of_opt (arr_set (sg_data b) block_idx data);
  info ← of_opt (arr_get (sg_block_info b) block_idx);
  infos ← of_opt (arr_set (sg_block_info b) block_idx
            (info <| bi_ino := ino |> <| bi_offset := offset |> <| bi_type := type |>));
  _ ← set_segbuf (λ b, b <| sg_data := blocks |> <| sg_block_info := infos |>
                         <| sg_block_count := u32 (block_idx + 1) |>);
  _ ← modify (λ s, s <| c_writes_since_checkpoint ::= λ w, u32 (w + 1) |>);
  mret (lsfs_segment_to_block (sg_segment_id b) block_idx).

(** [NULL] arrays are empty lists: no index is within them. *)
Definition lsfs_segment_buffer_init : Op Z :=
  data ← ask env_alloc;
  if negb data then
    _ ← set_segbuf (λ b, b <| sg_data := [] |>); mret LSFS_ERR_NOMEM
  else
  info ← ask env_alloc;
  if negb info then
    _ ← set_segbuf (λ b, b <| sg_data := [] |> <| sg_block_info := [] |>); mret LSFS_ERR_NOMEM
  else
  lock ← ask env_alloc;
  if negb lock then
    _ ← set_segbuf (λ _, mk_segment_buffer [] [] 0 1); mret LSFS_ERR_NOMEM
  else
  _ ← set_segbuf (λ _, mk_segment_buffer empty_data empty_info 0 1);
  mret LSFS_OK.

Definition lsfs_segment_buffer_destroy : Op () :=
  set_segbuf (λ b, b <| sg_data := [] |> <| sg_block_info := [] |>).

Definition zero_usage : lsfs_segment_usage := mk_segment_usage 0 0 0 0 0.

Definition set_segtable (t : lsfs_segment_table) : Op () :=
  modify (λ s, s <| c_segtable := t |>).

(** The entries read from the table's blocks, when they fit in them. *)
Definition table_from_disk (n : nat) (buf : list Z) : list lsfs_segment_usage :=
  if Z.of_nat n * Z.of_nat (sizeof lsfs_segment_usage) <=? LSFS_SEGTABLE_BLOCKS * LSFS_BLOCK_SIZE
  then dec_array n buf else replicate n zero_usage.

Definition lsfs_segment_init : Op Z :=
  total ← gets (λ s, sb_total_segments (c_sb s));
  let num_segments := u32 total in
  let n := Z.to_nat num_segments in
  ret ← lsfs_segment_buffer_init;
  if negb (ret =? LSFS_OK) then mret LSFS_ERR_NOMEM else
  entries ← ask env_alloc;
  if negb entries then
    _ ← lsfs_segment_buffer_destroy; mret LSFS_ERR_NOMEM
  else
  _ ← set_segtable (mk_segment_table (replicate n zero_usage) num_segments num_segments);
  lock ← ask env_alloc;
  if negb lock then
    _ ← lsfs_segment_buffer_destroy; mret LSFS_ERR_NOMEM
  else
  buf ← ask env_alloc;
  if negb buf then
    _ ← lsfs_segment_buffer_destroy; mret LSFS_ERR_NOMEM
  else
  r ← lsfs_read_blocks LSFS_SEGTABLE_START LSFS_SEGTABLE_BLOCKS;
  _ ← match r with
      | Ok blks =>
          let es := table_from_disk n (concat blks) in
          set_segtable (mk_segment_table es num_segments
            (Z.of_nat (length (filter is_free es))))
      | Err _ => mret tt
      end;
  r ← lsfs_segment_alloc;
  _ ← match r with
      | Ok i => set_segbuf (λ b, b <| sg_segment_id := i |>)
      | Err _ => mret tt
      end;
  mret LSFS_OK.

Definition lsfs_segment_destroy : Op () :=
  pending ← gets (λ s, sg_block_count (c_segbuf s));
  _ ← (if 1 <? pending then lsfs_segment_flush else mret LSFS_OK);
  _ ← lsfs_segment_buffer_destroy;
  t ← gets c_segtable;
  match st_entries t with
  | [] => mret tt
  | _ =>
      buf ← ask env_alloc;
      _ ← (if (buf : bool) then
             if (LSFS_SEGTABLE_BLOCKS * LSFS_BLOCK_SIZE
                   <? st_count t * Z.of_nat (sizeof lsfs_segment_usage))
                || (Z.of_nat (length (st_entries t)) <? st_count t) then undefined else
             lsfs_write_blocks LSFS_SEGTABLE_START
               (to_blocks (Z.to_nat LSFS_SEGTABLE_BLOCKS)
                  (enc_array (take (Z.to_nat (st_count t)) (st_entries t))))
           else mret LSFS_OK);
      set_segtable (t <| st_entries := [] |>)
  end.
End LogOps.

(** * Depth of the recursion *)

Lemma checkpoint_write_body_idle `{E : Env} (f : Op Z) s :
  sg_block_count (c_segbuf s) <= 1 → checkpoint_write_body f s = checkpoint_commit s.
Proof.
  intros H. unfold checkpoint_write_body. erewrite bind_run by done.
  rewrite (proj2 (Z.ltb_ge _ _) H). unfold if_ok. by erewrite bind_run by done.
Qed.

Lemma segment_next_idle `{E : Env} b now s :
  wp (segment_next b now) (λ _ s', sg_block_count (c_segbuf s') = 1) s ∨ segment_next b now s = None.
Proof.
  destruct (segment_next b now s) as [[[] s']|] eqn:H; [left|by right].
  eapply wp_intro; [exact H|]. unfold segment_next in H.
  repeat (apply bind_Some_inv in H as (? & ? & _ & H)). by injection H as <-.
Qed.

Lemma segment_flush_body_ext `{E : Env} (f g : Op Z) s :
  (∀ s', sg_block_count (c_segbuf s') <= 1 → f s' = g s') →
  segment_flush_body f s = segment_flush_body g s.
Proof.
  intros Hfg. unfold segment_flush_body, if_ok.
  apply bind_ext. intros b s1 _. case_match; [done|].
  apply bind_ext; intros now s2 _. apply bind_ext; intros r s3 _. case_match; [done|].
  apply bind_ext; intros [] s4 H4. apply bind_ext; intros needed s5 H5.
  destruct needed; [|done]. unfold mbind, M_bind. rewrite Hfg; [done|].
  destruct (segment_next_idle b now s3) as [Hidle|Hidle]; [|congruence].
  apply (wp_run _ _ _ _ _ Hidle) in H4. unfold lsfs_checkpoint_needed, time_now, ask, mbind, M_bind in H5.
  cbn in H5. injection H5 as _ <-. cbn. lia.
Qed.

(** One level of recursion is enough: the checkpoint that a flush writes finds an
    empty buffer and does not flush again. *)
Lemma segment_flush_fuel_1 `{E : Env} n s :
  segment_flush_fuel (S n) s = segment_flush_body checkpoint_commit s.
Proof.
  cbn [segment_flush_fuel]. apply segment_flush_body_ext. intros s' Hs'.
  by apply checkpoint_write_body_idle.
Qed.

Lemma segment_flush_eq `{E : Env} s : lsfs_segment_flush s = segment_flush_body checkpoint_commit s.
Proof. apply segment_flush_fuel_1. Qed.

(** * The invariant of the log *)

(** The largest table whose image fits in the 512 blocks reserved for it. *)
Definition max_table_segments : Z := 87381.

Record log_wf (s : lsfs_context) : Prop := {
  lw_table : segtable_wf (c_segtable s);
  lw_table_fits : st_count (c_segtable s) <= max_table_segments;
  lw_data_length : length (sg_data (c_segbuf s)) = seg_blocks_nat;
  lw_data : Forall is_block (sg_data (c_segbuf s));
  lw_info_length : length (sg_block_info (c_segbuf s)) = seg_blocks_nat;
  lw_info : Forall disk_wf (sg_block_info (c_segbuf s));
  lw_count : 1 <= sg_block_count (c_segbuf s) <= LSFS_SEGMENT_BLOCKS;
  lw_segment : 0 <= sg_segment_id (c_segbuf s) < st_count (c_segtable s);
  lw_current : free_at (st_entries (c_segtable s)) (sg_segment_id (c_segbuf s)) = false;
  lw_disk : in_disk s 0 (LSFS_LOG_START + st_count (c_segtable s) * LSFS_SEGMENT_BLOCKS);
  lw_imap : imap_wf (c_imap s);
  lw_imap_entries : Forall disk_wf (imap_live (c_imap s));
  lw_sb : disk_wf (c_sb s);
  lw_region : sb_active_checkpoint (c_sb s) = 0 ∨ sb_active_checkpoint (c_sb s) = 1 }.

Lemma log_wf_frame s s' : io_frame s s' → log_wf s → log_wf s'.
Proof. intros -> [? ? ? ? ? ? ? ? ? ? ? ? ? ?]. by split. Qed.

Section LogInvariant.
Context `{E : Env}.
Implicit Types s : lsfs_context.

Definition flush_header (b : lsfs_segment_buffer) (now : Z) : lsfs_segment_header :=
  mk_segment_header LSFS_SEGMENT_MAGIC (sg_segment_id b) now (sg_block_count b) 0.

Lemma flush_header_wf s now :
  log_wf s → 0 <= now < 2 ^ 64 → disk_wf (flush_header (c_segbuf s) now).
Proof.
  intros Hs Hnow. pose proof (lw_count s Hs). pose proof (lw_segment s Hs).
  pose proof (st_wf_count _ (lw_table s Hs)).
  cbn. unfold is_u32, is_u64, LSFS_SEGMENT_MAGIC, LSFS_SEGMENT_BLOCKS in *. lia.
Qed.

(** The descriptions a flush stores, and whether they fit in block 0. *)
Definition flush_infos (b : lsfs_segment_buffer) : list lsfs_block_info :=
  slice 1 (Z.to_nat (sg_block_count b - 1)) (sg_block_info b).
Definition infos_fit (b : lsfs_segment_buffer) : bool :=
  24 + (sg_block_count b - 1) * 12 <=? LSFS_BLOCK_SIZE.

Lemma flush_infos_facts s :
  log_wf s →
  Z.of_nat (length (flush_infos (c_segbuf s))) = sg_block_count (c_segbuf s) - 1 ∧
  Forall disk_wf (flush_infos (c_segbuf s)).
Proof.
  intros Hs. pose proof (lw_count s Hs). pose proof (lw_info_length s Hs).
  unfold flush_infos, seg_blocks_nat, LSFS_SEGMENT_BLOCKS in *. split.
  - rewrite length_slice by lia. lia.
  - unfold slice. apply Forall_take, Forall_drop, (lw_info s Hs).
Qed.

Lemma segment_summary_eq s now blk0 :
  log_wf s →
  segment_summary (c_segbuf s) now blk0 =
    Some (let blk := splice blk0 0 (enc (flush_header (c_segbuf s) now)) in
          if infos_fit (c_segbuf s) then splice blk 24 (enc_array (flush_infos (c_segbuf s))) else blk).
Proof.
  intros Hs. pose proof (lw_count s Hs). pose proof (lw_info_length s Hs).
  unfold segment_summary, infos_fit, flush_infos, seg_blocks_nat, LSFS_SEGMENT_BLOCKS in *.
  rewrite u32_small by lia. cbn [sizeof segment_header_ondisk block_info_ondisk].
  change (Z.of_nat 24) with 24. change (Z.of_nat 12) with 12.
  destruct (24 + _ <=? LSFS_BLOCK_SIZE); [|done].
  rewrite (proj2 (Z.ltb_ge _ _)) by lia. done.
Qed.

Lemma segment_summary_block s now blk0 :
  log_wf s → 0 <= now < 2 ^ 64 → is_block blk0 →
  ∃ blk, segment_summary (c_segbuf s) now blk0 = Some blk ∧ is_block blk.
Proof.
  intros Hs Hnow Hblk. rewrite segment_summary_eq by done. eexists. split; [done|].
  pose proof (flush_header_wf s now Hs Hnow) as Hh.
  destruct (flush_infos_facts s Hs) as [Hlen Hinfo].
  assert (is_block (splice blk0 0 (enc (flush_header (c_segbuf s) now)))) as Hb1.
  { apply splice_is_block; [done| |by apply enc_bytes].
    rewrite length_enc by done. cbn. unfold LSFS_BLOCK_SIZE. lia. }
  cbv zeta. unfold infos_fit. destruct (Z.leb_spec (24 + (sg_block_count (c_segbuf s) - 1) * 12) LSFS_BLOCK_SIZE);
    [|done]. apply splice_is_block; [done| |by apply enc_array_bytes].
  rewrite length_enc_array by done. cbn [sizeof block_info_ondisk].
  unfold LSFS_BLOCK_SIZE in *. lia.
Qed.

Definition with_block0 (blk0 : list Z) s : lsfs_context :=
  s <| c_segbuf ::= λ b, b <| sg_data ::= <[0%nat := blk0]> |> |>.

Lemma with_block0_wf blk0 s : log_wf s → is_block blk0 → log_wf (with_block0 blk0 s).
Proof.
  intros [? ? ? ? ? ? ? ? ? ? ? ? ? ?] Hb. split; try done; cbn.
  - by rewrite length_insert.
  - by apply Forall_insert.
Qed.

(** The log area of a segment lies within the image. *)
Lemma segment_in_disk s seg off n :
  log_wf s → 0 <= seg < st_count (c_segtable s) → 0 <= off → 0 <= n →
  off + n <= LSFS_SEGMENT_BLOCKS → in_disk s (lsfs_segment_to_block seg off) n.
Proof.
  intros Hs Hseg Hoff Hn Hle. pose proof (lw_disk s Hs) as (_ & _ & Hd & Hd').
  pose proof (st_wf_count _ (lw_table s Hs)).
  rewrite segment_to_block_eq by (unfold valid_segment, LSFS_SEGMENT_BLOCKS in *; lia).
  unfold in_disk, LSFS_LOG_START, LSFS_SEGMENT_BLOCKS, LSFS_BLOCK_SIZE in *.
  split_and!; [lia..| |lia]. nia.
Qed.

Lemma segment_write_out_wp s now (Q : Z → lsfs_context → Prop) :
  log_wf s → 0 <= now < 2 ^ 64 →
  (∀ blk0 blk r s', sg_data (c_segbuf s) !! 0%nat = Some blk0 →
     segment_summary (c_segbuf s) now blk0 = Some blk → is_block blk →
     lsfs_write_blocks (lsfs_segment_to_block (sg_segment_id (c_segbuf s)) 0)
       (take (Z.to_nat (sg_block_count (c_segbuf s))) (<[0%nat := blk]> (sg_data (c_segbuf s))))
       (with_block0 blk s) = Some (r, s') →
     io_frame (with_block0 blk s) s' → Q r s') →
  wp (segment_write_out (c_segbuf s) now) Q s.
Proof.
  intros Hs Hnow HQ. pose proof (lw_count s Hs) as Hc. pose proof (lw_data_length s Hs) as Hl.
  unfold seg_blocks_nat, LSFS_SEGMENT_BLOCKS in *.
  destruct (lookup_lt_is_Some_2 (sg_data (c_segbuf s)) 0) as [blk0 H0]; [lia|].
  destruct (segment_summary_block s now blk0 Hs Hnow) as (blk & Hsum & Hblk).
  { eapply Forall_lookup_1; [apply (lw_data s Hs)|done]. }
  unfold segment_write_out. wp_step. eapply wp_of_opt; [by rewrite (arr_get_nat _ 0)|].
  wp_step. eapply wp_of_opt; [exact Hsum|]. wp_step. unfold set_segbuf. do 3 wp_step.
  cbn [c_segbuf field_set sg_data]. rewrite length_insert, (proj2 (Z.ltb_ge _ _)) by lia.
  pose proof (with_block0_wf blk s Hs Hblk) as Hs'.
  destruct (wp_elim _ _ _ (write_blocks_frame (with_block0 blk s)
    (lsfs_segment_to_block (sg_segment_id (c_segbuf s)) 0)
    (take (Z.to_nat (sg_block_count (c_segbuf s))) (<[0%nat := blk]> (sg_data (c_segbuf s))))
    ltac:(apply in_disk_addressable, segment_in_disk; [done|apply (lw_segment s Hs)|lia|lia|];
          rewrite length_take, length_insert; unfold LSFS_SEGMENT_BLOCKS; lia))) as (r & s' & Hw & Hf & _).
  eapply wp_intro; [exact Hw|]. by eapply HQ.
Qed.

(** What the second half of a flush leaves alone. *)
Record next_frame s s' : Prop := {
  nf_disk : c_disk s' = c_disk s; nf_trace : c_trace s' = c_trace s;
  nf_disk_size : c_disk_size s' = c_disk_size s; nf_imap : c_imap s' = c_imap s;
  nf_icache : c_icache s' = c_icache s; nf_bufpool : c_bufpool s' = c_bufpool s;
  nf_seq : c_checkpoint_seq s' = c_checkpoint_seq s;
  nf_last : c_last_checkpoint s' = c_last_checkpoint s;
  nf_writes : c_writes_since_checkpoint s' = c_writes_since_checkpoint s;
  nf_readonly : c_readonly s' = c_readonly s;
  nf_st_count : st_count (c_segtable s') = st_count (c_segtable s);
  nf_sb : c_sb s' = c_sb s <| sb_log_head := sb_log_head (c_sb s') |>
                           <| sb_free_segments := sb_free_segments (c_sb s') |> }.

(** The state of the buffer after a flush: empty, on segment [seg]. *)
Definition fresh_segbuf (seg : Z) : lsfs_segment_buffer :=
  mk_segment_buffer empty_data empty_info seg 1.

Lemma with_full_wf s live now :
  log_wf s → 0 <= live < 2 ^ 32 → 0 <= now < 2 ^ 64 →
  segtable_wf (c_segtable (with_entry (sg_segment_id (c_segbuf s)) (mark_full live now) s)) ∧
  free_at (st_entries (c_segtable (with_entry (sg_segment_id (c_segbuf s)) (mark_full live now) s)))
    (sg_segment_id (c_segbuf s)) = false.
Proof.
  intros Hs Hlive Hnow. pose proof (lw_table s Hs) as Hwf.
  destruct (table_lookup _ _ Hwf (lw_segment s Hs)) as (e & Hget & He & Hd).
  split.
  - pose proof (lw_current s Hs) as Hcur. unfold free_at in Hcur. rewrite Hget in Hcur.
    eapply (segtable_wf_entry _ _ e (mark_full live now) (st_free_count (c_segtable s))) in Hwf;
      [exact Hwf|done|..].
    + destruct Hd as (? & _ & _ & ? & _). cbn. unfold is_u32, is_u64, LSFS_SEG_FULL in *.
      split_and!; lia.
    + apply (st_wf_free _ (lw_table s Hs)).
    + rewrite Hcur. cbn. lia.
  - cbn. erewrite free_at_alter by (done || apply (lw_segment s Hs)). by rewrite decide_True.
Qed.

(** The log invariant after the buffer moved to segment [seg]. *)
Lemma fresh_segbuf_wf s s' seg :
  log_wf s → next_frame s s' → disk_wf (c_sb s') →
  segtable_wf (c_segtable s') →
  c_segbuf s' = fresh_segbuf seg → 0 <= seg < st_count (c_segtable s) →
  free_at (st_entries (c_segtable s')) seg = false → log_wf s'.
Proof.
  intros Hs Hf Hsb Ht Hb Hseg Hfree. pose proof Hs as [? ? ? ? ? ? ? ? ? Hd ? ? ? ?].
  destruct Hf as [H1 H2 H3 H4 H5 H6 H7 H8 H9 H10 Hcount H11].
  split; rewrite ?Hb, ?Hcount, ?H4; cbn [fresh_segbuf sg_data sg_block_info sg_block_count sg_segment_id];
    try assumption; try apply length_replicate.
  - apply Forall_replicate, zero_block_is_block.
  - apply Forall_replicate. cbn. unfold is_u32, is_u8, is_bytes.
    split_and!; [lia..|done|]. repeat constructor; unfold is_byte; lia.
  - unfold LSFS_SEGMENT_BLOCKS. lia.
  - unfold in_disk in *. by rewrite H3.
  - rewrite H11. done.
Qed.

Lemma sb_log_head_wf (sb : lsfs_superblock) log_head :
  disk_wf sb → is_u64 log_head → disk_wf (sb <| sb_log_head := log_head |>).
Proof. cbn. intros. destruct_and!. split_and!; assumption. Qed.
Lemma sb_free_segments_wf (sb : lsfs_superblock) free :
  disk_wf sb → is_u64 free → disk_wf (sb <| sb_free_segments := free |>).
Proof. cbn. intros. destruct_and!. split_and!; assumption. Qed.
Lemma sb_active_wf (sb : lsfs_superblock) active :
  disk_wf sb → is_u32 active → disk_wf (sb <| sb_active_checkpoint := active |>).
Proof. cbn. intros. destruct_and!. split_and!; assumption. Qed.

Lemma sb_inode_count_wf (sb : lsfs_superblock) count :
  disk_wf sb → is_u64 count → disk_wf (sb <| sb_inode_count := count |>).
Proof. cbn. intros. destruct_and!. split_and!; assumption. Qed.

(** How a flush moves the buffer to another segment: segments in use stay in use; the
    new segment was free when there was one, otherwise the buffer stays where it is. *)
Record segment_moved s s' : Prop := {
  sm_live j : free_at (st_entries (c_segtable s)) j = false →
    free_at (st_entries (c_segtable s')) j = false;
  sm_free : 0 < st_free_count (c_segtable s) →
    free_at (st_entries (c_segtable s)) (sg_segment_id (c_segbuf s')) = true ∧
    st_free_count (c_segtable s') = st_free_count (c_segtable s) - 1;
  sm_full : st_free_count (c_segtable s) = 0 →
    sg_segment_id (c_segbuf s') = sg_segment_id (c_segbuf s) ∧ st_free_count (c_segtable s') = 0 }.

Lemma with_full_free_at s live now j :
  log_wf s →
  free_at (st_entries (c_segtable (with_entry (sg_segment_id (c_segbuf s)) (mark_full live now) s))) j =
    free_at (st_entries (c_segtable s)) j.
Proof.
  intros Hs. destruct (table_lookup _ _ (lw_table s Hs) (lw_segment s Hs)) as (e & _ & He & _).
  cbn. erewrite free_at_alter by (done || apply (lw_segment s Hs)). case_decide; [subst j|done].
  by rewrite (lw_current s Hs).
Qed.

(** The allocation at the end of a flush, from a state whose current segment is
    marked full. *)
Lemma segment_next_alloc s s2 :
  log_wf s → next_frame s s2 → c_segbuf s2 = c_segbuf s → disk_wf (c_sb s2) →
  segtable_wf (c_segtable s2) → st_free_count (c_segtable s2) = st_free_count (c_segtable s) →
  (∀ j, free_at (st_entries (c_segtable s2)) j = free_at (st_entries (c_segtable s)) j) →
  wp (r ← lsfs_segment_alloc;
      _ ← match r with
          | Err _ => lsfs_gc_trigger
          | Ok i => set_segbuf (λ b, b <| sg_segment_id := i |>)
          end;
      set_segbuf (λ b, b <| sg_data := empty_data |> <| sg_block_info := empty_info |>
                         <| sg_block_count := 1 |>))
    (λ _ s', log_wf s' ∧ next_frame s s' ∧ c_segbuf s' = fresh_segbuf (sg_segment_id (c_segbuf s')) ∧
      sb_log_head (c_sb s') = sb_log_head (c_sb s2) ∧ segment_moved s s') s2.
Proof.
  intros Hs Hnf2 Hb2 Hsb2 Hwf Hfc Hfree. pose proof (lw_segment s Hs) as Hid.
  pose proof (st_wf_count _ (lw_table s Hs)) as Hst. pose proof (nf_st_count _ _ Hnf2) as Hcnt.
  pose proof (count_free_bounds (st_entries (c_segtable s2))) as Hfb. pose proof Hwf as [Hl _ Hfc2 _].
  unfold set_segbuf, lsfs_gc_trigger. wp_step.
  eapply wp_mono; [by apply segment_alloc_spec|]. intros [i|e] s3.
  - intros (Hpos & Hi & -> & (e & He & Hf) & _). wp_steps.
    pose proof (after_alloc_wf s2 i e Hwf He Hf ltac:(lia) Hpos) as Hwf'.
    match goal with |- log_wf ?x ∧ _ => set (s4 := x) end.
    assert (next_frame s s4) as Hnf by (destruct Hnf2 as [? ? ? ? ? ? ? ? ? ? ? Hsb]; split; try done;
      cbn; by rewrite Hsb).
    assert (∀ j, free_at (st_entries (c_segtable s4)) j =
      if decide (i = j) then false else free_at (st_entries (c_segtable s)) j) as Hfree4.
    { intros j. cbn. erewrite free_at_alter by (done || lia). by rewrite Hfree. }
    assert (free_at (st_entries (c_segtable s)) i = true) as Hfi.
    { rewrite <-Hfree. apply free_at_true. exists e. split; [lia|done]. }
    split_and!; [|done..|].
    + eapply (fresh_segbuf_wf s s4 i); try done; [|lia|by rewrite Hfree4, decide_True].
      apply (sb_free_segments_wf (c_sb s2)); [done|]. unfold is_u64. lia.
    + split.
      * intros j Hj. rewrite Hfree4. by case_decide.
      * intros _. split; [exact Hfi|cbn; lia].
      * intros H0. lia.
  - intros (_ & -> & Hnone). wp_steps.
    match goal with |- log_wf ?x ∧ _ => set (s4 := x) end.
    assert (next_frame s s4) as Hnf by (destruct Hnf2; by split).
    split_and!; [|done| |done|].
    + eapply (fresh_segbuf_wf s s4 (sg_segment_id (c_segbuf s))); try done.
      * by rewrite <-Hb2.
      * change (c_segtable s4) with (c_segtable s2). by rewrite Hfree, (lw_current s Hs).
    + done.
    + split.
      * intros j. change (c_segtable s4) with (c_segtable s2). by rewrite Hfree.
      * intros H0. lia.
      * intros H0. split; [cbn; by rewrite Hb2|cbn; lia].
Qed.

Lemma segment_next_spec s b now :
  log_wf s → 0 <= now < 2 ^ 64 →
  sg_segment_id b = sg_segment_id (c_segbuf s) → sg_block_count b = sg_block_count (c_segbuf s) →
  wp (segment_next b now) (λ _ s',
    log_wf s' ∧ next_frame s s' ∧ c_segbuf s' = fresh_segbuf (sg_segment_id (c_segbuf s')) ∧
    sb_log_head (c_sb s') = lsfs_segment_to_block (sg_segment_id b) 0 + sg_block_count b ∧
    segment_moved s s') s.
Proof.
  intros Hs Hnow Hseg Hcount. pose proof (lw_count s Hs) as Hc. unfold LSFS_SEGMENT_BLOCKS in Hc.
  pose proof (lw_segment s Hs) as Hid. pose proof (st_wf_count _ (lw_table s Hs)) as Hst.
  pose proof (lw_table_fits s Hs) as Hfits. unfold max_table_segments in Hfits.
  unfold segment_next. rewrite Hseg, Hcount, u32_small by lia.
  rewrite segment_to_block_eq by (unfold valid_segment; lia).
  set (head := LSFS_LOG_START + _ + 0 + _).
  assert (0 <= head < 2 ^ 64) as Hhead by (unfold head, LSFS_LOG_START, LSFS_SEGMENT_BLOCKS; lia).
  rewrite (u64_small head Hhead).
  destruct (with_full_wf s (sg_block_count (c_segbuf s) - 1) now Hs ltac:(lia) Hnow) as [Hwf _].
  wp_step. eapply wp_intro; [apply usage_update_run; [apply (lw_table s Hs)|done]|].
  set (s1 := with_entry _ _ _) in *. wp_step. unfold set_sb. wp_step.
  eapply wp_mono; [apply (segment_next_alloc s); try done|].
  - apply (sb_log_head_wf (c_sb s)); [apply (lw_sb s Hs)|exact Hhead].
  - intros j. by apply with_full_free_at.
  - done.
Qed.

(** What writing a checkpoint leaves alone. *)
Record commit_frame s s' : Prop := {
  cf_disk_size : c_disk_size s' = c_disk_size s; cf_imap : c_imap s' = c_imap s;
  cf_segtable : c_segtable s' = c_segtable s; cf_segbuf : c_segbuf s' = c_segbuf s;
  cf_icache : c_icache s' = c_icache s; cf_bufpool : c_bufpool s' = c_bufpool s;
  cf_readonly : c_readonly s' = c_readonly s;
  cf_sb : c_sb s' = c_sb s <| sb_active_checkpoint := sb_active_checkpoint (c_sb s') |>;
  cf_log b : LSFS_LOG_START <= b → disk_block (c_disk s') b = disk_block (c_disk s) b;
  cf_active : sb_active_checkpoint (c_sb s') = 0 ∨ sb_active_checkpoint (c_sb s') = 1;
  cf_bytes : disk_ok s → disk_ok s' }.

Lemma commit_frame_refl s : log_wf s → commit_frame s s.
Proof. intros Hs. split; try done; [by destruct (c_sb s)|apply (lw_region s Hs)]. Qed.

Lemma commit_frame_io s s1 s2 :
  commit_frame s s1 → io_below LSFS_LOG_START s1 s2 → commit_frame s s2.
Proof.
  intros [? ? ? ? ? ? ? ? Hlog ? Hb1] (Hf & Hb2 & Hd). assert (disk_ok s → disk_ok s2) as Hb by auto.
  unfold disk_ok in Hb at 2. rewrite Hf. split; try done.
  intros b Hlb. cbn [c_disk field_set]. by rewrite Hd, Hlog.
Qed.

Lemma commit_frame_wf s s' : commit_frame s s' → log_wf s → log_wf s'.
Proof.
  intros [Hsize Him Ht Hb _ _ _ Hsb _ Ha _] [? ? ? ? ? ? ? ? ? Hd ? ? Hwsb ?].
  split; rewrite ?Him, ?Ht, ?Hb; try assumption.
  - unfold in_disk in *. by rewrite Hsize.
  - rewrite Hsb. apply sb_active_wf; [exact Hwsb|]. unfold is_u32. lia.
Qed.

Lemma log_addressable s b n :
  log_wf s → 0 <= b → 0 <= n → b + n <= LSFS_LOG_START → addressable s b n.
Proof.
  intros Hs Hb Hn Hle. destruct (lw_disk s Hs) as (_ & _ & Hd).
  pose proof (lw_segment s Hs). apply in_disk_addressable.
  unfold in_disk, LSFS_LOG_START, LSFS_SEGMENT_BLOCKS, LSFS_BLOCK_SIZE in *. lia.
Qed.

Lemma region_start_cases r :
  region_start r = LSFS_CHECKPOINT0_START ∨ region_start r = LSFS_CHECKPOINT1_START.
Proof. unfold region_start. zcase; auto. Qed.

Lemma segtable_blocks_bounds count :
  0 <= count <= max_table_segments →
  0 <= segtable_blocks count <= LSFS_SEGTABLE_BLOCKS ∧ count * 24 <= segtable_blocks count * 4096.
Proof.
  unfold max_table_segments, segtable_blocks, LSFS_SEGTABLE_BLOCKS, LSFS_BLOCK_SIZE. intros Hc.
  cbn [sizeof segment_usage_ondisk]. change (Z.of_nat 24) with 24.
  rewrite (u64_small (count * 24)), u64_small by lia.
  pose proof (Z.div_mod (count * 24 + 4096 - 1) 4096 ltac:(lia)).
  pose proof (Z.mod_pos_bound (count * 24 + 4096 - 1) 4096 ltac:(lia)).
  rewrite u32_small by lia. lia.
Qed.

(** A step that only does I/O keeps the frame of the checkpoint. *)
Lemma wp_commit_io {A B} s0 s (m : Op A) (k : A → Op B) Q :
  commit_frame s0 s → wp m (λ _ s', io_below LSFS_LOG_START s s') s →
  (∀ a s', commit_frame s0 s' → wp (k a) Q s') → wp (m ≫= k) Q s.
Proof.
  intros Hf Hm Hk. apply wp_bind. eapply wp_mono; [exact Hm|].
  intros a s' Hio. apply Hk. by eapply commit_frame_io.
Qed.

Lemma lxor_1_region a : a = 0 ∨ a = 1 → Z.lxor a 1 = 1 - a.
Proof. by intros [-> | ->]. Qed.

Lemma wp_commit_if_ok s0 s (m k : Op Z) :
  commit_frame s0 s → wp m (λ _ s', io_below LSFS_LOG_START s s') s →
  (∀ s', commit_frame s0 s' → wp k (λ _ s', commit_frame s0 s') s') →
  wp (m ;? k) (λ _ s', commit_frame s0 s') s.
Proof.
  intros Hf Hm Hk. eapply wp_commit_io; [exact Hf|exact Hm|]. intros r s' Hf'.
  destruct (negb _); [by apply wp_ret|by apply Hk].
Qed.

Lemma commit_addressable s0 s b n :
  log_wf s0 → commit_frame s0 s → 0 <= b → 0 <= n → b + n <= LSFS_LOG_START → addressable s b n.
Proof. intros Hs Hf. apply log_addressable. by eapply commit_frame_wf. Qed.

Lemma region_start_bounds r : 0 <= region_start r ∧ region_start r + 256 <= LSFS_SEGTABLE_START.
Proof. by destruct (region_start_cases r) as [-> | ->]. Qed.

Lemma header_block_bytes h : is_block (header_block h).
Proof.
  unfold header_block. destruct h. apply splice_is_block; [apply zero_block_is_block|cbn; unfold BS, LSFS_BLOCK_SIZE; lia|].
  cbn [enc checkpoint_header_ondisk]. repeat (apply Forall_app; split); apply le_bytes_bytes.
Qed.

(** What is written for a structure smaller than a block is a block. *)
Lemma over_read_block bs junk : Forall is_byte bs → is_block (over_read bs junk).
Proof.
  intros Hbs. unfold over_read. split.
  - rewrite length_take, !length_app. unfold zero_block. rewrite length_replicate. lia.
  - apply Forall_take, Forall_app. split; [done|]. apply Forall_app. split; [|apply zeros_bytes].
    apply Forall_fmap, Forall_true. intros x. apply (Z.mod_pos_bound x 256). lia.
Qed.

Lemma checkpoint_prepare_frame s0 s region h :
  log_wf s0 → commit_frame s0 s →
  wp (checkpoint_prepare (region_start region) h) (λ _ s', commit_frame s0 s') s.
Proof.
  intros Hs0 Hf. pose proof (region_start_bounds region) as [Hr0 Hr1].
  unfold LSFS_SEGTABLE_START in Hr1. unfold checkpoint_prepare.
  eapply wp_commit_if_ok; [exact Hf|..].
  { apply write_block_below; [|unfold LSFS_LOG_START; lia|apply header_block_bytes].
    eapply commit_addressable; [done..|lia|done|unfold LSFS_LOG_START; lia]. }
  intros s4 Hf4. rewrite u64_small by lia. eapply wp_commit_if_ok; [exact Hf4|..].
  { apply imap_save_below; [apply (lw_imap s4); by eapply commit_frame_wf|
      apply (lw_imap_entries s4); by eapply commit_frame_wf| |];
      unfold LSFS_CHECKPOINT0_BLOCKS, LSFS_LOG_START; [|lia].
    eapply commit_addressable; [done..|lia|done|unfold LSFS_LOG_START; lia]. }
  intros s5 Hf5. do 2 wp_step. eapply (wp_commit_io s0); [exact Hf5|done|]. intros ok6 s6 Hf6.
  pose proof (commit_frame_wf _ _ Hf5 Hs0) as Hs5. pose proof (lw_table s5 Hs5) as [Hlen _ _ Hent].
  pose proof (lw_table_fits s5 Hs5).
  destruct (segtable_blocks_bounds (st_count (c_segtable s5))) as [Hsb _]; [lia|].
  rewrite (proj2 (Z.ltb_ge _ _)) by lia. eapply (wp_commit_io s0); [exact Hf6| |].
  { destruct ok6; [|by apply wp_ret].
    unfold LSFS_SEGTABLE_START, LSFS_SEGTABLE_BLOCKS, LSFS_LOG_START in *.
    apply write_blocks_below; [unfold to_blocks; rewrite length_chunks..|].
    - eapply commit_addressable; [exact Hs0|exact Hf6|done|lia|unfold LSFS_LOG_START; lia].
    - lia.
    - by apply to_blocks_wf, enc_array_bytes, Forall_take. }
  intros _ s7 Hf7. eapply wp_mono; [apply (sync_below LSFS_LOG_START)|]. intros r s8. by apply commit_frame_io.
Qed.

Lemma checkpoint_publish_frame s0 s region h :
  log_wf s0 → commit_frame s0 s → region = 0 ∨ region = 1 →
  wp (checkpoint_publish region (region_start region) h) (λ _ s', commit_frame s0 s') s.
Proof.
  intros Hs0 Hf Hreg. pose proof (region_start_bounds region) as [Hr0 Hr1].
  unfold LSFS_SEGTABLE_START in Hr1. unfold checkpoint_publish.
  eapply wp_commit_if_ok; [exact Hf|..].
  { apply write_block_below; [|unfold LSFS_LOG_START; lia|apply header_block_bytes].
    eapply commit_addressable; [done..|lia|done|unfold LSFS_LOG_START; lia]. }
  intros s9 Hf9. unfold set_sb. do 4 wp_step. set (s10 := s9 <| c_sb ::= _ |>).
  assert (commit_frame s0 s10) as Hf10.
  { destruct Hf9 as [? ? ? ? ? ? ? Hsb ? _ ?]. split; try done. cbn. by rewrite Hsb. }
  eapply (wp_commit_io s0); [exact Hf10|done|]. intros junk s11 Hf11.
  eapply wp_commit_if_ok; [exact Hf11| |].
  { apply write_block_below; [by eapply commit_addressable|done|]. apply over_read_block, enc_bytes.
    exact (lw_sb s10 (commit_frame_wf _ _ Hf10 Hs0)). }
  intros s12 Hf12. eapply (wp_commit_io s0); [exact Hf12|apply sync_below|]. intros _ s13 Hf13.
  do 3 wp_step. destruct Hf13. by split.
Qed.

Lemma checkpoint_commit_frame s : log_wf s → wp checkpoint_commit (λ _ s', commit_frame s s') s.
Proof.
  intros Hs. unfold checkpoint_commit. do 4 wp_step.
  set (s1 := s <| c_checkpoint_seq ::= _ |>).
  assert (commit_frame s s1) as Hf1.
  { destruct (commit_frame_refl s Hs). by split. }
  eapply (wp_commit_io s); [exact Hf1|done|]. intros now s2 Hf2.
  do 2 wp_step. eapply (wp_commit_io s); [exact Hf2|done|]. intros ok s3 Hf3.
  destruct ok; cbn [negb]; [|by apply wp_ret]. apply wp_if_ok.
  eapply wp_mono; [by apply checkpoint_prepare_frame|]. intros r s4 Hf4. cbv beta.
  case_decide; [|done]. apply checkpoint_publish_frame; [done..|].
  rewrite lxor_1_region by apply (lw_region s Hs). destruct (lw_region s Hs); lia.
Qed.

(** The fields of the superblock that never change. *)
Definition sb_layout (sb : lsfs_superblock) : Z * Z * Z :=
  (sb_magic sb, sb_version sb, sb_total_segments sb).

(** What no operation on the log changes. *)
Record log_frame s s' : Prop := {
  lf_disk_size : c_disk_size s' = c_disk_size s; lf_imap : c_imap s' = c_imap s;
  lf_icache : c_icache s' = c_icache s; lf_bufpool : c_bufpool s' = c_bufpool s;
  lf_readonly : c_readonly s' = c_readonly s;
  lf_st_count : st_count (c_segtable s') = st_count (c_segtable s);
  lf_layout : sb_layout (c_sb s') = sb_layout (c_sb s);
  lf_bytes : disk_ok s → disk_ok s' }.

Lemma log_frame_refl s : log_frame s s.
Proof. done. Qed.
Lemma log_frame_trans s1 s2 s3 : log_frame s1 s2 → log_frame s2 s3 → log_frame s1 s3.
Proof. intros [] []. split; auto; congruence. Qed.
Lemma commit_log_frame s s' : commit_frame s s' → log_frame s s'.
Proof. intros [? ? ? ? ? ? ? Hsb ? ? ?]. split; auto; [congruence|by rewrite Hsb]. Qed.
Lemma io_log_frame s s' : io_frame s s' → (disk_ok s → disk_ok s') → log_frame s s'.
Proof. intros Hf Hb. split; [by rewrite Hf..|done]. Qed.
Lemma read_log_frame s s' : io_frame s s' → c_disk s' = c_disk s → log_frame s s'.
Proof. intros Hf Hd. apply io_log_frame; [done|]. unfold disk_ok. by rewrite Hd. Qed.

Lemma next_log_frame s s' : next_frame s s' → log_frame s s'.
Proof.
  intros [Hd ? ? ? ? ? ? ? ? ? ? Hsb]. split; try done; [by rewrite Hsb|]. unfold disk_ok. by rewrite Hd.
Qed.

Lemma checkpoint_needed_frame s :
  wp lsfs_checkpoint_needed (λ _ s', io_frame s s' ∧ c_disk s' = c_disk s) s.
Proof. done. Qed.

(** The blocks of the buffer with its summary [blk] are on disk, and the rest of
    the log is as before. *)
Definition flushed_to (b : lsfs_segment_buffer) (blk : list Z) (d d' : gmap Z (list Z)) : Prop :=
  let start := lsfs_segment_to_block (sg_segment_id b) 0 in
  (∀ i x, (i < Z.to_nat (sg_block_count b))%nat → <[0%nat := blk]> (sg_data b) !! i = Some x →
     disk_block d' (start + Z.of_nat i) = x) ∧
  (∀ a, LSFS_LOG_START <= a → ¬ start <= a < start + sg_block_count b →
     disk_block d' a = disk_block d a).

Lemma flushed_to_write s (b : lsfs_segment_buffer) blk d :
  log_wf s → b = c_segbuf s →
  flushed_to b blk d (write_range (lsfs_segment_to_block (sg_segment_id b) 0)
    (take (Z.to_nat (sg_block_count b)) (<[0%nat := blk]> (sg_data b))) d).
Proof.
  intros Hs ->. pose proof (lw_count s Hs) as Hc. pose proof (lw_data_length s Hs) as Hl.
  unfold seg_blocks_nat, LSFS_SEGMENT_BLOCKS in *. split.
  - intros i x Hi Hx. apply write_range_inside. by rewrite lookup_take_lt.
  - intros a _ Ha. apply write_range_outside. rewrite length_take, length_insert. lia.
Qed.

Definition flush_post s (r : Z) s' : Prop :=
  log_wf s' ∧ log_frame s s' ∧
  (r = LSFS_OK → sg_block_count (c_segbuf s') = 1 ∧
    (1 < sg_block_count (c_segbuf s) → ∃ now blk0 blk, now = u64 (env_time (c_tick s)) ∧
       sg_data (c_segbuf s) !! 0%nat = Some blk0 ∧
       segment_summary (c_segbuf s) now blk0 = Some blk ∧
       flushed_to (c_segbuf s) blk (c_disk s) (c_disk s') ∧ segment_moved s s')).

Lemma segment_moved_eq s s1 s2 :
  c_segtable s2 = c_segtable s1 → c_segbuf s2 = c_segbuf s1 → segment_moved s s1 → segment_moved s s2.
Proof. intros Ht Hb [? ? ?]. by split; rewrite ?Ht, ?Hb. Qed.

(** The end of a flush: the next segment, and a checkpoint when one is due. *)
Lemma segment_flush_tail_wp s b now :
  log_wf s → 0 <= now < 2 ^ 64 →
  sg_segment_id b = sg_segment_id (c_segbuf s) → sg_block_count b = sg_block_count (c_segbuf s) →
  wp (_ ← segment_next b now; needed ← lsfs_checkpoint_needed;
      if (needed : bool) then _ ← checkpoint_commit; mret LSFS_OK else mret LSFS_OK)
    (λ r s', r = LSFS_OK ∧ log_wf s' ∧ log_frame s s' ∧ sg_block_count (c_segbuf s') = 1 ∧
       segment_moved s s' ∧ ∀ a, LSFS_LOG_START <= a → disk_block (c_disk s') a = disk_block (c_disk s) a) s.
Proof.
  intros Hs Hnow Hseg Hcount. wp_step. eapply wp_mono; [by apply segment_next_spec|].
  intros _ s3 (Hs3 & Hnf & Hfresh & _ & Hmv). wp_step.
  eapply wp_mono; [apply checkpoint_needed_frame|]. intros needed s4 [Hf4 Hd4].
  pose proof (log_wf_frame _ _ Hf4 Hs3) as Hs4.
  assert (log_frame s s4) as Hlf4.
  { eapply log_frame_trans; [by apply next_log_frame|by apply read_log_frame]. }
  assert (sg_block_count (c_segbuf s4) = 1) as Hc4 by (rewrite Hf4; cbn; by rewrite Hfresh).
  assert (c_disk s4 = c_disk s) as Hd by (rewrite Hd4; apply Hnf).
  assert (c_segtable s4 = c_segtable s3 ∧ c_segbuf s4 = c_segbuf s3) as [Ht4 Hb4] by by rewrite Hf4.
  destruct needed; wp_step; [|split_and!; try done; [by eapply segment_moved_eq|by rewrite Hd]].
  eapply wp_mono; [by apply checkpoint_commit_frame|]. intros r5 s5 Hf5. wp_step.
  split_and!; [done|eapply commit_frame_wf; [exact Hf5|exact Hs4]| |by rewrite (cf_segbuf _ _ Hf5)|..].
  - eapply log_frame_trans; [exact Hlf4|by apply commit_log_frame].
  - eapply segment_moved_eq; [| |exact Hmv]; [by rewrite (cf_segtable _ _ Hf5)|by rewrite (cf_segbuf _ _ Hf5)].
  - intros a Ha. by rewrite (cf_log _ _ Hf5), Hd.
Qed.

Lemma segment_flush_wp s : log_wf s → wp lsfs_segment_flush (flush_post s) s.
Proof.
  intros Hs. unfold wp. rewrite segment_flush_eq.
  fold (wp (segment_flush_body checkpoint_commit) (flush_post s) s).
  pose proof (lw_count s Hs) as Hc. unfold segment_flush_body. do 2 wp_step.
  destruct (Z.leb_spec (sg_block_count (c_segbuf s)) 1).
  { apply wp_ret. split_and!; [done..|]. intros _. split; [lia|]. lia. }
  wp_step. eapply wp_mono; [apply wp_and; [apply time_now_frame|apply time_now_run]|].
  intros now s1 [(Hf1 & Hd1 & Hnow) Hstamp].
  pose proof (log_wf_frame _ _ Hf1 Hs) as Hs1.
  assert (c_segbuf s = c_segbuf s1) as Hb by by rewrite Hf1.
  unfold flush_post. rewrite Hb, <-Hd1 in *. pose proof (read_log_frame _ _ Hf1 Hd1) as Hlf1.
  apply wp_if_ok, segment_write_out_wp; [done..|].
  intros blk0 blk r s2 Hblk0 Hsum Hblk Hw Hf2. pose proof (with_block0_wf blk s1 Hs1 Hblk) as Hs1'.
  pose proof (log_wf_frame _ _ Hf2 Hs1') as Hs2.
  assert (addressable (with_block0 blk s1) (lsfs_segment_to_block (sg_segment_id (c_segbuf s1)) 0)
    (Z.of_nat (length (take (Z.to_nat (sg_block_count (c_segbuf s1))) (<[0%nat := blk]> (sg_data (c_segbuf s1)))))))
    as Haddr.
  { apply in_disk_addressable, segment_in_disk; [done|apply (lw_segment s1 Hs1)|lia|lia|].
    rewrite length_take. lia. }
  assert (log_frame s s2) as Hlf2.
  { eapply log_frame_trans; [exact Hlf1|]. apply (log_frame_trans _ (with_block0 blk s1)); [done|].
    apply io_log_frame; [done|]. intros Hok. refine (wp_run _ _ _ _ _ (write_blocks_bytes _ _ _ Haddr _ Hok) Hw).
    apply Forall_take, Forall_insert; [apply (lw_data s1 Hs1)|done]. }
  case_decide as Hr; [|by split_and!]. subst r. apply write_blocks_success in Hw; [|exact Haddr].
  eapply wp_mono; [apply segment_flush_tail_wp; [done..|by rewrite Hf2|by rewrite Hf2]|].
  intros r s3 (-> & Hs3 & Hlf3 & Hc3 & Hmv & Hd3).
  split_and!; [done|by eapply log_frame_trans|]. intros _. split; [done|]. intros _.
  exists now, blk0, blk. split_and!; [done|done|done| |].
  2:{ assert (c_segtable s2 = c_segtable s) as Ht by (rewrite Hf2; cbn; by rewrite Hf1).
      assert (sg_segment_id (c_segbuf s2) = sg_segment_id (c_segbuf s)) as Hid
        by (rewrite Hf2; cbn; by rewrite Hb).
      destruct Hmv as [H1 H2 H3]. rewrite Ht, Hid in *. by split. }
  destruct (flushed_to_write s1 (c_segbuf s1) blk (c_disk s1) Hs1 eq_refl) as [Hin Hout].
  assert (c_disk s2 = write_range (lsfs_segment_to_block (sg_segment_id (c_segbuf s1)) 0)
    (take (Z.to_nat (sg_block_count (c_segbuf s1))) (<[0%nat := blk]> (sg_data (c_segbuf s1)))) (c_disk s1))
    as Hd2 by by rewrite Hw.
  rewrite <-Hd2 in Hin, Hout.
  assert (LSFS_LOG_START <= lsfs_segment_to_block (sg_segment_id (c_segbuf s1)) 0) as Hstart.
  { pose proof (lw_segment s1 Hs1). pose proof (st_wf_count _ (lw_table s1 Hs1)).
    rewrite segment_to_block_eq by (unfold valid_segment; lia). unfold LSFS_SEGMENT_BLOCKS. lia. }
  split.
  - intros i x Hi Hx. rewrite Hd3 by lia. by apply Hin.
  - intros a Ha Hna. rewrite Hd3 by lia. by apply Hout.
Qed.

Lemma checkpoint_write_wp s :
  log_wf s → wp lsfs_checkpoint_write (λ _ s', log_wf s' ∧ log_frame s s') s.
Proof.
  intros Hs. unfold lsfs_checkpoint_write, checkpoint_write_body. do 2 wp_step. apply wp_if_ok.
  assert (wp (if 1 <? sg_block_count (c_segbuf s) then lsfs_segment_flush else mret LSFS_OK)
    (λ _ s', log_wf s' ∧ log_frame s s') s) as H.
  { destruct (1 <? sg_block_count (c_segbuf s)); [|by apply wp_ret].
    eapply wp_mono; [by apply segment_flush_wp|]. unfold flush_post. naive_solver. }
  eapply wp_mono; [exact H|]. intros r s1 [Hs1 Hlf1]. case_decide; [|done].
  eapply wp_mono; [by apply checkpoint_commit_frame|]. intros r2 s2 Hf2.
  split; [eapply commit_frame_wf; [exact Hf2|exact Hs1]|].
  eapply log_frame_trans; [exact Hlf1|by apply commit_log_frame].
Qed.

(** Appending to a buffer that is not full. *)
Definition new_info (info : lsfs_block_info) (ino offset type : Z) : lsfs_block_info :=
  info <| bi_ino := ino |> <| bi_offset := offset |> <| bi_type := type |>.

Definition after_append (data : list Z) (info : lsfs_block_info) s : lsfs_context :=
  s <| c_segbuf ::= λ b, b <| sg_data ::= <[Z.to_nat (sg_block_count b) := data]> |>
                           <| sg_block_info ::= <[Z.to_nat (sg_block_count b) := info]> |>
                           <| sg_block_count ::= Z.succ |> |>
    <| c_writes_since_checkpoint ::= λ w, u32 (w + 1) |>.

Lemma after_append_wf data info s :
  log_wf s → is_block data → disk_wf info → sg_block_count (c_segbuf s) < LSFS_SEGMENT_BLOCKS →
  log_wf (after_append data info s).
Proof.
  intros [? ? ? ? ? ? ? ? ? ? ? ? ? ?] Hd Hi Hlt.
  split; try assumption; cbn [c_segbuf after_append field_set sg_data sg_block_info sg_block_count].
  - by rewrite length_insert.
  - by apply Forall_insert.
  - by rewrite length_insert.
  - by apply Forall_insert.
  - lia.
Qed.

Definition block_args (data : list Z) (ino offset type : Z) : Prop :=
  is_block data ∧ is_u32 ino ∧ is_u32 offset ∧ is_u8 type.

(** [P] is any property of the state and of what a flush makes of it; a flush fails only
    when [F] holds. *)
Lemma segment_append_or (P : lsfs_context → Prop) (F : Prop) s data ino offset type
    (Q : Z → lsfs_context → Prop) :
  log_wf s → block_args data ino offset type → P s →
  wp lsfs_segment_flush (λ r s', P s' ∧ (r = LSFS_OK ∨ F)) s →
  (∀ s', F → LSFS_SEGMENT_BLOCKS <= sg_block_count (c_segbuf s) →
     log_wf s' → log_frame s s' → P s' → Q 0 s') →
  (∀ s1 info, log_wf s1 → P s1 → log_frame s s1 → sg_block_count (c_segbuf s1) < LSFS_SEGMENT_BLOCKS →
     (sg_block_count (c_segbuf s) < LSFS_SEGMENT_BLOCKS → s1 = s) →
     sg_block_info (c_segbuf s1) !! Z.to_nat (sg_block_count (c_segbuf s1)) = Some info →
     log_wf (after_append data (new_info info ino offset type) s1) →
     Q (lsfs_segment_to_block (sg_segment_id (c_segbuf s1)) (sg_block_count (c_segbuf s1)))
       (after_append data (new_info info ino offset type) s1)) →
  wp (lsfs_segment_append_block data ino offset type) Q s.
Proof.
  intros Hs (Hdata & Hino & Hoff & Hty) HP HPf Hfail HQ. unfold lsfs_segment_append_block. do 2 wp_step.
  assert (wp (if LSFS_SEGMENT_BLOCKS <=? sg_block_count (c_segbuf s) then lsfs_segment_flush else mret LSFS_OK)
    (λ r s1, log_wf s1 ∧ P s1 ∧ log_frame s s1 ∧ (sg_block_count (c_segbuf s) < LSFS_SEGMENT_BLOCKS → s1 = s) ∧
      (r = LSFS_OK → sg_block_count (c_segbuf s1) < LSFS_SEGMENT_BLOCKS) ∧
      (r ≠ LSFS_OK → F ∧ LSFS_SEGMENT_BLOCKS <= sg_block_count (c_segbuf s))) s) as Hfl.
  { destruct (Z.leb_spec LSFS_SEGMENT_BLOCKS (sg_block_count (c_segbuf s))); [|by apply wp_ret].
    eapply wp_mono; [apply wp_and; [exact HPf|by apply segment_flush_wp]|].
    intros r s1 ([HP1 HF] & Hs1 & Hf1 & Hc1).
    split_and!; [done..|lia| |by destruct HF]. intros Hr. by rewrite (proj1 (Hc1 Hr)). }
  wp_step. eapply wp_mono; [exact Hfl|]. intros r s1 (Hs1 & HP1 & Hf1 & Heq & Hlt & Hge). cbv beta.
  destruct (Z.eqb_spec r LSFS_OK) as [->|Hr]; cbn [negb]; [|destruct (Hge Hr); by apply wp_ret, Hfail].
  specialize (Hlt eq_refl). do 2 wp_step.
  pose proof (lw_count s1 Hs1) as Hc. pose proof (lw_data_length s1 Hs1) as Hdl.
  pose proof (lw_info_length s1 Hs1) as Hil. unfold seg_blocks_nat, LSFS_SEGMENT_BLOCKS in *.
  destruct (lookup_lt_is_Some_2 (sg_block_info (c_segbuf s1)) (Z.to_nat (sg_block_count (c_segbuf s1))))
    as [info Hinfo]; [lia|].
  wp_step. eapply wp_of_opt; [apply arr_set_ok; lia|].
  wp_step. eapply wp_of_opt; [apply arr_get_lookup; split; [lia|exact Hinfo]|].
  wp_step. eapply wp_of_opt; [apply arr_set_ok; lia|].
  unfold set_segbuf. wp_steps. rewrite u32_small by lia.
  apply (HQ s1 info); [done..|]. apply after_append_wf; [done|done| |done].
  pose proof (Forall_lookup_1 _ _ _ _ (lw_info s1 Hs1) Hinfo) as (_ & _ & _ & Hres).
  by split_and!.
Qed.

Lemma segment_append_wp (P : lsfs_context → Prop) s data ino offset type
    (Q : Z → lsfs_context → Prop) :
  log_wf s → block_args data ino offset type → P s → wp lsfs_segment_flush (λ _ s', P s') s →
  (∀ s', LSFS_SEGMENT_BLOCKS <= sg_block_count (c_segbuf s) →
     log_wf s' → log_frame s s' → P s' → Q 0 s') →
  (∀ s1 info, log_wf s1 → P s1 → log_frame s s1 → sg_block_count (c_segbuf s1) < LSFS_SEGMENT_BLOCKS →
     (sg_block_count (c_segbuf s) < LSFS_SEGMENT_BLOCKS → s1 = s) →
     sg_block_info (c_segbuf s1) !! Z.to_nat (sg_block_count (c_segbuf s1)) = Some info →
     log_wf (after_append data (new_info info ino offset type) s1) →
     Q (lsfs_segment_to_block (sg_segment_id (c_segbuf s1)) (sg_block_count (c_segbuf s1)))
       (after_append data (new_info info ino offset type) s1)) →
  wp (lsfs_segment_append_block data ino offset type) Q s.
Proof.
  intros Hs Hargs HP Hfl Hfail HQ. apply (segment_append_or P True); auto.
  eapply wp_mono; [exact Hfl|]. auto.
Qed.

(** On a machine without failures a flush of an image that can be written succeeds. *)
Lemma segment_flush_ok s :
  Healthy E → log_wf s → c_readonly s = false → wp lsfs_segment_flush (λ r _, r = LSFS_OK) s.
Proof.
  intros Hh Hs Hro. unfold wp. rewrite segment_flush_eq.
  fold (wp (segment_flush_body checkpoint_commit) (λ r _, r = LSFS_OK) s).
  pose proof (lw_count s Hs) as Hc. unfold segment_flush_body. do 2 wp_step.
  destruct (Z.leb_spec (sg_block_count (c_segbuf s)) 1); [by apply wp_ret|].
  wp_step. eapply wp_mono; [apply time_now_frame|]. intros now s1 (Hf1 & Hd1 & Hnow).
  pose proof (log_wf_frame _ _ Hf1 Hs) as Hs1.
  assert (c_segbuf s = c_segbuf s1) as Hb by by rewrite Hf1. rewrite Hb in *.
  apply wp_if_ok, segment_write_out_wp; [done..|].
  intros blk0 blk r s2 Hblk0 Hsum Hblk Hw Hf2. pose proof (with_block0_wf blk s1 Hs1 Hblk) as Hs1'.
  rewrite write_blocks_ok in Hw.
  - injection Hw as <- _. rewrite decide_True by done.
    eapply wp_mono; [apply segment_flush_tail_wp; [by eapply log_wf_frame|done|by rewrite Hf2..]|]. naive_solver.
  - apply segment_in_disk; [done|apply (lw_segment s1 Hs1)|lia|lia|]. rewrite length_take. lia.
  - cbn. by rewrite Hf1.
Qed.

End LogInvariant.

(** * Reading the summary back *)

Lemma splice_0 {A} (l src : list A) : splice l 0 src = src ++ drop (length src) l.
Proof. done. Qed.

(** The summary block starts with the header; the descriptions follow it when they
    fit, otherwise what was in the block before. *)
Lemma summary_layout s now blk0 blk :
  log_wf s → 0 <= now < 2 ^ 64 → is_block blk0 →
  segment_summary (c_segbuf s) now blk0 = Some blk →
  ∃ tail, blk = enc (flush_header (c_segbuf s) now) ++ tail ∧
    if infos_fit (c_segbuf s) then ∃ rest, tail = enc_array (flush_infos (c_segbuf s)) ++ rest
    else tail = drop 24 blk0.
Proof.
  intros Hs Hnow [Hl _] Hsum. rewrite segment_summary_eq in Hsum by done. apply (inj Some) in Hsum as <-.
  pose proof (flush_header_wf s now Hs Hnow) as Hh.
  assert (length (enc (flush_header (c_segbuf s) now)) = 24%nat) as Hlen by exact (length_enc _ Hh).
  cbv zeta. rewrite splice_0, Hlen. destruct (infos_fit (c_segbuf s)); [|by eauto].
  unfold splice. rewrite take_app_length' by done. eauto.
Qed.

Lemma dec_zero_info i : (i < 339)%nat → dec_at i (drop 24 zero_block) = zero_info.
Proof.
  intros Hi. unfold dec_at, zero_block. rewrite drop_drop, drop_replicate.
  cbn [dec block_info_ondisk sizeof]. unfold get_le, get_bytes.
  rewrite !drop_replicate, !take_replicate, !le_val_zeros. unfold zero_info.
  f_equal. replace (_ `min` _)%nat with 3%nat; [done|]. unfold LSFS_BLOCK_SIZE. lia.
Qed.

Lemma infos_fit_340 b : infos_fit b = (sg_block_count b <=? 340).
Proof. unfold infos_fit, LSFS_BLOCK_SIZE. zcase; symmetry; [apply Z.leb_le|apply Z.leb_gt]; lia. Qed.

(** * Sequences of operations *)

Inductive log_call :=
  | LogAppend (data : list Z) (ino offset type : Z)
  | LogFlush
  | LogCheckpoint.

Definition log_call_ok (c : log_call) : Prop :=
  match c with LogAppend data ino offset type => block_args data ino offset type | _ => True end.

Definition log_run `{E : Env} (c : log_call) : Op Z :=
  match c with
  | LogAppend data ino offset type => lsfs_segment_append_block data ino offset type
  | LogFlush => lsfs_segment_flush
  | LogCheckpoint => lsfs_checkpoint_write
  end.

Lemma after_append_frame data info s : log_frame s (after_append data info s).
Proof. done. Qed.

Lemma log_run_wp `{E : Env} c s :
  log_wf s → log_call_ok c → wp (log_run c) (λ _ s', log_wf s' ∧ log_frame s s') s.
Proof.
  intros Hs Hc. destruct c as [data ino offset type| |]; cbn [log_run log_call_ok] in *.
  - apply (segment_append_wp (λ _, True)); [done..| | |].
    { eapply wp_mono; [by apply segment_flush_wp|]. done. }
    { done. }
    intros s1 info Hs1 _ Hf1 _ _ _ Hs2. split; [done|]. eapply log_frame_trans; [exact Hf1|]. done.
  - eapply wp_mono; [by apply segment_flush_wp|]. intros r s' (? & ? & _). done.
  - by apply checkpoint_write_wp.
Qed.

(** * Initialisation *)

(** What [lsfs_segment_init] relies on: the superblock describes the image, the map
    is well-formed, and the image holds bytes. *)
Record init_ready (s : lsfs_context) : Prop := {
  ir_sb : disk_wf (c_sb s);
  ir_region : sb_active_checkpoint (c_sb s) = 0 ∨ sb_active_checkpoint (c_sb s) = 1;
  ir_segments : 0 < sb_total_segments (c_sb s) <= max_table_segments;
  ir_disk : in_disk s 0 (LSFS_LOG_START + sb_total_segments (c_sb s) * LSFS_SEGMENT_BLOCKS);
  ir_bytes b : is_block (disk_block (c_disk s) b);
  ir_imap : imap_wf (c_imap s);
  ir_imap_entries : Forall disk_wf (imap_live (c_imap s)) }.

Lemma init_ready_frame s s' : io_frame s s' → c_disk s' = c_disk s → init_ready s → init_ready s'.
Proof.
  intros Hf Hd [? ? ? ? Hb ? ?]. rewrite Hf. split; try done. intros b. cbn. rewrite Hd. apply Hb.
Qed.

Lemma concat_blocks_bytes d start n :
  (∀ b, is_block (disk_block d b)) →
  Forall is_byte (concat (disk_blocks d start n)) ∧ length (concat (disk_blocks d start n)) = (n * BS)%nat.
Proof.
  intros Hd. split.
  - apply Forall_concat, Forall_fmap, Forall_forall. intros i _. apply Hd.
  - unfold disk_blocks. generalize 0%nat. induction n as [|n IH]; intros k; [done|].
    cbn [seq]. rewrite fmap_cons. cbn [concat]. rewrite length_app, IH. destruct (Hd (start + Z.of_nat k)) as [-> _]. done.
Qed.

Lemma zero_usage_wf : disk_wf zero_usage.
Proof. cbn. unfold is_u32, is_u64. lia. Qed.

Lemma table_from_disk_wf count buf :
  0 <= count <= max_table_segments → Forall is_byte buf → length buf = (Z.to_nat LSFS_SEGTABLE_BLOCKS * BS)%nat →
  let es := table_from_disk (Z.to_nat count) buf in
  segtable_wf (mk_segment_table es count (Z.of_nat (length (filter is_free es)))).
Proof.
  intros Hn Hb Hl es. subst es. pose proof (mul_BS (Z.to_nat LSFS_SEGTABLE_BLOCKS)) as Hm.
  unfold table_from_disk, max_table_segments, LSFS_SEGTABLE_BLOCKS in *.
  rewrite Z2Nat.id in Hm by done. change LSFS_BLOCK_SIZE with 4096. cbn [sizeof segment_usage_ondisk].
  rewrite (proj2 (Z.leb_le _ _)) by lia.
  split; cbn [st_entries st_count st_free_count]; [rewrite length_dec_array; lia|lia|unfold count_free; lia|].
  apply dec_array_wf; [done|]. cbn [sizeof segment_usage_ondisk]. lia.
Qed.

Lemma count_free_empty n : count_free (replicate n zero_usage) = Z.of_nat n.
Proof.
  unfold count_free. f_equal. induction n as [|n IH]; [done|].
  cbn [replicate]. rewrite filter_cons_True by done. cbn [length]. by rewrite IH.
Qed.

Lemma empty_table_wf count :
  0 <= count <= max_table_segments →
  segtable_wf (mk_segment_table (replicate (Z.to_nat count) zero_usage) count count).
Proof.
  unfold max_table_segments. intros Hn.
  split; cbn [st_entries st_count st_free_count]; [rewrite length_replicate; lia|lia| |].
  - rewrite count_free_empty. lia.
  - apply Forall_replicate, zero_usage_wf.
Qed.

Section Init.
Context `{E : Env}.
Implicit Types s : lsfs_context.

(** What the initialisation of the log leaves alone. *)
Record start_frame s s' : Prop := {
  sf_disk : c_disk s' = c_disk s; sf_disk_size : c_disk_size s' = c_disk_size s;
  sf_imap : c_imap s' = c_imap s; sf_icache : c_icache s' = c_icache s;
  sf_readonly : c_readonly s' = c_readonly s;
  sf_sb : c_sb s' = c_sb s <| sb_free_segments := sb_free_segments (c_sb s') |> }.

Record log_started s s' : Prop := {
  ls_wf : log_wf s';
  ls_buffer : c_segbuf s' = fresh_segbuf (sg_segment_id (c_segbuf s'));
  ls_exact : exact_count (c_segtable s');
  ls_total : st_count (c_segtable s') = sb_total_segments (c_sb s');
  ls_frame : start_frame s s' }.

Lemma start_frame_refl s : start_frame s s.
Proof. split; try done. by destruct (c_sb s). Qed.

Lemma start_frame_trans s1 s2 s3 : start_frame s1 s2 → start_frame s2 s3 → start_frame s1 s3.
Proof. intros [? ? ? ? ? H1] [? ? ? ? ? H2]. split; [congruence..|]. rewrite H2 at 1. rewrite H1 at 1. done. Qed.

Lemma start_frame_read s s' : io_frame s s' → c_disk s' = c_disk s → start_frame s s'.
Proof. intros Hf Hd. split; rewrite ?Hd; try done; rewrite Hf; try done. cbn. by destruct (c_sb s). Qed.

(** The end of the initialisation: a segment is allocated for the buffer. *)
Lemma segment_init_tail_wp s :
  init_ready s → segtable_wf (c_segtable s) → exact_count (c_segtable s) →
  st_count (c_segtable s) = sb_total_segments (c_sb s) → c_segbuf s = fresh_segbuf 0 →
  wp (r ← lsfs_segment_alloc;
      _ ← match r with
          | Ok i => set_segbuf (λ b, b <| sg_segment_id := i |>)
          | Err _ => mret tt
          end;
      mret LSFS_OK) (λ _ s', log_started s s') s.
Proof.
  intros Hr Hwf Hex Hcount Hb. destruct Hr as [Hsb Hreg Hseg Hd _ Him Hime].
  pose proof (count_free_bounds (st_entries (c_segtable s))) as Hfb.
  pose proof Hwf as [Hl _ Hfc _]. unfold max_table_segments in Hseg.
  assert (∀ s', c_segbuf s' = fresh_segbuf (sg_segment_id (c_segbuf s')) →
    c_imap s' = c_imap s → c_disk_size s' = c_disk_size s → disk_wf (c_sb s') →
    sb_active_checkpoint (c_sb s') = sb_active_checkpoint (c_sb s) →
    segtable_wf (c_segtable s') → st_count (c_segtable s') = st_count (c_segtable s) →
    0 <= sg_segment_id (c_segbuf s') < st_count (c_segtable s) →
    exact_count (c_segtable s') →
    free_at (st_entries (c_segtable s')) (sg_segment_id (c_segbuf s')) = false →
    start_frame s s' → log_started s s') as Hgoal.
  { intros s' Hb' Him' Hds Hsb' Ha Ht Hc Hid Hex' Hf Hfr. rewrite Hcount in Hid.
    split; [|done|done|rewrite Hc, Hcount, (sf_sb _ _ Hfr); done|done].
    split; rewrite ?Him', ?Hc, ?Hcount, ?Ha; try assumption.
    all: try (rewrite Hb'; cbn [fresh_segbuf sg_data sg_block_info sg_block_count]).
    - unfold max_table_segments. lia.
    - apply length_replicate.
    - apply Forall_replicate, zero_block_is_block.
    - apply length_replicate.
    - apply Forall_replicate. cbn. unfold is_u32, is_u8, is_bytes.
      split_and!; [lia..|done|]. repeat constructor; unfold is_byte; lia.
    - unfold LSFS_SEGMENT_BLOCKS. lia.
    - unfold in_disk in *. by rewrite Hds. }
  wp_step. eapply wp_mono; [by apply segment_alloc_spec|]. unfold set_segbuf. intros [i|e] s'.
  - intros (Hpos & Hi & -> & (e & He & Hf) & _). wp_steps.
    apply Hgoal; try done; cbn [c_segbuf field_set sg_segment_id after_alloc with_free_count with_entry ticked c_segtable].
    + by rewrite Hb.
    + apply (sb_free_segments_wf (c_sb s)); [done|]. unfold is_u64. lia.
    + by eapply after_alloc_wf; [done|done|done|lia|].
    + eapply (exact_count_entry _ _ e); [exact Hex|exact He|]. rewrite Hf. cbn. lia.
    + cbn. erewrite free_at_alter by (done || lia). by rewrite decide_True.
  - intros (-> & -> & Hnone). wp_steps. apply Hgoal; try done; [..|apply start_frame_refl]; rewrite Hb; cbn.
    + done.
    + lia.
    + unfold free_at. destruct (arr_get _ 0) as [e0|] eqn:He0; [|done].
      apply arr_get_lookup in He0 as [_ He0]. rewrite Hex in Hnone. apply count_free_zero in Hnone.
      by apply (Forall_lookup_1 _ _ _ _ Hnone He0).
Qed.

Lemma segment_init_wp s :
  init_ready s → wp lsfs_segment_init (λ r s', r = LSFS_OK → log_started s s') s.
Proof.
  intros Hr. pose proof (ir_segments s Hr) as Hseg. pose proof (ir_disk s Hr) as Hdisk.
  unfold max_table_segments in Hseg.
  unfold lsfs_segment_init, lsfs_segment_buffer_init, lsfs_segment_buffer_destroy, set_segbuf, set_segtable.
  do 3 wp_step. rewrite u32_small by lia. wp_step. eapply wp_intro; [done|]. cbv beta.
  destruct (env_alloc _); cbn [negb]; [|wp_steps; cbn [Z.eqb negb]; by apply wp_ret].
  wp_step. eapply wp_intro; [done|]. cbv beta.
  destruct (env_alloc _); cbn [negb]; [|wp_steps; cbn [Z.eqb negb]; by apply wp_ret].
  wp_step. eapply wp_intro; [done|]. cbv beta.
  destruct (env_alloc _); cbn [negb]; [|wp_steps; cbn [Z.eqb negb]; by apply wp_ret].
  wp_steps. cbn [Z.eqb LSFS_OK negb]. wp_step. eapply wp_intro; [done|]. cbv beta.
  destruct (env_alloc _); cbn [negb]; [|by wp_steps].
  do 3 wp_step. eapply wp_intro; [done|]. cbv beta.
  destruct (env_alloc _); cbn [negb]; [|by wp_steps].
  wp_step. eapply wp_intro; [done|]. cbv beta.
  destruct (env_alloc _); cbn [negb]; [|by wp_steps].
  wp_step. match goal with |- wp _ _ ?x => set (s1 := x) end.
  assert (init_ready s1) as Hr1 by (destruct Hr; by split).
  eapply wp_mono; [apply (read_blocks_frame s1), in_disk_addressable|].
  { unfold in_disk, LSFS_LOG_START, LSFS_SEGMENT_BLOCKS, LSFS_BLOCK_SIZE, LSFS_SEGTABLE_START,
      LSFS_SEGTABLE_BLOCKS in *. cbn. lia. }
  intros r s2 (Hf & Hcase & Hd). pose proof (init_ready_frame _ _ Hf Hd Hr1) as Hr2.
  assert (c_segbuf s2 = fresh_segbuf 0 ∧ c_sb s2 = c_sb s) as [Hb Hsb] by by rewrite Hf.
  assert (start_frame s s2) as Hsf.
  { apply (start_frame_trans s s1); [|by apply start_frame_read]. split; try done. cbn; by destruct (c_sb s). }
  assert (∀ (m : Op Z) s3, start_frame s2 s3 → wp m (λ _ s', log_started s3 s') s3 →
    wp m (λ r s', r = LSFS_OK → log_started s s') s3) as Hend.
  { intros m s3 Hsf3 H. eapply wp_mono; [exact H|]. intros x s' [? ? ? ? Hfr] _. split; try done.
    eapply start_frame_trans; [exact Hsf|]. by eapply start_frame_trans. }
  destruct Hcase as [-> | ->].
  - do 2 wp_step. apply Hend; [split; try done; cbn; by destruct (c_sb s2)|].
    apply segment_init_tail_wp; [destruct Hr2; by split|apply table_from_disk_wf|done| |done].
    + unfold max_table_segments. lia.
    + by apply concat_blocks_bytes, (ir_bytes s1).
    + by apply concat_blocks_bytes, (ir_bytes s1).
    + cbn. by rewrite Hsb.
  - do 2 wp_step. apply Hend; [apply start_frame_refl|].
    assert (c_segtable s2 = mk_segment_table (replicate (Z.to_nat (sb_total_segments (c_sb s))) zero_usage)
      (sb_total_segments (c_sb s)) (sb_total_segments (c_sb s))) as Ht by by rewrite Hf.
    apply segment_init_tail_wp; [exact Hr2|rewrite Ht; apply empty_table_wf| |by rewrite Ht, Hsb|exact Hb].
    + unfold max_table_segments. lia.
    + rewrite Ht. unfold exact_count. cbn [st_free_count st_entries]. rewrite count_free_empty. lia.
Qed.
End Init.

(** * Theorems *)

(** C28. The mutual recursion of flush and checkpoint has depth one: every amount of fuel
    from one on gives the same result, from every state and in every environment. *)
Theorem flush_recursion_bounded `{E : Env} n s :
  segment_flush_fuel (S n) s = lsfs_segment_flush s ∧
  checkpoint_write_body (segment_flush_fuel (S n)) s = lsfs_checkpoint_write s.
Proof.
  split; [by rewrite segment_flush_eq, segment_flush_fuel_1|].
  unfold lsfs_checkpoint_write, checkpoint_write_body. apply bind_ext. intros p s' _.
  unfold if_ok, mbind, M_bind. destruct (1 <? p); [|done].
  by rewrite segment_flush_eq, segment_flush_fuel_1.
Qed.

(** C14. In every environment (failing and short writes, failing syncs and allocations, any
    clock) every sequence of appends, flushes and checkpoints runs without undefined
    behaviour and to its end, keeps the invariant of the log and changes neither the
    inode map nor the caches. *)
Theorem log_operations_safe `{E : Env} (cs : list log_call) s :
  log_wf s → Forall log_call_ok cs →
  wp (for_each cs (λ c, _ ← log_run c; mret tt)) (λ _ s', log_wf s' ∧ log_frame s s') s.
Proof.
  intros Hs Hcs.
  eapply (wp_for_each cs _ (λ l s', Forall log_call_ok l ∧ log_wf s' ∧ log_frame s s')); [done| |].
  - intros c l s1 (Hc & Hs1 & Hf1). apply Forall_cons in Hc as [Hc Hl]. wp_step.
    eapply wp_mono; [by apply log_run_wp|]. intros r s2 [Hs2 Hf2]. apply wp_ret.
    split_and!; [done..|by eapply log_frame_trans].
  - by intros s1 (_ & Hs1 & Hf1).
Qed.

(** What is appended can be read back: when the append gives an address and the flush
    reports success, the block is on disk at that address, and a read of it returns
    the data or an I/O error of the device, never anything else. *)
Theorem append_flush_read `{E : Env} s data ino offset type :
  log_wf s → block_args data ino offset type →
  wp (lsfs_segment_append_block data ino offset type) (λ addr s1, addr ≠ 0 →
    wp lsfs_segment_flush (λ r s2, r = LSFS_OK →
      wp (lsfs_read_block addr) (λ got _, got = Ok data ∨ got = Err LSFS_ERR_IO) s2) s1) s.
Proof.
  intros Hs Hargs. apply (segment_append_wp (λ _, True)); [done..| |by intros s' _ _ _ _ []|].
  { eapply wp_mono; [by apply segment_flush_wp|]. done. }
  intros s1 info Hs1 _ Hf1 Hlt _ _ Hs2 _. set (s2 := after_append _ _ _) in *.
  pose proof (lw_count s1 Hs1) as Hc1. pose proof (lw_segment s1 Hs1) as Hseg.
  pose proof (lw_data_length s1 Hs1) as Hlen. pose proof (st_wf_count _ (lw_table s1 Hs1)) as Hst.
  unfold seg_blocks_nat, LSFS_SEGMENT_BLOCKS in *.
  eapply wp_mono; [by apply segment_flush_wp|]. intros r s3 (Hs3 & Hf3 & Hpost) Hr.
  destruct (Hpost Hr) as [_ (now & blk0 & blk & _ & _ & _ & [Hin _] & _)]; [cbn; lia|].
  set (idx := sg_block_count (c_segbuf s1)) in *.
  assert (lsfs_segment_to_block (sg_segment_id (c_segbuf s1)) idx =
    lsfs_segment_to_block (sg_segment_id (c_segbuf s2)) 0 + Z.of_nat (Z.to_nat idx)) as Haddr.
  { cbn. rewrite !segment_to_block_eq by (unfold valid_segment; lia). lia. }
  assert (disk_block (c_disk s3) (lsfs_segment_to_block (sg_segment_id (c_segbuf s1)) idx) = data) as Hd.
  { rewrite Haddr. apply Hin; [cbn; lia|]. rewrite list_lookup_insert_ne by lia. cbn.
    apply list_lookup_insert_eq. lia. }
  eapply wp_mono; [apply read_block_frame, in_disk_addressable, segment_in_disk|];
    [done|rewrite (lf_st_count _ _ Hf3); exact Hseg|lia..|unfold LSFS_SEGMENT_BLOCKS; lia|].
  intros got s4 (_ & Hgot & _). by rewrite Hd in Hgot.
Qed.

(** The summary of a flushed segment: its first block on disk decodes to the header
    (magic, segment, number of blocks); the descriptions of the blocks follow it
    exactly when the segment holds at most 340 blocks, and a fuller segment, a full
    one in particular, carries only empty descriptions. *)
Theorem flush_summary_readback `{E : Env} s :
  log_wf s → sg_data (c_segbuf s) !! 0%nat = Some zero_block → 1 < sg_block_count (c_segbuf s) →
  wp lsfs_segment_flush (λ r s', r = LSFS_OK →
    let b := c_segbuf s in
    let summary := disk_block (c_disk s') (lsfs_segment_to_block (sg_segment_id b) 0) in
    (∃ now, dec summary =
       mk_segment_header LSFS_SEGMENT_MAGIC (sg_segment_id b) now (sg_block_count b) 0) ∧
    (sg_block_count b <= 340 → ∀ (i : nat) info, (1 <= i < Z.to_nat (sg_block_count b))%nat →
       sg_block_info b !! i = Some info →
       dec_at (i - 1) (drop (sizeof lsfs_segment_header) summary) = info) ∧
    (340 < sg_block_count b → ∀ i : nat, (i < 339)%nat →
       dec_at i (drop (sizeof lsfs_segment_header) summary) = zero_info)) s.
Proof.
  intros Hs H0 Hc. eapply wp_mono; [by apply segment_flush_wp|]. intros r s' (Hs' & Hf & Hpost) Hr.
  destruct (Hpost Hr) as [_ (now & blk0 & blk & Hstamp & Hb0 & Hsum & [Hin _] & _)]; [done|].
  assert (0 <= now < 2 ^ 64) as Hnow by (rewrite Hstamp; apply u64_range). clear Hstamp.
  rewrite H0 in Hb0. apply (inj Some) in Hb0 as <-. pose proof (lw_data_length s Hs) as Hlen.
  unfold seg_blocks_nat, LSFS_SEGMENT_BLOCKS in Hlen.
  assert (disk_block (c_disk s') (lsfs_segment_to_block (sg_segment_id (c_segbuf s)) 0) = blk) as Hd.
  { rewrite <-(Hin 0%nat blk); [f_equal; lia|lia|]. apply list_lookup_insert_eq. lia. }
  cbv zeta. rewrite Hd. clear Hd Hin.
  destruct (summary_layout s now _ blk Hs Hnow zero_block_is_block Hsum) as (tail & -> & Htail).
  pose proof (flush_header_wf s now Hs Hnow) as Hh. rewrite drop_app_length' by exact (length_enc _ Hh).
  rewrite infos_fit_340 in Htail. destruct (flush_infos_facts s Hs) as [Hil Hiw].
  split_and!.
  - exists now. by apply dec_enc.
  - intros Hle i info Hi Hinfo. rewrite (proj2 (Z.leb_le _ _) Hle) in Htail.
    destruct Htail as [rest ->]. apply dec_at_enc; [done|].
    unfold flush_infos, slice. rewrite lookup_take_lt by lia. rewrite lookup_drop.
    rewrite <-Hinfo. f_equal. lia.
  - intros Hgt i Hi. rewrite (proj2 (Z.leb_gt _ _) Hgt) in Htail. subst tail. by apply dec_zero_info.
Qed.

(** Mounting: in every environment [lsfs_segment_init] ends without undefined
    behaviour, and when it reports success the log invariant holds, whether the usage
    table could be read or not and whether a free segment was left or not. *)
Theorem segment_init_establishes `{E : Env} s :
  init_ready s → wp lsfs_segment_init (λ r s', r = LSFS_OK → log_wf s') s.
Proof.
  intros Hr. eapply wp_mono; [by apply segment_init_wp|]. intros r s' H Hok. apply (H Hok).
Qed.
