(* ===== verification/Checkpoint.v ===== *)
(** Loading a checkpoint and rolling the log forward, [src/checkpoint.c] lines
    17-27 and 164-299, and the crash behaviour of writing one. *)
From Stdlib Require Import Sorting.Sorted.
From S2P Require Import Prelude OnDisk Lru Context Io Imap SegTable Log.

Section CheckpointOps.
Context `{E : Env}.

Definition lsfs_checkpoint_init : Op Z :=
  now ← time_now;
  _ ← modify (λ s, s <| c_checkpoint_seq := 0 |> <| c_last_checkpoint := now |>
                     <| c_writes_since_checkpoint := 0 |>);
  mret LSFS_OK.

(** The test that makes a header a candidate. *)
Definition header_valid (h : lsfs_checkpoint_header) : bool :=
  (ch_magic h =? LSFS_CHECKPOINT_MAGIC) && (ch_complete h =? 1).

(** Reading [header[i]]: [None] when the read fails or the header is not valid.
    The block read is larger than the header; only the header's bytes matter. *)
Definition load_header (cp_block : Z) : Op (option lsfs_checkpoint_header) :=
  r ← lsfs_read_block cp_block;
  mret (match r with
        | Ok blk => let h := dec blk in if header_valid h then Some h else None
        | Err _ => None
        end).

(** The candidate with the higher sequence number, and its region. *)
Definition best_header (h0 h1 : option lsfs_checkpoint_header)
    : option (Z * lsfs_checkpoint_header) :=
  match h0, h1 with
  | Some h0, Some h1 => Some (if ch_sequence h1 <? ch_sequence h0 then (0, h0) else (1, h1))
  | Some h0, None => Some (0, h0)
  | None, Some h1 => Some (1, h1)
  | None, None => None
  end.

Definition lsfs_checkpoint_load : Op Z :=
  h0 ← load_header LSFS_CHECKPOINT0_START;
  h1 ← load_header LSFS_CHECKPOINT1_START;
  match best_header h0 h1 with
  | None => mret LSFS_ERR_CORRUPT
  | Some (best, header) =>
      lsfs_imap_load (u64 (region_start best + 1)) (ch_imap_entries header) ;?
      (_ ← modify (λ s, s <| c_checkpoint_seq := ch_sequence header |>
                          <| c_last_checkpoint := ch_timestamp header |>
                          <| c_sb ::= λ sb, sb <| sb_log_head := ch_log_head header |>
                                               <| sb_active_checkpoint := best |> |>);
       mret LSFS_OK)
  end.

Definition max_summary_entries : Z :=
  (LSFS_BLOCK_SIZE - Z.of_nat (sizeof lsfs_segment_header)) / Z.of_nat (sizeof lsfs_block_info).

(** The descriptions the roll-forward looks at: at most as many as fit in a block. *)
Definition summary_entries (block_count : Z) : Z :=
  Z.min (u32 (block_count - 1)) max_summary_entries.

(** The inode blocks of a segment enter the map; a failure to do so is ignored. *)
Definition replay_info (seg_start : Z) (summary : list Z) (i : Z) : Op () :=
  let info := dec_at (Z.to_nat i) (drop (sizeof lsfs_segment_header) summary) : lsfs_block_info in
  if (bi_type info =? LSFS_BLOCK_TYPE_INODE) && (0 <? bi_ino info)
  then _ ← lsfs_imap_set (bi_ino info) (u64 (seg_start + i + 1)); mret tt
  else mret tt.

(** One round of the roll-forward loop; [false] when the loop ends here. *)
Definition recover_segment (seg : Z) : Op bool :=
  let seg_start := lsfs_segment_to_block seg 0 in
  r ← lsfs_read_block seg_start;
  match r with
  | Err _ => mret false
  | Ok blk =>
      let hdr := dec blk : lsfs_segment_header in
      if negb (sh_magic hdr =? LSFS_SEGMENT_MAGIC) then mret false else
      last ← gets c_last_checkpoint;
      if sh_timestamp hdr <? last then mret false else
      r ← lsfs_read_block seg_start;
      match r with
      | Err _ => mret false
      | Ok summary =>
          _ ← for_each (seqZ 0 (summary_entries (sh_block_count hdr))) (replay_info seg_start summary);
          _ ← set_sb (λ sb, sb <| sb_log_head := u64 (seg_start + sh_block_count hdr) |>);
          _ ← usage_update seg (mark_full (u32 (sh_block_count hdr - 1)) (sh_timestamp hdr));
          _ ← modify (λ s, s <| c_segtable ::= λ t,
                if 0 <? st_free_count t then t <| st_free_count ::= Z.pred |> else t |>);
          mret true
      end
  end.

Fixpoint roll_forward (segs : list Z) : Op () :=
  match segs with
  | [] => mret tt
  | seg :: segs =>
      continue ← recover_segment seg;
      if (continue : bool) then roll_forward segs else mret tt
  end.

Definition lsfs_checkpoint_recover : Op Z :=
  lsfs_checkpoint_load ;?
  (log_head ← gets (λ s, sb_log_head (c_sb s));
   let '(segment_id, _) := lsfs_block_to_segment log_head in
   total ← gets (λ s, sb_total_segments (c_sb s));
   _ ← roll_forward (seqZ segment_id (total - segment_id));
   lsfs_checkpoint_write).
End CheckpointOps.

(** * What a region of the disk holds *)

Definition header_at (d : gmap Z (list Z)) (r : Z) : lsfs_checkpoint_header :=
  dec (disk_block d (region_start r)).

(** Region [r] of disk [d] is a complete checkpoint with header [h] and map [l]. *)
Record region_holds (d : gmap Z (list Z)) (r : Z) (h : lsfs_checkpoint_header)
    (l : list lsfs_imap_entry) : Prop := {
  rh_header : header_at d r = h;
  rh_valid : header_valid h = true;
  rh_count : ch_imap_entries h = Z.of_nat (length l);
  rh_length : Z.of_nat (length l) <= 65280;
  rh_entries : Forall disk_wf l;
  rh_sorted : StronglySorted by_ino l;
  rh_image : ∃ rest,
    concat (disk_blocks d (region_start r + 1)
      (Z.to_nat (imap_blocks_needed (Z.of_nat (length l))))) = enc_array l ++ rest }.

(** The other region is not a candidate, or an older one. *)
Definition other_older (d : gmap Z (list Z)) (r : Z) (seq : Z) : Prop :=
  header_valid (header_at d (1 - r)) = true → ch_sequence (header_at d (1 - r)) < seq.

(** Mounting [d] uses the checkpoint with header [h] and map [l] of region [r]. *)
Definition recovers_to (d : gmap Z (list Z)) (r : Z) (h : lsfs_checkpoint_header)
    (l : list lsfs_imap_entry) : Prop :=
  (r = 0 ∨ r = 1) ∧ region_holds d r h l ∧ other_older d r (ch_sequence h).

Definition loaded_imap (im : lsfs_imap) (l : list lsfs_imap_entry) : lsfs_imap :=
  mk_imap (l ++ drop (length l) (imap_entries im))
    (Z.max (Z.of_nat (length l)) (imap_capacity im)) (Z.of_nat (length l)) (highest_ino l).

Section CheckpointLoad.
Context `{E : Env, !Healthy E}.
Implicit Types s : lsfs_context.

Definition candidate (h : lsfs_checkpoint_header) : option lsfs_checkpoint_header :=
  if header_valid h then Some h else None.

Lemma load_header_run s r :
  in_disk s 0 LSFS_LOG_START →
  load_header (region_start r) s = Some (candidate (header_at (c_disk s) r), ticked s).
Proof using Type*.
  intros Hd. unfold load_header. rewrite (bind_run _ _ _ _ _ (read_block_ok s (region_start r)
    ltac:(pose proof (region_start_bounds r); unfold in_disk, LSFS_LOG_START, LSFS_BLOCK_SIZE,
            LSFS_SEGTABLE_START in *; lia))). done.
Qed.

Lemma best_header_recovers d r h l :
  recovers_to d r h l →
  best_header (candidate (header_at d 0)) (candidate (header_at d 1)) = Some (r, h).
Proof using Type.
  intros ([-> | ->] & [Hh Hv _ _ _ _ _] & Ho); unfold other_older in Ho;
    [change (1 - 0) with 1 in Ho|change (1 - 1) with 0 in Ho];
    rewrite Hh; unfold candidate; rewrite Hv; case_match eqn:Hother; try done;
    specialize (Ho eq_refl); cbn [best_header]; zcase; (done || lia).
Qed.

(** The context after loading. *)
Definition after_load (r : Z) (h : lsfs_checkpoint_header) (l : list lsfs_imap_entry) s : lsfs_context :=
  s <| c_tick ::= λ t, (5 + t)%nat |> <| c_imap ::= λ im, loaded_imap im l |>
    <| c_checkpoint_seq := ch_sequence h |> <| c_last_checkpoint := ch_timestamp h |>
    <| c_sb ::= λ sb, sb <| sb_log_head := ch_log_head h |> <| sb_active_checkpoint := r |> |>.

Lemma checkpoint_load_run s r h l :
  in_disk s 0 LSFS_LOG_START → recovers_to (c_disk s) r h l →
  lsfs_checkpoint_load s = Some (LSFS_OK, after_load r h l s).
Proof using Type*.
  intros Hd Hrec. pose proof Hrec as (_ & [_ _ Hcount Hlen Hwf _ [rest Himg]] & _).
  unfold lsfs_checkpoint_load. erewrite bind_run by by apply (load_header_run s 0).
  erewrite bind_run by by apply (load_header_run (ticked s) 1).
  change (c_disk (ticked s)) with (c_disk s). rewrite (best_header_recovers _ _ _ _ Hrec).
  pose proof (region_start_bounds r) as [Hr0 Hr1]. unfold LSFS_SEGTABLE_START in Hr1.
  pose proof (imap_blocks_needed_max (Z.of_nat (length l)) ltac:(lia)) as Hmax.
  pose proof (imap_blocks_needed_bounds (Z.of_nat (length l)) ltac:(lia)) as Hb.
  unfold LSFS_CHECKPOINT0_BLOCKS in Hmax. unfold if_ok. rewrite u64_small, Hcount by lia.
  erewrite bind_run by (eapply imap_load_run; [lia|done| |exact Himg];
    unfold in_disk, LSFS_LOG_START, LSFS_BLOCK_SIZE in *; cbn; lia). done.
Qed.
End CheckpointLoad.
