(* ===== verification/Crash.v ===== *)
(** Crashes while a checkpoint is written.  The disk has a volatile write cache: a
    block written since the last completed [fsync] may or may not survive a crash,
    independently of the others; blocks are written atomically.  Whatever survives,
    the next mount finds the old checkpoint or the new one. *)
From Stdlib Require Import Sorting.Sorted.
From S2P Require Import Prelude OnDisk Lru Context Io Imap SegTable Log Checkpoint.

(** * The disk with its write cache *)

Definition disk : Type := gmap Z (list Z).

(** What survives for certain, and the writes that may survive, oldest first. *)
Record cache := mk_cache { durable : disk; pending : list (Z * list Z) }.

Definition cache_step (c : cache) (e : io_event) : cache :=
  match e with
  | IoWrite b blk => mk_cache (durable c) (pending c ++ [(b, blk)])
  | IoSync => mk_cache (apply_updates (durable c) (pending c)) []
  end.

Definition cache_run (c : cache) (tr : list io_event) : cache := foldl cache_step c tr.

(** The disk without a crash. *)
Definition cache_disk (c : cache) : disk := apply_updates (durable c) (pending c).

(** A disk image that a crash now can leave: some of the pending writes are lost. *)
Definition crash_image (c : cache) (d : disk) : Prop :=
  ∃ us, us `sublist_of` pending c ∧ d = apply_updates (durable c) us.

(** [R] holds of the image after a crash at any moment of the trace. *)
Fixpoint crash_safe (c : cache) (tr : list io_event) (R : disk → Prop) : Prop :=
  (∀ d, crash_image c d → R d) ∧
  match tr with
  | [] => True
  | e :: tr => crash_safe (cache_step c e) tr R
  end.

(** Writes are atomic by block: a transfer that stops early stops between blocks. *)
Class BlockAtomic (E : Env) : Prop :=
  block_atomic t n : env_pwrite t = Some n → n <= 0 ∨ (LSFS_BLOCK_SIZE | n).

#[export] Instance healthy_block_atomic (E : Env) : Healthy E → BlockAtomic E.
Proof. intros HE t n Hn. by rewrite healthy_pwrite in Hn. Qed.

(** ** Facts *)

Definition replay (d : disk) (tr : list io_event) : disk :=
  foldl (λ d e, match e with IoWrite b blk => <[b := blk]> d | IoSync => d end) d tr.

Lemma apply_updates_app d us1 us2 :
  apply_updates d (us1 ++ us2) = apply_updates (apply_updates d us1) us2.
Proof. apply foldl_app. Qed.

Lemma replay_app d tr1 tr2 : replay d (tr1 ++ tr2) = replay (replay d tr1) tr2.
Proof. apply foldl_app. Qed.

Lemma replay_writes d us : replay d ((λ u, IoWrite u.1 u.2) <$> us) = apply_updates d us.
Proof. revert d. induction us as [|[b blk] us IH]; intros d; [done|]. cbn. apply IH. Qed.

Lemma cache_disk_run c tr : cache_disk (cache_run c tr) = replay (cache_disk c) tr.
Proof.
  revert c. induction tr as [|[b blk|] tr IH]; intros c; [done|..]; cbn; rewrite IH; [|done].
  unfold cache_disk. cbn. by rewrite apply_updates_app.
Qed.

Lemma cache_run_app c tr1 tr2 : cache_run c (tr1 ++ tr2) = cache_run (cache_run c tr1) tr2.
Proof. apply foldl_app. Qed.

Lemma crash_safe_app c tr1 tr2 R :
  crash_safe c tr1 R → crash_safe (cache_run c tr1) tr2 R → crash_safe c (tr1 ++ tr2) R.
Proof.
  revert c. induction tr1 as [|e tr1 IH]; intros c; [done|].
  intros [H1 H2] H3. split; [done|]. by apply IH.
Qed.

(** An invariant of the cache that every event of the trace keeps. *)
Lemma crash_safe_invariant (I : cache → Prop) (ok : io_event → Prop) (R : disk → Prop) c tr :
  (∀ c d, I c → crash_image c d → R d) → (∀ c e, I c → ok e → I (cache_step c e)) →
  I c → Forall ok tr → crash_safe c tr R ∧ I (cache_run c tr).
Proof.
  intros HR Hstep HI Htr. revert c HI. induction Htr as [|e tr He Htr IH]; intros c HI.
  { split; [|done]. split; [|done]. intros d. by apply HR. }
  destruct (IH (cache_step c e)) as [Hs HI']; [by apply Hstep|].
  split; [|done]. split; [|done]. intros d. by apply HR.
Qed.

(** A block of a crash image has its durable contents or a pending one. *)
Lemma updates_block d us b :
  disk_block (apply_updates d us) b = disk_block d b ∨ (b, disk_block (apply_updates d us) b) ∈ us.
Proof.
  induction us as [|[b' blk] us IH] using rev_ind; [by left|].
  rewrite apply_updates_app. cbn [apply_updates foldl fst snd]. rewrite disk_block_insert.
  case_decide as Hb.
  - right. subst. set_solver.
  - destruct IH as [IH|IH]; [by left|right]. set_solver.
Qed.

Lemma crash_image_block c d b :
  crash_image c d → disk_block d b = disk_block (durable c) b ∨ (b, disk_block d b) ∈ pending c.
Proof.
  intros (us & Hsub & ->). destruct (updates_block (durable c) us b) as [H|H]; [by left|right].
  by eapply elem_of_sublist.
Qed.

Lemma crash_image_full c : crash_image c (cache_disk c).
Proof. by exists (pending c). Qed.

(** * The two phases of a checkpoint *)

Definition in_region (r b : Z) : Prop := region_start r <= b < region_start r + LSFS_CHECKPOINT0_BLOCKS.

(** The bounds of the two regions. *)
Lemma region_starts r :
  r = 0 ∨ r = 1 →
  (region_start r = 1 ∧ region_start (1 - r) = 257) ∨ (region_start r = 257 ∧ region_start (1 - r) = 1).
Proof. intros [-> | ->]; [left|right]; done. Qed.

Lemma regions_disjoint r b : r = 0 ∨ r = 1 → in_region r b → ¬ in_region (1 - r) b.
Proof.
  intros Hr%region_starts. unfold in_region, LSFS_CHECKPOINT0_BLOCKS. lia.
Qed.

(** A region only depends on its own blocks. *)
Lemma region_holds_ext d d' r h l :
  (∀ b, in_region r b → disk_block d' b = disk_block d b) →
  region_holds d r h l → region_holds d' r h l.
Proof.
  intros Hext [Hh Hv Hc Hlen Hwf Hsort [rest Himg]].
  pose proof (imap_blocks_needed_max (Z.of_nat (length l)) ltac:(lia)) as Hmax.
  pose proof (imap_blocks_needed_bounds (Z.of_nat (length l)) ltac:(lia)) as Hb.
  unfold in_region, LSFS_CHECKPOINT0_BLOCKS in *.
  split; try done.
  - unfold header_at in *. rewrite Hext by lia. done.
  - exists rest. rewrite <-Himg. f_equal. apply disk_blocks_ext. intros b Hin. apply Hext. lia.
Qed.

(** Nothing but the regions decides which checkpoint is used. *)
Lemma recovers_ext d d' r h l :
  (∀ b, 1 <= b → disk_block d' b = disk_block d b) → recovers_to d r h l → recovers_to d' r h l.
Proof.
  intros Hext (Hr & Hh & Ho). pose proof (region_starts r Hr) as H1. pose proof (region_starts (1 - r) ltac:(lia)) as H2.
  split_and!; [done| |].
  - eapply region_holds_ext; [|exact Hh]. intros b [Hb _]. apply Hext. lia.
  - unfold other_older, header_at in *. by rewrite Hext by lia.
Qed.

Section Phases.
(** The region in use with its checkpoint [(h, l)], and the new one [(h', l')]. *)
Context (a : Z) (h h' : lsfs_checkpoint_header) (l l' : list lsfs_imap_entry).
Context (Ha : a = 0 ∨ a = 1).

(** Phase one: nothing of region [a] is pending and what is pending for the other
    header is no candidate, or an older one. *)
Definition phase1_update (b : Z) (blk : list Z) : Prop :=
  ¬ in_region a b ∧
  (b = region_start (1 - a) → header_valid (dec blk) = true → ch_sequence (dec blk) < ch_sequence h).

Definition phase1_event (e : io_event) : Prop :=
  match e with IoWrite b blk => phase1_update b blk | IoSync => True end.

Definition phase1 (c : cache) : Prop :=
  (∀ b blk, (b, blk) ∈ pending c → phase1_update b blk) ∧ recovers_to (durable c) a h l.

Lemma phase1_image c d : phase1 c → crash_image c d → recovers_to d a h l.
Proof.
  intros [Hp (_ & Hr & Ho)] Hd. split_and!; [done|..].
  - eapply region_holds_ext; [|exact Hr]. intros b Hb.
    destruct (crash_image_block c d b Hd) as [H|H]; [done|]. by destruct (Hp _ _ H).
  - unfold other_older, header_at in *.
    destruct (crash_image_block c d (region_start (1 - a)) Hd) as [-> | H]; [done|].
    destruct (Hp _ _ H) as [_ Hold]. by apply Hold.
Qed.

Lemma phase1_step c e : phase1 c → phase1_event e → phase1 (cache_step c e).
Proof.
  intros Hc He. pose proof Hc as [Hp Hr]. destruct e as [b blk|]; split; cbn.
  - intros b' blk'. rewrite elem_of_app, list_elem_of_singleton.
    intros [Hin|[= -> ->]]; [by apply Hp|exact He].
  - exact Hr.
  - intros b blk Hin. by apply not_elem_of_nil in Hin.
  - apply (phase1_image c); [done|]. apply crash_image_full.
Qed.

(** Phase two: the map of the new checkpoint is durable, its header may follow. *)
Definition phase2_update (b : Z) (blk : list Z) : Prop :=
  ¬ in_region a b ∧ (in_region (1 - a) b → b = region_start (1 - a) ∧ blk = header_block h').

Definition phase2_event (e : io_event) : Prop :=
  match e with IoWrite b blk => phase2_update b blk | IoSync => True end.

Record phase2 (c : cache) : Prop := {
  p2_pending b blk : (b, blk) ∈ pending c → phase2_update b blk;
  p2_old : region_holds (durable c) a h l;
  p2_header : disk_block (durable c) (region_start (1 - a)) = header_block h' ∨
              header_valid (header_at (durable c) (1 - a)) = false;
  p2_new : region_holds (<[region_start (1 - a) := header_block h']> (durable c)) (1 - a) h' l' }.

Context (Hseq : ch_sequence h < ch_sequence h').

Lemma phase2_blocks c d b :
  phase2 c → crash_image c d → b ≠ region_start (1 - a) → in_region a b ∨ in_region (1 - a) b →
  disk_block d b = disk_block (durable c) b.
Proof using Ha.
  intros [Hp _ _ _] Hd Hb Hin. destruct (crash_image_block c d b Hd) as [H|H]; [done|].
  destruct (Hp _ _ H) as [Hna Hn]. destruct Hin as [Hin|Hin]; [done|]. by destruct (Hn Hin).
Qed.

Lemma header_not_in_old : ¬ in_region a (region_start (1 - a)).
Proof using Ha.
  pose proof (region_starts a Ha). unfold in_region, LSFS_CHECKPOINT0_BLOCKS. lia.
Qed.

(** The old checkpoint stays. *)
Lemma phase2_old c d : phase2 c → crash_image c d → region_holds d a h l.
Proof using Ha.
  intros Hc Hd. eapply region_holds_ext; [|exact (p2_old c Hc)]. intros b Hb.
  eapply phase2_blocks; [done..|intros ->; by apply header_not_in_old|by left].
Qed.

Lemma phase2_image c d :
  phase2 c → crash_image c d → recovers_to d a h l ∨ recovers_to d (1 - a) h' l'.
Proof using Ha Hseq.
  intros Hc Hd. pose proof Hc as [Hp Hold Hhead Hnew].
  pose proof (phase2_old c d Hc Hd) as Hold'.
  assert (disk_block d (region_start (1 - a)) = header_block h' ∨
          header_valid (header_at d (1 - a)) = false) as [Hd'|Hd'].
  { unfold header_at in *. destruct (crash_image_block c d (region_start (1 - a)) Hd) as [-> | H]; [done|].
    left. destruct (Hp _ _ H) as [_ Hn]. apply Hn.
    unfold in_region, LSFS_CHECKPOINT0_BLOCKS. lia. }
  - right. split_and!; [lia| |].
    + eapply region_holds_ext; [|exact Hnew]. intros b Hb. rewrite disk_block_insert.
      case_decide as Heq; [by subst b|]. eapply phase2_blocks; [done..|by right].
    + unfold other_older. replace (1 - (1 - a)) with a by lia. intros _.
      by rewrite (rh_header _ _ _ _ Hold').
  - left. split_and!; [done..|]. unfold other_older. congruence.
Qed.

Lemma phase2_step c e : phase2 c → phase2_event e → phase2 (cache_step c e).
Proof using Ha.
  intros Hc He. pose proof Hc as [Hp Hold Hhead Hnew]. destruct e as [b blk|]; split; cbn; try done.
  - intros b' blk'. rewrite elem_of_app, list_elem_of_singleton.
    intros [Hin|[= -> ->]]; [by apply Hp|exact He].
  - intros b blk Hin. by apply not_elem_of_nil in Hin.
  - eapply region_holds_ext; [|exact Hold]. intros b Hb.
    eapply phase2_blocks; [done|apply crash_image_full|intros ->; by apply header_not_in_old|by left].
  - unfold header_at in *. fold (cache_disk c).
    destruct (crash_image_block c (cache_disk c) (region_start (1 - a)) (crash_image_full c))
      as [-> | H]; [done|]. left. destruct (Hp _ _ H) as [_ Hn]. apply Hn.
    unfold in_region, LSFS_CHECKPOINT0_BLOCKS. lia.
  - eapply region_holds_ext; [|exact Hnew]. intros b Hb. rewrite !disk_block_insert.
    case_decide as Heq; [done|].
    eapply phase2_blocks; [done|apply crash_image_full|congruence|by right].
Qed.
End Phases.

(** * What the operations send to the disk *)

Definition write_events (us : list (Z * list Z)) : list io_event := (λ u, IoWrite u.1 u.2) <$> us.

(** From [s] to [s'] the disk received the events [tr]. *)
Definition io_log (tr : list io_event) (s s' : lsfs_context) : Prop :=
  c_trace s' = c_trace s ++ tr ∧ c_disk s' = replay (c_disk s) tr.

Lemma io_log_nil s s' : c_trace s' = c_trace s → c_disk s' = c_disk s → io_log [] s s'.
Proof. intros Ht Hd. split; [by rewrite app_nil_r|done]. Qed.

Lemma io_log_trans tr1 tr2 s1 s2 s3 :
  io_log tr1 s1 s2 → io_log tr2 s2 s3 → io_log (tr1 ++ tr2) s1 s3.
Proof.
  intros [Ht1 Hd1] [Ht2 Hd2]. split; [by rewrite Ht2, Ht1, app_assoc|].
  by rewrite replay_app, <-Hd1.
Qed.

Lemma pwrite_updates_prefix d start blks n :
  n <= 0 ∨ (LSFS_BLOCK_SIZE | n) → pwrite_updates d start blks n `prefix_of` place start blks.
Proof.
  revert start n. induction blks as [|blk blks IH]; intros start n Hn; [done|].
  cbn [pwrite_updates place]. unfold LSFS_BLOCK_SIZE in *.
  destruct (Z.leb_spec 4096 n).
  - apply prefix_cons, IH. destruct Hn as [Hn|[k ->]]; [lia|]. right. exists (k - 1). lia.
  - destruct (Z.ltb_spec 0 n); [|apply prefix_nil]. exfalso.
    destruct Hn as [Hn|[k ->]]; lia.
Qed.

Lemma transferred_atomic `{E : Env, !BlockAtomic E} t k :
  0 <= k → let n := transferred (env_pwrite t) (k * LSFS_BLOCK_SIZE) in
  n <= 0 ∨ (LSFS_BLOCK_SIZE | n).
Proof.
  intros Hk n. subst n. unfold transferred. destruct (env_pwrite t) as [n|] eqn:Hn.
  - destruct (block_atomic t n Hn) as [H|H]; [left; lia|].
    destruct (Z.min_spec n (k * LSFS_BLOCK_SIZE)) as [[_ ->]|[_ ->]]; right; [done|by exists k].
  - right. by exists k.
Qed.

Section Logged.
Context `{E : Env, !BlockAtomic E}.
Implicit Types s : lsfs_context.

(** The events of a write of [blks] at [b] that reports [r]. *)
Definition wrote (b : Z) (blks : list (list Z)) (r : Z) s s' : Prop :=
  io_frame s s' ∧ ∃ us, us `prefix_of` place b blks ∧ (r = LSFS_OK → us = place b blks) ∧
    io_log (write_events us) s s'.

Lemma wrote_nothing b blks r s s' :
  io_frame s s' → c_trace s' = c_trace s → c_disk s' = c_disk s → r ≠ LSFS_OK → wrote b blks r s s'.
Proof using Type.
  intros Hf Ht Hd Hr. split; [done|]. exists []. split_and!; [apply prefix_nil|done|by apply io_log_nil].
Qed.

Lemma after_pwrite_wrote s b blks r n :
  n <= 0 ∨ (LSFS_BLOCK_SIZE | n) → (r = LSFS_OK → n = Z.of_nat (length blks) * LSFS_BLOCK_SIZE) →
  wrote b blks r s (after_pwrite b blks n s).
Proof using Type.
  intros Hn Hr. split; [done|]. exists (pwrite_updates (c_disk s) b blks n).
  split_and!; [by apply pwrite_updates_prefix| |].
  - intros Hok. rewrite (Hr Hok). apply pwrite_updates_full.
  - split; [done|]. cbn. by rewrite replay_writes.
Qed.

Lemma write_blocks_logged s b blks :
  addressable s b (Z.of_nat (length blks)) →
  wp (lsfs_write_blocks b blks) (λ r s', wrote b blks r s s') s.
Proof using Type*.
  intros Ha. unfold wp. rewrite write_blocks_run by done. cbv zeta.
  destruct (c_readonly s); [by apply wrote_nothing|].
  destruct (_ <=? c_disk_size s); [|by apply wrote_nothing].
  apply after_pwrite_wrote; [apply transferred_atomic; lia|]. case_match eqn:He; [|done].
  by apply Z.eqb_eq in He.
Qed.

Lemma write_block_logged s b blk :
  addressable s b 1 → wp (lsfs_write_block b blk) (λ r s', wrote b [blk] r s s') s.
Proof using Type*.
  intros Ha. unfold wp. rewrite write_block_run by done. cbv zeta.
  destruct (c_readonly s); [by apply wrote_nothing|].
  destruct (_ <=? c_disk_size s); [|by apply wrote_nothing].
  apply after_pwrite_wrote; [apply (transferred_atomic _ 1); lia|]. case_match eqn:He; [|done].
  by apply Z.eqb_eq in He.
Qed.

Lemma sync_logged s :
  wp lsfs_sync (λ r s', io_frame s s' ∧
    io_log (if decide (r = LSFS_OK) then [IoSync] else []) s s' ∧
    (env_fsync (c_tick s) = true → r = LSFS_OK)) s.
Proof using Type.
  unfold wp, lsfs_sync, ask, mbind, M_bind. destruct (env_fsync (c_tick s)); cbn; [done|].
  split_and!; [done|by apply io_log_nil|done].
Qed.

Lemma imap_save_logged s start :
  imap_wf (c_imap s) → addressable s start (LSFS_CHECKPOINT0_BLOCKS - 1) →
  let count := imap_count (c_imap s) in
  wp (lsfs_imap_save start) (λ r s', (r = LSFS_OK → count <= 65280) ∧
    ∃ blks, (length blks <= 255)%nat ∧
      (r = LSFS_OK → blks = to_blocks (Z.to_nat (imap_blocks_needed count)) (enc_array (imap_live (c_imap s)))) ∧
      wrote start blks r s s') s.
Proof using Type*.
  intros Hwf Ha count. pose proof Hwf as [Hlen Hc Hcap _]. unfold lsfs_imap_save. do 2 wp_step.
  fold count. pose proof (imap_blocks_needed_bounds count ltac:(subst count; lia)) as Hb.
  unfold LSFS_CHECKPOINT0_BLOCKS in *. destruct (Z.ltb_spec (256 - 1) (imap_blocks_needed count)).
  { apply wp_ret. split; [done|]. exists []. split_and!; [cbn; lia|done|by apply wrote_nothing]. }
  wp_step. eapply wp_intro; [done|]. cbv beta.
  destruct (env_alloc (c_tick s)); cbn [negb].
  2:{ apply wp_ret. split; [done|]. exists []. split_and!; [cbn; lia|done|by apply wrote_nothing]. }
  rewrite (proj2 (Z.ltb_ge _ _)) by (subst count; lia).
  eapply wp_mono; [apply write_blocks_logged|].
  { unfold to_blocks. rewrite length_chunks. unfold addressable in *. cbn. lia. }
  intros r s' [Hf Hw]. split; [lia|]. eexists. split_and!; [| |split; [by eapply io_frame_trans|exact Hw]].
  - unfold to_blocks. rewrite length_chunks. lia.
  - done.
Qed.
End Logged.

(** Events of a write that stays within some blocks. *)
Lemma wrote_events (P : io_event → Prop) b blks us :
  us `prefix_of` place b blks →
  (∀ i blk, blks !! i = Some blk → P (IoWrite (b + Z.of_nat i) blk)) → Forall P (write_events us).
Proof.
  intros [us' Hus] HP. apply Forall_fmap, Forall_lookup. intros i [b' blk] Hi. cbn.
  apply (lookup_app_l_Some _ us') in Hi. rewrite <-Hus in Hi. clear Hus us us'.
  revert b i HP Hi. induction blks as [|x blks IH]; intros b i HP Hi; [done|].
  destruct i as [|i]; cbn in Hi.
  - injection Hi as <- <-. replace b with (b + Z.of_nat 0) by lia. by apply HP.
  - apply (IH (b + 1) i); [|done]. intros j y Hj.
    replace (b + 1 + Z.of_nat j) with (b + Z.of_nat (S j)) by lia. by apply HP.
Qed.

Lemma wrote_outside us b blks d b' :
  us `prefix_of` place b blks → ¬ b <= b' < b + Z.of_nat (length blks) →
  disk_block (replay d (write_events us)) b' = disk_block d b'.
Proof.
  intros [us' Hus] Hb. unfold write_events. rewrite replay_writes. apply apply_updates_outside.
  intros Hin. apply Hb, place_range. rewrite Hus, fmap_app. set_solver.
Qed.

Section CheckpointLogged.
Context `{E : Env} {Hatomic : BlockAtomic E}.
Context (a : Z) (h : lsfs_checkpoint_header) (Ha : a = 0 ∨ a = 1).
Implicit Types s : lsfs_context.

(** The map of [s] is in the blocks after the header of the other region. *)
Definition map_stored (l : list lsfs_imap_entry) (d : disk) : Prop :=
  ∃ rest, concat (disk_blocks d (region_start (1 - a) + 1)
    (Z.to_nat (imap_blocks_needed (Z.of_nat (length l))))) = enc_array l ++ rest.

Lemma map_stored_ext l d d' :
  Z.of_nat (length l) <= 65280 →
  (∀ b, in_region (1 - a) b → b ≠ region_start (1 - a) → disk_block d' b = disk_block d b) →
  map_stored l d → map_stored l d'.
Proof using Type.
  intros Hlen Hext [rest Himg]. exists rest. rewrite <-Himg. f_equal. apply disk_blocks_ext.
  intros b Hb. pose proof (imap_blocks_needed_max (Z.of_nat (length l)) ltac:(lia)).
  pose proof (imap_blocks_needed_bounds (Z.of_nat (length l)) ltac:(lia)).
  unfold in_region, LSFS_CHECKPOINT0_BLOCKS in *. apply Hext; lia.
Qed.

(** A write beyond the two regions. *)
Lemma segtable_phase1 blks us :
  us `prefix_of` place LSFS_SEGTABLE_START blks → Forall (phase1_event a h) (write_events us).
Proof using Ha.
  intros Hus. eapply wrote_events; [exact Hus|]. intros i blk _. pose proof (region_starts a Ha).
  unfold phase1_event, phase1_update, in_region, LSFS_CHECKPOINT0_BLOCKS, LSFS_SEGTABLE_START. lia.
Qed.

(** The last part of the first phase: the usage table and the sync. *)
Definition prepare_post (r : Z) s s' : Prop :=
  io_frame s s' ∧ ∃ tr, io_log tr s s' ∧ Forall (phase1_event a h) tr ∧
    (r = LSFS_OK → (∃ tr0, tr = tr0 ++ [IoSync]) ∧
      ∀ b, b < LSFS_SEGTABLE_START → disk_block (c_disk s') b = disk_block (c_disk s) b).

Lemma prepare_table_logged s :
  log_wf s →
  wp (t ← gets c_segtable;
      let seg_blocks := segtable_blocks (st_count t) in
      ok ← ask env_alloc;
      _ ← (if (ok : bool) then
             if Z.of_nat (length (st_entries t)) <? st_count t then undefined else
             lsfs_write_blocks LSFS_SEGTABLE_START
               (to_blocks (Z.to_nat seg_blocks) (enc_array (take (Z.to_nat (st_count t)) (st_entries t))))
           else mret LSFS_OK);
      lsfs_sync) (λ r s', prepare_post r s s') s.
Proof using All.
  intros Hs. do 2 wp_step. cbv zeta. wp_step. eapply wp_intro; [done|]. cbv beta.
  pose proof (lw_table s Hs) as [Hlen _ _ _]. pose proof (lw_table_fits s Hs) as Hfit.
  destruct (segtable_blocks_bounds (st_count (c_segtable s))) as [Hsb _]; [lia|].
  rewrite (proj2 (Z.ltb_ge _ _)) by lia. set (blks := to_blocks _ _).
  set (s1 := s <| c_tick ::= S |>). wp_step.
  assert (wp (if env_alloc (c_tick s) then lsfs_write_blocks LSFS_SEGTABLE_START blks else mret LSFS_OK)
    (λ _ s2, io_frame s1 s2 ∧ ∃ us, us `prefix_of` place LSFS_SEGTABLE_START blks ∧
       io_log (write_events us) s1 s2) s1) as Hw.
  { destruct (env_alloc (c_tick s)).
    - eapply wp_mono; [apply write_blocks_logged, log_addressable|].
      + eapply log_wf_frame; [|exact Hs]. done.
      + done.
      + lia.
      + subst blks. unfold to_blocks. rewrite length_chunks.
        unfold LSFS_SEGTABLE_START, LSFS_SEGTABLE_BLOCKS, LSFS_LOG_START in *. lia.
      + intros r s2 (Hf & us & Hp & _ & Hl). eauto.
    - apply wp_ret. split; [done|]. exists []. split; [apply prefix_nil|by apply io_log_nil]. }
  eapply wp_mono; [exact Hw|]. intros r1 s2 (Hf2 & us & Hus & Hl2). cbv beta.
  eapply wp_mono; [apply sync_logged|]. intros r s3 (Hf3 & Hl3 & _).
  split; [eapply io_frame_trans; [|exact Hf3]; by eapply io_frame_trans|].
  eexists (write_events us ++ _). split_and!; [eapply io_log_trans; [exact Hl2|exact Hl3]| |].
  - apply Forall_app. split; [by eapply segtable_phase1|]. case_decide; repeat constructor.
  - intros ->. rewrite decide_True in * by done. split; [by eexists|]. intros b Hb.
    destruct Hl3 as [_ ->], Hl2 as [_ ->]. cbn. eapply wrote_outside; [done|lia].
Qed.

Lemma map_stored_write l d :
  Forall disk_wf l → Z.of_nat (length l) < 2 ^ 31 →
  map_stored l (replay d (write_events (place (region_start (1 - a) + 1)
    (to_blocks (Z.to_nat (imap_blocks_needed (Z.of_nat (length l)))) (enc_array l))))).
Proof using Type.
  intros Hl Hlen. destruct (imap_image_fits l Hl Hlen) as [_ Himg].
  unfold write_events. rewrite replay_writes. fold (write_range (region_start (1 - a) + 1)
    (to_blocks (Z.to_nat (imap_blocks_needed (Z.of_nat (length l)))) (enc_array l)) d).
  eexists. rewrite <-Himg. f_equal.
  set (k := Z.to_nat _). set (blks := to_blocks k _).
  replace k with (length blks) by (subst blks; unfold to_blocks; apply length_chunks).
  apply disk_blocks_write_range.
Qed.

(** The whole first phase. *)
Lemma checkpoint_prepare_logged s hd :
  log_wf s → disk_wf hd → header_valid hd = false →
  wp (checkpoint_prepare (region_start (1 - a)) hd) (λ r s', io_frame s s' ∧
    ∃ tr, io_log tr s s' ∧ Forall (phase1_event a h) tr ∧
      (r = LSFS_OK → (∃ tr0, tr = tr0 ++ [IoSync]) ∧ imap_count (c_imap s) <= 65280 ∧
         disk_block (c_disk s') (region_start (1 - a)) = header_block hd ∧
         map_stored (imap_live (c_imap s)) (c_disk s'))) s.
Proof using All.
  intros Hs Hhd Hinv. pose proof (region_starts a Ha) as Hrs.
  assert (dec (header_block hd) = hd) as Hdec by by apply dec_enc.
  unfold checkpoint_prepare. rewrite u64_small by lia. apply wp_if_ok.
  eapply wp_mono; [apply write_block_logged, log_addressable; [done|lia|done|unfold LSFS_LOG_START; lia]|].
  intros r1 s1 (Hf1 & us1 & Hus1 & Hok1 & Hl1). pose proof (log_wf_frame _ _ Hf1 Hs) as Hs1.
  assert (Forall (phase1_event a h) (write_events us1)) as Hev1.
  { eapply wrote_events; [exact Hus1|]. intros [|i] blk Hi; [|done]. injection Hi as <-.
    rewrite Z.add_0_r. split; [unfold in_region, LSFS_CHECKPOINT0_BLOCKS; lia|].
    intros _. rewrite Hdec. congruence. }
  case_decide as Hr1; [|split; [done|]; exists (write_events us1); by split_and!].
  apply wp_if_ok. eapply wp_mono; [apply imap_save_logged; [apply (lw_imap s1 Hs1)|]|].
  { apply log_addressable; [done|lia|done|]. unfold LSFS_CHECKPOINT0_BLOCKS, LSFS_LOG_START. lia. }
  intros r2 s2 (Hcount & blks & Hblks & Hblks' & Hf2 & us2 & Hus2 & Hok2 & Hl2).
  pose proof (log_wf_frame _ _ Hf2 Hs1) as Hs2. pose proof (io_frame_trans _ _ _ Hf1 Hf2) as Hf12.
  pose proof (io_log_trans _ _ _ _ _ Hl1 Hl2) as Hl12.
  assert (c_imap s1 = c_imap s) as Him by by rewrite Hf1. rewrite Him in *.
  assert (Forall (phase1_event a h) (write_events us1 ++ write_events us2)) as Hev2.
  { apply Forall_app. split; [done|]. eapply wrote_events; [exact Hus2|].
    intros i blk Hi. apply lookup_lt_Some in Hi.
    unfold phase1_event, phase1_update, in_region, LSFS_CHECKPOINT0_BLOCKS. lia. }
  case_decide as Hr2; [|split; [done|]; eexists; by split_and!].
  eapply wp_mono; [by apply prepare_table_logged|].
  intros r3 s3 (Hf3 & tr3 & Hl3 & Hev3 & Hok3).
  split; [by eapply io_frame_trans|]. exists ((write_events us1 ++ write_events us2) ++ tr3).
  split_and!; [by eapply io_log_trans|by apply Forall_app|].
  intros Hr3. destruct (Hok3 Hr3) as [[tr0 ->] Hsame]. specialize (Hcount Hr2).
  split_and!; [by rewrite app_assoc; eexists|done|..].
  - rewrite Hsame by (unfold LSFS_SEGTABLE_START; lia). destruct Hl2 as [_ ->].
    erewrite wrote_outside by (done || lia). destruct Hl1 as [_ ->]. rewrite (Hok1 Hr1). cbn.
    by rewrite disk_block_insert, decide_True.
  - pose proof (lw_imap_entries s Hs) as Hwf. pose proof (imap_live_length _ (lw_imap s Hs)) as Hlen.
    eapply (map_stored_ext _ (c_disk s2)); [lia| |].
    { intros b Hb _. apply Hsame. unfold in_region, LSFS_CHECKPOINT0_BLOCKS, LSFS_SEGTABLE_START in *. lia. }
    destruct Hl2 as [_ ->]. rewrite (Hok2 Hr2), (Hblks' Hr2), <-Hlen.
    apply map_stored_write; [done|lia].
Qed.

(** The second phase. *)
Lemma checkpoint_publish_logged s hd :
  log_wf s → let h' := hd <| ch_complete := 1 |> in
  wp (checkpoint_publish (1 - a) (region_start (1 - a)) hd) (λ r s', ∃ tr, io_log tr s s' ∧
    Forall (phase2_event a h') tr ∧
    (r = LSFS_OK → disk_block (c_disk s') (region_start (1 - a)) = header_block h' ∧
       sb_active_checkpoint (c_sb s') = 1 - a ∧ c_checkpoint_seq s' = c_checkpoint_seq s ∧
       ((∀ t, env_fsync t = true) → ∃ tr0, tr = tr0 ++ [IoSync]))) s.
Proof using All.
  intros Hs h'. pose proof (region_starts a Ha) as Hrs. unfold checkpoint_publish. fold h'.
  apply wp_if_ok.
  eapply wp_mono; [apply write_block_logged, log_addressable; [done|lia|done|unfold LSFS_LOG_START; lia]|].
  intros r1 s1 (Hf1 & us1 & Hus1 & Hok1 & Hl1). pose proof (log_wf_frame _ _ Hf1 Hs) as Hs1.
  assert (Forall (phase2_event a h') (write_events us1)) as Hev1.
  { eapply wrote_events; [exact Hus1|]. intros [|i] blk Hi; [|done]. injection Hi as <-.
    rewrite Z.add_0_r. split; [unfold in_region, LSFS_CHECKPOINT0_BLOCKS; lia|done]. }
  case_decide as Hr1; [|exists (write_events us1); by split_and!].
  unfold set_sb. do 4 wp_step. wp_step. eapply wp_intro; [done|]. cbv beta.
  match goal with |- wp _ _ ?x => set (s2 := x) end. apply wp_if_ok.
  assert (addressable s2 LSFS_SUPERBLOCK_BLOCK 1) as Haddr.
  { apply (log_addressable s1); done. }
  eapply wp_mono; [by apply write_block_logged|].
  intros r3 s3 (Hf3 & us3 & Hus3 & Hok3 & Hl3).
  assert (io_log (write_events us1 ++ write_events us3) s s3) as Hl13.
  { eapply io_log_trans; [exact Hl1|exact Hl3]. }
  assert (Forall (phase2_event a h') (write_events us1 ++ write_events us3)) as Hev3.
  { apply Forall_app. split; [done|]. eapply wrote_events; [exact Hus3|].
    intros [|i] blk Hi; [|done].
    unfold phase2_event, phase2_update, in_region, LSFS_CHECKPOINT0_BLOCKS, LSFS_SUPERBLOCK_BLOCK. lia. }
  case_decide as Hr3; [|eexists; by split_and!].
  assert (disk_block (c_disk s3) (region_start (1 - a)) = header_block h') as Hhead.
  { destruct Hl3 as [_ ->]. erewrite wrote_outside; [|done|cbn; unfold LSFS_SUPERBLOCK_BLOCK; lia].
    change (c_disk s2) with (c_disk s1). destruct Hl1 as [_ ->]. rewrite (Hok1 Hr1). cbn.
    by rewrite disk_block_insert, decide_True. }
  wp_step. eapply wp_mono; [apply sync_logged|]. intros r4 s4 (Hf4 & Hl4 & Hsync). do 3 wp_step.
  eexists (_ ++ _). split_and!; [eapply io_log_trans; [exact Hl13|exact Hl4]| |].
  - apply Forall_app. split; [done|]. case_decide; repeat constructor.
  - intros _. split_and!.
    + destruct Hl4 as [_ Hd4]. rewrite <-Hhead. cbn [c_disk field_set]. rewrite Hd4. by case_decide.
    + rewrite Hf4. cbn. rewrite Hf3. done.
    + rewrite Hf4. cbn. rewrite Hf3. cbn. rewrite Hf1. done.
    + intros Hall. rewrite decide_True by by apply Hsync. by eexists.
Qed.
End CheckpointLogged.

(** * A checkpoint and its crashes *)

(** The disk holds a checkpoint that a crash cannot take away: the cache behind the
    disk of [s] is [c], the region in use is [a] with the header [h] and the map [l]. *)
Record checkpointed (s : lsfs_context) (c : cache) (a : Z) (h : lsfs_checkpoint_header)
    (l : list lsfs_imap_entry) : Prop := {
  cp_cache : c_disk s = cache_disk c;
  cp_phase : phase1 a h l c;
  cp_active : sb_active_checkpoint (c_sb s) = a;
  cp_seq : 0 <= ch_sequence h <= c_checkpoint_seq s ∧ c_checkpoint_seq s < 2 ^ 64 - 1 }.

Lemma next_header_wf s now :
  log_wf s → 0 <= now < 2 ^ 64 → is_u64 (c_checkpoint_seq s) →
  disk_wf (next_header now s) ∧ header_valid (next_header now s) = false.
Proof.
  intros Hs Hnow Hseq. split.
  - pose proof (lw_imap s Hs) as [_ ? ? _]. pose proof (st_wf_count _ (lw_table s Hs)).
    pose proof (lw_segment s Hs). pose proof (lw_sb s Hs) as Hsb. cbn in Hsb. destruct_and! Hsb.
    cbn. unfold is_u32, LSFS_CHECKPOINT_MAGIC, LSFS_VERSION in *.
    split_and!; (done || lia).
  - done.
Qed.

(** From the end of phase one to phase two. *)
Lemma enter_phase2 a h l c tr hd l' d :
  a = 0 ∨ a = 1 → phase1 a h l (cache_run c (tr ++ [IoSync])) → cache_disk (cache_run c (tr ++ [IoSync])) = d →
  disk_wf hd → header_valid hd = false → ch_magic hd = LSFS_CHECKPOINT_MAGIC →
  ch_imap_entries hd = Z.of_nat (length l') → Z.of_nat (length l') <= 65280 →
  Forall disk_wf l' → StronglySorted by_ino l' →
  disk_block d (region_start (1 - a)) = header_block hd → map_stored a l' d →
  phase2 a h (hd <| ch_complete := 1 |>) l l' (cache_run c (tr ++ [IoSync])).
Proof.
  intros Ha [_ (_ & Hold & _)] Hd Hhd Hinv Hmagic Hcount Hlen Hwf Hsort Hhead Himg.
  assert (pending (cache_run c (tr ++ [IoSync])) = []) as Hp by by rewrite cache_run_app.
  assert (durable (cache_run c (tr ++ [IoSync])) = d) as Hdur.
  { rewrite <-Hd. unfold cache_disk. by rewrite Hp. }
  assert (∀ x, disk_wf x → dec (header_block x) = x) as Hdec by (intros x Hx; by apply dec_enc).
  split; rewrite ?Hp, ?Hdur in *; [by intros ?? ?%not_elem_of_nil|done|right|].
  { unfold header_at. by rewrite Hhead, Hdec. }
  set (h' := hd <| ch_complete := 1 |>).
  assert (disk_wf h') as Hh' by (cbn in *; unfold is_u32 in *; destruct_and!; split_and!; (done || lia)).
  split; try done.
  - unfold header_at. by rewrite disk_block_insert, decide_True, Hdec.
  - unfold header_valid, h'. cbn [ch_magic ch_complete field_set]. by rewrite Hmagic.
  - eapply (map_stored_ext a l' d); [done| |done]. intros b _ Hb.
    by rewrite disk_block_insert, decide_False.
Qed.

Section CommitCrash.
Context `{E : Env} {Hatomic : BlockAtomic E}.
Implicit Types s : lsfs_context.

(** What committing the checkpoint of [s] does to a disk that holds [(h, l)]: at every
    moment a crash leaves the old checkpoint or the new one, and on success the new
    one, which survives crashes when the last sync was answered. *)
Definition commit_post (c : cache) (a : Z) (h : lsfs_checkpoint_header)
    (l : list lsfs_imap_entry) s (r : Z) s' : Prop :=
  ∃ tr h', io_log tr s s' ∧
    ch_sequence h' = c_checkpoint_seq s + 1 ∧ ch_log_head h' = sb_log_head (c_sb s) ∧
    ch_timestamp h' = u64 (env_time (c_tick s)) ∧
    crash_safe c tr (λ d, recovers_to d a h l ∨ recovers_to d (1 - a) h' (imap_live (c_imap s))) ∧
    (r = LSFS_OK → recovers_to (c_disk s') (1 - a) h' (imap_live (c_imap s)) ∧
      sb_active_checkpoint (c_sb s') = 1 - a ∧ c_checkpoint_seq s' = c_checkpoint_seq s + 1 ∧
      region_holds (c_disk s') a h l ∧
      ((∀ t, env_fsync t = true) → phase1 (1 - a) h' (imap_live (c_imap s)) (cache_run c tr))).

(** The part after the first phase succeeded. *)
Lemma commit_publish_crash s s1 c a h l hd tr0 tr1 :
  log_wf s1 → a = 0 ∨ a = 1 → c_disk s = cache_disk c → io_log tr1 s s1 →
  tr1 = tr0 ++ [IoSync] → phase2 a h (hd <| ch_complete := 1 |>) l (imap_live (c_imap s)) (cache_run c tr1) →
  crash_safe c tr1 (λ d, recovers_to d a h l) → ch_sequence h < ch_sequence hd →
  ch_sequence hd = c_checkpoint_seq s + 1 → ch_log_head hd = sb_log_head (c_sb s) →
  ch_timestamp hd = u64 (env_time (c_tick s)) → disk_wf hd → c_checkpoint_seq s1 = ch_sequence hd →
  wp (checkpoint_publish (1 - a) (region_start (1 - a)) hd) (λ r s', commit_post c a h l s r s') s1.
Proof using All.
  intros Hs1 Ha Hcoh Hl1 Htr1 Hp2 Hsafe1 Hlt Hseq Hlh Hts Hhd Hseq1. set (h' := hd <| ch_complete := 1 |>) in *.
  eapply wp_mono; [by apply checkpoint_publish_logged|].
  intros r s2 (tr2 & Hl2 & Hev2 & Hok). cbv zeta in Hev2, Hok. fold h' in Hev2, Hok.
  destruct (crash_safe_invariant (phase2 a h h' l (imap_live (c_imap s))) (phase2_event a h')
    (λ d, recovers_to d a h l ∨ recovers_to d (1 - a) h' (imap_live (c_imap s)))
    (cache_run c tr1) tr2) as [Hsafe2 Hp2']; [|by apply phase2_step|done|done|].
  { intros c' d Hc' Hd'. by eapply phase2_image. }
  exists (tr1 ++ tr2), h'. pose proof (io_log_trans _ _ _ _ _ Hl1 Hl2) as Hl12.
  split_and!; [done..| |].
  - apply crash_safe_app; [|done]. clear -Hsafe1. revert c Hsafe1.
    induction tr1 as [|e tr1 IH]; intros c [H1 H2]; split; auto.
  - intros Hr. destruct (Hok Hr) as (Hhead & Hact & Hseq2 & Hfin).
    assert (c_disk s2 = cache_disk (cache_run c (tr1 ++ tr2))) as Hd2.
    { rewrite cache_disk_run, <-Hcoh. apply Hl12. }
    assert (∀ d, crash_image (cache_run c (tr1 ++ tr2)) d →
      disk_block d (region_start (1 - a)) = header_block h' →
      recovers_to d (1 - a) h' (imap_live (c_imap s))) as Hnew.
    { intros d Hd Hblk. rewrite cache_run_app in Hd.
      destruct (phase2_image a h h' l (imap_live (c_imap s)) Ha Hlt _ d Hp2' Hd) as [(_ & _ & Ho)|]; [|done].
      exfalso. unfold other_older, header_at in Ho. rewrite Hblk in Ho.
      assert (dec (header_block h') = h') as Hdec.
      { apply dec_enc. cbn in *. unfold is_u32 in *. destruct_and!. split_and!; (done || lia). }
      rewrite Hdec in Ho. pose proof (rh_valid _ _ _ _ (p2_new _ _ _ _ _ _ Hp2')) as Hv.
      specialize (Ho Hv). cbn in Ho. lia. }
    split_and!; [|done|congruence|rewrite Hd2, cache_run_app; eapply phase2_old; [done..|apply crash_image_full]|].
    + rewrite Hd2. apply Hnew; [apply crash_image_full|by rewrite <-Hd2].
    + intros Hall. destruct (Hfin Hall) as [tr3 ->].
      assert (pending (cache_run c (tr1 ++ tr3 ++ [IoSync])) = []) as Hpend.
      { by rewrite app_assoc, cache_run_app. }
      split; [rewrite Hpend; by intros ?? ?%not_elem_of_nil|].
      apply Hnew; [exists []; split; [apply sublist_nil_l|done]|].
      unfold cache_disk in Hd2. rewrite Hpend in Hd2. cbn in Hd2. by rewrite <-Hd2.
Qed.

(** While only phase-one events happened, the old checkpoint is what a crash leaves. *)
Lemma phase1_crash_safe c a h l tr :
  a = 0 ∨ a = 1 → phase1 a h l c → Forall (phase1_event a h) tr →
  crash_safe c tr (λ d, recovers_to d a h l) ∧ phase1 a h l (cache_run c tr).
Proof using Type.
  intros Ha Hc Htr. apply (crash_safe_invariant (phase1 a h l) (phase1_event a h)); [|..|done|done].
  - intros c' d. by apply phase1_image.
  - intros c' e. by apply phase1_step.
Qed.

Lemma crash_safe_mono c tr (R R' : disk → Prop) :
  (∀ d, R d → R' d) → crash_safe c tr R → crash_safe c tr R'.
Proof using Type.
  intros HR. revert c. induction tr as [|e tr IH]; intros c [H1 H2]; split; auto.
Qed.

Lemma checkpoint_commit_crash s c a h l :
  log_wf s → checkpointed s c a h l →
  wp checkpoint_commit (λ r s', commit_post c a h l s r s') s.
Proof using All.
  intros Hs [Hcoh Hp1 Hact Hseq]. pose proof (lw_region s Hs) as Ha. rewrite Hact in Ha.
  unfold checkpoint_commit. do 2 wp_step. rewrite Hact, lxor_1_region by done. cbv zeta.
  do 2 wp_step. set (s1 := s <| c_checkpoint_seq ::= _ |>).
  assert (log_wf s1) as Hs1.
  { eapply commit_frame_wf; [|exact Hs]. destruct (commit_frame_refl s Hs). by split. }
  wp_step. eapply wp_intro; [done|]. cbv beta. set (now := u64 (env_time (c_tick s1))).
  do 2 wp_step. wp_step. eapply wp_intro; [done|]. cbv beta.
  match goal with |- context [next_header now ?x] => set (s2 := x) end.
  set (s3 := s2 <| c_tick ::= S |>). set (hd := next_header now s2).
  assert (ch_sequence hd = c_checkpoint_seq s + 1) as Hhseq by (cbn; apply u64_small; lia).
  assert (log_wf s2 ∧ log_wf s3) as [Hs2 Hs3].
  { split; (eapply log_wf_frame; [|exact Hs1]); done. }
  assert (disk_wf hd ∧ header_valid hd = false) as [Hhd Hinv].
  { apply next_header_wf; [done|apply u64_range|]. cbn. apply u64_range. }
  assert (io_log [] s s3) as Hl3 by by apply io_log_nil.
  assert (∀ r s' tr, io_log tr s3 s' → Forall (phase1_event a h) tr → r ≠ LSFS_OK →
    commit_post c a h l s r s') as Hfail.
  { intros r s' tr Hl Htr Hr. exists tr, (hd <| ch_complete := 1 |>).
    split_and!; [by apply (io_log_trans [] tr s s3 s')|done|done|done| |done].
    eapply crash_safe_mono; [|by apply (phase1_crash_safe c a h l tr)]. by left. }
  destruct (env_alloc (c_tick s2)); cbn [negb].
  2:{ apply wp_ret. apply (Hfail _ _ []); [by apply io_log_nil|constructor|done]. }
  apply wp_if_ok. eapply wp_mono; [by apply (checkpoint_prepare_logged a h)|].
  intros r4 s4 (Hf4 & tr & Hl4 & Hev & Hok). case_decide as Hr; [|by apply (Hfail _ _ tr)].
  destruct (Hok Hr) as ([tr0 ->] & Hcount & Hhead & Hmap).
  pose proof (io_log_trans _ _ _ _ _ Hl3 Hl4) as Hl. cbn [app] in Hl.
  destruct (phase1_crash_safe c a h l _ Ha Hp1 Hev) as [Hsafe Hp1'].
  pose proof (imap_live_length _ (lw_imap s Hs)) as Hlen.
  eapply (commit_publish_crash s s4 c a h l hd tr0); try done.
  - by eapply log_wf_frame.
  - eapply (enter_phase2 a h l c tr0 hd _ (c_disk s4)); try done.
    + rewrite cache_disk_run, <-Hcoh. symmetry. apply Hl.
    + by rewrite Hlen.
    + apply (lw_imap_entries s Hs).
    + apply (lw_imap s Hs).
  - lia.
  - by rewrite Hf4.
Qed.
End CommitCrash.

(** * Mounting after a crash *)

(** On a healthy machine, loading a checkpoint from [d] gives the map [m], the
    sequence number [seq] and the log head. *)
Definition mounts (d : disk) (m : gmap Z (Z * Z)) (seq log_head : Z) : Prop :=
  ∀ (E : Env), Healthy E → ∀ s, c_disk s = d → in_disk s 0 LSFS_LOG_START → imap_wf (c_imap s) →
    wp lsfs_checkpoint_load (λ r s', r = LSFS_OK ∧ imap_wf (c_imap s') ∧ imap_map (c_imap s') = m ∧
      c_checkpoint_seq s' = seq ∧ sb_log_head (c_sb s') = log_head) s.

Lemma recovers_mounts d r h l :
  recovers_to d r h l → mounts d (entries_map l) (ch_sequence h) (ch_log_head h).
Proof.
  intros Hrec E HE s <- Hd Hwf. pose proof Hrec as (_ & [_ _ _ Hlen _ Hsort _] & _).
  eapply wp_intro; [by apply checkpoint_load_run|].
  destruct (imap_loaded_wf (c_imap s) l Hwf Hsort ltac:(lia)) as [Hwf' Hlive].
  split_and!; [done|exact Hwf'| |done..]. unfold imap_map. f_equal. exact Hlive.
Qed.

Section HealthyCommit.
Context `{E : Env} {HE : Healthy E}.
Implicit Types s : lsfs_context.

Lemma log_in_disk s b n :
  log_wf s → 0 <= b → 0 <= n → b + n <= LSFS_LOG_START → in_disk s b n.
Proof using Type.
  intros Hs Hb Hn Hle. destruct (lw_disk s Hs) as (_ & _ & Hd). pose proof (lw_segment s Hs).
  unfold in_disk, LSFS_LOG_START, LSFS_SEGMENT_BLOCKS, LSFS_BLOCK_SIZE in *. lia.
Qed.

(** A step that succeeds and only does I/O. *)
Lemma wp_ok_step s (m k : Op Z) s1 Q :
  m s = Some (LSFS_OK, s1) → wp k Q s1 → wp (m ;? k) Q s.
Proof using Type. intros Hm Hk. apply wp_if_ok. eapply wp_intro; [exact Hm|]. done. Qed.

Lemma checkpoint_prepare_ok s r h :
  log_wf s → c_readonly s = false → imap_count (c_imap s) <= 65280 →
  wp (checkpoint_prepare (region_start r) h) (λ ret _, ret = LSFS_OK) s.
Proof using HE.
  intros Hs Hro Hc. pose proof (region_start_bounds r) as [Hr0 Hr1]. unfold LSFS_SEGTABLE_START in Hr1.
  unfold checkpoint_prepare. rewrite u64_small by lia.
  eapply wp_ok_step; [apply write_block_ok; [|done]|].
  { apply log_in_disk; [done|lia|done|unfold LSFS_LOG_START; lia]. }
  pose proof (imap_blocks_needed_max (imap_count (c_imap s))) as Hmax.
  pose proof (lw_imap s Hs) as [_ Hcc Hcap _]. unfold LSFS_CHECKPOINT0_BLOCKS in Hmax.
  pose proof (imap_blocks_needed_bounds (imap_count (c_imap s)) ltac:(lia)).
  eapply wp_ok_step; [apply imap_save_run; [apply (lw_imap s Hs)|done| |done]|].
  { apply (log_in_disk s); [done|lia|cbn; lia|unfold LSFS_LOG_START; cbn; lia]. }
  match goal with |- wp _ _ ?x => set (s2 := x) end.
  assert (log_wf s2) as Hs2 by (eapply log_wf_frame; [|exact Hs]; done).
  do 2 wp_step. cbv zeta. wp_step. eapply wp_intro; [done|]. cbv beta.
  pose proof (lw_table s2 Hs2) as [Hlen _ _ _]. pose proof (lw_table_fits s2 Hs2) as Hfit.
  destruct (segtable_blocks_bounds (st_count (c_segtable s2))) as [Hsb _]; [lia|].
  rewrite healthy_alloc, (proj2 (Z.ltb_ge _ _)) by lia. wp_step.
  eapply wp_intro; [apply write_blocks_ok; [|done]|].
  { apply (log_in_disk s2); [done|done|lia|]. unfold to_blocks. rewrite length_chunks.
    unfold LSFS_SEGTABLE_START, LSFS_SEGTABLE_BLOCKS, LSFS_LOG_START in *. lia. }
  eapply wp_intro; [apply sync_ok|]. done.
Qed.

Lemma checkpoint_publish_ok s r h :
  log_wf s → c_readonly s = false →
  wp (checkpoint_publish r (region_start r) h) (λ ret _, ret = LSFS_OK) s.
Proof using HE.
  intros Hs Hro. pose proof (region_start_bounds r) as [Hr0 Hr1]. unfold LSFS_SEGTABLE_START in Hr1.
  unfold checkpoint_publish, set_sb. eapply wp_ok_step; [apply write_block_ok; [|done]|].
  { apply log_in_disk; [done|lia|done|unfold LSFS_LOG_START; lia]. }
  do 4 wp_step. wp_step. eapply wp_intro; [done|]. cbv beta.
  eapply wp_ok_step; [apply write_block_ok; [|done]|].
  { apply (log_in_disk s); done. }
  wp_step. eapply wp_intro; [apply sync_ok|]. by wp_steps.
Qed.

Lemma checkpoint_commit_ok s :
  log_wf s → c_readonly s = false → imap_count (c_imap s) <= 65280 →
  wp checkpoint_commit (λ ret _, ret = LSFS_OK) s.
Proof using HE.
  intros Hs Hro Hc. unfold checkpoint_commit. do 2 wp_step. cbv zeta. do 2 wp_step.
  set (s1 := s <| c_checkpoint_seq ::= _ |>).
  assert (log_wf s1) as Hs1.
  { eapply commit_frame_wf; [|exact Hs]. destruct (commit_frame_refl s Hs). by split. }
  wp_step. eapply wp_intro; [done|]. cbv beta. do 2 wp_step. wp_step. eapply wp_intro; [done|]. cbv beta.
  rewrite healthy_alloc. cbn [negb]. apply wp_if_ok.
  match goal with |- wp _ _ ?x => set (s3 := x) end.
  assert (log_wf s3) as Hs3 by (eapply log_wf_frame; [|exact Hs1]; done).
  eapply wp_mono; [apply wp_and; [by apply checkpoint_prepare_ok|apply (checkpoint_prepare_frame s3 s3)]|];
    [done|by apply commit_frame_refl|].
  intros r4 s4 [-> Hf4]. rewrite decide_True by done.
  apply checkpoint_publish_ok; [by eapply commit_frame_wf|]. by rewrite (cf_readonly _ _ Hf4).
Qed.
End HealthyCommit.

(** * The whole checkpoint, with the flush it starts with *)

Lemma checkpointed_frame s s' c a h l :
  c_disk s' = c_disk s → sb_active_checkpoint (c_sb s') = sb_active_checkpoint (c_sb s) →
  c_checkpoint_seq s' = c_checkpoint_seq s → checkpointed s c a h l → checkpointed s' c a h l.
Proof. intros Hd Ha Hs [? ? ? ?]. split; congruence. Qed.

(** Writes to the log leave both regions alone. *)
Lemma log_writes_phase1 a h b blks us :
  a = 0 ∨ a = 1 → LSFS_LOG_START <= b → us `prefix_of` place b blks →
  Forall (phase1_event a h) (write_events us).
Proof.
  intros Ha Hb Hus. eapply wrote_events; [exact Hus|]. intros i blk _. pose proof (region_starts a Ha).
  unfold phase1_event, phase1_update, in_region, LSFS_CHECKPOINT0_BLOCKS, LSFS_LOG_START in *. lia.
Qed.

Section FlushCrash.
Context `{E : Env} {HE : Healthy E}.
Implicit Types s : lsfs_context.

(** From [s] to [s'] every crash leaves the old checkpoint [(h, l)] or one of the map
    [m], and [s'] is checkpointed again, by the old checkpoint or by one of [m]. *)
Definition keeps_checkpoint (m : list lsfs_imap_entry) (c : cache) (a : Z)
    (h : lsfs_checkpoint_header) (l : list lsfs_imap_entry) s s' : Prop :=
  ∃ tr a' h' l', io_log tr s s' ∧
    crash_safe c tr (λ d, recovers_to d a h l ∨ ∃ a1 h1, recovers_to d a1 h1 m) ∧
    checkpointed s' (cache_run c tr) a' h' l' ∧ ((a' = a ∧ h' = h ∧ l' = l) ∨ l' = m).

(** Only phase-one events happened. *)
Lemma keeps_phase1 m c a h l s s' tr :
  a = 0 ∨ a = 1 → checkpointed s c a h l → io_log tr s s' → Forall (phase1_event a h) tr →
  sb_active_checkpoint (c_sb s') = sb_active_checkpoint (c_sb s) →
  c_checkpoint_seq s' = c_checkpoint_seq s → keeps_checkpoint m c a h l s s'.
Proof using Type.
  intros Ha [Hcoh Hp Hact Hseq] Hl Htr Hact' Hseq'.
  destruct (phase1_crash_safe c a h l tr Ha Hp Htr) as [Hsafe Hp'].
  exists tr, a, h, l. split_and!; [done| | |by left].
  - eapply crash_safe_mono; [|exact Hsafe]. by left.
  - split; [|done|congruence|lia]. rewrite cache_disk_run, <-Hcoh. apply Hl.
Qed.

Lemma checkpointed_region s c a h l : log_wf s → checkpointed s c a h l → a = 0 ∨ a = 1.
Proof using Type. intros Hs [_ _ <- _]. apply (lw_region s Hs). Qed.

Lemma keeps_commit s c a h l :
  log_wf s → c_readonly s = false → imap_count (c_imap s) <= 65280 →
  checkpointed s c a h l → c_checkpoint_seq s < 2 ^ 64 - 2 →
  wp checkpoint_commit (λ r s', r = LSFS_OK ∧ c_checkpoint_seq s' = c_checkpoint_seq s + 1 ∧
    keeps_checkpoint (imap_live (c_imap s)) c a h l s s') s.
Proof using HE.
  intros Hs Hro Hc Hcp Hseq. pose proof (cp_seq _ _ _ _ _ Hcp) as Hcps.
  eapply wp_mono; [apply wp_and; [by apply checkpoint_commit_ok|by eapply checkpoint_commit_crash]|].
  intros r s' [-> (tr & h' & Hl & Hh' & _ & _ & Hsafe & Hok)].
  destruct (Hok eq_refl) as (_ & Hact & Hseq' & _ & Hfin). split_and!; [done..|].
  exists tr, (1 - a), h', (imap_live (c_imap s)). split_and!; [done| | |by right].
  - eapply crash_safe_mono; [|exact Hsafe]. intros d [?|?]; [by left|right; by eauto].
  - split; [|apply Hfin, healthy_fsync|done|lia].
    rewrite cache_disk_run, <-(cp_cache _ _ _ _ _ Hcp). apply Hl.
Qed.

Lemma keeps_trans m c a h l s1 s2 s3 :
  (∃ tr a' h' l', io_log tr s1 s2 ∧
    crash_safe c tr (λ d, recovers_to d a h l ∨ ∃ a1 h1, recovers_to d a1 h1 m) ∧
    checkpointed s2 (cache_run c tr) a' h' l' ∧ ((a' = a ∧ h' = h ∧ l' = l) ∨ l' = m) ∧
    keeps_checkpoint m (cache_run c tr) a' h' l' s2 s3) →
  keeps_checkpoint m c a h l s1 s3.
Proof using Type.
  intros (tr & a' & h' & l' & Hl & Hsafe & Hcp & Hcase & tr2 & a2 & h2 & l2 & Hl2 & Hsafe2 & Hcp2 & Hcase2).
  exists (tr ++ tr2), a2, h2, l2. split_and!.
  - by eapply io_log_trans.
  - apply crash_safe_app; [done|]. eapply crash_safe_mono; [|exact Hsafe2].
    intros d [Hd|Hd]; [|by right]. destruct Hcase as [(-> & -> & ->)| ->]; [by left|right; by eauto].
  - by rewrite cache_run_app.
  - destruct Hcase2 as [(-> & -> & ->)| ->]; [|by right]. exact Hcase.
Qed.

(** The end of a flush. *)
Lemma keeps_flush_tail s b now c a h l :
  log_wf s → c_readonly s = false → imap_count (c_imap s) <= 65280 → 0 <= now < 2 ^ 64 →
  sg_segment_id b = sg_segment_id (c_segbuf s) → sg_block_count b = sg_block_count (c_segbuf s) →
  checkpointed s c a h l → c_checkpoint_seq s < 2 ^ 64 - 2 →
  wp (_ ← segment_next b now; needed ← lsfs_checkpoint_needed;
      if (needed : bool) then _ ← checkpoint_commit; mret LSFS_OK else mret LSFS_OK)
    (λ r s', r = LSFS_OK ∧ c_checkpoint_seq s' <= c_checkpoint_seq s + 1 ∧
       keeps_checkpoint (imap_live (c_imap s)) c a h l s s') s.
Proof using HE.
  intros Hs Hro Hc Hnow Hseg Hcount Hcp Hseq. pose proof (checkpointed_region _ _ _ _ _ Hs Hcp) as Ha.
  wp_step. eapply wp_mono; [by apply segment_next_spec|].
  intros [] s3 (Hs3 & [? ? ? Him ? ? Hq ? ? Hro3 _ Hsb] & _). wp_step.
  eapply wp_intro; [done|]. cbv beta. set (s4 := s3 <| c_tick ::= S |>).
  assert (log_wf s4) as Hs4 by (eapply log_wf_frame; [|exact Hs3]; done).
  assert (checkpointed s4 c a h l) as Hcp4.
  { apply (checkpointed_frame s); try done. cbn. by rewrite Hsb. }
  assert (io_log [] s s4) as Hl4 by by apply io_log_nil.
  case_match; wp_step.
  - eapply wp_mono; [apply (keeps_commit s4 c a h l Hs4); [cbn; congruence|cbn; congruence|done|cbn; lia]|].
    intros r s5 (-> & Hq5 & Hk). wp_step. split_and!; [done|rewrite Hq5; cbn; lia|].
    change (c_imap s4) with (c_imap s3) in Hk. rewrite Him in Hk.
    apply keeps_trans with s4. exists [], a, h, l. split_and!; [done| |done|by left|done].
    split; [|done]. intros d Hd. left. eapply phase1_image; [done|apply Hcp|done].
  - split_and!; [done|cbn; lia|]. eapply (keeps_phase1 _ c a h l s s4 []); try done. cbn. by rewrite Hsb.
Qed.

Lemma keeps_flush s c a h l :
  log_wf s → c_readonly s = false → imap_count (c_imap s) <= 65280 →
  checkpointed s c a h l → c_checkpoint_seq s < 2 ^ 64 - 2 →
  wp lsfs_segment_flush (λ r s', r = LSFS_OK ∧ c_checkpoint_seq s' <= c_checkpoint_seq s + 1 ∧
    keeps_checkpoint (imap_live (c_imap s)) c a h l s s') s.
Proof using HE.
  intros Hs Hro Hc Hcp Hseq. pose proof (checkpointed_region _ _ _ _ _ Hs Hcp) as Ha.
  unfold wp. rewrite segment_flush_eq.
  change (wp (segment_flush_body checkpoint_commit) (λ r s', r = LSFS_OK ∧
    c_checkpoint_seq s' <= c_checkpoint_seq s + 1 ∧ keeps_checkpoint (imap_live (c_imap s)) c a h l s s') s).
  pose proof (lw_count s Hs) as Hcnt. unfold segment_flush_body. do 2 wp_step.
  destruct (Z.leb_spec (sg_block_count (c_segbuf s)) 1).
  { apply wp_ret. split_and!; [done|lia|]. eapply (keeps_phase1 _ c a h l s s []); try done. by apply io_log_nil. }
  wp_step. eapply wp_intro; [done|]. set (now := u64 (env_time (c_tick s))). set (s1 := s <| c_tick ::= S |>).
  assert (log_wf s1) as Hs1 by (eapply log_wf_frame; [|exact Hs]; done).
  change (c_segbuf s) with (c_segbuf s1) in *.
  apply wp_if_ok, segment_write_out_wp; [done|apply u64_range|].
  intros blk0 blk r s2 _ _ Hblk Hw Hf2. pose proof (with_block0_wf blk s1 Hs1 Hblk) as Hs1'.
  pose proof (log_wf_frame _ _ Hf2 Hs1') as Hs2. pose proof (lw_segment s1 Hs1) as Hid.
  set (start := lsfs_segment_to_block _ 0) in *. set (blks := take _ _) in *.
  assert (Z.of_nat (length blks) <= LSFS_SEGMENT_BLOCKS) as Hlen.
  { subst blks. rewrite length_take. lia. }
  rewrite write_blocks_ok in Hw; [|apply (segment_in_disk (with_block0 blk s1)); [done|exact Hid|lia..]|done].
  injection Hw as <- Hs2eq. rewrite decide_True by done.
  assert (io_log (write_events (place start blks)) s s2) as Hl2.
  { rewrite <-Hs2eq. split; [done|]. cbn. unfold write_events. by rewrite replay_writes. }
  assert (LSFS_LOG_START <= start) as Hstart.
  { pose proof (st_wf_count _ (lw_table s1 Hs1)). subst start.
    rewrite segment_to_block_eq by (unfold valid_segment; lia). unfold LSFS_SEGMENT_BLOCKS. lia. }
  assert (Forall (phase1_event a h) (write_events (place start blks))) as Hev by by eapply log_writes_phase1.
  destruct (phase1_crash_safe c a h l _ Ha (cp_phase _ _ _ _ _ Hcp) Hev) as [Hsafe Hp2].
  assert (c_imap s2 = c_imap s ∧ c_checkpoint_seq s2 = c_checkpoint_seq s ∧ c_sb s2 = c_sb s ∧
    c_readonly s2 = false) as (Him & Hq & Hsb & Hro2) by by rewrite <-Hs2eq.
  assert (checkpointed s2 (cache_run c (write_events (place start blks))) a h l) as Hcp2.
  { destruct Hcp as [Hcoh _ Hact Hcps]. split; [|done|by rewrite Hsb|by rewrite Hq].
    rewrite cache_disk_run, <-Hcoh. apply Hl2. }
  eapply wp_mono; [apply (keeps_flush_tail s2 (c_segbuf s1) now (cache_run c (write_events (place start blks))) a h l); try done|].
  - by rewrite Him.
  - apply u64_range.
  - by rewrite <-Hs2eq.
  - by rewrite <-Hs2eq.
  - by rewrite Hq.
  - intros r s3 (-> & Hq3 & Hk). rewrite Him in Hk. split_and!; [done|lia|].
    apply keeps_trans with s2. eexists _, a, h, l. split_and!; [exact Hl2| |exact Hcp2|by left|exact Hk].
    eapply crash_safe_mono; [|exact Hsafe]. by left.
Qed.

Lemma keeps_checkpoint_write s c a h l :
  log_wf s → c_readonly s = false → imap_count (c_imap s) <= 65280 →
  checkpointed s c a h l → c_checkpoint_seq s < 2 ^ 64 - 3 →
  wp lsfs_checkpoint_write (λ r s', r = LSFS_OK ∧ c_checkpoint_seq s' <= c_checkpoint_seq s + 2 ∧
    keeps_checkpoint (imap_live (c_imap s)) c a h l s s') s.
Proof using HE.
  intros Hs Hro Hc Hcp Hseq. pose proof (checkpointed_region _ _ _ _ _ Hs Hcp) as Ha.
  unfold lsfs_checkpoint_write, checkpoint_write_body. do 2 wp_step. apply wp_if_ok.
  assert (wp (if 1 <? sg_block_count (c_segbuf s) then lsfs_segment_flush else mret LSFS_OK)
    (λ r s', r = LSFS_OK ∧ c_checkpoint_seq s' <= c_checkpoint_seq s + 1 ∧
       keeps_checkpoint (imap_live (c_imap s)) c a h l s s' ∧ log_wf s' ∧ log_frame s s') s) as Hfl.
  { destruct (1 <? sg_block_count (c_segbuf s)).
    - eapply wp_mono; [apply wp_and; [by apply keeps_flush; [..|lia]|by apply segment_flush_wp]|].
      intros r s' [(? & ? & ?) (? & ? & _)]. by split_and!.
    - apply wp_ret. split_and!; [done|lia| |done|done]. eapply (keeps_phase1 _ c a h l s s []); try done.
      by apply io_log_nil. }
  eapply wp_mono; [exact Hfl|].
  intros r s1 (-> & Hq1 & (tr & a' & h' & l' & Hl & Hsafe & Hcp1 & Hcase) & Hs1 & Hf1). rewrite decide_True by done.
  pose proof (lf_imap _ _ Hf1) as Him. pose proof (lf_readonly _ _ Hf1) as Hro1.
  eapply wp_mono; [apply (keeps_commit s1 (cache_run c tr) a' h' l' Hs1);
    [congruence|by rewrite Him|done|lia]|].
  intros r s2 (-> & Hq2 & Hk). rewrite Him in Hk. split_and!; [done|lia|].
  apply keeps_trans with s1. by exists tr, a', h', l'.
Qed.

Lemma keeps_append s c a h l data ino offset type :
  log_wf s → block_args data ino offset type → c_readonly s = false → imap_count (c_imap s) <= 65280 →
  checkpointed s c a h l → c_checkpoint_seq s < 2 ^ 64 - 2 →
  wp (lsfs_segment_append_block data ino offset type)
    (λ _ s', c_checkpoint_seq s' <= c_checkpoint_seq s + 1 ∧ keeps_checkpoint (imap_live (c_imap s)) c a h l s s') s.
Proof using HE.
  intros Hs Hargs Hro Hc Hcp Hseq. pose proof (checkpointed_region _ _ _ _ _ Hs Hcp) as Ha.
  apply (segment_append_wp (λ s', c_checkpoint_seq s' <= c_checkpoint_seq s + 1 ∧
    keeps_checkpoint (imap_live (c_imap s)) c a h l s s')); [done|done| | | |].
  - split; [lia|]. eapply (keeps_phase1 _ c a h l s s []); try done. by apply io_log_nil.
  - eapply wp_mono; [by apply keeps_flush|]. naive_solver.
  - done.
  - intros s1 info _ [Hq (tr & a' & h' & l' & Hl & Hsafe & Hcp1 & Hcase)] _ _ _ _ _. split; [done|].
    exists tr, a', h', l'. split_and!; [exact Hl|done|by apply (checkpointed_frame s1)|done].
Qed.

(** Any call of the log. *)
Lemma keeps_run call s c a h l :
  log_wf s → log_call_ok call → c_readonly s = false → imap_count (c_imap s) <= 65280 →
  checkpointed s c a h l → c_checkpoint_seq s < 2 ^ 64 - 3 →
  wp (log_run call) (λ _ s', c_checkpoint_seq s' <= c_checkpoint_seq s + 2 ∧
    keeps_checkpoint (imap_live (c_imap s)) c a h l s s') s.
Proof using HE.
  intros Hs Hcall Hro Hc Hcp Hseq. destruct call as [data ino offset type| |]; cbn [log_run] in *.
  - eapply wp_mono; [apply keeps_append; [done..|lia]|]. intros r s' [? ?]. split; [lia|done].
  - eapply wp_mono; [apply keeps_flush; [done..|lia]|]. intros r s' (_ & ? & ?). split; [lia|done].
  - eapply wp_mono; [by apply keeps_checkpoint_write|]. intros r s' (_ & ? & ?). by split.
Qed.
End FlushCrash.

(** * Theorems *)

(** C1. Writing a checkpoint is atomic.  The disk holds a checkpoint [(h, l)] that a crash
    cannot take away, nothing waits in the segment buffer, and writes may fail in any
    way that respects block boundaries: if the machine stops at any moment of
    [lsfs_checkpoint_write], and whichever of the unsynced block writes survive, the
    next mount loads the old inode map or the current one, with the sequence number and
    the log head that belong to it; after a success report it loads the current one. *)
Theorem checkpoint_crash_atomic `{E : Env} `{!BlockAtomic E} s c a h l :
  log_wf s → sg_block_count (c_segbuf s) <= 1 → checkpointed s c a h l →
  wp lsfs_checkpoint_write (λ r s', ∃ tr, c_trace s' = c_trace s ++ tr ∧
    crash_safe c tr (λ d,
      mounts d (entries_map l) (ch_sequence h) (ch_log_head h) ∨
      mounts d (imap_map (c_imap s)) (c_checkpoint_seq s + 1) (sb_log_head (c_sb s))) ∧
    (r = LSFS_OK →
      mounts (c_disk s') (imap_map (c_imap s)) (c_checkpoint_seq s + 1) (sb_log_head (c_sb s)))) s.
Proof.
  intros Hs Hidle Hcp. unfold wp, lsfs_checkpoint_write. rewrite checkpoint_write_body_idle by done.
  pose proof (checkpoint_commit_crash s c a h l Hs Hcp) as H. unfold wp in H.
  destruct (checkpoint_commit s) as [[r s']|]; [|done].
  destruct H as (tr & h' & [Htr _] & Hseq & Hlh & _ & Hsafe & Hok). exists tr.
  rewrite <-Hseq, <-Hlh. split_and!; [done| |].
  - eapply crash_safe_mono; [|exact Hsafe]. intros d [Hd|Hd]; [left|right]; by eapply recovers_mounts.
  - intros Hr. destruct (Hok Hr) as [Hd _]. by eapply recovers_mounts.
Qed.

(** C2. The log never endangers the checkpoint.  On a healthy disk with a write cache, from
    a checkpointed state, every append, flush and checkpoint (with the flushes and the
    checkpoints it triggers) can be interrupted by a crash at any moment: the next mount
    loads the map of the last checkpoint or the current one.  Afterwards the state is
    checkpointed again, by the old map or by the current one, so that this extends to
    sequences of calls. *)
Theorem log_crash_safe `{E : Env} `{!Healthy E} call s c a h l :
  log_wf s → log_call_ok call → c_readonly s = false → imap_count (c_imap s) <= 65280 →
  checkpointed s c a h l → c_checkpoint_seq s < 2 ^ 64 - 3 →
  wp (log_run call) (λ _ s', log_wf s' ∧ ∃ tr a' h' l', c_trace s' = c_trace s ++ tr ∧
    crash_safe c tr (λ d,
      mounts d (entries_map l) (ch_sequence h) (ch_log_head h) ∨
      ∃ seq log_head, mounts d (imap_map (c_imap s)) seq log_head) ∧
    checkpointed s' (cache_run c tr) a' h' l' ∧
    (l' = l ∨ entries_map l' = imap_map (c_imap s))) s.
Proof.
  intros Hs Hcall Hro Hc Hcp Hseq.
  pose proof (keeps_run call s c a h l Hs Hcall Hro Hc Hcp Hseq) as Hk.
  eapply wp_mono; [apply wp_and; [by apply log_run_wp|exact Hk]|].
  intros r s' [[Hs' _] (_ & tr & a' & h' & l' & [Htr _] & Hsafe & Hcp' & Hcase)]. split; [done|].
  exists tr, a', h', l'. split_and!; [done| |done|destruct Hcase as [(_ & _ & ->)| ->]; by auto].
  eapply crash_safe_mono; [|exact Hsafe].
  intros d [Hd|(a1 & h1 & Hd)]; [left|right; do 2 eexists]; by eapply recovers_mounts.
Qed.
