(* ===== verification/LogView.v ===== *)
(** The log as one array of blocks: the segment buffer laid over the disk.  Appending
    adds a block and changes no other, flushing changes none, as long as a free
    segment is left; without one the log overwrites itself. *)
From S2P Require Import Prelude OnDisk Lru Context Io Imap SegTable Log.

(** What is stored at address [a]: in the buffer when [a] lies in its part that is in
    use, on disk otherwise. *)
Definition log_view (s : lsfs_context) (a : Z) : list Z :=
  let '(seg, off) := lsfs_block_to_segment a in
  if (seg =? sg_segment_id (c_segbuf s)) && (off <? sg_block_count (c_segbuf s))
  then default zero_block (arr_get (sg_data (c_segbuf s)) off)
  else disk_block (c_disk s) a.

(** Addresses that were handed out: a block, not the summary, of a segment in use. *)
Definition live_addr (s : lsfs_context) (a : Z) : Prop :=
  ∃ seg off, a = lsfs_segment_to_block seg off ∧ 0 <= seg < st_count (c_segtable s) ∧
    1 <= off < LSFS_SEGMENT_BLOCKS ∧ free_at (st_entries (c_segtable s)) seg = false ∧
    (seg = sg_segment_id (c_segbuf s) → off < sg_block_count (c_segbuf s)).

Lemma log_view_at s seg off :
  valid_segment seg → 0 <= off < LSFS_SEGMENT_BLOCKS →
  log_view s (lsfs_segment_to_block seg off) =
    if (seg =? sg_segment_id (c_segbuf s)) && (off <? sg_block_count (c_segbuf s))
    then default zero_block (arr_get (sg_data (c_segbuf s)) off)
    else disk_block (c_disk s) (lsfs_segment_to_block seg off).
Proof. intros Hs Ho. unfold log_view. by rewrite block_to_segment_to_block. Qed.

Lemma live_valid s seg : log_wf s → 0 <= seg < st_count (c_segtable s) → valid_segment seg.
Proof. intros Hs Hseg. pose proof (st_wf_count _ (lw_table s Hs)). unfold valid_segment. lia. Qed.

(** A live address is not 0 and lies in the log. *)
Lemma live_addr_log s a : log_wf s → live_addr s a → LSFS_LOG_START < a ∧ in_disk s a 1.
Proof.
  intros Hs (seg & off & -> & Hseg & Hoff & _). pose proof (live_valid s seg Hs Hseg).
  unfold LSFS_SEGMENT_BLOCKS in Hoff. split.
  - rewrite segment_to_block_eq by (done || lia). unfold LSFS_SEGMENT_BLOCKS. lia.
  - apply segment_in_disk; [done..|lia|lia|unfold LSFS_SEGMENT_BLOCKS; lia].
Qed.

(** From [s] to [s'] no live block was lost or changed. *)
Definition log_grows (s s' : lsfs_context) : Prop :=
  ∀ a, live_addr s a → live_addr s' a ∧ log_view s' a = log_view s a.

Lemma log_grows_refl s : log_grows s s.
Proof. done. Qed.
Lemma log_grows_trans s1 s2 s3 : log_grows s1 s2 → log_grows s2 s3 → log_grows s1 s3.
Proof.
  intros H12 H23 a Ha. destruct (H12 a Ha) as [Ha2 Hv2]. destruct (H23 a Ha2) as [Ha3 Hv3].
  split; [done|congruence].
Qed.

Section LogView.
Context `{E : Env}.
Implicit Types s : lsfs_context.

(** Nothing but the tables behind the log changes. *)
Lemma log_grows_same s s' :
  c_segbuf s' = c_segbuf s → c_disk s' = c_disk s →
  st_count (c_segtable s') = st_count (c_segtable s) →
  (∀ j, free_at (st_entries (c_segtable s)) j = false → free_at (st_entries (c_segtable s')) j = false) →
  log_grows s s'.
Proof.
  intros Hb Hd Hc Hf a (seg & off & -> & Hseg & Hoff & Hfree & Hcur). split.
  - exists seg, off. rewrite Hc, Hb. split_and!; try done; try lia. by apply Hf.
  - unfold log_view. by rewrite Hb, Hd.
Qed.

(** Appending to a buffer with room. *)
Lemma log_grows_append s data info :
  log_wf s → sg_block_count (c_segbuf s) < LSFS_SEGMENT_BLOCKS →
  let a := lsfs_segment_to_block (sg_segment_id (c_segbuf s)) (sg_block_count (c_segbuf s)) in
  let s' := after_append data info s in
  log_grows s s' ∧ live_addr s' a ∧ log_view s' a = data ∧ ¬ live_addr s a.
Proof.
  intros Hs Hlt a s'. subst s'. pose proof (lw_count s Hs) as Hc. pose proof (lw_segment s Hs) as Hid.
  pose proof (live_valid s _ Hs Hid) as Hv. pose proof (lw_data_length s Hs) as Hl.
  unfold seg_blocks_nat, LSFS_SEGMENT_BLOCKS in *.
  split_and!.
  - intros x (seg & off & -> & Hseg & Hoff & Hfree & Hcur). split.
    + exists seg, off. split_and!; try done; try apply Hseg; try lia. intros Heq. specialize (Hcur Heq). cbn. lia.
    + rewrite !log_view_at by (by eapply live_valid || (unfold LSFS_SEGMENT_BLOCKS in *; lia)).
      cbn [c_segbuf after_append field_set sg_segment_id sg_block_count sg_data c_disk].
      destruct (Z.eqb_spec seg (sg_segment_id (c_segbuf s))) as [Heq|]; [|done].
      specialize (Hcur Heq). cbn [andb].
      rewrite !(proj2 (Z.ltb_lt _ _)) by lia. f_equal. unfold arr_get.
      rewrite (proj2 (Z.ltb_ge _ _)) by lia. apply list_lookup_insert_ne. lia.
  - exists (sg_segment_id (c_segbuf s)), (sg_block_count (c_segbuf s)).
    split_and!; try done; try apply Hid; try lia; [apply (lw_current s Hs)|]. cbn. lia.
  - unfold a. rewrite log_view_at by (done || (unfold LSFS_SEGMENT_BLOCKS; lia)).
    cbn [c_segbuf after_append field_set sg_segment_id sg_block_count sg_data].
    rewrite Z.eqb_refl, (proj2 (Z.ltb_lt _ _)) by lia. cbn [andb].
    unfold arr_get. rewrite (proj2 (Z.ltb_ge _ _)) by lia.
    rewrite list_lookup_insert_eq by lia. done.
  - intros (seg & off & Heq & Hseg & Hoff & _ & Hcur). unfold a, LSFS_SEGMENT_BLOCKS in *.
    rewrite !segment_to_block_eq in Heq by (first [lia | by apply (live_valid s)]).
    unfold LSFS_SEGMENT_BLOCKS in Heq.
    assert (seg = sg_segment_id (c_segbuf s)) as Hsq by lia. specialize (Hcur Hsq). lia.
Qed.

Lemma log_view_buffer s off :
  log_wf s → 1 <= off < sg_block_count (c_segbuf s) →
  log_view s (lsfs_segment_to_block (sg_segment_id (c_segbuf s)) off) =
    default zero_block (sg_data (c_segbuf s) !! Z.to_nat off).
Proof.
  intros Hs Hoff. pose proof (lw_count s Hs) as Hc.
  rewrite log_view_at by ((by apply (live_valid s), (lw_segment s Hs)) || lia).
  rewrite Z.eqb_refl, (proj2 (Z.ltb_lt _ _)) by lia. cbn [andb]. f_equal.
  unfold arr_get. by rewrite (proj2 (Z.ltb_ge _ _)) by lia.
Qed.

Lemma log_view_disk s seg off :
  valid_segment seg → 0 <= off < LSFS_SEGMENT_BLOCKS → seg ≠ sg_segment_id (c_segbuf s) →
  log_view s (lsfs_segment_to_block seg off) = disk_block (c_disk s) (lsfs_segment_to_block seg off).
Proof. intros Hv Ho Hne. rewrite log_view_at by done. by rewrite (proj2 (Z.eqb_neq _ _)). Qed.

(** Where a block of another segment lies. *)
Lemma other_segment_outside seg seg' off n :
  valid_segment seg → valid_segment seg' → seg ≠ seg' → 0 <= off < LSFS_SEGMENT_BLOCKS →
  n <= LSFS_SEGMENT_BLOCKS →
  LSFS_LOG_START <= lsfs_segment_to_block seg off ∧
  ¬ lsfs_segment_to_block seg' 0 <= lsfs_segment_to_block seg off < lsfs_segment_to_block seg' 0 + n.
Proof.
  intros Hv Hv' Hne Hoff Hn. unfold LSFS_SEGMENT_BLOCKS in Hoff.
  rewrite !segment_to_block_eq by (done || lia).
  unfold valid_segment, LSFS_SEGMENT_BLOCKS in *. lia.
Qed.

(** ** Flushing *)

(** A flush that could not write the segment: the buffer keeps its blocks, and the
    disk has changed at most where the segment belongs. *)
Record flush_failed s s' : Prop := {
  ff_table : c_segtable s' = c_segtable s;
  ff_segment : sg_segment_id (c_segbuf s') = sg_segment_id (c_segbuf s);
  ff_count : sg_block_count (c_segbuf s') = sg_block_count (c_segbuf s);
  ff_data i : (0 < i)%nat → sg_data (c_segbuf s') !! i = sg_data (c_segbuf s) !! i;
  ff_disk a : let start := lsfs_segment_to_block (sg_segment_id (c_segbuf s)) 0 in
    ¬ start <= a < start + sg_block_count (c_segbuf s) →
    disk_block (c_disk s') a = disk_block (c_disk s) a }.

Lemma segment_flush_idle s :
  sg_block_count (c_segbuf s) <= 1 → lsfs_segment_flush s = Some (LSFS_OK, s).
Proof.
  intros H. rewrite segment_flush_eq. unfold segment_flush_body. erewrite bind_run by done.
  by rewrite (proj2 (Z.leb_le _ _) H).
Qed.

Lemma segment_flush_failed s :
  log_wf s → wp lsfs_segment_flush (λ r s', r ≠ LSFS_OK → flush_failed s s') s.
Proof.
  intros Hs. unfold wp. rewrite segment_flush_eq.
  fold (wp (segment_flush_body checkpoint_commit) (λ r s', r ≠ LSFS_OK → flush_failed s s') s).
  pose proof (lw_count s Hs) as Hc. pose proof (lw_data_length s Hs) as Hl.
  unfold segment_flush_body. do 2 wp_step.
  destruct (Z.leb_spec (sg_block_count (c_segbuf s)) 1); [by apply wp_ret|].
  wp_step. eapply wp_mono; [apply time_now_frame|]. intros now s1 (Hf1 & Hd1 & Hnow).
  pose proof (log_wf_frame _ _ Hf1 Hs) as Hs1.
  assert (c_segbuf s = c_segbuf s1 ∧ c_segtable s = c_segtable s1) as [Hb Ht] by by rewrite Hf1.
  rewrite Hb in *. apply wp_if_ok, segment_write_out_wp; [done..|].
  intros blk0 blk r s2 _ _ Hblk Hw Hf2. case_decide as Hr.
  - eapply wp_mono; [apply segment_flush_tail_wp|].
    + eapply log_wf_frame; [exact Hf2|]. by apply with_block0_wf.
    + done.
    + by rewrite Hf2.
    + by rewrite Hf2.
    + by intros r' s3 [-> _].
  - intros _. pose proof (segment_in_disk s1 _ 0 (sg_block_count (c_segbuf s1)) Hs1 (lw_segment s1 Hs1)
      ltac:(done) ltac:(lia) ltac:(lia)) as Hin.
    unfold seg_blocks_nat, LSFS_SEGMENT_BLOCKS in *.
    assert (Z.of_nat (length (take (Z.to_nat (sg_block_count (c_segbuf s1)))
      (<[0%nat:=blk]> (sg_data (c_segbuf s1))))) = sg_block_count (c_segbuf s1)) as Hlen
      by (rewrite length_take, length_insert; lia).
    destruct (wp_run _ _ _ _ _ (write_blocks_frame (with_block0 blk s1) _ _
      ltac:(rewrite Hlen; apply in_disk_addressable, Hin)) Hw) as [_ Hout].
    rewrite Hlen in Hout.
    assert (c_segtable s2 = c_segtable s1 ∧ c_segbuf s2 = c_segbuf (with_block0 blk s1)) as [Ht2 Hb2]
      by by rewrite Hf2.
    split; rewrite ?Ht2, ?Hb2, ?Hb; try done.
    + intros i Hi. cbn. apply list_lookup_insert_ne. lia.
    + intros a start Ha. rewrite Hout by done. cbn. by rewrite Hd1.
Qed.

Lemma flush_failed_grows s s' : log_wf s → flush_failed s s' → log_grows s s'.
Proof.
  intros Hs [Ht Hid Hc Hdata Hdisk] a (seg & off & -> & Hseg & Hoff & Hfree & Hcur).
  pose proof (live_valid s seg Hs Hseg) as Hv. split.
  - exists seg, off. by rewrite Ht, Hid, Hc.
  - rewrite !log_view_at by (done || lia). rewrite Hid, Hc.
    destruct (Z.eqb_spec seg (sg_segment_id (c_segbuf s))) as [Heq|Hne]; cbn [andb].
    + specialize (Hcur Heq). rewrite (proj2 (Z.ltb_lt _ _)) by lia. f_equal. unfold arr_get.
      rewrite (proj2 (Z.ltb_ge _ _)) by lia. apply Hdata. lia.
    + apply Hdisk. pose proof (lw_count s Hs).
      apply other_segment_outside; try done; [|lia..]. by apply (live_valid s), (lw_segment s Hs).
Qed.

(** A successful flush puts the live blocks on disk, and keeps the view of them when
    the buffer moves to a free segment. *)
Lemma flushed_view s s' blk :
  log_wf s → flushed_to (c_segbuf s) blk (c_disk s) (c_disk s') →
  ∀ a, live_addr s a → disk_block (c_disk s') a = log_view s a.
Proof.
  intros Hs [Hin Hout] a (seg & off & -> & Hseg & Hoff & Hfree & Hcur).
  pose proof (live_valid s seg Hs Hseg) as Hv. pose proof (lw_count s Hs) as Hc.
  pose proof (lw_data_length s Hs) as Hl.
  pose proof (live_valid s _ Hs (lw_segment s Hs)) as Hvc.
  unfold seg_blocks_nat in Hl.
  destruct (Z.eq_dec seg (sg_segment_id (c_segbuf s))) as [Heq|Hne].
  - specialize (Hcur Heq). subst seg. rewrite log_view_buffer by (done || lia).
    unfold LSFS_SEGMENT_BLOCKS in *.
    destruct (lookup_lt_is_Some_2 (sg_data (c_segbuf s)) (Z.to_nat off)) as [x Hx]; [lia|].
    rewrite Hx. cbn [default]. unfold id. rewrite <-(Hin (Z.to_nat off) x).
    + rewrite !segment_to_block_eq by (done || lia). f_equal; lia.
    + lia.
    + by rewrite list_lookup_insert_ne by lia.
  - rewrite log_view_disk by (done || lia).
    destruct (other_segment_outside seg (sg_segment_id (c_segbuf s)) off (sg_block_count (c_segbuf s)))
      as [Hlo Ho]; try done; [lia..|]. by apply Hout.
Qed.

Lemma flushed_grows s s' :
  log_wf s → log_frame s s' → segment_moved s s' → 0 < st_free_count (c_segtable s) →
  (∀ a, live_addr s a → disk_block (c_disk s') a = log_view s a) → log_grows s s'.
Proof.
  intros Hs Hf [Hlive Hfree _] Hpos Hd a Ha. destruct (Hfree Hpos) as [Hnew _].
  rewrite <-(Hd a Ha). destruct Ha as (seg & off & -> & Hseg & Hoff & Hfr & Hcur).
  assert (seg ≠ sg_segment_id (c_segbuf s')) as Hne by congruence. split.
  - exists seg, off. rewrite (lf_st_count _ _ Hf). split_and!; try done; try lia. by apply Hlive.
  - apply log_view_disk; [by apply (live_valid s)|lia|done].
Qed.

(** With nothing in the buffer the live blocks are on disk. *)
Lemma idle_view s :
  log_wf s → sg_block_count (c_segbuf s) <= 1 → ∀ a, live_addr s a → disk_block (c_disk s) a = log_view s a.
Proof.
  intros Hs Hle a (seg & off & -> & Hseg & Hoff & Hfree & Hcur).
  symmetry. apply log_view_disk; [by apply (live_valid s)|lia|]. intros Heq. specialize (Hcur Heq). lia.
Qed.

(** What a flush promises while a free segment is left. *)
Definition flush_kept s (r : Z) s' : Prop :=
  log_wf s' ∧ log_frame s s' ∧ log_grows s s' ∧
  st_free_count (c_segtable s) - 1 <= st_free_count (c_segtable s') ∧
  (r = LSFS_OK → sg_block_count (c_segbuf s') = 1 ∧
     ∀ a, live_addr s a → disk_block (c_disk s') a = log_view s a).

Lemma segment_flush_kept s :
  log_wf s → 0 < st_free_count (c_segtable s) → wp lsfs_segment_flush (flush_kept s) s.
Proof.
  intros Hs Hpos. pose proof (lw_count s Hs) as Hc.
  destruct (Z.le_gt_cases (sg_block_count (c_segbuf s)) 1) as [Hle|Hgt].
  { eapply wp_intro; [by apply segment_flush_idle|]. split_and!; [done..|lia|]. intros _.
    split; [lia|by apply idle_view]. }
  eapply wp_mono; [apply wp_and; [by apply segment_flush_wp|by apply segment_flush_failed]|].
  intros r s' [(Hs' & Hf & Hok) Hfail]. unfold flush_kept.
  destruct (decide (r = LSFS_OK)) as [Hr|Hr].
  - destruct (Hok Hr) as [Hc1 (now & blk0 & blk & _ & _ & _ & Hto & Hmv)]; [lia|].
    pose proof (flushed_view s s' blk Hs Hto) as Hd.
    destruct (sm_free _ _ Hmv Hpos) as [_ Hfc].
    split_and!; [done|done|by apply flushed_grows|lia|done].
  - specialize (Hfail Hr). split_and!; [done|done|by apply flush_failed_grows| |done].
    rewrite (ff_table _ _ Hfail). lia.
Qed.

(** ** A segment the log does not write to *)

(** Segment [seg] is in use and is not the one being filled. *)
Definition away (seg : Z) s : Prop :=
  0 <= seg < st_count (c_segtable s) ∧ free_at (st_entries (c_segtable s)) seg = false ∧
  sg_segment_id (c_segbuf s) ≠ seg.

Lemma segment_flush_away s seg :
  log_wf s → away seg s → wp lsfs_segment_flush (λ _ s', away seg s') s.
Proof.
  intros Hs (Hc & Hf & Hne). pose proof (lw_count s Hs) as Hcount.
  destruct (Z.le_gt_cases (sg_block_count (c_segbuf s)) 1) as [Hle|Hgt].
  { eapply wp_intro; [by apply segment_flush_idle|]. done. }
  eapply wp_mono; [apply wp_and; [by apply segment_flush_wp|by apply segment_flush_failed]|].
  intros r s' [(Hs' & Hlf & Hok) Hfail]. unfold away. rewrite (lf_st_count _ _ Hlf).
  destruct (decide (r = LSFS_OK)) as [Hr|Hr].
  - destruct (Hok Hr) as [_ (now & blk0 & blk & _ & _ & _ & _ & [Hlive Hfree Hfull])]; [lia|].
    split_and!; [lia..|by apply Hlive|]. pose proof (st_wf_free _ (lw_table s Hs)) as Hfc.
    pose proof (count_free_bounds (st_entries (c_segtable s))).
    destruct (decide (st_free_count (c_segtable s) = 0)) as [H0|Hpos].
    + by destruct (Hfull H0) as [-> _].
    + destruct (Hfree ltac:(lia)) as [Hnew _]. congruence.
  - destruct (Hfail Hr) as [-> -> _ _ _]. split_and!; [lia..|done|done].
Qed.

(** ** Appending *)
Definition append_kept s data (a : Z) s' : Prop :=
  log_wf s' ∧ log_frame s s' ∧ log_grows s s' ∧
  st_free_count (c_segtable s) - 1 <= st_free_count (c_segtable s') ∧
  (a ≠ 0 → ¬ live_addr s a ∧ live_addr s' a ∧ log_view s' a = data).

Lemma segment_append_kept s data ino offset type :
  log_wf s → block_args data ino offset type → 0 < st_free_count (c_segtable s) →
  wp (lsfs_segment_append_block data ino offset type) (append_kept s data) s.
Proof.
  intros Hs Hargs Hpos.
  apply (segment_append_wp (λ s', log_grows s s' ∧
    st_free_count (c_segtable s) - 1 <= st_free_count (c_segtable s'))); try done.
  - split; [done|lia].
  - eapply wp_mono; [by apply segment_flush_kept|]. by intros r s' (_ & _ & ? & ? & _).
  - intros s' _ Hs' Hf [Hg Hfc]. by split_and!.
  - intros s1 info Hs1 [Hg Hfc] Hf1 Hlt _ _ Hs2.
    destruct (log_grows_append s1 data (new_info info ino offset type) Hs1 Hlt) as (Hg2 & Hl & Hv & Hfresh).
    split_and!; [done| |by eapply log_grows_trans|done|].
    + by eapply log_frame_trans.
    + intros _. split_and!; [|done..]. intros Hlive. by destruct (Hg _ Hlive).
Qed.

(** ** Any call, and sequences of calls *)
Definition call_kept s s' : Prop :=
  log_wf s' ∧ log_frame s s' ∧ log_grows s s' ∧
  st_free_count (c_segtable s) - 1 <= st_free_count (c_segtable s').

Lemma commit_frame_grows s s' : log_wf s → commit_frame s s' → log_grows s s'.
Proof.
  intros Hs Hf a (seg & off & -> & Hseg & Hoff & Hfree & Hcur).
  pose proof (live_valid s seg Hs Hseg) as Hv. split.
  - exists seg, off. by rewrite (cf_segtable _ _ Hf), (cf_segbuf _ _ Hf).
  - rewrite !log_view_at by (done || lia). rewrite (cf_segbuf _ _ Hf). case_match; [done|].
    apply (cf_log _ _ Hf). unfold LSFS_SEGMENT_BLOCKS in Hoff. rewrite segment_to_block_eq by (done || lia).
    unfold LSFS_SEGMENT_BLOCKS. lia.
Qed.

Lemma checkpoint_write_kept s :
  log_wf s → 0 < st_free_count (c_segtable s) → wp lsfs_checkpoint_write (λ _ s', call_kept s s') s.
Proof.
  intros Hs Hpos. unfold lsfs_checkpoint_write, checkpoint_write_body. do 2 wp_step. apply wp_if_ok.
  assert (wp (if 1 <? sg_block_count (c_segbuf s) then lsfs_segment_flush else mret LSFS_OK)
    (λ _ s', call_kept s s') s) as H.
  { destruct (1 <? sg_block_count (c_segbuf s)).
    - eapply wp_mono; [by apply segment_flush_kept|]. by intros r s' (? & ? & ? & ? & _).
    - apply wp_ret. split_and!; [done..|lia]. }
  eapply wp_mono; [exact H|]. intros r s1 Hk. case_decide; [|done]. destruct Hk as (Hs1 & Hf1 & Hg1 & Hfc1).
  eapply wp_mono; [by apply checkpoint_commit_frame|]. intros r2 s2 Hf2.
  split_and!; [eapply commit_frame_wf; [exact Hf2|exact Hs1]|..|].
  - eapply log_frame_trans; [exact Hf1|by apply commit_log_frame].
  - eapply log_grows_trans; [exact Hg1|by apply commit_frame_grows].
  - by rewrite (cf_segtable _ _ Hf2).
Qed.

Lemma log_run_kept c s :
  log_wf s → log_call_ok c → 0 < st_free_count (c_segtable s) → wp (log_run c) (λ _ s', call_kept s s') s.
Proof.
  intros Hs Hc Hpos. destruct c as [data ino offset type| |]; cbn [log_run log_call_ok] in *.
  - eapply wp_mono; [by apply segment_append_kept|]. by intros r s' (? & ? & ? & ? & _).
  - eapply wp_mono; [by apply segment_flush_kept|]. by intros r s' (? & ? & ? & ? & _).
  - by apply checkpoint_write_kept.
Qed.

Definition run_calls (cs : list log_call) : Op () := for_each cs (λ c, _ ← log_run c; mret tt).

Lemma run_calls_kept cs s n :
  log_wf s → Forall log_call_ok cs → 0 <= n → Z.of_nat (length cs) + n <= st_free_count (c_segtable s) →
  wp (run_calls cs) (λ _ s', log_wf s' ∧ log_grows s s' ∧ n <= st_free_count (c_segtable s')) s.
Proof.
  intros Hs Hcs Hn0 Hn.
  eapply (wp_for_each cs _ (λ l s', Forall log_call_ok l ∧ log_wf s' ∧ log_grows s s' ∧
    Z.of_nat (length l) + n <= st_free_count (c_segtable s'))); [done| |].
  - intros c l s1 (Hc & Hs1 & Hg1 & Hfc). apply Forall_cons in Hc as [Hc Hl]. cbn [length] in Hfc. wp_step.
    eapply wp_mono; [apply log_run_kept; [done..|lia]|]. intros r s2 (Hs2 & _ & Hg2 & Hfc2). apply wp_ret.
    split_and!; [done..|by eapply log_grows_trans|lia].
  - by intros s1 (_ & Hs1 & Hg1 & ?).
Qed.
End LogView.

(** * Theorems *)

(** C13. A block once appended survives: its address was not in use before, and in every
    environment, whatever the following calls append, flush and checkpoint and however
    many of their writes fail, the next flush that reports success leaves the data on
    disk at that address.  One free segment per call is enough for it. *)
Theorem append_survives `{E : Env} s data ino offset type (cs : list log_call) :
  log_wf s → block_args data ino offset type → Forall log_call_ok cs →
  Z.of_nat (length cs) + 2 <= st_free_count (c_segtable s) →
  wp (lsfs_segment_append_block data ino offset type) (λ a s1, a ≠ 0 →
    ¬ live_addr s a ∧
    wp (run_calls cs) (λ _ s2,
      log_view s2 a = data ∧
      wp lsfs_segment_flush (λ r s3, r = LSFS_OK → disk_block (c_disk s3) a = data) s2) s1) s.
Proof.
  intros Hs Hargs Hcs Hn. eapply wp_mono; [apply segment_append_kept; [done..|lia]|].
  intros a s1 (Hs1 & Hf1 & Hg1 & Hfc1 & Hnew) Ha. destruct (Hnew Ha) as (Hfresh & Hlive & Hview).
  split; [done|]. eapply wp_mono; [apply (run_calls_kept cs s1 1); [done..|lia]|].
  intros [] s2 (Hs2 & Hg2 & Hfc2). destruct (Hg2 a Hlive) as [Hlive2 Hview2].
  split; [congruence|]. eapply wp_mono; [apply segment_flush_kept; [done|lia]|].
  intros r s3 (_ & _ & _ & _ & Hok) Hr. destruct (Hok Hr) as [_ Hd]. rewrite (Hd a Hlive2). congruence.
Qed.

(** C27. Without a free segment a successful flush does not move on: the buffer starts again
    at the segment it has just written, and the next append returns the address of a
    block already handed out, whose contents are then the new data. *)
Theorem full_log_overwrites `{E : Env} s data ino offset type :
  log_wf s → block_args data ino offset type →
  st_free_count (c_segtable s) = 0 → 1 < sg_block_count (c_segbuf s) →
  wp lsfs_segment_flush (λ r s1, r = LSFS_OK →
    wp (lsfs_segment_append_block data ino offset type) (λ a s2,
      a = lsfs_segment_to_block (sg_segment_id (c_segbuf s)) 1 ∧
      live_addr s a ∧ disk_block (c_disk s1) a = log_view s a ∧ log_view s2 a = data) s1) s.
Proof.
  intros Hs Hargs Hfc Hc. eapply wp_mono; [by apply segment_flush_wp|].
  intros r s1 (Hs1 & Hf1 & Hok) Hr.
  destruct (Hok Hr) as [Hc1 (now & blk0 & blk & _ & _ & _ & Hto & Hmv)]; [lia|].
  destruct (sm_full _ _ Hmv Hfc) as [Hid _].
  assert (live_addr s (lsfs_segment_to_block (sg_segment_id (c_segbuf s)) 1)) as Hlive.
  { exists (sg_segment_id (c_segbuf s)), 1. split_and!; try done; try apply (lw_segment s Hs).
    apply (lw_current s Hs). }
  apply (segment_append_wp (λ _, True)); [done..| | |].
  - eapply wp_mono; [by apply segment_flush_wp|done].
  - unfold LSFS_SEGMENT_BLOCKS. lia.
  - intros s2 info Hs2 _ Hf2 Hlt Heq _ _. rewrite (Heq ltac:(unfold LSFS_SEGMENT_BLOCKS; lia)) in *.
    rewrite Hc1, Hid. split_and!; [done..|by eapply flushed_view|].
    destruct (log_grows_append s1 data (new_info info ino offset type) Hs1 Hlt) as (_ & _ & Hv & _).
    by rewrite Hc1, Hid in Hv.
Qed.
