(* ===== verification/Inode.v ===== *)
(** The inode layer, [src/inode.c]: the inode cache, inode allocation and write-out,
    and the mapping from file blocks to disk blocks.  A pointer to a cached inode is
    its address in the cache's heap. *)
From S2P Require Import Prelude OnDisk Lru Context Io Imap SegTable Log.

Definition inode_hash (ino : Z) : Z := ino mod LSFS_INODE_CACHE_BUCKETS.

Definition zero_inode : lsfs_inode :=
  mk_inode 0 0 0 0 0 0 0 0 0 0 0 (replicate 12 0) 0 0 (replicate 64 0) 0 (replicate i_reserved_len 0).

Definition empty_inode_cache : lsfs_inode_cache :=
  mk_inode_cache ∅ 1 (replicate (Z.to_nat LSFS_INODE_CACHE_BUCKETS) None) lru_empty 0.

(** Pointers per indirect block. *)
Definition blocks_per_indirect : Z := LSFS_BLOCK_SIZE / 8.
Definition ptrs_of_block (blk : list Z) : list Z := dec_u64s (Z.to_nat blocks_per_indirect) blk.

(** Where [lsfs_inode_get] looks for an inode in the block the map names. *)
Definition inode_offset (ino : Z) : nat := (Z.to_nat (ino mod 16) * sizeof lsfs_inode)%nat.

(** [struct stat] as filled by [lsfs_inode_to_stat]; the other fields are zero. *)
Record stat := mk_stat {
  st_ino : Z; st_mode : Z; st_nlink : Z; st_uid : Z; st_gid : Z; st_size : Z;
  st_blocks : Z; st_blksize : Z;
  st_atim : Z * Z; st_mtim : Z * Z; st_ctim : Z * Z }.

Definition timespec_of_ns (t : Z) : Z * Z := (t / 1000000000, t mod 1000000000).

Definition lsfs_inode_to_stat (i : lsfs_inode) : stat :=
  mk_stat (i_ino i) (i_mode i) (i_nlink i) (i_uid i) (i_gid i) (i_size i)
    (u64 (i_size i + 511) / 512) LSFS_BLOCK_SIZE
    (timespec_of_ns (i_atime i)) (timespec_of_ns (i_mtime i)) (timespec_of_ns (i_ctime i)).

Section InodeOps.
Context `{E : Env}.

Definition lsfs_get_time_ns : Op Z :=
  ts ← ask env_clock;
  mret (u64 (u64 (u64 ts.1 * 1000000000) + u64 ts.2)).

(** ** The cache *)

Definition set_icache (f : lsfs_inode_cache → lsfs_inode_cache) : Op () :=
  modify (λ s, s <| c_icache ::= f |>).

Definition lsfs_inode_cache_init : Op Z :=
  _ ← set_icache (λ _, empty_inode_cache);
  ok ← ask env_alloc;
  mret (if (ok : bool) then LSFS_OK else LSFS_ERR_NOMEM).

(** [inode->field] for the inode at address [p]; a freed address has no inode. *)
Definition load_inode (p : Z) : Op lsfs_inode_mem :=
  c ← gets c_icache;
  of_opt (ic_heap c !! p).

Definition upd_inode (p : Z) (f : lsfs_inode_mem → lsfs_inode_mem) : Op () :=
  i ← load_inode p;
  set_icache (λ c, c <| ic_heap ::= <[p := f i]> |>).

Definition upd_disk_inode (p : Z) (f : lsfs_inode → lsfs_inode) : Op () :=
  upd_inode p (λ i, i <| im_disk_inode ::= f |>).

Definition set_inode_bucket (h : Z) (v : option Z) : Op () :=
  c ← gets c_icache;
  bs ← of_opt (arr_set (ic_buckets c) h v);
  set_icache (λ c, c <| ic_buckets := bs |>).

Definition get_inode_bucket (h : Z) : Op (option Z) :=
  c ← gets c_icache;
  of_opt (arr_get (ic_buckets c) h).

(** [calloc] of a new inode, which enters its chain and the LRU list. *)
Definition cache_insert (hash : Z) (i : lsfs_inode_mem) : Op Z :=
  c ← gets c_icache;
  let p := ic_brk c in
  first ← get_inode_bucket hash;
  _ ← set_icache (λ c, c <| ic_brk ::= Z.succ |> <| ic_heap ::= <[p := i <| im_next := first |>]> |>);
  _ ← set_inode_bucket hash (Some p);
  _ ← set_icache (λ c, c <| ic_lru ::= inode_lru_add p |> <| ic_count ::= λ n, u32 (n + 1) |>);
  mret p.

(** Writing an inode to the log; the block holds the inode at its beginning and the
    memory that follows it. *)
Definition lsfs_inode_write (p : Z) : Op Z :=
  i ← load_inode p;
  if negb (im_dirty i) then mret LSFS_OK else
  _ ← (if negb (im_disk_location i =? 0)
       then lsfs_gc_mark_block_dead (im_disk_location i) else mret tt);
  junk ← ask env_mem;
  new_location ← lsfs_segment_append_block (over_read (enc (im_disk_inode i)) junk)
    (i_ino (im_disk_inode i)) 0 LSFS_BLOCK_TYPE_INODE;
  if new_location =? 0 then mret LSFS_ERR_NOSPC else
  _ ← lsfs_imap_set (i_ino (im_disk_inode i)) new_location;
  _ ← upd_inode p (λ i, i <| im_disk_location := new_location |>
                          <| im_version ::= λ v, u32 (v + 1) |> <| im_dirty := false |>);
  mret LSFS_OK.

(** The inner loop of [inode_cache_evict]: the first inode without references. *)
Fixpoint find_victim (fuel : nat) (cur : option Z) : Op (option Z) :=
  match fuel with
  | O => undefined
  | S fuel =>
      match cur with
      | None => mret None
      | Some p =>
          i ← load_inode p;
          if 0 <? im_refcount i
          then c ← gets c_icache; find_victim fuel (lru_next (ic_lru c) !! p)
          else mret (Some p)
      end
  end.

(** Taking [p] out of its hash chain; [prev] is the inode whose [next] is looked at. *)
Fixpoint inode_unchain_from (fuel : nat) (p prev : Z) : Op () :=
  match fuel with
  | O => undefined
  | S fuel =>
      i ← load_inode prev;
      match im_next i with
      | None => mret tt
      | Some q =>
          if q =? p then
            v ← load_inode p;
            upd_inode prev (λ i, i <| im_next := im_next v |>)
          else inode_unchain_from fuel p q
      end
  end.

Definition cache_fuel (c : lsfs_inode_cache) : nat := S (size (ic_heap c)).

(** Freeing the inodes of a hash chain. *)
Fixpoint free_chain (fuel : nat) (cur : option Z) : Op () :=
  match fuel with
  | O => undefined
  | S fuel =>
      match cur with
      | None => mret tt
      | Some p =>
          i ← load_inode p;
          _ ← set_icache (λ c, c <| ic_heap ::= delete p |>);
          free_chain fuel (im_next i)
      end
  end.

Definition lsfs_inode_cache_destroy : Op () :=
  for_each (seqZ 0 LSFS_INODE_CACHE_BUCKETS) (λ k,
    first ← get_inode_bucket k;
    c ← gets c_icache;
    free_chain (cache_fuel c) first).

Definition inode_unchain (p : Z) : Op () :=
  v ← load_inode p;
  let hash := inode_hash (i_ino (im_disk_inode v)) in
  first ← get_inode_bucket hash;
  c ← gets c_icache;
  match first with
  | None => mret tt
  | Some q => if q =? p then set_inode_bucket hash (im_next v)
              else inode_unchain_from (cache_fuel c) p q
  end.

Fixpoint inode_cache_evict_loop (fuel : nat) : Op () :=
  match fuel with
  | O => undefined
  | S fuel =>
      c ← gets c_icache;
      if ic_count c <? LSFS_INODE_CACHE_SIZE then mret tt else
      victim ← find_victim (cache_fuel c) (lru_head (ic_lru c));
      match victim with
      | None => mret tt
      | Some p =>
          v ← load_inode p;
          _ ← (if im_dirty v then lsfs_inode_write p else mret LSFS_OK);
          _ ← inode_unchain p;
          _ ← set_icache (λ c, c <| ic_lru ::= inode_lru_remove p |>
                                 <| ic_heap ::= delete p |>
                                 <| ic_count ::= λ n, u32 (n - 1) |>);
          inode_cache_evict_loop fuel
      end
  end.

Definition inode_cache_evict : Op () :=
  c ← gets c_icache;
  inode_cache_evict_loop (S (Z.to_nat (ic_count c))).

(** The search of [lsfs_inode_get] in a hash chain. *)
Fixpoint inode_find (fuel : nat) (ino : Z) (cur : option Z) : Op (option Z) :=
  match fuel with
  | O => undefined
  | S fuel =>
      match cur with
      | None => mret None
      | Some p =>
          i ← load_inode p;
          if i_ino (im_disk_inode i) =? ino then mret (Some p)
          else inode_find fuel ino (im_next i)
      end
  end.

Definition lsfs_inode_get (ino : Z) : Op (option Z) :=
  let hash := inode_hash ino in
  first ← get_inode_bucket hash;
  c ← gets c_icache;
  hit ← inode_find (cache_fuel c) ino first;
  match hit with
  | Some p =>
      _ ← upd_inode p (λ i, i <| im_refcount ::= λ n, u32 (n + 1) |>);
      _ ← set_icache (λ c, c <| ic_lru ::= inode_lru_remove p |>);
      _ ← set_icache (λ c, c <| ic_lru ::= inode_lru_add p |>);
      mret (Some p)
  | None =>
      m ← lsfs_imap_get ino;
      match m with
      | Err _ => mret None
      | Ok (location, version) =>
          _ ← inode_cache_evict;
          ok ← ask env_alloc;
          if negb ok then mret None else
          r ← lsfs_read_block location;
          match r with
          | Err _ => mret None
          | Ok block =>
              junk ← ask env_mem;
              let i := dec (drop (inode_offset ino) (block ++ (u8 <$> junk) ++ zero_block)) : lsfs_inode in
              if negb (i_ino i =? ino) then mret None else
              p ← cache_insert hash (mk_inode_mem i location version 1 false None);
              mret (Some p)
          end
      end
  end.

Definition lsfs_inode_put (inode : option Z) : Op () :=
  match inode with
  | None => mret tt
  | Some p =>
      i ← load_inode p;
      if 0 <? im_refcount i then upd_inode p (λ i, i <| im_refcount ::= Z.pred |>) else mret tt
  end.

Definition new_inode (ino mode now generation : Z) : lsfs_inode :=
  zero_inode <| i_ino := ino |> <| i_mode := mode |> <| i_uid := u32 env_uid |>
    <| i_gid := u32 env_gid |> <| i_atime := now |> <| i_mtime := now |> <| i_ctime := now |>
    <| i_nlink := 1 |> <| i_generation := generation |>.

Definition lsfs_inode_alloc (mode : Z) : Op (option Z) :=
  ino ← lsfs_imap_alloc_ino;
  if ino =? 0 then mret None else
  _ ← inode_cache_evict;
  ok ← ask env_alloc;
  if negb ok then mret None else
  now ← lsfs_get_time_ns;
  r ← ask env_rand;
  p ← cache_insert (inode_hash ino) (mk_inode_mem (new_inode ino mode now (u64 r)) 0 0 1 true None);
  _ ← set_sb (λ sb, sb <| sb_inode_count ::= λ n, u64 (n + 1) |>);
  mret (Some p).

(** [if (addr) lsfs_gc_mark_block_dead(ctx, addr)] *)
Definition mark_if_used (addr : Z) : Op () :=
  if negb (addr =? 0) then lsfs_gc_mark_block_dead addr else mret tt.

Definition lsfs_inode_free (p : Z) : Op Z :=
  i ← load_inode p;
  let ino := i_ino (im_disk_inode i) in
  _ ← for_each (seqZ 0 LSFS_DIRECT_BLOCKS) (λ k,
        i ← load_inode p;
        addr ← of_opt (arr_get (i_direct (im_disk_inode i)) k);
        if negb (addr =? 0) then
          _ ← lsfs_gc_mark_block_dead addr;
          ds ← of_opt (arr_set (i_direct (im_disk_inode i)) k 0);
          upd_disk_inode p (λ d, d <| i_direct := ds |>)
        else mret tt);
  _ ← mark_if_used (i_indirect (im_disk_inode i));
  _ ← upd_disk_inode p (λ d, d <| i_indirect := 0 |>);
  _ ← mark_if_used (i_double_indirect (im_disk_inode i));
  _ ← upd_disk_inode p (λ d, d <| i_double_indirect := 0 |>);
  _ ← mark_if_used (im_disk_location i);
  _ ← lsfs_imap_remove ino;
  _ ← upd_inode p (λ i, i <| im_disk_inode ::= λ d, d <| i_flags ::= λ f, Z.lor f LSFS_INODE_DELETED |> |>
                          <| im_dirty := false |>);
  _ ← set_sb (λ sb, if 0 <? sb_inode_count sb then sb <| sb_inode_count ::= Z.pred |> else sb);
  mret LSFS_OK.

(** ** File blocks *)

Definition LSFS_FIRST_DOUBLE : Z := LSFS_DIRECT_BLOCKS + blocks_per_indirect.
Definition LSFS_MAX_FILE_BLOCKS : Z :=
  LSFS_DIRECT_BLOCKS + blocks_per_indirect + blocks_per_indirect * blocks_per_indirect.

(** The address of a file block: 0 for a hole. *)
Definition inode_block_addr (i : lsfs_inode) (block_idx : Z) : Op (res Z) :=
  if block_idx <? LSFS_DIRECT_BLOCKS then
    a ← of_opt (arr_get (i_direct i) block_idx); mret (Ok a)
  else if block_idx <? LSFS_FIRST_DOUBLE then
    if i_indirect i =? 0 then mret (Ok 0) else
    r ← lsfs_read_block (i_indirect i);
    match r with
    | Err _ => mret (Err LSFS_ERR_IO)
    | Ok blk => a ← of_opt (arr_get (ptrs_of_block blk) (block_idx - LSFS_DIRECT_BLOCKS)); mret (Ok a)
    end
  else if block_idx <? LSFS_MAX_FILE_BLOCKS then
    if i_double_indirect i =? 0 then mret (Ok 0) else
    r ← lsfs_read_block (i_double_indirect i);
    match r with
    | Err _ => mret (Err LSFS_ERR_IO)
    | Ok blk =>
        let idx := block_idx - LSFS_DIRECT_BLOCKS - blocks_per_indirect in
        ind ← of_opt (arr_get (ptrs_of_block blk) (idx / blocks_per_indirect));
        if ind =? 0 then mret (Ok 0) else
        r ← lsfs_read_block ind;
        match r with
        | Err _ => mret (Err LSFS_ERR_IO)
        | Ok blk => a ← of_opt (arr_get (ptrs_of_block blk) (idx mod blocks_per_indirect)); mret (Ok a)
        end
    end
  else mret (Err LSFS_ERR_INVAL).

Definition lsfs_inode_read_block (p : Z) (block_idx : Z) : Op (res (list Z)) :=
  i ← load_inode p;
  a ← inode_block_addr (im_disk_inode i) block_idx;
  match a with
  | Err e => mret (Err e)
  | Ok addr => if addr =? 0 then mret (Ok zero_block) else lsfs_read_block addr
  end.

(** The indirect block after an update: the old one is read back from the disk. *)
Definition write_indirect (p : Z) (i : lsfs_inode) (block_idx new_addr : Z) : Op Z :=
  r ← (if i_indirect i =? 0 then mret (Ok zero_block)
       else
         r ← lsfs_read_block (i_indirect i);
         match r with
         | Err _ => mret (Err LSFS_ERR_IO)
         | Ok blk => _ ← lsfs_gc_mark_block_dead (i_indirect i); mret (Ok blk)
         end);
  match r with
  | Err e => mret e
  | Ok blk =>
      ptrs ← of_opt (arr_set (ptrs_of_block blk) (block_idx - LSFS_DIRECT_BLOCKS) new_addr);
      new_indirect ← lsfs_segment_append_block (enc_u64s ptrs) (i_ino i) 0 LSFS_BLOCK_TYPE_INDIRECT;
      if new_indirect =? 0 then mret LSFS_ERR_NOSPC else
      _ ← upd_disk_inode p (λ d, d <| i_indirect := new_indirect |>);
      mret LSFS_OK
  end.

Definition lsfs_inode_write_block (p : Z) (block_idx : Z) (buf : list Z) : Op Z :=
  i ← load_inode p;
  let d := im_disk_inode i in
  old_addr ← (if block_idx <? LSFS_DIRECT_BLOCKS
              then of_opt (arr_get (i_direct d) block_idx) else mret 0);
  _ ← mark_if_used old_addr;
  new_addr ← lsfs_segment_append_block buf (i_ino d) (u32 block_idx) LSFS_BLOCK_TYPE_DATA;
  if new_addr =? 0 then mret LSFS_ERR_NOSPC else
  (if block_idx <? LSFS_DIRECT_BLOCKS then
     ds ← of_opt (arr_set (i_direct d) block_idx new_addr);
     _ ← upd_disk_inode p (λ d, d <| i_direct := ds |>);
     mret LSFS_OK
   else if block_idx <? LSFS_FIRST_DOUBLE then write_indirect p d block_idx new_addr
   else mret LSFS_ERR_NOSPC) ;?
  (_ ← upd_inode p (λ i, i <| im_disk_inode ::= λ d, d <| i_blocks ::= λ b, Z.max b (u64 (block_idx + 1)) |> |>
                           <| im_dirty := true |>);
   mret LSFS_OK).
End InodeOps.
