(* ===== verification/FileView.v ===== *)
(** Files as arrays of blocks: what the block pointers of an inode mean over the log
    ([file_block]), and that [lsfs_inode_write_block] and [lsfs_inode_read_block] of
    [src/inode.c] implement update and lookup of that array once the log is flushed;
    what they do to blocks that are still in the segment buffer. *)
From S2P Require Import Prelude OnDisk Lru Context Io Imap SegTable Log LogView.
From S2P Require Import Inode.

(** Blocks reachable without the double indirect block. *)
Definition file_blocks : Z := 524.

(** The address of block [idx] of a file, 0 for a hole. *)
Definition file_addr (s : lsfs_context) (i : lsfs_inode) (idx : Z) : Z :=
  if idx <? LSFS_DIRECT_BLOCKS then default 0 (i_direct i !! Z.to_nat idx)
  else if i_indirect i =? 0 then 0
  else default 0 (ptrs_of_block (log_view s (i_indirect i)) !! Z.to_nat (idx - LSFS_DIRECT_BLOCKS)).

Definition file_block (s : lsfs_context) (i : lsfs_inode) (idx : Z) : list Z :=
  if file_addr s i idx =? 0 then zero_block else log_view s (file_addr s i idx).

(** The pointers of the inode name live blocks of the log. *)
Record file_wf (s : lsfs_context) (i : lsfs_inode) : Prop := {
  fw_ino : is_u32 (i_ino i);
  fw_direct : length (i_direct i) = 12%nat;
  fw_indirect : i_indirect i ≠ 0 → live_addr s (i_indirect i) ∧ is_block (log_view s (i_indirect i));
  fw_addr idx : 0 <= idx < file_blocks → file_addr s i idx ≠ 0 → live_addr s (file_addr s i idx) }.

(** The block at [a] is not in the segment buffer, so the disk has it. *)
Definition settled (s : lsfs_context) (a : Z) : Prop :=
  (lsfs_block_to_segment a).1 ≠ sg_segment_id (c_segbuf s).

Lemma settled_view s a : settled s a → log_view s a = disk_block (c_disk s) a.
Proof.
  unfold settled, log_view. destruct (lsfs_block_to_segment a) as [seg off]. cbn. intros Hne.
  by rewrite (proj2 (Z.eqb_neq _ _) Hne).
Qed.

(** From [s] to [s'] the log lost nothing and at most [n] free segments were used. *)
Definition kept (n : Z) (s s' : lsfs_context) : Prop :=
  log_wf s' ∧ log_grows s s' ∧
  st_free_count (c_segtable s) - n <= st_free_count (c_segtable s').

Lemma kept_refl s : log_wf s → kept 0 s s.
Proof. intros Hs. split_and!; [done|apply log_grows_refl|lia]. Qed.
Lemma kept_trans n m s1 s2 s3 : kept n s1 s2 → kept m s2 s3 → kept (n + m) s1 s3.
Proof.
  intros (_ & Hg1 & Hc1) (Hs & Hg2 & Hc2). split_and!; [done|by eapply log_grows_trans|lia].
Qed.

(** ** Pointers in an indirect block *)

Lemma length_ptrs blk : length (ptrs_of_block blk) = 512%nat.
Proof. apply length_dec_u64s. Qed.

Lemma dec_u64s_zeros n m k : default 0 (dec_u64s n (replicate k 0) !! m) = 0.
Proof.
  revert m k. induction n as [|n IH]; intros m k; cbn [dec_u64s]; [done|].
  rewrite take_replicate, drop_replicate, le_val_zeros. destruct m as [|m]; [done|]. apply IH.
Qed.

Lemma ptrs_zero_block k : default 0 (ptrs_of_block zero_block !! k) = 0.
Proof. apply dec_u64s_zeros. Qed.

Lemma ptrs_enc ptrs : length ptrs = 512%nat → Forall is_u64 ptrs →
  ptrs_of_block (enc_u64s ptrs) = ptrs ∧ is_block (enc_u64s ptrs).
Proof.
  intros Hl Hp. split; [|split; [|apply enc_u64s_bytes]].
  - unfold ptrs_of_block. change (Z.to_nat blocks_per_indirect) with 512%nat.
    rewrite <-Hl, <-(app_nil_r (enc_u64s ptrs)). by apply dec_enc_u64s.
  - rewrite length_enc_u64s, Hl. done.
Qed.

(** ** Growth of the log and files *)

Section Files.
Context `{E : Env}.
Implicit Types s : lsfs_context.

Lemma file_addr_grows s s' i idx :
  file_wf s i → log_grows s s' → file_addr s' i idx = file_addr s i idx.
Proof.
  intros Hw Hg. unfold file_addr. case_match; [done|].
  destruct (Z.eqb_spec (i_indirect i) 0) as [|Hne]; [done|].
  destruct (fw_indirect s i Hw Hne) as [Hlive _]. by rewrite (proj2 (Hg _ Hlive)).
Qed.

Lemma file_block_grows s s' i idx :
  file_wf s i → log_grows s s' → 0 <= idx < file_blocks → file_block s' i idx = file_block s i idx.
Proof.
  intros Hw Hg Hidx. unfold file_block. rewrite (file_addr_grows s s') by done.
  destruct (Z.eqb_spec (file_addr s i idx) 0) as [|Hne]; [done|].
  apply Hg, (fw_addr s i Hw idx Hidx Hne).
Qed.

Lemma file_wf_grows s s' i : file_wf s i → log_grows s s' → file_wf s' i.
Proof.
  intros Hw Hg. split; [apply Hw|apply Hw|..].
  - intros Hne. destruct (fw_indirect s i Hw Hne) as [Hlive Hblk]. destruct (Hg _ Hlive) as [Hl' ->]. done.
  - intros idx Hidx. rewrite (file_addr_grows s s') by done. intros Hne.
    apply Hg, (fw_addr s i Hw idx Hidx Hne).
Qed.

(** Only the cache differs: the log does not see it. *)
Lemma log_wf_icache s f : log_wf s → log_wf (s <| c_icache ::= f |>).
Proof. intros [? ? ? ? ? ? ? ? ? ? ? ? ? ?]. by split. Qed.

Lemma kept_mono n m s s' : n <= m → kept n s s' → kept m s s'.
Proof. intros Hnm (? & ? & ?). split_and!; try done. lia. Qed.

(** Marking a block dead only changes the usage table's count of live blocks. *)
Lemma mark_dead_kept s a :
  log_wf s → 0 <= a < 2 ^ 64 →
  wp (lsfs_gc_mark_block_dead a) (λ _ s', kept 0 s s' ∧ log_frame s s' ∧ c_segbuf s' = c_segbuf s ∧ c_disk s' = c_disk s) s.
Proof.
  intros Hs Ha. eapply wp_mono; [apply gc_mark_block_dead_spec; [apply (lw_table s Hs)|done]|].
  intros _ s' [->|(i & e & Hi & _ & He & Hpos & ->)].
  { split; [by apply kept_refl|done]. }
  assert (∀ j, free_at (st_entries (c_segtable s)) j = free_at (st_entries (c_segtable (with_entry i
    (λ e, e <| su_live_blocks := u32 (su_live_blocks e - 1) |>) s))) j) as Hfree.
  { intros j. cbn [c_segtable with_entry field_set st_entries].
    erewrite free_at_alter by (done || apply Hi). case_decide; [subst j|done].
    unfold free_at. by rewrite (proj2 (arr_get_lookup _ _ _) (conj (proj1 Hi) He)). }
  pose proof (segtable_wf_dead s i e (lw_table s Hs) He Hpos) as Hwf.
  unfold kept. split_and!; try done.
  - destruct Hs as [? ? ? ? ? ? ? ? ? ? ? ? ? ?]. split; try assumption. by rewrite <-Hfree.
  - apply log_grows_same; try done. intros j. by rewrite <-Hfree.
  - cbn. lia.
Qed.

Lemma mark_if_used_away s a seg :
  log_wf s → 0 <= a < 2 ^ 64 → away seg s → wp (mark_if_used a) (λ _ s', away seg s') s.
Proof.
  intros Hs Ha Haway. unfold mark_if_used. destruct (a =? 0); cbn [negb]; [by apply wp_ret|].
  eapply wp_mono; [apply gc_mark_block_dead_spec; [apply (lw_table s Hs)|done]|].
  intros _ s' [->|(i & e & Hi & _ & He & _ & ->)]; [done|]. destruct Haway as (Hc & Hf & Hne).
  unfold away. cbn [c_segtable with_entry field_set st_count st_entries c_segbuf]. split_and!; [lia..| |done].
  erewrite free_at_alter by (done || lia). case_decide; [|done]. subst seg.
  unfold free_at in Hf. by rewrite (proj2 (arr_get_lookup _ _ _) (conj (proj1 Hi) He)) in Hf.
Qed.

Lemma mark_if_used_kept s a :
  log_wf s → 0 <= a < 2 ^ 64 →
  wp (mark_if_used a) (λ _ s', kept 0 s s' ∧ log_frame s s' ∧ c_segbuf s' = c_segbuf s ∧ c_disk s' = c_disk s) s.
Proof.
  intros Hs Ha. unfold mark_if_used. destruct (a =? 0); cbn [negb]; [|by apply mark_dead_kept].
  apply wp_ret. split; [by apply kept_refl|done].
Qed.

Lemma live_u64 s a : log_wf s → live_addr s a → 0 <= a < 2 ^ 64.
Proof.
  intros Hs (seg & off & -> & Hseg & Hoff & _). pose proof (live_valid s seg Hs Hseg) as Hv.
  unfold LSFS_SEGMENT_BLOCKS in Hoff. rewrite segment_to_block_eq by (done || lia).
  unfold valid_segment, LSFS_SEGMENT_BLOCKS, LSFS_LOG_START in *. lia.
Qed.

Lemma file_addr_u64 s i idx :
  log_wf s → file_wf s i → 0 <= idx < file_blocks → 0 <= file_addr s i idx < 2 ^ 64.
Proof.
  intros Hs Hw Hidx. destruct (Z.eq_dec (file_addr s i idx) 0) as [->|Hne]; [done|].
  apply (live_u64 s); [done|by apply (fw_addr s i Hw)].
Qed.

(** ** Settled blocks stay settled *)

Lemma live_segment s seg off a :
  log_wf s → a = lsfs_segment_to_block seg off → 0 <= seg < st_count (c_segtable s) →
  1 <= off < LSFS_SEGMENT_BLOCKS → (lsfs_block_to_segment a).1 = seg.
Proof.
  intros Hs -> Hseg Hoff. rewrite block_to_segment_to_block; [done|by apply (live_valid s)|lia].
Qed.

Lemma flush_settled s a :
  log_wf s → 0 < st_free_count (c_segtable s) → live_addr s a →
  wp lsfs_segment_flush (λ r s', (settled s a ∨ r = LSFS_OK) → settled s' a) s.
Proof.
  intros Hs Hpos (seg & off & Heq & Hseg & Hoff & Hfree & Hcur).
  pose proof (live_segment s seg off a Hs Heq Hseg Hoff) as Ha. unfold settled. rewrite Ha.
  destruct (Z.le_gt_cases (sg_block_count (c_segbuf s)) 1) as [Hle|Hgt].
  { eapply wp_intro; [by apply segment_flush_idle|]. intros _ Hsg. specialize (Hcur Hsg). lia. }
  eapply wp_mono; [apply wp_and; [by apply segment_flush_wp|by apply segment_flush_failed]|].
  intros r s' [(Hs' & Hf & Hok) Hfail]. destruct (decide (r = LSFS_OK)) as [Hr|Hr].
  - intros _. destruct (Hok Hr) as [_ (now & blk0 & blk & _ & _ & _ & _ & Hmv)]; [lia|].
    destruct (sm_free _ _ Hmv Hpos) as [Hnew _]. congruence.
  - rewrite (ff_segment _ _ (Hfail Hr)). by intros [?|].
Qed.

(** Appending, with a set of settled blocks that stays settled. *)
Lemma append_settled s data ino offset type a :
  log_wf s → block_args data ino offset type → 0 < st_free_count (c_segtable s) → live_addr s a →
  settled s a →
  wp (lsfs_segment_append_block data ino offset type) (λ _ s', settled s' a) s.
Proof.
  intros Hs Hargs Hpos Hl Ha. apply (segment_append_wp (λ s', settled s' a)); try done.
  eapply wp_mono; [by apply flush_settled|]. intros r s' H. apply H. by left.
Qed.

(** ** The cached inode *)

Definition with_inode (p : Z) (im : lsfs_inode_mem) s : lsfs_context :=
  s <| c_icache ::= λ c, c <| ic_heap ::= <[p := im]> |> |>.

Lemma load_inode_run s p im : ic_heap (c_icache s) !! p = Some im → load_inode p s = Some (im, s).
Proof. intros H. unfold load_inode, mbind, M_bind, gets, of_opt. cbn. by rewrite H. Qed.

Lemma upd_inode_run s p im f :
  ic_heap (c_icache s) !! p = Some im → upd_inode p f s = Some (tt, with_inode p (f im) s).
Proof. intros H. unfold upd_inode. by erewrite bind_run by by apply load_inode_run. Qed.

Lemma upd_disk_inode_run s p im f :
  ic_heap (c_icache s) !! p = Some im →
  upd_disk_inode p f s = Some (tt, with_inode p (im <| im_disk_inode ::= f |>) s).
Proof. intros H. unfold upd_disk_inode. by apply upd_inode_run. Qed.

Lemma kept_with_inode n s s' p im : kept n s s' → kept n s (with_inode p im s').
Proof. intros (Hs & Hg & Hc). split_and!; [by apply log_wf_icache|exact Hg|exact Hc]. Qed.

Lemma with_inode_lookup s p im : ic_heap (c_icache (with_inode p im s)) !! p = Some im.
Proof. apply lookup_insert_eq. Qed.

(** ** Pointers after an update *)

Lemma file_addr_direct s i idx a :
  0 <= idx < LSFS_DIRECT_BLOCKS → length (i_direct i) = 12%nat →
  ∀ j, 0 <= j → file_addr s (i <| i_direct ::= <[Z.to_nat idx := a]> |>) j =
    if decide (j = idx) then a else file_addr s i j.
Proof.
  unfold LSFS_DIRECT_BLOCKS. intros Hidx Hl j Hj. unfold file_addr, LSFS_DIRECT_BLOCKS.
  cbn [i_direct i_indirect field_set]. case_decide as Hji.
  - subst j. rewrite (proj2 (Z.ltb_lt _ _)) by lia. by rewrite list_lookup_insert_eq by lia.
  - destruct (Z.ltb_spec j 12); [|done]. by rewrite list_lookup_insert_ne by lia.
Qed.

Lemma file_addr_indirect s i b idx a blk :
  LSFS_DIRECT_BLOCKS <= idx < file_blocks → b ≠ 0 →
  log_view s b = enc_u64s (<[Z.to_nat (idx - LSFS_DIRECT_BLOCKS) := a]> (ptrs_of_block blk)) →
  is_block blk → is_u64 a →
  (∀ k, default 0 (ptrs_of_block blk !! Z.to_nat (k - LSFS_DIRECT_BLOCKS)) =
     if i_indirect i =? 0 then 0
     else default 0 (ptrs_of_block (log_view s (i_indirect i)) !! Z.to_nat (k - LSFS_DIRECT_BLOCKS))) →
  ∀ j, 0 <= j < file_blocks → file_addr s (i <| i_indirect := b |>) j =
    if decide (j = idx) then a else file_addr s i j.
Proof.
  unfold LSFS_DIRECT_BLOCKS, file_blocks. intros Hidx Hb Hv [_ Hblk] Ha Hold j Hj.
  unfold file_addr, LSFS_DIRECT_BLOCKS. cbn [i_direct i_indirect field_set].
  destruct (Z.ltb_spec j 12); [by rewrite decide_False by lia|].
  rewrite (proj2 (Z.eqb_neq _ _) Hb), Hv, <-Hold.
  rewrite (proj1 (ptrs_enc _ ltac:(by rewrite length_insert, length_ptrs)
    ltac:(apply Forall_insert; [by apply dec_u64s_range|done]))).
  case_decide as Hji.
  - subst j. by rewrite list_lookup_insert_eq by (rewrite length_ptrs; lia).
  - by rewrite list_lookup_insert_ne by lia.
Qed.

(** What an update of one pointer, in a log that has grown, makes of the file. *)
Lemma file_updated s s' i i' idx a buf :
  log_wf s → file_wf s i → log_grows s s' → i_ino i' = i_ino i → length (i_direct i') = 12%nat →
  (i_indirect i' ≠ 0 → live_addr s' (i_indirect i') ∧ is_block (log_view s' (i_indirect i'))) →
  live_addr s' a → a ≠ 0 → log_view s' a = buf →
  (∀ j, 0 <= j < file_blocks → file_addr s' i' j = if decide (j = idx) then a else file_addr s' i j) →
  file_wf s' i' ∧
  ∀ j, 0 <= j < file_blocks → file_block s' i' j = if decide (j = idx) then buf else file_block s i j.
Proof.
  intros Hs Hw Hg Hino Hlen Hind Hlive Ha Hv Haddr. split.
  - split; [rewrite Hino; apply Hw|done|done|]. intros j Hj. rewrite Haddr by done.
    case_decide; [done|]. rewrite (file_addr_grows s s') by done. intros Hne.
    apply Hg, (fw_addr s i Hw j Hj Hne).
  - intros j Hj. rewrite <-(file_block_grows s s') by done. unfold file_block. rewrite Haddr by done.
    case_decide; [|done]. by rewrite (proj2 (Z.eqb_neq _ _) Ha).
Qed.

(** ** Updating the indirect block *)

(** Only reads happened. *)
Definition io_same s s' : Prop := io_frame s s' ∧ c_disk s' = c_disk s.

Lemma io_same_refl s : io_same s s.
Proof. done. Qed.
Lemma io_same_trans s1 s2 s3 : io_same s1 s2 → io_same s2 s3 → io_same s1 s3.
Proof. intros [H1 D1] [H2 D2]. split; [by eapply io_frame_trans|congruence]. Qed.

Lemma io_same_segbuf s s' : io_same s s' → c_segbuf s' = c_segbuf s.
Proof. intros [Hf _]. by rewrite Hf. Qed.
Lemma io_same_icache s s' : io_same s s' → c_icache s' = c_icache s.
Proof. intros [Hf _]. by rewrite Hf. Qed.
Lemma io_same_frame s s' : io_same s s' → log_frame s s'.
Proof. intros [Hf Hd]. by apply read_log_frame. Qed.
Lemma io_same_wf s s' : io_same s s' → log_wf s → log_wf s'.
Proof. intros [Hf _]. by apply log_wf_frame. Qed.

Lemma io_same_kept s s' : log_wf s → io_same s s' → kept 0 s s'.
Proof.
  intros Hs Hio. pose proof Hio as [Hf Hd]. assert (c_segtable s' = c_segtable s) as Ht by by rewrite Hf.
  split_and!; [by eapply io_same_wf| |rewrite Ht; lia].
  apply log_grows_same; rewrite ?Ht; try done. by apply io_same_segbuf.
Qed.

Lemma read_live s a :
  log_wf s → live_addr s a →
  wp (lsfs_read_block a) (λ got s', io_same s s' ∧
    (got = Ok (disk_block (c_disk s) a) ∨ (got = Err LSFS_ERR_IO ∧ ¬ Healthy E))) s.
Proof.
  intros Hs Ha. destruct (live_addr_log s a Hs Ha) as [_ Hin].
  destruct (wp_elim _ _ _ (read_block_frame s a (in_disk_addressable _ _ _ Hin))) as (got & s' & Hrun & Hf & Hgot & Hd).
  eapply wp_intro; [exact Hrun|]. split; [done|]. destruct Hgot as [->|Hgot]; [by left|]. right. split; [done|].
  intros Hh. rewrite read_block_ok in Hrun by done. congruence.
Qed.

(** ** When writing fails *)

(** Without faults, and when the image can be written, this happens only because of [why]. *)
Definition excused s (why : Prop) : Prop := Healthy E → c_readonly s = false → why.

Lemma excused_mono s s' (P Q : Prop) :
  excused s P → c_readonly s = c_readonly s' → (P → Q) → excused s' Q.
Proof. intros H Hro HPQ Hh Hr. apply HPQ, H; [done|congruence]. Qed.

(** The address the next block to be appended gets. *)
Definition next_addr s : Z := lsfs_segment_to_block (sg_segment_id (c_segbuf s)) (sg_block_count (c_segbuf s)).

Lemma next_addr_range s : log_wf s → 0 < next_addr s < 2 ^ 64.
Proof.
  intros Hs. pose proof (lw_count s Hs). pose proof (live_valid s _ Hs (lw_segment s Hs)) as Hv.
  unfold next_addr, valid_segment, LSFS_SEGMENT_BLOCKS in *. rewrite segment_to_block_eq by (done || lia).
  unfold LSFS_LOG_START, LSFS_SEGMENT_BLOCKS. lia.
Qed.
Lemma next_addr_nonzero s : log_wf s → next_addr s ≠ 0.
Proof. intros Hs. pose proof (next_addr_range s Hs). lia. Qed.

Lemma segment_append_nonzero s data ino offset type :
  log_wf s → block_args data ino offset type → 0 < st_free_count (c_segtable s) →
  wp (lsfs_segment_append_block data ino offset type) (λ a _, a = 0 → excused s False) s.
Proof.
  intros Hs Hargs Hpos. destruct (wp_elim _ _ _ (segment_append_kept s _ _ _ _ Hs Hargs Hpos)) as (a & s' & Hrun & _).
  eapply wp_intro; [exact Hrun|]. intros -> Hh Hro.
  assert (wp (lsfs_segment_append_block data ino offset type) (λ a _, a ≠ 0) s) as Hne.
  { apply (segment_append_or (λ _, True) False); try done.
    - eapply wp_mono; [by apply segment_flush_ok|]. auto.
    - intros s1 info Hs1 _ _ _ _ _ _. by apply next_addr_nonzero. }
  by apply (wp_run _ _ _ _ _ Hne Hrun).
Qed.

(** The old contents of the indirect block, as [write_indirect] obtains them. *)
Definition old_pointers s i (blk : list Z) : Prop :=
  is_block blk ∧
  ∀ k, default 0 (ptrs_of_block blk !! Z.to_nat (k - LSFS_DIRECT_BLOCKS)) =
    if i_indirect i =? 0 then 0
    else default 0 (ptrs_of_block (log_view s (i_indirect i)) !! Z.to_nat (k - LSFS_DIRECT_BLOCKS)).

Lemma read_indirect_wp s i :
  log_wf s → file_wf s i → (i_indirect i ≠ 0 → settled s (i_indirect i)) →
  wp (if i_indirect i =? 0 then mret (Ok zero_block)
      else
        r ← lsfs_read_block (i_indirect i);
        match r with
        | Err _ => mret (Err LSFS_ERR_IO)
        | Ok blk => _ ← lsfs_gc_mark_block_dead (i_indirect i); mret (Ok blk)
        end)
    (λ r s', kept 0 s s' ∧ log_frame s s' ∧
       match r with Ok blk => old_pointers s i blk | Err e => e = LSFS_ERR_IO ∧ ¬ Healthy E end) s.
Proof.
  intros Hs Hw Hset. unfold old_pointers. destruct (Z.eqb_spec (i_indirect i) 0) as [H0|Hne].
  { apply wp_ret. split_and!; [by apply kept_refl|done|apply zero_block_is_block|].
    intros k. apply ptrs_zero_block. }
  destruct (fw_indirect s i Hw Hne) as [Hlive Hblk].
  wp_step. eapply wp_mono; [by apply read_live|]. intros got s1 (Hio & Hgot).
  pose proof (io_same_kept _ _ Hs Hio) as Hk1. pose proof (io_same_frame _ _ Hio) as Hf1.
  destruct Hgot as [-> | [-> Hh]]; [|by apply wp_ret].
  wp_step. eapply wp_mono; [apply mark_dead_kept; [apply Hk1|by apply (live_u64 s)]|].
  intros _ s2 (Hk2 & Hf2 & _). apply wp_ret. rewrite <-settled_view by by apply Hset.
  split_and!; [by apply (kept_trans 0 0 s s1)|by eapply log_frame_trans|done|done].
Qed.

(** ** Changing one inode *)

(** What is changed of a cached inode: its fields, but not its number. *)
Definition edited (im im' : lsfs_inode_mem) : Prop :=
  im' = im <| im_disk_inode := im_disk_inode im' |> <| im_dirty := im_dirty im' |> ∧
  i_ino (im_disk_inode im') = i_ino (im_disk_inode im) ∧
  (disk_wf (im_disk_inode im) → disk_wf (im_disk_inode im')).

(** Nothing changes but the log and the inode cached at [p]. *)
Record edits (p : Z) s s' : Prop := {
  ed_disk_size : c_disk_size s' = c_disk_size s;
  ed_imap : c_imap s' = c_imap s;
  ed_readonly : c_readonly s' = c_readonly s;
  ed_bytes : disk_ok s → disk_ok s';
  ed_cache : c_icache s' = c_icache s ∨ ∃ im im', ic_heap (c_icache s) !! p = Some im ∧ edited im im' ∧
    c_icache s' = c_icache s <| ic_heap ::= <[p := im']> |> }.

Lemma edited_trans im1 im2 im3 : edited im1 im2 → edited im2 im3 → edited im1 im3.
Proof. intros (-> & Hi & Hd) (-> & Hi' & Hd'). split_and!; [done|congruence|auto]. Qed.

Lemma log_frame_edits p s s' : log_frame s s' → edits p s s'.
Proof. intros [? ? ? ? ? ? ? ?]. split; auto. Qed.

#[global] Instance edits_preorder p : PreOrder (edits p).
Proof.
  split; [intros s; by apply log_frame_edits|]. intros s1 s2 s3 [D1 I1 R1 B1 C1] [D2 I2 R2 B2 C2].
  split; [congruence..|auto|]. destruct C1 as [C1|(im1 & im2 & H1 & He1 & C1)].
  { rewrite C1 in C2. exact C2. }
  destruct C2 as [C2|(im2' & im3 & H2 & He2 & C2)]; [right; exists im1, im2; by rewrite C2|].
  right. rewrite C1 in H2, C2. cbn in H2. rewrite lookup_insert_eq in H2. injection H2 as <-.
  exists im1, im3. split_and!; [done|by eapply edited_trans|]. rewrite C2. cbn. by rewrite insert_insert_eq.
Qed.

Lemma edits_inode p s s' im im' :
  edits p s s' → ic_heap (c_icache s') !! p = Some im → edited im im' → edits p s (with_inode p im' s').
Proof. intros Hs Hp He. etrans; [exact Hs|]. split; [done..|]. right. by exists im, im'. Qed.

Lemma edits_others p s s' q : edits p s s' → q ≠ p → ic_heap (c_icache s') !! q = ic_heap (c_icache s) !! q.
Proof.
  intros [_ _ _ _ [-> |(im & im' & _ & _ & ->)]] Hq; [done|]. cbn. by rewrite lookup_insert_ne.
Qed.

Lemma edits_at p s s' im :
  edits p s s' → ic_heap (c_icache s) !! p = Some im → ∃ im', ic_heap (c_icache s') !! p = Some im' ∧ edited im im'.
Proof.
  intros [_ _ _ _ [-> |(im1 & im' & H1 & He & ->)]] Hp; [exists im; split; [done|by destruct im]|].
  rewrite Hp in H1. injection H1 as <-. exists im'. split; [apply lookup_insert_eq|done].
Qed.

Lemma write_indirect_wp s p im idx a :
  log_wf s → 0 < st_free_count (c_segtable s) → ic_heap (c_icache s) !! p = Some im →
  let i := im_disk_inode im in
  file_wf s i → (i_indirect i ≠ 0 → settled s (i_indirect i)) →
  LSFS_DIRECT_BLOCKS <= idx < file_blocks → is_u64 a →
  wp (write_indirect p i idx a) (λ r s',
    kept 1 s s' ∧ edits p s s' ∧
    (r ≠ LSFS_OK → log_frame s s' ∧ excused s False) ∧
    (r = LSFS_OK → ∃ b blk, b ≠ 0 ∧ live_addr s' b ∧ old_pointers s i blk ∧
       log_view s' b = enc_u64s (<[Z.to_nat (idx - LSFS_DIRECT_BLOCKS) := a]> (ptrs_of_block blk)) ∧
       c_icache s' = c_icache (with_inode p (im <| im_disk_inode ::= λ d, d <| i_indirect := b |> |>) s))) s.
Proof.
  intros Hs Hpos Hp i Hw Hset Hidx Ha. unfold write_indirect, LSFS_DIRECT_BLOCKS, file_blocks in *.
  wp_step. eapply wp_mono; [by apply read_indirect_wp|].
  intros [blk|e] s1 (Hk1 & Hf1 & Hr); cbv beta iota.
  2:{ destruct Hr as [-> Hh]. apply wp_ret. split_and!; [by apply (kept_mono 0)|by apply log_frame_edits| |done].
      intros _. split; [done|]. intros Hh1 _. by apply Hh. }
  pose proof (proj1 Hk1) as Hs1. pose proof Hr as [[_ Hbytes] _].
  wp_step. eapply wp_of_opt; [apply arr_set_ok; rewrite length_ptrs; lia|].
  destruct (ptrs_enc (<[Z.to_nat (idx - 12) := a]> (ptrs_of_block blk))) as [_ Henc].
  { by rewrite length_insert, length_ptrs. } { apply Forall_insert; [by apply dec_u64s_range|done]. }
  assert (block_args (enc_u64s (<[Z.to_nat (idx - 12) := a]> (ptrs_of_block blk))) (i_ino i) 0 LSFS_BLOCK_TYPE_INDIRECT) as Hargs.
  { split_and!; [exact Henc|apply (fw_ino s i Hw)|unfold is_u32; lia|unfold is_u8, LSFS_BLOCK_TYPE_INDIRECT; lia]. }
  wp_step. eapply wp_mono; [assert (0 < st_free_count (c_segtable s1)) by (destruct Hk1; lia);
    apply wp_and; [by apply segment_append_kept|by apply segment_append_nonzero]|].
  intros b s2 [(Hs2 & Hf2 & Hg2 & Hc2 & Hnew) Hz]. pose proof (log_frame_trans _ _ _ Hf1 Hf2) as Hf.
  assert (kept 1 s s2) as Hk by (apply (kept_trans 0 1 s s1); [done|by split_and!]).
  destruct (Z.eqb_spec b 0) as [Hb|Hb].
  { apply wp_ret. split_and!; [done|by apply log_frame_edits| |done]. intros _. split; [done|].
    eapply excused_mono; [exact (Hz Hb)|apply (lf_readonly _ _ Hf1)|done]. }
  destruct (Hnew Hb) as (_ & Hlive & Hv).
  wp_step. eapply wp_intro; [apply upd_disk_inode_run; by rewrite (lf_icache _ _ Hf)|]. wp_step.
  split_and!; [by apply kept_with_inode| |done|].
  { eapply edits_inode; [by apply log_frame_edits|by rewrite (lf_icache _ _ Hf)|]. split_and!; [done..|].
    cbn. intros Hd. pose proof (live_u64 s2 b Hs2 Hlive). destruct_and! Hd. by split_and!. }
  intros _. exists b, blk. split_and!; try done. cbn. by rewrite (lf_icache _ _ Hf).
Qed.

(** ** Writing a block *)

(** What writing a block leaves alone in the inode. *)
Definition same_meta (i i' : lsfs_inode) : Prop :=
  i_ino i' = i_ino i ∧ i_mode i' = i_mode i ∧ i_size i' = i_size i ∧ i_nlink i' = i_nlink i.

(** The outcome of a write: block [idx] of the file is [buf] and no other changed; or,
    on an error, the cached inode is as before.  Without faults there is an error only for
    a block that no file can have. *)
Definition block_written s p im idx buf (r : Z) s' : Prop :=
  kept 2 s s' ∧ edits p s s' ∧
  (r ≠ LSFS_OK → log_frame s s' ∧ excused s (file_blocks <= idx)) ∧
  (r = LSFS_OK → idx < file_blocks ∧ ∃ im', ic_heap (c_icache s') !! p = Some im' ∧
     im_dirty im' = true ∧ same_meta (im_disk_inode im) (im_disk_inode im') ∧
     file_wf s' (im_disk_inode im') ∧
     ∀ j, 0 <= j < file_blocks → file_block s' (im_disk_inode im') j =
       if decide (j = idx) then buf else file_block s (im_disk_inode im) j).

(** The last step: the number of blocks and the dirty flag. *)
Lemma finish_write_wp s0 s p im0 im idx buf :
  kept 2 s0 s → edits p s0 s → ic_heap (c_icache s0) !! p = Some im0 →
  c_icache s = c_icache (with_inode p im s0) → 0 <= idx < file_blocks →
  same_meta (im_disk_inode im0) (im_disk_inode im) → file_wf s (im_disk_inode im) →
  (∀ j, 0 <= j < file_blocks → file_block s (im_disk_inode im) j =
     if decide (j = idx) then buf else file_block s0 (im_disk_inode im0) j) →
  wp (_ ← upd_inode p (λ i, i <| im_disk_inode ::= λ d, d <| i_blocks ::= λ b, Z.max b (u64 (idx + 1)) |> |>
                              <| im_dirty := true |>);
      mret LSFS_OK) (block_written s0 p im0 idx buf) s.
Proof.
  intros Hk Hed Hp Hc Hidx Hmeta Hw Hblocks. wp_step.
  eapply wp_intro; [apply (upd_inode_run s p im); rewrite Hc; apply with_inode_lookup|]. wp_step.
  split_and!; [by apply kept_with_inode| |done|].
  - eapply edits_inode; [exact Hed|rewrite Hc; apply with_inode_lookup|]. split_and!; [done..|]. cbn. intros Hd.
    pose proof (u64_range (idx + 1)). unfold is_u64 in *. destruct_and! Hd. split_and!; try assumption; lia.
  - intros _. split; [lia|]. eexists. split_and!; [apply with_inode_lookup|done|exact Hmeta| |exact Hblocks].
    destruct Hw as [? ? ? ?]. by split.
Qed.

(** A data block appended, before its pointer is stored. *)
Definition block_appended s i buf (a : Z) s' : Prop :=
  kept 1 s s' ∧ log_frame s s' ∧
  (i_indirect i ≠ 0 → settled s (i_indirect i) → settled s' (i_indirect i)) ∧
  (a ≠ 0 → live_addr s' a ∧ log_view s' a = buf) ∧ (a = 0 → excused s False).

Lemma append_data_wp s i idx buf :
  log_wf s → 0 < st_free_count (c_segtable s) → file_wf s i → is_block buf →
  wp (lsfs_segment_append_block buf (i_ino i) (u32 idx) LSFS_BLOCK_TYPE_DATA) (block_appended s i buf) s.
Proof.
  intros Hs Hpos Hw Hbuf. assert (block_args buf (i_ino i) (u32 idx) LSFS_BLOCK_TYPE_DATA) as Hargs.
  { split_and!; [done|apply (fw_ino s i Hw)|apply u32_range|unfold is_u8, LSFS_BLOCK_TYPE_DATA; lia]. }
  assert (wp (lsfs_segment_append_block buf (i_ino i) (u32 idx) LSFS_BLOCK_TYPE_DATA)
    (λ _ s', i_indirect i ≠ 0 → settled s (i_indirect i) → settled s' (i_indirect i)) s) as Hset.
  { destruct (wp_elim _ _ _ (segment_append_kept s _ _ _ _ Hs Hargs Hpos)) as (a & s' & Hrun & _).
    eapply wp_intro; [exact Hrun|]. intros Hne Hst.
    exact (wp_run _ _ _ _ _ (append_settled s _ _ _ _ _ Hs Hargs Hpos
      (proj1 (fw_indirect s i Hw Hne)) Hst) Hrun). }
  eapply wp_mono; [apply wp_and; [by apply segment_append_kept|apply wp_and; [exact Hset|by apply segment_append_nonzero]]|].
  intros a s' [(Hs' & Hf & Hg & Hc & Hnew) [Hst Hz]]. split_and!; [by split_and!|done|done| |done].
  intros Ha. by destruct (Hnew Ha) as (_ & ? & ?).
Qed.

(** Storing the pointer to the new block [a]. *)
Lemma store_direct_wp s0 s p im idx buf a :
  kept 1 s0 s → log_frame s0 s → ic_heap (c_icache s0) !! p = Some im →
  let i := im_disk_inode im in
  log_wf s0 → file_wf s0 i → 0 <= idx < LSFS_DIRECT_BLOCKS →
  live_addr s a → log_view s a = buf → a ≠ 0 →
  wp ((ds ← of_opt (arr_set (i_direct i) idx a);
       _ ← upd_disk_inode p (λ d, d <| i_direct := ds |>);
       mret LSFS_OK) ;?
      (_ ← upd_inode p (λ i, i <| im_disk_inode ::= λ d, d <| i_blocks ::= λ b, Z.max b (u64 (idx + 1)) |> |>
                               <| im_dirty := true |>);
       mret LSFS_OK)) (block_written s0 p im idx buf) s.
Proof.
  intros Hk Hf Hp i Hs0 Hw Hidx Hlive Hv Ha. pose proof (fw_direct s0 i Hw) as Hlen.
  unfold LSFS_DIRECT_BLOCKS in Hidx.
  apply wp_if_ok. wp_step. eapply wp_of_opt; [apply arr_set_ok; lia|].
  wp_step. eapply wp_intro; [apply (upd_disk_inode_run s p im); by rewrite (lf_icache _ _ Hf)|]. wp_step.
  rewrite decide_True by done.
  set (i' := i <| i_direct ::= <[Z.to_nat idx := a]> |>).
  destruct (file_updated s0 s i i' idx a buf) as [Hw' Hb']; try done.
  { apply Hk. } { unfold i'. cbn. by rewrite length_insert. }
  { intros Hne. apply (fw_indirect s i); [|done]. eapply file_wf_grows; [exact Hw|apply Hk]. }
  { intros j Hj. apply file_addr_direct; [unfold LSFS_DIRECT_BLOCKS; lia|done|lia]. }
  apply (finish_write_wp s0 _ p im (im <| im_disk_inode := i' |>)).
  - apply kept_with_inode. by apply (kept_mono 1).
  - eapply edits_inode; [by apply log_frame_edits|by rewrite (lf_icache _ _ Hf)|]. split_and!; [done..|].
    cbn. fold i. intros Hd. pose proof (live_u64 s a (proj1 Hk) Hlive). destruct_and! Hd.
    split_and!; try assumption; [by rewrite length_insert|by apply Forall_insert].
  - done.
  - cbn. by rewrite (lf_icache _ _ Hf).
  - unfold file_blocks. lia.
  - done.
  - destruct Hw' as [? ? ? ?]. by split.
  - exact Hb'.
Qed.

Lemma store_indirect_wp s0 s p im idx buf a :
  kept 1 s0 s → log_frame s0 s → ic_heap (c_icache s0) !! p = Some im →
  let i := im_disk_inode im in
  log_wf s0 → 1 < st_free_count (c_segtable s0) → file_wf s0 i →
  (i_indirect i ≠ 0 → settled s (i_indirect i)) →
  LSFS_DIRECT_BLOCKS <= idx < file_blocks →
  live_addr s a → log_view s a = buf → a ≠ 0 →
  wp (write_indirect p i idx a ;?
      (_ ← upd_inode p (λ i, i <| im_disk_inode ::= λ d, d <| i_blocks ::= λ b, Z.max b (u64 (idx + 1)) |> |>
                               <| im_dirty := true |>);
       mret LSFS_OK)) (block_written s0 p im idx buf) s.
Proof.
  intros Hk Hf Hp i Hs0 Hfree Hw Hset Hidx Hlive Hv Ha. pose proof Hk as (Hs & Hg & Hc).
  pose proof (live_u64 s a Hs Hlive) as Hau. pose proof (file_wf_grows s0 s i Hw Hg) as Hws.
  apply wp_if_ok. eapply wp_mono; [apply write_indirect_wp; [done|lia|by rewrite (lf_icache _ _ Hf)|done..]|].
  intros r s1 (Hk1 & Him1 & Hbad & Hgood). pose proof (kept_trans 1 1 _ _ _ Hk Hk1) as Hk01.
  assert (edits p s0 s1) as Hed by (etrans; [by apply log_frame_edits|exact Him1]).
  case_decide as Hr.
  2:{ destruct (Hbad Hr) as [Hf1 Hx]. split_and!; try done. intros _. split; [by eapply log_frame_trans|].
      by eapply excused_mono; [exact Hx|apply (lf_readonly _ _ Hf)|]. }
  destruct (Hgood Hr) as (b & blk & Hb & Hlb & [Hblk Hold] & Hvb & Hc1).
  set (i' := i <| i_indirect := b |>). pose proof Hk1 as (_ & Hg1 & _).
  destruct (Hg1 a Hlive) as [Hlive1 Hv1].
  assert (Forall is_u64 (<[Z.to_nat (idx - LSFS_DIRECT_BLOCKS):=a]> (ptrs_of_block blk))) as Hu64.
  { apply Forall_insert; [apply dec_u64s_range, Hblk|done]. }
  destruct (file_updated s0 s1 i i' idx a buf) as [Hw' Hb']; try done.
  { apply Hk01. } { apply (fw_direct s0 i Hw). }
  { intros _. split; [exact Hlb|]. change (i_indirect i') with b. rewrite Hvb.
    exact (proj2 (ptrs_enc _ ltac:(by rewrite length_insert, length_ptrs) Hu64)). }
  { congruence. }
  { apply (file_addr_indirect s1 i b idx a blk); [exact Hidx|exact Hb|exact Hvb|exact Hblk|exact Hau|]. intros k. rewrite Hold. fold i.
    destruct (Z.eqb_spec (i_indirect i) 0) as [|Hne]; [done|].
    by rewrite (proj2 (Hg1 _ (proj1 (fw_indirect s i Hws Hne)))). }
  apply (finish_write_wp s0 _ p im (im <| im_disk_inode := i' |>)); try done.
  - rewrite Hc1. cbn. by rewrite (lf_icache _ _ Hf).
  - unfold LSFS_DIRECT_BLOCKS in Hidx. lia.
Qed.

Lemma inode_write_block_wp s p im idx buf :
  log_wf s → 1 < st_free_count (c_segtable s) → ic_heap (c_icache s) !! p = Some im →
  let i := im_disk_inode im in
  file_wf s i → (i_indirect i ≠ 0 → settled s (i_indirect i)) → 0 <= idx → is_block buf →
  wp (lsfs_inode_write_block p idx buf) (block_written s p im idx buf) s.
Proof.
  intros Hs Hfree Hp i Hw Hset Hidx Hbuf. unfold lsfs_inode_write_block.
  wp_step. eapply wp_intro; [by apply load_inode_run|]. fold i. cbv zeta.
  pose proof (fw_direct s i Hw) as Hlen.
  assert (wp (if idx <? LSFS_DIRECT_BLOCKS then of_opt (arr_get (i_direct i) idx) else mret 0)
    (λ a s', s' = s ∧ 0 <= a < 2 ^ 64) s) as Hold.
  { destruct (Z.ltb_spec idx LSFS_DIRECT_BLOCKS) as [Hlt|]; [|by apply wp_ret].
    unfold LSFS_DIRECT_BLOCKS in Hlt.
    destruct (lookup_lt_is_Some_2 (i_direct i) (Z.to_nat idx)) as [x Hx]; [lia|].
    eapply wp_of_opt; [by apply arr_get_lookup|]. split; [done|].
    pose proof (file_addr_u64 s i idx Hs Hw ltac:(unfold file_blocks; lia)) as Hu.
    unfold file_addr, LSFS_DIRECT_BLOCKS in Hu. rewrite (proj2 (Z.ltb_lt _ _)), Hx in Hu by lia. exact Hu. }
  wp_step. eapply wp_mono; [exact Hold|]. intros old s' [-> Ho].
  wp_step. eapply wp_mono; [by apply mark_if_used_kept|]. intros _ s1 (Hk1 & Hf1 & Hb1 & Hd1).
  wp_step. eapply wp_mono; [apply append_data_wp; [apply Hk1|destruct Hk1; lia| |done]|].
  { eapply file_wf_grows; [exact Hw|apply Hk1]. }
  intros a s2 (Hk2 & Hf2 & Hset2 & Hnew & Hz). cbv beta.
  pose proof (kept_trans 0 1 _ _ _ Hk1 Hk2) as Hk. pose proof (log_frame_trans _ _ _ Hf1 Hf2) as Hf.
  assert (excused s (file_blocks <= idx) → block_written s p im idx buf LSFS_ERR_NOSPC s2) as Hfail.
  { intros Hx. split_and!; [by apply (kept_mono 1)|by apply log_frame_edits|done|done]. }
  destruct (Z.eqb_spec a 0) as [Ha|Ha].
  { apply wp_ret, Hfail. by eapply excused_mono; [exact (Hz Ha)|apply (lf_readonly _ _ Hf1)|]. }
  destruct (Hnew Ha) as [Hlive Hv]. unfold LSFS_FIRST_DOUBLE.
  change (LSFS_DIRECT_BLOCKS + blocks_per_indirect) with file_blocks.
  destruct (Z.ltb_spec idx LSFS_DIRECT_BLOCKS); [by apply store_direct_wp|].
  destruct (Z.ltb_spec idx file_blocks); [|apply wp_if_ok, wp_ret; rewrite decide_False by done; apply Hfail; by intros _ _].
  apply store_indirect_wp; try done. intros Hne. apply Hset2; [done|].
  unfold settled. rewrite Hb1. by apply Hset.
Qed.

(** ** Reading a block *)

Lemma inode_read_block_wp s p im idx :
  log_wf s → ic_heap (c_icache s) !! p = Some im →
  let i := im_disk_inode im in
  file_wf s i → 0 <= idx < file_blocks → (i_indirect i ≠ 0 → settled s (i_indirect i)) →
  wp (lsfs_inode_read_block p idx) (λ got s', io_same s s' ∧
    (got = Ok (if file_addr s i idx =? 0 then zero_block else disk_block (c_disk s) (file_addr s i idx)) ∨
     (got = Err LSFS_ERR_IO ∧ ¬ Healthy E))) s.
Proof.
  intros Hs Hp i Hw Hidx Hset. unfold lsfs_inode_read_block.
  wp_step. eapply wp_intro; [by apply load_inode_run|]. fold i.
  assert (wp (inode_block_addr i idx) (λ r s', io_same s s' ∧
    (r = Ok (file_addr s i idx) ∨ (r = Err LSFS_ERR_IO ∧ ¬ Healthy E))) s) as Haddr.
  { unfold inode_block_addr, file_addr, LSFS_FIRST_DOUBLE.
    change (LSFS_DIRECT_BLOCKS + blocks_per_indirect) with file_blocks.
    pose proof (fw_direct s i Hw) as Hlen. unfold LSFS_DIRECT_BLOCKS in *.
    destruct (Z.ltb_spec idx 12).
    { destruct (lookup_lt_is_Some_2 (i_direct i) (Z.to_nat idx)) as [x Hx]; [lia|].
      wp_step. eapply wp_of_opt; [apply arr_get_lookup; split; [lia|exact Hx]|]. wp_step. rewrite Hx.
      split; [apply io_same_refl|by left]. }
    rewrite (proj2 (Z.ltb_lt _ _)) by lia.
    destruct (Z.eqb_spec (i_indirect i) 0) as [|Hne].
    { apply wp_ret. split; [apply io_same_refl|by left]. }
    wp_step. eapply wp_mono; [apply read_live; [done|apply (fw_indirect s i Hw Hne)]|].
    intros got s1 (Hio & [-> | [-> Hh]]); [|apply wp_ret; by auto].
    rewrite <-settled_view by by apply Hset. set (ptrs := ptrs_of_block _).
    destruct (lookup_lt_is_Some_2 ptrs (Z.to_nat (idx - 12))) as [x Hx].
    { unfold ptrs. rewrite length_ptrs. unfold file_blocks in Hidx. lia. }
    wp_step. eapply wp_of_opt; [apply arr_get_lookup; split; [lia|exact Hx]|]. wp_step.
    rewrite Hx. auto. }
  wp_step. eapply wp_mono; [exact Haddr|]. intros r s1 (Hio & [-> | [-> Hh]]); [|apply wp_ret; by auto].
  destruct (Z.eqb_spec (file_addr s i idx) 0) as [|Hne]; [apply wp_ret; by auto|].
  pose proof (fw_addr s i Hw idx Hidx Hne) as Hlive. destruct (io_same_kept s s1 Hs Hio) as (Hs1 & Hg1 & _).
  eapply wp_mono; [apply read_live; [done|by apply Hg1]|].
  intros got s2 (Hio2 & Hgot). rewrite (proj2 Hio) in Hgot. split; [by eapply io_same_trans|done].
Qed.

(** ** Writes that stay in the segment buffer *)

(** The buffer has taken [n] more blocks and nothing was written to disk. *)
Record buffered (n : Z) s s' : Prop := {
  bf_wf : log_wf s';
  bf_disk : c_disk s' = c_disk s;
  bf_segment : sg_segment_id (c_segbuf s') = sg_segment_id (c_segbuf s);
  bf_count : sg_block_count (c_segbuf s') = sg_block_count (c_segbuf s) + n;
  bf_disk_size : c_disk_size s' = c_disk_size s }.

Lemma append_room s data ino offset type :
  log_wf s → block_args data ino offset type → sg_block_count (c_segbuf s) < LSFS_SEGMENT_BLOCKS →
  wp (lsfs_segment_append_block data ino offset type) (λ a s',
    a = next_addr s ∧ buffered 1 s s' ∧ log_frame s s' ∧ log_grows s s' ∧ log_view s' a = data ∧
    live_addr s' a) s.
Proof.
  intros Hs Hargs Hroom. apply (segment_append_wp (λ _, True)); try done.
  - eapply wp_mono; [by apply segment_flush_wp|done].
  - lia.
  - intros s1 info Hs1 _ Hf1 _ Heq _ Hs2. rewrite (Heq Hroom) in *.
    destruct (log_grows_append s data (new_info info ino offset type) Hs Hroom) as (Hg & Hl & Hv & _).
    by split_and!.
Qed.

(** What [lsfs_inode_write_block] finds as the old indirect block. *)
Definition disk_indirect s (i : lsfs_inode) : list Z :=
  if i_indirect i =? 0 then zero_block else disk_block (c_disk s) (i_indirect i).

(** A direct block: the pointer names the buffer's next block, which is not on disk. *)
Lemma write_direct_room s p im idx buf :
  log_wf s → ic_heap (c_icache s) !! p = Some im →
  let i := im_disk_inode im in
  file_wf s i → 0 <= idx < LSFS_DIRECT_BLOCKS → is_block buf →
  sg_block_count (c_segbuf s) < LSFS_SEGMENT_BLOCKS →
  wp (lsfs_inode_write_block p idx buf) (λ r s', r = LSFS_OK ∧ buffered 1 s s' ∧
    ∃ im', ic_heap (c_icache s') !! p = Some im' ∧ i_indirect (im_disk_inode im') = i_indirect i ∧
      file_addr s' (im_disk_inode im') idx = next_addr s) s.
Proof.
  intros Hs Hp i Hw Hidx Hbuf Hroom. unfold lsfs_inode_write_block.
  pose proof (fw_direct s i Hw) as Hlen. unfold LSFS_DIRECT_BLOCKS in Hidx.
  pose proof (file_addr_u64 s i idx Hs Hw ltac:(unfold file_blocks; lia)) as Hu.
  destruct (lookup_lt_is_Some_2 (i_direct i) (Z.to_nat idx)) as [x Hx]; [lia|].
  unfold file_addr, LSFS_DIRECT_BLOCKS in Hu |- *. rewrite (proj2 (Z.ltb_lt _ _)), Hx in Hu by lia.
  cbn [default] in Hu. unfold id in Hu.
  wp_step. eapply wp_intro; [by apply load_inode_run|]. fold i. cbv zeta.
  rewrite !(proj2 (Z.ltb_lt idx 12)) by lia.
  wp_step. eapply wp_of_opt; [apply arr_get_lookup; split; [lia|exact Hx]|].
  wp_step. eapply wp_mono; [by apply mark_if_used_kept|]. intros _ s1 (Hk1 & Hf1 & Hb1 & Hd1).
  wp_step. eapply wp_mono; [apply append_room; [apply Hk1| |by rewrite Hb1]|].
  { split_and!; [done|apply (fw_ino s i Hw)|apply u32_range|unfold is_u8, LSFS_BLOCK_TYPE_DATA; lia]. }
  intros a s2 (-> & Hbf & Hf2 & _). pose proof (log_frame_trans _ _ _ Hf1 Hf2) as Hf.
  pose proof (next_addr_nonzero s1 (proj1 Hk1)) as Hne. rewrite (proj2 (Z.eqb_neq _ _) Hne).
  apply wp_if_ok. wp_step. eapply wp_of_opt; [apply arr_set_ok; lia|].
  wp_step. eapply wp_intro; [apply (upd_disk_inode_run s2 p im); by rewrite (lf_icache _ _ Hf)|]. wp_step.
  rewrite decide_True by done. wp_step. eapply wp_intro; [apply upd_inode_run, with_inode_lookup|]. wp_step.
  destruct Hbf as [Hwf Hd Hsg Hct Hsz]. split_and!; [done| |].
  - split; cbn.
    + by do 2 apply log_wf_icache.
    + congruence.
    + congruence.
    + by rewrite Hct, Hb1.
    + by rewrite Hsz, (lf_disk_size _ _ Hf1).
  - eexists. split_and!; [apply with_inode_lookup|done|]. cbn.
    rewrite list_lookup_insert_eq by lia. cbn. unfold next_addr. by rewrite Hb1.
Qed.

End Files.

Section Buffered.
Context `{E : Env, !Healthy E}.
Implicit Types s : lsfs_context.

(** What matters of an inode whose indirect block is written. *)
Record indirect_ready s (i : lsfs_inode) : Prop := {
  ir_ino : is_u32 (i_ino i);
  ir_old : i_indirect i ≠ 0 → live_addr s (i_indirect i);
  ir_block : is_block (disk_indirect s i) }.

Lemma buffered_trans n m s1 s2 s3 : buffered n s1 s2 → buffered m s2 s3 → buffered (n + m) s1 s3.
Proof using Type. intros [] []. split; [done|congruence..|lia|congruence]. Qed.

Lemma mark_dead_buffered s a :
  log_wf s → 0 <= a < 2 ^ 64 →
  wp (lsfs_gc_mark_block_dead a) (λ _ s', buffered 0 s s' ∧ log_frame s s' ∧ log_grows s s') s.
Proof using Type.
  intros Hs Ha. eapply wp_mono; [by apply mark_dead_kept|]. intros _ s' (Hk & Hf & Hb & Hd).
  split_and!; [|done|apply Hk]. split; rewrite ?Hb; try done; [apply Hk|lia|apply Hf].
Qed.

Lemma read_indirect_buffered s i :
  log_wf s → indirect_ready s i →
  wp (if i_indirect i =? 0 then mret (Ok zero_block)
      else
        r ← lsfs_read_block (i_indirect i);
        match r with
        | Err _ => mret (Err LSFS_ERR_IO)
        | Ok blk => _ ← lsfs_gc_mark_block_dead (i_indirect i); mret (Ok blk)
        end)
    (λ r s', buffered 0 s s' ∧ log_frame s s' ∧ log_grows s s' ∧ r = Ok (disk_indirect s i)) s.
Proof using Type*.
  intros Hs [_ Hold _]. unfold disk_indirect. destruct (Z.eqb_spec (i_indirect i) 0) as [|Hne].
  { apply wp_ret. split_and!; [split; try done; lia|done|apply log_grows_refl|done]. }
  specialize (Hold Hne). destruct (live_addr_log s _ Hs Hold) as [_ Hin].
  wp_step. eapply wp_intro; [by apply read_block_ok|].
  assert (log_wf (ticked s)) as Hs1 by (destruct Hs; by split).
  cbv beta iota. wp_step. eapply wp_mono; [apply mark_dead_buffered; [done|by apply (live_u64 s)]|].
  intros _ s2 (Hbf & Hf & Hg). apply wp_ret. split_and!; [destruct Hbf; by split|destruct Hf; by split|exact Hg|done].
Qed.

(** An indirect block: two blocks go to the buffer, the data and the new indirect
    block, made from what the {e disk} holds at the old address. *)
Lemma write_indirect_room s p im idx buf :
  log_wf s → ic_heap (c_icache s) !! p = Some im →
  let i := im_disk_inode im in
  indirect_ready s i → LSFS_DIRECT_BLOCKS <= idx < file_blocks → is_block buf →
  sg_block_count (c_segbuf s) + 2 <= LSFS_SEGMENT_BLOCKS →
  wp (lsfs_inode_write_block p idx buf) (λ r s', r = LSFS_OK ∧ buffered 2 s s' ∧
    let b := lsfs_segment_to_block (sg_segment_id (c_segbuf s)) (sg_block_count (c_segbuf s) + 1) in
    live_addr s' b ∧ b ≠ 0 ∧
    log_view s' b = enc_u64s (<[Z.to_nat (idx - LSFS_DIRECT_BLOCKS) := next_addr s]>
      (ptrs_of_block (disk_indirect s i))) ∧
    ∃ im', ic_heap (c_icache s') !! p = Some im' ∧ i_ino (im_disk_inode im') = i_ino i ∧
      i_indirect (im_disk_inode im') = b) s.
Proof using Type*.
  intros Hs Hp i Hr Hidx Hbuf Hroom. unfold lsfs_inode_write_block, LSFS_DIRECT_BLOCKS, file_blocks in *.
  wp_step. eapply wp_intro; [by apply load_inode_run|]. fold i. cbv zeta.
  rewrite !(proj2 (Z.ltb_ge idx 12)) by lia. unfold LSFS_FIRST_DOUBLE.
  change (LSFS_DIRECT_BLOCKS + blocks_per_indirect) with 524. rewrite (proj2 (Z.ltb_lt idx 524)) by lia.
  do 2 wp_step. unfold mark_if_used. cbn [Z.eqb negb]. do 2 wp_step. wp_step.
  eapply wp_mono; [apply append_room; [done| |lia]|].
  { split_and!; [done|apply Hr|apply u32_range|unfold is_u8, LSFS_BLOCK_TYPE_DATA; lia]. }
  intros a s1 (-> & Hbf1 & Hf1 & Hg1 & _ & Hlive1).
  rewrite (proj2 (Z.eqb_neq _ _) (next_addr_nonzero s Hs)). apply wp_if_ok. unfold write_indirect, LSFS_DIRECT_BLOCKS.
  assert (disk_indirect s1 i = disk_indirect s i) as Hdi
    by (unfold disk_indirect; by rewrite (bf_disk _ _ _ Hbf1)).
  assert (indirect_ready s1 i) as Hr1.
  { split; [apply Hr| |rewrite Hdi; apply Hr]. intros Hne. by apply Hg1, (ir_old s i Hr). }
  pose proof (bf_wf _ _ _ Hbf1) as Hs1. pose proof (live_u64 s1 _ Hs1 Hlive1) as Hau.
  wp_step. eapply wp_mono; [by apply read_indirect_buffered|].
  intros r s2 (Hbf2 & Hf2 & Hg2 & ->). rewrite Hdi.
  pose proof (buffered_trans 1 0 _ _ _ Hbf1 Hbf2) as Hbf. pose proof (log_frame_trans _ _ _ Hf1 Hf2) as Hf.
  wp_step. eapply wp_of_opt; [apply arr_set_ok; rewrite length_ptrs; lia|].
  destruct (ptrs_enc (<[Z.to_nat (idx - 12) := next_addr s]> (ptrs_of_block (disk_indirect s i)))) as [_ Henc].
  { by rewrite length_insert, length_ptrs. }
  { apply Forall_insert; [apply dec_u64s_range, (ir_block s i Hr)|done]. }
  wp_step. eapply wp_mono; [apply append_room; [apply Hbf2| |rewrite (bf_count _ _ _ Hbf); lia]|].
  { split_and!; [exact Henc|apply Hr|unfold is_u32; lia|unfold is_u8, LSFS_BLOCK_TYPE_INDIRECT; lia]. }
  intros b s3 (Hb & Hbf3 & Hf3 & _ & Hv3 & Hlive3). pose proof (log_frame_trans _ _ _ Hf Hf3) as Hf03.
  pose proof (next_addr_nonzero s2 (bf_wf _ _ _ Hbf2)) as Hne.
  rewrite (proj2 (Z.eqb_neq _ _)) by congruence.
  wp_step. eapply wp_intro; [apply (upd_disk_inode_run s3 p im); by rewrite (lf_icache _ _ Hf03)|]. wp_step.
  rewrite decide_True by done. wp_step. eapply wp_intro; [apply upd_inode_run, with_inode_lookup|]. wp_step.
  pose proof (buffered_trans 1 1 _ _ _ Hbf Hbf3) as Hbf03.
  assert (b = lsfs_segment_to_block (sg_segment_id (c_segbuf s)) (sg_block_count (c_segbuf s) + 1)) as Hb'.
  { rewrite Hb. unfold next_addr. rewrite (bf_segment _ _ _ Hbf), (bf_count _ _ _ Hbf). f_equal; lia. }
  rewrite <-Hb'. split_and!; [done| |exact Hlive3|congruence|exact Hv3|].
  - destruct Hbf03 as [Hwf ? ? ? ?]. split; try assumption. by do 2 apply log_wf_icache.
  - eexists. split_and!; [apply with_inode_lookup|done|done].
Qed.

End Buffered.

(** * Theorems *)


(** Write, flush, read: when the write and the flush report success, reading any of the
    524 blocks gives the data for the block written and the former contents for the
    others, or an I/O error of the device. *)
Theorem file_write_flush_read `{E : Env} s p im idx buf :
  log_wf s → 3 <= st_free_count (c_segtable s) → ic_heap (c_icache s) !! p = Some im →
  file_wf s (im_disk_inode im) →
  (i_indirect (im_disk_inode im) ≠ 0 → settled s (i_indirect (im_disk_inode im))) →
  0 <= idx → is_block buf →
  wp (lsfs_inode_write_block p idx buf) (λ r s1, r = LSFS_OK →
    wp lsfs_segment_flush (λ f s2, f = LSFS_OK → ∀ j, 0 <= j < file_blocks →
      wp (lsfs_inode_read_block p j) (λ got _,
        got = Ok (if decide (j = idx) then buf else file_block s (im_disk_inode im) j) ∨
        got = Err LSFS_ERR_IO) s2) s1) s.
Proof.
  intros Hs Hfree Hp Hw Hset Hidx Hbuf. eapply wp_mono; [apply inode_write_block_wp; [done|lia|done..]|].
  intros r s1 ((Hs1 & _ & Hc1) & _ & _ & Hok) Hr. destruct (Hok Hr) as (_ & im1 & Hp1 & _ & _ & Hw1 & Hb1).
  set (i1 := im_disk_inode im1) in *.
  destruct (wp_elim _ _ _ (segment_flush_kept s1 Hs1 ltac:(lia))) as (f & s2 & Hrun & Hs2 & Hf2 & Hg2 & _ & Hd2).
  eapply wp_intro; [exact Hrun|]. intros Hf j Hj. destruct (Hd2 Hf) as [_ Hdisk].
  rewrite <-Hb1, <-(file_block_grows s1 s2) by done.
  pose proof (file_wf_grows s1 s2 i1 Hw1 Hg2) as Hw2.
  eapply wp_mono; [apply (inode_read_block_wp s2 p im1); try done|].
  - by rewrite (lf_icache _ _ Hf2).
  - intros Hne. destruct (fw_indirect s1 i1 Hw1 Hne) as [Hlive _].
    exact (wp_run _ _ _ _ _ (flush_settled s1 _ Hs1 ltac:(lia) Hlive) Hrun (or_intror Hf)).
  - intros got s3 (_ & [-> | [-> _]]); [left|by right]. unfold file_block. fold i1.
    destruct (Z.eqb_spec (file_addr s2 i1 j) 0) as [|Hne]; [done|].
    rewrite (file_addr_grows s1 s2) in * by done.
    pose proof (fw_addr s1 i1 Hw1 j Hj Hne) as Hlive. by rewrite (Hdisk _ Hlive), (proj2 (Hg2 _ Hlive)).
Qed.

(** Before the flush the data is not visible: a direct block that fits in the segment
    buffer is written with success, and a read that follows returns what the disk held
    at the new address, whatever the data was. *)
Theorem unflushed_write_invisible `{E : Env} s p im idx buf :
  log_wf s → 1 < st_free_count (c_segtable s) → ic_heap (c_icache s) !! p = Some im →
  file_wf s (im_disk_inode im) →
  (i_indirect (im_disk_inode im) ≠ 0 → settled s (i_indirect (im_disk_inode im))) →
  0 <= idx < LSFS_DIRECT_BLOCKS → is_block buf → sg_block_count (c_segbuf s) < LSFS_SEGMENT_BLOCKS →
  wp (lsfs_inode_write_block p idx buf) (λ r s1, r = LSFS_OK ∧
    wp (lsfs_inode_read_block p idx) (λ got _,
      got = Ok (disk_block (c_disk s) (next_addr s)) ∨ got = Err LSFS_ERR_IO) s1) s.
Proof.
  intros Hs Hfree Hp Hw Hset Hidx Hbuf Hroom.
  eapply wp_mono; [apply wp_and; [by apply write_direct_room|apply inode_write_block_wp; try done; lia]|].
  intros r s1 ((-> & Hbf & im' & Hp1 & Hind & Haddr) & Hk & _ & _ & Hok). split; [done|].
  destruct (Hok eq_refl) as (_ & im1 & Hp1' & _ & _ & Hw1 & _). rewrite Hp1 in Hp1'. injection Hp1' as <-.
  unfold LSFS_DIRECT_BLOCKS in Hidx.
  eapply wp_mono; [apply (inode_read_block_wp s1 p im'); try done; [apply Hk|unfold file_blocks; lia|]|].
  - rewrite Hind. unfold settled. rewrite (bf_segment _ _ _ Hbf). exact Hset.
  - intros got s2 (_ & [Hgot|[Hgot _]]); [left|by right]. rewrite Haddr, (bf_disk _ _ _ Hbf) in Hgot.
    by rewrite (proj2 (Z.eqb_neq _ _) (next_addr_nonzero s Hs)) in Hgot.
Qed.

(** C25. Two indirect blocks written without a flush between them: both calls report success,
    and the first block is lost, since the second call takes the old indirect block from
    the disk, where it has not arrived yet. *)
Theorem indirect_write_lost `{E : Env, !Healthy E} s p im buf1 buf2 :
  log_wf s → ic_heap (c_icache s) !! p = Some im →
  is_u32 (i_ino (im_disk_inode im)) → i_indirect (im_disk_inode im) = 0 →
  is_block buf1 → is_block buf2 → sg_block_count (c_segbuf s) + 4 <= LSFS_SEGMENT_BLOCKS →
  disk_block (c_disk s) (lsfs_segment_to_block (sg_segment_id (c_segbuf s))
    (sg_block_count (c_segbuf s) + 1)) = zero_block →
  wp (lsfs_inode_write_block p 12 buf1) (λ r1 s1, r1 = LSFS_OK ∧
    wp (lsfs_inode_write_block p 13 buf2) (λ r2 s2, r2 = LSFS_OK ∧
      ∃ im2, ic_heap (c_icache s2) !! p = Some im2 ∧
        file_block s2 (im_disk_inode im2) 12 = zero_block) s1) s.
Proof.
  intros Hs Hp Hino H0 Hb1 Hb2 Hroom Hhole. unfold LSFS_SEGMENT_BLOCKS in Hroom.
  eapply wp_mono; [apply (write_indirect_room s p im); try done|].
  { split; [done|by rewrite H0|]. unfold disk_indirect. rewrite H0. apply zero_block_is_block. }
  { unfold LSFS_SEGMENT_BLOCKS. lia. }
  intros r1 s1 (-> & Hbf1 & Hlive1 & Hne1 & _ & im1 & Hp1 & Hino1 & Hind1). split; [done|].
  assert (disk_indirect s1 (im_disk_inode im1) = zero_block) as Hdi.
  { unfold disk_indirect. rewrite Hind1, (bf_disk _ _ _ Hbf1). by rewrite (proj2 (Z.eqb_neq _ _) Hne1). }
  eapply wp_mono; [apply (write_indirect_room s1 p im1); try done|].
  { apply (bf_wf _ _ _ Hbf1). }
  { split; [by rewrite Hino1|by rewrite Hind1|]. rewrite Hdi. apply zero_block_is_block. }
  { rewrite (bf_count _ _ _ Hbf1). unfold LSFS_SEGMENT_BLOCKS. lia. }
  intros r2 s2 (-> & Hbf2 & Hlive2 & Hne2 & Hv2 & im2 & Hp2 & _ & Hind2). split; [done|].
  exists im2. split; [done|]. rewrite Hdi in Hv2.
  assert (file_addr s2 (im_disk_inode im2) 12 = 0) as Haddr.
  { unfold file_addr. rewrite Hind2, (proj2 (Z.eqb_neq _ _) Hne2), Hv2.
    pose proof (next_addr_range s1 (bf_wf _ _ _ Hbf1)) as Hu.
    destruct (ptrs_enc (<[Z.to_nat (13 - LSFS_DIRECT_BLOCKS) := next_addr s1]> (ptrs_of_block zero_block)))
      as [Hptrs _].
    { by rewrite length_insert, length_ptrs. }
    { apply Forall_insert; [apply dec_u64s_range, zero_block_is_block|unfold is_u64; lia]. }
    rewrite Hptrs.
    rewrite list_lookup_insert_ne by (unfold LSFS_DIRECT_BLOCKS; lia). apply ptrs_zero_block. }
  unfold file_block. by rewrite Haddr.
Qed.
