(* ===== verification/InodeDisk.v ===== *)
(** Inodes on their way to the disk and back: [lsfs_inode_write] appends the inode to
    the log and enters its address in the inode map, [lsfs_inode_get] reads it from
    that address. *)
From Stdlib Require Import Sorting.Sorted.
From S2P Require Import Prelude OnDisk Lru Context Io Imap SegTable Log LogView.
From S2P Require Import Inode FileView.

(** * The inode map within the invariant of the log *)

(** What the entries of a map can hold. *)
Definition map_ranges (m : gmap Z (Z * Z)) : Prop :=
  ∀ ino loc ver, m !! ino = Some (loc, ver) → is_u32 ino ∧ is_u64 loc ∧ is_u32 ver.

Lemma imap_entries_ranges im :
  imap_wf im → Forall disk_wf (imap_live im) ↔ map_ranges (imap_map im).
Proof.
  intros Hwf. pose proof (imap_wf_sorted im Hwf) as Hs. unfold imap_map. split.
  - intros Hf ino loc ver Hm. apply entries_map_Some in Hm as (i & e & Hi & <- & [= -> ->]); [|done].
    destruct (Forall_lookup_1 _ _ _ _ Hf Hi) as (? & ? & ?). done.
  - intros Hr. apply Forall_lookup. intros i e Hi.
    destruct (Hr (ie_ino e) (ie_location e) (ie_version e)) as (? & ? & ?).
    { by eapply entries_map_lookup. }
    by split_and!.
Qed.

Lemma map_ranges_insert m ino loc ver :
  map_ranges m → is_u32 ino → is_u64 loc → is_u32 ver → map_ranges (<[ino := (loc, ver)]> m).
Proof.
  intros Hm ? ? ? ino' loc' ver'. destruct (decide (ino' = ino)) as [->|Hne].
  - rewrite lookup_insert_eq. by intros [= <- <-].
  - rewrite lookup_insert_ne by done. apply Hm.
Qed.

Lemma map_ranges_delete m ino : map_ranges m → map_ranges (delete ino m).
Proof. intros Hm ino' loc ver [_ H]%lookup_delete_Some. by apply (Hm ino'). Qed.

Definition with_imap (im : lsfs_imap) (s : lsfs_context) : lsfs_context := s <| c_imap := im |>.

Lemma with_imap_wf im s :
  log_wf s → imap_wf im → map_ranges (imap_map im) → log_wf (with_imap im s).
Proof.
  intros [? ? ? ? ? ? ? ? ? ? _ _ ? ?] Him Hr. split; try assumption. by apply imap_entries_ranges.
Qed.

Section InodeDisk.
Context `{E : Env}.
Implicit Types s : lsfs_context.

(** What [lsfs_imap_set] makes of the map: it fails only when the array is full and
    cannot grow. *)
Definition imap_entered s (ino loc : Z) s' : Prop :=
  imap_map (c_imap s') = <[ino := (loc, match imap_map (c_imap s) !! ino with
                                        | Some (_, v) => u32 (v + 1) | None => 1 end)]> (imap_map (c_imap s)).

Definition imap_refused s (ino : Z) s' : Prop :=
  imap_map (c_imap s) !! ino = None ∧ c_imap s' = c_imap s ∧
  imap_count (c_imap s) = imap_capacity (c_imap s) ∧
  (LSFS_MAX_INODES <= imap_capacity (c_imap s) ∨ ¬ Healthy E).

(** Only the inode map changed. *)
Definition imap_frame s s' : Prop := s' = s <| c_imap := c_imap s' |> <| c_tick := c_tick s' |>.

Lemma imap_set_wp s ino loc :
  log_wf s → is_u32 ino → is_u64 loc →
  wp (lsfs_imap_set ino loc) (λ r s', log_wf s' ∧ imap_frame s s' ∧
    imap_next_ino (c_imap s') = imap_next_ino (c_imap s) ∧
    ((r = LSFS_OK ∧ imap_entered s ino loc s') ∨ (r ≠ LSFS_OK ∧ imap_refused s ino s'))) s.
Proof.
  intros Hs Hino Hloc. unfold lsfs_imap_set. wp_step. apply wp_gets. do 2 (wp_step; eapply wp_intro; [done|]).
  pose proof (proj1 (imap_entries_ranges _ (lw_imap s Hs)) (lw_imap_entries s Hs)) as Hr.
  destruct (imap_set_spec (env_alloc (c_tick s)) (env_mem (S (c_tick s))) (c_imap s) ino loc (lw_imap s Hs))
    as (r & im' & Hset & Hwf' & Hnext & Hmap).
  wp_step. eapply wp_of_opt; [exact Hset|]. wp_steps. cbn [fst snd].
  set (s1 := ticked (ticked s)). change (s <| c_tick ::= S |> <| c_tick ::= S |>) with s1.
  assert (log_wf s1) as Hs1 by by apply (log_wf_frame s).
  assert (map_ranges (imap_map im')) as Hr'.
  { destruct (imap_map (c_imap s) !! ino) as [[l v]|] eqn:Hl.
    - destruct Hmap as [_ ->]. destruct (Hr _ _ _ Hl) as (? & ? & ?).
      apply map_ranges_insert; try done. apply u32_range.
    - destruct Hmap as [(_ & -> & _)|(-> & _)]; [|done]. by apply map_ranges_insert. }
  split_and!; [by apply with_imap_wf|done|done|]. unfold imap_entered, imap_refused. cbn [c_imap field_set].
  destruct (imap_map (c_imap s) !! ino) as [[l v]|].
  - left. by destruct Hmap.
  - destruct Hmap as [(-> & -> & _)|(-> & Hfull & Hwhy)]; [by left|]. right.
    split; [by destruct Hwhy as [[-> _]|[-> _]]|]. split_and!; try done.
    destruct Hwhy as [[_ ?]|[_ Hra]]; [by left|right]. intros Hh. by rewrite healthy_alloc in Hra.
Qed.

Lemma imap_frame_grows s s' : imap_frame s s' → log_grows s s'.
Proof. intros ->. by apply log_grows_same. Qed.

(** ** Writing an inode *)

Lemma over_read_inode (i : lsfs_inode) junk :
  disk_wf i → is_block (over_read (enc i) junk) ∧ ∃ rest, over_read (enc i) junk = enc i ++ rest.
Proof.
  intros Hi. pose proof (length_enc i Hi) as Hlen.
  assert (sizeof lsfs_inode <= BS)%nat as Hsz by (cbn [sizeof inode_ondisk]; unfold i_reserved_len, BS, LSFS_BLOCK_SIZE; lia).
  split; [by apply over_read_block, enc_bytes|]. unfold over_read. rewrite take_app_ge by lia. eauto.
Qed.

(** The cached inode after it was written to [loc]. *)
Definition written (im : lsfs_inode_mem) (loc : Z) : lsfs_inode_mem :=
  im <| im_disk_location := loc |> <| im_version ::= λ v, u32 (v + 1) |> <| im_dirty := false |>.

Lemma wp_forall_away s :
  log_wf s → wp lsfs_segment_flush (λ _ s', ∀ seg, away seg s → away seg s') s.
Proof.
  intros Hs. destruct (wp_elim _ _ _ (segment_flush_wp s Hs)) as (r & s' & Hrun & _).
  eapply wp_intro; [exact Hrun|]. intros seg Haw. exact (wp_run _ _ _ _ _ (segment_flush_away s seg Hs Haw) Hrun).
Qed.

(** The part of an append that does not depend on a free segment being left. *)
Definition append_done s data (a : Z) s' : Prop :=
  log_wf s' ∧ log_frame s s' ∧ (a ≠ 0 → live_addr s' a ∧ log_view s' a = data) ∧
  (0 < st_free_count (c_segtable s) → kept 1 s s') ∧
  (∀ seg, away seg s → away seg s' ∧ (a ≠ 0 → (lsfs_block_to_segment a).1 ≠ seg)).

Lemma segment_append_done s data ino offset type :
  log_wf s → block_args data ino offset type →
  wp (lsfs_segment_append_block data ino offset type) (append_done s data) s.
Proof.
  intros Hs Hargs. apply (segment_append_wp (λ s', (0 < st_free_count (c_segtable s) → kept 1 s s') ∧
    ∀ seg, away seg s → away seg s')); try done.
  - split; [|done]. intros _. apply (kept_mono 0); [lia|by apply kept_refl].
  - apply wp_and; [|by apply wp_forall_away].
    destruct (Z.lt_ge_cases 0 (st_free_count (c_segtable s))) as [Hpos|Hno].
    + eapply wp_mono; [by apply segment_flush_kept|]. intros r s' (? & ? & ? & ? & _) _. unfold kept. by split_and!.
    + eapply wp_mono; [by apply segment_flush_wp|]. intros r s' _. lia.
  - intros s' _ Hs' Hf [Hk Ha]. split_and!; [done..|by auto].
  - intros s1 info Hs1 [Hk Haw] Hf1 Hlt _ _ Hs2.
    destruct (log_grows_append s1 data (new_info info ino offset type) Hs1 Hlt) as (Hg2 & Hl & Hv & _).
    split_and!; [done| |done| |]; [by eapply log_frame_trans| |].
    + intros Hpos. apply (kept_trans 1 0 _ s1); [by apply Hk|]. unfold kept. split_and!; [done..|]. cbn. lia.
    + intros seg Hseg. destruct (Haw seg Hseg) as (? & ? & Hne). split; [done|]. intros _.
      pose proof (lw_count s1 Hs1). unfold LSFS_SEGMENT_BLOCKS in *.
      rewrite block_to_segment_to_block; [done|by apply (live_valid s1), lw_segment|unfold LSFS_SEGMENT_BLOCKS; lia].
Qed.

(** Which inodes the map still places in segment [seg]. *)
Definition left_only (seg : Z) s s' : Prop :=
  ∀ ino loc ver, imap_map (c_imap s') !! ino = Some (loc, ver) → (lsfs_block_to_segment loc).1 = seg →
    ∃ ver0, imap_map (c_imap s) !! ino = Some (loc, ver0).

Definition inode_written s p im (r : Z) s' : Prop :=
  log_wf s' ∧ (0 < st_free_count (c_segtable s) → kept 1 s s') ∧ c_disk_size s' = c_disk_size s ∧
  (disk_ok s → disk_ok s') ∧ imap_next_ino (c_imap s') = imap_next_ino (c_imap s) ∧
  (∀ seg, away seg s → away seg s' ∧ left_only seg s s') ∧
  ((r = LSFS_ERR_NOSPC ∧ c_icache s' = c_icache s ∧ c_imap s' = c_imap s) ∨
   (r = LSFS_OK ∧ ∃ loc rest, live_addr s' loc ∧
      log_view s' loc = enc (im_disk_inode im) ++ rest ∧
      c_icache s' = c_icache s <| ic_heap ::= <[p := written im loc]> |> ∧
      (imap_entered s (i_ino (im_disk_inode im)) loc s' ∨
       imap_refused s (i_ino (im_disk_inode im)) s'))).

Lemma left_only_set seg s s' s1 ino loc r :
  (r = LSFS_OK ∧ imap_entered s ino loc s1) ∨ (r ≠ LSFS_OK ∧ imap_refused s ino s1) →
  (lsfs_block_to_segment loc).1 ≠ seg → c_imap s' = c_imap s1 → left_only seg s s'.
Proof.
  intros Hset Hseg Him ino' loc' ver'. rewrite Him. destruct Hset as [[_ He]|(_ & _ & -> & _)]; [|by eauto].
  rewrite He. destruct (decide (ino' = ino)) as [->|Hne].
  - rewrite lookup_insert_eq. intros [= <- _]. done.
  - rewrite lookup_insert_ne by done. eauto.
Qed.

Lemma inode_write_wp s p im :
  log_wf s → ic_heap (c_icache s) !! p = Some im →
  disk_wf (im_disk_inode im) → is_u64 (im_disk_location im) → im_dirty im = true →
  wp (lsfs_inode_write p) (inode_written s p im) s.
Proof.
  intros Hs Hp Hi Hloc Hdirty. pose proof (proj1 Hi) as Hino. unfold lsfs_inode_write.
  wp_step. eapply wp_intro; [by apply load_inode_run|]. rewrite Hdirty. cbn [negb]. wp_step.
  fold (mark_if_used (im_disk_location im)).
  destruct (wp_elim _ _ _ (mark_if_used_kept s _ Hs Hloc)) as ([] & s1 & Hrun1 & Hk1 & Hf1 & _ & _).
  assert (∀ seg, away seg s → away seg s1) as Haw1.
  { intros seg Haw. exact (wp_run _ _ _ _ _ (mark_if_used_away s _ seg Hs Hloc Haw) Hrun1). }
  eapply wp_intro; [exact Hrun1|]. pose proof (proj1 Hk1) as Hs1. wp_step. eapply wp_intro; [done|].
  destruct (over_read_inode (im_disk_inode im) (env_mem (c_tick s1)) Hi) as [Hblk (rest & Hrest)].
  set (s2 := s1 <| c_tick ::= S |>). assert (kept 0 s1 s2) as Hk2 by by apply io_same_kept.
  pose proof (kept_trans _ _ _ _ _ Hk1 Hk2) as Hk. pose proof (proj1 Hk2) as Hs2. wp_step.
  eapply wp_mono; [apply segment_append_done; [done|by split_and!]|].
  intros loc s3 (Hs3 & Hf3 & Hlive & Hgrow & Haw3).
  assert (log_frame s s3) as Hf by (eapply log_frame_trans; [exact Hf1|]; by destruct Hf3).
  assert (0 < st_free_count (c_segtable s) → kept 1 s s3) as Hk3.
  { intros Hpos. apply (kept_trans 0 1 _ s2); [exact Hk|]. apply Hgrow. destruct Hk as (_ & _ & ?). lia. }
  pose proof (lf_icache _ _ Hf) as Hic. pose proof (lf_imap _ _ Hf) as Him. pose proof (lf_disk_size _ _ Hf) as Hsz.
  destruct (Z.eqb_spec loc 0) as [|Hne].
  { apply wp_ret. split_and!; try done; [apply Hf|by rewrite Him| |left; by split_and!].
    intros seg Haw. split; [by apply Haw3, Haw1|]. intros ino l v. rewrite Him. eauto. }
  destruct (Hlive Hne) as [Hl3 Hv3]. wp_step.
  eapply wp_mono; [apply imap_set_wp; [done..|by apply (live_u64 s3)]|].
  intros r s4 (Hs4 & Hf4 & Hnx & Hset). pose proof (imap_frame_grows s3 s4 Hf4) as Hg4.
  assert (c_icache s4 = c_icache s) as Hic4 by (rewrite Hf4; exact Hic).
  wp_step. eapply wp_intro; [apply upd_inode_run; by rewrite Hic4|]. apply wp_ret.
  split_and!; [by apply log_wf_icache| |rewrite Hf4; exact Hsz|rewrite Hf4; apply Hf|cbn; by rewrite Hnx, Him| |].
  - intros Hpos. apply kept_with_inode, (kept_trans 1 0 _ s3); [by apply Hk3|].
    unfold kept. split_and!; [done..|]. rewrite Hf4. cbn. lia.
  - intros seg Haw. destruct (Haw3 seg (Haw1 seg Haw)) as [Haw4 Hseg]. split; [by rewrite Hf4|].
    apply (left_only_set seg s _ s4 (i_ino (im_disk_inode im)) loc r); [|by apply Hseg|done].
    unfold imap_entered, imap_refused in *. by rewrite Him in Hset.
  - right. split; [done|]. exists loc, rest. destruct (Hg4 loc Hl3) as [Hl4 Hv4]. split_and!; try done.
    + by rewrite <-Hrest, <-Hv3.
    + cbn. by rewrite Hic4.
    + unfold imap_entered, imap_refused in *. rewrite Him in Hset. cbn. destruct Hset as [[_ ?]|[_ ?]]; auto.
Qed.
End InodeDisk.

(** * Theorems *)

(** C18. An inode written reaches the disk: when the write and a flush that follows report
    success, the block at the inode's new location holds the inode at its beginning,
    and the inode map sends the inode's number to that location with the next version,
    or refused the entry: the map was full and could not grow, and the write reports
    success all the same.  A write that fails changes neither the cached inode nor the
    map. *)
Theorem inode_write_persists `{E : Env} s p im :
  log_wf s → 2 <= st_free_count (c_segtable s) → ic_heap (c_icache s) !! p = Some im →
  disk_wf (im_disk_inode im) → is_u64 (im_disk_location im) → im_dirty im = true →
  let ino := i_ino (im_disk_inode im) in
  wp (lsfs_inode_write p) (λ r s1,
    (r = LSFS_ERR_NOSPC ∧ c_icache s1 = c_icache s ∧ c_imap s1 = c_imap s) ∨
    (r = LSFS_OK ∧ ∃ loc, ic_heap (c_icache s1) !! p = Some (written im loc) ∧
       (imap_entered s ino loc s1 ∨ imap_refused s ino s1) ∧
       wp lsfs_segment_flush (λ f s2, f = LSFS_OK →
         c_imap s2 = c_imap s1 ∧ c_icache s2 = c_icache s1 ∧
         dec (disk_block (c_disk s2) loc) = im_disk_inode im) s1)) s.
Proof.
  intros Hs Hfree Hp Hi Hloc Hd. cbv zeta. eapply wp_mono; [by apply inode_write_wp|].
  intros r s1 (Hs1 & Hk & _ & _ & _ & _ & [Hfail|(-> & loc & rest & Hlive & Hv & Hic & Him)]); [by left|].
  destruct (Hk ltac:(lia)) as (_ & _ & Hc1).
  right. split; [done|]. exists loc. split_and!; [rewrite Hic; apply lookup_insert_eq|done|].
  eapply wp_mono; [apply segment_flush_kept; [done|lia]|].
  intros f s2 (_ & Hf & _ & _ & Hok) Hr. destruct (Hok Hr) as [_ Hdisk].
  rewrite (lf_imap _ _ Hf), (lf_icache _ _ Hf), (Hdisk _ Hlive), Hv. split_and!; [done..|].
  by apply dec_enc.
Qed.
