(* ===== verification/InodeCache.v ===== *)
(** The inode cache of [src/inode.c]: hash chains threaded through the inodes, an LRU
    list and a count.  Its invariant, and what lookup, insertion and eviction do. *)
From S2P Require Import Prelude OnDisk Lru Context Io Imap SegTable Log LogView.
From S2P Require Import Inode FileView InodeDisk.

(** * Hash chains *)

(** The inodes met from [first] by following [next]. *)
Definition chain (heap : gmap Z lsfs_inode_mem) : option Z → list Z → Prop :=
  links (λ p, im_next <$> heap !! p).

Lemma chain_ext heap heap' first ps :
  chain heap first ps → (∀ p, p ∈ ps → im_next <$> heap' !! p = im_next <$> heap !! p) →
  chain heap' first ps.
Proof. apply links_ext. Qed.

Lemma chain_elem heap first ps p : chain heap first ps → p ∈ ps → is_Some (heap !! p).
Proof. intros Hc Hp. by apply (links_elem _ _ _ _ Hc), fmap_is_Some in Hp. Qed.

(** [next] of [x] skips the node that follows it. *)
Definition skip_next (x p : Z) (heap : gmap Z lsfs_inode_mem) : gmap Z lsfs_inode_mem :=
  match heap !! x, heap !! p with
  | Some i, Some v => <[x := i <| im_next := im_next v |>]> heap
  | _, _ => heap
  end.

Lemma skip_next_elsewhere x p heap q : q ≠ x → skip_next x p heap !! q = heap !! q.
Proof. intros Hq. unfold skip_next. repeat case_match; by rewrite ?lookup_insert_ne by done. Qed.

Lemma chain_skip heap first l1 x p l2 :
  chain heap first (l1 ++ x :: p :: l2) → NoDup (l1 ++ x :: p :: l2) →
  chain (delete p (skip_next x p heap)) first (l1 ++ x :: l2).
Proof.
  intros Hc Hnd. assert (p ≠ x) as Hpx.
  { apply NoDup_app in Hnd as (_ & _ & [? _]%NoDup_cons). set_solver. }
  destruct (chain_elem _ _ _ x Hc) as [ix Hx]; [set_solver|]. destruct (chain_elem _ _ _ p Hc) as [ip Hp]; [set_solver|].
  eapply links_skip; [exact Hc|exact Hnd| |]; cbn beta.
  - rewrite lookup_delete_ne by done. unfold skip_next. by rewrite Hx, Hp, lookup_insert_eq.
  - intros q Hqx Hqp. by rewrite lookup_delete_ne, skip_next_elsewhere by done.
Qed.

(** * The invariant *)

Record icache_repr (c : lsfs_inode_cache) (ch : Z → list Z) (l : list Z) : Prop := {
  cr_buckets : length (ic_buckets c) = Z.to_nat LSFS_INODE_CACHE_BUCKETS;
  cr_chain h : 0 <= h < LSFS_INODE_CACHE_BUCKETS →
    ∃ first, arr_get (ic_buckets c) h = Some first ∧ chain (ic_heap c) first (ch h);
  cr_nodup h : NoDup (ch h);
  cr_member h p : 0 <= h < LSFS_INODE_CACHE_BUCKETS →
    p ∈ ch h ↔ ∃ im, ic_heap c !! p = Some im ∧ inode_hash (i_ino (im_disk_inode im)) = h;
  cr_lru : lru_repr (ic_lru c) l;
  cr_listed p : p ∈ l ↔ is_Some (ic_heap c !! p);
  cr_count : ic_count c = Z.of_nat (length l);
  cr_small : Z.of_nat (length l) < 2 ^ 31;
  cr_brk p : is_Some (ic_heap c !! p) → p < ic_brk c }.

(** The counters of a cached inode. *)
Definition counts_ok (im : lsfs_inode_mem) : Prop := is_u32 (im_refcount im) ∧ is_u32 (im_version im).

(** What every cached inode can hold. *)
Definition icache_ranges (c : lsfs_inode_cache) : Prop :=
  ∀ p im, ic_heap c !! p = Some im → disk_wf (im_disk_inode im) ∧ is_u64 (im_disk_location im) ∧ counts_ok im.

Definition icache_wf (c : lsfs_inode_cache) : Prop := (∃ ch l, icache_repr c ch l) ∧ icache_ranges c.

Lemma inode_hash_range ino : 0 <= inode_hash ino < LSFS_INODE_CACHE_BUCKETS.
Proof. apply Z.mod_pos_bound. unfold LSFS_INODE_CACHE_BUCKETS. lia. Qed.

(** The walks have enough fuel. *)
Lemma nodup_heap_size (heap : gmap Z lsfs_inode_mem) ps :
  NoDup ps → (∀ p, p ∈ ps → is_Some (heap !! p)) → (length ps <= size heap)%nat.
Proof.
  intros Hnd Hin. rewrite <-size_dom, <-(size_list_to_set (C := gset Z)) by done. apply subseteq_size.
  intros p Hp%elem_of_list_to_set. by apply elem_of_dom, Hin.
Qed.

Lemma empty_inode_cache_wf : icache_wf empty_inode_cache.
Proof.
  split; [|done]. exists (λ _, []), []. split; cbn -[Z.to_nat]; try done; try lia.
  - intros h Hh. exists None. split; [|done]. apply arr_get_lookup. split; [lia|].
    apply lookup_replicate. unfold LSFS_INODE_CACHE_BUCKETS in *. split; [done|lia].
  - intros _. constructor.
  - intros h p _. split; [by intros ?%elem_of_nil|]. intros (im & H & _). by rewrite lookup_empty in H.
  - apply lru_empty_repr.
  - intros p. rewrite lookup_empty. split; [by intros ?%elem_of_nil|by intros []].
  - intros p [? H]. by rewrite lookup_empty in H.
Qed.

(** * Steps on the representation *)

(** An inode is changed in place. *)
Lemma repr_update c ch l p im im' :
  icache_repr c ch l → ic_heap c !! p = Some im → im_next im' = im_next im →
  i_ino (im_disk_inode im') = i_ino (im_disk_inode im) →
  icache_repr (c <| ic_heap ::= <[p := im']> |>) ch l.
Proof.
  intros [Hb Hc Hnd Hm Hl Hli Hn Hs Hk] Hp Hnext Hino.
  assert (∀ q, is_Some (<[p := im']> (ic_heap c) !! q) ↔ is_Some (ic_heap c !! q)) as Hdom.
  { intros q. rewrite lookup_insert_is_Some. split; [|destruct (decide (p = q)); auto].
    intros [->|[_ ?]]; [by eexists|done]. }
  split; cbn; try done.
  - intros h Hh. destruct (Hc h Hh) as (first & Hf & Hch). exists first. split; [done|].
    eapply chain_ext; [exact Hch|]. intros q _. destruct (decide (q = p)) as [->|Hne].
    + rewrite lookup_insert_eq, Hp. cbn. by rewrite Hnext.
    + by rewrite lookup_insert_ne.
  - intros h q Hh. rewrite (Hm h q Hh). destruct (decide (q = p)) as [->|Hne].
    + rewrite lookup_insert_eq, Hp. split; intros (? & [= <-] & <-); eexists; (split; [done|]); by rewrite Hino.
    + by rewrite lookup_insert_ne.
  - intros q. by rewrite Hdom.
  - intros q. rewrite Hdom. apply Hk.
Qed.

(** A cached inode becomes the most recently used one. *)
Lemma repr_touch c ch l p :
  icache_repr c ch l → is_Some (ic_heap c !! p) →
  ∃ l', icache_repr (c <| ic_lru := inode_lru_add p (inode_lru_remove p (ic_lru c)) |>) ch l'.
Proof.
  intros [Hb Hc Hnd Hm Hl Hli Hn Hs Hk] Hp. apply Hli in Hp as (l1 & l2 & ->)%list_elem_of_split.
  exists ((l1 ++ l2) ++ [p]).
  assert (Permutation (l1 ++ p :: l2) ((l1 ++ l2) ++ [p])) as Hperm.
  { by rewrite <-Permutation_middle, <-Permutation_cons_append. }
  split; cbn; try done.
  - apply inode_lru_add_repr; [by apply inode_lru_remove_repr|].
    pose proof (repr_nodup _ _ Hl) as Hd. rewrite Hperm in Hd. apply NoDup_app in Hd as (_ & Hd & _).
    intros Hin. apply (Hd p Hin). set_solver.
  - intros q. by rewrite <-Hli, Hperm.
  - by rewrite Hn, Hperm.
  - by rewrite <-Hperm.
Qed.

(** A new inode at the head of its chain and at the end of the LRU list. *)
Definition inserted (c : lsfs_inode_cache) (h : Z) (first : option Z) (im : lsfs_inode_mem) : lsfs_inode_cache :=
  mk_inode_cache (<[ic_brk c := im <| im_next := first |>]> (ic_heap c)) (Z.succ (ic_brk c))
    (<[Z.to_nat h := Some (ic_brk c)]> (ic_buckets c)) (inode_lru_add (ic_brk c) (ic_lru c))
    (u32 (ic_count c + 1)).

Lemma repr_insert c ch l h first im :
  icache_repr c ch l → ic_count c + 1 < 2 ^ 31 → h = inode_hash (i_ino (im_disk_inode im)) →
  arr_get (ic_buckets c) h = Some first →
  icache_repr (inserted c h first im) (λ h', if decide (h' = h) then ic_brk c :: ch h else ch h')
    (l ++ [ic_brk c]).
Proof.
  intros [Hb Hc Hnd Hm Hl Hli Hn Hs Hk] Hsmall -> Hfirst.
  set (h := inode_hash _) in *. pose proof (inode_hash_range (i_ino (im_disk_inode im))) as Hh.
  assert (ic_heap c !! ic_brk c = None) as Hfresh.
  { apply eq_None_not_Some. intros ?%Hk. lia. }
  assert (∀ q h', q ∈ ch h' → 0 <= h' < LSFS_INODE_CACHE_BUCKETS → q ≠ ic_brk c) as Hnew.
  { intros q h' Hq Hh' ->. apply (Hm h' _ Hh') in Hq as (? & Hq & _). congruence. }
  split; cbn [inserted ic_buckets ic_heap ic_lru ic_count ic_brk].
  - by rewrite length_insert.
  - intros h' Hh'. destruct (Hc h' Hh') as (f' & Hf' & Hch'). case_decide as Heq.
    + subst h'. exists (Some (ic_brk c)). split.
      { apply arr_get_lookup. split; [lia|]. apply list_lookup_insert_eq. rewrite Hb. lia. }
      assert (f' = first) as -> by congruence.
      split; [done|]. exists first. rewrite lookup_insert_eq. split; [done|].
      eapply chain_ext; [exact Hch'|]. intros q Hq. by rewrite lookup_insert_ne by (symmetry; by eapply Hnew).
    + exists f'. split.
      { apply arr_get_lookup in Hf' as [? Hf']. apply arr_get_lookup. split; [done|].
        by rewrite list_lookup_insert_ne by (unfold h in *; lia). }
      eapply chain_ext; [exact Hch'|]. intros q Hq. by rewrite lookup_insert_ne by (symmetry; by eapply Hnew).
  - intros h'. case_decide; [|apply Hnd]. constructor; [|apply Hnd]. intros Hin. by apply (Hnew _ h Hin).
  - intros h' q Hh'. destruct (decide (q = ic_brk c)) as [->|Hq].
    + rewrite lookup_insert_eq. split.
      * case_decide as Heq; [|by intros ?%Hnew]. intros _. eexists. split; [done|]. done.
      * intros (? & [= <-] & Hhash). rewrite decide_True by done. set_solver.
    + rewrite lookup_insert_ne by done. rewrite <-(Hm h' q Hh'). case_decide as Heq; [subst h'; set_solver|done].
  - apply inode_lru_add_repr; [done|]. rewrite Hli, Hfresh. by intros [].
  - intros q. rewrite elem_of_app, Hli, list_elem_of_singleton, lookup_insert_is_Some.
    destruct (decide (ic_brk c = q)); naive_solver.
  - rewrite length_app. cbn. rewrite u32_small; lia.
  - rewrite length_app. cbn. lia.
  - intros q. rewrite lookup_insert_is_Some. intros [<-|[_ H]]; [lia|]. specialize (Hk q H). lia.
Qed.

(** Two inodes that differ in their place in the chain only. *)
Definition relinked (i i' : lsfs_inode_mem) : Prop := i' = i <| im_next := im_next i' |>.

Lemma relinked_refl i : relinked i i.
Proof. by destruct i. Qed.
Lemma relinked_trans i1 i2 i3 : relinked i1 i2 → relinked i2 i3 → relinked i1 i3.
Proof. unfold relinked. intros -> ->. done. Qed.
Lemma relinked_fields i i' :
  relinked i i' → im_disk_inode i' = im_disk_inode i ∧ im_disk_location i' = im_disk_location i ∧
    im_refcount i' = im_refcount i ∧ im_dirty i' = im_dirty i ∧ im_version i' = im_version i.
Proof. by intros ->. Qed.

(** [p] has left its chain [l1 ++ p :: l2]. *)
Record unlinked (c : lsfs_inode_cache) (h p : Z) (l1 l2 : list Z) (c' : lsfs_inode_cache) : Prop := {
  ul_buckets : length (ic_buckets c') = length (ic_buckets c);
  ul_others h' : h' ≠ h → arr_get (ic_buckets c') h' = arr_get (ic_buckets c) h';
  ul_chain : ∃ first, arr_get (ic_buckets c') h = Some first ∧
    chain (delete p (ic_heap c')) first (l1 ++ l2);
  ul_outside q : q ∉ l1 ++ l2 → ic_heap c' !! q = ic_heap c !! q;
  ul_heap q : option_Forall2 relinked (ic_heap c !! q) (ic_heap c' !! q);
  ul_lru : ic_lru c' = ic_lru c; ul_brk : ic_brk c' = ic_brk c; ul_count : ic_count c' = ic_count c }.

Definition dropped (p : Z) (c : lsfs_inode_cache) : lsfs_inode_cache :=
  c <| ic_lru ::= inode_lru_remove p |> <| ic_heap ::= delete p |> <| ic_count ::= λ n, u32 (n - 1) |>.

Lemma relinked_hash i i' :
  relinked i i' → inode_hash (i_ino (im_disk_inode i')) = inode_hash (i_ino (im_disk_inode i)).
Proof. intros H. by destruct (relinked_fields _ _ H) as [-> _]. Qed.

Lemma repr_drop c ch l p h l1 l2 c' :
  icache_repr c ch l → ch h = l1 ++ p :: l2 → 0 <= h < LSFS_INODE_CACHE_BUCKETS →
  unlinked c h p l1 l2 c' →
  ∃ l', icache_repr (dropped p c') (λ h', if decide (h' = h) then l1 ++ l2 else ch h') l' ∧
    length l = S (length l').
Proof.
  intros [Hb Hc Hnd Hm Hl Hli Hn Hs Hk] Hch Hh [Ub Uo (first & Uf & Uc) Uout Uh Ul Ubr Uco].
  assert (∃ im, ic_heap c !! p = Some im ∧ inode_hash (i_ino (im_disk_inode im)) = h) as (im & Hp & Hhash).
  { apply (Hm h p Hh). rewrite Hch. set_solver. }
  assert (p ∉ l1 ++ l2 ∧ NoDup (l1 ++ l2)) as [Hpn Hnd'].
  { apply NoDup_cons. rewrite Permutation_middle, <-Hch. apply Hnd. }
  assert (∀ q, is_Some (ic_heap c' !! q) ↔ is_Some (ic_heap c !! q)) as Hdom.
  { intros q. by destruct (Uh q). }
  assert (p ∈ l) as (k1 & k2 & ->)%list_elem_of_split by by apply Hli.
  exists (k1 ++ k2). split; [|rewrite !length_app; cbn; lia].
  assert (p ∉ k1 ++ k2) as Hpk.
  { pose proof (repr_nodup _ _ Hl) as Hd. rewrite <-Permutation_middle in Hd. by apply NoDup_cons in Hd as [? _]. }
  rewrite length_app in Hn, Hs. cbn [length] in Hn, Hs.
  split; cbn [dropped field_set ic_buckets ic_heap ic_lru ic_count ic_brk].
  - by rewrite Ub.
  - intros h' Hh'. case_decide as Heq; [subst h'; by exists first|].
    destruct (Hc h' Hh') as (f' & Hf' & Hch'). exists f'. split; [by rewrite Uo|].
    eapply chain_ext; [exact Hch'|]. intros q Hq. apply (Hm h' q Hh') in Hq as (iq & Hq & Hhq).
    assert (q ∉ ch h) as Hqn.
    { intros Hqh. apply (Hm h q Hh) in Hqh as (? & ? & ?). congruence. }
    rewrite Hch in Hqn. rewrite lookup_delete_ne by set_solver. rewrite Uout by set_solver. done.
  - intros h'. by case_decide.
  - intros h' q Hh'. destruct (decide (q = p)) as [->|Hq].
    + rewrite lookup_delete_eq. split; [|by intros (? & ? & _)]. case_decide as Heq; [done|].
      intros (? & ? & ?)%(Hm h' p Hh'). congruence.
    + rewrite lookup_delete_ne by done. transitivity (q ∈ ch h').
      { case_decide as Heq; [|done]. subst h'. rewrite Hch. set_solver. }
      rewrite (Hm h' q Hh'). destruct (Uh q) as [i i' Hr|]; [|done]. pose proof (relinked_hash _ _ Hr).
      split; intros (? & [= <-] & <-); eauto.
  - rewrite Ul. by apply inode_lru_remove_repr.
  - intros q. rewrite lookup_delete_is_Some, Hdom, <-Hli. set_solver.
  - rewrite Uco, Hn, length_app, u32_small; lia.
  - rewrite length_app. lia.
  - intros q [_ Hq]%lookup_delete_is_Some. rewrite Ubr. by apply Hk, Hdom.
Qed.

(** * The operations *)

Section InodeCache.
Context `{E : Env}.
Implicit Types s : lsfs_context.

Definition with_cache (c : lsfs_inode_cache) s : lsfs_context := s <| c_icache := c |>.

Lemma with_cache_wf c s : log_wf s → log_wf (with_cache c s).
Proof. apply (log_wf_icache s (λ _, c)). Qed.

Lemma inode_find_run fuel s ino first ps :
  chain (ic_heap (c_icache s)) first ps → (length ps < fuel)%nat →
  ∃ r, inode_find fuel ino first s = Some (r, s) ∧
    match r with
    | Some p => p ∈ ps ∧ ∃ im, ic_heap (c_icache s) !! p = Some im ∧ i_ino (im_disk_inode im) = ino
    | None => ∀ p im, p ∈ ps → ic_heap (c_icache s) !! p = Some im → i_ino (im_disk_inode im) ≠ ino
    end.
Proof.
  revert fuel first. induction ps as [|p ps IH]; intros fuel first Hc Hfuel; (destruct fuel as [|fuel]; [cbn in Hfuel; lia|]).
  - cbn in Hc. subst first. exists None. split; [done|]. set_solver.
  - destruct Hc as (-> & next & Hp & Hc). cbn [inode_find].
    destruct (ic_heap (c_icache s) !! p) as [im|] eqn:Him; [|done]. cbn in Hp. injection Hp as <-.
    erewrite bind_run by by apply load_inode_run.
    destruct (Z.eqb_spec (i_ino (im_disk_inode im)) ino) as [Heq|Hne].
    + exists (Some p). split; [done|]. split; [set_solver|eauto].
    + destruct (IH fuel (im_next im) Hc) as (r & Hr & Hspec); [cbn in Hfuel; lia|]. exists r. split; [done|].
      destruct r as [q|]; [split; [set_solver|apply Hspec]|].
      intros q iq [->|Hq]%elem_of_cons Hiq; [congruence|by eapply Hspec].
Qed.

Lemma get_bucket_run s h first :
  arr_get (ic_buckets (c_icache s)) h = Some first → get_inode_bucket h s = Some (first, s).
Proof. intros H. unfold get_inode_bucket, mbind, M_bind, gets, of_opt. by rewrite H. Qed.

Lemma set_bucket_run s h v :
  0 <= h < Z.of_nat (length (ic_buckets (c_icache s))) →
  set_inode_bucket h v s =
    Some (tt, with_cache (c_icache s <| ic_buckets := <[Z.to_nat h := v]> (ic_buckets (c_icache s)) |>) s).
Proof.
  intros Hh. unfold set_inode_bucket, mbind, M_bind, gets, of_opt. by rewrite arr_set_ok.
Qed.

(** Looking an inode up finds it, if any inode of that number is cached. *)
Lemma cache_find_run s ch l ino :
  icache_repr (c_icache s) ch l →
  ∃ first r, get_inode_bucket (inode_hash ino) s = Some (first, s) ∧
    arr_get (ic_buckets (c_icache s)) (inode_hash ino) = Some first ∧
    inode_find (cache_fuel (c_icache s)) ino first s = Some (r, s) ∧
    match r with
    | Some p => ∃ im, ic_heap (c_icache s) !! p = Some im ∧ i_ino (im_disk_inode im) = ino
    | None => ∀ p im, ic_heap (c_icache s) !! p = Some im → i_ino (im_disk_inode im) ≠ ino
    end.
Proof.
  intros Hr. pose proof (inode_hash_range ino) as Hh.
  destruct (cr_chain _ _ _ Hr _ Hh) as (first & Hf & Hc).
  destruct (inode_find_run (cache_fuel (c_icache s)) s ino first _ Hc) as (r & Hrun & Hspec).
  { unfold cache_fuel. pose proof (nodup_heap_size (ic_heap (c_icache s)) (ch (inode_hash ino)) (cr_nodup _ _ _ Hr _)
      (λ p, chain_elem _ _ _ p Hc)). lia. }
  exists first, r. split_and!; [by apply get_bucket_run|done..|].
  destruct r as [p|]; [apply Hspec|]. intros p im Hp Hino. apply (Hspec p im); [|done..].
  apply (cr_member _ _ _ Hr); [done|]. exists im. by rewrite Hino.
Qed.

(** The first unreferenced inode of the LRU list, oldest first. *)
Lemma find_victim_run fuel s l1 l2 :
  lru_repr (ic_lru (c_icache s)) (l1 ++ l2) →
  (∀ p, p ∈ l2 → is_Some (ic_heap (c_icache s) !! p)) → (length l2 < fuel)%nat →
  ∃ r, find_victim fuel (head l2) s = Some (r, s) ∧
    match r with
    | Some p => p ∈ l2 ∧ ∃ im, ic_heap (c_icache s) !! p = Some im ∧ im_refcount im <= 0
    | None => ∀ p im, p ∈ l2 → ic_heap (c_icache s) !! p = Some im → 0 < im_refcount im
    end.
Proof.
  revert fuel l1. induction l2 as [|p l2 IH]; intros fuel l1 Hl Hin Hfuel; (destruct fuel as [|fuel]; [cbn in Hfuel; lia|]).
  - exists None. split; [done|]. set_solver.
  - destruct (Hin p ltac:(set_solver)) as [im Hp]. cbn [find_victim head].
    erewrite bind_run by by apply load_inode_run.
    destruct (Z.ltb_spec 0 (im_refcount im)) as [Hr|Hr].
    + cbn [mbind M_bind gets]. unfold mbind, M_bind, gets.
      destruct (repr_links _ _ Hl l1 p l2 eq_refl) as [_ ->].
      destruct (IH fuel (l1 ++ [p])) as (r & -> & Hspec);
        [by rewrite <-app_assoc|set_solver|cbn in Hfuel; lia|].
      exists r. split; [done|]. destruct r as [q|]; [split; [set_solver|apply Hspec]|].
      intros q iq [->|Hq]%elem_of_cons Hiq; [congruence|by eapply Hspec].
    + exists (Some p). split; [done|]. split; [set_solver|eauto].
Qed.

(** Walking a chain to the predecessor of [p]. *)
Lemma inode_unchain_from_run fuel s p q l1 x l2 :
  chain (ic_heap (c_icache s)) (Some q) (l1 ++ x :: p :: l2) → NoDup (l1 ++ x :: p :: l2) →
  (length l1 < fuel)%nat →
  inode_unchain_from fuel p q s =
    Some (tt, with_cache (c_icache s <| ic_heap := skip_next x p (ic_heap (c_icache s)) |>) s).
Proof.
  revert fuel q. induction l1 as [|y l1 IH]; intros fuel q; cbn [app length]; (destruct fuel as [|fuel]; [lia|]).
  - intros ([= ->] & nx & Hx & -> & np & Hp & _) Hnd _. cbn [inode_unchain_from].
    destruct (ic_heap (c_icache s) !! x) as [i|] eqn:Hi; [|done]. cbn in Hx. injection Hx as Hx.
    destruct (ic_heap (c_icache s) !! p) as [v|] eqn:Hv; [|done].
    erewrite bind_run by by apply load_inode_run. rewrite Hx, Z.eqb_refl.
    erewrite bind_run by by apply load_inode_run. erewrite upd_inode_run by done.
    unfold skip_next. rewrite Hi, Hv. done.
  - intros ([= ->] & ny & Hy & Hc) [Hyn Hnd]%NoDup_cons Hf. cbn [inode_unchain_from].
    destruct (ic_heap (c_icache s) !! y) as [i|] eqn:Hi; [|done]. cbn in Hy. injection Hy as Hy.
    erewrite bind_run by by apply load_inode_run. rewrite Hy.
    destruct ny as [z|]; [|by destruct l1; destruct Hc].
    assert (z ≠ p) as Hzp.
    { destruct l1 as [|w l1]; cbn in Hc; destruct Hc as ([= ->] & _); [|].
      - apply NoDup_cons in Hnd as [? _]. set_solver.
      - cbn in Hnd. apply NoDup_cons in Hnd as [? _]. set_solver. }
    rewrite (proj2 (Z.eqb_neq _ _) Hzp). apply IH; [done|done|lia].
Qed.

Lemma skip_next_heap x p (heap : gmap Z lsfs_inode_mem) q :
  option_Forall2 relinked (heap !! q) (skip_next x p heap !! q).
Proof.
  assert (∀ o, option_Forall2 relinked o o) as Hrefl.
  { intros [i|]; constructor. apply relinked_refl. }
  unfold skip_next. destruct (heap !! x) as [i|] eqn:Hx; [|done]. destruct (heap !! p) as [v|]; [|done].
  destruct (decide (q = x)) as [->|Hq]; [|by rewrite lookup_insert_ne].
  rewrite lookup_insert_eq, Hx. by constructor.
Qed.

Lemma inode_unchain_run s ch l p im :
  icache_repr (c_icache s) ch l → ic_heap (c_icache s) !! p = Some im →
  let h := inode_hash (i_ino (im_disk_inode im)) in
  ∃ l1 l2 c', inode_unchain p s = Some (tt, with_cache c' s) ∧ ch h = l1 ++ p :: l2 ∧
    unlinked (c_icache s) h p l1 l2 c'.
Proof.
  intros Hr Hp h. pose proof (inode_hash_range (i_ino (im_disk_inode im))) as Hh. fold h in Hh.
  destruct (cr_chain _ _ _ Hr h Hh) as (first & Hf & Hc). pose proof (cr_nodup _ _ _ Hr h) as Hnd.
  assert (p ∈ ch h) as (l1 & l2 & Hch)%list_elem_of_split.
  { apply (cr_member _ _ _ Hr); [done|]. eauto. }
  pose proof (nodup_heap_size (ic_heap (c_icache s)) (ch h) Hnd (λ p, chain_elem _ _ _ p Hc)) as Hsize.
  rewrite Hch in Hc, Hnd, Hsize. exists l1, l2. unfold inode_unchain.
  erewrite bind_run by by apply load_inode_run. fold h. erewrite bind_run by by apply get_bucket_run.
  cbn [mbind M_bind gets]. unfold mbind, M_bind, gets.
  assert (p ∉ l1 ++ l2) as Hpn by (rewrite <-Permutation_middle in Hnd; by apply NoDup_cons in Hnd as [? _]).
  destruct (last l1) as [x|] eqn:Hlast; [apply last_Some in Hlast as [l0 ->]|apply last_None in Hlast; subst l1].
  - rewrite <-app_assoc in Hc, Hnd, Hsize. cbn [app] in Hc, Hnd, Hsize.
    destruct first as [q|]; [|by destruct l0, Hc].
    assert (q ≠ p) as Hqp by (destruct l0; destruct Hc as ([= ->] & _); set_solver).
    rewrite (proj2 (Z.eqb_neq _ _) Hqp). erewrite inode_unchain_from_run; [|done..|].
    2:{ rewrite length_app in Hsize. cbn in Hsize. unfold cache_fuel. lia. }
    eexists. split_and!; [done|done|]. split; try done; cbn [field_set with_cache ic_heap ic_buckets].
    + exists (Some q). split; [done|]. rewrite <-app_assoc. by apply chain_skip.
    + intros y Hy. apply skip_next_elsewhere. set_solver.
    + intros y. apply skip_next_heap.
  - cbn [app] in *. destruct Hc as (-> & next & Hnext & Hc). rewrite Hp in Hnext. cbn in Hnext. injection Hnext as <-.
    rewrite Z.eqb_refl, set_bucket_run by (rewrite (cr_buckets _ _ _ Hr); lia).
    eexists. split_and!; [done|done|].
    pose proof (arr_get_lookup (ic_buckets (c_icache s)) h (Some p)) as [Hlk _]. destruct (Hlk Hf) as [_ Hbl].
    split; try done; cbn [field_set with_cache ic_heap ic_buckets].
    + apply length_insert.
    + intros h' Hne. unfold arr_get. destruct (Z.ltb_spec h' 0); [done|]. apply list_lookup_insert_ne. lia.
    + exists (im_next im). split.
      * apply arr_get_lookup. split; [lia|]. apply list_lookup_insert_eq. by eapply lookup_lt_Some.
      * eapply chain_ext; [exact Hc|]. intros y Hy. by rewrite lookup_delete_ne by set_solver.
    + intros y. destruct (ic_heap (c_icache s) !! y); constructor. apply relinked_refl.
Qed.

(** ** Eviction *)

(** What eviction may do to the cache: inodes without references disappear. *)
Record shrunk (c c' : lsfs_inode_cache) : Prop := {
  sk_heap p : ic_heap c' !! p = None ∨ option_Forall2 relinked (ic_heap c !! p) (ic_heap c' !! p);
  sk_held p im : ic_heap c !! p = Some im → 0 < im_refcount im → is_Some (ic_heap c' !! p);
  sk_brk : ic_brk c' = ic_brk c;
  sk_count : ic_count c' <= ic_count c }.

Lemma shrunk_refl c : shrunk c c.
Proof.
  split; [|eauto|done..]. intros p. right. destruct (ic_heap c !! p); constructor. apply relinked_refl.
Qed.

Lemma shrunk_held c c' p im :
  shrunk c c' → ic_heap c !! p = Some im → 0 < im_refcount im →
  ∃ im', ic_heap c' !! p = Some im' ∧ relinked im im'.
Proof.
  intros Hsk Hp Hr. destruct (sk_held _ _ Hsk p im Hp Hr) as [im' Hp']. exists im'. split; [done|].
  destruct (sk_heap _ _ Hsk p) as [Hn|Hf]; [congruence|]. rewrite Hp, Hp' in Hf. by inversion Hf.
Qed.

Lemma shrunk_back c c' p im' :
  shrunk c c' → ic_heap c' !! p = Some im' → ∃ im, ic_heap c !! p = Some im ∧ relinked im im'.
Proof.
  intros Hsk Hp. destruct (sk_heap _ _ Hsk p) as [Hn|Hf]; [congruence|]. rewrite Hp in Hf. inversion Hf. eauto.
Qed.

Lemma shrunk_trans c1 c2 c3 : shrunk c1 c2 → shrunk c2 c3 → shrunk c1 c3.
Proof.
  intros H12 H23. split.
  - intros p. destruct (ic_heap c3 !! p) as [i3|] eqn:H3; [right|by left].
    destruct (shrunk_back _ _ _ _ H23 H3) as (i2 & H2 & R23). destruct (shrunk_back _ _ _ _ H12 H2) as (i1 & -> & R12).
    constructor. by eapply relinked_trans.
  - intros p i1 H1 Hr. destruct (shrunk_held _ _ _ _ H12 H1 Hr) as (i2 & H2 & R12).
    eapply (sk_held _ _ H23); [done|]. by destruct (relinked_fields _ _ R12) as (_ & _ & -> & _).
  - rewrite (sk_brk _ _ H23). apply H12.
  - pose proof (sk_count _ _ H12). pose proof (sk_count _ _ H23). lia.
Qed.

(** Every address in the inode map can be read. *)
Definition imap_addrs s : Prop :=
  ∀ ino loc ver, imap_map (c_imap s) !! ino = Some (loc, ver) → in_disk s loc 1.

(** The inode map is consistent: its addresses can be read, its numbers were handed out. *)
Definition imap_ok s : Prop := imap_addrs s ∧ imap_fresh (c_imap s).

(** The cached inodes have numbers that were handed out. *)
Definition icache_inos s : Prop :=
  ∀ p im, ic_heap (c_icache s) !! p = Some im → i_ino (im_disk_inode im) < imap_next_ino (c_imap s).

(** What cache operations promise: the invariants, and that no live block of the log
    changes when [n] free segments are left. *)
Record cache_step (n : Z) s s' : Prop := {
  cs_log : log_wf s';
  cs_kept : n <= st_free_count (c_segtable s) → kept n s s';
  cs_disk_size : c_disk_size s' = c_disk_size s;
  cs_bytes : disk_ok s → disk_ok s';
  cs_next : imap_next_ino (c_imap s) <= imap_next_ino (c_imap s');
  cs_imap : imap_ok s → imap_ok s';
  cs_away seg : away seg s → away seg s' ∧ left_only seg s s' }.

Lemma left_only_refl seg s : left_only seg s s.
Proof. intros ino loc ver. eauto. Qed.
Lemma left_only_trans seg s1 s2 s3 : left_only seg s1 s2 → left_only seg s2 s3 → left_only seg s1 s3.
Proof.
  intros H12 H23 ino loc ver H3 Hseg. destruct (H23 ino loc ver H3 Hseg) as (v2 & H2). by eapply H12.
Qed.

Lemma cache_step_refl s : log_wf s → cache_step 0 s s.
Proof.
  intros Hs. split; try done; [intros _; by apply kept_refl|]. intros seg Ha. split; [done|apply left_only_refl].
Qed.

Lemma cache_step_trans n m s1 s2 s3 :
  0 <= n → 0 <= m → cache_step n s1 s2 → cache_step m s2 s3 → cache_step (n + m) s1 s3.
Proof.
  intros Hn Hm [_ K1 D1 B1 N1 A1 W1] [L2 K2 D2 B2 N2 A2 W2]. split; [done| |congruence|auto|lia|auto|].
  2:{ intros seg Ha. destruct (W1 seg Ha) as [Ha2 ?], (W2 seg Ha2) as [Ha3 ?]. split; [done|by eapply left_only_trans]. }
  intros Hfree.
  pose proof (K1 ltac:(lia)) as Hk1. apply (kept_trans n m _ s2); [done|]. apply K2. destruct Hk1 as (_ & _ & ?). lia.
Qed.

Lemma cache_step_mono n m s s' : n <= m → cache_step n s s' → cache_step m s s'.
Proof. intros Hnm [L K D B N A W]. split; try done. intros Hf. apply (kept_mono n); [done|]. apply K. lia. Qed.

Lemma cache_step_cache n s s' c : cache_step n s s' → cache_step n s (with_cache c s').
Proof.
  intros [L K D B N A W]. split; [by apply with_cache_wf| |done..].
  intros Hf. destruct (K Hf) as (_ & Hg & Hc). unfold kept. split_and!; [by apply with_cache_wf|exact Hg|exact Hc].
Qed.

Lemma imap_addrs_entered s s' ino loc :
  imap_addrs s → c_disk_size s' = c_disk_size s → in_disk s' loc 1 → imap_entered s ino loc s' → imap_addrs s'.
Proof.
  intros Ha Hd Hloc He ino' loc' ver'. rewrite He. destruct (decide (ino' = ino)) as [->|Hne].
  - rewrite lookup_insert_eq. by intros [= <- _].
  - rewrite lookup_insert_ne by done. intros H%Ha. unfold in_disk in *. by rewrite Hd.
Qed.

Lemma imap_fresh_entered s s' ino loc :
  imap_fresh (c_imap s) → imap_next_ino (c_imap s') = imap_next_ino (c_imap s) →
  ino < imap_next_ino (c_imap s) → imap_entered s ino loc s' → imap_fresh (c_imap s').
Proof.
  intros [Hn Hf] Hnext Hino He. unfold imap_fresh. rewrite Hnext. split; [done|].
  intros ino'. rewrite He, lookup_insert_is_Some. intros [->|[_ ?]]; auto.
Qed.

Lemma inode_written_step s p im r s' :
  inode_written s p im r s' → i_ino (im_disk_inode im) < imap_next_ino (c_imap s) → cache_step 1 s s'.
Proof.
  intros (Hs & Hk & Hd & Hb & Hn & Haw & Hcase) Hino. split; [done|intros; apply Hk; lia|done|done|lia| |done].
  intros [Ha Hf].
  assert (c_imap s' = c_imap s → imap_ok s') as Hsame.
  { intros Him. split; rewrite ?Him; [|done]. intros ino loc ver. rewrite Him. intros H%Ha. unfold in_disk in *. by rewrite Hd. }
  destruct Hcase as [(_ & _ & Him)|(_ & loc & rest & Hlive & _ & _ & [He|(_ & Him & _)])]; auto.
  split; [|by eapply imap_fresh_entered].
  eapply imap_addrs_entered; [done..| |exact He]. by apply (live_addr_log s').
Qed.

(** Writing back a victim, when it is dirty. *)
Lemma write_back_wp s p im :
  log_wf s → ic_heap (c_icache s) !! p = Some im → disk_wf (im_disk_inode im) → is_u64 (im_disk_location im) →
  i_ino (im_disk_inode im) < imap_next_ino (c_imap s) →
  wp (if im_dirty im then lsfs_inode_write p else mret LSFS_OK) (λ _ s', cache_step 1 s s' ∧
    (c_icache s' = c_icache s ∨
     ∃ loc, is_u64 loc ∧ c_icache s' = c_icache s <| ic_heap ::= <[p := written im loc]> |>)) s.
Proof.
  intros Hs Hp Hi Hl Hino. destruct (im_dirty im) eqn:Hd.
  - eapply wp_mono; [by apply inode_write_wp|]. intros r s' Hw. split; [by eapply inode_written_step|].
    destruct Hw as (Hs' & _ & _ & _ & _ & _ & [(_ & ? & _)|(_ & loc & rest & Hlive & _ & Hc & _)]); [by left|].
    right. exists loc. split; [by apply (live_u64 s')|done].
  - apply wp_ret. split; [|by left]. apply (cache_step_mono 0); [lia|by apply cache_step_refl].
Qed.

Lemma shrunk_drop c c' p im h l1 l2 c'' :
  ic_heap c !! p = Some im → im_refcount im <= 0 →
  (c' = c ∨ ∃ im', c' = c <| ic_heap ::= <[p := im']> |>) →
  unlinked c' h p l1 l2 c'' → 0 < ic_count c < 2 ^ 32 → shrunk c (dropped p c'').
Proof.
  intros Hp Hr Hc' [_ _ _ _ Uh Ul Ub Uc] Hcount.
  assert (∀ q, q ≠ p → ic_heap c' !! q = ic_heap c !! q) as Hq.
  { intros q Hq. destruct Hc' as [->|(im' & ->)]; [done|]. cbn. by rewrite lookup_insert_ne. }
  assert (ic_brk c' = ic_brk c ∧ ic_count c' = ic_count c) as [Hb Hn] by by destruct Hc' as [->|(im' & ->)].
  split; cbn.
  - intros q. destruct (decide (q = p)) as [->|Hne]; [left; apply lookup_delete_eq|].
    right. rewrite lookup_delete_ne, <-Hq by done. apply Uh.
  - intros q iq Hiq Hrq. assert (q ≠ p) as Hne by (intros ->; rewrite Hp in Hiq; simplify_eq; lia).
    rewrite lookup_delete_ne by done. specialize (Uh q). rewrite Hq, Hiq in Uh by done. inversion Uh. by eexists.
  - congruence.
  - rewrite Uc, Hn, u32_small; lia.
Qed.

Lemma icache_ranges_shrunk c c' : shrunk c c' → icache_ranges c → icache_ranges c'.
Proof.
  intros Hsk Hr p im' Hp. destruct (shrunk_back _ _ _ _ Hsk Hp) as (im & Him & Hrel).
  unfold counts_ok. destruct (relinked_fields _ _ Hrel) as (-> & -> & -> & _ & ->). by apply (Hr p).
Qed.

(** One round of the eviction loop. *)
Lemma icache_inos_shrunk s s' :
  shrunk (c_icache s) (c_icache s') → imap_next_ino (c_imap s) <= imap_next_ino (c_imap s') →
  icache_inos s → icache_inos s'.
Proof.
  intros Hsk Hn Hi p im' Hp. destruct (shrunk_back _ _ _ _ Hsk Hp) as (im & Him & Hrel).
  destruct (relinked_fields _ _ Hrel) as (-> & _). specialize (Hi p im Him). lia.
Qed.

Lemma evict_victim_wp s p im (k : Op ()) Q :
  log_wf s → icache_wf (c_icache s) → icache_inos s → ic_heap (c_icache s) !! p = Some im → im_refcount im <= 0 →
  (∀ s', cache_step 1 s s' → icache_wf (c_icache s') → shrunk (c_icache s) (c_icache s') →
     ic_count (c_icache s') = ic_count (c_icache s) - 1 → wp k Q s') →
  wp (_ ← (if im_dirty im then lsfs_inode_write p else mret LSFS_OK);
      _ ← inode_unchain p;
      _ ← set_icache (λ c, c <| ic_lru ::= inode_lru_remove p |> <| ic_heap ::= delete p |>
                             <| ic_count ::= λ n, u32 (n - 1) |>);
      k) Q s.
Proof.
  intros Hs [(ch & l & Hr) Hrg] Hinos Hp Href Hk. destruct (Hrg p im Hp) as (Hi & Hloc & _). wp_step.
  eapply wp_mono; [apply write_back_wp; try done; by apply (Hinos p)|]. intros _ s1 [Hst1 Hc1].
  assert (∃ im1, icache_repr (c_icache s1) ch l ∧ ic_heap (c_icache s1) !! p = Some im1 ∧
    ic_count (c_icache s1) = ic_count (c_icache s) ∧
    i_ino (im_disk_inode im1) = i_ino (im_disk_inode im)) as (im1 & Hr1 & Hp1 & Hcnt & Hino).
  { destruct Hc1 as [->|(loc & _ & ->)]; [by exists im|]. exists (written im loc). split_and!; try done.
    - by eapply repr_update.
    - apply lookup_insert_eq. }
  destruct (inode_unchain_run s1 ch l p im1 Hr1 Hp1) as (l1 & l2 & c2 & Hrun & Hch & Hul).
  wp_step. eapply wp_intro; [exact Hrun|]. wp_step. apply wp_modify.
  destruct (repr_drop _ ch l p _ l1 l2 c2 Hr1 Hch (inode_hash_range _) Hul) as (l' & Hr' & Hlen).
  assert (0 < ic_count (c_icache s) < 2 ^ 31) as Hpos.
  { rewrite (cr_count _ _ _ Hr). pose proof (cr_small _ _ _ Hr). lia. }
  assert (shrunk (c_icache s) (dropped p c2)) as Hsk.
  { eapply (shrunk_drop _ (c_icache s1)); [done|done| |exact Hul|lia].
    destruct Hc1 as [->|(loc & _ & ->)]; [by left|right; by eexists]. }
  apply Hk.
  - by apply (cache_step_cache 1 s s1 (dropped p c2)).
  - split; [by eexists _, _|]. by eapply (icache_ranges_shrunk (c_icache s)).
  - exact Hsk.
  - cbn. rewrite (ul_count _ _ _ _ _ _ Hul), Hcnt, u32_small; lia.
Qed.

Definition all_held (c : lsfs_inode_cache) : Prop :=
  ∀ p im, ic_heap c !! p = Some im → 0 < im_refcount im.

Definition evict_cost (c : lsfs_inode_cache) : Z := Z.max 0 (ic_count c - (LSFS_INODE_CACHE_SIZE - 1)).

Definition evicted s s' : Prop :=
  cache_step (evict_cost (c_icache s)) s s' ∧ icache_wf (c_icache s') ∧
  shrunk (c_icache s) (c_icache s') ∧
  (ic_count (c_icache s') < LSFS_INODE_CACHE_SIZE ∨ all_held (c_icache s')).

Lemma evict_loop_wp fuel s :
  log_wf s → icache_wf (c_icache s) → icache_inos s → ic_count (c_icache s) < Z.of_nat fuel →
  wp (inode_cache_evict_loop fuel) (λ _ s', evicted s s') s.
Proof.
  revert s. induction fuel as [|fuel IH]; intros s Hs Hwf Hinos Hfuel; pose proof Hwf as [(ch & l & Hr) _];
    pose proof (cr_count _ _ _ Hr) as Hcnt; [lia|].
  cbn [inode_cache_evict_loop]. wp_step. apply wp_gets.
  assert (cache_step (evict_cost (c_icache s)) s s) as Hidle.
  { apply (cache_step_mono 0); [unfold evict_cost; lia|by apply cache_step_refl]. }
  destruct (Z.ltb_spec (ic_count (c_icache s)) LSFS_INODE_CACHE_SIZE) as [Hlt|Hge].
  { apply wp_ret. split_and!; [done..|apply shrunk_refl|by left]. }
  destruct (find_victim_run (cache_fuel (c_icache s)) s [] l) as (r & Hrun & Hspec).
  { apply (cr_lru _ _ _ Hr). }
  { intros p. apply (cr_listed _ _ _ Hr). }
  { unfold cache_fuel. pose proof (nodup_heap_size (ic_heap (c_icache s)) l (repr_nodup _ _ (cr_lru _ _ _ Hr))
      (λ p, proj1 (cr_listed _ _ _ Hr p))). lia. }
  rewrite <-(repr_head _ _ (cr_lru _ _ _ Hr)) in Hrun. wp_step. eapply wp_intro; [exact Hrun|].
  destruct r as [p|].
  2:{ apply wp_ret. split_and!; [done..|apply shrunk_refl|]. right. intros p im Hp.
      apply (Hspec p im); [|done]. apply (cr_listed _ _ _ Hr). by eexists. }
  destruct Hspec as (_ & im & Hp & Href). wp_step. eapply wp_intro; [by apply load_inode_run|].
  apply (evict_victim_wp s p im); try done. intros s1 Hst1 Hwf1 Hsk1 Hn1.
  eapply wp_mono; [apply IH; [apply Hst1|done| |lia]|]; [eapply icache_inos_shrunk; [done|apply Hst1|done]|]. intros _ s2 (Hst2 & Hwf2 & Hsk2 & Hend).
  split_and!; [|done|by eapply shrunk_trans|done].
  apply (cache_step_mono (1 + evict_cost (c_icache s1))).
  { unfold evict_cost, LSFS_INODE_CACHE_SIZE in *. lia. }
  eapply cache_step_trans; [lia|unfold evict_cost; lia|done|done].
Qed.

(** ** The invariant of log, inode map and inode cache together *)

Record fs_wf s : Prop := {
  fs_log : log_wf s;
  fs_cache : icache_wf (c_icache s);
  fs_inos : icache_inos s;
  fs_imap : imap_ok s;
  fs_bytes : disk_ok s }.

Lemma inode_cache_evict_wp s :
  log_wf s → icache_wf (c_icache s) → icache_inos s → wp inode_cache_evict (λ _ s', evicted s s') s.
Proof.
  intros Hs Hwf Hinos. unfold inode_cache_evict. wp_step. apply wp_gets. apply evict_loop_wp; [done..|].
  destruct Hwf as [(ch & l & Hr) _]. rewrite (cr_count _ _ _ Hr). lia.
Qed.

Lemma evicted_wf s s' : fs_wf s → evicted s s' → fs_wf s'.
Proof.
  intros [Hl Hc Hi Him Hb] (Hst & Hwf & Hsk & _).
  split; [apply Hst|done| |by apply Hst|by apply (cs_bytes _ _ _ Hst)].
  eapply icache_inos_shrunk; [exact Hsk|apply Hst|done].
Qed.

(** Allocating a place in the cache. *)
Lemma cache_insert_run s ch l im :
  icache_repr (c_icache s) ch l →
  let h := inode_hash (i_ino (im_disk_inode im)) in
  ∃ first, arr_get (ic_buckets (c_icache s)) h = Some first ∧
    cache_insert h im s = Some (ic_brk (c_icache s), with_cache (inserted (c_icache s) h first im) s).
Proof.
  intros Hr h. pose proof (inode_hash_range (i_ino (im_disk_inode im))) as Hh. fold h in Hh.
  destruct (cr_chain _ _ _ Hr h Hh) as (first & Hf & _). exists first. split; [done|].
  unfold cache_insert. cbn [mbind M_bind gets]. unfold mbind, M_bind, gets.
  rewrite (get_bucket_run s h first Hf). cbn [set_icache modify].
  unfold set_icache, modify. erewrite set_bucket_run; [done|]. cbn. rewrite (cr_buckets _ _ _ Hr). lia.
Qed.

(** A state whose cache has one more inode. *)
Lemma insert_wf s first im :
  fs_wf s → ic_count (c_icache s) + 1 < 2 ^ 31 →
  arr_get (ic_buckets (c_icache s)) (inode_hash (i_ino (im_disk_inode im))) = Some first →
  disk_wf (im_disk_inode im) → is_u64 (im_disk_location im) → counts_ok im →
  i_ino (im_disk_inode im) < imap_next_ino (c_imap s) →
  fs_wf (with_cache (inserted (c_icache s) (inode_hash (i_ino (im_disk_inode im))) first im) s).
Proof.
  intros [Hl [(ch & l & Hr) Hrg] Hi Him Hb] Hn Hf Hd Hloc Href Hino. split; try done.
  - by apply with_cache_wf.
  - split; [eexists _, _; by apply (repr_insert _ ch l)|].
    intros q iq. cbn. destruct (decide (q = ic_brk (c_icache s))) as [->|Hne].
    + rewrite lookup_insert_eq. by intros [= <-].
    + rewrite lookup_insert_ne by done. apply Hrg.
  - intros q iq. cbn. destruct (decide (q = ic_brk (c_icache s))) as [->|Hne].
    + rewrite lookup_insert_eq. by intros [= <-].
    + rewrite lookup_insert_ne by done. apply Hi.
Qed.

(** A state in which one cached inode was changed. *)
Lemma update_wf s p im im' :
  fs_wf s → ic_heap (c_icache s) !! p = Some im → im_next im' = im_next im →
  i_ino (im_disk_inode im') = i_ino (im_disk_inode im) → disk_wf (im_disk_inode im') →
  is_u64 (im_disk_location im') → counts_ok im' → fs_wf (with_inode p im' s).
Proof.
  intros [Hl [(ch & l & Hr) Hrg] Hi Him Hb] Hp Hnx Hino Hd Hloc Href. split; try done.
  - by apply log_wf_icache.
  - split; [eexists _, _; by eapply repr_update|].
    intros q iq. cbn. destruct (decide (q = p)) as [->|Hne].
    + rewrite lookup_insert_eq. by intros [= <-].
    + rewrite lookup_insert_ne by done. apply Hrg.
  - intros q iq. cbn. destruct (decide (q = p)) as [->|Hne].
    + rewrite lookup_insert_eq. intros [= <-]. rewrite Hino. by apply (Hi p).
    + rewrite lookup_insert_ne by done. apply Hi.
Qed.

Lemma icache_ranges_at s p im :
  fs_wf s → ic_heap (c_icache s) !! p = Some im →
  disk_wf (im_disk_inode im) ∧ is_u64 (im_disk_location im) ∧ counts_ok im.
Proof. intros Hs. apply (fs_cache s Hs). Qed.

(** Inodes in use keep their contents and their address. *)
Definition held_kept (c c' : lsfs_inode_cache) : Prop :=
  ∀ p im, ic_heap c !! p = Some im → 0 < im_refcount im →
    ∃ im', ic_heap c' !! p = Some im' ∧ relinked im im'.

Lemma held_kept_refl c : held_kept c c.
Proof. intros p im Hp _. exists im. split; [done|apply relinked_refl]. Qed.

Lemma held_kept_trans c1 c2 c3 : held_kept c1 c2 → held_kept c2 c3 → held_kept c1 c3.
Proof.
  intros H12 H23 p im Hp Hr. destruct (H12 p im Hp Hr) as (im2 & Hp2 & R2).
  destruct (relinked_fields _ _ R2) as (_ & _ & Href & _).
  destruct (H23 p im2 Hp2) as (im3 & Hp3 & R3); [lia|]. exists im3. split; [done|by eapply relinked_trans].
Qed.

Lemma shrunk_held_kept c c' : shrunk c c' → held_kept c c'.
Proof. intros Hsk p im. by apply shrunk_held. Qed.

Lemma inserted_held_kept s h first im :
  icache_wf (c_icache s) → held_kept (c_icache s) (inserted (c_icache s) h first im).
Proof.
  intros [(ch & l & Hr) _] p ip Hp _. exists ip. split; [|apply relinked_refl]. cbn.
  rewrite lookup_insert_ne; [done|]. pose proof (cr_brk _ _ _ Hr p ltac:(eauto)). lia.
Qed.

Lemma imap_map_ranges s ino loc ver :
  fs_wf s → imap_map (c_imap s) !! ino = Some (loc, ver) → is_u32 ino ∧ is_u64 loc ∧ is_u32 ver.
Proof.
  intros Hs. apply (proj1 (imap_entries_ranges _ (lw_imap s (fs_log s Hs)))), (fs_log s Hs).
Qed.

(** Reading and asking the environment keep everything. *)
Lemma fs_wf_io s s' : fs_wf s → io_frame s s' → c_disk s' = c_disk s → fs_wf s'.
Proof.
  intros [Hl Hc Hi [Ha Hfr] Hb] Hf Hd. split.
  - by eapply log_wf_frame.
  - by rewrite Hf.
  - intros p im. rewrite Hf. apply Hi.
  - split; [|by rewrite Hf]. intros ino loc ver. rewrite Hf. apply Ha.
  - unfold disk_ok. by rewrite Hd.
Qed.

Lemma cache_step_read n s s1 s2 :
  0 <= n → cache_step n s s1 → io_frame s1 s2 → c_disk s2 = c_disk s1 → cache_step n s s2.
Proof.
  intros Hn Hst Hf Hd. replace n with (n + 0) by lia. apply (cache_step_trans n 0 _ s1); [done|lia|done|].
  assert (log_wf s1) as Hs1 by apply Hst. split.
  - by eapply log_wf_frame.
  - intros _. by apply io_same_kept.
  - by rewrite Hf.
  - unfold disk_ok. by rewrite Hd.
  - rewrite Hf. cbn. lia.
  - intros [Ha Hfr]. split; [|by rewrite Hf]. intros ino loc ver. rewrite Hf. apply Ha.
  - intros seg Ha. rewrite Hf. split; [done|]. intros ino loc ver. cbn. eauto.
Qed.

(** ** [lsfs_inode_get] *)

Definition referenced (im : lsfs_inode_mem) : lsfs_inode_mem := im <| im_refcount ::= λ n, u32 (n + 1) |>.

(** The inode was in the cache: it has one more reference. *)
Definition cache_hit (c : lsfs_inode_cache) (ino p : Z) (c' : lsfs_inode_cache) : Prop :=
  ∃ im, ic_heap c !! p = Some im ∧ i_ino (im_disk_inode im) = ino ∧
    ic_heap c' = <[p := referenced im]> (ic_heap c) ∧ ic_count c' = ic_count c.

(** It was not: it has been loaded from the place the inode map names. *)
Definition cache_loaded s (ino p : Z) s' : Prop :=
  ∃ i loc ver next, imap_map (c_imap s) !! ino = Some (loc, ver) ∧ i_ino i = ino ∧
    ic_heap (c_icache s) !! p = None ∧
    ic_heap (c_icache s') !! p = Some (mk_inode_mem i loc ver 1 false next) ∧
    held_kept (c_icache s) (c_icache s') ∧ ic_count (c_icache s') <= ic_count (c_icache s) + 1.

Definition inode_got s ino (r : option Z) s' : Prop :=
  fs_wf s' ∧ cache_step (evict_cost (c_icache s)) s s' ∧
  match r with
  | None => (∀ p im, ic_heap (c_icache s) !! p = Some im → i_ino (im_disk_inode im) ≠ ino) ∧
      held_kept (c_icache s) (c_icache s') ∧ ic_count (c_icache s') <= ic_count (c_icache s)
  | Some p => cache_hit (c_icache s) ino p (c_icache s') ∨ cache_loaded s ino p s'
  end.

Lemma cache_step_idle n s c : log_wf s → 0 <= n → cache_step n s (with_cache c s).
Proof. intros Hs Hn. apply (cache_step_mono 0); [done|]. by apply cache_step_cache, cache_step_refl. Qed.

Lemma evict_cost_pos c : 0 <= evict_cost c.
Proof. unfold evict_cost. lia. Qed.

Lemma inode_get_hit_wp s ino p im :
  fs_wf s → ic_heap (c_icache s) !! p = Some im → i_ino (im_disk_inode im) = ino →
  wp (_ ← upd_inode p (λ i, i <| im_refcount ::= λ n, u32 (n + 1) |>);
      _ ← set_icache (λ c, c <| ic_lru ::= inode_lru_remove p |>);
      _ ← set_icache (λ c, c <| ic_lru ::= inode_lru_add p |>);
      mret (Some p)) (inode_got s ino) s.
Proof.
  intros Hs Hp Hino. destruct (icache_ranges_at s p im Hs Hp) as (Hd & Hl & Href).
  assert (fs_wf (with_inode p (referenced im) s)) as Hs1.
  { eapply update_wf; try done. split; [apply u32_range|apply Href]. }
  wp_step. eapply wp_intro; [by apply upd_inode_run|]. unfold set_icache. do 4 wp_step. apply wp_ret.
  set (s1 := with_inode _ _ _) in *.
  destruct (fs_cache _ Hs1) as [(ch & l & Hr) Hrg].
  destruct (repr_touch (c_icache s1) ch l p Hr) as (l' & Hr').
  { exists (referenced im). apply with_inode_lookup. }
  split_and!.
  - destruct Hs1 as [L1 _ I1 M1 B1]. split; [by apply (with_cache_wf _ s1)| |exact I1|exact M1|exact B1].
    split; [by exists ch, l'|exact Hrg].
  - apply (cache_step_idle _ s _ (fs_log s Hs)), evict_cost_pos.
  - left. exists im. by split_and!.
Qed.

Lemma inode_image_wf blk junk ino :
  is_block blk → disk_wf (dec (drop (inode_offset ino) (blk ++ (u8 <$> junk) ++ zero_block)) : lsfs_inode).
Proof.
  intros [Hl Hb]. apply dec_wf.
  - apply Forall_drop, Forall_app. split; [done|]. apply Forall_app. split; [|apply zeros_bytes].
    apply Forall_fmap, Forall_true. intros x. apply (Z.mod_pos_bound x 256). lia.
  - rewrite length_drop, !length_app, Hl. unfold zero_block. rewrite length_replicate.
    assert (Z.of_nat BS = 4096) by done. pose proof (Z.mod_pos_bound ino 16 ltac:(lia)).
    assert (inode_offset ino = Z.to_nat (ino mod 16) * 296)%nat as -> by done.
    change (sizeof lsfs_inode) with 296%nat. lia.
Qed.

Lemma inode_get_wp s ino :
  fs_wf s → ic_count (c_icache s) + 1 < 2 ^ 31 → wp (lsfs_inode_get ino) (inode_got s ino) s.
Proof.
  intros Hs Hn. destruct (fs_cache s Hs) as [(ch & l & Hr) Hrg].
  destruct (cache_find_run s ch l ino Hr) as (first & r & Hb & _ & Hfind & Hspec).
  unfold lsfs_inode_get. wp_step. eapply wp_intro; [exact Hb|]. do 3 wp_step. eapply wp_intro; [exact Hfind|].
  destruct r as [p|]; [destruct Hspec as (im & Hp & Hino); by eapply inode_get_hit_wp|].
  wp_step. unfold lsfs_imap_get. do 2 wp_step.
  eapply wp_of_opt; [apply imap_get_spec, (fs_log s Hs)|].
  destruct (imap_map (c_imap s) !! ino) as [[loc ver]|] eqn:Hm.
  2:{ apply wp_ret. split_and!; [done| |done|apply held_kept_refl|lia].
      apply (cache_step_mono 0); [apply evict_cost_pos|apply cache_step_refl, Hs]. }
  wp_step. eapply wp_mono; [apply inode_cache_evict_wp; apply Hs|]. intros [] s1 Hev.
  pose proof (evicted_wf s s1 Hs Hev) as Hs1. destruct Hev as (Hst & _ & Hsk & _).
  pose proof (shrunk_held_kept _ _ Hsk) as Hheld. pose proof (sk_count _ _ Hsk) as Hcnt.
  pose proof (evict_cost_pos (c_icache s)) as Hec. wp_step. eapply wp_intro; [done|].
  set (s2 := s1 <| c_tick ::= S |>).
  assert (fs_wf s2) as Hs2 by (by apply (fs_wf_io s1)).
  assert (cache_step (evict_cost (c_icache s)) s s2) as Hst2 by by apply (cache_step_read _ s s1).
  assert (inode_got s ino None s2) as Hnone by by split_and!.
  destruct (env_alloc (c_tick s1)); cbn [negb]; [|by apply wp_ret].
  destruct (fs_imap s Hs) as [Haddr [_ Hfresh]]. pose proof (Haddr _ _ _ Hm) as Hin.
  wp_step. eapply wp_mono; [apply (read_block_frame s2), in_disk_addressable|].
  { unfold in_disk in *. cbn. by rewrite (cs_disk_size _ _ _ Hst). }
  intros got s3 (Hf3 & Hgot & Hd3).
  assert (fs_wf s3) as Hs3 by by apply (fs_wf_io s2).
  assert (cache_step (evict_cost (c_icache s)) s s3) as Hst3 by by apply (cache_step_read _ s s2).
  assert (c_icache s3 = c_icache s1) as Hc3 by by rewrite Hf3.
  assert (inode_got s ino None s3) as Hnone3 by (by split_and!; rewrite ?Hc3).
  destruct Hgot as [-> | ->]; [|by apply wp_ret].
  wp_step. eapply wp_intro; [done|]. set (s4 := s3 <| c_tick ::= S |>).
  assert (fs_wf s4) as Hs4 by by apply (fs_wf_io s3).
  assert (cache_step (evict_cost (c_icache s)) s s4) as Hst4 by by apply (cache_step_read _ s s3).
  set (i := dec _ : lsfs_inode).
  destruct (Z.eqb_spec (i_ino i) ino) as [Hino|Hne]; cbn [negb].
  2:{ apply wp_ret. split_and!; try done; cbn; by rewrite Hc3. }
  destruct (imap_map_ranges s ino loc ver Hs Hm) as (_ & Hloc & Hver).
  destruct (fs_cache s4 Hs4) as [(ch4 & l4 & Hr4) _]. rewrite <-Hino.
  destruct (cache_insert_run s4 ch4 l4 (mk_inode_mem i loc ver 1 false None) Hr4) as (first4 & Hf4 & Hins).
  wp_step. eapply wp_intro; [exact Hins|]. apply wp_ret. rewrite Hino.
  assert (ic_heap (c_icache s4) !! ic_brk (c_icache s4) = None) as Hnew.
  { apply eq_None_not_Some. intros ?%(cr_brk _ _ _ Hr4). lia. }
  split_and!.
  - apply (insert_wf s4 first4 (mk_inode_mem i loc ver 1 false None)); try done.
    + cbn. rewrite Hc3. lia.
    + apply inode_image_wf, (fs_bytes s2 Hs2).
    + change (i_ino i < imap_next_ino (c_imap s3)). rewrite Hino. pose proof (cs_next _ _ _ Hst3).
      specialize (Hfresh ino ltac:(by eexists)). lia.
  - by apply cache_step_cache.
  - right. exists i, loc, ver, first4. split_and!; [done|done| |cbn; apply lookup_insert_eq| |].
    + apply eq_None_not_Some. intros Hq. destruct (fs_cache s Hs) as [(? & ? & Hr0) _].
      pose proof (cr_brk _ _ _ Hr0 _ Hq) as Hlt. cbn in Hlt. rewrite Hc3, (sk_brk _ _ Hsk) in Hlt. lia.
    + eapply held_kept_trans; [exact Hheld|]. rewrite <-Hc3. apply (inserted_held_kept s4), (fs_cache s4 Hs4).
    + cbn. rewrite Hc3. pose proof (cr_count _ _ _ Hr4) as Hq. cbn in Hq. rewrite Hc3 in Hq. rewrite u32_small; lia.
Qed.

(** ** [lsfs_inode_put] *)
Lemma inode_put_wp s p im :
  fs_wf s → ic_heap (c_icache s) !! p = Some im →
  wp (lsfs_inode_put (Some p)) (λ _ s', fs_wf s' ∧
    s' = with_inode p (im <| im_refcount := Z.max 0 (im_refcount im - 1) |>) s) s.
Proof.
  intros Hs Hp. destruct (icache_ranges_at s p im Hs Hp) as (Hd & Hl & [Href Hver]). unfold is_u32 in Href.
  assert (∀ n, 0 <= n < 2 ^ 32 → fs_wf (with_inode p (im <| im_refcount := n |>) s)) as Hset.
  { intros n Hn. by eapply update_wf. }
  cbn [lsfs_inode_put]. wp_step. eapply wp_intro; [by apply load_inode_run|].
  destruct (Z.ltb_spec 0 (im_refcount im)) as [Hpos|Hzero].
  - eapply wp_intro; [by apply upd_inode_run|]. replace (Z.max 0 _) with (Z.pred (im_refcount im)) by lia.
    split; [|done]. apply (Hset (Z.pred (im_refcount im))). lia.
  - apply wp_ret. split; [done|]. replace (Z.max 0 _) with (im_refcount im) by lia.
    unfold with_inode. replace (im <| im_refcount := im_refcount im |>) with im by by destruct im.
    destruct s as [? ? ? ? [? ? ? ? ?]]. cbn in *. by rewrite insert_id.
Qed.

(** ** [lsfs_inode_alloc] *)
Lemma new_inode_wf ino mode now generation :
  is_u32 ino → is_u32 mode → is_u64 now → is_u64 generation → disk_wf (new_inode ino mode now generation).
Proof.
  intros. pose proof (u32_range env_uid). pose proof (u32_range env_gid).
  cbn [disk_wf inode_ondisk new_inode zero_inode field_set i_ino i_mode i_uid i_gid i_size i_blocks i_atime i_mtime
    i_ctime i_nlink i_flags i_direct i_indirect i_double_indirect i_symlink i_generation i_reserved].
  unfold is_u32, is_u64, is_bytes in *. split_and!; try lia; auto using zeros_bytes, length_replicate.
  apply Forall_replicate. lia.
Qed.

(** A new inode: at an address that was not in use, dirty, with one reference. *)
Definition inode_allocated s mode (r : option Z) s' : Prop :=
  fs_wf s' ∧ cache_step (evict_cost (c_icache s)) s s' ∧ held_kept (c_icache s) (c_icache s') ∧
  match r with
  | None => ic_count (c_icache s') <= ic_count (c_icache s)
  | Some p => ∃ ino now gen next, LSFS_ROOT_INO < ino < LSFS_MAX_INODES ∧
      imap_map (c_imap s) !! ino = None ∧ ic_heap (c_icache s) !! p = None ∧
      ic_heap (c_icache s') !! p = Some (mk_inode_mem (new_inode ino mode now gen) 0 0 1 true next) ∧
      ic_count (c_icache s') <= ic_count (c_icache s) + 1
  end.

Lemma imap_alloc_ino_wp s :
  fs_wf s →
  wp lsfs_imap_alloc_ino (λ ino s', fs_wf s' ∧ cache_step 0 s s' ∧ c_icache s' = c_icache s ∧
    ino < imap_next_ino (c_imap s') ∧
    (ino ≠ 0 → LSFS_ROOT_INO < ino < LSFS_MAX_INODES ∧ imap_map (c_imap s) !! ino = None)) s.
Proof.
  intros Hs. destruct (fs_imap s Hs) as [Ha Hfr].
  destruct (imap_alloc_spec (c_imap s) (lw_imap s (fs_log s Hs)) Hfr)
    as (ino & im' & Hrun & Hwf' & Hfr' & Hm & Hle & Hlt & Hcase).
  unfold lsfs_imap_alloc_ino. do 2 wp_step. wp_step. eapply wp_of_opt; [exact Hrun|]. wp_steps. cbn [fst snd].
  pose proof (proj1 (imap_entries_ranges _ (lw_imap s (fs_log s Hs))) (lw_imap_entries s (fs_log s Hs))) as Hrg.
  assert (log_wf (with_imap im' s)) as Hlog by (apply with_imap_wf; [apply Hs|done|by rewrite Hm]).
  assert (imap_ok (with_imap im' s)) as Hok.
  { split; [|done]. intros i loc ver. cbn. rewrite Hm. apply Ha. }
  split_and!; try done.
  - destruct Hs as [_ Hc Hi _ Hb]. split; try done. intros p im Hp. cbn. specialize (Hi p im Hp). lia.
  - split; try done.
    + intros _. unfold kept. split_and!; [done|by apply log_grows_same|]. cbn. lia.
    + intros seg Haw. split; [done|]. intros i loc ver. cbn. rewrite Hm. eauto.
  - intros Hne. destruct Hcase as [(-> & _)|?]; done.
Qed.

Lemma fs_wf_sb s f :
  fs_wf s → disk_wf (f (c_sb s)) → sb_active_checkpoint (f (c_sb s)) = sb_active_checkpoint (c_sb s) →
  fs_wf (s <| c_sb ::= f |>) ∧ ∀ n s0, cache_step n s0 s → cache_step n s0 (s <| c_sb ::= f |>).
Proof.
  intros [[] Hc Hi Hm Hb] Hsb Hact. assert (log_wf (s <| c_sb ::= f |>)) as Hl.
  { split; try assumption. cbn. by rewrite Hact. }
  split; [by split|]. intros n s0 [_ K D B N A W]. split; try done.
  intros Hf. destruct (K Hf) as (_ & Hg & Hn). unfold kept. split_and!; [done|exact Hg|exact Hn].
Qed.

Lemma get_time_frame s :
  wp lsfs_get_time_ns (λ now s', io_frame s s' ∧ c_disk s' = c_disk s ∧ is_u64 now) s.
Proof. unfold lsfs_get_time_ns. wp_step. eapply wp_intro; [done|]. apply wp_ret. split_and!; [done..|]. apply u64_range. Qed.

(** The parts of the state that the blocks of a file depend on. *)
Definition same_log s s' : Prop :=
  c_disk s' = c_disk s ∧ c_segbuf s' = c_segbuf s ∧ c_segtable s' = c_segtable s ∧ c_readonly s' = c_readonly s.

(** The part of [lsfs_inode_alloc] after eviction and allocation. *)
Lemma alloc_insert_wp s ino mode (Q : option Z → lsfs_context → Prop) :
  fs_wf s → is_u32 mode → LSFS_ROOT_INO < ino < LSFS_MAX_INODES → ino < imap_next_ino (c_imap s) →
  ic_count (c_icache s) + 1 < 2 ^ 31 →
  (∀ s' now gen first, fs_wf s' → cache_step 0 s s' → same_log s s' →
     c_icache s' = inserted (c_icache s) (inode_hash ino) first (mk_inode_mem (new_inode ino mode now gen) 0 0 1 true None) →
     Q (Some (ic_brk (c_icache s))) s') →
  wp (now ← lsfs_get_time_ns;
      r ← ask env_rand;
      p ← cache_insert (inode_hash ino) (mk_inode_mem (new_inode ino mode now (u64 r)) 0 0 1 true None);
      _ ← set_sb (λ sb, sb <| sb_inode_count ::= λ n, u64 (n + 1) |>);
      mret (Some p)) Q s.
Proof.
  intros Hs Hmode Hino Hnext Hn HQ. unfold LSFS_ROOT_INO, LSFS_MAX_INODES in Hino.
  wp_step. eapply wp_mono; [apply get_time_frame|]. intros now s1 (Hf1 & Hd1 & Hnow).
  wp_step. eapply wp_intro; [done|]. set (s2 := s1 <| c_tick ::= S |>).
  assert (io_frame s s2) as Hf2 by by apply (io_frame_trans _ s1).
  assert (c_icache s2 = c_icache s) as Hc2 by by rewrite Hf2.
  assert (same_log s s2) as Hsl by (split_and!; [exact Hd1|by rewrite Hf2..]).
  pose proof (fs_wf_io s s2 Hs Hf2 Hd1) as Hs2.
  pose proof (cache_step_read 0 s s s2 ltac:(lia) (cache_step_refl s (fs_log s Hs)) Hf2 Hd1) as Hst2.
  set (i := mk_inode_mem _ 0 0 1 true None). destruct (fs_cache s2 Hs2) as [(ch & l & Hr) _].
  destruct (cache_insert_run s2 ch l i Hr) as (first & Hfst & Hrun).
  assert (fs_wf (with_cache (inserted (c_icache s2) (inode_hash ino) first i) s2)) as Hs3.
  { apply (insert_wf s2 first i); try done; [by rewrite Hc2| |by rewrite Hf2].
    apply new_inode_wf; [unfold is_u32; lia|done..|apply u64_range]. }
  wp_step. eapply wp_intro; [exact Hrun|]. unfold set_sb. wp_step. apply wp_modify, wp_ret. rewrite <-Hc2 in HQ.
  destruct (fs_wf_sb _ (λ sb, sb <| sb_inode_count ::= λ n, u64 (n + 1) |>) Hs3) as [Hs4 Hst4].
  { apply sb_inode_count_wf; [apply (lw_sb _ (fs_log s2 Hs2))|apply u64_range]. }
  { done. }
  eapply HQ; [exact Hs4|..].
  - by apply Hst4, cache_step_cache.
  - exact Hsl.
  - done.
Qed.

Lemma inode_alloc_wp s mode :
  fs_wf s → is_u32 mode → ic_count (c_icache s) + 1 < 2 ^ 31 →
  wp (lsfs_inode_alloc mode) (inode_allocated s mode) s.
Proof.
  intros Hs Hmode Hn. unfold lsfs_inode_alloc. wp_step.
  eapply wp_mono; [by apply imap_alloc_ino_wp|]. intros ino s1 (Hs1 & Hst1 & Hc1 & Hlt & Hino).
  pose proof (evict_cost_pos (c_icache s)) as Hec. unfold inode_allocated.
  destruct (Z.eqb_spec ino 0) as [|Hne].
  { apply wp_ret. rewrite Hc1. split_and!; [done| |apply held_kept_refl|lia]. by apply (cache_step_mono 0). }
  destruct (Hino Hne) as [[Hlo Hhi] Hfree]. wp_step.
  eapply wp_mono; [apply inode_cache_evict_wp; apply Hs1|]. intros [] s2 Hev.
  pose proof (evicted_wf s1 s2 Hs1 Hev) as Hs2. destruct Hev as (Hst2 & _ & Hsk & _). rewrite Hc1 in Hst2, Hsk.
  pose proof (cache_step_trans 0 _ _ _ _ ltac:(lia) Hec Hst1 Hst2) as Hst. cbn [Z.add] in Hst.
  pose proof (shrunk_held_kept _ _ Hsk) as Hheld. pose proof (sk_count _ _ Hsk) as Hcnt.
  wp_step. eapply wp_intro; [done|]. set (s3 := s2 <| c_tick ::= S |>).
  assert (fs_wf s3) as Hs3 by by apply (fs_wf_io s2).
  assert (cache_step (evict_cost (c_icache s)) s s3) as Hst3 by by apply (cache_step_read _ s s2).
  destruct (env_alloc (c_tick s2)); cbn [negb]; [|by apply wp_ret].
  apply alloc_insert_wp; try done.
  { change (ino < imap_next_ino (c_imap s2)). pose proof (cs_next _ _ _ Hst2). lia. }
  { cbn. lia. }
  intros s4 now gen first Hs4 Hst4 _ Hc4. destruct (fs_cache s3 Hs3) as [(ch & l & Hr3) _].
  split_and!; [done| | |].
  - replace (evict_cost _) with (evict_cost (c_icache s) + 0) by lia. by eapply cache_step_trans.
  - rewrite Hc4. eapply held_kept_trans; [exact Hheld|]. apply (inserted_held_kept s3), (fs_cache s3 Hs3).
  - exists ino, now, gen, first. rewrite Hc4. split_and!; [done..| |cbn; apply lookup_insert_eq|].
    + apply eq_None_not_Some. intros Hq. destruct (fs_cache s Hs) as [(? & ? & Hr0) _].
      pose proof (cr_brk _ _ _ Hr0 _ Hq) as Hlt0. cbn in Hlt0. rewrite (sk_brk _ _ Hsk) in Hlt0. lia.
    + cbn. pose proof (cr_count _ _ _ Hr3) as Hq. cbn in Hq. rewrite u32_small; lia.
Qed.

(** Where the number of the decoded inode comes from. *)
Lemma inode_number_at ino blk junk :
  0 < ino mod 16 < 14 → is_block blk →
  i_ino (dec (drop (inode_offset ino) (blk ++ (u8 <$> junk) ++ zero_block)) : lsfs_inode) =
    le_val (slice (inode_offset ino) 4 blk).
Proof.
  intros Hmod [Hl _]. assert (Z.of_nat BS = 4096) by done.
  assert (inode_offset ino = Z.to_nat (ino mod 16) * 296)%nat as Ho by done.
  rewrite drop_app_le by lia. unfold slice. cbn [dec inode_ondisk]. unfold get_le at 1.
  rewrite take_app_le by (rewrite length_drop; lia). repeat (destruct (get_le _ _) || destruct (get_bytes _ _)
    || destruct (get_le_array _ _)). done.
Qed.

(** ** Calls on the cache *)
Inductive icache_call :=
  | CacheGet (ino : Z) | CacheAlloc (mode : Z) | CachePut (p : Z) | CacheWrite (p : Z).

Definition icache_run (c : icache_call) : Op () :=
  match c with
  | CacheGet ino => _ ← lsfs_inode_get ino; mret tt
  | CacheAlloc mode => _ ← lsfs_inode_alloc mode; mret tt
  | CachePut p => lsfs_inode_put (Some p)
  | CacheWrite p => _ ← lsfs_inode_write p; mret tt
  end.

(** The caller passes addresses of cached inodes. *)
Definition icache_call_ok s (c : icache_call) : Prop :=
  match c with
  | CacheGet _ => True
  | CacheAlloc mode => is_u32 mode
  | CachePut p | CacheWrite p => is_Some (ic_heap (c_icache s) !! p)
  end.

(** A reference that is not given back keeps its inode in the cache. *)
Definition survives s p im s' : Prop :=
  ∃ im', ic_heap (c_icache s') !! p = Some im' ∧ im_disk_inode im' = im_disk_inode im ∧
    im_refcount im <= im_refcount im' <= im_refcount im + 1.

Definition call_safe s (c : icache_call) s' : Prop :=
  fs_wf s' ∧ ic_count (c_icache s') <= ic_count (c_icache s) + 1 ∧
  ∀ p im, ic_heap (c_icache s) !! p = Some im → 0 < im_refcount im → im_refcount im + 1 < 2 ^ 32 →
    c ≠ CachePut p → survives s p im s'.

Lemma held_kept_survives s s' p im :
  held_kept (c_icache s) (c_icache s') → ic_heap (c_icache s) !! p = Some im → 0 < im_refcount im →
  survives s p im s'.
Proof.
  intros Hk Hp Hr. destruct (Hk p im Hp Hr) as (im' & Hp' & Hrel). exists im'.
  destruct (relinked_fields _ _ Hrel) as (-> & _ & -> & _). split_and!; [done..|lia].
Qed.

Lemma cache_get_safe s ino :
  fs_wf s → ic_count (c_icache s) + 1 < 2 ^ 31 →
  wp (icache_run (CacheGet ino)) (λ _ s', call_safe s (CacheGet ino) s') s.
Proof.
  intros Hs Hn. cbn [icache_run]. wp_step. eapply wp_mono; [by apply inode_get_wp|].
  intros r s' (Hs' & _ & Hr). apply wp_ret. split; [done|]. destruct r as [p|].
  2:{ destruct Hr as (_ & Hk & Hc). split; [lia|]. intros q iq Hq H0 _ _. by eapply held_kept_survives. }
  destruct Hr as [(im & Hp & _ & Hh & Hc)|(i & loc & ver & next & _ & _ & _ & _ & Hk & Hc)].
  2:{ split; [lia|]. intros q iq Hq H0 _ _. by eapply held_kept_survives. }
  split; [lia|]. intros q iq Hq H0 H1 _. unfold survives. rewrite Hh. destruct (decide (q = p)) as [->|Hne].
  - rewrite Hp in Hq. injection Hq as <-. exists (referenced im). rewrite lookup_insert_eq.
    split_and!; [done..| |]; cbn; rewrite u32_small; lia.
  - rewrite lookup_insert_ne by done. exists iq. split_and!; [done..|lia].
Qed.

Lemma cache_alloc_safe s mode :
  fs_wf s → is_u32 mode → ic_count (c_icache s) + 1 < 2 ^ 31 →
  wp (icache_run (CacheAlloc mode)) (λ _ s', call_safe s (CacheAlloc mode) s') s.
Proof.
  intros Hs Hm Hn. cbn [icache_run]. wp_step. eapply wp_mono; [by apply inode_alloc_wp|].
  intros r s' (Hs' & _ & Hk & Hr). apply wp_ret. split_and!; [done| |].
  - destruct r as [p|]; [destruct Hr as (? & ? & ? & ? & _ & _ & _ & _ & Hr)|]; lia.
  - intros q iq Hq H0 _ _. by eapply held_kept_survives.
Qed.

Lemma inode_write_wf s p im :
  fs_wf s → ic_heap (c_icache s) !! p = Some im →
  wp (lsfs_inode_write p) (λ _ s', fs_wf s' ∧ cache_step 1 s s' ∧
    (c_icache s' = c_icache s ∨
     ∃ loc, is_u64 loc ∧ c_icache s' = c_icache s <| ic_heap ::= <[p := written im loc]> |>)) s.
Proof.
  intros Hs Hp. destruct (icache_ranges_at s p im Hs Hp) as (Hd & Hl & Href).
  destruct (im_dirty im) eqn:Hdirty.
  2:{ unfold lsfs_inode_write. wp_step. eapply wp_intro; [by apply load_inode_run|]. rewrite Hdirty. apply wp_ret.
      split_and!; [done| |by left]. apply (cache_step_mono 0); [lia|apply cache_step_refl, Hs]. }
  pose proof (write_back_wp s p im (fs_log s Hs) Hp Hd Hl (fs_inos s Hs p im Hp)) as Hw. rewrite Hdirty in Hw.
  eapply wp_mono; [exact Hw|]. intros _ s' [Hst Hc]. split_and!; [|done|done].
  pose proof (update_wf s p im) as Hup. destruct Hs as [Hlog Hwf Hi Him Hb].
  assert (icache_wf (c_icache s') ∧ icache_inos s') as [Hwf' Hi'].
  { destruct Hc as [Hc|(loc & Hloc & Hc)].
    - split; [by rewrite Hc|]. intros q iq. rewrite Hc. intros Hq. specialize (Hi q iq Hq). pose proof (cs_next _ _ _ Hst). lia.
    - destruct (Hup (written im loc)) as [_ Hwf1 Hi1 _ _]; [by split|done..|split; [apply Href|apply u32_range]|]. split; [by rewrite Hc|].
      intros q iq. rewrite Hc. intros Hq. specialize (Hi1 q iq Hq). cbn in Hi1. pose proof (cs_next _ _ _ Hst). lia. }
  split; [apply Hst|done|done|by apply Hst|by apply (cs_bytes _ _ _ Hst)].
Qed.

Lemma cache_write_safe s p :
  fs_wf s → is_Some (ic_heap (c_icache s) !! p) →
  wp (icache_run (CacheWrite p)) (λ _ s', call_safe s (CacheWrite p) s') s.
Proof.
  intros Hs [im Hp]. cbn [icache_run]. wp_step. eapply wp_mono; [by apply inode_write_wf|].
  intros r s' (Hs' & _ & Hc). apply wp_ret. split_and!; [done| |].
  - destruct Hc as [->|(loc & _ & ->)]; cbn; lia.
  - intros q iq Hq H0 _ _. unfold survives. destruct Hc as [->|(loc & _ & ->)].
    { exists iq. split_and!; [done..|lia]. }
    cbn. destruct (decide (q = p)) as [->|Hne].
    + rewrite Hp in Hq. injection Hq as <-. exists (written im loc). rewrite lookup_insert_eq.
      split_and!; [done..|cbn; lia].
    + rewrite lookup_insert_ne by done. exists iq. split_and!; [done..|lia].
Qed.

Lemma cache_put_safe s p :
  fs_wf s → is_Some (ic_heap (c_icache s) !! p) →
  wp (icache_run (CachePut p)) (λ _ s', call_safe s (CachePut p) s') s.
Proof.
  intros Hs [im Hp]. eapply wp_mono; [by apply inode_put_wp|]. intros [] s' [Hs' ->].
  split_and!; [done|cbn; lia|]. intros q iq Hq H0 _ Hne. exists iq. cbn.
  rewrite lookup_insert_ne by congruence. split_and!; [done..|lia].
Qed.

Lemma icache_run_safe s c :
  fs_wf s → icache_call_ok s c → ic_count (c_icache s) + 1 < 2 ^ 31 →
  wp (icache_run c) (λ _ s', call_safe s c s') s.
Proof.
  intros Hs Hok Hn. destruct c; cbn [icache_call_ok] in Hok;
    auto using cache_get_safe, cache_alloc_safe, cache_put_safe, cache_write_safe.
Qed.

(** A sequence of calls, each made with addresses of cached inodes. *)
Inductive icache_path : list icache_call → lsfs_context → lsfs_context → Prop :=
  | path_nil s : icache_path [] s s
  | path_cons c cs s s1 s2 :
      icache_call_ok s c → icache_run c s = Some (tt, s1) → icache_path cs s1 s2 →
      icache_path (c :: cs) s s2.
End InodeCache.

(** Looking for an inode that is not in the cache. *)
Lemma inode_reload_wp `{E : Env, !Healthy E} s (i : lsfs_inode) loc ver rest :
  fs_wf s → ic_count (c_icache s) < LSFS_INODE_CACHE_SIZE →
  (∀ p im, ic_heap (c_icache s) !! p = Some im → i_ino (im_disk_inode im) ≠ i_ino i) →
  imap_map (c_imap s) !! i_ino i = Some (loc, ver) → disk_wf i →
  disk_block (c_disk s) loc = enc i ++ rest →
  wp (lsfs_inode_get (i_ino i)) (λ r s',
    (i_ino i mod 16 = 0 → ∃ p next, r = Some p ∧
       ic_heap (c_icache s') !! p = Some (mk_inode_mem i loc ver 1 false next)) ∧
    (0 < i_ino i mod 16 < 14 →
       le_val (slice (inode_offset (i_ino i)) 4 (disk_block (c_disk s) loc)) ≠ i_ino i → r = None)) s.
Proof.
  intros Hs Hn Hmiss Hm Hi Hblk. destruct (fs_cache s Hs) as [(ch & l & Hr) Hrg].
  destruct (cache_find_run s ch l (i_ino i) Hr) as (first & r & Hb & _ & Hfind & Hspec).
  unfold lsfs_inode_get. wp_step. eapply wp_intro; [exact Hb|]. do 3 wp_step. eapply wp_intro; [exact Hfind|].
  destruct r as [p|]; [destruct Hspec as (im & Hp & Hino); by destruct (Hmiss p im Hp)|].
  wp_step. unfold lsfs_imap_get. do 2 wp_step. eapply wp_of_opt; [apply imap_get_spec, (fs_log s Hs)|].
  rewrite Hm. wp_step. unfold inode_cache_evict. do 2 wp_step.
  assert (inode_cache_evict_loop (S (Z.to_nat (ic_count (c_icache s)))) s = Some (tt, s)) as Hev.
  { cbn [inode_cache_evict_loop]. unfold mbind, M_bind, gets. by rewrite (proj2 (Z.ltb_lt _ _) Hn). }
  eapply wp_intro; [exact Hev|]. wp_step. eapply wp_intro; [done|]. rewrite healthy_alloc. cbn [negb].
  wp_step. eapply wp_intro; [apply read_block_ok; by apply (proj1 (fs_imap s Hs) (i_ino i) loc ver)|].
  cbv beta iota. change (disk_block (c_disk (s <| c_tick ::= S |>)) loc) with (disk_block (c_disk s) loc).
  wp_step. eapply wp_intro; [done|]. set (s2 := ticked (ticked (ticked s))). set (junk := env_mem _).
  set (i' := dec _ : lsfs_inode).
  assert (i_ino i mod 16 = 0 → i' = i) as Hzero.
  { intros H0. unfold i', inode_offset. rewrite H0, Hblk, <-app_assoc. by apply dec_enc. }
  destruct (Z.eqb_spec (i_ino i') (i_ino i)) as [Heq|Hne]; cbn [negb].
  - destruct (cache_insert_run s2 ch l (mk_inode_mem i' loc ver 1 false None) Hr) as (f & _ & Hins).
    cbn [im_disk_inode] in Hins. rewrite Heq in Hins. wp_step. eapply wp_intro; [exact Hins|]. apply wp_ret. split.
    + intros H0. rewrite (Hzero H0). eexists _, f. split; [done|]. cbn. apply lookup_insert_eq.
    + intros Hmod Hbytes. destruct Hbytes. etransitivity; [|exact Heq]. symmetry.
      apply inode_number_at; [done|]. apply (fs_bytes s Hs).
  - apply wp_ret. split; [|done]. intros H0. by destruct Hne; rewrite (Hzero H0).
Qed.

Lemma icache_path_wf `{E : Env} cs s s' :
  fs_wf s → icache_path cs s s' → ic_count (c_icache s) + Z.of_nat (length cs) < 2 ^ 31 → fs_wf s'.
Proof.
  intros Hs Hpath. revert Hs. induction Hpath as [s|c cs s s1 s2 Hok Hrun Hpath IH]; intros Hs Hn; [done|].
  cbn [length] in Hn. destruct (wp_run _ _ _ _ _ (icache_run_safe s c Hs Hok ltac:(lia)) Hrun) as (Hs1 & Hc1 & _).
  apply IH; [done|lia].
Qed.

(** * Theorems *)

(** C17. The inode cache keeps its promises however calls fail: along every sequence of
    lookups, allocations, releases and write-outs the chains, the LRU list and the count
    stay consistent with each other, with the log and with the inode map, every further
    call ends (the walks along the chains meet cached inodes only, and eviction makes
    progress), and an inode whose reference is not given back is neither evicted nor
    changed.  Two accesses of these calls lie outside an object, the copy from behind the
    block at [inode.c:205] and the one from behind the inode at [inode.c:371]; they are
    not excluded here, but taken to read whatever memory holds there. *)
Theorem inode_cache_safe `{E : Env} cs s s' :
  fs_wf s → icache_path cs s s' → ic_count (c_icache s) + Z.of_nat (length cs) + 1 < 2 ^ 31 →
  fs_wf s' ∧ (∀ c, icache_call_ok s' c → is_Some (icache_run c s')) ∧
  ∀ p im, ic_heap (c_icache s) !! p = Some im → 0 < im_refcount im →
    im_refcount im + Z.of_nat (length cs) < 2 ^ 32 → CachePut p ∉ cs →
    ∃ im', ic_heap (c_icache s') !! p = Some im' ∧ im_disk_inode im' = im_disk_inode im ∧
      im_refcount im <= im_refcount im'.
Proof.
  intros Hs Hpath. revert Hs. induction Hpath as [s|c cs s s1 s2 Hok Hrun Hpath IH]; intros Hs Hn.
  - split_and!; [done| |].
    + intros c Hc. destruct (wp_elim _ _ _ (icache_run_safe s c Hs Hc ltac:(cbn in Hn; lia))) as (? & ? & -> & _). eauto.
    + intros p im Hp _ _ _. exists im. split_and!; [done..|lia].
  - cbn [length] in *. destruct (wp_run _ _ _ _ _ (icache_run_safe s c Hs Hok ltac:(lia)) Hrun) as (Hs1 & Hc1 & Hsv).
    destruct (IH Hs1 ltac:(lia)) as (Hs2 & Hdef & Hkeep). split_and!; [done..|].
    intros p im Hp H0 H1 Hnot. apply not_elem_of_cons in Hnot as [Hne Hnot].
    destruct (Hsv p im Hp H0 ltac:(lia) (not_eq_sym Hne)) as (im1 & Hp1 & Hd1 & Hr1).
    destruct (Hkeep p im1 Hp1) as (im2 & Hp2 & Hd2 & Hr2); [lia|lia|done|].
    exists im2. split_and!; [done|congruence|lia].
Qed.

(** C26. Reloading an inode from the block [lsfs_inode_write] left, on a healthy device and
    without eviction: an inode whose number is a multiple of 16 comes back exactly as it
    was written; for the other numbers the inode is looked for [ino % 16] inode sizes
    into the block, where only what happened to follow the inode in memory is, and the
    lookup fails unless those bytes spell the number. *)
Theorem inode_reload `{E : Env, !Healthy E} s (i : lsfs_inode) loc ver rest :
  fs_wf s → ic_count (c_icache s) < LSFS_INODE_CACHE_SIZE →
  (∀ p im, ic_heap (c_icache s) !! p = Some im → i_ino (im_disk_inode im) ≠ i_ino i) →
  imap_map (c_imap s) !! i_ino i = Some (loc, ver) → disk_wf i →
  disk_block (c_disk s) loc = enc i ++ rest →
  wp (lsfs_inode_get (i_ino i)) (λ r s',
    (i_ino i mod 16 = 0 → ∃ p next, r = Some p ∧
       ic_heap (c_icache s') !! p = Some (mk_inode_mem i loc ver 1 false next)) ∧
    (0 < i_ino i mod 16 < 14 →
       le_val (slice (inode_offset (i_ino i)) 4 (disk_block (c_disk s) loc)) ≠ i_ino i → r = None)) s.
Proof. intros. by eapply inode_reload_wp. Qed.
