(* ===== verification/Directory.v ===== *)
(** Directories, [src/directory.c]: variable-length entries chained by [rec_len] in the
    blocks of a file.  A name is the list of its bytes, without the final 0.  A C
    pointer to an entry is its offset in the block read last; an access outside that
    block is undefined behaviour. *)
From S2P Require Import Prelude OnDisk Lru Context Io Imap SegTable Log Inode.

(** ** File types, from [sys/stat.h] *)
Definition S_IFMT : Z := 61440.
Definition S_IFSOCK : Z := 49152.
Definition S_IFLNK : Z := 40960.
Definition S_IFREG : Z := 32768.
Definition S_IFBLK : Z := 24576.
Definition S_IFDIR : Z := 16384.
Definition S_IFCHR : Z := 8192.
Definition S_IFIFO : Z := 4096.

Definition lsfs_mode_to_type (mode : Z) : Z :=
  let fmt := Z.land mode S_IFMT in
  if fmt =? S_IFREG then LSFS_FT_REG_FILE
  else if fmt =? S_IFDIR then LSFS_FT_DIR
  else if fmt =? S_IFCHR then LSFS_FT_CHRDEV
  else if fmt =? S_IFBLK then LSFS_FT_BLKDEV
  else if fmt =? S_IFIFO then LSFS_FT_FIFO
  else if fmt =? S_IFSOCK then LSFS_FT_SOCK
  else if fmt =? S_IFLNK then LSFS_FT_SYMLINK
  else LSFS_FT_UNKNOWN.

(** [mode & S_IFDIR] as a condition *)
Definition mode_dir (mode : Z) : bool := negb (Z.land mode S_IFDIR =? 0).

Definition dirent_size (name_len : Z) : Z :=
  let size := u16 (Z.of_nat (sizeof lsfs_dirent) + name_len) in
  u16 (Z.land (size + 3) (Z.lnot 3)).

(** ** Entries in a block *)

(** [block[off .. off + n)] lies in the block. *)
Definition in_block (off n : Z) : bool := (0 <=? off) && (off + n <=? LSFS_BLOCK_SIZE).

Definition get_dirent (block : list Z) (off : Z) : option lsfs_dirent :=
  if in_block off (Z.of_nat (sizeof lsfs_dirent)) then Some (dec (drop (Z.to_nat off) block)) else None.

Definition put_dirent (block : list Z) (off : Z) (de : lsfs_dirent) : option (list Z) :=
  if in_block off (Z.of_nat (sizeof lsfs_dirent)) then Some (splice block (Z.to_nat off) (enc de)) else None.

(** [de->name[k]] *)
Definition name_byte (block : list Z) (off k : Z) : option Z :=
  if in_block (off + Z.of_nat (sizeof lsfs_dirent) + k) 1
  then arr_get block (off + Z.of_nat (sizeof lsfs_dirent) + k) else None.

(** The first [len] bytes of [de->name] *)
Definition get_name (block : list Z) (off len : Z) : option (list Z) :=
  let start := off + Z.of_nat (sizeof lsfs_dirent) in
  if in_block start len then Some (slice (Z.to_nat start) (Z.to_nat len) block) else None.

(** [memcpy(de->name, name, name_len)] *)
Definition put_name (block : list Z) (off : Z) (name : list Z) : option (list Z) :=
  let start := off + Z.of_nat (sizeof lsfs_dirent) in
  if in_block start (Z.of_nat (length name)) then Some (splice block (Z.to_nat start) name) else None.

(** [de->ino != 0 && de->name_len == name_len && memcmp(de->name, name, name_len) == 0] *)
Definition dirent_matches (block : list Z) (off : Z) (de : lsfs_dirent) (name : list Z) : option bool :=
  if negb (de_ino de =? 0) && (de_name_len de =? Z.of_nat (length name)) then
    n ← get_name block off (de_name_len de); Some (bool_decide (n = name))
  else Some false.

(** The C string that begins a byte array. *)
Fixpoint c_string (bs : list Z) : list Z :=
  match bs with
  | [] => []
  | b :: bs => if b =? 0 then [] else b :: c_string bs
  end.

(** ** The loop over the entries

    The operations share the loop [while (offset < dir_size)], which reads a block when
    it enters it.  What is done with an entry either returns from the function, goes
    on with the next entry or leaves the loop; [St] are the local variables. *)
Inductive visit (St R : Type) :=
  | Return (r : R)
  | Continue (st : St)
  | Break (st : St).
Arguments Return {St R} r.
Arguments Continue {St R} st.
Arguments Break {St R} st.

Section DirOps.
Context `{E : Env}.

(** The arguments of the visitor: the block's index in the file, the entry's offset in
    the directory and in the block, the block, the entry. *)
Definition visitor (St R : Type) : Type :=
  St → Z → Z → Z → list Z → lsfs_dirent → Op (visit St R).

Fixpoint dir_scan {St R} (fuel : nat) (p dir_size : Z) (io_error : St → R) (f : visitor St R)
    (st : St) (block : list Z) (offset : Z) : Op (R + St) :=
  match fuel with
  | O => undefined
  | S fuel =>
      if dir_size <=? offset then mret (inr st) else
      let block_idx := offset / LSFS_BLOCK_SIZE in
      let block_offset := offset mod LSFS_BLOCK_SIZE in
      r ← (if block_offset =? 0 then lsfs_inode_read_block p block_idx else mret (Ok block));
      match r with
      | Err _ => mret (inl (io_error st))
      | Ok block =>
          de ← of_opt (get_dirent block block_offset);
          v ← f st block_idx offset block_offset block de;
          match v with
          | Return r => mret (inl r)
          | Break st => mret (inr st)
          | Continue st => dir_scan fuel p dir_size io_error f st block (u64 (offset + de_rec_len de))
          end
      end
  end.

(** The array [block] before anything is read into it. *)
Definition uninit_block (junk : list Z) : list Z := take BS ((u8 <$> junk) ++ zero_block).

(** Enough for entries of any positive length. *)
Definition scan_fuel (dir_size offset : Z) : nat := S (Z.to_nat (dir_size - offset)).

(** ** Lookup *)

Definition lookup_visit (name : list Z) : visitor () (res (Z * Z)) :=
  λ _ _ _ block_offset block de,
    if (de_rec_len de =? 0) || (LSFS_BLOCK_SIZE - block_offset <? de_rec_len de)
    then mret (Break tt) else
    found ← of_opt (dirent_matches block block_offset de name);
    mret (if (found : bool) then Return (Ok (de_ino de, de_file_type de)) else Continue tt).

Definition lsfs_dir_lookup (p : Z) (name : list Z) : Op (res (Z * Z)) :=
  junk ← ask env_mem;
  dir ← load_inode p;
  let dir_size := i_size (im_disk_inode dir) in
  if negb (mode_dir (i_mode (im_disk_inode dir))) then mret (Err LSFS_ERR_NOTDIR) else
  if LSFS_NAME_MAX <? Z.of_nat (length name) then mret (Err LSFS_ERR_INVAL) else
  r ← dir_scan (scan_fuel dir_size 0) p dir_size (λ _, Err LSFS_ERR_IO) (lookup_visit name) tt
        (uninit_block junk) 0;
  match r with
  | inl r => mret r
  | inr _ => mret (Err LSFS_ERR_NOENT)
  end.

(** ** Adding an entry *)

(** Writing an entry with its name into the block. *)
Definition put_entry (block : list Z) (off rec_len ino file_type : Z) (name : list Z) : option (list Z) :=
  b ← put_dirent block off (mk_dirent ino rec_len (u8 (Z.of_nat (length name))) file_type);
  put_name b off name.

(** What [lsfs_dir_add] does with the entry [de] at [off]: the block with the new entry,
    or the decision to go on or to leave the loop. *)
Inductive slot := Placed (block : list Z) | TryNext | GiveUp.

Definition add_slot (block : list Z) (off : Z) (de : lsfs_dirent) (name : list Z)
    (needed_size ino file_type : Z) : option slot :=
  if de_rec_len de =? 0 then
    let space := u16 (LSFS_BLOCK_SIZE - off) in
    if needed_size <=? space then Placed <$> put_entry block off space ino file_type name
    else Some GiveUp
  else if (de_ino de =? 0) && (needed_size <=? de_rec_len de) then
    let remaining := u16 (de_rec_len de - needed_size) in
    b ← put_entry block off (if dirent_size 1 <=? remaining then needed_size else de_rec_len de)
          ino file_type name;
    if dirent_size 1 <=? remaining
    then Placed <$> put_dirent b (off + needed_size) (mk_dirent 0 remaining 0 0)
    else Some (Placed b)
  else
    let actual_size := dirent_size (de_name_len de) in
    let free_space := u16 (de_rec_len de - actual_size) in
    if needed_size <=? free_space then
      b ← put_dirent block off (de <| de_rec_len := actual_size |>);
      Placed <$> put_entry b (off + actual_size) free_space ino file_type name
    else Some TryNext.

(** [dir->disk_inode.mtime = lsfs_get_time_ns(); ctime = mtime; dir->dirty = true] *)
Definition touch_dir (p : Z) : Op () :=
  now ← lsfs_get_time_ns;
  upd_inode p (λ i, i <| im_disk_inode ::= λ d, d <| i_mtime := now |> <| i_ctime := now |> |>
                      <| im_dirty := true |>).

(** The changed block is written back. *)
Definition commit_block (p block_idx : Z) (block : list Z) : Op Z :=
  r ← lsfs_inode_write_block p block_idx block;
  if negb (r =? LSFS_OK) then mret LSFS_ERR_IO else
  _ ← touch_dir p;
  mret LSFS_OK.

Definition add_visit (p : Z) (name : list Z) (needed_size ino file_type : Z) : visitor () Z :=
  λ _ block_idx _ block_offset block de,
    slot ← of_opt (add_slot block block_offset de name needed_size ino file_type);
    match slot with
    | Placed b => r ← commit_block p block_idx b; mret (Return r)
    | TryNext => mret (Continue tt)
    | GiveUp => mret (Break tt)
    end.

Definition lsfs_dir_add (p : Z) (name : list Z) (ino file_type : Z) : Op Z :=
  junk ← ask env_mem;
  let needed_size := dirent_size (u8 (Z.of_nat (length name))) in
  dir ← load_inode p;
  let dir_size := i_size (im_disk_inode dir) in
  if negb (mode_dir (i_mode (im_disk_inode dir))) then mret LSFS_ERR_NOTDIR else
  if LSFS_NAME_MAX <? Z.of_nat (length name) then mret LSFS_ERR_INVAL else
  existing ← lsfs_dir_lookup p name;
  match existing with
  | Ok _ => mret LSFS_ERR_EXIST
  | Err _ =>
      r ← dir_scan (scan_fuel dir_size 0) p dir_size (λ _, LSFS_ERR_IO)
            (add_visit p name needed_size ino file_type) tt (uninit_block junk) 0;
      match r with
      | inl r => mret r
      | inr _ =>
          let new_block_idx := dir_size / LSFS_BLOCK_SIZE in
          block ← of_opt (put_entry zero_block 0 LSFS_BLOCK_SIZE ino file_type name);
          w ← lsfs_inode_write_block p new_block_idx block;
          if negb (w =? LSFS_OK) then mret LSFS_ERR_IO else
          _ ← upd_disk_inode p (λ d, d <| i_size := u64 ((new_block_idx + 1) * LSFS_BLOCK_SIZE) |>);
          _ ← touch_dir p;
          mret LSFS_OK
      end
  end.

(** ** Removing an entry *)

(** [prev] is [prev_de], as an offset in the block, with [prev_block_idx]. *)
Definition remove_visit (p : Z) (name : list Z) : visitor (option (Z * Z)) Z :=
  λ prev block_idx _ block_offset block de,
    let prev := if block_offset =? 0 then None else prev in
    if de_rec_len de =? 0 then mret (Break prev) else
    found ← of_opt (dirent_matches block block_offset de name);
    if (found : bool) then
      let merge := match prev with
                   | Some (prev_off, prev_idx) => if prev_idx =? block_idx then Some prev_off else None
                   | None => None
                   end in
      b ← of_opt (match merge with
                  | Some prev_off =>
                      prev_de ← get_dirent block prev_off;
                      put_dirent block prev_off
                        (prev_de <| de_rec_len ::= λ n, u16 (n + de_rec_len de) |>)
                  | None => put_dirent block block_offset (de <| de_ino := 0 |>)
                  end);
      r ← commit_block p block_idx b;
      mret (Return r)
    else mret (Continue (Some (block_offset, block_idx))).

Definition lsfs_dir_remove (p : Z) (name : list Z) : Op Z :=
  junk ← ask env_mem;
  dir ← load_inode p;
  let dir_size := i_size (im_disk_inode dir) in
  if negb (mode_dir (i_mode (im_disk_inode dir))) then mret LSFS_ERR_NOTDIR else
  r ← dir_scan (scan_fuel dir_size 0) p dir_size (λ _, LSFS_ERR_IO) (remove_visit p name) None
        (uninit_block junk) 0;
  match r with
  | inl r => mret r
  | inr _ => mret LSFS_ERR_NOENT
  end.

(** ** Emptiness *)

(** ['.'] *)
Definition dot : Z := 46.

(** The entry is [.] or [..]; the bytes of the name are read from left to right, as
    far as the conditions need them. *)
Definition is_dot_entry (block : list Z) (off : Z) (de : lsfs_dirent) : option bool :=
  if de_name_len de =? 1 then b0 ← name_byte block off 0; Some (b0 =? dot)
  else if de_name_len de =? 2 then
    b0 ← name_byte block off 0;
    if b0 =? dot then b1 ← name_byte block off 1; Some (b1 =? dot) else Some false
  else Some false.

Definition count_visit : visitor Z Z :=
  λ entry_count _ _ block_offset block de,
    if de_rec_len de =? 0 then mret (Break entry_count) else
    if de_ino de =? 0 then mret (Continue entry_count) else
    skip ← of_opt (is_dot_entry block block_offset de);
    mret (Continue (if (skip : bool) then entry_count else entry_count + 1)).

Definition lsfs_dir_is_empty (p : Z) : Op Z :=
  junk ← ask env_mem;
  dir ← load_inode p;
  let dir_size := i_size (im_disk_inode dir) in
  if negb (mode_dir (i_mode (im_disk_inode dir))) then mret LSFS_ERR_NOTDIR else
  r ← dir_scan (scan_fuel dir_size 0) p dir_size (λ _, LSFS_ERR_IO) count_visit 0 (uninit_block junk) 0;
  match r with
  | inl r => mret r
  | inr entry_count => mret (if entry_count =? 0 then LSFS_OK else LSFS_ERR_NOTEMPTY)
  end.

(** ** Iteration *)

(** [callback(callback_ctx, name, ino, type, offset)]: [C] is what [callback_ctx] points
    to, the name is the C string in [name_buf]. *)
Definition dir_callback (C : Type) : Type := C → list Z → Z → Z → Z → Op (C * Z).

Definition iterate_visit {C} (callback : dir_callback C) : visitor C (C * Z) :=
  λ c _ offset block_offset block de,
    if de_rec_len de =? 0 then mret (Break c) else
    if negb (de_ino de =? 0) && (0 <? de_name_len de) then
      name ← of_opt (get_name block block_offset (de_name_len de));
      r ← callback c (c_string name) (de_ino de) (de_file_type de) (to_i64 offset);
      mret (if negb (r.2 =? 0) then Return r else Continue r.1)
    else mret (Continue c).

Definition lsfs_dir_iterate {C} (p : Z) (callback : dir_callback C) (c : C) (start_offset : Z)
    : Op (C * Z) :=
  junk ← ask env_mem;
  dir ← load_inode p;
  let offset := u64 start_offset in
  let dir_size := i_size (im_disk_inode dir) in
  if negb (mode_dir (i_mode (im_disk_inode dir))) then mret (c, LSFS_ERR_NOTDIR) else
  r ← dir_scan (scan_fuel dir_size offset) p dir_size (λ c, (c, LSFS_ERR_IO)) (iterate_visit callback) c
        (uninit_block junk) offset;
  match r with
  | inl r => mret r
  | inr c => mret (c, LSFS_OK)
  end.

(** ** A new directory *)

Definition init_block (self parent : Z) : option (list Z) :=
  b ← put_entry zero_block 0 (dirent_size 1) self LSFS_FT_DIR [dot];
  put_entry b (dirent_size 1) (u16 (LSFS_BLOCK_SIZE - dirent_size 1)) parent LSFS_FT_DIR [dot; dot].

Definition lsfs_dir_init (p parent_ino : Z) : Op Z :=
  dir ← load_inode p;
  block ← of_opt (init_block (i_ino (im_disk_inode dir)) parent_ino);
  r ← lsfs_inode_write_block p 0 block;
  if negb (r =? LSFS_OK) then mret LSFS_ERR_IO else
  _ ← upd_inode p (λ i, i <| im_disk_inode ::= λ d, d <| i_size := LSFS_BLOCK_SIZE |> <| i_nlink := 2 |> |>
                          <| im_dirty := true |>);
  mret LSFS_OK.
End DirOps.
