(* ===== verification/DirBlock.v ===== *)
(** The entries of a directory block as a list of records, and what the operations of
    [src/directory.c] on one block do to that list: a block is the concatenation of its
    records, a lookup finds the record with a name, an insertion puts a record in the
    slack of another or in a deleted one, a removal merges a record with the one
    before it or marks it deleted. *)
From S2P Require Import Prelude OnDisk Lru Context Io Imap SegTable Log Inode.
From S2P Require Import Directory.

(** * Records *)

(** An entry with its name and the bytes up to the next entry; inode 0 is a deleted
    entry. *)
Record drec := mk_drec { r_ino : Z; r_type : Z; r_name : list Z; r_pad : list Z }.

#[export] Instance eta_drec : Eta drec := λ r, mk_drec (r_ino r) (r_type r) (r_name r) (r_pad r).

Definition rec_size (r : drec) : Z := 8 + Z.of_nat (length (r_name r)) + Z.of_nat (length (r_pad r)).

Definition rec_de (r : drec) : lsfs_dirent :=
  mk_dirent (r_ino r) (rec_size r) (Z.of_nat (length (r_name r))) (r_type r).

Definition rec_bytes (r : drec) : list Z := enc (rec_de r) ++ r_name r ++ r_pad r.

Record rec_wf (r : drec) : Prop := {
  rw_ino : is_u32 (r_ino r);
  rw_type : is_u8 (r_type r);
  rw_name : Z.of_nat (length (r_name r)) <= LSFS_NAME_MAX;
  rw_name_bytes : Forall is_byte (r_name r);
  rw_pad_bytes : Forall is_byte (r_pad r);
  rw_fits : dirent_size (Z.of_nat (length (r_name r))) <= rec_size r;
  rw_size : rec_size r <= LSFS_BLOCK_SIZE }.

Definition recs_bytes (rs : list drec) : list Z := concat (rec_bytes <$> rs).
Definition recs_size (rs : list drec) : Z := Z.of_nat (length (recs_bytes rs)).

(** [rs] are the records of the block [blk]. *)
Record block_recs (rs : list drec) (blk : list Z) : Prop := {
  br_bytes : blk = recs_bytes rs;
  br_wf : Forall rec_wf rs;
  br_length : recs_size rs = LSFS_BLOCK_SIZE }.

(** The entries in use: names with inode number and type. *)
Definition live_recs (rs : list drec) : list (list Z * (Z * Z)) :=
  omap (λ r, if r_ino r =? 0 then None else Some (r_name r, (r_ino r, r_type r))) rs.

(** * Sizes *)

Lemma dirent_size_eq n : 0 <= n <= 255 → dirent_size n = 4 * ((n + 11) / 4).
Proof.
  intros Hn. unfold dirent_size. change (Z.of_nat (sizeof lsfs_dirent)) with 8.
  rewrite (u16_small (8 + n)) by lia. rewrite <-Z.ldiff_land. change 3 with (Z.ones 2) at 2.
  rewrite Z.ldiff_ones_r, Z.shiftl_mul_pow2, Z.shiftr_div_pow2 by lia. change (2 ^ 2) with 4.
  replace (8 + n + 3) with (n + 11) by lia.
  pose proof (Z.div_mod (n + 11) 4 ltac:(lia)). pose proof (Z.mod_pos_bound (n + 11) 4 ltac:(lia)).
  rewrite u16_small by lia. lia.
Qed.

Lemma dirent_size_bounds n : 0 <= n <= 255 → 8 + n <= dirent_size n <= 11 + n.
Proof.
  intros Hn. rewrite dirent_size_eq by done.
  pose proof (Z.div_mod (n + 11) 4 ltac:(lia)). pose proof (Z.mod_pos_bound (n + 11) 4 ltac:(lia)). lia.
Qed.

Lemma dirent_size_1 : dirent_size 1 = 12.
Proof. done. Qed.

Lemma rec_size_pos r : 8 <= rec_size r.
Proof. unfold rec_size. lia. Qed.

Lemma rec_de_wf r : rec_wf r → disk_wf (rec_de r).
Proof.
  intros [Hi Ht Hn _ _ _ Hs]. pose proof (rec_size_pos r). unfold LSFS_NAME_MAX, LSFS_BLOCK_SIZE in *.
  cbn. unfold is_u16, is_u8 in *. split_and!; try done; lia.
Qed.

Lemma length_enc_de (de : lsfs_dirent) : length (enc de) = 8%nat.
Proof. done. Qed.

Lemma length_rec_bytes r : Z.of_nat (length (rec_bytes r)) = rec_size r.
Proof. unfold rec_bytes, rec_size. rewrite !length_app, length_enc_de. lia. Qed.

Lemma recs_bytes_app l l' : recs_bytes (l ++ l') = recs_bytes l ++ recs_bytes l'.
Proof. unfold recs_bytes. by rewrite fmap_app, concat_app. Qed.
Lemma recs_bytes_cons r l : recs_bytes (r :: l) = rec_bytes r ++ recs_bytes l.
Proof. done. Qed.
Lemma recs_size_app l l' : recs_size (l ++ l') = recs_size l + recs_size l'.
Proof. unfold recs_size. rewrite recs_bytes_app, length_app. lia. Qed.
Lemma recs_size_cons r l : recs_size (r :: l) = rec_size r + recs_size l.
Proof. unfold recs_size. rewrite recs_bytes_cons, length_app, <-length_rec_bytes. lia. Qed.
Lemma recs_size_nonneg l : 0 <= recs_size l.
Proof. unfold recs_size. lia. Qed.
Lemma recs_size_nil : recs_size [] = 0.
Proof. done. Qed.

Lemma rec_bytes_bytes r : rec_wf r → Forall is_byte (rec_bytes r).
Proof.
  intros Hr. unfold rec_bytes. rewrite !Forall_app.
  split_and!; [by apply enc_bytes, rec_de_wf|apply Hr|apply Hr].
Qed.

Lemma block_recs_is_block rs blk : block_recs rs blk → is_block blk.
Proof.
  intros [-> Hw Hl]. split; [unfold recs_size, LSFS_BLOCK_SIZE in *; lia|].
  unfold recs_bytes. apply Forall_concat, Forall_fmap. eapply Forall_impl; [exact Hw|].
  intros r Hr. by apply rec_bytes_bytes.
Qed.

Lemma live_recs_app l l' : live_recs (l ++ l') = live_recs l ++ live_recs l'.
Proof. apply omap_app. Qed.

(** * Reading an entry *)

Section At.
Variables (pre post : list drec) (r : drec) (blk : list Z).
Hypothesis Hblk : block_recs (pre ++ r :: post) blk.
Local Notation off := (recs_size pre) (only parsing).

Lemma at_wf : rec_wf r.
Proof using Hblk. pose proof (br_wf _ _ Hblk) as H. apply Forall_app in H as [_ H]. by apply Forall_cons in H as [H _]. Qed.

Lemma at_bytes : blk = recs_bytes pre ++ rec_bytes r ++ recs_bytes post.
Proof using Hblk. by rewrite (br_bytes _ _ Hblk), recs_bytes_app, recs_bytes_cons. Qed.

Lemma at_room : 0 <= off ∧ off + rec_size r + recs_size post = LSFS_BLOCK_SIZE.
Proof using Hblk.
  pose proof (br_length _ _ Hblk) as H. rewrite recs_size_app, recs_size_cons in H.
  pose proof (recs_size_nonneg pre). lia.
Qed.

Lemma at_off : Z.to_nat off = length (recs_bytes pre).
Proof using Type. unfold recs_size. lia. Qed.

Lemma at_in_block n : n <= rec_size r → in_block off n = true.
Proof using Hblk.
  intros Hn. destruct at_room as [Ho Hs]. pose proof (recs_size_nonneg post). unfold in_block.
  rewrite (proj2 (Z.leb_le _ _)), (proj2 (Z.leb_le _ _)) by lia. done.
Qed.

Lemma get_dirent_at : get_dirent blk off = Some (rec_de r).
Proof using Hblk.
  unfold get_dirent. rewrite at_in_block by (pose proof (rec_size_pos r); cbn; lia).
  rewrite at_off, at_bytes, drop_app_length. f_equal. unfold rec_bytes. rewrite <-!app_assoc.
  apply dec_enc, rec_de_wf, at_wf.
Qed.

Lemma get_name_at : get_name blk off (Z.of_nat (length (r_name r))) = Some (r_name r).
Proof using Hblk.
  destruct at_room as [Ho Hs]. pose proof (recs_size_nonneg post).
  unfold get_name. change (Z.of_nat (sizeof lsfs_dirent)) with 8.
  unfold in_block. unfold rec_size in Hs. rewrite (proj2 (Z.leb_le _ _)), (proj2 (Z.leb_le _ _)) by lia.
  cbn [andb]. f_equal. unfold slice. rewrite Nat2Z.id, at_bytes. unfold rec_bytes.
  rewrite <-!app_assoc, app_assoc.
  rewrite drop_app_length' by (rewrite length_app, length_enc_de, <-at_off; lia).
  by rewrite take_app_length.
Qed.

(** The comparison finds the record in use with the name. *)
Lemma matches_at name :
  dirent_matches blk off (rec_de r) name = Some (bool_decide (r_ino r ≠ 0 ∧ r_name r = name)).
Proof using Hblk.
  unfold dirent_matches. cbn [rec_de de_ino de_name_len].
  destruct (Z.eqb_spec (r_ino r) 0); cbn [negb andb]; [by rewrite bool_decide_false by naive_solver|].
  destruct (Z.eqb_spec (Z.of_nat (length (r_name r))) (Z.of_nat (length name))) as [|Hne].
  - rewrite get_name_at. cbn. f_equal. apply bool_decide_ext. naive_solver.
  - rewrite bool_decide_false; [done|]. intros [_ <-]. done.
Qed.
End At.

(** * Writing entries *)

Lemma splice_mid {A} (a b c src : list A) n :
  n = length a → length src = length b → splice (a ++ b ++ c) n src = a ++ src ++ c.
Proof.
  intros -> Hl. unfold splice. rewrite take_app_length. f_equal. f_equal.
  rewrite Hl, app_assoc, drop_app_length' by (by rewrite length_app). done.
Qed.

Lemma put_dirent_app a x c de off :
  off = Z.of_nat (length a) → length x = 8%nat → Z.of_nat (length (a ++ x ++ c)) = LSFS_BLOCK_SIZE →
  put_dirent (a ++ x ++ c) off de = Some (a ++ enc de ++ c).
Proof.
  intros -> Hx Hl. unfold put_dirent, in_block. rewrite !length_app in Hl.
  change (Z.of_nat (sizeof lsfs_dirent)) with 8. rewrite !(proj2 (Z.leb_le _ _)) by lia. cbn [andb]. f_equal.
  rewrite Nat2Z.id. apply splice_mid; [done|]. by rewrite length_enc_de.
Qed.

Lemma put_entry_app a x n c off rec_len ino ty name :
  off = Z.of_nat (length a) → length x = 8%nat → length n = length name →
  Z.of_nat (length (a ++ x ++ n ++ c)) = LSFS_BLOCK_SIZE →
  put_entry (a ++ x ++ n ++ c) off rec_len ino ty name =
    Some (a ++ enc (mk_dirent ino rec_len (u8 (Z.of_nat (length name))) ty) ++ name ++ c).
Proof.
  intros -> Hx Hn Hl. unfold put_entry. rewrite put_dirent_app by done. cbn [mbind option_bind].
  unfold put_name, in_block. rewrite !length_app in Hl. change (Z.of_nat (sizeof lsfs_dirent)) with 8.
  rewrite !(proj2 (Z.leb_le _ _)) by lia. cbn [andb]. f_equal. rewrite !app_assoc, <-app_assoc.
  rewrite splice_mid; [by rewrite <-!app_assoc| |done]. rewrite length_app, length_enc_de. lia.
Qed.

(** A name that can be entered in a directory. *)
Record name_ok (name : list Z) : Prop := {
  nk_length : Z.of_nat (length name) <= LSFS_NAME_MAX;
  nk_bytes : Forall is_byte name }.

(** Replacing a record by others of the same total size. *)
Lemma block_recs_replace pre r post new blk :
  block_recs (pre ++ r :: post) blk → Forall rec_wf new → recs_size new = rec_size r →
  block_recs (pre ++ new ++ post) (recs_bytes pre ++ recs_bytes new ++ recs_bytes post).
Proof.
  intros [_ Hw Hl] Hnew Hs. apply Forall_app in Hw as [Hpre Hw]. apply Forall_cons in Hw as [_ Hpost].
  split.
  - by rewrite !recs_bytes_app.
  - by rewrite !Forall_app.
  - rewrite !recs_size_app, Hs in *. rewrite recs_size_cons in Hl. lia.
Qed.

Lemma rec_wf_le_block pre r post blk : block_recs (pre ++ r :: post) blk → rec_size r <= LSFS_BLOCK_SIZE.
Proof.
  intros [_ _ Hl]. rewrite recs_size_app, recs_size_cons in Hl.
  pose proof (recs_size_nonneg pre). pose proof (recs_size_nonneg post). lia.
Qed.

(** Cutting out the place of a header. *)
Lemma split_at_header (l : list Z) (k : nat) :
  (k + 8 <= length l)%nat → ∃ l1 x l2, l = l1 ++ x ++ l2 ∧ length l1 = k ∧ length x = 8%nat ∧
    length l2 = (length l - k - 8)%nat.
Proof.
  intros Hk. exists (take k l), (take 8 (drop k l)), (drop 8 (drop k l)).
  rewrite !take_drop, !length_take, !length_drop. split_and!; try done; lia.
Qed.

(** A deleted record without a name. *)
Lemma empty_rec_wf pad :
  Forall is_byte pad → rec_size (mk_drec 0 0 [] pad) <= LSFS_BLOCK_SIZE → rec_wf (mk_drec 0 0 [] pad).
Proof.
  intros Hp Hs. split; try done. unfold rec_size. cbn [r_name r_pad length].
  change (dirent_size (Z.of_nat 0)) with 8. lia.
Qed.

Section AddAt.
Variables (pre post : list drec) (r : drec) (blk : list Z) (name : list Z) (ino ty : Z).
Hypothesis Hblk : block_recs (pre ++ r :: post) blk.
Hypothesis Hname : name_ok name.
Hypothesis Hino : 0 < ino < 2 ^ 32.
Hypothesis Hty : is_u8 ty.
Local Notation off := (recs_size pre) (only parsing).
Local Notation needed := (dirent_size (Z.of_nat (length name))) (only parsing).

(** The record of the new entry, followed by [pad]. *)
Local Notation fresh pad := (mk_drec ino ty name pad) (only parsing).

Lemma name_u8 : u8 (Z.of_nat (length name)) = Z.of_nat (length name).
Proof using Hname. pose proof (nk_length _ Hname). unfold LSFS_NAME_MAX in *. apply u8_small. lia. Qed.

Lemma needed_bounds : 8 + Z.of_nat (length name) <= needed <= 11 + Z.of_nat (length name).
Proof using Hname. pose proof (nk_length _ Hname). unfold LSFS_NAME_MAX in *. apply dirent_size_bounds. lia. Qed.

Lemma fresh_wf pad :
  Forall is_byte pad → needed <= rec_size (fresh pad) <= LSFS_BLOCK_SIZE → rec_wf (fresh pad).
Proof using Hname Hino Hty.
  intros Hp [Hn Hs]. split; cbn [r_ino r_type r_name r_pad]; try done.
  - unfold is_u32. lia.
  - apply Hname.
  - apply Hname.
Qed.

Lemma live_fresh pad : live_recs [fresh pad] = [(name, (ino, ty))].
Proof using Hino. cbn. by rewrite (proj2 (Z.eqb_neq _ _)) by lia. Qed.

(** A deleted record that is large enough: the new entry takes all of it, or its
    beginning with a deleted record for the rest. *)
Lemma add_deleted_at :
  r_ino r = 0 → needed <= rec_size r →
  ∃ new, add_slot blk off (rec_de r) name needed ino ty =
    Some (Placed (recs_bytes pre ++ recs_bytes new ++ recs_bytes post)) ∧
    Forall rec_wf new ∧ recs_size new = rec_size r ∧ live_recs new = [(name, (ino, ty))].
Proof using Hblk Hname Hino Hty.
  intros H0 Hfit. pose proof needed_bounds as Hnb. pose proof (at_wf _ _ _ _ Hblk) as Hr.
  pose proof (rec_wf_le_block _ _ _ _ Hblk) as Hle. pose proof (br_length _ _ Hblk) as Hlen.
  rewrite recs_size_app, recs_size_cons in Hlen. unfold recs_size in Hlen.
  pose proof (rec_size_pos r) as Hpos. unfold LSFS_BLOCK_SIZE in Hle, Hlen.
  set (tail := r_name r ++ r_pad r).
  assert (rec_size r = 8 + Z.of_nat (length tail)) as Hsz by (unfold tail, rec_size; rewrite length_app; lia).
  assert (Forall is_byte tail) as Htail by (apply Forall_app; split; apply Hr).
  unfold add_slot. cbn [rec_de de_rec_len de_ino]. rewrite (proj2 (Z.eqb_neq _ 0)) by lia.
  rewrite H0, Z.eqb_refl, (proj2 (Z.leb_le _ _) Hfit). cbn [andb].
  rewrite u16_small by lia. rewrite dirent_size_1.
  set (pad := drop (length name) tail).
  assert (Z.of_nat (length pad) = rec_size r - 8 - Z.of_nat (length name)) as Hpl
    by (unfold pad; rewrite length_drop; lia).
  rewrite (at_bytes _ _ _ _ Hblk). unfold rec_bytes. fold tail.
  rewrite <-(take_drop (length name) tail). fold pad. rewrite <-!app_assoc.
  rewrite put_entry_app; [|done|done| |].
  2:{ rewrite length_take. lia. }
  2:{ rewrite !length_app, length_enc_de, length_take. unfold LSFS_BLOCK_SIZE. lia. }
  cbn [mbind option_bind]. rewrite name_u8. assert (Forall is_byte pad) as Hpad by by apply Forall_drop.
  destruct (Z.leb_spec 12 (rec_size r - needed)) as [Hrem|Hrem].
  - set (k := Z.to_nat (needed - 8 - Z.of_nat (length name))).
    destruct (split_at_header pad k) as (p1 & x & p2 & Hp & Hp1 & Hx & Hp2); [lia|].
    exists [fresh p1; mk_drec 0 0 [] p2].
    assert (rec_size (fresh p1) = needed) as Hs1 by (unfold rec_size; cbn; lia).
    assert (rec_size (mk_drec 0 0 [] p2) = rec_size r - needed) as Hs2 by (unfold rec_size in *; cbn; lia).
    rewrite Hp in Hpad |- *. rewrite !Forall_app in Hpad. destruct Hpad as (Hb1 & _ & Hb2).
    split_and!.
    + rewrite <-!app_assoc.
      match goal with |- context [put_dirent (?a ++ ?b ++ ?c ++ ?d ++ ?e) ?o ?h] =>
        replace (a ++ b ++ c ++ d ++ e) with ((a ++ b ++ c ++ d) ++ e) by (by rewrite <-!app_assoc) end.
      rewrite put_dirent_app; [| |done|].
      * cbn [fmap option_fmap option_map]. do 2 f_equal. rewrite <-!app_assoc. f_equal.
        unfold recs_bytes. cbn [fmap list_fmap concat]. unfold rec_bytes, rec_de. rewrite Hs1, Hs2.
        cbn [r_ino r_type r_name r_pad length app Z.of_nat]. by rewrite <-!app_assoc, app_nil_l.
      * rewrite !length_app, length_enc_de. unfold recs_size. lia.
      * rewrite !length_app, length_enc_de. unfold LSFS_BLOCK_SIZE. lia.
    + constructor; [|constructor; [|constructor]].
      * apply fresh_wf; [done|]. rewrite Hs1. unfold LSFS_BLOCK_SIZE. lia.
      * apply empty_rec_wf; [done|]. rewrite Hs2. unfold LSFS_BLOCK_SIZE. lia.
    + rewrite !recs_size_cons, recs_size_nil, Hs1, Hs2. lia.
    + change (live_recs ([fresh p1] ++ [mk_drec 0 0 [] p2]) = [(name, (ino, ty))]).
      by rewrite live_recs_app, live_fresh.
  - assert (rec_size (fresh pad) = rec_size r) as Hs1 by (unfold rec_size at 1; cbn; lia).
    exists [fresh pad]. split_and!.
    + do 2 f_equal. f_equal. rewrite recs_bytes_cons, app_nil_r. unfold rec_bytes, rec_de. rewrite Hs1.
      cbn [r_ino r_type r_name r_pad]. by rewrite <-!app_assoc.
    + constructor; [|constructor]. apply fresh_wf; [done|]. rewrite Hs1. unfold LSFS_BLOCK_SIZE. lia.
    + rewrite recs_size_cons, recs_size_nil, Hs1. lia.
    + apply live_fresh.
Qed.

(** The slack of a record that is large enough: the record is cut to its actual size and
    the new entry takes the rest. *)
Lemma add_split_at :
  (r_ino r =? 0) && (needed <=? rec_size r) = false →
  needed <= rec_size r - dirent_size (Z.of_nat (length (r_name r))) →
  ∃ new, add_slot blk off (rec_de r) name needed ino ty =
    Some (Placed (recs_bytes pre ++ recs_bytes new ++ recs_bytes post)) ∧
    Forall rec_wf new ∧ recs_size new = rec_size r ∧
    live_recs new = live_recs [r] ++ [(name, (ino, ty))].
Proof using Hblk Hname Hino Hty.
  intros Hnot Hfit. pose proof needed_bounds as Hnb. pose proof (at_wf _ _ _ _ Hblk) as Hr.
  pose proof (rec_wf_le_block _ _ _ _ Hblk) as Hle. pose proof (br_length _ _ Hblk) as Hlen.
  rewrite recs_size_app, recs_size_cons in Hlen. unfold recs_size in Hlen.
  pose proof (rec_size_pos r) as Hpos. unfold LSFS_BLOCK_SIZE in Hle, Hlen.
  pose proof (rw_name r Hr) as Hrn. unfold LSFS_NAME_MAX in Hrn.
  pose proof (dirent_size_bounds (Z.of_nat (length (r_name r))) ltac:(lia)) as Hab.
  set (actual := dirent_size (Z.of_nat (length (r_name r)))) in *.
  unfold add_slot. cbn [rec_de de_rec_len de_ino de_name_len]. rewrite (proj2 (Z.eqb_neq _ 0)) by lia.
  rewrite Hnot. fold actual. rewrite u16_small by lia. rewrite (proj2 (Z.leb_le _ _) Hfit).
  rewrite (at_bytes _ _ _ _ Hblk). unfold rec_bytes. rewrite <-!app_assoc.
  pose proof (rw_pad_bytes r Hr) as Hpad. unfold rec_size in Hlen, Hle, Hfit, Hpos.
  set (k := Z.to_nat (actual - 8 - Z.of_nat (length (r_name r)))).
  destruct (split_at_header (r_pad r) k) as (p1 & x & p2 & Hp & Hp1 & Hx & Hp2); [lia|].
  rewrite put_dirent_app; [|done|done|rewrite !length_app, length_enc_de; unfold LSFS_BLOCK_SIZE; lia].
  cbn [mbind option_bind].
  rewrite Hp in Hpad |- *. rewrite !Forall_app in Hpad. destruct Hpad as (Hb1 & _ & Hb2).
  rewrite <-(take_drop (length name) p2). set (n := take _ p2). set (pad := drop _ p2).
  assert (length n = length name) as Hnl by (unfold n; rewrite length_take; lia).
  assert (Z.of_nat (length pad) = Z.of_nat (length p2) - Z.of_nat (length name)) as Hpl
    by (unfold pad; rewrite length_drop; lia).
  set (r1 := r <| r_pad := p1 |>).
  assert (rec_size r1 = actual) as Hs1 by (unfold rec_size; cbn; lia).
  assert (rec_size (fresh pad) = rec_size r - actual) as Hs2 by (unfold rec_size; cbn; lia).
  exists [r1; fresh pad]. split_and!.
  - rewrite <-!app_assoc.
    match goal with |- context [put_entry (?a ++ ?b ++ ?c ++ ?d ++ ?e) ?o] =>
      replace (a ++ b ++ c ++ d ++ e) with ((a ++ b ++ c ++ d) ++ e) by (by rewrite <-!app_assoc) end.
    rewrite put_entry_app; [| |done|done|].
    + cbn [fmap option_fmap option_map]. do 2 f_equal. rewrite <-!app_assoc, name_u8. f_equal.
      unfold recs_bytes. cbn [fmap list_fmap concat]. unfold rec_bytes, rec_de. rewrite Hs1, Hs2.
      cbn [r1 r_ino r_type r_name r_pad field_set]. by rewrite <-!app_assoc, app_nil_l.
    + rewrite !length_app, length_enc_de. unfold recs_size. lia.
    + rewrite !length_app, length_enc_de. unfold LSFS_BLOCK_SIZE. lia.
  - constructor; [|constructor; [|constructor]].
    + destruct Hr as [? ? ? ? ? ? ?]. split; try done; rewrite Hs1; [|unfold LSFS_BLOCK_SIZE; lia].
      unfold actual. done.
    + apply fresh_wf; [by apply Forall_drop|]. rewrite Hs2. unfold LSFS_BLOCK_SIZE, rec_size. lia.
  - rewrite !recs_size_cons, recs_size_nil, Hs1, Hs2. lia.
  - change (live_recs ([r1] ++ [fresh pad]) = live_recs [r] ++ [(name, (ino, ty))]).
    by rewrite live_recs_app, live_fresh.
Qed.

(** What [lsfs_dir_add] does at a record: it passes, or puts the new entry there and
    keeps the record. *)
Lemma add_slot_at :
  add_slot blk off (rec_de r) name needed ino ty = Some TryNext ∨
  ∃ new blk', add_slot blk off (rec_de r) name needed ino ty = Some (Placed blk') ∧
    block_recs (pre ++ new ++ post) blk' ∧ live_recs new ≡ₚ (name, (ino, ty)) :: live_recs [r].
Proof using Hblk Hname Hino Hty.
  pose proof needed_bounds as Hnb. pose proof (at_wf _ _ _ _ Hblk) as Hr.
  pose proof (rec_wf_le_block _ _ _ _ Hblk) as Hle. unfold LSFS_BLOCK_SIZE in Hle.
  destruct ((r_ino r =? 0) && (needed <=? rec_size r)) eqn:Hdel.
  - right. apply andb_true_iff in Hdel as [H0%Z.eqb_eq Hfit%Z.leb_le].
    destruct (add_deleted_at H0 Hfit) as (new & Hadd & Hw & Hs & Hlive). exists new. eexists.
    split_and!; [exact Hadd|by eapply block_recs_replace|]. rewrite Hlive. cbn. by rewrite H0.
  - destruct (Z.le_gt_cases needed (rec_size r - dirent_size (Z.of_nat (length (r_name r))))) as [Hfit|Hgt].
    + right. destruct (add_split_at Hdel Hfit) as (new & Hadd & Hw & Hs & Hlive). exists new. eexists.
      split_and!; [exact Hadd|by eapply block_recs_replace|]. rewrite Hlive.
      by rewrite Permutation_app_comm.
    + left. pose proof (rw_fits r Hr) as Hf. pose proof (rw_name r Hr) as Hn. unfold LSFS_NAME_MAX in Hn.
      pose proof (dirent_size_bounds (Z.of_nat (length (r_name r))) ltac:(lia)).
      unfold add_slot. cbn [rec_de de_rec_len de_ino de_name_len].
      pose proof (rec_size_pos r). rewrite (proj2 (Z.eqb_neq _ 0)), Hdel by lia.
      rewrite u16_small by lia. by rewrite (proj2 (Z.leb_gt _ _)) by lia.
Qed.
End AddAt.

(** * Removing an entry *)

(** Merging the record with the one before it. *)
Lemma merge_at pre q r post blk :
  block_recs (pre ++ q :: r :: post) blk →
  let q' := q <| r_pad ::= λ pad, pad ++ rec_bytes r |> in
  put_dirent blk (recs_size pre) (rec_de q <| de_rec_len ::= λ n, u16 (n + rec_size r) |>) =
    Some (recs_bytes (pre ++ q' :: post)) ∧
  block_recs (pre ++ q' :: post) (recs_bytes (pre ++ q' :: post)) ∧ live_recs [q'] = live_recs [q].
Proof.
  intros Hblk q'. pose proof (at_wf _ _ _ _ Hblk) as Hq. pose proof (br_length _ _ Hblk) as Hlen.
  assert (rec_wf r) as Hr.
  { pose proof (br_wf _ _ Hblk) as H. apply Forall_app in H as [_ H]. by do 2 apply Forall_cons in H as [? H]. }
  rewrite recs_size_app, !recs_size_cons in Hlen. pose proof (recs_size_nonneg pre).
  pose proof (recs_size_nonneg post). pose proof (rec_size_pos q). pose proof (rec_size_pos r).
  assert (rec_size q' = rec_size q + rec_size r) as Hs.
  { unfold rec_size at 1. cbn [q' r_name r_pad field_set]. rewrite length_app.
    pose proof (length_rec_bytes r). unfold rec_size in *. lia. }
  split_and!; [|split|done].
  - rewrite (at_bytes _ _ _ _ Hblk), recs_bytes_cons. unfold rec_bytes at 1. rewrite <-!app_assoc.
    rewrite put_dirent_app; [|done|done|].
    + f_equal. rewrite recs_bytes_app, recs_bytes_cons. unfold rec_bytes at 2. unfold rec_de at 2. rewrite Hs.
      unfold LSFS_BLOCK_SIZE in Hlen.
      cbn [q' r_ino r_type r_name r_pad field_set rec_de de_rec_len de_ino de_name_len de_file_type].
      rewrite u16_small by lia. by rewrite <-!app_assoc.
    + unfold recs_size in Hlen. rewrite <-Hlen, <-!length_rec_bytes. unfold rec_bytes. rewrite !length_app. lia.
  - done.
  - pose proof (br_wf _ _ Hblk) as H'. rewrite Forall_app in H' |- *. destruct H' as [Hpre H'].
    split; [done|]. apply Forall_cons in H' as [_ H']. apply Forall_cons in H' as [_ Hpost].
    constructor; [|done]. destruct Hq as [? ? ? ? ? ? ?].
    split; try done; [|rewrite Hs; cbn [q' r_name field_set]; lia|rewrite Hs; lia].
    cbn [q' r_pad field_set]. apply Forall_app. split; [done|by apply rec_bytes_bytes].
  - rewrite recs_size_app, recs_size_cons, Hs. lia.
Qed.

(** Marking the record deleted. *)
Lemma delete_at pre r post blk :
  block_recs (pre ++ r :: post) blk →
  let r' := r <| r_ino := 0 |> in
  put_dirent blk (recs_size pre) (rec_de r <| de_ino := 0 |>) = Some (recs_bytes (pre ++ r' :: post)) ∧
  block_recs (pre ++ r' :: post) (recs_bytes (pre ++ r' :: post)) ∧ live_recs [r'] = [].
Proof.
  intros Hblk r'. pose proof (at_wf _ _ _ _ Hblk) as Hr. pose proof (br_length _ _ Hblk) as Hlen.
  split_and!; [|split|done].
  - rewrite (at_bytes _ _ _ _ Hblk). unfold rec_bytes at 1. rewrite <-!app_assoc.
    rewrite put_dirent_app; [|done|done|].
    + f_equal. rewrite recs_bytes_app, recs_bytes_cons. unfold rec_bytes at 1. by rewrite <-!app_assoc.
    + rewrite recs_size_app, recs_size_cons in Hlen. unfold recs_size in Hlen.
      rewrite <-Hlen, <-length_rec_bytes. unfold rec_bytes. rewrite !length_app. lia.
  - done.
  - pose proof (br_wf _ _ Hblk) as H'. rewrite Forall_app in H' |- *. destruct H' as [Hpre H'].
    split; [done|]. apply Forall_cons in H' as [_ Hpost]. constructor; [|done].
    destruct Hr as [? ? ? ? ? ? ?]. split; try done.
  - rewrite <-Hlen, !recs_size_app, !recs_size_cons. done.
Qed.
