(* ===== verification/DirView.v ===== *)
(** Directories as finite maps from names to (inode, type): the operations of
    [src/directory.c] look up, insert and delete in that map.  The scan over the
    entries is verified once, against the list of records, for every operation. *)
From S2P Require Import Prelude OnDisk Lru Context Io Imap SegTable Log LogView.
From S2P Require Import Inode FileView Directory DirBlock.

(** No block of the file is in the segment buffer. *)
Definition file_settled (s : lsfs_context) (i : lsfs_inode) : Prop :=
  (i_indirect i ≠ 0 → settled s (i_indirect i)) ∧
  ∀ j, 0 <= j < file_blocks → file_addr s i j ≠ 0 → settled s (file_addr s i j).

(** The blocks of the directory hold the records [bs]. *)
Record dir_repr (s : lsfs_context) (i : lsfs_inode) (bs : list (list drec)) : Prop := {
  dr_mode : mode_dir (i_mode i) = true;
  dr_size : i_size i = LSFS_BLOCK_SIZE * Z.of_nat (length bs);
  dr_max : Z.of_nat (length bs) <= file_blocks;
  dr_blocks (k : nat) rs : bs !! k = Some rs → block_recs rs (file_block s i (Z.of_nat k)) }.

Definition dir_entries (bs : list (list drec)) : list (list Z * (Z * Z)) := live_recs (concat bs).
Definition dir_map (bs : list (list drec)) : gmap (list Z) (Z * Z) := list_to_map (dir_entries bs).

(** A directory whose blocks can be read. *)
Record dir_ready (s : lsfs_context) (p : Z) (im : lsfs_inode_mem) (bs : list (list drec)) : Prop := {
  dd_log : log_wf s;
  dd_inode : ic_heap (c_icache s) !! p = Some im;
  dd_file : file_wf s (im_disk_inode im);
  dd_settled : file_settled s (im_disk_inode im);
  dd_repr : dir_repr s (im_disk_inode im) bs }.

(** A directory as the cached inode and the log have it, part of it perhaps still in the
    segment buffer. *)
Record dir_held (s : lsfs_context) (p : Z) (im : lsfs_inode_mem) (bs : list (list drec)) : Prop := {
  dh_log : log_wf s;
  dh_inode : ic_heap (c_icache s) !! p = Some im;
  dh_file : file_wf s (im_disk_inode im);
  dh_indirect : i_indirect (im_disk_inode im) ≠ 0 → settled s (i_indirect (im_disk_inode im));
  dh_repr : dir_repr s (im_disk_inode im) bs }.

Lemma dir_ready_held s p im bs : dir_ready s p im bs → dir_held s p im bs.
Proof. intros [? ? ? [? _] ?]. by split. Qed.

Section DirScan.
Context `{E : Env}.
Implicit Types s : lsfs_context.

Lemma io_same_view s s' a : io_same s s' → log_view s' a = log_view s a.
Proof. intros Hio. unfold log_view. by rewrite (io_same_segbuf _ _ Hio), (proj2 Hio). Qed.

Lemma io_same_addr s s' i j : io_same s s' → file_addr s' i j = file_addr s i j.
Proof. intros Hio. unfold file_addr. by rewrite (io_same_view s s'). Qed.

Lemma io_same_block s s' i j : io_same s s' → file_block s' i j = file_block s i j.
Proof. intros Hio. unfold file_block. by rewrite (io_same_addr s s'), (io_same_view s s'). Qed.

Lemma dir_ready_io s s' p im bs : io_same s s' → dir_ready s p im bs → dir_ready s' p im bs.
Proof.
  intros Hio [Hs Hp Hw [Hi Hj] [? ? ? Hb]]. pose proof (io_same_kept s s' Hs Hio) as (Hs' & Hg & _).
  split; [done|by rewrite (io_same_icache _ _ Hio)|by eapply file_wf_grows|..].
  - unfold file_settled, settled in *. rewrite (io_same_segbuf _ _ Hio). split; [done|]. intros j.
    rewrite (io_same_addr s s') by done. apply Hj.
  - split; [assumption..|]. intros k rs. rewrite (io_same_block s s') by done. apply Hb.
Qed.

(** Reading block [k] of a directory. *)
Lemma dir_read_wp s p im bs (k : nat) rs :
  dir_ready s p im bs → bs !! k = Some rs →
  wp (lsfs_inode_read_block p (Z.of_nat k)) (λ got s', io_same s s' ∧
    ((got = Err LSFS_ERR_IO ∧ ¬ Healthy E) ∨ ∃ blk, got = Ok blk ∧ block_recs rs blk)) s.
Proof.
  intros [Hs Hp Hw [Hi Hj] Hr] Hk. pose proof (lookup_lt_Some _ _ _ Hk) as Hlt. pose proof (dr_max _ _ _ Hr) as Hmax.
  eapply wp_mono; [apply (inode_read_block_wp s p im); try done; lia|].
  intros got s' (Hio & [-> | [-> Hh]]); [|by auto]. split; [done|]. right. eexists. split; [done|].
  pose proof (dr_blocks _ _ _ Hr k rs Hk) as Hb. unfold file_block in Hb.
  destruct (Z.eqb_spec (file_addr s (im_disk_inode im) (Z.of_nat k)) 0) as [|Hne]; [done|].
  rewrite settled_view in Hb by (apply Hj; [lia|done]). done.
Qed.

(** The scan visits the records in order.  [I st k pre] holds before the record that
    follows [pre] in block [k] is visited. *)
Section Rule.
Context {St R : Type} (p : Z) (im : lsfs_inode_mem) (bs : list (list drec)).
Context (f : visitor St R) (io_error : St → R) (Q : R + St → lsfs_context → Prop).
Context (I : St → nat → list drec → Prop) (s0 : lsfs_context).
Hypothesis Hready : dir_ready s0 p im bs.
Hypothesis Hvisit : ∀ st (k : nat) pre r post blk s,
  io_same s0 s → bs !! k = Some (pre ++ r :: post) → block_recs (pre ++ r :: post) blk → I st k pre →
  wp (f st (Z.of_nat k) (LSFS_BLOCK_SIZE * Z.of_nat k + recs_size pre) (recs_size pre) blk (rec_de r))
    (λ v s', match v with
             | Return x => Q (inl x) s'
             | Break st' => Q (inr st') s'
             | Continue st' => io_same s0 s' ∧ I st' k (pre ++ [r])
             end) s.
Hypothesis Hnext : ∀ st (k : nat) rs, bs !! k = Some rs → I st k rs → I st (S k) [].
Hypothesis Hend : ∀ st s, io_same s0 s → I st (length bs) [] → Q (inr st) s.
Hypothesis Herr : ∀ st s, io_same s0 s → ¬ Healthy E → Q (inl (io_error st)) s.

Local Notation dir_size := (i_size (im_disk_inode im)) (only parsing).

(** The loop is at a record, or at the end of the directory. *)
Definition scan_at (k : nat) (pre post : list drec) : Prop :=
  (k = length bs ∧ pre = [] ∧ post = []) ∨ (post ≠ [] ∧ bs !! k = Some (pre ++ post)).

Lemma scan_start (k : nat) : (k <= length bs)%nat → ∃ post, scan_at k [] post.
Proof using Hready.
  intros Hk. destruct (bs !! k) as [rs|] eqn:Hrs.
  - exists rs. right. split; [|done]. intros ->.
    pose proof (br_length _ _ (dr_blocks _ _ _ (dd_repr _ _ _ _ Hready) k [] Hrs)) as H. done.
  - exists []. left. apply lookup_ge_None in Hrs. split_and!; try done. lia.
Qed.

Lemma scan_offset (k : nat) pre r post :
  bs !! k = Some (pre ++ r :: post) →
  let offset := LSFS_BLOCK_SIZE * Z.of_nat k + recs_size pre in
  0 <= recs_size pre < LSFS_BLOCK_SIZE ∧ offset < dir_size ∧ dir_size < 2 ^ 32 ∧
  offset / LSFS_BLOCK_SIZE = Z.of_nat k ∧ offset mod LSFS_BLOCK_SIZE = recs_size pre ∧
  offset + rec_size r <= dir_size ∧
  (post = [] → offset + rec_size r = LSFS_BLOCK_SIZE * Z.of_nat (S k)).
Proof using Hready.
  intros Hk offset. pose proof (dd_repr _ _ _ _ Hready) as Hr.
  destruct (at_room _ _ _ _ (dr_blocks _ _ _ Hr k _ Hk)) as [Hpre Hsum].
  pose proof (rec_size_pos r). pose proof (recs_size_nonneg post). pose proof (lookup_lt_Some _ _ _ Hk).
  pose proof (dr_max _ _ _ Hr) as Hmax. rewrite (dr_size _ _ _ Hr).
  unfold offset, LSFS_BLOCK_SIZE, file_blocks in *.
  assert (0 <= recs_size pre < 4096) as Hp by lia.
  split_and!; try lia; [| |intros ->; rewrite recs_size_nil in Hsum; lia].
  - symmetry. apply Z.div_unique_pos with (recs_size pre); lia.
  - symmetry. apply Z.mod_unique_pos with (Z.of_nat k); lia.
Qed.

Lemma dir_scan_wp fuel st (k : nat) pre post blk s :
  scan_at k pre post → io_same s0 s → I st k pre →
  (pre ≠ [] → block_recs (pre ++ post) blk) →
  dir_size - (LSFS_BLOCK_SIZE * Z.of_nat k + recs_size pre) < Z.of_nat fuel →
  wp (dir_scan fuel p dir_size io_error f st blk (LSFS_BLOCK_SIZE * Z.of_nat k + recs_size pre)) Q s.
Proof using Hready Hvisit Hnext Hend Herr.
  pose proof (dr_size _ _ _ (dd_repr _ _ _ _ Hready)) as Hds.
  revert st k pre post blk s. induction fuel as [|fuel IH]; intros st k pre post blk s Hat Hio HI Hblk Hfuel.
  { exfalso. destruct Hat as [(-> & -> & ->)|[Hne Hk]].
    - rewrite recs_size_nil in Hfuel. lia.
    - destruct post as [|r post]; [done|]. destruct (scan_offset _ _ _ _ Hk) as (_ & ? & _). lia. }
  cbn [dir_scan]. destruct Hat as [(-> & -> & ->)|[Hne Hk]].
  { rewrite recs_size_nil. rewrite (proj2 (Z.leb_le _ _)) by lia. apply wp_ret. by apply Hend. }
  destruct post as [|r post]; [done|].
  destruct (scan_offset _ _ _ _ Hk) as (Hpre & Hlt & Hmax & Hdiv & Hmod & Hend' & Hlast). cbv zeta.
  rewrite (proj2 (Z.leb_gt _ _)), Hdiv, Hmod by lia.
  assert (wp (if recs_size pre =? 0 then lsfs_inode_read_block p (Z.of_nat k) else mret (Ok blk))
    (λ got s', io_same s0 s' ∧ ((got = Err LSFS_ERR_IO ∧ ¬ Healthy E) ∨
       ∃ b, got = Ok b ∧ block_recs (pre ++ r :: post) b)) s) as Hread.
  { destruct (Z.eqb_spec (recs_size pre) 0) as [H0|H0].
    - eapply wp_mono; [apply (dir_read_wp s p im bs k); [by apply (dir_ready_io s0)|exact Hk]|].
      intros got s' [Hio' Hg]. split; [by eapply io_same_trans|done].
    - apply wp_ret. split; [done|]. right. exists blk. split; [done|]. apply Hblk. by intros ->. }
  wp_step. eapply wp_mono; [exact Hread|]. intros got s1 (Hio1 & [[-> Hh] | (b & -> & Hb)]).
  { apply wp_ret. by apply Herr. }
  wp_step. eapply wp_of_opt; [by apply (get_dirent_at pre post)|].
  wp_step. eapply wp_mono; [apply (Hvisit st k pre r post b s1); done|].
  intros [x|st'|st'] s2; [by intros; apply wp_ret| |by intros; apply wp_ret]. intros [Hio2 HI2].
  cbn [rec_de de_rec_len]. pose proof (rec_size_pos r) as Hpos.
  assert (0 <= LSFS_BLOCK_SIZE * Z.of_nat k) by (unfold LSFS_BLOCK_SIZE; lia). rewrite u64_small by lia.
  destruct post as [|r' post].
  - rewrite (Hlast eq_refl). replace (LSFS_BLOCK_SIZE * Z.of_nat (S k))
      with (LSFS_BLOCK_SIZE * Z.of_nat (S k) + recs_size []) by (rewrite recs_size_nil; lia).
    pose proof (lookup_lt_Some _ _ _ Hk). destruct (scan_start (S k)) as [post' Hat']; [lia|].
    eapply IH; [exact Hat'|done|by eapply Hnext|done|]. rewrite recs_size_nil. specialize (Hlast eq_refl). lia.
  - replace (LSFS_BLOCK_SIZE * Z.of_nat k + recs_size pre + rec_size r)
      with (LSFS_BLOCK_SIZE * Z.of_nat k + recs_size (pre ++ [r]))
      by (rewrite recs_size_app, recs_size_cons, recs_size_nil; lia).
    eapply (IH st' k (pre ++ [r]) (r' :: post)); [right; split; [done|]|done|done|..].
    + by rewrite <-app_assoc.
    + intros _. by rewrite <-app_assoc.
    + rewrite recs_size_app, recs_size_cons, recs_size_nil. lia.
Qed.

Lemma dir_scan_all st blk : I st 0 [] → wp (dir_scan (scan_fuel dir_size 0) p dir_size io_error f st blk 0) Q s0.
Proof using Hready Hvisit Hnext Hend Herr.
  intros HI. destruct (scan_start 0) as [post Hat]; [lia|].
  replace (dir_scan (scan_fuel dir_size 0) p dir_size io_error f st blk 0)
    with (dir_scan (scan_fuel dir_size 0) p dir_size io_error f st blk (LSFS_BLOCK_SIZE * Z.of_nat 0 + recs_size []))
    by done.
  eapply dir_scan_wp; [exact Hat|apply io_same_refl|done|done|].
  unfold scan_fuel. rewrite recs_size_nil. rewrite (dr_size _ _ _ (dd_repr _ _ _ _ Hready)). lia.
Qed.
End Rule.
End DirScan.

(** * What the scan has seen *)

Definition seen (bs : list (list drec)) (k : nat) (pre : list drec) : list (list Z * (Z * Z)) :=
  live_recs (concat (take k bs) ++ pre).

Lemma seen_nil bs : seen bs 0 [] = [].
Proof. done. Qed.

Lemma seen_snoc bs k pre r : seen bs k (pre ++ [r]) = seen bs k pre ++ live_recs [r].
Proof. unfold seen. by rewrite app_assoc, live_recs_app. Qed.

Lemma seen_block bs k rs : bs !! k = Some rs → seen bs (S k) [] = seen bs k rs.
Proof.
  intros Hk. unfold seen. rewrite (take_S_r _ _ _ Hk), concat_app. cbn [concat]. by rewrite !app_nil_r.
Qed.

Lemma seen_all bs : seen bs (length bs) [] = dir_entries bs.
Proof. unfold seen, dir_entries. by rewrite firstn_all, app_nil_r. Qed.

(** The entries of the directory around a record. *)
Lemma entries_at bs k pre new post :
  bs !! k = Some (pre ++ new ++ post) →
  dir_entries bs = seen bs k pre ++ live_recs new ++ live_recs (post ++ concat (drop (S k) bs)).
Proof.
  intros Hk. unfold dir_entries, seen. rewrite <-(take_drop_middle bs k _ Hk) at 1.
  rewrite concat_app. cbn [concat]. rewrite !live_recs_app, <-!app_assoc. done.
Qed.

Lemma live_single r : live_recs [r] = if r_ino r =? 0 then [] else [(r_name r, (r_ino r, r_type r))].
Proof. cbn. by destruct (r_ino r =? 0). Qed.

Section DirLookup.
Context `{E : Env}.
Implicit Types s : lsfs_context.

Lemma ask_io_same {A} (q : nat → A) s : wp (ask q) (λ _ s', io_same s s') s.
Proof. done. Qed.

Lemma lookup_visit_wp bs name (k : nat) pre r post blk s0 s :
  bs !! k = Some (pre ++ r :: post) → block_recs (pre ++ r :: post) blk → io_same s0 s →
  name ∉ (seen bs k pre).*1 →
  wp (lookup_visit name tt (Z.of_nat k) (LSFS_BLOCK_SIZE * Z.of_nat k + recs_size pre) (recs_size pre) blk (rec_de r))
    (λ v s', io_same s0 s' ∧ match v with
       | Return x => ∃ e, dir_map bs !! name = Some e ∧ x = Ok e
       | Break _ => False
       | Continue _ => name ∉ (seen bs k (pre ++ [r])).*1
       end) s.
Proof.
  intros Hk Hblk Hio Hno. unfold lookup_visit. cbn [rec_de de_rec_len de_ino de_file_type].
  pose proof (rec_size_pos r). destruct (at_room _ _ _ _ Hblk) as [Ho Hs]. pose proof (recs_size_nonneg post).
  rewrite (proj2 (Z.eqb_neq _ 0)), (proj2 (Z.ltb_ge _ _)) by lia. cbn [orb].
  wp_step. eapply wp_of_opt; [by apply matches_at with post|]. wp_step. split; [done|].
  rewrite seen_snoc, live_single. case_bool_decide as Hm.
  - destruct Hm as [Hne Hn]. exists (r_ino r, r_type r). split; [|done].
    unfold dir_map. rewrite (entries_at bs k pre [r] post Hk), live_single, (proj2 (Z.eqb_neq _ _) Hne).
    rewrite list_to_map_app, lookup_union_r by by apply not_elem_of_list_to_map_1.
    cbn. subst name. apply lookup_insert_eq.
  - rewrite fmap_app, elem_of_app. intros [?|Hin]; [done|].
    destruct (Z.eqb_spec (r_ino r) 0); cbn in Hin; [by apply elem_of_nil in Hin|].
    apply list_elem_of_singleton in Hin. naive_solver.
Qed.

Lemma dir_lookup_wp s p im bs name :
  dir_ready s p im bs → Z.of_nat (length name) <= LSFS_NAME_MAX →
  wp (lsfs_dir_lookup p name) (λ r s', io_same s s' ∧
    ((r = Err LSFS_ERR_IO ∧ ¬ Healthy E) ∨
     r = match dir_map bs !! name with Some e => Ok e | None => Err LSFS_ERR_NOENT end)) s.
Proof.
  intros Hr Hn. unfold lsfs_dir_lookup. wp_step. eapply wp_mono; [apply ask_io_same|]. intros junk s1 Hio1.
  pose proof (dir_ready_io _ _ _ _ _ Hio1 Hr) as Hr1.
  wp_step. eapply wp_intro; [apply load_inode_run, (dd_inode _ _ _ _ Hr1)|].
  rewrite (dr_mode _ _ _ (dd_repr _ _ _ _ Hr)). cbn [negb].
  rewrite (proj2 (Z.ltb_ge _ _) Hn). wp_step.
  eapply wp_mono; [apply (dir_scan_all p im bs _ _ (λ r s', io_same s s' ∧ match r with
      | inl x => (x = Err LSFS_ERR_IO ∧ ¬ Healthy E) ∨ ∃ e, dir_map bs !! name = Some e ∧ x = Ok e
      | inr _ => dir_map bs !! name = None end) (λ _ k pre, name ∉ (seen bs k pre).*1) s1 Hr1)|].
  - intros [] k pre r post blk s2 Hio2 Hk Hblk Hno.
    eapply wp_mono; [by apply (lookup_visit_wp bs name k pre r post blk s1)|].
    intros [x|[]|[]] s3 [Hio3 Hv]; [|done|done]. split; [exact (io_same_trans _ _ _ Hio1 Hio3)|]. by right.
  - intros st k rs Hk. by rewrite (seen_block bs k rs).
  - intros st s2 Hio2 Hno. split; [exact (io_same_trans _ _ _ Hio1 Hio2)|]. rewrite seen_all in Hno.
    by apply not_elem_of_list_to_map_1.
  - intros [] s2 Hio2 Hh. split; [exact (io_same_trans _ _ _ Hio1 Hio2)|]. by left.
  - rewrite seen_nil. apply not_elem_of_nil.
  - intros [x|[]] s2 [Hio2 Hx]; wp_step; (split; [done|]).
    + destruct Hx as [? | (e & -> & ->)]; auto.
    + rewrite Hx. auto.
Qed.
End DirLookup.

(** * Changing a directory *)

Section DirUpdate.
Context `{E : Env}.
Implicit Types s : lsfs_context.

(** The directory was not changed, only blocks appended to the log. *)
Definition dir_unchanged s s' : Prop :=
  kept 2 s s' ∧ log_frame s s'.

(** A call failed with an I/O error: without faults and on an image that can be written
    only because of [why]. *)
Definition dir_failed s (why : Prop) s' : Prop := dir_unchanged s s' ∧ excused s why.

(** The directory cached at [p] now has the records [bs']. *)
Definition dir_updated s p (bs' : list (list drec)) s' : Prop :=
  kept 2 s s' ∧ edits p s s' ∧
  ∃ im', ic_heap (c_icache s') !! p = Some im' ∧ im_dirty im' = true ∧
    file_wf s' (im_disk_inode im') ∧ dir_repr s' (im_disk_inode im') bs'.

Lemma dir_updated_io s0 s p bs' s' : log_wf s0 → io_same s0 s → dir_updated s p bs' s' → dir_updated s0 p bs' s'.
Proof.
  intros Hs0 Hio (Hk & Hed & Hr). pose proof (io_same_kept _ _ Hs0 Hio) as Hk0.
  split_and!; [exact (kept_trans 0 2 _ _ _ Hk0 Hk)| |done]. etrans; [|exact Hed]. by apply log_frame_edits, io_same_frame.
Qed.

Lemma dir_unchanged_io s0 s s' : log_wf s0 → io_same s0 s → dir_unchanged s s' → dir_unchanged s0 s'.
Proof.
  intros Hs0 Hio [Hk Hf]. pose proof (io_same_kept _ _ Hs0 Hio) as Hk0.
  split; [exact (kept_trans 0 2 _ _ _ Hk0 Hk)|]. by eapply log_frame_trans, Hf; apply io_same_frame.
Qed.

Lemma dir_failed_io s0 s why s' : log_wf s0 → io_same s0 s → dir_failed s why s' → dir_failed s0 why s'.
Proof.
  intros Hs0 Hio [Hu Hx]. split; [by eapply dir_unchanged_io|].
  by eapply excused_mono; [exact Hx|apply (lf_readonly _ _ (io_same_frame _ _ Hio))|].
Qed.

(** A read failed. *)
Lemma read_failed s s' why : log_wf s → io_same s s' → ¬ Healthy E → dir_failed s why s'.
Proof.
  intros Hs Hio Hh. split; [|intros ?; done]. split; [apply (kept_mono 0); [done|by apply io_same_kept]|by apply io_same_frame].
Qed.

Lemma io_same_unchanged s s' : log_wf s → io_same s s' → dir_unchanged s s'.
Proof.
  intros Hs Hio. split; [apply (kept_mono 0); [done|by apply io_same_kept]|by apply io_same_frame].
Qed.

(** The time stamps do not matter to the contents. *)
Lemma touch_dir_wp s0 s p bs' :
  dir_updated s0 p bs' s → wp (touch_dir p) (λ _ s', dir_updated s0 p bs' s') s.
Proof.
  intros (Hk & Hed & im' & Hp & Hd & Hw & [? ? ? Hb]). unfold touch_dir, lsfs_get_time_ns.
  wp_step. wp_step. eapply wp_mono; [apply ask_io_same|]. intros ts s1 Hio. wp_step.
  pose proof (proj1 Hk) as Hs. pose proof (io_same_kept s s1 Hs Hio) as Hk1.
  eapply wp_intro; [apply (upd_inode_run s1 p im'); by rewrite (io_same_icache _ _ Hio)|].
  pose proof (file_wf_grows s s1 _ Hw (proj1 (proj2 Hk1))) as Hw1.
  split_and!; [apply kept_with_inode; exact (kept_trans 2 0 _ _ _ Hk Hk1)| |].
  - apply (edits_inode p s0 s1 im'); [|by rewrite (io_same_icache _ _ Hio)|].
    { etrans; [exact Hed|]. by apply log_frame_edits, io_same_frame. }
    split_and!; [done..|]. cbn. intros Hdw. destruct_and! Hdw. split_and!; try assumption; apply u64_range.
  - eexists. split_and!; [apply with_inode_lookup|done|destruct Hw1 as [? ? ? ?]; by split|].
    split; [done|done|done|]. intros k rs Hrs.
    change (block_recs rs (file_block s1 (im_disk_inode im') (Z.of_nat k))).
    rewrite (io_same_block s s1) by done. by apply Hb.
Qed.

Lemma dir_repr_replace s s' i i' bs (k : nat) rs' blk' :
  dir_repr s i bs → (k < length bs)%nat → block_recs rs' blk' → same_meta i i' →
  (∀ j, 0 <= j < file_blocks → file_block s' i' j = if decide (j = Z.of_nat k) then blk' else file_block s i j) →
  dir_repr s' i' (<[k := rs']> bs).
Proof.
  intros [Hm Hsz Hmax Hb] Hk Hblk (_ & Hm' & Hs' & _) Hf. split.
  - by rewrite Hm'.
  - by rewrite Hs', length_insert.
  - by rewrite length_insert.
  - intros j rs Hj. pose proof (lookup_lt_Some _ _ _ Hj) as Hlt. rewrite length_insert in Hlt.
    rewrite Hf by lia. destruct (decide (j = k)) as [->|Hne].
    + rewrite list_lookup_insert_eq in Hj by done. injection Hj as <-. by rewrite decide_True.
    + rewrite list_lookup_insert_ne in Hj by done. rewrite decide_False by lia. by apply Hb.
Qed.

Lemma dir_write_wp s p im bs idx blk' :
  dir_held s p im bs → 1 < st_free_count (c_segtable s) → 0 <= idx → is_block blk' →
  wp (lsfs_inode_write_block p idx blk') (block_written s p im idx blk') s.
Proof.
  intros [Hs Hp Hw Hi _] Hfree Hidx Hblk. by apply inode_write_block_wp.
Qed.

Lemma commit_block_wp s p im bs (k : nat) rs' blk' :
  dir_held s p im bs → 1 < st_free_count (c_segtable s) → (k < length bs)%nat → block_recs rs' blk' →
  wp (commit_block p (Z.of_nat k) blk') (λ r s',
    (r = LSFS_ERR_IO ∧ dir_failed s False s') ∨ (r = LSFS_OK ∧ dir_updated s p (<[k := rs']> bs) s')) s.
Proof.
  intros Hr Hfree Hk Hblk. unfold commit_block. wp_step.
  eapply wp_mono; [apply (dir_write_wp s p im bs); [done..|lia|by eapply block_recs_is_block]|].
  intros r s1 (Hk1 & Hed & Hbad & Hgood). cbv beta. destruct (Z.eqb_spec r LSFS_OK) as [->|Hne]; cbn [negb].
  2:{ apply wp_ret. left. split; [done|]. destruct (Hbad Hne) as [Hf Hx]. split; [by split|].
      eapply excused_mono; [exact Hx|done|]. pose proof (dr_max _ _ _ (dh_repr _ _ _ _ Hr)). lia. }
  destruct (Hgood eq_refl) as (_ & im' & Hp' & Hd & Hmeta & Hw & Hb).
  wp_step. eapply wp_mono; [apply (touch_dir_wp s s1 p (<[k := rs']> bs))|].
  - split_and!; [done|done|]. exists im'. split_and!; [done|done|done|].
    eapply dir_repr_replace; [apply (dh_repr _ _ _ _ Hr)|done|exact Hblk|done|exact Hb].
  - intros u s2 Hu. apply wp_ret. by right.
Qed.

Lemma entries_replace bs (k : nat) pre r post new :
  bs !! k = Some (pre ++ r :: post) →
  dir_entries (<[k := pre ++ new ++ post]> bs) =
    seen bs k pre ++ live_recs new ++ live_recs (post ++ concat (drop (S k) bs)).
Proof.
  intros Hk. pose proof (lookup_lt_Some _ _ _ Hk) as Hlt.
  rewrite (entries_at _ k pre new post) by by apply list_lookup_insert_eq.
  unfold seen. by rewrite take_insert_ge, drop_insert_lt by lia.
Qed.

(** ** Adding *)

Section Add.
Variables (p : Z) (im : lsfs_inode_mem) (bs : list (list drec)) (name : list Z) (ino ty : Z).
Hypothesis Hname : name_ok name.
Hypothesis Hino : 0 < ino < 2 ^ 32.
Hypothesis Hty : is_u8 ty.

(** An entry was added, or the directory is as before. *)
Definition added s (r : Z) s' : Prop :=
  (r = LSFS_ERR_IO ∧ dir_failed s (file_blocks <= Z.of_nat (length bs)) s') ∨
  (r = LSFS_OK ∧ ∃ bs', dir_updated s p bs' s' ∧ dir_entries bs' ≡ₚ (name, (ino, ty)) :: dir_entries bs).

Lemma added_io s0 s r s' : log_wf s0 → io_same s0 s → added s r s' → added s0 r s'.
Proof using Type.
  intros Hs0 Hio [[-> Hu]|(-> & bs' & Hu & He)].
  - left. split; [done|by eapply dir_failed_io].
  - right. split; [done|]. exists bs'. split; [by eapply dir_updated_io|done].
Qed.

Lemma needed_name : dirent_size (u8 (Z.of_nat (length name))) = dirent_size (Z.of_nat (length name)).
Proof using Hname. by rewrite (name_u8 name Hname). Qed.

Lemma add_visit_wp s (k : nat) pre r post blk :
  dir_ready s p im bs → 1 < st_free_count (c_segtable s) →
  bs !! k = Some (pre ++ r :: post) → block_recs (pre ++ r :: post) blk →
  wp (add_visit p name (dirent_size (Z.of_nat (length name))) ino ty tt (Z.of_nat k)
        (LSFS_BLOCK_SIZE * Z.of_nat k + recs_size pre) (recs_size pre) blk (rec_de r))
    (λ v s', match v with
       | Return x => added s x s'
       | Break _ => False
       | Continue _ => s' = s
       end) s.
Proof using Hname Hino Hty.
  intros Hr Hfree Hk Hblk. pose proof (lookup_lt_Some _ _ _ Hk) as Hlt. unfold add_visit. wp_step.
  destruct (add_slot_at pre post r blk name ino ty Hblk Hname Hino Hty)
    as [Hslot|(new & blk' & Hslot & Hblk' & Hlive)]; (eapply wp_of_opt; [exact Hslot|]); [by apply wp_ret|].
  cbv beta iota. wp_step. eapply wp_mono; [apply (commit_block_wp s p im bs k (pre ++ new ++ post)); [by apply dir_ready_held|done..]|].
  intros x s' [[-> [Hu Hx]]|[-> Hu]]; wp_step.
  { left. split; [done|]. split; [done|]. by eapply excused_mono. }
  right. split; [done|]. eexists. split; [exact Hu|]. rewrite (entries_replace bs k pre r post new Hk).
  rewrite (entries_at bs k pre [r] post Hk), Hlive. cbn [app]. by rewrite <-Permutation_middle.
Qed.

(** The block of a new entry at the end of the directory. *)
Lemma new_dir_block :
  ∃ blk r, put_entry zero_block 0 LSFS_BLOCK_SIZE ino ty name = Some blk ∧ block_recs [r] blk ∧
    live_recs [r] = [(name, (ino, ty))].
Proof using Hname Hino Hty.
  pose proof (nk_length _ Hname) as Hl. unfold LSFS_NAME_MAX in Hl.
  pose proof (dirent_size_bounds (Z.of_nat (length name)) ltac:(lia)) as Hd.
  set (m := (Z.to_nat 4088 - length name)%nat).
  assert (zero_block = [] ++ replicate 8 0 ++ replicate (length name) 0 ++ replicate m 0) as Hz.
  { unfold zero_block. rewrite app_nil_l, <-!replicate_add. f_equal. unfold LSFS_BLOCK_SIZE, m. lia. }
  assert (rec_size (mk_drec ino ty name (replicate m 0)) = LSFS_BLOCK_SIZE) as Hsz.
  { unfold rec_size. cbn [r_name r_pad]. rewrite length_replicate. unfold LSFS_BLOCK_SIZE, m. lia. }
  eexists _, (mk_drec ino ty name (replicate m 0)). split_and!.
  - rewrite Hz. rewrite put_entry_app; [done|done|done|by rewrite length_replicate|].
    rewrite <-Hz. unfold zero_block. rewrite length_replicate. done.
  - split.
    + rewrite app_nil_l, recs_bytes_cons. unfold rec_bytes, rec_de. rewrite Hsz, (name_u8 name Hname).
      cbn [r_ino r_type r_name r_pad]. by rewrite app_nil_r.
    + constructor; [|done]. apply fresh_wf; try done; [apply zeros_bytes|]. rewrite Hsz.
      unfold LSFS_BLOCK_SIZE. lia.
    + rewrite recs_size_cons, Hsz. done.
  - by apply live_fresh.
Qed.

Lemma extend_dir_wp s :
  dir_ready s p im bs → 1 < st_free_count (c_segtable s) →
  wp (let new_block_idx := i_size (im_disk_inode im) / LSFS_BLOCK_SIZE in
      block ← of_opt (put_entry zero_block 0 LSFS_BLOCK_SIZE ino ty name);
      w ← lsfs_inode_write_block p new_block_idx block;
      if negb (w =? LSFS_OK) then mret LSFS_ERR_IO else
      _ ← upd_disk_inode p (λ d, d <| i_size := u64 ((new_block_idx + 1) * LSFS_BLOCK_SIZE) |>);
      _ ← touch_dir p;
      mret LSFS_OK) (added s) s.
Proof using Hname Hino Hty.
  intros Hr Hfree. pose proof (dd_repr _ _ _ _ Hr) as Hrep. pose proof (dr_max _ _ _ Hrep) as Hmax.
  destruct new_dir_block as (blk & rc & Hput & Hblk & Hlive). cbv zeta.
  rewrite (dr_size _ _ _ Hrep). rewrite (Z.mul_comm LSFS_BLOCK_SIZE), Z.div_mul by done.
  wp_step. eapply wp_of_opt; [exact Hput|]. wp_step.
  eapply wp_mono; [apply (dir_write_wp s p im bs); [by apply dir_ready_held|done|lia|by eapply block_recs_is_block]|].
  intros w s1 (Hk1 & Hed & Hbad & Hgood). cbv beta. destruct (Z.eqb_spec w LSFS_OK) as [->|Hne]; cbn [negb].
  2:{ apply wp_ret. left. split; [done|]. destruct (Hbad Hne) as [Hf Hx]. by split; [split|]. }
  destruct (Hgood eq_refl) as (Hidx & im' & Hp' & Hd & (_ & Hmode & Hsize & _) & Hw & Hb).
  wp_step. eapply wp_intro; [by apply upd_disk_inode_run|].
  unfold LSFS_BLOCK_SIZE, file_blocks in *. rewrite u64_small by lia.
  wp_step. eapply wp_mono; [apply (touch_dir_wp s _ p (bs ++ [[rc]]))|].
  - split_and!; [by apply kept_with_inode| |].
    { eapply edits_inode; [exact Hed|exact Hp'|]. split_and!; [done..|]. cbn. intros Hdw.
      destruct_and! Hdw. split_and!; try assumption; unfold is_u64; lia. }
    eexists. split_and!; [apply with_inode_lookup|done|destruct Hw as [? ? ? ?]; by split|].
    split; cbn [im_disk_inode field_set i_mode i_size].
    + rewrite Hmode. apply Hrep.
    + rewrite length_app. cbn [length]. unfold LSFS_BLOCK_SIZE. lia.
    + rewrite length_app. cbn [length]. unfold file_blocks. lia.
    + intros k rs Hk. change (block_recs rs (file_block s1 (im_disk_inode im') (Z.of_nat k))).
      pose proof (lookup_lt_Some _ _ _ Hk) as Hlt. rewrite length_app in Hlt. cbn [length] in Hlt.
      rewrite Hb by lia. case_decide as Hke.
      * assert (k = length bs) as -> by lia. rewrite list_lookup_middle in Hk by done. by injection Hk as <-.
      * rewrite lookup_app_l in Hk by lia. by apply (dr_blocks _ _ _ Hrep).
  - intros u s2 Hu. apply wp_ret. right. split; [done|]. eexists. split; [exact Hu|].
    unfold dir_entries. rewrite concat_app, live_recs_app. cbn [concat]. rewrite app_nil_r, Hlive.
    by rewrite Permutation_app_comm.
Qed.

Lemma dir_add_wp s :
  dir_ready s p im bs → 1 < st_free_count (c_segtable s) →
  wp (lsfs_dir_add p name ino ty) (λ r s',
    (r = LSFS_ERR_EXIST ∧ is_Some (dir_map bs !! name) ∧ dir_unchanged s s') ∨
    ((Healthy E → dir_map bs !! name = None) ∧ added s r s')) s.
Proof using Hname Hino Hty.
  intros Hr Hfree. pose proof (dd_log _ _ _ _ Hr) as Hs. pose proof (nk_length _ Hname) as Hl.
  unfold lsfs_dir_add. wp_step. eapply wp_mono; [apply ask_io_same|]. intros junk s1 Hio1.
  pose proof (dir_ready_io _ _ _ _ _ Hio1 Hr) as Hr1.
  wp_step. eapply wp_intro; [apply load_inode_run, (dd_inode _ _ _ _ Hr1)|].
  rewrite (dr_mode _ _ _ (dd_repr _ _ _ _ Hr)). cbn [negb]. rewrite (proj2 (Z.ltb_ge _ _) Hl), needed_name.
  wp_step. eapply wp_mono; [by apply (dir_lookup_wp s1 p im bs)|]. intros e s2 [Hio2 He].
  pose proof (io_same_trans _ _ _ Hio1 Hio2) as Hio. pose proof (dir_ready_io _ _ _ _ _ Hio2 Hr1) as Hr2.
  destruct e as [e|e].
  { apply wp_ret. left. split; [done|]. split; [|by apply io_same_unchanged].
    destruct (dir_map bs !! name); [done|]. by destruct He as [[? _]|?]. }
  assert (Healthy E → dir_map bs !! name = None) as Hnone.
  { intros Hh. destruct (dir_map bs !! name); [|done]. by destruct He as [[_ ?]|?]. }
  assert (∀ s3, io_same s2 s3 → io_same s s3 ∧ dir_ready s3 p im bs ∧ 1 < st_free_count (c_segtable s3)) as Hall.
  { intros s3 Hio3. pose proof (io_same_trans _ _ _ Hio Hio3) as Hio03. split; [done|].
    split; [by apply (dir_ready_io s)|]. pose proof Hio03 as [Hf _]. by rewrite Hf. }
  wp_step. eapply wp_mono; [apply (dir_scan_all p im bs _ _ (λ r s', match r with
      | inl x => added s x s'
      | inr _ => io_same s2 s' end) (λ _ _ _, True) s2 Hr2)|]; try done.
  - intros [] k pre r post blk s3 Hio3 Hk Hblk _. destruct (Hall s3 Hio3) as (Hio03 & Hr3 & Hf3).
    eapply wp_mono; [by apply (add_visit_wp s3 k pre r post)|].
    intros [x|[]|[]] s4; [by apply added_io|by intros ->|done].
  - intros [] s3 Hio3 Hh. left. split; [done|]. apply read_failed; [done|apply Hall, Hio3|done].
  - intros [x|[]] s3 Hx; [by apply wp_ret; right; split|]. destruct (Hall s3 Hx) as (Hio03 & Hr3 & Hf3).
    eapply wp_mono; [by apply extend_dir_wp|]. intros r s4 Ha. right. split; [done|by eapply added_io].
Qed.
End Add.

(** ** Removing *)

(** The first entry with the name was removed. *)
Definition removed s p bs name (r : Z) s' : Prop :=
  (r = LSFS_ERR_IO ∧ dir_failed s False s') ∨
  (r = LSFS_OK ∧ ∃ bs' l1 e l2, dir_updated s p bs' s' ∧ dir_entries bs = l1 ++ (name, e) :: l2 ∧
     name ∉ l1.*1 ∧ dir_entries bs' = l1 ++ l2).

Lemma removed_io s0 s p bs name r s' :
  log_wf s0 → io_same s0 s → removed s p bs name r s' → removed s0 p bs name r s'.
Proof.
  intros Hs0 Hio [[-> Hu]|(-> & bs' & l1 & e & l2 & Hu & He)].
  - left. split; [done|by eapply dir_failed_io].
  - right. split; [done|]. exists bs', l1, e, l2. split; [by eapply dir_updated_io|done].
Qed.

(** [prev] is the record before the one to be visited, when there is one in the block. *)
Definition prev_ok (prev : option (Z * Z)) (k : nat) (pre : list drec) : Prop :=
  ∀ pre' q, pre = pre' ++ [q] → prev = Some (recs_size pre', Z.of_nat k).

(** The change that [remove_visit] makes to the block. *)
Lemma remove_block pre r post blk prev (k : nat) :
  block_recs (pre ++ r :: post) blk → prev_ok prev k pre → r_ino r ≠ 0 →
  let prev := if recs_size pre =? 0 then None else prev in
  ∃ blk' rs', match match prev with
                    | Some (prev_off, prev_idx) => if prev_idx =? Z.of_nat k then Some prev_off else None
                    | None => None
                    end with
              | Some prev_off =>
                  prev_de ← get_dirent blk prev_off;
                  put_dirent blk prev_off (prev_de <| de_rec_len ::= λ n, u16 (n + de_rec_len (rec_de r)) |>)
              | None => put_dirent blk (recs_size pre) (rec_de r <| de_ino := 0 |>)
              end = Some blk' ∧ block_recs rs' blk' ∧ live_recs rs' = live_recs pre ++ live_recs post.
Proof.
  intros Hblk Hprev Hne prev'. destruct pre as [|q pre _] using rev_ind.
  - destruct (delete_at [] r post blk Hblk) as (Hput & Hrs & Hlive).
    eexists _, _. split_and!; [exact Hput|exact Hrs|].
    change ([] ++ ?x :: post) with ([x] ++ post). by rewrite live_recs_app, Hlive.
  - unfold prev'. rewrite recs_size_app, recs_size_cons, recs_size_nil.
    pose proof (rec_size_pos q). pose proof (recs_size_nonneg pre). rewrite (proj2 (Z.eqb_neq _ 0)) by lia.
    rewrite (Hprev pre q eq_refl), Z.eqb_refl. rewrite <-app_assoc in Hblk. cbn [app] in Hblk.
    rewrite (get_dirent_at pre (r :: post) q blk Hblk). cbn [mbind option_bind].
    destruct (merge_at pre q r post blk Hblk) as (Hput & Hrs & Hlive).
    eexists _, _. split_and!; [exact Hput|exact Hrs|].
    change (pre ++ ?x :: post) with (pre ++ [x] ++ post). by rewrite !live_recs_app, Hlive, <-app_assoc.
Qed.

Lemma remove_visit_wp s p im bs name prev (k : nat) pre r post blk :
  dir_ready s p im bs → 1 < st_free_count (c_segtable s) →
  bs !! k = Some (pre ++ r :: post) → block_recs (pre ++ r :: post) blk →
  name ∉ (seen bs k pre).*1 → prev_ok prev k pre →
  wp (remove_visit p name prev (Z.of_nat k) (LSFS_BLOCK_SIZE * Z.of_nat k + recs_size pre) (recs_size pre) blk
        (rec_de r))
    (λ v s', match v with
       | Return x => removed s p bs name x s'
       | Break _ => False
       | Continue prev' => s' = s ∧ name ∉ (seen bs k (pre ++ [r])).*1 ∧ prev_ok prev' k (pre ++ [r])
       end) s.
Proof.
  intros Hr Hfree Hk Hblk Hno Hprev. pose proof (lookup_lt_Some _ _ _ Hk) as Hlt. unfold remove_visit.
  pose proof (rec_size_pos r) as Hpos. change (de_rec_len (rec_de r)) with (rec_size r) at 1.
  rewrite (proj2 (Z.eqb_neq _ 0)) by lia.
  wp_step. eapply wp_of_opt; [by apply matches_at with post|]. case_bool_decide as Hm.
  - destruct Hm as [Hne Hn]. destruct (remove_block pre r post blk prev k Hblk Hprev Hne) as (blk' & rs' & Hput & Hrs & Hlive).
    wp_step. eapply wp_of_opt; [exact Hput|].
    wp_step. eapply wp_mono; [apply (commit_block_wp s p im bs k rs'); [by apply dir_ready_held|done..]|].
    intros x s' [[-> Hu]|[-> Hu]]; wp_step; [by left|]. right. split; [done|].
    exists (<[k := rs']> bs), (seen bs k pre), (r_ino r, r_type r), (live_recs (post ++ concat (drop (S k) bs))).
    split_and!; [exact Hu| |done|].
    + rewrite (entries_at bs k pre [r] post Hk), live_single, (proj2 (Z.eqb_neq _ _) Hne). by rewrite Hn.
    + rewrite (entries_at _ k [] rs' []) by (rewrite app_nil_r; by apply list_lookup_insert_eq).
      rewrite drop_insert_lt by lia. unfold seen. rewrite take_insert_ge by lia.
      rewrite Hlive, !live_recs_app, <-!app_assoc. done.
  - wp_step. split_and!; [done| |].
    + rewrite seen_snoc, live_single, fmap_app, elem_of_app. intros [?|Hin]; [done|].
      destruct (Z.eqb_spec (r_ino r) 0); cbn in Hin; [by apply elem_of_nil in Hin|].
      apply list_elem_of_singleton in Hin. naive_solver.
    + intros pre' q Heq. apply app_inj_tail in Heq as [-> _]. done.
Qed.

Lemma dir_remove_wp s p im bs name :
  dir_ready s p im bs → 1 < st_free_count (c_segtable s) →
  wp (lsfs_dir_remove p name) (λ r s',
    (r = LSFS_ERR_NOENT ∧ dir_map bs !! name = None ∧ dir_unchanged s s') ∨ removed s p bs name r s') s.
Proof.
  intros Hr Hfree. pose proof (dd_log _ _ _ _ Hr) as Hs.
  unfold lsfs_dir_remove. wp_step. eapply wp_mono; [apply ask_io_same|]. intros junk s1 Hio1.
  pose proof (dir_ready_io _ _ _ _ _ Hio1 Hr) as Hr1.
  wp_step. eapply wp_intro; [apply load_inode_run, (dd_inode _ _ _ _ Hr1)|].
  rewrite (dr_mode _ _ _ (dd_repr _ _ _ _ Hr)). cbn [negb].
  assert (∀ s3, io_same s1 s3 → io_same s s3 ∧ dir_ready s3 p im bs ∧ 1 < st_free_count (c_segtable s3)) as Hall.
  { intros s3 Hio3. pose proof (io_same_trans _ _ _ Hio1 Hio3) as Hio03. split; [done|].
    split; [by apply (dir_ready_io s)|]. pose proof Hio03 as [Hf _]. by rewrite Hf. }
  wp_step. eapply wp_mono; [apply (dir_scan_all p im bs _ _ (λ r s', match r with
      | inl x => removed s p bs name x s'
      | inr _ => io_same s1 s' ∧ dir_map bs !! name = None end)
      (λ prev k pre, name ∉ (seen bs k pre).*1 ∧ prev_ok prev k pre) s1 Hr1)|].
  - intros prev k pre r post blk s3 Hio3 Hk Hblk [Hno Hprev]. destruct (Hall s3 Hio3) as (Hio03 & Hr3 & Hf3).
    eapply wp_mono; [by apply (remove_visit_wp s3 p im bs name prev k pre r post)|].
    intros [x|prev'|prev'] s4; [by apply removed_io|by intros (-> & ? & ?)|done].
  - intros prev k rs Hk [Hno Hprev]. rewrite (seen_block bs k rs) by done. split; [done|].
    intros pre' q Heq. by destruct pre'.
  - intros prev s3 Hio3 [Hno _]. rewrite seen_all in Hno. split; [done|]. by apply not_elem_of_list_to_map_1.
  - intros ? s3 Hio3 Hh. left. split; [done|]. apply read_failed; [done|apply Hall, Hio3|done].
  - rewrite seen_nil. split; [apply not_elem_of_nil|]. intros pre' q Heq. by destruct pre'.
  - intros [x|prev] s3; [by intros; apply wp_ret; right|]. intros [Hio3 Hnone]. apply wp_ret. left.
    split_and!; [done..|]. apply io_same_unchanged; [done|apply Hall, Hio3].
Qed.

(** ** Emptiness *)

Definition dot_name (name : list Z) : bool := bool_decide (name = [dot] ∨ name = [dot; dot]).

(** The names other than [.] and [..] *)
Definition other_names (l : list (list Z * (Z * Z))) : list (list Z * (Z * Z)) :=
  filter (λ e, dot_name e.1 = false) l.

Lemma name_byte_at pre r post blk (j : nat) b :
  block_recs (pre ++ r :: post) blk → r_name r !! j = Some b →
  name_byte blk (recs_size pre) (Z.of_nat j) = Some b.
Proof.
  intros Hblk Hj. destruct (at_room _ _ _ _ Hblk) as [Ho Hs]. pose proof (recs_size_nonneg post).
  pose proof (lookup_lt_Some _ _ _ Hj) as Hlt. unfold rec_size in Hs.
  unfold name_byte, in_block. change (Z.of_nat (sizeof lsfs_dirent)) with 8.
  rewrite !(proj2 (Z.leb_le _ _)) by lia. cbn [andb].
  apply arr_get_lookup. split; [lia|]. rewrite (at_bytes _ _ _ _ Hblk). unfold rec_bytes. rewrite <-!app_assoc.
  replace (Z.to_nat (recs_size pre + 8 + Z.of_nat j)) with (length (recs_bytes pre) + (8 + j))%nat
    by (unfold recs_size; lia).
  rewrite lookup_app_r by lia. replace (_ + (8 + j) - _)%nat with (8 + j)%nat by lia.
  rewrite lookup_app_r by (rewrite length_enc_de; lia). rewrite length_enc_de.
  replace (8 + j - 8)%nat with j by lia. by rewrite lookup_app_l.
Qed.

Lemma is_dot_entry_at pre r post blk :
  block_recs (pre ++ r :: post) blk →
  is_dot_entry blk (recs_size pre) (rec_de r) = Some (dot_name (r_name r)).
Proof.
  intros Hblk. pose proof (name_byte_at pre r post blk) as Hb. unfold is_dot_entry, dot_name.
  cbn [rec_de de_name_len]. destruct (r_name r) as [|b0 [|b1 [|b2 n]]].
  - done.
  - cbn [length Z.of_nat Z.eqb Pos.of_succ_nat Pos.eqb]. pose proof (Hb 0%nat b0 Hblk eq_refl) as H0. change (Z.of_nat 0) with 0 in H0. rewrite H0. cbn.
    f_equal. destruct (Z.eqb_spec b0 dot) as [->|]; [by rewrite bool_decide_true by auto|].
    rewrite bool_decide_false; naive_solver.
  - cbn [length Z.of_nat Z.eqb Pos.of_succ_nat Pos.succ Pos.eqb]. pose proof (Hb 0%nat b0 Hblk eq_refl) as H0. change (Z.of_nat 0) with 0 in H0. rewrite H0. cbn.
    destruct (Z.eqb_spec b0 dot) as [->|]; [|f_equal; rewrite bool_decide_false; naive_solver].
    pose proof (Hb 1%nat b1 Hblk eq_refl) as H1. change (Z.of_nat 1) with 1 in H1. rewrite H1. cbn. f_equal.
    destruct (Z.eqb_spec b1 dot) as [->|]; [by rewrite bool_decide_true by auto|].
    rewrite bool_decide_false; naive_solver.
  - cbn [length]. rewrite (proj2 (Z.eqb_neq _ 1)), (proj2 (Z.eqb_neq _ 2)) by lia.
    f_equal. symmetry. apply bool_decide_false. naive_solver.
Qed.

Lemma count_visit_wp bs c (k : nat) pre r post blk s :
  bs !! k = Some (pre ++ r :: post) → block_recs (pre ++ r :: post) blk →
  c = Z.of_nat (length (other_names (seen bs k pre))) →
  wp (count_visit c (Z.of_nat k) (LSFS_BLOCK_SIZE * Z.of_nat k + recs_size pre) (recs_size pre) blk (rec_de r))
    (λ v s', match v with
       | Continue c' => s' = s ∧ c' = Z.of_nat (length (other_names (seen bs k (pre ++ [r]))))
       | _ => False
       end) s.
Proof.
  intros Hk Hblk ->. unfold count_visit. cbn [rec_de de_rec_len de_ino]. pose proof (rec_size_pos r).
  rewrite (proj2 (Z.eqb_neq _ 0)) by lia. rewrite seen_snoc, live_single. unfold other_names.
  rewrite filter_app, length_app. destruct (Z.eqb_spec (r_ino r) 0).
  - apply wp_ret. split; [done|]. cbn. lia.
  - wp_step. eapply wp_of_opt; [by apply (is_dot_entry_at pre r post)|]. wp_step. split; [done|].
    rewrite filter_cons, filter_nil. cbn [fst]. destruct (dot_name (r_name r));
      case_decide; try done; cbn [length]; lia.
Qed.

Lemma dir_is_empty_wp s p im bs :
  dir_ready s p im bs →
  wp (lsfs_dir_is_empty p) (λ r s', io_same s s' ∧
    ((r = LSFS_ERR_IO ∧ ¬ Healthy E) ∨ r = if decide (other_names (dir_entries bs) = []) then LSFS_OK else LSFS_ERR_NOTEMPTY)) s.
Proof.
  intros Hr. unfold lsfs_dir_is_empty. wp_step. eapply wp_mono; [apply ask_io_same|]. intros junk s1 Hio1.
  pose proof (dir_ready_io _ _ _ _ _ Hio1 Hr) as Hr1.
  wp_step. eapply wp_intro; [apply load_inode_run, (dd_inode _ _ _ _ Hr1)|].
  rewrite (dr_mode _ _ _ (dd_repr _ _ _ _ Hr)). cbn [negb]. wp_step.
  eapply wp_mono; [apply (dir_scan_all p im bs _ _ (λ r s', io_same s s' ∧ match r with
      | inl x => x = LSFS_ERR_IO ∧ ¬ Healthy E
      | inr c => c = Z.of_nat (length (other_names (dir_entries bs))) end)
      (λ c k pre, c = Z.of_nat (length (other_names (seen bs k pre)))) s1 Hr1)|].
  - intros c k pre r post blk s2 Hio2 Hk Hblk Hc.
    eapply wp_mono; [by apply (count_visit_wp bs c k pre r post)|]. by intros [x|c'|c'] s3; [|intros [-> ?]|].
  - intros c k rs Hk. by rewrite (seen_block bs k rs).
  - intros c s2 Hio2. rewrite seen_all. intros Hc. split; [exact (io_same_trans _ _ _ Hio1 Hio2)|done].
  - intros ? s2 Hio2 Hh. split; [exact (io_same_trans _ _ _ Hio1 Hio2)|done].
  - done.
  - intros [x|c] s2 [Hio2 Hx]; wp_step; (split; [done|]); [by left|]. right. subst c.
    case_decide as Ho; [by rewrite Ho|]. destruct (other_names (dir_entries bs)); [done|]. done.
Qed.

(** ** A new directory *)

Lemma dot_ok n : (n <= 2)%nat → name_ok (replicate n dot).
Proof.
  intros Hn. split; [rewrite length_replicate; unfold LSFS_NAME_MAX; lia|].
  apply Forall_replicate. unfold is_byte, dot. lia.
Qed.

Lemma init_block_recs self parent :
  0 < self < 2 ^ 32 → 0 < parent < 2 ^ 32 →
  ∃ blk rs, init_block self parent = Some blk ∧ block_recs rs blk ∧
    live_recs rs = [([dot], (self, LSFS_FT_DIR)); ([dot; dot], (parent, LSFS_FT_DIR))].
Proof.
  intros Hself Hpar. set (m := Z.to_nat 4074).
  assert (zero_block = [] ++ replicate 8 0 ++ [0] ++ replicate 3 0 ++ replicate 8 0 ++ [0; 0] ++ replicate m 0) as Hz.
  { unfold zero_block, m. change (replicate (Z.to_nat LSFS_BLOCK_SIZE) 0 = replicate 22 0 ++ replicate (Z.to_nat 4074) 0).
    rewrite <-replicate_add. f_equal. }
  set (r1 := mk_drec self LSFS_FT_DIR [dot] (replicate 3 0)).
  set (r2 := mk_drec parent LSFS_FT_DIR [dot; dot] (replicate m 0)).
  assert (rec_size r1 = 12) as Hs1 by done.
  assert (rec_size r2 = 4084) as Hs2 by (unfold rec_size; cbn [r2 r_name r_pad]; rewrite length_replicate; done).
  assert (Z.of_nat (length zero_block) = LSFS_BLOCK_SIZE) as Hl by (unfold zero_block; by rewrite length_replicate).
  exists (recs_bytes [r1; r2]), [r1; r2]. split_and!; [|split|].
  - unfold init_block. rewrite Hz, put_entry_app; [|done..|by rewrite <-Hz]. cbn [mbind option_bind].
    match goal with |- put_entry (?a ++ ?b ++ ?c ++ ?d ++ ?e) ?o _ _ _ _ = _ =>
      replace (a ++ b ++ c ++ d ++ e) with ((a ++ b ++ c ++ d) ++ e) by (by rewrite <-!app_assoc) end.
    rewrite put_entry_app; [| |done|done|].
    + apply (f_equal Some). unfold recs_bytes. cbn [fmap list_fmap concat]. unfold rec_bytes, rec_de. rewrite Hs1, Hs2.
      cbn [r1 r2 r_ino r_type r_name r_pad]. by rewrite <-!app_assoc, !app_nil_r.
    + done.
    + rewrite <-Hl, Hz. rewrite !length_app, !length_enc_de, !length_replicate. done.
  - done.
  - assert (is_u8 LSFS_FT_DIR) as Ht by (unfold is_u8, LSFS_FT_DIR; lia).
    constructor; [|constructor; [|constructor]].
    + apply (fresh_wf [dot] self LSFS_FT_DIR (dot_ok 1 ltac:(lia)) Hself Ht); [apply zeros_bytes|].
      fold r1. rewrite Hs1. unfold LSFS_BLOCK_SIZE. by split.
    + apply (fresh_wf [dot; dot] parent LSFS_FT_DIR (dot_ok 2 ltac:(lia)) Hpar Ht); [apply zeros_bytes|].
      fold r2. rewrite Hs2. unfold LSFS_BLOCK_SIZE. by split.
  - by rewrite !recs_size_cons, Hs1, Hs2.
  - change [r1; r2] with ([r1] ++ [r2]). rewrite live_recs_app, !live_single. cbn [r1 r2 r_ino r_type r_name].
    by rewrite !(proj2 (Z.eqb_neq _ 0)) by lia.
Qed.

Lemma dir_init_wp s p im parent :
  log_wf s → 1 < st_free_count (c_segtable s) → ic_heap (c_icache s) !! p = Some im →
  let i := im_disk_inode im in
  file_wf s i → (i_indirect i ≠ 0 → settled s (i_indirect i)) → mode_dir (i_mode i) = true →
  0 < i_ino i → 0 < parent < 2 ^ 32 →
  wp (lsfs_dir_init p parent) (λ r s',
    (r = LSFS_ERR_IO ∧ dir_failed s False s') ∨
    (r = LSFS_OK ∧ ∃ bs', dir_updated s p bs' s' ∧
       dir_entries bs' = [([dot], (i_ino i, LSFS_FT_DIR)); ([dot; dot], (parent, LSFS_FT_DIR))])) s.
Proof.
  intros Hs Hfree Hp i Hw Hset Hmode Hino Hpar. pose proof (fw_ino s i Hw) as Hu. unfold is_u32 in Hu.
  destruct (init_block_recs (i_ino i) parent) as (blk & rs & Hinit & Hblk & Hlive); [lia|done|].
  unfold lsfs_dir_init. wp_step. eapply wp_intro; [by apply load_inode_run|].
  wp_step. eapply wp_of_opt; [exact Hinit|]. wp_step.
  eapply wp_mono; [apply (inode_write_block_wp s p im); try done; by eapply block_recs_is_block|].
  intros w s1 (Hk1 & Hed & Hbad & Hgood). cbv beta. destruct (Z.eqb_spec w LSFS_OK) as [->|Hne]; cbn [negb].
  2:{ apply wp_ret. left. split; [done|]. destruct (Hbad Hne) as [Hf Hx]. split; [by split|].
      by eapply excused_mono; [exact Hx|done|]. }
  destruct (Hgood eq_refl) as (_ & im' & Hp' & Hd & (_ & Hm & _ & _) & Hw' & Hb).
  wp_step. eapply wp_intro; [by apply upd_inode_run|]. wp_step. right. split; [done|]. exists [rs].
  split; [|unfold dir_entries; cbn [concat]; by rewrite app_nil_r].
  split_and!; [by apply kept_with_inode| |].
  { eapply edits_inode; [exact Hed|exact Hp'|]. split_and!; [done..|]. cbn. intros Hdw.
    destruct_and! Hdw. by split_and!. }
  eexists. split_and!; [apply with_inode_lookup|done|destruct Hw' as [? ? ? ?]; by split|].
  split; cbn [im_disk_inode field_set i_mode i_size].
  - by rewrite Hm.
  - done.
  - done.
  - intros [|k] rs' Hk; [|done]. injection Hk as <-.
    change (block_recs rs (file_block s1 (im_disk_inode im') 0)). by rewrite Hb by done.
Qed.
End DirUpdate.

(** * The map of names *)

Lemma dir_map_add bs bs' name e :
  dir_entries bs' ≡ₚ (name, e) :: dir_entries bs → NoDup (dir_entries bs).*1 → dir_map bs !! name = None →
  dir_map bs' = <[name := e]> (dir_map bs) ∧ NoDup (dir_entries bs').*1.
Proof.
  intros He Hnd Hnone. assert (NoDup (dir_entries bs').*1) as Hnd'.
  { rewrite He. cbn. constructor; [|done]. by apply not_elem_of_list_to_map. }
  split; [|done]. unfold dir_map. by rewrite (list_to_map_proper _ _ Hnd' He).
Qed.

Lemma dir_map_remove bs bs' name e l1 l2 :
  dir_entries bs = l1 ++ (name, e) :: l2 → dir_entries bs' = l1 ++ l2 → NoDup (dir_entries bs).*1 →
  dir_map bs !! name = Some e ∧ dir_map bs' = delete name (dir_map bs) ∧ NoDup (dir_entries bs').*1.
Proof.
  intros He He' Hnd. assert (dir_entries bs ≡ₚ (name, e) :: dir_entries bs') as Hp.
  { rewrite He, He'. by rewrite Permutation_middle. }
  pose proof Hnd as Hnd0. rewrite Hp in Hnd. cbn in Hnd. apply NoDup_cons in Hnd as [Hno Hnd].
  assert (dir_map bs = <[name := e]> (dir_map bs')) as Hm.
  { unfold dir_map. by rewrite (list_to_map_proper _ _ Hnd0 Hp). }
  rewrite Hm, lookup_insert_eq. split_and!; [done| |done]. rewrite delete_insert_id; [done|].
  by apply not_elem_of_list_to_map_1.
Qed.

Lemma other_names_nil bs :
  NoDup (dir_entries bs).*1 →
  (other_names (dir_entries bs) = [] ↔ ∀ n e, dir_map bs !! n = Some e → dot_name n = true).
Proof.
  intros Hnd. unfold dir_map. split.
  - intros Ho n e He%elem_of_list_to_map_2. destruct (dot_name n) eqn:Hn; [done|].
    assert ((n, e) ∈ other_names (dir_entries bs)) as Hin by (by apply list_elem_of_filter).
    rewrite Ho in Hin. by apply elem_of_nil in Hin.
  - intros Hall. destruct (other_names (dir_entries bs)) as [|[n e] l] eqn:Ho; [done|].
    assert ((n, e) ∈ other_names (dir_entries bs)) as Hin by (rewrite Ho; by left).
    apply list_elem_of_filter in Hin as [Hdot Hin]. cbn in Hdot.
    rewrite (Hall n e) in Hdot; [done|]. by apply elem_of_list_to_map_1.
Qed.

(** ** Calls and their specification *)

Inductive dir_call :=
  | DirLookup (name : list Z)
  | DirAdd (name : list Z) (ino type : Z)
  | DirRemove (name : list Z)
  | DirIsEmpty.

Inductive dir_reply :=
  | DirFound (r : res (Z * Z))
  | DirCode (r : Z).

Definition dir_call_ok (c : dir_call) : Prop :=
  match c with
  | DirLookup name => Z.of_nat (length name) <= LSFS_NAME_MAX
  | DirAdd name ino type => name_ok name ∧ 0 < ino < 2 ^ 32 ∧ is_u8 type
  | _ => True
  end.

Definition dir_run `{E : Env} (p : Z) (c : dir_call) : Op dir_reply :=
  match c with
  | DirLookup name => r ← lsfs_dir_lookup p name; mret (DirFound r)
  | DirAdd name ino type => r ← lsfs_dir_add p name ino type; mret (DirCode r)
  | DirRemove name => r ← lsfs_dir_remove p name; mret (DirCode r)
  | DirIsEmpty => r ← lsfs_dir_is_empty p; mret (DirCode r)
  end.

(** A directory as a map from names to (inode, type). *)
Inductive dir_step (m : gmap (list Z) (Z * Z)) : dir_call → dir_reply → gmap (list Z) (Z * Z) → Prop :=
  | ds_found name e : m !! name = Some e → dir_step m (DirLookup name) (DirFound (Ok e)) m
  | ds_missing name : m !! name = None → dir_step m (DirLookup name) (DirFound (Err LSFS_ERR_NOENT)) m
  | ds_added name ino type : m !! name = None →
      dir_step m (DirAdd name ino type) (DirCode LSFS_OK) (<[name := (ino, type)]> m)
  | ds_exists name ino type : is_Some (m !! name) →
      dir_step m (DirAdd name ino type) (DirCode LSFS_ERR_EXIST) m
  | ds_removed name : is_Some (m !! name) → dir_step m (DirRemove name) (DirCode LSFS_OK) (delete name m)
  | ds_absent name : m !! name = None → dir_step m (DirRemove name) (DirCode LSFS_ERR_NOENT) m
  | ds_empty : (∀ n e, m !! n = Some e → dot_name n = true) → dir_step m DirIsEmpty (DirCode LSFS_OK) m
  | ds_not_empty n e : m !! n = Some e → dot_name n = false → dir_step m DirIsEmpty (DirCode LSFS_ERR_NOTEMPTY) m
  | ds_io_add name ino type : dir_step m (DirAdd name ino type) (DirCode LSFS_ERR_IO) m
  | ds_io_remove name : dir_step m (DirRemove name) (DirCode LSFS_ERR_IO) m.

Section DirRefines.
Context `{E : Env}.
Implicit Types s : lsfs_context.

(** The directory is what the cached inode and the log say. *)
Definition dir_is s p (bs : list (list drec)) s' : Prop :=
  kept 2 s s' ∧ edits p s s' ∧
  ∃ im', ic_heap (c_icache s') !! p = Some im' ∧ file_wf s' (im_disk_inode im') ∧
    dir_repr s' (im_disk_inode im') bs.

Lemma dir_repr_grows s s' i bs : file_wf s i → log_grows s s' → dir_repr s i bs → dir_repr s' i bs.
Proof.
  intros Hw Hg [? ? Hmax Hb]. split; [assumption..|]. intros k rs Hk. pose proof (lookup_lt_Some _ _ _ Hk).
  rewrite (file_block_grows s s') by (done || lia). by apply Hb.
Qed.

Lemma unchanged_is s p im bs s' : dir_ready s p im bs → dir_unchanged s s' → dir_is s p bs s'.
Proof.
  intros [Hs Hp Hw _ Hr] [(Hs' & Hg & Hc) Hf]. split_and!; [done..|by apply log_frame_edits|]. exists im.
  rewrite (lf_icache _ _ Hf). split_and!; [done|by eapply file_wf_grows|by eapply dir_repr_grows].
Qed.

Lemma updated_is s p bs' s' : dir_updated s p bs' s' → dir_is s p bs' s'.
Proof. intros (Hk & Hed & im' & Hp & _ & Hw & Hr). split_and!; [done|done|]. by exists im'. Qed.

(** A successful flush makes the directory readable again. *)
Lemma dir_is_flush s p bs s1 :
  dir_is s p bs s1 → 3 <= st_free_count (c_segtable s) →
  wp lsfs_segment_flush (λ f s2, f = LSFS_OK → ∃ im', dir_ready s2 p im' bs) s1.
Proof.
  intros ((Hs1 & _ & Hc) & _ & im' & Hp & Hw & Hr) Hfree.
  destruct (wp_elim _ _ _ (segment_flush_kept s1 Hs1 ltac:(lia))) as (f & s2 & Hrun & Hs2 & Hf2 & Hg2 & _ & _).
  eapply wp_intro; [exact Hrun|]. intros Hok. exists im'.
  assert (∀ a, live_addr s1 a → settled s2 a) as Hset.
  { intros a Ha. exact (wp_run _ _ _ _ _ (flush_settled s1 a Hs1 ltac:(lia) Ha) Hrun (or_intror Hok)). }
  split; [done|by rewrite (lf_icache _ _ Hf2)|by eapply file_wf_grows| |by eapply dir_repr_grows].
  split; [intros Hne; by apply Hset, (fw_indirect s1 _ Hw)|]. intros j Hj.
  rewrite (file_addr_grows s1 s2) by done. intros Hne. by apply Hset, (fw_addr s1 _ Hw).
Qed.

Lemma dir_run_refines `{!Healthy E} s p im bs c :
  dir_ready s p im bs → NoDup (dir_entries bs).*1 → 1 < st_free_count (c_segtable s) → dir_call_ok c →
  wp (dir_run p c) (λ reply s',
    (reply = DirCode LSFS_ERR_IO → excused s (file_blocks <= Z.of_nat (length bs))) ∧
    ∃ bs', dir_is s p bs' s' ∧ NoDup (dir_entries bs').*1 ∧ dir_step (dir_map bs) c reply (dir_map bs')) s.
Proof.
  intros Hr Hnd Hfree Hok. pose proof (dd_log _ _ _ _ Hr) as Hs.
  destruct c as [name|name ino ty|name|]; cbn [dir_run dir_call_ok] in *; wp_step.
  - eapply wp_mono; [by apply (dir_lookup_wp s p im bs)|]. intros r s' [Hio [[_ ?]| ->]]; [done|]. wp_step.
    split; [done|]. exists bs.
    split_and!; [apply (unchanged_is s p im); [done|by apply io_same_unchanged]|done|].
    destruct (dir_map bs !! name) eqn:Hl; by constructor.
  - destruct Hok as (Hn & Hi & Ht). eapply wp_mono; [by apply (dir_add_wp p im bs name ino ty)|].
    intros r s' [(-> & Hsome & Hu)|[Hnone [[-> [Hu Hx]]|(-> & bs' & Hu & He)]]]; wp_step.
    + split; [done|]. exists bs. split_and!; [by apply (unchanged_is s p im)|done|by constructor].
    + split; [done|]. exists bs. split_and!; [by apply (unchanged_is s p im)|done|by constructor].
    + destruct (dir_map_add bs bs' name (ino, ty) He Hnd) as [Hm Hnd']; [by apply Hnone|]. split; [done|].
      exists bs'. split_and!; [by eapply updated_is|done|]. rewrite Hm. constructor. by apply Hnone.
  - eapply wp_mono; [by apply (dir_remove_wp s p im bs)|].
    intros r s' [(-> & Hnone & Hu)|[[-> [Hu Hx]]|(-> & bs' & l1 & e & l2 & Hu & He & _ & He')]]; wp_step.
    + split; [done|]. exists bs. split_and!; [by apply (unchanged_is s p im)|done|by constructor].
    + split; [intros _; by eapply excused_mono|].
      exists bs. split_and!; [by apply (unchanged_is s p im)|done|by constructor].
    + destruct (dir_map_remove bs bs' name e l1 l2 He He' Hnd) as (Hsome & Hm & Hnd'). split; [done|].
      exists bs'. split_and!; [by eapply updated_is|done|]. rewrite Hm. by constructor.
  - eapply wp_mono; [by apply (dir_is_empty_wp s p im bs)|]. intros r s' [Hio [[_ ?]| ->]]; [done|]. wp_step.
    split; [by case_decide|].
    exists bs. split_and!; [apply (unchanged_is s p im); [done|by apply io_same_unchanged]|done|].
    pose proof (other_names_nil bs Hnd) as Ho. case_decide as Hd; [constructor; by apply Ho|].
    destruct (other_names (dir_entries bs)) as [|[n e] l] eqn:Hl; [done|].
    assert ((n, e) ∈ other_names (dir_entries bs)) as Hin by (rewrite Hl; by left).
    apply list_elem_of_filter in Hin as [Hdot Hin]. apply (ds_not_empty _ n e); [|done].
    by apply elem_of_list_to_map_1.
Qed.
End DirRefines.

(** * A directory block that is still in the segment buffer *)

Lemma get_dirent_zero : get_dirent zero_block 0 = Some (mk_dirent 0 0 0 0).
Proof. done. Qed.

Section Stale.
Context `{E : Env}.
Implicit Types s : lsfs_context.

(** The directory has one block, in the segment buffer; the disk still has zeros at
    its address. *)
Record dir_stale s p (im : lsfs_inode_mem) (rs : list drec) : Prop := {
  sl_held : dir_held s p im [rs];
  sl_addr : file_addr s (im_disk_inode im) 0 ≠ 0;
  sl_disk : disk_block (c_disk s) (file_addr s (im_disk_inode im) 0) = zero_block }.

Lemma dir_stale_io s s' p im rs : io_same s s' → dir_stale s p im rs → dir_stale s' p im rs.
Proof.
  intros Hio [[Hs Hp Hw Hi [? ? ? Hb]] Ha Hd]. pose proof (io_same_kept s s' Hs Hio) as (Hs' & Hg & _).
  split; [split| |].
  - done.
  - by rewrite (io_same_icache _ _ Hio).
  - by eapply file_wf_grows.
  - unfold settled in *. by rewrite (io_same_segbuf _ _ Hio).
  - split; [assumption..|]. intros k rs'. rewrite (io_same_block s s') by done. apply Hb.
  - by rewrite (io_same_addr s s').
  - by rewrite (io_same_addr s s'), (proj2 Hio).
Qed.

(** A scan of it sees one entry of length 0. *)
Lemma stale_scan_wp {St R} s p im rs (f : visitor St R) io_error st blk (Q : R + St → lsfs_context → Prop) :
  dir_stale s p im rs →
  (∀ s', io_same s s' → Q (inl (io_error st)) s') →
  (∀ s', io_same s s' → wp (f st 0 0 0 zero_block (mk_dirent 0 0 0 0)) (λ v s2, match v with
     | Return x => Q (inl x) s2
     | Break st' => Q (inr st') s2
     | Continue _ => False end) s') →
  wp (dir_scan (scan_fuel (i_size (im_disk_inode im)) 0) p (i_size (im_disk_inode im)) io_error f st blk 0) Q s.
Proof.
  intros [[Hs Hp Hw Hi Hr] Ha Hd] Herr Hf. pose proof (dr_size _ _ _ Hr) as Hsz. cbn [length] in Hsz.
  unfold scan_fuel. cbn [dir_scan]. rewrite Hsz. change (LSFS_BLOCK_SIZE * Z.of_nat 1 <=? 0) with false. cbv iota.
  cbv zeta. rewrite Zdiv_0_l, Zmod_0_l. cbn [Z.eqb].
  wp_step. eapply wp_mono; [apply (inode_read_block_wp s p im); try done; unfold file_blocks; lia|].
  rewrite (proj2 (Z.eqb_neq _ _) Ha), Hd.
  intros got s1 (Hio & [-> | [-> _]]); [|by apply wp_ret, Herr].
  wp_step. eapply wp_of_opt; [apply get_dirent_zero|]. wp_step.
  eapply wp_mono; [by apply Hf|]. intros [x|st'|st'] s2; [by intros; apply wp_ret|done|by intros; apply wp_ret].
Qed.

Lemma stale_add_wp s p im rs name ino ty :
  dir_stale s p im rs → 1 < st_free_count (c_segtable s) → name_ok name → 0 < ino < 2 ^ 32 → is_u8 ty →
  wp (lsfs_dir_add p name ino ty) (λ r s',
    (r = LSFS_ERR_IO ∧ dir_unchanged s s') ∨
    (r = LSFS_OK ∧ ∃ bs', dir_updated s p bs' s' ∧ dir_entries bs' = [(name, (ino, ty))])) s.
Proof.
  intros Hst Hfree Hn Hi Ht. pose proof (sl_held _ _ _ _ Hst) as Hh. pose proof (dh_log _ _ _ _ Hh) as Hs.
  pose proof (nk_length _ Hn) as Hl. pose proof (dh_repr _ _ _ _ Hh) as Hrep.
  assert (∀ s', io_same s s' → dir_stale s' p im rs ∧ 1 < st_free_count (c_segtable s')) as Hall.
  { intros s' Hio. split; [by eapply dir_stale_io|]. pose proof Hio as [Hf _]. by rewrite Hf. }
  unfold lsfs_dir_add. wp_step. eapply wp_mono; [apply ask_io_same|]. intros junk s1 Hio1.
  destruct (Hall s1 Hio1) as [Hst1 _].
  wp_step. eapply wp_intro; [apply load_inode_run, (dh_inode _ _ _ _ (sl_held _ _ _ _ Hst1))|].
  rewrite (dr_mode _ _ _ Hrep). cbn [negb]. rewrite (proj2 (Z.ltb_ge _ _) Hl), (needed_name name Hn). wp_step.
  assert (wp (lsfs_dir_lookup p name) (λ r s', io_same s s' ∧ ∃ e, r = Err e) s1) as Hlook.
  { unfold lsfs_dir_lookup. wp_step. eapply wp_mono; [apply ask_io_same|]. intros junk' s2 Hio2.
    pose proof (io_same_trans _ _ _ Hio1 Hio2) as Hio. destruct (Hall s2 Hio) as [Hst2 _].
    wp_step. eapply wp_intro; [apply load_inode_run, (dh_inode _ _ _ _ (sl_held _ _ _ _ Hst2))|].
    rewrite (dr_mode _ _ _ Hrep). cbn [negb]. rewrite (proj2 (Z.ltb_ge _ _) Hl). wp_step.
    apply (stale_scan_wp s2 p im rs); [done|..].
    - intros s3 Hio3. apply wp_ret. split; [exact (io_same_trans _ _ _ Hio Hio3)|by eexists].
    - intros s3 Hio3. unfold lookup_visit. cbn [de_rec_len Z.eqb orb]. wp_step. wp_step.
      split; [exact (io_same_trans _ _ _ Hio Hio3)|by eexists]. }
  eapply wp_mono; [exact Hlook|]. intros r s2 (Hio2 & e & ->). wp_step. destruct (Hall s2 Hio2) as [Hst2 _].
  apply (stale_scan_wp s2 p im rs); [done|..].
  { intros s3 Hio3. apply wp_ret. left. split; [done|]. apply io_same_unchanged; [done|].
    exact (io_same_trans _ _ _ Hio2 Hio3). }
  intros s3 Hio3. pose proof (io_same_trans _ _ _ Hio2 Hio3) as Hio. destruct (Hall s3 Hio) as [Hst3 Hfree3].
  destruct (new_dir_block name ino ty Hn Hi Ht) as (blk & rc & Hput & Hblk & Hlive).
  unfold LSFS_NAME_MAX in Hl. pose proof (dirent_size_bounds (Z.of_nat (length name)) ltac:(lia)) as Hd.
  unfold add_visit. wp_step. eapply (wp_of_opt _ (Placed blk)).
  { unfold add_slot. cbn [de_rec_len Z.eqb]. change (u16 (LSFS_BLOCK_SIZE - 0)) with LSFS_BLOCK_SIZE.
    rewrite (proj2 (Z.leb_le _ _)) by (unfold LSFS_BLOCK_SIZE; lia). by rewrite Hput. }
  cbv beta iota. wp_step.
  eapply wp_mono; [apply (commit_block_wp s3 p im [rs] 0 [rc] blk); [apply (sl_held _ _ _ _ Hst3)|done|cbn; lia|done]|].
  intros r s4 [[-> [Hu _]]|[-> Hu]]; wp_step; wp_step.
  - left. split; [done|by eapply dir_unchanged_io].
  - right. split; [done|]. eexists. split; [by eapply dir_updated_io|].
    unfold dir_entries. cbn [concat insert list_insert]. by rewrite app_nil_r, Hlive.
Qed.
End Stale.

(** * Theorems *)

(** C5. A directory is a finite map from names: on a device without faults each call does
    what the map says (lookup, insertion of a new name, deletion, emptiness up to [.]
    and [..]) or reports an I/O error and changes nothing, which happens only when the
    image cannot be written or the directory has all the blocks a file can have; names
    stay unique, and after the next successful flush the directory is ready for the next
    call. *)
Theorem dir_refines_map `{E : Env, !Healthy E} s p im bs c :
  dir_ready s p im bs → NoDup (dir_entries bs).*1 → 3 <= st_free_count (c_segtable s) → dir_call_ok c →
  wp (dir_run p c) (λ reply s1,
    (c_readonly s = false → Z.of_nat (length bs) < file_blocks → reply ≠ DirCode LSFS_ERR_IO) ∧
    ∃ bs', NoDup (dir_entries bs').*1 ∧ dir_step (dir_map bs) c reply (dir_map bs') ∧
    wp lsfs_segment_flush (λ f s2, f = LSFS_OK → ∃ im', dir_ready s2 p im' bs') s1) s.
Proof.
  intros Hr Hnd Hfree Hok. eapply wp_mono; [apply (dir_run_refines s p im bs); [done|done|lia|done]|].
  intros reply s1 (Hx & bs' & Hi & Hnd' & Hst). split.
  - intros Hro Hlen Hio. pose proof (Hx Hio _ Hro). lia.
  - exists bs'. split_and!; [done..|]. by eapply dir_is_flush.
Qed.


(** A new directory: when [lsfs_dir_init] and the flush after it report success the
    directory holds exactly [.] and [..]. *)
Theorem dir_init_creates `{E : Env} s p im parent :
  log_wf s → 3 <= st_free_count (c_segtable s) → ic_heap (c_icache s) !! p = Some im →
  file_wf s (im_disk_inode im) →
  (i_indirect (im_disk_inode im) ≠ 0 → settled s (i_indirect (im_disk_inode im))) →
  mode_dir (i_mode (im_disk_inode im)) = true → 0 < i_ino (im_disk_inode im) → 0 < parent < 2 ^ 32 →
  wp (lsfs_dir_init p parent) (λ r s1, (r = LSFS_OK ∨ r = LSFS_ERR_IO) ∧ (r = LSFS_OK →
    wp lsfs_segment_flush (λ f s2, f = LSFS_OK → ∃ im' bs', dir_ready s2 p im' bs' ∧
      dir_map bs' = {[ [dot] := (i_ino (im_disk_inode im), LSFS_FT_DIR);
                       [dot; dot] := (parent, LSFS_FT_DIR) ]}) s1)) s.
Proof.
  intros Hs Hfree Hp Hw Hset Hm Hino Hpar. eapply wp_mono; [apply (dir_init_wp s p im); try done; lia|].
  intros r s1 [[-> _]|(-> & bs' & Hu & He)]; (split; [by auto|]); [done|]. intros _.
  eapply wp_mono; [apply (dir_is_flush s p bs'); [by apply updated_is|done]|].
  intros f s2 Hf Hok. destruct (Hf Hok) as [im' Hr]. exists im', bs'. split; [done|].
  unfold dir_map. by rewrite He.
Qed.

(** C23. An entry added to a directory whose block has not left the segment buffer replaces
    the directory: the call reads zeros from the disk where the block will be, takes
    them for an empty block, and reports success with only the new entry left. *)
Theorem stale_add_destroys `{E : Env} s p im rs name ino ty :
  dir_stale s p im rs → 1 < st_free_count (c_segtable s) → name_ok name → 0 < ino < 2 ^ 32 → is_u8 ty →
  wp (lsfs_dir_add p name ino ty) (λ r s',
    r = LSFS_ERR_IO ∨
    (r = LSFS_OK ∧ ∃ bs' im', ic_heap (c_icache s') !! p = Some im' ∧
       dir_repr s' (im_disk_inode im') bs' ∧ dir_map bs' = {[ name := (ino, ty) ]})) s.
Proof.
  intros Hst Hfree Hn Hi Ht. eapply wp_mono; [by apply (stale_add_wp s p im rs)|].
  intros r s' [[-> _]|(-> & bs' & (_ & _ & im' & Hp & _ & _ & Hr) & He)]; [by left|]. right.
  split; [done|]. exists bs', im'. split_and!; [done..|]. unfold dir_map. by rewrite He.
Qed.
