(* ===== verification/Gc.v ===== *)
(** The garbage collector of [src/gc.c]: choosing a segment, moving its live blocks to
    the end of the log, one run of the collector and its thread.  The floating-point
    comparison of candidates is IEEE 754 double precision arithmetic, executed on the
    standard library's specification of it. *)
From Stdlib Require Import Floats.SpecFloat.
From S2P Require Import Prelude OnDisk Lru Context Io Imap SegTable Log Inode.

Definition GC_THRESHOLD_HIGH : Z := 20.
Definition GC_UTILIZATION_THRESHOLD : Z := 50.
Definition UINT32_MAX : Z := 2 ^ 32 - 1.

(** * Doubles *)

Definition double : Type := spec_float.
(** [(double)z], rounded to nearest. *)
Definition double_of (z : Z) : double := binary_normalize 53 1024 z 0 false.
Definition d_div : double → double → double := SFdiv 53 1024.
Definition d_mul : double → double → double := SFmul 53 1024.
Definition d_add : double → double → double := SFadd 53 1024.
Definition d_sub : double → double → double := SFsub 53 1024.
Definition d_one : double := double_of 1.
Definition d_minus_one : double := double_of (-1).

(** * Choosing a segment *)

Definition segment_utility (seg : lsfs_segment_usage) (now : Z) : double :=
  if negb (su_state seg =? LSFS_SEG_FULL) then d_minus_one else
  let utilization := d_div (double_of (su_live_blocks seg)) (double_of (LSFS_SEGMENT_BLOCKS - 1)) in
  let age := double_of (u64 (now - su_timestamp seg)) in
  if SFleb d_one utilization then d_minus_one
  else d_div (d_mul age (d_sub d_one utilization)) (d_add d_one utilization).

(** The test before the utility is computed. *)
Definition gc_candidate (seg : lsfs_segment_usage) : bool :=
  (su_state seg =? LSFS_SEG_FULL) &&
  (u32 (su_live_blocks seg * 100) / (LSFS_SEGMENT_BLOCKS - 1) <=? GC_UTILIZATION_THRESHOLD).

(** One round of the selection loop on the best segment so far and its utility. *)
Definition select_step (entries : list lsfs_segment_usage) (now : Z) (best : Z * double) (i : Z)
    : option (Z * double) :=
  seg ← arr_get entries i;
  Some (if gc_candidate seg then
          let utility := segment_utility seg now in
          if SFltb best.2 utility then (i, utility) else best
        else best).

Fixpoint select_loop (entries : list lsfs_segment_usage) (now : Z) (ids : list Z) (best : Z * double)
    : option (Z * double) :=
  match ids with
  | [] => Some best
  | i :: ids => best ← select_step entries now best i; select_loop entries now ids best
  end.

Section GcOps.
Context `{E : Env}.

Definition lsfs_gc_select_segment : Op Z :=
  now ← time_now;
  t ← gets c_segtable;
  best ← of_opt (select_loop (st_entries t) now (seqZ 0 (st_count t)) (UINT32_MAX, d_minus_one));
  mret best.1.

(** * Cleaning a segment *)

Definition set_state (seg st : Z) : Op () := usage_update seg (λ e, e <| su_state := st |>).

(** [summary->blocks[i - 1]] in the segment read: the descriptions after the header,
    which run on into the blocks that follow the first when there are many. *)
Definition gc_info (segment_data : list (list Z)) (i : Z) : lsfs_block_info :=
  dec_at (Z.to_nat (i - 1)) (drop (sizeof lsfs_segment_header) (concat segment_data)).

(** The three branches of the cleaning loop for block [i]; [true] when the block could
    not be moved and the loop ends. *)
Definition gc_move_inode (segment_data : list (list Z)) (seg_start i : Z) (info : lsfs_block_info) : Op bool :=
  m ← lsfs_imap_get (bi_ino info);
  match m with
  | Err _ => mret false
  | Ok (current_loc, _) =>
      if negb (current_loc =? u64 (seg_start + i)) then mret false else
      blk ← of_opt (arr_get segment_data i);
      new_loc ← lsfs_segment_append_block blk (bi_ino info) (bi_offset info) (bi_type info);
      if new_loc =? 0 then mret true else
      _ ← lsfs_imap_set (bi_ino info) new_loc;
      mret false
  end.

Definition gc_data_live (p seg_start i : Z) (info : lsfs_block_info) : Op bool :=
  if bi_offset info <? LSFS_DIRECT_BLOCKS then
    im ← load_inode p;
    a ← of_opt (arr_get (i_direct (im_disk_inode im)) (bi_offset info));
    mret (a =? u64 (seg_start + i))
  else mret false.

Definition gc_set_direct (p off new_loc : Z) : Op () :=
  if off <? LSFS_DIRECT_BLOCKS then
    im ← load_inode p;
    ds ← of_opt (arr_set (i_direct (im_disk_inode im)) off new_loc);
    upd_inode p (λ i, i <| im_disk_inode ::= λ d, d <| i_direct := ds |> |> <| im_dirty := true |>)
  else mret tt.

Definition gc_move_data (segment_data : list (list Z)) (seg_start i : Z) (info : lsfs_block_info) : Op bool :=
  inode ← lsfs_inode_get (bi_ino info);
  match inode with
  | None => mret false
  | Some p =>
      is_live ← gc_data_live p seg_start i info;
      if (is_live : bool) then
        blk ← of_opt (arr_get segment_data i);
        new_loc ← lsfs_segment_append_block blk (bi_ino info) (bi_offset info) (bi_type info);
        if new_loc =? 0 then _ ← lsfs_inode_put (Some p); mret true else
        _ ← gc_set_direct p (bi_offset info) new_loc;
        _ ← lsfs_inode_put (Some p);
        mret false
      else _ ← lsfs_inode_put (Some p); mret false
  end.

Definition gc_move_block (segment_data : list (list Z)) (seg_start i : Z) : Op bool :=
  let info := gc_info segment_data i in
  if bi_ino info =? 0 then mret false
  else if bi_type info =? LSFS_BLOCK_TYPE_INODE then gc_move_inode segment_data seg_start i info
  else if bi_type info =? LSFS_BLOCK_TYPE_DATA then gc_move_data segment_data seg_start i info
  else mret false.

Fixpoint gc_move_blocks (segment_data : list (list Z)) (seg_start : Z) (ids : list Z) : Op bool :=
  match ids with
  | [] => mret false
  | i :: ids =>
      stop ← gc_move_block segment_data seg_start i;
      if (stop : bool) then mret true else gc_move_blocks segment_data seg_start ids
  end.

(** The end of the cleaning: the segment is free, whatever was moved. *)
Definition gc_release (segment_id : Z) : Op () :=
  _ ← usage_update segment_id (λ e, e <| su_state := LSFS_SEG_FREE |> <| su_live_blocks := 0 |>);
  t ← gets c_segtable;
  set_free_count (u32 (st_free_count t + 1)).

Definition gc_abandon (segment_id ret : Z) : Op Z :=
  _ ← set_state segment_id LSFS_SEG_FULL; mret ret.

(** Cleaning a segment with live blocks, once it is marked. *)
Definition gc_clean_marked (segment_id : Z) : Op Z :=
  ok ← ask env_alloc;
  if negb ok then gc_abandon segment_id LSFS_ERR_NOMEM else
  let seg_start := lsfs_segment_to_block segment_id 0 in
  r ← lsfs_read_blocks seg_start LSFS_SEGMENT_BLOCKS;
  match r with
  | Err e => gc_abandon segment_id e
  | Ok segment_data =>
      let header := dec (concat segment_data) : lsfs_segment_header in
      if negb (sh_magic header =? LSFS_SEGMENT_MAGIC) then gc_abandon segment_id LSFS_ERR_CORRUPT else
      let num_blocks := Z.min (sh_block_count header) LSFS_SEGMENT_BLOCKS in
      failed ← gc_move_blocks segment_data seg_start (seqZ 1 (num_blocks - 1));
      _ ← gc_release segment_id;
      mret (if (failed : bool) then LSFS_ERR_NOSPC else LSFS_OK)
  end.

Definition lsfs_gc_clean_segment (segment_id : Z) : Op Z :=
  t ← gets c_segtable;
  if st_count t <=? segment_id then mret LSFS_ERR_INVAL else
  e ← of_opt (arr_get (st_entries t) segment_id);
  if negb (su_state e =? LSFS_SEG_FULL) then mret LSFS_OK else
  if su_live_blocks e =? 0 then
    _ ← set_state segment_id LSFS_SEG_FREE;
    _ ← set_free_count (u32 (st_free_count t + 1));
    mret LSFS_OK
  else
    _ ← set_state segment_id LSFS_SEG_CLEANING;
    gc_clean_marked segment_id.

(** * Running the collector *)

(** The loop of [lsfs_gc_run]: how many segments were cleaned, and the last result. *)
Fixpoint gc_run_loop (fuel : nat) (cleaned ret : Z) : Op (Z * Z) :=
  match fuel with
  | O => undefined
  | S fuel =>
      t ← gets c_segtable;
      free_percent ← of_opt (gc_free_percent t);
      if GC_THRESHOLD_HIGH <=? free_percent then mret (cleaned, ret) else
      segment_id ← lsfs_gc_select_segment;
      if segment_id =? UINT32_MAX then mret (cleaned, ret) else
      ret ← lsfs_gc_clean_segment segment_id;
      if negb (ret =? LSFS_OK) then mret (cleaned, ret) else
      let cleaned := cleaned + 1 in
      if 5 <=? cleaned then mret (cleaned, ret) else gc_run_loop fuel cleaned ret
  end.

Definition gc_run_fuel : nat := 5.

Definition lsfs_gc_run : Op Z :=
  r ← gc_run_loop gc_run_fuel 0 LSFS_OK;
  _ ← (if 0 <? r.1 then
         _ ← lsfs_segment_flush;
         _ ← lsfs_checkpoint_write;
         mret tt
       else mret tt);
  mret r.2.

(** One round of the collector's thread after it was woken up; [false] when it stops. *)
Definition gc_thread_round : Op bool :=
  running ← gets c_gc_running;
  if negb running then mret false else
  needed ← lsfs_gc_needed;
  _ ← (if (needed : bool) then lsfs_gc_run else mret LSFS_OK);
  mret true.

(** The thread.  It holds no lock while it waits, nor while it works: [waits] are what the
    rest of the program does during each of its waits, as far as the thread is
    observed. *)
Fixpoint gc_thread_func (waits : list (Op ())) : Op () :=
  match waits with
  | [] => mret tt
  | wait :: waits =>
      running ← gets c_gc_running;
      if negb running then mret tt else
      _ ← ask env_clock;
      _ ← wait;
      continue ← gc_thread_round;
      if (continue : bool) then gc_thread_func waits else mret tt
  end.

Definition lsfs_gc_init : Op Z :=
  _ ← modify (λ s, s <| c_gc_running := true |>);
  lock ← ask env_alloc;
  if negb lock then mret LSFS_ERR_NOMEM else
  cond ← ask env_alloc;
  if negb cond then mret LSFS_ERR_NOMEM else
  thread ← ask env_alloc;
  if negb thread then mret LSFS_ERR_NOMEM else
  mret LSFS_OK.

Definition lsfs_gc_destroy : Op () :=
  modify (λ s, s <| c_gc_running := false |> <| c_gc_signal := true |>).
End GcOps.

(** * Termination *)

(** Once [lsfs_gc_destroy] has run the thread does not touch the context again, whatever
    would be done during its next waits: unmounting can wait for it. *)
Lemma gc_thread_stops `{E : Env} waits s :
  c_gc_running s = true →
  gc_thread_func (lsfs_gc_destroy :: waits) s =
    Some (tt, s <| c_tick ::= S |> <| c_gc_running := false |> <| c_gc_signal := true |>).
Proof.
  intros Hr. cbn [gc_thread_func]. erewrite bind_run by done. rewrite Hr. cbn [negb].
  erewrite bind_run by done. erewrite bind_run by done. by erewrite bind_run by done.
Qed.

Lemma gc_run_loop_fuel `{E : Env} k (left : nat) cleaned ret s :
  cleaned + Z.of_nat left = 5 → (0 < left)%nat →
  gc_run_loop (left + k) cleaned ret s = gc_run_loop left cleaned ret s.
Proof.
  revert cleaned ret s. induction left as [|left IH]; intros cleaned ret s Hc Hpos; [lia|].
  cbn [gc_run_loop Nat.add]. apply bind_ext. intros t s1 _. apply bind_ext. intros pct s2 _.
  destruct (GC_THRESHOLD_HIGH <=? pct); [done|]. apply bind_ext. intros seg s3 _.
  destruct (seg =? UINT32_MAX); [done|]. apply bind_ext. intros r s4 _.
  destruct (negb (r =? LSFS_OK)); [done|]. destruct (Z.leb_spec 5 (cleaned + 1)); [done|].
  apply IH; lia.
Qed.

Lemma gc_run_loop_count `{E : Env} fuel cleaned ret s c r s' :
  0 <= cleaned < 5 → gc_run_loop fuel cleaned ret s = Some ((c, r), s') →
  cleaned <= c <= 5.
Proof.
  revert cleaned ret s. induction fuel as [|fuel IH]; intros cleaned ret s Hc; [done|]. cbn [gc_run_loop].
  intros (t & s1 & _ & H)%bind_Some_inv. apply bind_Some_inv in H as (pct & s2 & _ & H).
  destruct (GC_THRESHOLD_HIGH <=? pct); [injection H as <- _ _; lia|].
  apply bind_Some_inv in H as (seg & s3 & _ & H).
  destruct (seg =? UINT32_MAX); [injection H as <- _ _; lia|].
  apply bind_Some_inv in H as (r1 & s4 & _ & H).
  destruct (Z.eqb_spec r1 LSFS_OK) as [|Hne]; cbn [negb] in H; [|injection H as <- _ _; lia].
  destruct (Z.leb_spec 5 (cleaned + 1)); [injection H as <- _ _; lia|].
  pose proof (IH (cleaned + 1) r1 s4 ltac:(lia) H). lia.
Qed.

(** * Theorem *)

(** C31. A run of the collector ends: the loop of [lsfs_gc_run] goes round at most five
    times, so that no bound above five changes what it does, in every environment and
    from every state, and it cleans at most five segments. *)
Theorem gc_run_bounded `{E : Env} k s :
  gc_run_loop (gc_run_fuel + k) 0 LSFS_OK s = gc_run_loop gc_run_fuel 0 LSFS_OK s ∧
  match gc_run_loop gc_run_fuel 0 LSFS_OK s with
  | Some ((cleaned, _), _) => 0 <= cleaned <= 5
  | None => True
  end.
Proof.
  split; [apply (gc_run_loop_fuel k gc_run_fuel); [done|unfold gc_run_fuel; lia]|].
  destruct (gc_run_loop gc_run_fuel 0 LSFS_OK s) as [[[c r] s']|] eqn:H; [|done].
  exact (gc_run_loop_count gc_run_fuel 0 LSFS_OK s c r s' ltac:(lia) H).
Qed.
