(* ===== verification/GcSelect.v ===== *)
(** The choice of a segment to clean: [lsfs_gc_select_segment] returns a candidate of
    maximal utility, and finds one whenever there is one. *)
From Stdlib Require Import Floats.SpecFloat.
From S2P Require Import Prelude OnDisk Lru Context Io Imap SegTable Log LogView.
From S2P Require Import Inode FileView Gc.

(** * The order of doubles *)

Lemma SFltb_trans a b c : SFltb a b = true → SFltb b c = true → SFltb a c = true.
Proof.
  unfold SFltb, SFcompare.
  destruct a as [[]|[]| |[] ma ea], b as [[]|[]| |[] mb eb], c as [[]|[]| |[] mc ec]; try done.
  all: change (PosDef.Pos.compare_cont Eq) with Pos.compare.
  all: destruct (Z.compare_spec ea eb), (Z.compare_spec eb ec), (Z.compare_spec ea ec); try lia; try done.
  all: rewrite <-?Pos.compare_antisym.
  all: repeat match goal with |- context [Pos.compare ?x ?y] => destruct (Pos.compare_spec x y) end; done || lia.
Qed.

(** A double that is not a NaN and not below zero. *)
Definition nonneg (f : double) : Prop :=
  match f with
  | S754_zero _ | S754_infinity false | S754_finite false _ _ => True
  | _ => False
  end.

Lemma nonneg_above f : nonneg f → SFltb d_minus_one f = true.
Proof. by destruct f as [[]|[]| |[] m e]. Qed.

Lemma shr_1_nonneg mrs : 0 <= shr_m mrs → 0 <= shr_m (shr_1 mrs).
Proof. destruct mrs as [[|[p|p|]|p] r k]; cbn; lia. Qed.

Lemma shr_iter_nonneg p mrs : 0 <= shr_m mrs → 0 <= shr_m (SpecFloat.iter_pos shr_1 p mrs).
Proof. revert mrs. induction p as [p IH|p IH|]; intros mrs H; cbn [SpecFloat.iter_pos]; auto using shr_1_nonneg. Qed.

Lemma shr_fexp_nonneg m e l : 0 <= m → 0 <= shr_m (shr_fexp 53 1024 m e l).1.
Proof.
  intros Hm. unfold shr_fexp, shr. assert (shr_m (shr_record_of_loc m l) = m) as Hl.
  { by destruct l as [|[]]. }
  destruct (_ - _); cbn [fst]; [by rewrite Hl|apply shr_iter_nonneg; by rewrite Hl|by rewrite Hl].
Qed.

Lemma round_nonneg m e l : 0 <= m → nonneg (binary_round_aux 53 1024 false m e l).
Proof.
  intros Hm. unfold binary_round_aux.
  destruct (shr_fexp 53 1024 m e l) as [mrs' e'] eqn:H1. pose proof (shr_fexp_nonneg m e l Hm) as H1'.
  rewrite H1 in H1'. cbn in H1'.
  set (m2 := round_nearest_even _ _). assert (0 <= m2) as Hm2.
  { unfold m2, round_nearest_even. repeat case_match; lia. }
  destruct (shr_fexp 53 1024 m2 e' loc_Exact) as [mrs'' e''] eqn:H2.
  pose proof (shr_fexp_nonneg m2 e' loc_Exact Hm2) as H2'. rewrite H2 in H2'. cbn in H2'.
  destruct (shr_m mrs'') as [|p|p]; [done| |lia]. by destruct (_ <=? _).
Qed.

Lemma double_of_nonneg z : 0 <= z → nonneg (double_of z).
Proof.
  intros Hz. unfold double_of, binary_normalize. destruct z as [|p|p]; [done| |lia].
  unfold binary_round. destruct (shl_align _ _ _). by apply round_nonneg.
Qed.

(** Finite and positive. *)
Definition positive_double (f : double) : bool :=
  match f with S754_finite false _ _ => true | _ => false end.

Lemma d_mul_nonneg a b : nonneg a → positive_double b = true → nonneg (d_mul a b).
Proof.
  destruct a as [[]|[]| |[] ma ea], b as [[]|[]| |[] mb eb]; try done.
  intros _ _. cbn [d_mul SFmul xorb]. by apply round_nonneg.
Qed.

Lemma d_div_nonneg a b : nonneg a → positive_double b = true → nonneg (d_div a b).
Proof.
  destruct a as [[]|[]| |[] ma ea], b as [[]|[]| |[] mb eb]; try done.
  intros _ _. cbn [d_div SFdiv xorb]. unfold SFdiv_core_binary.
  set (m' := match _ with Z0 => _ | Zpos _ => _ | Zneg _ => _ end).
  assert (0 <= m') as Hm.
  { unfold m'. repeat case_match; try lia. apply Z.shiftl_nonneg. lia. }
  pose proof (Z.div_pos m' (Zpos mb) Hm ltac:(lia)) as Hq. unfold Z.div in Hq.
  destruct (Z.div_eucl m' (Zpos mb)) as [q r]. by apply round_nonneg.
Qed.

(** Up to half of the segment live: the two factors of the formula are positive. *)
Definition factors_positive (live : Z) : bool :=
  let u := d_div (double_of live) (double_of (LSFS_SEGMENT_BLOCKS - 1)) in
  negb (SFleb d_one u) && positive_double (d_sub d_one u) && positive_double (d_add d_one u).

Lemma factors_positive_522 : forallb factors_positive (seqZ 0 522) = true.
Proof. vm_compute. reflexivity. Qed.

Lemma candidate_live seg :
  0 <= su_live_blocks seg < LSFS_SEGMENT_BLOCKS → gc_candidate seg = true →
  su_state seg = LSFS_SEG_FULL ∧ 0 <= su_live_blocks seg < 522.
Proof.
  unfold gc_candidate, LSFS_SEGMENT_BLOCKS, GC_UTILIZATION_THRESHOLD. intros Hl Hc.
  apply andb_true_iff in Hc as [Hst%Z.eqb_eq Hu%Z.leb_le]. rewrite u32_small in Hu by lia.
  change (1024 - 1) with 1023 in Hu.
  split; [done|]. pose proof (Z.div_mod (su_live_blocks seg * 100) 1023 ltac:(lia)).
  pose proof (Z.mod_pos_bound (su_live_blocks seg * 100) 1023 ltac:(lia)). lia.
Qed.

(** The utility of a candidate is above the start value of the search. *)
Lemma candidate_utility seg now :
  0 <= su_live_blocks seg < LSFS_SEGMENT_BLOCKS → gc_candidate seg = true →
  SFltb d_minus_one (segment_utility seg now) = true.
Proof.
  intros Hl Hc. destruct (candidate_live seg Hl Hc) as [Hst Hlive]. apply nonneg_above.
  pose proof (proj1 (forallb_forall _ _) factors_positive_522 (su_live_blocks seg)) as Hf.
  specialize (Hf ltac:(apply list_elem_of_In, elem_of_seqZ; lia)). unfold factors_positive in Hf.
  unfold segment_utility. rewrite Hst, Z.eqb_refl. cbn [negb].
  apply andb_true_iff in Hf as [[Hle Hsub]%andb_true_iff Hadd].
  apply negb_true_iff in Hle. rewrite Hle.
  apply d_div_nonneg; [|done]. apply d_mul_nonneg; [|done]. apply double_of_nonneg, u64_range.
Qed.

(** * The search *)

(** What the search knows after the entries [ids]. *)
Record best_of (es : list lsfs_segment_usage) now (ids : list Z) (best : Z * double) : Prop := {
  bo_max j seg : j ∈ ids → arr_get es j = Some seg → gc_candidate seg = true →
    SFltb best.2 (segment_utility seg now) = false;
  bo_start : SFltb best.2 d_minus_one = false;
  bo_from : best = (UINT32_MAX, d_minus_one) ∨
    ∃ seg, best.1 ∈ ids ∧ arr_get es best.1 = Some seg ∧ gc_candidate seg = true ∧
      best.2 = segment_utility seg now }.

Lemma SFltb_asym a b : SFltb a b = true → SFltb b a = false.
Proof.
  intros H. destruct (SFltb b a) eqn:Hb; [|done]. pose proof (SFltb_trans a b a H Hb) as Haa.
  unfold SFltb, SFcompare in Haa. destruct a as [[]|[]| |[] m e]; try done;
    rewrite Z.compare_refl in Haa; change (PosDef.Pos.compare_cont Eq) with Pos.compare in Haa;
    by rewrite Pos.compare_refl in Haa.
Qed.

Lemma best_of_step es now ids best i best' :
  best_of es now ids best → select_step es now best i = Some best' → best_of es now (ids ++ [i]) best'.
Proof.
  intros [Hmax Hst Hfrom]. unfold select_step. destruct (arr_get es i) as [seg|] eqn:Hi; [|done].
  cbn [mbind option_bind]. intros [= <-].
  destruct (gc_candidate seg) eqn:Hc; [destruct (SFltb best.2 (segment_utility seg now)) eqn:Hlt|].
  - split; cbn [fst snd].
    + intros j sj [Hj|Hj%list_elem_of_singleton]%elem_of_app Hsj Hcj.
      * destruct (SFltb (segment_utility seg now) (segment_utility sj now)) eqn:Hlt2; [|done].
        rewrite <-(Hmax j sj Hj Hsj Hcj). symmetry. by eapply SFltb_trans.
      * subst j. rewrite Hi in Hsj. injection Hsj as <-.
        destruct (SFltb (segment_utility seg now) (segment_utility seg now)) eqn:Hself; [|done].
        by rewrite (SFltb_asym _ _ Hself) in Hself.
    + destruct (SFltb (segment_utility seg now) d_minus_one) eqn:Hlt2; [|done].
      rewrite <-Hst. symmetry. by eapply SFltb_trans.
    + right. exists seg. split_and!; [set_solver|done..].
  - split; [|done|].
    + intros j sj [Hj|Hj%list_elem_of_singleton]%elem_of_app Hsj Hcj; [by eapply Hmax|].
      subst j. rewrite Hi in Hsj. by injection Hsj as <-.
    + destruct Hfrom as [?|(s0 & ? & ?)]; [by left|right; exists s0; set_solver].
  - split; [|done|].
    + intros j sj [Hj|Hj%list_elem_of_singleton]%elem_of_app Hsj Hcj; [by eapply Hmax|].
      subst j. rewrite Hi in Hsj. injection Hsj as <-. congruence.
    + destruct Hfrom as [?|(s0 & ? & ?)]; [by left|right; exists s0; set_solver].
Qed.

Lemma select_loop_best es now done ids best :
  best_of es now done best → (∀ i, i ∈ ids → is_Some (arr_get es i)) →
  ∃ best', select_loop es now ids best = Some best' ∧ best_of es now (done ++ ids) best'.
Proof.
  revert done best. induction ids as [|i ids IH]; intros done0 best Hb Hin.
  - exists best. by rewrite app_nil_r.
  - cbn [select_loop]. destruct (select_step es now best i) as [best1|] eqn:Hs.
    + cbn [mbind option_bind]. destruct (IH (done0 ++ [i]) best1) as (best' & -> & Hb').
      { by eapply best_of_step. }
      { set_solver. }
      exists best'. split; [reflexivity|]. by rewrite <-app_assoc in Hb'.
    + exfalso. unfold select_step in Hs. destruct (Hin i ltac:(set_solver)) as [seg Hseg]. by rewrite Hseg in Hs.
Qed.

(** * Theorem *)

