(* ===== verification/GcClean.v ===== *)
(** Cleaning a segment: it keeps the invariant of the filesystem, moves every inode block
    that its summary describes, and leaves behind what the summary does not describe as
    an inode or a directly addressed data block. *)
From S2P Require Import Prelude OnDisk Lru Context Io Imap SegTable Log LogView.
From S2P Require Import Inode FileView InodeDisk InodeCache Gc.

(** * States that differ in the log or in the usage table only *)

Lemma fs_wf_log_frame s s' : fs_wf s → log_wf s' → log_frame s s' → fs_wf s'.
Proof.
  intros [_ Hc Hi [Ha Hfr] Hb] Hl Hf. pose proof (lf_imap _ _ Hf) as Him. pose proof (lf_icache _ _ Hf) as Hic.
  split; [done|by rewrite Hic| | |by apply (lf_bytes _ _ Hf)].
  - intros p im. rewrite Hic, Him. apply Hi.
  - split; [|by rewrite Him]. intros ino loc ver. rewrite Him. unfold in_disk. rewrite (lf_disk_size _ _ Hf). apply Ha.
Qed.

(** The entry of a segment that is not being filled. *)
Lemma fs_wf_entry s seg f fc e :
  fs_wf s → away seg s → arr_get (st_entries (c_segtable s)) seg = Some e → disk_wf (f e) → is_u64 fc →
  fc = st_free_count (c_segtable s) + Z.b2z (is_free (f e)) →
  fs_wf (with_free_count fc (with_entry seg f s)).
Proof.
  intros [Hl Hc Hi Him Hb] (Hseg & Hfree & Hcur) He Hfe Hfc Heq. split; try done.
  apply arr_get_lookup in He as [_ He]. unfold free_at in Hfree.
  rewrite (proj2 (arr_get_lookup _ _ _) (conj (proj1 Hseg) He)) in Hfree.
  destruct Hl as [Ht ? ? ? ? ? ? ? Hcurrent ? ? ? Hsb ?]. split; try assumption.
  - eapply segtable_wf_entry; try done; [apply Hfc|]. rewrite Hfree. cbn. lia.
  - cbn. erewrite free_at_alter by (done || apply Hseg). by rewrite decide_False by congruence.
  - by apply sb_free_segments_wf.
Qed.

(** Changing the state of a segment in use to another state in use. *)
Lemma set_state_wf s seg st :
  fs_wf s → away seg s → st = LSFS_SEG_FULL ∨ st = LSFS_SEG_CLEANING →
  let s' := with_entry seg (λ e, e <| su_state := st |>) s in fs_wf s' ∧ away seg s'.
Proof.
  intros Hs Haw Hst. pose proof Haw as (Hseg & Hfree & Hcur).
  destruct (table_lookup _ _ (lw_table s (fs_log s Hs)) Hseg) as (e & He & Hlk & Hd).
  assert (is_free (e <| su_state := st |>) = false) as Hnf by by destruct Hst as [-> | ->].
  destruct Hs as [[Ht ? ? ? ? ? ? ? Hcurrent ? ? ? ? ?] Hc Hi Him Hb]. split.
  - split; try done. split; try assumption.
    + eapply (segtable_wf_entry _ _ e (λ e, e <| su_state := st |>) (st_free_count (c_segtable s))) in Ht;
        [exact Ht|done| |apply (st_wf_free _ Ht)|].
      * destruct Hd as (? & _ & ? & ? & ?). cbn. unfold is_u32 in *. split_and!; try done;
          destruct Hst as [-> | ->]; unfold LSFS_SEG_FULL, LSFS_SEG_CLEANING; lia.
      * rewrite Hnf. unfold free_at in Hfree. rewrite He in Hfree. rewrite Hfree. cbn. lia.
    + cbn. erewrite free_at_alter by (done || apply Hseg). by rewrite decide_False by congruence.
  - split_and!; [cbn; lia..| |done]. cbn. erewrite free_at_alter by (done || apply Hseg). by rewrite decide_True.
Qed.

Lemma direct_wf (i : lsfs_inode) k a :
  disk_wf i → is_u64 a → disk_wf (i <| i_direct := <[k := a]> (i_direct i) |>).
Proof.
  cbn. intros H Ha. destruct_and! H. split_and!; try assumption; [by rewrite length_insert|by apply Forall_insert].
Qed.

Section GcClean.
Context `{E : Env}.
Implicit Types s : lsfs_context.

(** What moving one block promises. *)
Record gc_step (seg : Z) s s' : Prop := {
  gs_wf : fs_wf s';
  gs_away : away seg s';
  gs_left : left_only seg s s';
  gs_count : ic_count (c_icache s') <= ic_count (c_icache s) + 1 }.

(** The map does not place inode [ino] at [loc] any more. *)
Definition moved s (ino loc : Z) : Prop := ∀ ver, imap_map (c_imap s) !! ino ≠ Some (loc, ver).

Lemma gc_step_idle seg s : fs_wf s → away seg s → gc_step seg s s.
Proof. intros Hs Ha. split; [done|done|apply left_only_refl|lia]. Qed.

Lemma append_fs_wp seg s data ino offset type :
  fs_wf s → away seg s → block_args data ino offset type →
  wp (lsfs_segment_append_block data ino offset type) (λ a s', fs_wf s' ∧ away seg s' ∧ log_frame s s' ∧
    (a ≠ 0 → (lsfs_block_to_segment a).1 ≠ seg ∧ is_u64 a ∧ in_disk s' a 1)) s.
Proof.
  intros Hs Ha Hargs. eapply wp_mono; [apply segment_append_done; [apply Hs|done]|].
  intros a s' (Hs' & Hf & Hlive & _ & Haw). destruct (Haw seg Ha) as [Ha' Hseg].
  split_and!; [by eapply fs_wf_log_frame|done|done|]. intros Hne. destruct (Hlive Hne) as [Hl _].
  split_and!; [by apply Hseg|by apply (live_u64 s')|by apply (live_addr_log s')].
Qed.

Lemma imap_set_fs_wp seg s ino loc :
  fs_wf s → away seg s → is_u32 ino → is_u64 loc → in_disk s loc 1 → ino < imap_next_ino (c_imap s) →
  (lsfs_block_to_segment loc).1 ≠ seg → is_Some (imap_map (c_imap s) !! ino) →
  wp (lsfs_imap_set ino loc) (λ _ s', gc_step seg s s' ∧ c_icache s' = c_icache s ∧
    ∃ ver, imap_map (c_imap s') !! ino = Some (loc, ver)) s.
Proof.
  intros Hs Ha Hino Hloc Hin Hlt Hseg [x Hx]. eapply wp_mono; [apply imap_set_wp; [apply Hs|done..]|].
  intros r s' (Hl & Hf & Hnx & Hset).
  destruct Hset as [[_ He]|(_ & Hnone & _)]; [|congruence].
  assert (c_disk_size s' = c_disk_size s ∧ c_disk s' = c_disk s ∧ c_icache s' = c_icache s) as (Hsz & Hd & Hic) by by rewrite Hf.
  destruct Hs as [_ Hc Hi [Haddr Hfr] Hb]. split; [|split; [done|rewrite He, lookup_insert_eq; eauto]]. split.
  - split; [done|by rewrite Hic| | |unfold disk_ok; by rewrite Hd].
    + intros p im. rewrite Hic, Hnx. apply Hi.
    + split; [|by eapply imap_fresh_entered]. eapply imap_addrs_entered; [done|done| |exact He].
      unfold in_disk in *. by rewrite Hsz.
  - rewrite Hf. exact Ha.
  - apply (left_only_set seg s s' s' ino loc LSFS_OK); [by left|done..].
  - rewrite Hic. lia.
Qed.

Lemma segment_of_block s seg i :
  log_wf s → 0 <= seg < st_count (c_segtable s) → 0 <= i < LSFS_SEGMENT_BLOCKS →
  u64 (lsfs_segment_to_block seg 0 + i) = lsfs_segment_to_block seg i ∧
  (lsfs_block_to_segment (lsfs_segment_to_block seg i)).1 = seg.
Proof.
  intros Hs Hseg Hi. pose proof (live_valid s seg Hs Hseg) as Hv. split.
  - unfold valid_segment, LSFS_SEGMENT_BLOCKS in *. rewrite !segment_to_block_eq by (done || lia).
    unfold LSFS_LOG_START, LSFS_SEGMENT_BLOCKS. rewrite u64_small; lia.
  - by rewrite block_to_segment_to_block.
Qed.

(** ** Inode blocks *)
Lemma gc_move_inode_wp seg s sd i info blk :
  fs_wf s → away seg s → 0 <= i < LSFS_SEGMENT_BLOCKS → arr_get sd i = Some blk → is_block blk → disk_wf info →
  wp (gc_move_inode sd (lsfs_segment_to_block seg 0) i info) (λ stop s', gc_step seg s s' ∧
    (stop = false → moved s' (bi_ino info) (lsfs_segment_to_block seg i))) s.
Proof.
  intros Hs Ha Hi Hget Hblk (Hino & Hoff & Hty & _). unfold gc_move_inode, lsfs_imap_get.
  destruct (segment_of_block s seg i (fs_log s Hs) (proj1 Ha) Hi) as [-> Hsegof].
  wp_step. wp_step. wp_step. eapply wp_of_opt; [apply imap_get_spec, (fs_log s Hs)|]. unfold moved.
  destruct (imap_map (c_imap s) !! bi_ino info) as [[loc ver]|] eqn:Hm.
  2:{ apply wp_ret. split; [by apply gc_step_idle|]. intros _ ver. by rewrite Hm. }
  destruct (Z.eqb_spec loc (lsfs_segment_to_block seg i)) as [Heq|Hne]; cbn [negb].
  2:{ apply wp_ret. split; [by apply gc_step_idle|]. intros _ v. rewrite Hm. congruence. }
  wp_step. eapply wp_of_opt; [exact Hget|]. wp_step. eapply wp_mono; [by apply (append_fs_wp seg)|].
  intros a s1 (Hs1 & Ha1 & Hf1 & Hnew). pose proof (lf_imap _ _ Hf1) as Him1.
  assert (gc_step seg s s1) as Hst1.
  { split; [done..| |rewrite (lf_icache _ _ Hf1); lia]. intros j l v. rewrite Him1. eauto. }
  destruct (Z.eqb_spec a 0) as [|Hane]; [by apply wp_ret|]. destruct (Hnew Hane) as (Hsg & Hu & Hin).
  wp_step. eapply wp_mono; [apply (imap_set_fs_wp seg); try done|].
  - rewrite Him1. apply (fs_imap s Hs). rewrite Hm. by eexists.
  - rewrite Him1, Hm. by eexists.
  - intros r s2 ([Hs2 Ha2 Hl2 _] & Hc2 & v & Hv). apply wp_ret. split.
    + split; [done..|eapply left_only_trans; [apply Hst1|done]|]. rewrite Hc2, (lf_icache _ _ Hf1). lia.
    + intros _ v'. rewrite Hv. congruence.
Qed.

(** ** Data blocks *)

(** The inode [lsfs_inode_get] returns is cached, and its use of the cache is a step. *)
Lemma inode_get_gc seg s ino :
  fs_wf s → away seg s → ic_count (c_icache s) + 1 < 2 ^ 31 →
  wp (lsfs_inode_get ino) (λ r s', gc_step seg s s' ∧
    (∀ p, r = Some p → ∃ im, ic_heap (c_icache s') !! p = Some im)) s.
Proof.
  intros Hs Ha Hn. eapply wp_mono; [by apply inode_get_wp|]. intros r s' (Hs' & Hst & Hr).
  destruct (cs_away _ _ _ Hst seg Ha) as [Ha' Hl']. destruct r as [p|].
  - destruct Hr as [(im & Hp & _ & Hh & Hc)|(i & loc & ver & next & _ & _ & _ & Hp & _ & Hc)];
      (split; [split; [done..|lia]|intros ? [= <-]]); [|eauto].
    rewrite Hh, lookup_insert_eq. eauto.
  - destruct Hr as (_ & _ & Hc). split; [|done]. split; [done..|lia].
Qed.

Lemma gc_data_live_wp s p im seg_start i info :
  ic_heap (c_icache s) !! p = Some im → disk_wf (im_disk_inode im) → disk_wf info →
  wp (gc_data_live p seg_start i info) (λ _ s', s' = s) s.
Proof.
  intros Hp Hd (_ & Hoff & _). unfold is_u32 in Hoff. unfold gc_data_live.
  destruct (Z.ltb_spec (bi_offset info) LSFS_DIRECT_BLOCKS) as [Hlt|]; [|by apply wp_ret].
  assert (length (i_direct (im_disk_inode im)) = 12%nat) as Hlen by by destruct_and! Hd.
  wp_step. eapply wp_intro; [by apply load_inode_run|]. unfold LSFS_DIRECT_BLOCKS in Hlt.
  destruct (arr_get_Some (i_direct (im_disk_inode im)) (bi_offset info)) as [a Hget]; [lia|].
  wp_step. eapply wp_of_opt; [exact Hget|]. by apply wp_ret.
Qed.

(** A changed block pointer. *)
Lemma gc_set_direct_wp s p im off a :
  fs_wf s → ic_heap (c_icache s) !! p = Some im → 0 <= off → is_u64 a →
  wp (gc_set_direct p off a) (λ _ s', fs_wf s' ∧ ∃ im', s' = with_inode p im' s) s.
Proof.
  intros Hs Hp Hoff Ha. destruct (icache_ranges_at s p im Hs Hp) as (Hd & Hl & Href). unfold gc_set_direct.
  destruct (Z.ltb_spec off LSFS_DIRECT_BLOCKS) as [Hlt|].
  2:{ apply wp_ret. split; [done|]. exists im. unfold with_inode.
      destruct s as [? ? ? ? [? ? ? ? ?]]. cbn in *. by rewrite insert_id. }
  assert (length (i_direct (im_disk_inode im)) = 12%nat) as Hlen by by destruct_and! Hd.
  unfold LSFS_DIRECT_BLOCKS in Hlt. wp_step. eapply wp_intro; [by apply load_inode_run|].
  wp_step. eapply wp_of_opt; [apply arr_set_ok; lia|]. eapply wp_intro; [by apply upd_inode_run|].
  split; [|by eexists]. eapply update_wf; try done. by apply direct_wf.
Qed.

Lemma put_gc seg s p im :
  fs_wf s → away seg s → ic_heap (c_icache s) !! p = Some im →
  wp (lsfs_inode_put (Some p)) (λ _ s', gc_step seg s s' ∧ ic_count (c_icache s') = ic_count (c_icache s)) s.
Proof.
  intros Hs Ha Hp. eapply wp_mono; [by apply inode_put_wp|]. intros [] s' [Hs' ->].
  split; [|done]. split; [done|done|exact (left_only_refl seg s)|cbn; lia].
Qed.

Lemma gc_step_trans seg s1 s2 s3 :
  gc_step seg s1 s2 → gc_step seg s2 s3 → ic_count (c_icache s3) <= ic_count (c_icache s2) → gc_step seg s1 s3.
Proof.
  intros [_ _ L1 C1] [W2 A2 L2 _] Hc. split; [done..|by eapply left_only_trans|lia].
Qed.

Lemma gc_move_data_wp seg s sd i info blk :
  fs_wf s → away seg s → ic_count (c_icache s) + 1 < 2 ^ 31 → arr_get sd i = Some blk → is_block blk → disk_wf info →
  wp (gc_move_data sd (lsfs_segment_to_block seg 0) i info) (λ _ s', gc_step seg s s') s.
Proof.
  intros Hs Ha Hn Hget Hblk Hinfo. pose proof Hinfo as (Hino & Hoff & Hty & _). unfold gc_move_data. wp_step.
  eapply wp_mono; [by apply (inode_get_gc seg)|]. intros r s1 [Hst1 Hp]. destruct r as [p|]; [|by apply wp_ret].
  destruct (Hp p eq_refl) as [im Him]. pose proof Hst1 as [Hs1 Ha1 _ _].
  destruct (icache_ranges_at s1 p im Hs1 Him) as (Hd & _ & _). wp_step.
  eapply wp_mono; [by eapply gc_data_live_wp|]. intros live ? ->. destruct live; wp_step.
  2:{ eapply wp_mono; [by eapply (put_gc seg)|]. intros [] s2 [Hst2 Hc2]. apply wp_ret.
      eapply gc_step_trans; [done..|lia]. }
  eapply wp_of_opt; [exact Hget|]. wp_step. eapply wp_mono; [by apply (append_fs_wp seg)|].
  intros a s2 (Hs2 & Ha2 & Hf2 & Hnew). pose proof (lf_icache _ _ Hf2) as Hic2.
  assert (ic_heap (c_icache s2) !! p = Some im) as Him2 by by rewrite Hic2.
  assert (gc_step seg s s2) as Hst2.
  { eapply (gc_step_trans seg s s1 s2); [done| |rewrite Hic2; lia].
    split; [done..| |rewrite Hic2; lia]. intros j l v. rewrite (lf_imap _ _ Hf2). eauto. }
  destruct (Z.eqb_spec a 0) as [|Hne]; wp_step.
  { eapply wp_mono; [by eapply (put_gc seg)|]. intros [] s3 [Hst3 Hc3]. apply wp_ret.
    eapply gc_step_trans; [done..|lia]. }
  destruct (Hnew Hne) as (_ & Hu & _).
  eapply wp_mono; [eapply gc_set_direct_wp; [done|exact Him2|apply Hoff|done]|]. intros [] s3 (Hs3 & im' & ->).
  wp_step. eapply wp_mono; [eapply (put_gc seg); [done|done|apply with_inode_lookup]|].
  intros [] s4 [Hst4 Hc4]. apply wp_ret. cbn in Hc4.
  eapply (gc_step_trans seg s s2); [done| |lia]. destruct Hst4 as [W4 A4 L4 _]. split; [done..|lia].
Qed.

(** ** The loop *)
Lemma gc_move_block_wp seg s sd i blk :
  fs_wf s → away seg s → ic_count (c_icache s) + 1 < 2 ^ 31 → 1 <= i < LSFS_SEGMENT_BLOCKS →
  arr_get sd i = Some blk → is_block blk → disk_wf (gc_info sd i) →
  wp (gc_move_block sd (lsfs_segment_to_block seg 0) i) (λ stop s', gc_step seg s s' ∧
    (stop = false → bi_ino (gc_info sd i) ≠ 0 → bi_type (gc_info sd i) = LSFS_BLOCK_TYPE_INODE →
       moved s' (bi_ino (gc_info sd i)) (lsfs_segment_to_block seg i))) s.
Proof.
  intros Hs Ha Hn Hi Hget Hblk Hinfo. unfold gc_move_block. cbv zeta.
  destruct (Z.eqb_spec (bi_ino (gc_info sd i)) 0) as [|Hne]; [apply wp_ret; split; [by apply gc_step_idle|done]|].
  destruct (Z.eqb_spec (bi_type (gc_info sd i)) LSFS_BLOCK_TYPE_INODE) as [|Hty].
  { eapply wp_mono; [eapply gc_move_inode_wp; try done; lia|]. intros stop s' [Hst Hmv]. by split; [|auto]. }
  destruct (Z.eqb_spec (bi_type (gc_info sd i)) LSFS_BLOCK_TYPE_DATA).
  - eapply wp_mono; [by eapply gc_move_data_wp|]. intros stop s' Hst. by split.
  - apply wp_ret. split; [by apply gc_step_idle|done].
Qed.

(** What the whole loop promises. *)
Definition all_moved (seg : Z) sd (ids : list Z) s : Prop :=
  ∀ i, i ∈ ids → bi_ino (gc_info sd i) ≠ 0 → bi_type (gc_info sd i) = LSFS_BLOCK_TYPE_INODE →
    moved s (bi_ino (gc_info sd i)) (lsfs_segment_to_block seg i).

Lemma gc_move_blocks_wp seg s sd ids :
  fs_wf s → away seg s → ic_count (c_icache s) + Z.of_nat (length ids) < 2 ^ 31 →
  (∀ i, i ∈ ids → 1 <= i < LSFS_SEGMENT_BLOCKS ∧ (∃ blk, arr_get sd i = Some blk ∧ is_block blk) ∧ disk_wf (gc_info sd i)) →
  wp (gc_move_blocks sd (lsfs_segment_to_block seg 0) ids) (λ stop s',
    fs_wf s' ∧ away seg s' ∧ left_only seg s s' ∧ (stop = false → all_moved seg sd ids s')) s.
Proof.
  revert s. induction ids as [|i ids IH]; intros s Hs Ha Hn Hids; cbn [gc_move_blocks].
  { apply wp_ret. split_and!; [done|done|apply left_only_refl|]. by intros _ i ?%elem_of_nil. }
  cbn [length] in Hn. destruct (Hids i ltac:(apply elem_of_cons; by left)) as (Hi & (blk & Hget & Hblk) & Hinfo). wp_step.
  eapply wp_mono; [eapply gc_move_block_wp; try done; lia|]. intros stop s1 [[Hs1 Ha1 Hl1 Hc1] Hmv1].
  destruct stop; [by apply wp_ret|]. eapply wp_mono; [apply IH; [done|done|lia|]|]; [intros j Hj; apply Hids, elem_of_cons; by right|].
  intros stop s2 (Hs2 & Ha2 & Hl2 & Hmv2). split_and!; [done|done|by eapply left_only_trans|].
  intros Hstop j [->|Hj]%elem_of_cons Hne Hty; [|by apply Hmv2].
  intros ver Hv. destruct (Hl2 _ _ _ Hv) as (v1 & Hv1); [|by eapply Hmv1].
  apply (segment_of_block s); [apply Hs|apply Ha|lia].
Qed.

(** ** The segment that was read *)

Lemma segment_read_wf s start :
  disk_ok s → let sd := disk_blocks (c_disk s) start (Z.to_nat LSFS_SEGMENT_BLOCKS) in
  Forall is_block sd ∧
  ∀ i, 1 <= i < LSFS_SEGMENT_BLOCKS → (∃ blk, arr_get sd i = Some blk ∧ is_block blk) ∧ disk_wf (gc_info sd i).
Proof.
  intros Hok sd. assert (Forall is_block sd) as Hall.
  { apply Forall_fmap, Forall_true. intros i. apply Hok. }
  split; [done|]. intros i Hi. unfold LSFS_SEGMENT_BLOCKS in *.
  assert (length sd = Z.to_nat 1024) as Hlen by apply length_disk_blocks. split.
  - destruct (arr_get_Some sd i) as [blk Hb]; [lia|]. exists blk. split; [done|].
    apply arr_get_lookup in Hb as [_ Hb]. by eapply Forall_lookup_1.
  - destruct (length_concat_blocks sd Hall) as [Hl Hb]. unfold gc_info, dec_at. apply dec_wf.
    + by apply Forall_drop, Forall_drop.
    + rewrite !length_drop, Hl, Hlen. change (sizeof lsfs_block_info) with 12%nat.
      change (sizeof lsfs_segment_header) with 24%nat. pose proof (mul_BS (Z.to_nat 1024)). lia.
Qed.

(** ** Releasing the segment *)
Lemma free_fs_wf s seg f :
  fs_wf s → away seg s → (∀ e, disk_wf e → disk_wf (f e) ∧ is_free (f e) = true) →
  let s' := with_free_count (u32 (st_free_count (c_segtable s) + 1)) (with_entry seg f s) in
  fs_wf s' ∧ free_at (st_entries (c_segtable s')) seg = true ∧
  st_free_count (c_segtable s') = st_free_count (c_segtable s) + 1.
Proof.
  intros Hs Ha Hf. pose proof Ha as (Hseg & Hfree & _). pose proof (lw_table s (fs_log s Hs)) as Ht.
  destruct (table_lookup _ _ Ht Hseg) as (e & He & Hlk & Hd). destruct (Hf e Hd) as [Hfd Hff].
  unfold free_at in Hfree. rewrite He in Hfree. pose proof (free_count_room _ _ e Ht Hlk Hfree) as Hroom.
  rewrite u32_small by lia. split_and!.
  - apply (fs_wf_entry s seg f _ e); try done; [unfold is_u64; lia|]. rewrite Hff. done.
  - cbn. erewrite free_at_alter by (done || apply Hseg). by rewrite decide_True.
  - done.
Qed.

Lemma mark_free_wf e : disk_wf e → disk_wf (mark_free e) ∧ is_free (mark_free e) = true.
Proof.
  intros (? & _ & _ & ? & ?). split; [|done]. cbn. unfold is_u32, LSFS_SEG_FREE in *. split_and!; try done; lia.
Qed.

Lemma state_free_wf e :
  disk_wf e → disk_wf (e <| su_state := LSFS_SEG_FREE |>) ∧ is_free (e <| su_state := LSFS_SEG_FREE |>) = true.
Proof.
  intros (? & _ & ? & ? & ?). split; [|done]. cbn. unfold is_u32, LSFS_SEG_FREE in *. split_and!; try done; lia.
Qed.

Lemma gc_release_run s seg :
  fs_wf s → away seg s →
  gc_release seg s =
    Some (tt, with_free_count (u32 (st_free_count (c_segtable s) + 1)) (with_entry seg mark_free s)).
Proof.
  intros Hs Ha. unfold gc_release.
  by erewrite bind_run by (apply usage_update_run; [apply (fs_log s Hs)|apply Ha]).
Qed.

(** What cleaning a segment promises. *)
Definition segment_cleaned (seg : Z) s (r : Z) s' : Prop :=
  fs_wf s' ∧ left_only seg s s' ∧
  (r = LSFS_OK → free_at (st_entries (c_segtable s')) seg = true) ∧
  (r ≠ LSFS_OK → r ≠ LSFS_ERR_NOSPC → away seg s' ∧ c_imap s' = c_imap s).

Lemma gc_abandon_wp s0 s seg r :
  fs_wf s → away seg s → c_imap s = c_imap s0 → r ≠ LSFS_OK →
  wp (gc_abandon seg r) (λ r' s', r' = r ∧ segment_cleaned seg s0 r' s') s.
Proof.
  intros Hs Ha Him Hr. unfold gc_abandon, set_state. wp_step.
  eapply wp_intro; [apply usage_update_run; [apply (fs_log s Hs)|apply Ha]|]. apply wp_ret. split; [done|].
  destruct (set_state_wf s seg LSFS_SEG_FULL Hs Ha ltac:(by left)) as [Hs' Ha'].
  split_and!; [done| |done|done]. intros ino loc ver. cbn. rewrite Him. eauto.
Qed.

Lemma gc_clean_marked_wp s seg :
  fs_wf s → away seg s → ic_count (c_icache s) + LSFS_SEGMENT_BLOCKS < 2 ^ 31 →
  let sd := disk_blocks (c_disk s) (lsfs_segment_to_block seg 0) (Z.to_nat LSFS_SEGMENT_BLOCKS) in
  wp (gc_clean_marked seg) (λ r s', segment_cleaned seg s r s' ∧
    (r = LSFS_OK → all_moved seg sd
       (seqZ 1 (Z.min (sh_block_count (dec (concat sd))) LSFS_SEGMENT_BLOCKS - 1)) s')) s.
Proof.
  intros Hs Ha Hn sd. unfold gc_clean_marked. wp_step. eapply wp_intro; [done|]. set (s1 := s <| c_tick ::= S |>).
  assert (fs_wf s1) as Hs1 by by apply (fs_wf_io s).
  assert (∀ s2 e, fs_wf s2 → io_frame s s2 → e ≠ LSFS_OK → wp (gc_abandon seg e) (λ r s', segment_cleaned seg s r s' ∧
    (r = LSFS_OK → all_moved seg sd
       (seqZ 1 (Z.min (sh_block_count (dec (concat sd))) LSFS_SEGMENT_BLOCKS - 1)) s')) s2) as Hfail.
  { intros s2 e Hs2 Hf2 He. eapply wp_mono; [apply (gc_abandon_wp s s2); try done; by rewrite Hf2|].
    intros r s' [-> Hc]. by split. }
  destruct (env_alloc (c_tick s)); cbn [negb]; [|by apply Hfail]. cbv zeta. wp_step.
  eapply wp_mono; [apply read_blocks_frame, in_disk_addressable, segment_in_disk; [apply Hs1|apply Ha|done..]|].
  intros got s2 (Hf2 & Hgot & Hd2). assert (fs_wf s2) as Hs2 by by apply (fs_wf_io s1).
  assert (io_frame s s2) as Hf by by apply (io_frame_trans _ s1).
  destruct Hgot as [-> | ->]; [|by apply Hfail].
  change (c_disk s1) with (c_disk s). fold sd. destruct (negb _); [by apply Hfail|].
  destruct (segment_read_wf s (lsfs_segment_to_block seg 0) (fs_bytes s Hs)) as [_ Hsd]. fold sd in Hsd.
  assert (c_icache s2 = c_icache s) as Hic by by rewrite Hf. assert (away seg s2) as Ha2 by by rewrite Hf.
  wp_step. eapply wp_mono; [apply (gc_move_blocks_wp seg); try done|].
  { rewrite Hic, length_seqZ. unfold LSFS_SEGMENT_BLOCKS in *. lia. }
  { intros i Hi%elem_of_seqZ. split; [lia|]. apply Hsd. lia. }
  intros stop s3 (Hs3 & Ha3 & Hl3 & Hmv). wp_step.
  eapply wp_intro; [by apply gc_release_run|]. apply wp_ret.
  destruct (free_fs_wf s3 seg mark_free Hs3 Ha3 mark_free_wf) as (Hs4 & Hfree & _).
  split; [split_and!|].
  - exact Hs4.
  - intros ino loc ver Hv Hseg. destruct (Hl3 ino loc ver Hv Hseg) as (v & Hv0). rewrite Hf in Hv0. eauto.
  - intros _. exact Hfree.
  - by destruct stop.
  - destruct stop; [done|]. intros _. exact (Hmv eq_refl).
Qed.
End GcClean.

(** ** Blocks the collector does not look after *)
Definition ignored (info : lsfs_block_info) : Prop :=
  bi_ino info = 0 ∨ (bi_type info ≠ LSFS_BLOCK_TYPE_INODE ∧ bi_type info ≠ LSFS_BLOCK_TYPE_DATA).

Lemma gc_move_ignored `{E : Env} s sd seg_start ids :
  (∀ i, i ∈ ids → ignored (gc_info sd i)) → gc_move_blocks sd seg_start ids s = Some (false, s).
Proof.
  induction ids as [|i ids IH]; intros Hig; [done|]. cbn [gc_move_blocks].
  assert (gc_move_block sd seg_start i s = Some (false, s)) as Hi.
  { unfold gc_move_block. destruct (Hig i ltac:(apply elem_of_cons; by left)) as [-> |[H1 H2]]; [done|].
    rewrite (proj2 (Z.eqb_neq _ _) H1), (proj2 (Z.eqb_neq _ _) H2). by case_match. }
  erewrite bind_run by exact Hi. apply IH. intros j Hj. apply Hig, elem_of_cons. by right.
Qed.

(** * Theorems *)

(** C19. What cleaning a segment other than the one being filled does, however calls fail:
    it ends and keeps the invariant of log, inode map and inode cache; a number behind the
    table is refused and a segment that is not full is left alone, with success; from a
    full segment inodes only move away, and success means that the segment is free and, if
    it was counted to have live blocks, that no inode is left at the place where the
    segment's summary describes it.  (A segment counted to have none is freed unread.) *)
Theorem gc_clean_safe `{E : Env} s seg :
  fs_wf s → 0 <= seg → seg ≠ sg_segment_id (c_segbuf s) →
  ic_count (c_icache s) + LSFS_SEGMENT_BLOCKS < 2 ^ 31 →
  let sd := disk_blocks (c_disk s) (lsfs_segment_to_block seg 0) (Z.to_nat LSFS_SEGMENT_BLOCKS) in
  wp (lsfs_gc_clean_segment seg) (λ r s', fs_wf s' ∧
    (st_count (c_segtable s) <= seg → r = LSFS_ERR_INVAL ∧ s' = s) ∧
    ∀ e, arr_get (st_entries (c_segtable s)) seg = Some e →
      if su_state e =? LSFS_SEG_FULL then
        left_only seg s s' ∧
        (r = LSFS_OK → free_at (st_entries (c_segtable s')) seg = true ∧
           (su_live_blocks e ≠ 0 → all_moved seg sd
              (seqZ 1 (Z.min (sh_block_count (dec (concat sd))) LSFS_SEGMENT_BLOCKS - 1)) s'))
      else r = LSFS_OK ∧ s' = s) s.
Proof.
  intros Hs H0 Hcur Hn sd. unfold lsfs_gc_clean_segment. wp_step. apply wp_gets.
  pose proof (lw_table s (fs_log s Hs)) as Ht.
  destruct (Z.leb_spec (st_count (c_segtable s)) seg) as [Hbig|Hlt].
  { apply wp_ret. split_and!; [done..|]. intros e He%arr_get_bound. pose proof (st_wf_length _ Ht). lia. }
  destruct (table_lookup _ seg Ht) as (e & He & _ & _); [lia|]. wp_step. eapply wp_of_opt; [exact He|].
  rewrite He.
  destruct (Z.eqb_spec (su_state e) LSFS_SEG_FULL) as [Hfull|Hnf]; cbn [negb].
  2:{ apply wp_ret. split_and!; [done|lia|]. intros ? [= <-]. by rewrite (proj2 (Z.eqb_neq _ _) Hnf). }
  assert (away seg s) as Ha.
  { split_and!; [lia..| |congruence]. unfold free_at, is_free. rewrite He, Hfull. done. }
  destruct (Z.eqb_spec (su_live_blocks e) 0) as [Hz|Hnz].
  - unfold set_state. wp_step. eapply wp_intro; [apply usage_update_run; [done|lia]|]. wp_step.
    unfold set_free_count. apply wp_modify, wp_ret.
    destruct (free_fs_wf s seg _ Hs Ha state_free_wf) as (Hs' & Hfree & _).
    split_and!; [exact Hs'|lia|]. intros ? [= <-]. rewrite Hfull, Z.eqb_refl.
    split; [exact (left_only_refl seg s)|]. intros _. by split.
  - unfold set_state. wp_step. eapply wp_intro; [apply usage_update_run; [done|lia]|].
    destruct (set_state_wf s seg LSFS_SEG_CLEANING Hs Ha ltac:(by right)) as [Hs1 Ha1].
    eapply wp_mono; [apply gc_clean_marked_wp; [exact Hs1|exact Ha1|exact Hn]|].
    intros r s' [(Hs' & Hl & Hok & _) Hmv]. split_and!; [done|lia|].
    intros ? [= <-]. rewrite Hfull, Z.eqb_refl. split; [exact Hl|]. intros Hr. split; [by apply Hok|].
    intros _. by apply Hmv.
Qed.

(** C29. What the summary does not describe as an inode or a data block is given up: on a
    healthy device, cleaning a full segment that still has live blocks, none of which
    its summary describes as one of the two (blocks of pointers, or any block of a
    segment of more than 341, whose summary holds no descriptions), succeeds and frees
    the segment without copying anything; log buffer, inode map, inode cache and disk
    stay as they are, so whatever pointed into the segment points into free space. *)
Theorem gc_frees_unmoved `{E : Env, !Healthy E} s seg e :
  fs_wf s → seg ≠ sg_segment_id (c_segbuf s) → arr_get (st_entries (c_segtable s)) seg = Some e →
  su_state e = LSFS_SEG_FULL → su_live_blocks e ≠ 0 →
  let sd := disk_blocks (c_disk s) (lsfs_segment_to_block seg 0) (Z.to_nat LSFS_SEGMENT_BLOCKS) in
  sh_magic (dec (concat sd)) = LSFS_SEGMENT_MAGIC →
  (∀ i, 1 <= i < LSFS_SEGMENT_BLOCKS → ignored (gc_info sd i)) →
  ∃ s', lsfs_gc_clean_segment seg s = Some (LSFS_OK, s') ∧
    c_segbuf s' = c_segbuf s ∧ c_imap s' = c_imap s ∧ c_icache s' = c_icache s ∧ c_disk s' = c_disk s ∧
    free_at (st_entries (c_segtable s')) seg = true ∧
    st_free_count (c_segtable s') = st_free_count (c_segtable s) + 1.
Proof.
  intros Hs Hcur He Hfull Hlive sd Hmagic Hig. pose proof (lw_table s (fs_log s Hs)) as Ht.
  assert (0 <= seg < st_count (c_segtable s)) as Hseg.
  { pose proof (arr_get_bound _ _ _ He). pose proof (st_wf_length _ Ht). lia. }
  assert (away seg s) as Ha.
  { split_and!; [lia..| |congruence]. unfold free_at, is_free. rewrite He, Hfull. done. }
  destruct (set_state_wf s seg LSFS_SEG_CLEANING Hs Ha ltac:(by right)) as [Hs1 Ha1].
  set (s1 := with_entry seg _ s) in *. unfold lsfs_gc_clean_segment. erewrite bind_run by done.
  rewrite (proj2 (Z.leb_gt _ _)) by lia. rewrite He. erewrite bind_run by done. rewrite Hfull, Z.eqb_refl. cbn [negb].
  rewrite (proj2 (Z.eqb_neq _ _) Hlive). erewrite bind_run by by apply usage_update_run. fold s1.
  unfold gc_clean_marked. erewrite bind_run by done. rewrite healthy_alloc. cbn [negb]. cbv zeta.
  set (s2 := s1 <| c_tick ::= S |>).
  assert (in_disk s2 (lsfs_segment_to_block seg 0) LSFS_SEGMENT_BLOCKS) as Hin.
  { assert (fs_wf s2) as Hs2 by by apply (fs_wf_io s1). apply segment_in_disk; [apply Hs2|apply Ha1|done..]. }
  erewrite bind_run by by apply read_blocks_ok. change (c_disk s2) with (c_disk s). fold sd.
  cbv beta iota. rewrite Hmagic, Z.eqb_refl. cbn [negb].
  erewrite bind_run by (apply gc_move_ignored; intros i Hi%elem_of_seqZ; apply Hig; lia).
  assert (away seg (ticked s2)) as Ha3 by done.
  assert (fs_wf (ticked s2)) as Hs3 by by apply (fs_wf_io s1).
  destruct (free_fs_wf (ticked s2) seg mark_free Hs3 Ha3 mark_free_wf) as (_ & Hfree & Hcount).
  erewrite bind_run by by apply gc_release_run.
  eexists. split; [reflexivity|]. by split_and!.
Qed.
