(* ===== verification/Fuse.v ===== *)
(** The FUSE handlers, [src/fuse_ops.c].  A handler is the operation it performs on the
    global context together with the reply it sends; a file handle or a request that the
    handler only passes on is left out.  Pointers to inodes are addresses in the inode
    cache, so two names of one inode are the same address. *)
From S2P Require Import Prelude OnDisk Lru Context Io Imap SegTable Log Inode.
From S2P Require Import Directory.

(** * The FUSE interface *)
Definition FUSE_ROOT_ID : Z := 1.
Definition FUSE_SET_ATTR_MODE : Z := 1.
Definition FUSE_SET_ATTR_UID : Z := 2.
Definition FUSE_SET_ATTR_GID : Z := 4.
Definition FUSE_SET_ATTR_SIZE : Z := 8.
Definition FUSE_SET_ATTR_ATIME : Z := 16.
Definition FUSE_SET_ATTR_MTIME : Z := 32.

Definition ENOENT : Z := 2.
Definition EIO : Z := 5.
Definition ENOMEM : Z := 12.
Definition EEXIST : Z := 17.
Definition ENOTDIR : Z := 20.
Definition EISDIR : Z := 21.
Definition ENOSPC : Z := 28.
Definition ENOTEMPTY : Z := 39.

(** [struct fuse_entry_param]; the timeouts are in seconds. *)
Record fuse_entry_param := mk_entry_param {
  e_ino : Z; e_generation : Z; e_attr : stat; e_attr_timeout : Z; e_entry_timeout : Z }.

(** [struct statvfs] as filled by the handler; the other fields are zero. *)
Record statvfs := mk_statvfs {
  f_bsize : Z; f_frsize : Z; f_blocks : Z; f_bfree : Z; f_bavail : Z;
  f_files : Z; f_ffree : Z; f_favail : Z; f_namemax : Z }.

(** One constructor for each [fuse_reply_*] function. *)
Inductive reply :=
  | reply_err (errno : Z)
  | reply_entry (e : fuse_entry_param)
  | reply_create (e : fuse_entry_param)
  | reply_attr (st : stat) (timeout : Z)
  | reply_open
  | reply_buf (bytes : list Z)
  | reply_write (count : Z)
  | reply_statfs (st : statvfs).

Definition S_ISDIR (mode : Z) : bool := Z.land mode S_IFMT =? S_IFDIR.

(** [LSFS_BLOCKS_FOR_SIZE] on an unsigned and on a signed 64-bit size *)
Definition blocks_for_size (size : Z) : Z := u64 (size + LSFS_BLOCK_SIZE - 1) / LSFS_BLOCK_SIZE.
Definition blocks_for_off (size : Z) : option Z :=
  n ← i64_check (size + LSFS_BLOCK_SIZE); Some (u64 ((n - 1) ÷ LSFS_BLOCK_SIZE)).

(** [flags & flag] as a condition *)
Definition has_flag (flags flag : Z) : bool := negb (Z.land flags flag =? 0).

(** [(uint64_t)ts.tv_sec * 1000000000ULL + (uint64_t)ts.tv_nsec] *)
Definition ns_of_timespec (ts : Z * Z) : Z := u64 (u64 (u64 ts.1 * 1000000000) + u64 ts.2).

Section FuseOps.
Context `{E : Env}.

Definition get_inode (ino : Z) : Op (option Z) :=
  let ino := if ino =? FUSE_ROOT_ID then LSFS_ROOT_INO else ino in
  lsfs_inode_get (u32 ino).

(** The entry a reply carries for the inode at [p]. *)
Definition entry_of (p : Z) : Op fuse_entry_param :=
  i ← load_inode p;
  mret (mk_entry_param (i_ino (im_disk_inode i)) (i_generation (im_disk_inode i))
          (lsfs_inode_to_stat (im_disk_inode i)) 1 1).

(** Dropping the references in the order given, then replying. *)
Definition put_reply (ps : list Z) (r : reply) : Op reply :=
  _ ← for_each ps (λ p, lsfs_inode_put (Some p));
  mret r.

(** ** Names and attributes *)

Definition lsfs_op_lookup (parent : Z) (name : list Z) : Op reply :=
  dir ← get_inode parent;
  match dir with
  | None => mret (reply_err ENOENT)
  | Some parent_inode =>
      r ← lsfs_dir_lookup parent_inode name;
      match r with
      | Err _ => put_reply [parent_inode] (reply_err ENOENT)
      | Ok (child_ino, _) =>
          _ ← lsfs_inode_put (Some parent_inode);
          child ← lsfs_inode_get child_ino;
          match child with
          | None => mret (reply_err ENOENT)
          | Some child_inode =>
              i ← load_inode child_inode;
              put_reply [child_inode]
                (reply_entry (mk_entry_param child_ino (i_generation (im_disk_inode i))
                                (lsfs_inode_to_stat (im_disk_inode i)) 1 1))
          end
      end
  end.

Definition lsfs_op_getattr (ino : Z) : Op reply :=
  r ← get_inode ino;
  match r with
  | None => mret (reply_err ENOENT)
  | Some inode =>
      i ← load_inode inode;
      put_reply [inode] (reply_attr (lsfs_inode_to_stat (im_disk_inode i)) 1)
  end.

(** [if (to_set & flag) { inode->disk_inode = f(inode->disk_inode); inode->dirty = true; }] *)
Definition set_attr_if (to_set flag inode : Z) (f : lsfs_inode → lsfs_inode) : Op () :=
  if has_flag to_set flag
  then upd_inode inode (λ i, i <| im_disk_inode ::= f |> <| im_dirty := true |>)
  else mret tt.

(** [if (direct[k]) { lsfs_gc_mark_block_dead(direct[k]); direct[k] = 0; }] *)
Definition drop_direct (inode k : Z) : Op () :=
  i ← load_inode inode;
  addr ← of_opt (arr_get (i_direct (im_disk_inode i)) k);
  if negb (addr =? 0) then
    _ ← lsfs_gc_mark_block_dead addr;
    ds ← of_opt (arr_set (i_direct (im_disk_inode i)) k 0);
    upd_disk_inode inode (λ d, d <| i_direct := ds |>)
  else mret tt.

(** The blocks that a smaller size cuts off, as far as they are direct ones. *)
Definition truncate_blocks (inode st_size : Z) : Op () :=
  i ← load_inode inode;
  let size := i_size (im_disk_inode i) in
  if u64 st_size <? size then
    new_blocks ← of_opt (blocks_for_off st_size);
    let old_blocks := blocks_for_size size in
    for_each (seqZ new_blocks (Z.min old_blocks LSFS_DIRECT_BLOCKS - new_blocks)) (drop_direct inode)
  else mret tt.

Definition lsfs_op_setattr (ino : Z) (attr : stat) (to_set : Z) : Op reply :=
  r ← get_inode ino;
  match r with
  | None => mret (reply_err ENOENT)
  | Some inode =>
      _ ← set_attr_if to_set FUSE_SET_ATTR_MODE inode (λ d, d <| i_mode ::= λ m,
            Z.lor (Z.land m S_IFMT) (Z.land (st_mode attr) (u32 (Z.lnot S_IFMT))) |>);
      _ ← set_attr_if to_set FUSE_SET_ATTR_UID inode (λ d, d <| i_uid := st_uid attr |>);
      _ ← set_attr_if to_set FUSE_SET_ATTR_GID inode (λ d, d <| i_gid := st_gid attr |>);
      _ ← (if has_flag to_set FUSE_SET_ATTR_SIZE then truncate_blocks inode (st_size attr) else mret tt);
      _ ← set_attr_if to_set FUSE_SET_ATTR_SIZE inode (λ d, d <| i_size := u64 (st_size attr) |>);
      _ ← set_attr_if to_set FUSE_SET_ATTR_ATIME inode (λ d, d <| i_atime := ns_of_timespec (st_atim attr) |>);
      _ ← set_attr_if to_set FUSE_SET_ATTR_MTIME inode (λ d, d <| i_mtime := ns_of_timespec (st_mtim attr) |>);
      i ← load_inode inode;
      _ ← (if im_dirty i then
             now ← lsfs_get_time_ns;
             _ ← upd_disk_inode inode (λ d, d <| i_ctime := now |>);
             lsfs_inode_write inode
           else mret LSFS_OK);
      i ← load_inode inode;
      put_reply [inode] (reply_attr (lsfs_inode_to_stat (im_disk_inode i)) 1)
  end.

(** ** Reading a directory

    [direntry name st off] are the bytes of an entry in the reply's format;
    [fuse_add_direntry] returns their number and stores them when they fit. *)
Section ReadDir.
Variable direntry : list Z → stat → Z → list Z.

(** [struct readdir_ctx]: the capacity of the buffer, and what is in it *)
Record readdir_ctx := mk_readdir_ctx { rd_size : Z; rd_buf : list Z }.

Definition type_to_mode (type : Z) : Z :=
  if type =? LSFS_FT_DIR then S_IFDIR
  else if type =? LSFS_FT_REG_FILE then S_IFREG
  else if type =? LSFS_FT_SYMLINK then S_IFLNK
  else 0.

Definition readdir_callback : dir_callback readdir_ctx := λ rctx name ino type offset,
  let st := mk_stat ino (type_to_mode type) 0 0 0 0 0 0 (0, 0) (0, 0) (0, 0) in
  next ← of_opt (i64_check (offset + 1));
  let ent := direntry name st next in
  let room := rd_size rctx - Z.of_nat (length (rd_buf rctx)) in
  mret (if room <? Z.of_nat (length ent) then (rctx, 1)
        else (mk_readdir_ctx (rd_size rctx) (rd_buf rctx ++ ent), 0)).

Definition lsfs_op_readdir (ino size off : Z) : Op reply :=
  r ← get_inode ino;
  match r with
  | None => mret (reply_err ENOENT)
  | Some inode =>
      ok ← ask env_alloc;
      if negb ok then put_reply [inode] (reply_err ENOMEM) else
      r ← lsfs_dir_iterate inode readdir_callback (mk_readdir_ctx size []) off;
      put_reply [inode] (reply_buf (rd_buf r.1))
  end.
End ReadDir.

(** ** Files *)

Definition lsfs_op_open (ino : Z) : Op reply :=
  r ← get_inode ino;
  match r with
  | None => mret (reply_err ENOENT)
  | Some inode => put_reply [inode] reply_open
  end.

(** Every round of the loops below but the first begins at a block boundary and moves
    to the next one. *)
Definition transfer_fuel (size : Z) : nat := Z.to_nat (size / LSFS_BLOCK_SIZE + 3).

(** The loop of [lsfs_op_read]; [buf] holds the bytes read so far. *)
Fixpoint read_loop (fuel : nat) (inode off size : Z) (buf : list Z) : Op (list Z) :=
  match fuel with
  | O => undefined
  | S fuel =>
      let bytes_read := Z.of_nat (length buf) in
      if size <=? bytes_read then mret buf else
      let pos := u64 (off + bytes_read) in
      let block_off := pos mod LSFS_BLOCK_SIZE in
      let to_read := Z.min (LSFS_BLOCK_SIZE - block_off) (size - bytes_read) in
      r ← lsfs_inode_read_block inode (pos / LSFS_BLOCK_SIZE);
      match r with
      | Err _ => mret buf
      | Ok block => read_loop fuel inode off size (buf ++ slice (Z.to_nat block_off) (Z.to_nat to_read) block)
      end
  end.

Definition lsfs_op_read (ino size off : Z) : Op reply :=
  r ← get_inode ino;
  match r with
  | None => mret (reply_err ENOENT)
  | Some inode =>
      i ← load_inode inode;
      let isize := i_size (im_disk_inode i) in
      if isize <=? u64 off then put_reply [inode] (reply_buf []) else
      let size := if isize <? u64 (u64 off + size) then u64 (isize - off) else size in
      ok ← ask env_alloc;
      if negb ok then put_reply [inode] (reply_err ENOMEM) else
      buf ← read_loop (transfer_fuel size) inode off size [];
      now ← lsfs_get_time_ns;
      _ ← upd_disk_inode inode (λ d, d <| i_atime := now |>);
      put_reply [inode] (reply_buf buf)
  end.

(** The loop of [lsfs_op_write]: [bytes_written] so far, [block_buf] between the rounds. *)
Fixpoint write_loop (fuel : nat) (inode off : Z) (buf : list Z) (bytes_written : Z)
    (block_buf : list Z) : Op Z :=
  match fuel with
  | O => undefined
  | S fuel =>
      let size := Z.of_nat (length buf) in
      if size <=? bytes_written then mret bytes_written else
      let pos := u64 (off + bytes_written) in
      let block_idx := pos / LSFS_BLOCK_SIZE in
      let block_off := pos mod LSFS_BLOCK_SIZE in
      let to_write := Z.min (LSFS_BLOCK_SIZE - block_off) (size - bytes_written) in
      block ← (if to_write <? LSFS_BLOCK_SIZE then
                 r ← lsfs_inode_read_block inode block_idx;
                 mret (match r with Ok block => block | Err _ => zero_block end)
               else mret block_buf);
      let block := splice block (Z.to_nat block_off)
                     (slice (Z.to_nat bytes_written) (Z.to_nat to_write) buf) in
      r ← lsfs_inode_write_block inode block_idx block;
      if negb (r =? LSFS_OK) then mret bytes_written else
      write_loop fuel inode off buf (bytes_written + to_write) block
  end.

Definition lsfs_op_write (ino : Z) (buf : list Z) (off : Z) : Op reply :=
  r ← get_inode ino;
  match r with
  | None => mret (reply_err ENOENT)
  | Some inode =>
      junk ← ask env_mem;
      bytes_written ← write_loop (transfer_fuel (Z.of_nat (length buf))) inode off buf 0 (uninit_block junk);
      let end_pos := u64 (off + bytes_written) in
      _ ← upd_disk_inode inode (λ d, if i_size d <? end_pos then d <| i_size := end_pos |> else d);
      now ← lsfs_get_time_ns;
      _ ← upd_inode inode (λ i, i <| im_disk_inode ::= λ d, d <| i_mtime := now |> <| i_ctime := now |> |>
                                  <| im_dirty := true |>);
      _ ← lsfs_inode_write inode;
      put_reply [inode] (reply_write bytes_written)
  end.

(** ** Creating *)

(** [lsfs_inode_free(new); put(new); put(parent); reply EIO] *)
Definition undo_alloc (new_inode parent_inode : Z) : Op reply :=
  _ ← lsfs_inode_free new_inode;
  put_reply [new_inode; parent_inode] (reply_err EIO).

Definition lsfs_op_create (parent : Z) (name : list Z) (mode : Z) : Op reply :=
  dir ← get_inode parent;
  match dir with
  | None => mret (reply_err ENOENT)
  | Some parent_inode =>
      r ← lsfs_dir_lookup parent_inode name;
      match r with
      | Ok _ => put_reply [parent_inode] (reply_err EEXIST)
      | Err _ =>
          new ← lsfs_inode_alloc (Z.lor S_IFREG (Z.land mode 511));
          match new with
          | None => put_reply [parent_inode] (reply_err ENOSPC)
          | Some new_inode =>
              i ← load_inode new_inode;
              r ← lsfs_dir_add parent_inode name (i_ino (im_disk_inode i)) LSFS_FT_REG_FILE;
              if negb (r =? LSFS_OK) then undo_alloc new_inode parent_inode else
              _ ← lsfs_inode_write new_inode;
              _ ← lsfs_inode_write parent_inode;
              e ← entry_of new_inode;
              put_reply [new_inode; parent_inode] (reply_create e)
          end
      end
  end.

Definition lsfs_op_mkdir (parent : Z) (name : list Z) (mode : Z) : Op reply :=
  dir ← get_inode parent;
  match dir with
  | None => mret (reply_err ENOENT)
  | Some parent_inode =>
      r ← lsfs_dir_lookup parent_inode name;
      match r with
      | Ok _ => put_reply [parent_inode] (reply_err EEXIST)
      | Err _ =>
          new ← lsfs_inode_alloc (Z.lor S_IFDIR (Z.land mode 511));
          match new with
          | None => put_reply [parent_inode] (reply_err ENOSPC)
          | Some new_inode =>
              let parent_ino := if parent =? FUSE_ROOT_ID then LSFS_ROOT_INO else u32 parent in
              r ← lsfs_dir_init new_inode parent_ino;
              if negb (r =? LSFS_OK) then undo_alloc new_inode parent_inode else
              i ← load_inode new_inode;
              r ← lsfs_dir_add parent_inode name (i_ino (im_disk_inode i)) LSFS_FT_DIR;
              if negb (r =? LSFS_OK) then undo_alloc new_inode parent_inode else
              _ ← upd_inode parent_inode (λ i, i <| im_disk_inode ::= λ d, d <| i_nlink ::= λ n, u32 (n + 1) |> |>
                                                 <| im_dirty := true |>);
              _ ← lsfs_inode_write new_inode;
              _ ← lsfs_inode_write parent_inode;
              e ← entry_of new_inode;
              put_reply [new_inode; parent_inode] (reply_entry e)
          end
      end
  end.

(** ** Removing *)

Definition lsfs_op_unlink (parent : Z) (name : list Z) : Op reply :=
  dir ← get_inode parent;
  match dir with
  | None => mret (reply_err ENOENT)
  | Some parent_inode =>
      r ← lsfs_dir_lookup parent_inode name;
      match r with
      | Err _ => put_reply [parent_inode] (reply_err ENOENT)
      | Ok (file_ino, _) =>
          file ← lsfs_inode_get file_ino;
          match file with
          | None => put_reply [parent_inode] (reply_err ENOENT)
          | Some file_inode =>
              i ← load_inode file_inode;
              if S_ISDIR (i_mode (im_disk_inode i))
              then put_reply [file_inode; parent_inode] (reply_err EISDIR) else
              r ← lsfs_dir_remove parent_inode name;
              if negb (r =? LSFS_OK) then put_reply [file_inode; parent_inode] (reply_err EIO) else
              _ ← upd_disk_inode file_inode (λ d, d <| i_nlink ::= λ n, u32 (n - 1) |>);
              now ← lsfs_get_time_ns;
              _ ← upd_disk_inode file_inode (λ d, d <| i_ctime := now |>);
              i ← load_inode file_inode;
              _ ← (if i_nlink (im_disk_inode i) =? 0 then lsfs_inode_free file_inode
                   else
                     _ ← upd_inode file_inode (λ i, i <| im_dirty := true |>);
                     lsfs_inode_write file_inode);
              _ ← lsfs_inode_write parent_inode;
              put_reply [file_inode; parent_inode] (reply_err 0)
          end
      end
  end.

Definition lsfs_op_rmdir (parent : Z) (name : list Z) : Op reply :=
  dir ← get_inode parent;
  match dir with
  | None => mret (reply_err ENOENT)
  | Some parent_inode =>
      r ← lsfs_dir_lookup parent_inode name;
      match r with
      | Err _ => put_reply [parent_inode] (reply_err ENOENT)
      | Ok (dir_ino, _) =>
          d ← lsfs_inode_get dir_ino;
          match d with
          | None => put_reply [parent_inode] (reply_err ENOENT)
          | Some dir_inode =>
              i ← load_inode dir_inode;
              if negb (S_ISDIR (i_mode (im_disk_inode i)))
              then put_reply [dir_inode; parent_inode] (reply_err ENOTDIR) else
              r ← lsfs_dir_is_empty dir_inode;
              if negb (r =? LSFS_OK) then put_reply [dir_inode; parent_inode] (reply_err ENOTEMPTY) else
              r ← lsfs_dir_remove parent_inode name;
              if negb (r =? LSFS_OK) then put_reply [dir_inode; parent_inode] (reply_err EIO) else
              _ ← upd_inode parent_inode (λ i, i <| im_disk_inode ::= λ d, d <| i_nlink ::= λ n, u32 (n - 1) |> |>
                                                 <| im_dirty := true |>);
              _ ← lsfs_inode_free dir_inode;
              _ ← lsfs_inode_write parent_inode;
              put_reply [dir_inode; parent_inode] (reply_err 0)
          end
      end
  end.

(** ** Renaming *)

(** What becomes of an entry that is in the way: [true] when it is a directory that is
    not empty and the handler gives up. *)
Definition rename_displace (new_parent_inode : Z) (newname : list Z) : Op bool :=
  r ← lsfs_dir_lookup new_parent_inode newname;
  match r with
  | Err _ => mret false
  | Ok (dest_ino, _) =>
      dest ← lsfs_inode_get dest_ino;
      match dest with
      | None => mret false
      | Some dest_inode =>
          i ← load_inode dest_inode;
          r ← (if S_ISDIR (i_mode (im_disk_inode i)) then lsfs_dir_is_empty dest_inode else mret LSFS_OK);
          if negb (r =? LSFS_OK) then _ ← lsfs_inode_put (Some dest_inode); mret true else
          _ ← lsfs_dir_remove new_parent_inode newname;
          _ ← upd_disk_inode dest_inode (λ d, d <| i_nlink ::= λ n, u32 (n - 1) |>);
          i ← load_inode dest_inode;
          _ ← (if i_nlink (im_disk_inode i) =? 0 then lsfs_inode_free dest_inode else mret LSFS_OK);
          _ ← lsfs_inode_put (Some dest_inode);
          mret false
      end
  end.

(** A directory that moved: the link counts of its parents. *)
Definition rename_links (old_parent_inode new_parent_inode target_ino : Z) : Op () :=
  target ← lsfs_inode_get target_ino;
  match target with
  | None => mret tt
  | Some target_inode =>
      _ ← upd_disk_inode old_parent_inode (λ d, d <| i_nlink ::= λ n, u32 (n - 1) |>);
      _ ← upd_disk_inode new_parent_inode (λ d, d <| i_nlink ::= λ n, u32 (n + 1) |>);
      lsfs_inode_put (Some target_inode)
  end.

(** The handler once both parents are there. *)
Definition rename_between (same : bool) (old_parent_inode new_parent_inode : Z)
    (name newname : list Z) : Op reply :=
  let parents := if same then [old_parent_inode] else [new_parent_inode; old_parent_inode] in
  r ← lsfs_dir_lookup old_parent_inode name;
  match r with
  | Err _ => put_reply parents (reply_err ENOENT)
  | Ok (target_ino, file_type) =>
      stuck ← rename_displace new_parent_inode newname;
      if (stuck : bool) then put_reply parents (reply_err ENOTEMPTY) else
      r ← lsfs_dir_add new_parent_inode newname target_ino file_type;
      if negb (r =? LSFS_OK) then put_reply parents (reply_err EIO) else
      _ ← lsfs_dir_remove old_parent_inode name;
      _ ← (if negb same && (file_type =? LSFS_FT_DIR)
           then rename_links old_parent_inode new_parent_inode target_ino else mret tt);
      _ ← lsfs_inode_write old_parent_inode;
      _ ← (if same then mret tt else
             _ ← lsfs_inode_write new_parent_inode;
             lsfs_inode_put (Some new_parent_inode));
      put_reply [old_parent_inode] (reply_err 0)
  end.

Definition lsfs_op_rename (parent : Z) (name : list Z) (newparent : Z) (newname : list Z) : Op reply :=
  dir ← get_inode parent;
  match dir with
  | None => mret (reply_err ENOENT)
  | Some old_parent_inode =>
      if negb (parent =? newparent) then
        dir ← get_inode newparent;
        match dir with
        | None => put_reply [old_parent_inode] (reply_err ENOENT)
        | Some new_parent_inode => rename_between false old_parent_inode new_parent_inode name newname
        end
      else rename_between true old_parent_inode old_parent_inode name newname
  end.

(** ** The file system as a whole *)

Definition lsfs_op_statfs : Op reply :=
  sb ← gets c_sb;
  let bfree := u64 (sb_free_segments sb * LSFS_SEGMENT_BLOCKS) in
  let ffree := u64 (LSFS_MAX_INODES - sb_inode_count sb) in
  mret (reply_statfs (mk_statvfs LSFS_BLOCK_SIZE LSFS_BLOCK_SIZE (sb_total_blocks sb) bfree bfree
          LSFS_MAX_INODES ffree ffree LSFS_NAME_MAX)).

Definition lsfs_op_fsync : Op reply :=
  _ ← lsfs_segment_flush;
  _ ← lsfs_sync;
  mret (reply_err 0).
End FuseOps.
