(* ===== verification/Mount.v ===== *)
(** Opening the image ([src/io.c] lines 20-70), mounting and unmounting
    ([src/main.c]).  What the program asks of the FUSE library and of [open] and
    [fstat] are arguments; option parsing is left out. *)
From S2P Require Import Prelude OnDisk Lru Context Io BufferPool Imap SegTable Log.
From S2P Require Import Checkpoint Inode Gc.

Section MountOps.
Context `{E : Env}.

(** [opened] is whether [open] succeeds, [st_size] what [fstat] finds, if it does. *)
Definition lsfs_io_init (opened : bool) (st_size : option Z) : Op Z :=
  path ← ask env_alloc;
  if negb path then mret LSFS_ERR_NOMEM else
  if negb opened then mret LSFS_ERR_IO else
  match st_size with
  | None => mret LSFS_ERR_IO
  | Some size => _ ← modify (λ s, s <| c_disk_size := u64 size |>); mret LSFS_OK
  end.

(** The file is open whenever the program gets here; the result of [fsync] is not
    looked at. *)
Definition lsfs_io_destroy : Op () := _ ← lsfs_sync; mret tt.

(** Writing the superblock: the block holds the structure and the memory behind it. *)
Definition write_superblock : Op Z :=
  sb ← gets c_sb;
  junk ← ask env_mem;
  lsfs_write_block LSFS_SUPERBLOCK_BLOCK (over_read (enc sb) junk).

(** The superblock is read over [ctx->sb]; the bytes of the block beyond the structure
    fall on the inode cache, which is initialised afterwards. *)
Definition read_superblock : Op Z :=
  r ← lsfs_read_block LSFS_SUPERBLOCK_BLOCK;
  match r with
  | Err e => mret e
  | Ok blk =>
      let sb := dec blk in
      _ ← set_sb (λ _, sb);
      if negb (sb_magic sb =? LSFS_MAGIC) then mret LSFS_ERR_CORRUPT else
      if negb (sb_version sb =? LSFS_VERSION) then mret LSFS_ERR_CORRUPT else
      mret LSFS_OK
  end.

(** [pthread_mutex_init] or [pthread_rwlock_init] *)
Definition lock_init : Op Z :=
  ok ← ask env_alloc;
  mret (if (ok : bool) then LSFS_OK else LSFS_ERR_NOMEM).

(** The last part of the initialisation: the mount is recorded, the result of the write
    is not looked at. *)
Definition record_mount : Op Z :=
  now ← time_now;
  _ ← set_sb (λ sb, sb <| sb_mounted_at := now |> <| sb_mount_count ::= λ n, u32 (n + 1) |>
                       <| sb_state := 1 |>);
  _ ← write_superblock;
  _ ← modify (λ s, s <| c_mounted := true |>);
  mret LSFS_OK.

Definition lsfs_init_fs : Op Z :=
  lsfs_buffer_pool_init ;?
  read_superblock ;?
  lsfs_inode_cache_init ;?
  lsfs_imap_init ;?
  lsfs_segment_init ;?
  lsfs_checkpoint_init ;?
  lsfs_checkpoint_recover ;?
  lock_init ;?
  lock_init ;?
  lsfs_gc_init ;?
  record_mount.

(** Destroying the buffer pool and the locks has no effect on the rest of the state. *)
Definition lsfs_cleanup_fs : Op () :=
  mounted ← gets c_mounted;
  if negb mounted then mret tt else
  _ ← lsfs_gc_destroy;
  _ ← lsfs_segment_flush;
  _ ← lsfs_checkpoint_write;
  _ ← set_sb (λ sb, sb <| sb_state := 0 |>);
  _ ← write_superblock;
  _ ← lsfs_sync;
  _ ← lsfs_segment_destroy;
  _ ← lsfs_imap_destroy;
  _ ← lsfs_inode_cache_destroy;
  _ ← lsfs_io_destroy;
  modify (λ s, s <| c_mounted := false |>).

(** [main] once the options are parsed: [session_new] and [session_mount] are whether
    the FUSE calls succeed, [session] is the loop that serves requests. *)
Definition lsfs_main (opened : bool) (st_size : option Z) (session_new session_mount : bool)
    (session : Op Z) : Op Z :=
  ret ← lsfs_io_init opened st_size;
  if negb (ret =? LSFS_OK) then mret 1 else
  ret ← lsfs_init_fs;
  if negb (ret =? LSFS_OK) then _ ← lsfs_io_destroy; mret 1 else
  if negb session_new then _ ← lsfs_cleanup_fs; mret 1 else
  if negb session_mount then _ ← lsfs_cleanup_fs; mret 1 else
  ret ← session;
  _ ← lsfs_cleanup_fs;
  mret (if ret =? 0 then 0 else 1).
End MountOps.
