(* ===== verification/Recovery.v ===== *)
(** Mounting an image: what [lsfs_checkpoint_recover] and [lsfs_init_fs] establish for
    the operations that follow, in every environment. *)
From Stdlib Require Import Sorting.Sorted.
From S2P Require Import Prelude OnDisk Lru Context Io BufferPool Imap SegTable Log.
From S2P Require Import Checkpoint Crash LogView Inode FileView InodeDisk InodeCache Gc Mount.

(** * Images *)

(** The description of block [i + 1] in the summary of segment [seg]. *)
Definition summary_info (d : gmap Z (list Z)) (seg i : Z) : lsfs_block_info :=
  dec_at (Z.to_nat i) (drop (sizeof lsfs_segment_header) (disk_block d (lsfs_segment_to_block seg 0))).

(** The log of [count] segments says that block [loc] holds inode [ino]. *)
Definition replayed_at (d : gmap Z (list Z)) (count ino loc : Z) : Prop :=
  ∃ seg i, 0 <= seg < count ∧ 0 <= i < max_summary_entries ∧
    bi_type (summary_info d seg i) = LSFS_BLOCK_TYPE_INODE ∧ bi_ino (summary_info d seg i) = ino ∧
    loc = lsfs_segment_to_block seg 0 + i + 1.

(** No summary names an inode beyond the numbers handed out before [next]. *)
Definition summaries_known (d : gmap Z (list Z)) (count next : Z) : Prop :=
  ∀ ino loc, replayed_at d count ino loc → ino < next.

(** What rolling the log forward may make of the map [m0] of a checkpoint. *)
Definition rolled (d : gmap Z (list Z)) (count : Z) (m0 m : gmap Z (Z * Z)) : Prop :=
  (∀ ino, is_Some (m0 !! ino) → is_Some (m !! ino)) ∧
  ∀ ino loc ver, m !! ino = Some (loc, ver) →
    (∃ ver0, m0 !! ino = Some (loc, ver0)) ∨ replayed_at d count ino loc.

Lemma rolled_refl d count m : rolled d count m m.
Proof. split; eauto. Qed.

Lemma rolled_insert d count m0 m ino loc ver :
  rolled d count m0 m → replayed_at d count ino loc → rolled d count m0 (<[ino := (loc, ver)]> m).
Proof.
  intros [Hd Hm] Hr. split.
  - intros ino' H. apply lookup_insert_is_Some'. right. by apply Hd.
  - intros ino' loc' ver'. destruct (decide (ino' = ino)) as [->|Hne].
    + rewrite lookup_insert_eq. intros [= <- _]. by right.
    + rewrite lookup_insert_ne by done. apply Hm.
Qed.

(** A region of the image is not a candidate, or its map can be used. *)
Definition region_ok (s : lsfs_context) (r : Z) : Prop :=
  header_valid (header_at (c_disk s) r) = true →
  ∃ l, region_holds (c_disk s) r (header_at (c_disk s) r) l ∧
    Forall (λ e, 0 <= ie_ino e < LSFS_MAX_INODES ∧ in_disk s (ie_location e) 1) l.

(** The number of segments the superblock gives. *)
Definition image_segments (s : lsfs_context) : Z := sb_total_segments (dec (disk_block (c_disk s) 0)).

(** An image that can be mounted: it holds bytes, its superblock describes a log that
    lies within it, and the map of every complete checkpoint is sorted and points into
    it. *)
Record image_ok (s : lsfs_context) : Prop := {
  io_bytes : disk_ok s;
  io_magic : sb_magic (dec (disk_block (c_disk s) 0)) = LSFS_MAGIC;
  io_version : sb_version (dec (disk_block (c_disk s) 0)) = LSFS_VERSION;
  io_segments : 0 < image_segments s <= max_table_segments;
  io_fits : in_disk s 0 (LSFS_LOG_START + image_segments s * LSFS_SEGMENT_BLOCKS);
  io_active : sb_active_checkpoint (dec (disk_block (c_disk s) 0)) = 0 ∨
    sb_active_checkpoint (dec (disk_block (c_disk s) 0)) = 1;
  io_region0 : region_ok s 0;
  io_region1 : region_ok s 1 }.

(** The map [m] is that of a complete checkpoint of the image, rolled forward. *)
Definition rolled_image (s : lsfs_context) (m : gmap Z (Z * Z)) : Prop :=
  ∃ r l, (r = 0 ∨ r = 1) ∧ region_holds (c_disk s) r (header_at (c_disk s) r) l ∧
    rolled (c_disk s) (image_segments s) (entries_map l) m.

(** ** The roll-forward as a function on maps *)

Definition replay_entry (d : gmap Z (list Z)) (seg : Z) (m : gmap Z (Z * Z)) (i : Z) : gmap Z (Z * Z) :=
  let info := summary_info d seg i in
  if (bi_type info =? LSFS_BLOCK_TYPE_INODE) && (0 <? bi_ino info)
  then <[bi_ino info := (lsfs_segment_to_block seg 0 + i + 1,
          match m !! bi_ino info with Some (_, v) => u32 (v + 1) | None => 1 end)]> m
  else m.

(** A segment is replayed when it was written in or after the second [T]. *)
Definition replay_segment (d : gmap Z (list Z)) (T seg : Z) (m : gmap Z (Z * Z)) : option (gmap Z (Z * Z)) :=
  let hdr := dec (disk_block d (lsfs_segment_to_block seg 0)) : lsfs_segment_header in
  if (sh_magic hdr =? LSFS_SEGMENT_MAGIC) && (T <=? sh_timestamp hdr)
  then Some (foldl (replay_entry d seg) m (seqZ 0 (summary_entries (sh_block_count hdr)))) else None.

(** One segment after the other, up to the first that is not replayed. *)
Fixpoint replay_log (d : gmap Z (list Z)) (T : Z) (segs : list Z) (m : gmap Z (Z * Z)) : gmap Z (Z * Z) :=
  match segs with
  | [] => m
  | seg :: segs => match replay_segment d T seg m with
                   | Some m' => replay_log d T segs m'
                   | None => m
                   end
  end.

(** What the checkpoint [(h, l)] and the log of [count] segments describe. *)
Definition recovered_map (d : gmap Z (list Z)) (h : lsfs_checkpoint_header) (l : list lsfs_imap_entry)
    (count : Z) : gmap Z (Z * Z) :=
  let seg := (lsfs_block_to_segment (ch_log_head h)).1 in
  replay_log d (ch_timestamp h) (seqZ seg (count - seg)) (entries_map l).

Lemma replay_entry_size d seg m i : (size m <= size (replay_entry d seg m i))%nat.
Proof.
  unfold replay_entry. case_match; [|done].
  match goal with |- context [<[?k := ?v]> m] => destruct (m !! k) eqn:Hk end.
  - by rewrite map_size_insert_Some.
  - rewrite map_size_insert_None by done. lia.
Qed.

Lemma replay_entries_size d seg m ids : (size m <= size (foldl (replay_entry d seg) m ids))%nat.
Proof.
  revert m. induction ids as [|i ids IH]; intros m; [done|]. cbn. etrans; [|apply IH]. apply replay_entry_size.
Qed.

Lemma replay_log_size d T segs m : (size m <= size (replay_log d T segs m))%nat.
Proof.
  revert m. induction segs as [|seg segs IH]; intros m; [done|]. cbn [replay_log]. unfold replay_segment.
  case_match eqn:Hc; [|done]. case_match; simplify_eq. etrans; [|apply IH]. apply replay_entries_size.
Qed.

Lemma replay_entry_dom d seg m i ino : is_Some (m !! ino) → is_Some (replay_entry d seg m i !! ino).
Proof. intros H. unfold replay_entry. case_match; [|done]. apply lookup_insert_is_Some'. by right. Qed.

Lemma replay_entries_dom d seg m ids ino :
  is_Some (m !! ino) → is_Some (foldl (replay_entry d seg) m ids !! ino).
Proof.
  revert m. induction ids as [|i ids IH]; intros m H; [done|]. cbn. by apply IH, replay_entry_dom.
Qed.

(** The inodes a summary describes are in the map afterwards. *)
Lemma replay_entries_found d seg m ids i :
  i ∈ ids → bi_type (summary_info d seg i) = LSFS_BLOCK_TYPE_INODE → 0 < bi_ino (summary_info d seg i) →
  is_Some (foldl (replay_entry d seg) m ids !! bi_ino (summary_info d seg i)).
Proof.
  intros Hi Ht Hp. revert m. induction Hi as [i ids|i j ids Hi IH]; intros m; cbn [foldl]; [|by apply IH].
  apply replay_entries_dom. unfold replay_entry. rewrite Ht, (proj2 (Z.ltb_lt _ _) Hp), Z.eqb_refl. cbn [andb].
  by rewrite lookup_insert_eq.
Qed.

Lemma replay_log_dom d T segs m ino : is_Some (m !! ino) → is_Some (replay_log d T segs m !! ino).
Proof.
  revert m. induction segs as [|seg segs IH]; intros m H; [done|]. cbn [replay_log]. unfold replay_segment.
  case_match eqn:Hc; [|done]. case_match; simplify_eq. by apply IH, replay_entries_dom.
Qed.

(** Whatever is replayed is what the summaries say. *)
Lemma replay_entries_rolled d count m0 m seg ids :
  rolled d count m0 m → 0 <= seg < count → (∀ i, i ∈ ids → 0 <= i < max_summary_entries) →
  rolled d count m0 (foldl (replay_entry d seg) m ids).
Proof.
  intros Hm Hseg. revert m Hm. induction ids as [|i ids IH]; intros m Hm Hin; [done|]. cbn [foldl].
  apply IH; [|intros j Hj; apply Hin, elem_of_cons; by right]. unfold replay_entry. case_match eqn:Hc; [|done].
  apply andb_true_iff in Hc as [Hty%Z.eqb_eq _]. apply rolled_insert; [done|]. exists seg, i.
  split_and!; try done; try lia; apply Hin, elem_of_cons; by left.
Qed.

Lemma recovered_rolled d h l count :
  is_u64 (ch_log_head h) → rolled d count (entries_map l) (recovered_map d h l count).
Proof.
  intros Hlh. unfold recovered_map. destruct (lsfs_block_to_segment (ch_log_head h)) as [seg off] eqn:Hbs.
  apply block_to_segment_range in Hbs as [[Hseg _] _]; [|done]. cbn [fst].
  assert (∀ j, j ∈ seqZ seg (count - seg) → 0 <= j < count) as Hin by (intros j ?%elem_of_seqZ; lia).
  revert Hin. generalize (seqZ seg (count - seg)), (rolled_refl d count (entries_map l)). generalize (entries_map l) at 2 4.
  intros m segs. revert m. induction segs as [|j segs IH]; intros m Hm Hin; [done|]. cbn [replay_log]. unfold replay_segment.
  case_match eqn:Hc; [|done]. case_match; simplify_eq. apply IH; [|intros k Hk; apply Hin, elem_of_cons; by right].
  apply replay_entries_rolled; [done|apply Hin, elem_of_cons; by left|]. intros i ?%elem_of_seqZ.
  unfold summary_entries in *. lia.
Qed.

(** The roll-forward from the checkpoint with header [h] finds nothing to replay: the log
    ends at its log head, or the segment there is older than the checkpoint. *)
Definition stops_at (d : gmap Z (list Z)) (h : lsfs_checkpoint_header) (count : Z) : Prop :=
  let seg := (lsfs_block_to_segment (ch_log_head h)).1 in
  let hdr := dec (disk_block d (lsfs_segment_to_block seg 0)) : lsfs_segment_header in
  seg < count → sh_magic hdr = LSFS_SEGMENT_MAGIC → sh_timestamp hdr < ch_timestamp h.

Lemma stops_recovered d h l count :
  stops_at d h count → recovered_map d h l count = entries_map l.
Proof.
  unfold stops_at, recovered_map.
  destruct (lsfs_block_to_segment (ch_log_head h)) as [seg off]. cbn [fst]. intros Hst.
  destruct (Z.lt_ge_cases seg count) as [Hlt|Hge]; [|by rewrite seqZ_nil by lia].
  rewrite seqZ_cons by lia. cbn [replay_log]. unfold replay_segment.
  destruct (Z.eqb_spec (sh_magic (dec (disk_block d (lsfs_segment_to_block seg 0)))) LSFS_SEGMENT_MAGIC) as [Hm|]; [|done].
  rewrite (proj2 (Z.leb_gt _ _)); [done|]. by apply Hst.
Qed.

(** What recovery may make of the image: a checkpoint rolled forward, exactly so when the
    newest checkpoint is known and the map has room. *)
Definition recoverable (s : lsfs_context) (m : gmap Z (Z * Z)) : Prop :=
  rolled_image s m ∧
  ∀ r h l, recovers_to (c_disk s) r h l →
    Z.of_nat (size (recovered_map (c_disk s) h l (image_segments s))) < LSFS_MAX_INODES →
    m = recovered_map (c_disk s) h l (image_segments s).

(** The image can be written, has a complete checkpoint, and whatever is rolled forward
    the map fits in a checkpoint again. *)
Record image_usable (s : lsfs_context) : Prop := {
  iu_writable : c_readonly s = false;
  iu_checkpoint : header_valid (header_at (c_disk s) 0) = true ∨ header_valid (header_at (c_disk s) 1) = true;
  iu_fits m : recoverable s m → Z.of_nat (size m) <= 65280 }.

Section Recovery.
Context `{E : Env}.
Implicit Types s : lsfs_context.

(** A function that may fail: what holds when it succeeds, and when it is sure to. *)
Definition answers (sure : Prop) (r : Z) (P : Prop) : Prop := (r = LSFS_OK → P) ∧ (sure → r = LSFS_OK).

(** What stays as it is while the image is being read, and what holds of the map: its
    numbers were handed out, as far as the summaries name no others, and it is the map
    [m0] rolled forward. *)
Record recovering s0 (m0 : gmap Z (Z * Z)) s : Prop := {
  rc_log : log_wf s;
  rc_addrs : imap_addrs s;
  rc_disk : c_disk s = c_disk s0;
  rc_disk_size : c_disk_size s = c_disk_size s0;
  rc_readonly : c_readonly s = c_readonly s0;
  rc_icache : c_icache s = c_icache s0;
  rc_segbuf : c_segbuf s = c_segbuf s0;
  rc_count : st_count (c_segtable s) = st_count (c_segtable s0);
  rc_total : sb_total_segments (c_sb s) = sb_total_segments (c_sb s0);
  rc_next : LSFS_ROOT_INO < imap_next_ino (c_imap s);
  rc_rolled : rolled (c_disk s0) (st_count (c_segtable s0)) m0 (imap_map (c_imap s));
  rc_known : summaries_known (c_disk s0) (st_count (c_segtable s0)) (imap_next_ino (c_imap s)) →
    imap_fresh (c_imap s) }.

Lemma recovering_io s0 m0 s s' : recovering s0 m0 s → io_same s s' → recovering s0 m0 s'.
Proof.
  intros [Hl Ha Hd Hsz ? ? ? ? ? ? ? ?] [Hf Hds]. assert (c_imap s' = c_imap s) as Him by by rewrite Hf.
  assert (c_disk_size s' = c_disk_size s) as Hsz' by by rewrite Hf.
  split; [by eapply log_wf_frame| |congruence..| | | | | | | |]; [|rewrite Hf; cbn; done..].
  intros ino loc ver. rewrite Him. unfold in_disk. rewrite Hsz'. apply Ha.
Qed.

(** ** Loading the checkpoint *)

(** A read within the image fails only when the machine does. *)
Lemma read_in_disk s b :
  in_disk s b 1 →
  wp (lsfs_read_block b) (λ g s', io_same s s' ∧
    (g = Ok (disk_block (c_disk s) b) ∨ (g = Err LSFS_ERR_IO ∧ ¬ Healthy E))) s.
Proof.
  intros Hin. destruct (wp_elim _ _ _ (read_block_frame s b (in_disk_addressable _ _ _ Hin)))
    as (g & s' & Hrun & Hf & Hg & Hd).
  eapply wp_intro; [exact Hrun|]. split; [done|]. destruct Hg as [->|Hg]; [by left|]. right. split; [done|].
  intros Hh. rewrite read_block_ok in Hrun by done. congruence.
Qed.

Lemma meta_in_disk s b n : log_wf s → 0 <= b → 0 <= n → b + n <= LSFS_LOG_START → in_disk s b n.
Proof.
  intros Hs Hb Hn Hle. destruct (lw_disk s Hs) as (_ & _ & Hd). pose proof (lw_segment s Hs).
  unfold in_disk, LSFS_LOG_START, LSFS_SEGMENT_BLOCKS, LSFS_BLOCK_SIZE in *. lia.
Qed.

Lemma load_header_wp s r :
  log_wf s → wp (load_header (region_start r)) (λ h s', io_same s s' ∧
    (∀ hd, h = Some hd → hd = header_at (c_disk s) r ∧ header_valid hd = true) ∧
    (Healthy E → header_valid (header_at (c_disk s) r) = true → is_Some h)) s.
Proof.
  intros Hs. pose proof (region_start_bounds r) as [Hr0 Hr1]. unfold LSFS_SEGTABLE_START in Hr1.
  unfold load_header. wp_step. eapply wp_mono; [apply read_in_disk, meta_in_disk; [done|lia|lia|]|].
  { unfold LSFS_LOG_START. lia. }
  intros g s' (Hio & Hg). apply wp_ret. split; [done|]. cbv zeta. unfold header_at.
  destruct Hg as [-> | [-> Hn]]; [|by split].
  split; [|intros _ ->; eauto]. intros hd. case_match eqn:Hv; [|done]. by intros [= <-].
Qed.

Lemma imap_load_wp s start l :
  Z.of_nat (length l) <= 65280 → Forall disk_wf l →
  in_disk s start (imap_blocks_needed (Z.of_nat (length l))) →
  (∃ rest, concat (disk_blocks (c_disk s) start
     (Z.to_nat (imap_blocks_needed (Z.of_nat (length l))))) = enc_array l ++ rest) →
  wp (lsfs_imap_load start (Z.of_nat (length l))) (λ r s', answers (Healthy E) r
    (∃ s1, io_same s s1 ∧ s' = with_imap (loaded_imap (c_imap s) l) s1)) s.
Proof.
  intros Hlen Hl Hd [rest Himg]. pose proof (in_disk_addressable _ _ _ Hd) as Had.
  assert (wp (lsfs_imap_load start (Z.of_nat (length l))) (λ r s', r = LSFS_OK →
    ∃ s1, io_same s s1 ∧ s' = with_imap (loaded_imap (c_imap s) l) s1) s) as Hwp.
  { unfold lsfs_imap_load. wp_step. eapply wp_intro; [done|].
    destruct (env_alloc _); cbn [negb]; [|by apply wp_ret]. wp_step.
    eapply wp_mono; [apply read_blocks_frame, Had|]. intros g s1 (Hf1 & [-> | ->] & Hd1); [|by apply wp_ret].
    wp_step. apply wp_gets. wp_step. eapply wp_intro; [done|]. case_match; [by apply wp_ret|].
    change (c_disk (s <| c_tick ::= S |>)) with (c_disk s). rewrite Himg, Nat2Z.id.
    rewrite length_app, length_enc_array by done. cbn [sizeof imap_entry_ondisk].
    rewrite (proj2 (Z.ltb_ge _ _)) by lia. wp_steps. intros _.
    exists (ticked s1). rewrite dec_array_enc by done. split.
    - split; [|exact Hd1]. eapply io_frame_trans; [|eapply io_frame_trans; [exact Hf1|]]; done.
    - rewrite Hf1. done. }
  destruct (wp_elim _ _ _ Hwp) as (r & s' & Hrun & HP). eapply wp_intro; [exact Hrun|]. split; [done|].
  intros Hh. erewrite imap_load_run in Hrun by (done || lia || exact Himg). congruence.
Qed.

Lemma header_at_wf s r : disk_ok s → disk_wf (header_at (c_disk s) r).
Proof.
  intros Hb. destruct (Hb (region_start r)) as [Hl Hbs]. apply dec_wf; [done|]. rewrite Hl.
  cbn [sizeof checkpoint_header_ondisk]. unfold BS, LSFS_BLOCK_SIZE. lia.
Qed.

Lemma best_header_cases h0 h1 best h :
  best_header h0 h1 = Some (best, h) → (best = 0 ∧ h0 = Some h) ∨ (best = 1 ∧ h1 = Some h).
Proof. destruct h0, h1; cbn; try case_match; intros [= <- <-]; auto. Qed.

Lemma loaded_facts s l :
  imap_wf (c_imap s) → StronglySorted by_ino l → Z.of_nat (length l) <= 65280 →
  Forall (λ e, 0 <= ie_ino e < LSFS_MAX_INODES ∧ in_disk s (ie_location e) 1) l →
  imap_wf (loaded_imap (c_imap s) l) ∧ imap_live (loaded_imap (c_imap s) l) = l ∧
  imap_fresh (loaded_imap (c_imap s) l) ∧
  ∀ ino loc ver, imap_map (loaded_imap (c_imap s) l) !! ino = Some (loc, ver) → in_disk s loc 1.
Proof.
  intros Hwf Hs Hlen Hl. destruct (imap_loaded_wf (c_imap s) l Hwf Hs ltac:(lia)) as [Hwf' Hlive].
  change (imap_live (loaded_imap (c_imap s) l) = l) in Hlive.
  assert (∀ ino x, imap_map (loaded_imap (c_imap s) l) !! ino = Some x →
    ∃ e, e ∈ l ∧ ie_ino e = ino ∧ (ie_location e, ie_version e) = x) as Hin.
  { intros ino x. unfold imap_map. rewrite Hlive.
    intros (i & e & Hi & <- & ->)%entries_map_Some; [|done]. exists e. split; [|done]. by eapply list_elem_of_lookup_2. }
  split_and!; [done..| |].
  - destruct (highest_ino_above l) as [Hn Hab]; [by eapply Forall_impl; [exact Hl|]; naive_solver|].
    split; [exact Hn|]. intros ino [x (e & He & <- & _)%Hin]. rewrite Forall_forall in Hab. by apply Hab.
  - intros ino loc ver (e & He & _ & [= <- _])%Hin. rewrite Forall_forall in Hl. by apply Hl.
Qed.

(** The region a loaded map comes from. *)
Definition loaded_region s (m0 : gmap Z (Z * Z)) : Prop :=
  ∃ r l, (r = 0 ∨ r = 1) ∧ region_holds (c_disk s) r (header_at (c_disk s) r) l ∧ m0 = entries_map l.

(** What the header chosen is. *)
Definition chosen s (b : option (Z * lsfs_checkpoint_header)) : Prop :=
  (∀ best h, b = Some (best, h) → (best = 0 ∨ best = 1) ∧ h = header_at (c_disk s) best ∧
     header_valid h = true ∧ region_ok s best) ∧
  (Healthy E → image_usable s → is_Some b).

Lemma best_header_wp s {A} (k : option lsfs_checkpoint_header → option lsfs_checkpoint_header → Op A) Q :
  log_wf s → region_ok s 0 → region_ok s 1 →
  (∀ h0 h1 s', io_same s s' → chosen s (best_header h0 h1) → wp (k h0 h1) Q s') →
  wp (h0 ← load_header LSFS_CHECKPOINT0_START; h1 ← load_header LSFS_CHECKPOINT1_START; k h0 h1) Q s.
Proof.
  intros Hs Hr0 Hr1 Hk. wp_step. eapply wp_mono; [by apply (load_header_wp s 0)|]. intros h0 s1 (Hio1 & Hh0 & Hok0). wp_step.
  pose proof (io_same_wf _ _ Hio1 Hs) as Hs1.
  eapply wp_mono; [by apply (load_header_wp s1 1)|]. intros h1 s2 (Hio2 & Hh1 & Hok1). rewrite (proj2 Hio1) in Hh1, Hok1.
  apply Hk; [by eapply io_same_trans|split].
  - intros best h [[-> H]|[-> H]]%best_header_cases; [apply Hh0 in H|apply Hh1 in H]; naive_solver.
  - intros Hh [_ [Hv|Hv] _]; [destruct (Hok0 Hh Hv) as [h ->]; destruct h1|
      destruct (Hok1 Hh Hv) as [h ->]; destruct h0]; cbn; eauto.
Qed.

Lemma checkpoint_load_wp s :
  log_wf s → disk_ok s → region_ok s 0 → region_ok s 1 →
  wp lsfs_checkpoint_load (λ r s', answers (Healthy E ∧ image_usable s) r
    (∃ m0, loaded_region s m0 ∧ recovering s m0 s')) s.
Proof.
  intros Hs Hb Hr0 Hr1. unfold lsfs_checkpoint_load. apply best_header_wp; [done..|].
  intros h0 h1 s2 Hio [Hbest Hsure].
  destruct (best_header h0 h1) as [[best h]|]; [|apply wp_ret; split; [done|]; intros [Hh Hu]; by destruct (Hsure Hh Hu)].
  destruct (Hbest best h eq_refl) as (Hb01 & Hh & Hv & Hrg). clear Hbest Hsure.
  pose proof (io_same_wf _ _ Hio Hs) as Hs2.
  unfold region_ok in Hrg. rewrite <-Hh in Hrg. destruct (Hrg Hv) as (l & Hrh & Hl).
  pose proof Hrh as [_ _ Hcnt Hlen Hwf Hsort Himg].
  pose proof (region_start_bounds best) as [Hb0 Hb1]. unfold LSFS_SEGTABLE_START in Hb1.
  pose proof (imap_blocks_needed_max (Z.of_nat (length l)) ltac:(lia)) as Hmax.
  pose proof (imap_blocks_needed_bounds (Z.of_nat (length l)) ltac:(lia)) as Hbn.
  unfold LSFS_CHECKPOINT0_BLOCKS in Hmax. apply wp_if_ok. rewrite u64_small, Hcnt by lia.
  eapply wp_mono; [apply imap_load_wp; [done..| |by rewrite (proj2 Hio)]|].
  { apply meta_in_disk; [done|lia..|]. unfold LSFS_LOG_START. lia. }
  intros r s3 [H Hok]. case_decide as Hr; [|split; [done|]; by intros [? _]; apply Hok].
  destruct (H Hr) as (s4 & Hio4 & ->). clear H Hok. wp_steps. split; [|done]. intros _.
  exists (entries_map l). split; [exists best, l; rewrite <-Hh; by split_and!|].
  pose proof (io_same_trans _ _ _ Hio Hio4) as Hio'. pose proof (io_same_wf _ _ Hio' Hs) as Hs4.
  assert (c_imap s2 = c_imap s) as Him2 by by rewrite (proj1 Hio).
  destruct (loaded_facts s l (lw_imap s Hs) Hsort Hlen Hl) as (Hwfi & Hlive & Hfresh & Haddr). rewrite Him2.
  destruct (header_at_wf s best Hb) as (_ & _ & _ & _ & Hlh & _). rewrite <-Hh in Hlh.
  pose proof Hs4 as [? ? ? ? ? ? ? ? ? ? _ _ Hsb _]. split; try (rewrite (proj1 Hio'); done).
  - split; try assumption; [change (Forall disk_wf (imap_live (loaded_imap (c_imap s) l))); by rewrite Hlive|].
    apply (sb_active_wf (c_sb s4 <| sb_log_head := ch_log_head h |>)); [by apply sb_log_head_wf|].
    unfold is_u32. lia.
  - exact (proj2 Hio').
  - destruct Hfresh as [Hn _]. change (LSFS_ROOT_INO < imap_next_ino (loaded_imap (c_imap s) l)). lia.
  - change (rolled (c_disk s) (st_count (c_segtable s)) (entries_map l) (imap_map (loaded_imap (c_imap s) l))).
    unfold imap_map. rewrite Hlive. apply rolled_refl.
Qed.

(** ** Rolling the log forward *)

(** Marking a segment as full, with the counter as the roll-forward leaves it. *)
Lemma replayed_table_wf t seg live now :
  segtable_wf t → 0 <= seg < st_count t → 0 <= live < 2 ^ 32 → 0 <= now < 2 ^ 64 →
  let t1 := t <| st_entries ::= alter (mark_full live now) (Z.to_nat seg) |> in
  let t2 := if 0 <? st_free_count t1 then t1 <| st_free_count ::= Z.pred |> else t1 in
  segtable_wf t2 ∧ (∀ j, free_at (st_entries t) j = false → free_at (st_entries t2) j = false) ∧
  st_count t2 = st_count t.
Proof.
  intros Hwf Hseg Hlive Hnow t1 t2. destruct (table_lookup _ _ Hwf Hseg) as (e & _ & He & Hd).
  assert (st_entries t2 = alter (mark_full live now) (Z.to_nat seg) (st_entries t) ∧ st_count t2 = st_count t)
    as [Hes Hcnt] by (unfold t2; by destruct (0 <? st_free_count t1)).
  destruct Hwf as [Hl Hc Hf Hw]. split_and!; [|intros j Hj|done].
  - split; rewrite ?Hes, ?Hcnt; [by rewrite length_alter|done| |].
    + erewrite list_alter_insert_Some, count_free_insert by done.
      pose proof (count_free_pos (st_entries t) _ e He) as Hpos. unfold t2. change (st_free_count t1) with (st_free_count t).
      destruct (Z.ltb_spec 0 (st_free_count t)); cbn; destruct (is_free e); cbn; [lia..| |lia].
      specialize (Hpos eq_refl). lia.
    + erewrite list_alter_insert_Some by done. apply Forall_insert; [done|].
      destruct Hd as (? & _ & _ & ? & _). cbn. unfold is_u32, is_u64, LSFS_SEG_FULL in *. split_and!; lia.
  - rewrite Hes. erewrite free_at_alter by (done || lia). by case_decide.
Qed.

Lemma replay_info_wp s0 m0 s seg i :
  recovering s0 m0 s → 0 <= seg < st_count (c_segtable s) → 0 <= i < max_summary_entries → disk_ok s →
  wp (replay_info (lsfs_segment_to_block seg 0) (disk_block (c_disk s) (lsfs_segment_to_block seg 0)) i)
    (λ _ s', recovering s0 m0 s' ∧ c_segtable s' = c_segtable s ∧ c_disk s' = c_disk s ∧
      c_last_checkpoint s' = c_last_checkpoint s ∧
      (Healthy E → Z.of_nat (size (replay_entry (c_disk s) seg (imap_map (c_imap s)) i)) < LSFS_MAX_INODES →
       imap_map (c_imap s') = replay_entry (c_disk s) seg (imap_map (c_imap s)) i)) s.
Proof.
  intros Hrc Hseg Hi Hb. pose proof Hrc as [Hs Ha Hd Hsz ? ? ? Hcnt ? Hnext Hroll Hkn]. unfold replay_info, replay_entry.
  fold (summary_info (c_disk s) seg i). set (info := summary_info (c_disk s) seg i).
  assert (disk_wf info) as Hinfo.
  { destruct (Hb (lsfs_segment_to_block seg 0)) as [Hl Hbs]. unfold info, summary_info, dec_at.
    apply dec_wf; [by do 2 apply Forall_drop|]. rewrite !length_drop, Hl. change max_summary_entries with 339 in Hi.
    assert (Z.of_nat BS = 4096) as HBS by done.
    cbn [sizeof block_info_ondisk segment_header_ondisk]. lia. }
  case_match eqn:Hc; [|by apply wp_ret]. apply andb_true_iff in Hc as [Hty%Z.eqb_eq Hpos%Z.ltb_lt].
  pose proof (lw_table_fits s Hs) as Hfits. pose proof (lw_disk s Hs) as Hdisk.
  assert (replayed_at (c_disk s0) (st_count (c_segtable s0)) (bi_ino info) (lsfs_segment_to_block seg 0 + i + 1)) as Hat.
  { exists seg, i. rewrite <-Hd, <-Hcnt. split_and!; (done || lia). }
  unfold max_table_segments, in_disk, LSFS_LOG_START, LSFS_SEGMENT_BLOCKS, LSFS_BLOCK_SIZE in *.
  change max_summary_entries with 339 in Hi. rewrite segment_to_block_eq in * by (unfold valid_segment; lia).
  unfold LSFS_LOG_START, LSFS_SEGMENT_BLOCKS in *. rewrite u64_small by lia. wp_step.
  eapply wp_mono; [apply imap_set_wp; [done|apply Hinfo|unfold is_u64; lia]|].
  intros r s' (Hs' & Hf & Hnx & Hset). apply wp_ret.
  assert (c_disk s' = c_disk s ∧ c_segtable s' = c_segtable s ∧ c_disk_size s' = c_disk_size s) as (Hd' & Ht' & Hsz')
    by by rewrite Hf.
  split_and!; [|done|done|by rewrite Hf|].
  2:{ intros HE Hsize. destruct Hset as [[_ He]|(_ & Hnone & _ & Hfull & [Hmax|?])]; [exact He| |done].
      rewrite map_size_insert_None in Hsize by done. pose proof (imap_map_size _ (lw_imap s Hs)). lia. }
  split; [done| |congruence|congruence| | | | | | | |]; try (rewrite Hf; done); [|by rewrite Hnx|..].
  - destruct Hset as [[_ He]|(_ & _ & Him & _)].
    + eapply imap_addrs_entered; [exact Ha|done| |exact He]. unfold in_disk, LSFS_BLOCK_SIZE. lia.
    + intros ino loc ver. rewrite Him. unfold in_disk. rewrite Hsz'. apply Ha.
  - destruct Hset as [[_ He]|(_ & _ & -> & _)]; [|done]. rewrite He. by apply rolled_insert.
  - rewrite Hnx. intros Hk. destruct Hset as [[_ He]|(_ & _ & -> & _)]; [|by apply Hkn].
    eapply imap_fresh_entered; [by apply Hkn|done| |exact He]. by eapply Hk.
Qed.

Lemma replay_summary_wp s0 m0 s seg n :
  recovering s0 m0 s → disk_ok s → 0 <= seg < st_count (c_segtable s) → n <= max_summary_entries →
  let total := foldl (replay_entry (c_disk s) seg) (imap_map (c_imap s)) (seqZ 0 n) in
  wp (for_each (seqZ 0 n) (replay_info (lsfs_segment_to_block seg 0) (disk_block (c_disk s) (lsfs_segment_to_block seg 0))))
    (λ _ s', recovering s0 m0 s' ∧ c_segtable s' = c_segtable s ∧ c_disk s' = c_disk s ∧
      c_last_checkpoint s' = c_last_checkpoint s ∧
      (Healthy E → Z.of_nat (size total) < LSFS_MAX_INODES → imap_map (c_imap s') = total)) s.
Proof.
  intros Hrc Hb Hseg Hn total. pose (d := c_disk s).
  eapply (wp_for_each _ _ (λ ids s', recovering s0 m0 s' ∧ c_segtable s' = c_segtable s ∧ c_disk s' = d ∧
    c_last_checkpoint s' = c_last_checkpoint s ∧ (∀ i, i ∈ ids → 0 <= i < max_summary_entries) ∧
    (Healthy E → Z.of_nat (size total) < LSFS_MAX_INODES → foldl (replay_entry d seg) (imap_map (c_imap s')) ids = total))).
  - split_and!; try done. intros i [? ?]%elem_of_seqZ. lia.
  - intros i ids s3 (Hrc3 & Ht3 & Hd3 & Hl3 & Hin & Hex). fold d. rewrite <-Hd3.
    eapply wp_mono; [apply (replay_info_wp s0 m0); [done|by rewrite Ht3|apply Hin, elem_of_cons; by left|]|].
    { intros b. rewrite Hd3. apply Hb. }
    intros [] s4 (Hrc4 & Ht4 & Hd4 & Hl4 & Hex4). rewrite Hd3 in Hex4. split_and!; try congruence.
    { intros j Hj. apply Hin, elem_of_cons. by right. }
    intros HE Hsize. specialize (Hex HE Hsize). cbn [foldl] in Hex. rewrite Hd3, Hex4; [exact Hex|done|].
    pose proof (replay_entries_size d seg (replay_entry d seg (imap_map (c_imap s3)) i) ids). rewrite Hex in *. lia.
  - intros s3 (Hrc3 & Ht3 & Hd3 & Hl3 & _ & Hex). by split_and!.
Qed.

(** The segment is marked as full, and the log head moves behind it. *)
Lemma close_segment_wp s0 m0 s seg hdr :
  recovering s0 m0 s → 0 <= seg < st_count (c_segtable s) → disk_wf hdr →
  wp (_ ← set_sb (λ sb, sb <| sb_log_head := u64 (lsfs_segment_to_block seg 0 + sh_block_count hdr) |>);
      _ ← usage_update seg (mark_full (u32 (sh_block_count hdr - 1)) (sh_timestamp hdr));
      _ ← modify (λ s, s <| c_segtable ::= λ t,
            if 0 <? st_free_count t then t <| st_free_count ::= Z.pred |> else t |>);
      mret true)
    (λ b s', b = true ∧ recovering s0 m0 s' ∧ c_last_checkpoint s' = c_last_checkpoint s ∧ c_imap s' = c_imap s) s.
Proof.
  intros Hrc Hseg Hhdr. unfold set_sb. do 2 wp_step. wp_step. pose proof (lw_table s (rc_log _ _ _ Hrc)) as Htw.
  eapply wp_intro; [apply usage_update_run; [exact Htw|exact Hseg]|]. wp_steps.
  destruct Hhdr as (_ & _ & Hts & _ & _).
  destruct (replayed_table_wf (c_segtable s) seg (u32 (sh_block_count hdr - 1)) (sh_timestamp hdr) Htw Hseg
    (u32_range _) Hts) as (Htw' & Hfree & Hcnt).
  split_and!; [done| |done|done]. match goal with |- recovering _ _ ?x => set (s4 := x) end.
  match type of Htw' with segtable_wf ?t => assert (c_segtable s4 = t) as Ht4 by done end.
  rewrite <-Ht4 in Htw', Hfree, Hcnt. clear Ht4.
  destruct Hrc as [[? ? ? ? ? ? ? ? Hcur ? ? ? Hsb ?] ? ? ? ? ? ? Htot ? ? ? ?]. split; try done; [|by rewrite Hcnt].
  split; rewrite ?Hcnt; try assumption; [by apply Hfree, Hcur|].
  apply (sb_log_head_wf (c_sb s)); [exact Hsb|apply u64_range].
Qed.

(** What one round makes of the map, on a machine that reads what is there. *)
Definition round_exact s seg (b : bool) s' : Prop :=
  let m' := replay_segment (c_disk s) (c_last_checkpoint s) seg (imap_map (c_imap s)) in
  Healthy E → (∀ m, m' = Some m → Z.of_nat (size m) < LSFS_MAX_INODES) →
  m' = (if b then Some (imap_map (c_imap s')) else None) ∧ (b = false → c_imap s' = c_imap s).

Lemma recover_segment_wp s0 m0 s seg :
  recovering s0 m0 s → disk_ok s → 0 <= seg < st_count (c_segtable s) →
  wp (recover_segment seg) (λ b s', recovering s0 m0 s' ∧ c_last_checkpoint s' = c_last_checkpoint s ∧
    round_exact s seg b s') s.
Proof.
  intros Hrc Hb Hseg. pose proof (rc_log _ _ _ Hrc) as Hs. unfold recover_segment, round_exact, replay_segment.
  assert (∀ s1, recovering s0 m0 s1 → in_disk s1 (lsfs_segment_to_block seg 0) 1) as Haddr.
  { intros s1 H1. apply segment_in_disk; [apply H1| |done..]. by rewrite (rc_count _ _ _ H1), <-(rc_count _ _ _ Hrc). }
  wp_step. eapply wp_mono; [by apply read_in_disk, Haddr|]. intros g s1 (Hio1 & Hg).
  pose proof (recovering_io _ _ _ _ Hrc Hio1) as Hrc1.
  assert (c_last_checkpoint s1 = c_last_checkpoint s ∧ c_imap s1 = c_imap s) as [Hl1 Hi1] by by rewrite (proj1 Hio1).
  destruct Hg as [-> | [-> Hn]]; [|by apply wp_ret].
  set (hdr := dec (disk_block (c_disk s) (lsfs_segment_to_block seg 0)) : lsfs_segment_header).
  destruct (sh_magic hdr =? LSFS_SEGMENT_MAGIC) eqn:Hm; cbn [negb andb]; [|by apply wp_ret].
  wp_step. apply wp_gets. rewrite Hl1, Z.ltb_antisym.
  destruct (c_last_checkpoint s <=? sh_timestamp hdr) eqn:Ht; cbn [negb]; [|by apply wp_ret].
  wp_step. eapply wp_mono; [by apply read_in_disk, Haddr|]. intros g s2 (Hio2 & Hg).
  pose proof (recovering_io _ _ _ _ Hrc1 Hio2) as Hrc2.
  pose proof (io_same_trans _ _ _ Hio1 Hio2) as Hio. pose proof (proj2 Hio) as Hd2.
  assert (c_last_checkpoint s2 = c_last_checkpoint s ∧ c_imap s2 = c_imap s ∧ c_segtable s2 = c_segtable s)
    as (Hl2 & Hi2 & Ht2) by by rewrite (proj1 Hio).
  destruct Hg as [-> | [-> Hn]]; [|by apply wp_ret]. rewrite (proj2 Hio1), <-Hd2.
  assert (disk_wf hdr) as Hhdr.
  { destruct (Hb (lsfs_segment_to_block seg 0)) as [Hl Hbs]. apply dec_wf; [done|].
    rewrite Hl. assert (Z.of_nat BS = 4096) as HBS by done. cbn [sizeof segment_header_ondisk]. lia. }
  wp_step. eapply wp_mono; [apply (replay_summary_wp s0 m0); [done|by intros b; rewrite Hd2|by rewrite Ht2|]|].
  { unfold summary_entries. lia. }
  intros [] s3 (Hrc3 & Ht3 & Hd3 & Hl3 & Hex).
  eapply wp_mono; [apply (close_segment_wp s0 m0); [done|by rewrite Ht3, Ht2|done]|].
  intros b s4 (-> & Hrc4 & Hl4 & Him4). split_and!; [done|congruence|]. intros HE Hsize. split; [|done].
  rewrite Him4, Hex; [by rewrite Hi2|done|]. rewrite Hi2. by apply Hsize.
Qed.

Lemma roll_forward_wp s0 m0 s segs :
  recovering s0 m0 s → disk_ok s → (∀ seg, seg ∈ segs → 0 <= seg < st_count (c_segtable s)) →
  let m := replay_log (c_disk s) (c_last_checkpoint s) segs (imap_map (c_imap s)) in
  wp (roll_forward segs) (λ _ s', recovering s0 m0 s' ∧
    (Healthy E → Z.of_nat (size m) < LSFS_MAX_INODES → imap_map (c_imap s') = m)) s.
Proof.
  revert s. induction segs as [|seg segs IH]; intros s Hrc Hb Hin m; [by apply wp_ret|].
  cbn [roll_forward]. wp_step.
  eapply wp_mono; [apply (recover_segment_wp s0 m0); [done..|]; apply Hin, elem_of_cons; by left|].
  intros b s1 (Hrc1 & Hl1 & Hex1).
  assert (c_disk s1 = c_disk s) as Hd1 by by rewrite (rc_disk _ _ _ Hrc1), (rc_disk _ _ _ Hrc).
  assert (Healthy E → Z.of_nat (size m) < LSFS_MAX_INODES → m = if b
    then replay_log (c_disk s) (c_last_checkpoint s) segs (imap_map (c_imap s1)) else imap_map (c_imap s1)) as Hm.
  { intros HE Hsize. subst m. cbn [replay_log] in Hsize |- *. destruct Hex1 as [Heq Hsame]; [done| |].
    - intros m' Hm'. rewrite Hm' in Hsize. pose proof (replay_log_size (c_disk s) (c_last_checkpoint s) segs m'). lia.
    - rewrite Heq. destruct b; [done|]. by rewrite Hsame. }
  destruct b; [|apply wp_ret; split; [done|]; intros HE Hsize; symmetry; by apply Hm].
  eapply wp_mono; [apply IH; [done|by intros b; rewrite Hd1|]|].
  - intros j Hj. rewrite (rc_count _ _ _ Hrc1), <-(rc_count _ _ _ Hrc). apply Hin, elem_of_cons. by right.
  - cbv zeta. rewrite Hd1, Hl1. intros [] s2 [Hrc2 Hex2]. split; [done|]. intros HE Hsize. specialize (Hm HE Hsize).
    rewrite Hm in Hsize |- *. by apply Hex2.
Qed.

(** The roll-forward writes no checkpoint and leaves the layout alone. *)
Definition same_checkpoint s s' : Prop :=
  c_checkpoint_seq s' = c_checkpoint_seq s ∧ sb_active_checkpoint (c_sb s') = sb_active_checkpoint (c_sb s) ∧
  sb_layout (c_sb s') = sb_layout (c_sb s).

#[local] Instance same_checkpoint_preorder : PreOrder same_checkpoint.
Proof.
  split; unfold same_checkpoint; [done|]. intros s1 s2 s3 (? & ? & ?) (? & ? & ?). split_and!; congruence.
Qed.

Lemma roll_forward_same segs : Keeps same_checkpoint (roll_forward segs).
Proof.
  assert (∀ b, Keeps same_checkpoint (lsfs_read_block b)) as Hread
    by (unfold lsfs_read_block, sys_pread; keeping ltac:(idtac; done)).
  induction segs as [|seg segs IH]; cbn [roll_forward]; [apply _|].
  unfold recover_segment, replay_info, lsfs_imap_set, usage_update, set_sb. keeping ltac:(idtac; done).
Qed.

Definition same_layout s s' : Prop := sb_layout (c_sb s') = sb_layout (c_sb s).

#[local] Instance same_layout_preorder : PreOrder same_layout.
Proof. split; unfold same_layout; [done|]. intros s1 s2 s3. congruence. Qed.

Lemma checkpoint_load_layout : Keeps same_layout lsfs_checkpoint_load.
Proof.
  unfold lsfs_checkpoint_load, load_header, lsfs_imap_load, lsfs_read_block, lsfs_read_blocks, sys_pread, set_sb.
  keeping ltac:(idtac; done).
Qed.

(** What recovery establishes. *)
Record recovered s0 s : Prop := {
  rd_log : log_wf s;
  rd_addrs : imap_addrs s;
  rd_icache : c_icache s = empty_inode_cache;
  rd_bytes : disk_ok s;
  rd_readonly : c_readonly s = c_readonly s0;
  rd_disk_size : c_disk_size s = c_disk_size s0;
  rd_count : st_count (c_segtable s) = image_segments s0;
  rd_layout : sb_layout (c_sb s) = sb_layout (dec (disk_block (c_disk s0) 0));
  rd_blocks b : LSFS_LOG_START <= b → disk_block (c_disk s) b = disk_block (c_disk s0) b;
  rd_next : LSFS_ROOT_INO < imap_next_ino (c_imap s);
  rd_rolled : rolled_image s0 (imap_map (c_imap s));
  rd_exact r h l : Healthy E → recovers_to (c_disk s0) r h l →
    let m := recovered_map (c_disk s0) h l (image_segments s0) in
    Z.of_nat (size m) < LSFS_MAX_INODES → imap_map (c_imap s) = m;
  rd_checkpoint r h l : Healthy E → c_readonly s0 = false → imap_count (c_imap s) <= 65280 →
    recovers_to (c_disk s0) r h l → 0 <= ch_sequence h < 2 ^ 64 - 2 →
    ∃ h', recovers_to (c_disk s) (sb_active_checkpoint (c_sb s)) h' (imap_live (c_imap s)) ∧
      ch_sequence h' = ch_sequence h + 1 ∧ c_checkpoint_seq s = ch_sequence h + 1;
  rd_known : summaries_known (c_disk s0) (image_segments s0) (imap_next_ino (c_imap s)) →
    imap_fresh (c_imap s) }.

(** The state once the log is initialised, an image [s0] being mounted. *)
Record started s0 s : Prop := {
  sd_log : log_wf s;
  sd_disk : c_disk s = c_disk s0;
  sd_disk_size : c_disk_size s = c_disk_size s0;
  sd_readonly : c_readonly s = c_readonly s0;
  sd_icache : c_icache s = empty_inode_cache;
  sd_empty : sg_block_count (c_segbuf s) = 1;
  sd_count : st_count (c_segtable s) = image_segments s0;
  sd_layout : sb_layout (c_sb s) = sb_layout (dec (disk_block (c_disk s0) 0)) }.

(** With an empty buffer, writing a checkpoint only touches the blocks before the log. *)
Lemma idle_checkpoint_wp s :
  log_wf s → sg_block_count (c_segbuf s) = 1 →
  wp lsfs_checkpoint_write (λ r s', commit_frame s s' ∧
    (Healthy E → c_readonly s = false → imap_count (c_imap s) <= 65280 → r = LSFS_OK ∧
      ∀ h l, recovers_to (c_disk s) (sb_active_checkpoint (c_sb s)) h l →
        c_checkpoint_seq s = ch_sequence h → 0 <= ch_sequence h < 2 ^ 64 - 2 →
        ∃ h', recovers_to (c_disk s') (sb_active_checkpoint (c_sb s')) h' (imap_live (c_imap s)) ∧
          ch_sequence h' = ch_sequence h + 1 ∧ c_checkpoint_seq s' = ch_sequence h + 1)) s.
Proof.
  intros Hs Hc. unfold wp, lsfs_checkpoint_write. rewrite checkpoint_write_body_idle by lia.
  destruct (wp_elim _ _ _ (checkpoint_commit_frame s Hs)) as (r & s' & Hrun & Hf). rewrite Hrun. split; [done|].
  intros Hh Hro Hn. assert (r = LSFS_OK) as -> by exact (wp_run _ _ _ _ _ (checkpoint_commit_ok s Hs Hro Hn) Hrun).
  split; [done|]. intros h l Hrec Hq Hseq. set (c := mk_cache (c_disk s) []).
  assert (checkpointed s c (sb_active_checkpoint (c_sb s)) h l) as Hcp.
  { split; [done| |done|lia]. split; [by intros ?? ?%not_elem_of_nil|exact Hrec]. }
  destruct (wp_run _ _ _ _ _ (checkpoint_commit_crash s c _ h l Hs Hcp) Hrun) as (tr & h' & _ & Hq' & _ & _ & _ & Hok).
  destruct (Hok eq_refl) as (Hrec' & Hact & Hseq' & _). exists h'. rewrite Hact. split_and!; [done|lia|lia].
Qed.

Lemma started_meta s : log_wf s → in_disk s 0 LSFS_LOG_START.
Proof. intros Hs. by apply meta_in_disk. Qed.

Lemma checkpoint_recover_wp s0 s :
  image_ok s0 → started s0 s →
  wp lsfs_checkpoint_recover (λ r s', answers (Healthy E ∧ image_usable s0) r (recovered s0 s')) s.
Proof.
  intros Him Hst. pose proof Hst as [Hs Hd Hsz Hro Hic Hcnt1 Hcnt Hlay].
  assert (sb_total_segments (c_sb s) = image_segments s0) as Htot by exact (f_equal snd Hlay).
  assert (∀ r, region_ok s0 r → region_ok s r) as Hrg by (unfold region_ok, in_disk; intros r; by rewrite Hd, Hsz).
  assert (disk_ok s) as Hb by (intros b; rewrite Hd; apply Him).
  unfold lsfs_checkpoint_recover. apply wp_if_ok.
  destruct (wp_elim _ _ _ (checkpoint_load_wp s Hs Hb (Hrg 0 (io_region0 _ Him)) (Hrg 1 (io_region1 _ Him))))
    as (r & s1 & Hrun1 & H1 & Hok1). eapply wp_intro; [exact Hrun1|].
  case_decide as Hr; [|split; [done|]; intros [Hh [? ? Hfit]]; apply Hok1; split; [done|]; split; [congruence|by rewrite Hd|]].
  2:{ intros m. unfold recoverable, rolled_image, image_segments. rewrite Hd. apply Hfit. }
  destruct (H1 Hr) as (m0 & (rg & l & Hrg01 & Hrh & ->) & Hrc1). clear H1 Hok1. wp_step. apply wp_gets.
  destruct (lsfs_block_to_segment (sb_log_head (c_sb s1))) as [seg off] eqn:Hbs.
  pose proof Hbs as [Hseg _]%block_to_segment_range.
  2:{ pose proof (lw_sb s1 (rc_log _ _ _ Hrc1)) as Hsbw. cbn in Hsbw. destruct_and! Hsbw. assumption. }
  wp_step. apply wp_gets. wp_step.
  assert (∀ j, j ∈ seqZ seg (sb_total_segments (c_sb s1) - seg) → 0 <= j < st_count (c_segtable s1)) as Hrange.
  { intros j [? ?]%elem_of_seqZ. rewrite (rc_total _ _ _ Hrc1) in *. rewrite (rc_count _ _ _ Hrc1).
    unfold valid_segment in Hseg. lia. }
  assert (disk_ok s1) as Hb1 by (intros b; rewrite (rc_disk _ _ _ Hrc1); apply Hb).
  destruct (wp_elim _ _ _ (roll_forward_wp s (entries_map l) s1 _ Hrc1 Hb1 Hrange)) as ([] & s2 & Hrun2 & Hrc2 & Hex2).
  eapply wp_intro; [exact Hrun2|].
  assert (∀ rg' h l', Healthy E → recovers_to (c_disk s0) rg' h l' →
    let m := recovered_map (c_disk s0) h l' (image_segments s0) in
    Z.of_nat (size m) < LSFS_MAX_INODES → imap_map (c_imap s2) = m) as Hex.
  { intros rg' h l' HE Hrec m Hsize. rewrite <-Hd in Hrec. pose proof (started_meta s Hs) as Hmeta.
    rewrite (checkpoint_load_run s rg' h l' Hmeta Hrec) in Hrun1. injection Hrun1 as _ <-.
    pose proof Hrec as (_ & [_ _ _ Hlen' _ Hsort' _] & _).
    destruct (imap_loaded_wf (c_imap s) l' (lw_imap s Hs) Hsort' ltac:(lia)) as [_ Hlive].
    cbn [after_load c_disk c_sb c_imap sb_log_head sb_total_segments c_last_checkpoint field_set] in *.
    assert (m = replay_log (c_disk s) (ch_timestamp h) (seqZ seg (sb_total_segments (c_sb s) - seg))
      (imap_map (loaded_imap (c_imap s) l'))) as Hm.
    { subst m. change (imap_live (loaded_imap (c_imap s) l') = l') in Hlive.
      unfold recovered_map, imap_map. by rewrite Hbs, Hlive, Hd, Htot. }
    rewrite Hm in Hsize |- *. by apply Hex2. }
  pose proof (keeps (Keeps := roll_forward_same _) _ _ _ Hrun2) as (Hq2 & Hact2 & Hlay2).
  destruct Hrc2 as [Hs2 Ha2 Hd2 Hsz2 Hro2 Hic2 Hb2 Hcnt2 Htot2 Hnx2 Hroll2 Hkn2]. rewrite Hd, Hcnt in Hroll2, Hkn2.
  assert (rolled_image s0 (imap_map (c_imap s2))) as Hri by (exists rg, l; rewrite <-Hd at 1 2; by split_and!).
  eapply wp_mono; [apply idle_checkpoint_wp; [done|congruence]|]. intros r' s3 [Hf Hok].
  split.
  - intros _. split; rewrite ?(cf_imap _ _ Hf); try done.
    + by eapply commit_frame_wf.
    + intros ino loc ver. rewrite (cf_imap _ _ Hf). unfold in_disk. rewrite (cf_disk_size _ _ Hf). apply Ha2.
    + by rewrite (cf_icache _ _ Hf), Hic2.
    + apply (cf_bytes _ _ Hf). intros b. rewrite Hd2. apply Hb.
    + rewrite (cf_readonly _ _ Hf). congruence.
    + rewrite (cf_disk_size _ _ Hf). congruence.
    + rewrite (cf_segtable _ _ Hf). congruence.
    + rewrite (lf_layout _ _ (commit_log_frame _ _ Hf)), Hlay2. pose proof (keeps (Keeps := checkpoint_load_layout) _ _ _ Hrun1).
      unfold same_layout in *. congruence.
    + intros b Hlb. rewrite (cf_log _ _ Hf) by done. congruence.
    + intros rg' h l' HE Hro0 Hcnt' Hrec Hseq. rewrite <-Hd in Hrec.
      rewrite (checkpoint_load_run s rg' h l' (started_meta s Hs) Hrec) in Hrun1. injection Hrun1 as _ <-.
      destruct Hok as [_ Hnew]; [done|congruence|done|]. apply (Hnew h l'); [|exact Hq2|done].
      change (sb_active_checkpoint (c_sb (after_load rg' h l' s))) with rg' in Hact2. rewrite Hact2.
      by rewrite Hd2.
  - intros [Hh [Hw _ Hfit]]. apply Hok; [done|congruence|]. rewrite <-imap_map_size by apply Hs2.
    apply Hfit. split; [done|]. intros rg' h l' Hrec Hsize. by eapply Hex.
Qed.

(** ** The steps of the initialisation *)

(** A step that ends the function when it fails. *)
Lemma wp_checked sure (m k : Op Z) (P Q : lsfs_context → Prop) s :
  wp m (λ r s', answers sure r (P s')) s →
  (∀ s', P s' → wp k (λ r s', answers sure r (Q s')) s') →
  wp (m ;? k) (λ r s', answers sure r (Q s')) s.
Proof.
  intros Hm Hk. apply wp_if_ok. eapply wp_mono; [exact Hm|]. intros r s' [HP Hs]. case_decide; [auto|].
  split; [done|]. intros Hsure. by destruct (Hs Hsure).
Qed.

(** The image is as before. *)
Definition mounting s0 s : Prop :=
  c_disk s = c_disk s0 ∧ c_disk_size s = c_disk_size s0 ∧ c_readonly s = c_readonly s0.

Lemma mounting_trans s1 s2 s3 : mounting s1 s2 → mounting s2 s3 → mounting s1 s3.
Proof. unfold mounting. naive_solver congruence. Qed.

Lemma read_superblock_wp s :
  in_disk s 0 1 → sb_magic (dec (disk_block (c_disk s) 0)) = LSFS_MAGIC →
  sb_version (dec (disk_block (c_disk s) 0)) = LSFS_VERSION →
  wp read_superblock (λ r s', answers (Healthy E) r
    (mounting s s' ∧ c_sb s' = dec (disk_block (c_disk s) 0))) s.
Proof.
  intros Ha Hm Hv. unfold read_superblock. change LSFS_SUPERBLOCK_BLOCK with 0. wp_step. eapply wp_mono; [apply read_in_disk, Ha|].
  intros g s1 (Hio & Hg). destruct Hg as [-> | [-> Hn]]; [|by apply wp_ret]. unfold set_sb. do 2 wp_step.
  rewrite Hm, Hv, !Z.eqb_refl. cbn [negb]. apply wp_ret. split; [|done]. intros _.
  split; [|done]. split_and!; [exact (proj2 Hio)|..]; cbn; by rewrite (proj1 Hio).
Qed.

Lemma imap_init_wp s :
  wp lsfs_imap_init (λ r s', answers (Healthy E) r (mounting s s' ∧ c_sb s' = c_sb s ∧ c_icache s' = c_icache s ∧
    imap_wf (c_imap s') ∧ Forall disk_wf (imap_live (c_imap s')))) s.
Proof.
  unfold lsfs_imap_init. do 2 (wp_step; eapply wp_intro; [done|]). unfold imap_init.
  destruct (env_alloc _) eqn:H1; cbn [negb]; [|apply wp_ret; split; [done|]; intros Hh; by rewrite healthy_alloc in H1].
  destruct (env_alloc (c_tick (s <| c_tick ::= S |>))) eqn:H2; cbn [negb];
    [|apply wp_ret; split; [done|]; intros Hh; by rewrite healthy_alloc in H2].
  wp_steps. split; [|done]. intros _. split_and!; [done..| |apply Forall_nil_2]. split; try done. apply SSorted_nil.
Qed.

Lemma ask_alloc_inv s ok s' : Healthy E → ask env_alloc s = Some (ok, s') → ok = true.
Proof. intros Hh. unfold ask. rewrite healthy_alloc. by intros [= <- _]. Qed.

Ltac alloc_step H :=
  let ok := fresh in let Ha := fresh in
  apply bind_Some_inv in H as (ok & ? & Ha & H); apply ask_alloc_inv in Ha as ->; [|assumption]; cbn [negb] in H.

Lemma segment_init_ok s r s' : Healthy E → lsfs_segment_init s = Some (r, s') → r = LSFS_OK.
Proof.
  intros Hh H. unfold lsfs_segment_init in H. apply bind_Some_inv in H as (total & s1 & _ & H).
  apply bind_Some_inv in H as (ret & s2 & H2 & H). assert (ret = LSFS_OK) as ->.
  { unfold lsfs_segment_buffer_init in H2. do 3 alloc_step H2. apply bind_Some_inv in H2 as (? & ? & _ & H2).
    by injection H2. }
  rewrite Z.eqb_refl in H. cbn [negb] in H. alloc_step H. apply bind_Some_inv in H as (? & ? & _ & H). do 2 alloc_step H.
  do 4 (apply bind_Some_inv in H as (? & ? & _ & H)). by injection H.
Qed.

Lemma init_log_wp s0 s (k : Op Z) (Q : lsfs_context → Prop) sure :
  image_ok s0 → mounting s0 s → c_icache s = empty_inode_cache → (sure → Healthy E) →
  c_sb s = dec (disk_block (c_disk s0) 0) → imap_wf (c_imap s) → Forall disk_wf (imap_live (c_imap s)) →
  (∀ s', started s0 s' → wp k (λ r s', answers sure r (Q s')) s') →
  wp (lsfs_segment_init ;? lsfs_checkpoint_init ;? k) (λ r s', answers sure r (Q s')) s.
Proof.
  intros Him (Hds & Hsz & Hro) Hic Hsure Hsb Hwf He Hk. pose proof Him as [Hb _ _ Hn Hd Ha _ _].
  assert (init_ready s) as Hir.
  { split; rewrite ?Hsb; try done; [|unfold in_disk; by rewrite Hsz|by intros b; rewrite Hds; apply Hb].
    destruct (Hb 0) as [Hl Hbs]. apply dec_wf; [done|]. rewrite Hl. assert (Z.of_nat BS = 4096) as HBS by done.
    cbn [sizeof superblock_ondisk]. unfold sb_reserved_len. lia. }
  eapply (wp_checked sure _ _ (log_started s)).
  { destruct (wp_elim _ _ _ (segment_init_wp s Hir)) as (r & s1 & Hrun & H1).
    eapply wp_intro; [exact Hrun|]. split; [done|]. intros Hh. apply (segment_init_ok s r s1); auto. }
  intros s1 [Hs1 Hbuf _ Ht [Hd1 Hsz1 _ Hic1 Hro1 Hsb1]].
  apply (wp_checked sure _ _ (started s0)); [|done]. unfold lsfs_checkpoint_init.
  wp_step. eapply wp_mono; [apply time_now_frame|]. intros now s2 (Hf2 & Hd2 & _). wp_steps. split; [|done]. intros _.
  pose proof (log_wf_frame _ _ Hf2 Hs1) as [? ? ? ? ? ? ? ? ? ? ? ? ? ?].
  assert (sb_total_segments (c_sb s1) = image_segments s0) as Htot by (rewrite Hsb1; cbn; by rewrite Hsb).
  assert (sb_layout (c_sb s1) = sb_layout (dec (disk_block (c_disk s0) 0))) as Hlay by (rewrite Hsb1; by rewrite <-Hsb).
  split; [by split|..]; [.. | |exact (eq_trans (f_equal (λ s, sb_layout (c_sb s)) Hf2) Hlay)];
    set (n := image_segments s0) in *; clearbody n; cbn [c_disk c_disk_size c_readonly c_icache c_segbuf c_segtable c_sb field_set];
    try (rewrite Hf2; cbn [c_disk c_disk_size c_readonly c_icache c_segbuf c_segtable c_sb field_set]); try congruence.
  by rewrite Hbuf.
Qed.

Lemma recovered_frame s0 s s' :
  recovered s0 s → log_wf s' → log_frame s s' → (∀ b, 1 <= b → disk_block (c_disk s') b = disk_block (c_disk s) b) →
  sb_active_checkpoint (c_sb s') = sb_active_checkpoint (c_sb s) → c_checkpoint_seq s' = c_checkpoint_seq s →
  recovered s0 s'.
Proof.
  intros [_ Ha Hic Hb Hro Hsz Hcnt Hlay Hbl Hnx Hr Hx Hcp Hk] Hs' Hf Hd Hact Hq. pose proof (lf_imap _ _ Hf) as Him.
  split; rewrite ?Him, ?(lf_icache _ _ Hf), ?(lf_readonly _ _ Hf), ?(lf_disk_size _ _ Hf), ?(lf_st_count _ _ Hf),
    ?(lf_layout _ _ Hf); try done; [|by apply (lf_bytes _ _ Hf)| |].
  - intros ino loc ver. rewrite Him. unfold in_disk. rewrite (lf_disk_size _ _ Hf). apply Ha.
  - intros b Hlb. rewrite Hd, Hbl; [done|done|]. unfold LSFS_LOG_START in Hlb. lia.
  - intros r h l HE Hro0 Hn Hrec Hseq. destruct (Hcp r h l HE Hro0 Hn Hrec Hseq) as (h' & Hrec' & Hq1 & Hq2).
    exists h'. rewrite Hact, Hq. split_and!; [|done..]. eapply recovers_ext; [|exact Hrec']. done.
Qed.

Lemma recovered_fs_wf s0 s :
  recovered s0 s → summaries_known (c_disk s0) (image_segments s0) (imap_next_ino (c_imap s)) → fs_wf s.
Proof.
  intros [Hl Ha Hic Hb _ _ _ _ _ _ _ _ _ Hk] Hkn. split; [done|rewrite Hic; apply empty_inode_cache_wf| | |done].
  - intros p im. by rewrite Hic.
  - split; [done|by apply Hk].
Qed.

(** [if (alloc(...) fails) return e;] *)
Lemma wp_alloc_or sure e (k : Op Z) (Q : lsfs_context → Prop) s :
  (sure → Healthy E) → e ≠ LSFS_OK → wp k (λ r s', answers sure r (Q s')) (ticked s) →
  wp (ok ← ask env_alloc; if negb ok then mret e else k) (λ r s', answers sure r (Q s')) s.
Proof.
  intros Hsure He Hk. wp_step. eapply wp_intro; [done|]. destruct (env_alloc (c_tick s)) eqn:Ha; [exact Hk|].
  apply wp_ret. split; [done|]. intros Hh%Hsure. by rewrite healthy_alloc in Ha.
Qed.

Lemma lock_init_step s0 s sure (k : Op Z) (Q : lsfs_context → Prop) :
  (sure → Healthy E) → recovered s0 s → (∀ s', recovered s0 s' → wp k (λ r s', answers sure r (Q s')) s') →
  wp (lock_init ;? k) (λ r s', answers sure r (Q s')) s.
Proof.
  intros Hsure Hs Hk. eapply wp_checked; [|exact Hk]. unfold lock_init. wp_step. eapply wp_intro; [done|].
  apply wp_ret. split; [|intros Hh%Hsure; by rewrite healthy_alloc].
  intros _. apply (recovered_frame s0 s); [done|by apply (log_wf_frame s), Hs|by split|done..].
Qed.

Lemma gc_init_step s0 s sure (k : Op Z) (Q : lsfs_context → Prop) :
  (sure → Healthy E) → recovered s0 s → (∀ s', recovered s0 s' → wp k (λ r s', answers sure r (Q s')) s') →
  wp (lsfs_gc_init ;? k) (λ r s', answers sure r (Q s')) s.
Proof.
  intros Hsure Hs Hk. eapply wp_checked; [|exact Hk]. unfold lsfs_gc_init. do 2 wp_step.
  do 3 (apply wp_alloc_or; [done..|]).
  apply wp_ret. split; [|done]. intros _. pose proof (rd_log _ _ Hs) as [? ? ? ? ? ? ? ? ? ? ? ? ? ?].
  apply (recovered_frame s0 s); [done|by split|by split|done..].
Qed.

Lemma record_mount_wp s :
  log_wf s → wp record_mount (λ r s', r = LSFS_OK ∧ log_wf s' ∧ log_frame s s' ∧ c_mounted s' = true ∧
    (∀ b, 1 <= b → disk_block (c_disk s') b = disk_block (c_disk s) b) ∧
    sb_active_checkpoint (c_sb s') = sb_active_checkpoint (c_sb s) ∧ c_checkpoint_seq s' = c_checkpoint_seq s) s.
Proof.
  intros Hs. unfold record_mount. wp_step. eapply wp_mono; [apply time_now_frame|]. intros now s1 (Hf1 & Hd1 & Hnow).
  pose proof (log_wf_frame _ _ Hf1 Hs) as Hs1. unfold set_sb. do 2 wp_step. set (s2 := s1 <| c_sb ::= _ |>).
  assert (log_wf s2) as Hs2.
  { destruct Hs1 as [? ? ? ? ? ? ? ? ? ? ? ? Hsb ?]. split; try assumption. cbn in Hsb |- *.
    destruct_and! Hsb. split_and!; try assumption; [apply u32_range|unfold is_u32; lia]. }
  assert (log_frame s s2) as Hlf by (eapply log_frame_trans; [by apply read_log_frame|by split]).
  unfold write_superblock. do 4 wp_step. eapply wp_intro; [done|].
  set (s3 := s2 <| c_tick ::= S |>). assert (log_wf s3) as Hs3 by by apply (log_wf_frame s2).
  eapply wp_mono; [apply (write_block_below 1); [by apply log_addressable|done|]|].
  { apply over_read_block, enc_bytes, Hs2. }
  intros r s4 (Hf4 & Hb4 & Hlog4). wp_steps. pose proof (log_wf_frame _ _ Hf4 Hs3) as [? ? ? ? ? ? ? ? ? ? ? ? ? ?].
  split_and!; [done|by split| |done| |cbn; rewrite Hf4; cbn; by rewrite Hf1|cbn; rewrite Hf4; cbn; by rewrite Hf1].
  - eapply log_frame_trans; [exact Hlf|]. eapply (log_frame_trans _ s4); [|by split].
    apply io_log_frame; [|exact Hb4]. eapply io_frame_trans; [|exact Hf4]. done.
  - intros b Hlb. cbn. rewrite Hlog4 by done. cbn. by rewrite Hd1.
Qed.

(** ** The whole initialisation *)
Lemma init_fs_wp s :
  image_ok s →
  wp lsfs_init_fs (λ r s', answers (Healthy E ∧ image_usable s) r (c_mounted s' = true ∧ recovered s s')) s.
Proof.
  intros Him. pose proof (io_fits s Him) as Hfit. pose proof (io_segments s Him) as Hseg.
  set (sure := Healthy E ∧ image_usable s). assert (sure → Healthy E) as Hsure by by intros [? _].
  unfold lsfs_init_fs. apply (wp_checked _ _ _ (mounting s)).
  { unfold lsfs_buffer_pool_init, set_pool. wp_step. eapply wp_intro; [done|].
    destruct (env_alloc _) eqn:Ha; cbn [negb]; wp_steps; split; try done.
    intros Hh%Hsure. by rewrite healthy_alloc in Ha. }
  intros s1 Hm1. pose proof Hm1 as (Hd1 & Hsz1 & _).
  apply (wp_checked _ _ _ (λ s', mounting s s' ∧ c_sb s' = dec (disk_block (c_disk s) 0))).
  { eapply wp_mono; [apply read_superblock_wp|]; rewrite ?Hd1; try apply Him.
    - unfold in_disk, LSFS_LOG_START, LSFS_SEGMENT_BLOCKS, LSFS_BLOCK_SIZE in *. rewrite Hsz1. lia.
    - intros r s2 [H1 H2]. split; [|auto]. intros Hr. destruct (H1 Hr) as [Hm2 Hsb2].
      split; [by eapply mounting_trans|done]. }
  intros s2 [Hm2 Hsb2].
  apply (wp_checked _ _ _ (λ s', mounting s s' ∧ c_sb s' = dec (disk_block (c_disk s) 0) ∧ c_icache s' = empty_inode_cache)).
  { unfold lsfs_inode_cache_init, set_icache. do 2 wp_step. wp_step. eapply wp_intro; [done|]. apply wp_ret.
    split; [done|]. intros Hh%Hsure. by rewrite healthy_alloc. }
  intros s3 (Hm3 & Hsb3 & Hic3). eapply wp_checked.
  { eapply wp_mono; [apply imap_init_wp|]. intros r s4 [H1 H2]. split; [exact H1|auto]. }
  intros s4 (Hm4 & Hsb4 & Hic4 & Hwf4 & He4).
  apply (init_log_wp s); try done; [by eapply mounting_trans|congruence..|].
  intros s5 Hs5. eapply wp_checked; [by apply checkpoint_recover_wp|]. intros s6 Hs6.
  apply (lock_init_step s); try done. intros s7 Hs7.
  apply (lock_init_step s); try done. intros s8 Hs8. apply (gc_init_step s); try done. intros s9 Hs9.
  eapply wp_mono; [apply record_mount_wp, Hs9|]. intros r s' (-> & Hs' & Hf & Hm & Hd & Hact & Hq). split; [|done]. intros _.
  split; [done|by eapply recovered_frame].
Qed.

(** With a known checkpoint that has room for the map. *)
Lemma recovers_usable s r h l :
  c_readonly s = false → recovers_to (c_disk s) r h l →
  Z.of_nat (size (recovered_map (c_disk s) h l (image_segments s))) <= 65280 → image_usable s.
Proof.
  intros Hro Hrec Hsize. assert (LSFS_MAX_INODES = 65536) as Hmax by done. split; [done| |].
  - destruct Hrec as ([->| ->] & [Hh Hv _ _ _ _ _] & _); rewrite Hh; auto.
  - intros m [_ Hm]. rewrite (Hm _ _ _ Hrec); lia.
Qed.

Lemma init_fs_exact s r h l :
  Healthy E → image_ok s → c_readonly s = false → recovers_to (c_disk s) r h l →
  Z.of_nat (size (recovered_map (c_disk s) h l (image_segments s))) <= 65280 →
  wp lsfs_init_fs (λ ret s', ret = LSFS_OK ∧ c_mounted s' = true ∧
    imap_map (c_imap s') = recovered_map (c_disk s) h l (image_segments s)) s.
Proof.
  intros HE Him Hro Hrec Hsize. assert (LSFS_MAX_INODES = 65536) as Hmax by done.
  pose proof (recovers_usable s r h l Hro Hrec Hsize) as Hu. eapply wp_mono; [by apply init_fs_wp|]. intros ret s' [H Hok].
  assert (ret = LSFS_OK) as Hr by auto. destruct (H Hr) as [Hmt Hrd]. split_and!; [done..|].
  apply (rd_exact _ _ Hrd r h l HE Hrec). lia.
Qed.
End Recovery.

(** * Theorems *)

(** C8. Mounting establishes the invariants: for every image that holds bytes and whose
    superblock and checkpoints describe it, mounting ends however calls fail, and when it
    succeeds, the log is well-formed, the inode cache is empty, every address in the inode
    map lies in the image, the blocks of the log are as they were, and the map is that of
    one of the checkpoints with some of the inodes the summaries of the log name moved to
    where the summaries say; the number of the root is never handed out again; when no
    summary names an inode number that was not handed out before, everything the
    operations of the daemon rely on holds.  The reads at [checkpoint.c:176] and [checkpoint.c:240] store a whole
    block into a header on the stack; this is about what they store in the header, not
    about the stack behind it. *)
Theorem mount_establishes `{E : Env} s :
  image_ok s →
  wp lsfs_init_fs (λ r s', r = LSFS_OK →
    c_mounted s' = true ∧ log_wf s' ∧ c_icache s' = empty_inode_cache ∧ imap_addrs s' ∧
    (∀ b, LSFS_LOG_START <= b → disk_block (c_disk s') b = disk_block (c_disk s) b) ∧
    rolled_image s (imap_map (c_imap s')) ∧ LSFS_ROOT_INO < imap_next_ino (c_imap s') ∧
    (summaries_known (c_disk s) (image_segments s) (imap_next_ino (c_imap s')) → fs_wf s')) s.
Proof.
  intros Him. eapply wp_mono; [by apply init_fs_wp|]. intros r s' [H _] Hr. destruct (H Hr) as [Hm Hrec].
  split_and!; [done|apply Hrec..|]. by apply recovered_fs_wf.
Qed.

(** C10. Mounting succeeds: on a machine without failures every image that can be written,
    has a complete checkpoint, and whose map fits in a checkpoint again when the log has
    been rolled forward, is mounted. *)
Theorem mount_succeeds `{E : Env, !Healthy E} s :
  image_ok s → image_usable s → wp lsfs_init_fs (λ r s', r = LSFS_OK ∧ c_mounted s' = true) s.
Proof.
  intros Him Hu. eapply wp_mono; [by apply init_fs_wp|]. intros r s' [H Hok].
  assert (r = LSFS_OK) as Hr by auto. split; [done|]. by apply H.
Qed.

(** C4. Recovery is the function it is meant to be: on a machine without failures mounting
    an image whose newest checkpoint has header [h] and map [l] succeeds, and the inode map
    is the one that [recovered_map] computes from the blocks of the image: the entries of
    the checkpoint, and then, segment by segment from the log head on as long as the
    summaries are not older than the checkpoint, every inode block they describe at its
    address, with its version counted up. *)
Theorem mount_replays_log `{E : Env, !Healthy E} s r h l :
  image_ok s → c_readonly s = false → recovers_to (c_disk s) r h l →
  Z.of_nat (size (recovered_map (c_disk s) h l (image_segments s))) <= 65280 →
  wp lsfs_init_fs (λ ret s', ret = LSFS_OK ∧ c_mounted s' = true ∧
    imap_map (c_imap s') = recovered_map (c_disk s) h l (image_segments s)) s.
Proof. intros. by eapply init_fs_exact. Qed.

(** C24. What was flushed in the second of the checkpoint or later comes back: an inode that the
    summary of the segment at the log head describes is in the map after mounting,
    whether or not the checkpoint has it.  The comparison is in seconds, so an inode that
    was flushed, then removed and checkpointed within one second returns as well. *)
Theorem flushed_inode_returns `{E : Env, !Healthy E} s r h l seg off i :
  image_ok s → c_readonly s = false → recovers_to (c_disk s) r h l →
  Z.of_nat (size (recovered_map (c_disk s) h l (image_segments s))) <= 65280 →
  let hdr := dec (disk_block (c_disk s) (lsfs_segment_to_block seg 0)) : lsfs_segment_header in
  let info := summary_info (c_disk s) seg i in
  lsfs_block_to_segment (ch_log_head h) = (seg, off) → seg < image_segments s →
  sh_magic hdr = LSFS_SEGMENT_MAGIC → ch_timestamp h <= sh_timestamp hdr →
  0 <= i < summary_entries (sh_block_count hdr) → bi_type info = LSFS_BLOCK_TYPE_INODE → 0 < bi_ino info →
  wp lsfs_init_fs (λ ret s', ret = LSFS_OK ∧ is_Some (imap_map (c_imap s') !! bi_ino info)) s.
Proof.
  intros Him Hro Hrec Hsize hdr info Hbs Hlt Hm Ht Hi Hty Hp. eapply wp_mono; [by eapply init_fs_exact|].
  intros ret s' (-> & _ & ->). split; [done|]. unfold recovered_map. rewrite Hbs. cbn [fst].
  rewrite seqZ_cons by lia. cbn [replay_log]. unfold replay_segment. fold hdr.
  rewrite (proj2 (Z.eqb_eq _ _) Hm), (proj2 (Z.leb_le _ _) Ht). cbn [andb].
  apply replay_log_dom, replay_entries_found; [by apply elem_of_seqZ|done|done].
Qed.
