(* ===== verification/Mkfs.v ===== *)
(** The format utility, [tools/mkfs.lsfs.c], over the image file it creates. *)
From S2P Require Import Prelude OnDisk Lru Context Io Log Inode Directory.

(** [memset(block, 0, ...); memcpy(block, bs, ...)] *)
Definition block_with (bs : list Z) : list Z := splice zero_block 0 bs.

(** [uuid[k] = (uuid[k] & keep) | set] *)
Definition stamp_byte (k : Z) (keep set : Z) (uuid : list Z) : option (list Z) :=
  b ← arr_get uuid k; arr_set uuid k (Z.lor (Z.land b keep) set).

Section MkfsOps.
Context `{E : Env}.

Fixpoint rand_bytes (n : nat) : Op (list Z) :=
  match n with
  | O => mret []
  | S n => r ← ask env_rand; bs ← rand_bytes n; mret (u8 r :: bs)
  end.

(** [random] are the bytes [getrandom] stored, when it stored all of them. *)
Definition generate_uuid (random : option (list Z)) : Op (list Z) :=
  uuid ← match random with
         | Some bs => mret (take 16 ((u8 <$> bs) ++ replicate 16 0))
         | None => rand_bytes 16
         end;
  of_opt (u ← stamp_byte 6 15 64 uuid; stamp_byte 8 63 128 u).

Definition mkfs_write_block (block_num : Z) (buf : list Z) : Op Z :=
  n ← sys_pwrite (block_num * LSFS_BLOCK_SIZE) [buf];
  mret (if n =? LSFS_BLOCK_SIZE then 0 else -1).

Definition format_sb (total_blocks total_segments now : Z) (uuid : list Z) : lsfs_superblock :=
  mk_superblock LSFS_MAGIC LSFS_VERSION LSFS_BLOCK_SIZE LSFS_SEGMENT_BLOCKS total_blocks
    total_segments 1 LSFS_CHECKPOINT0_START LSFS_CHECKPOINT1_START 0 0
    (LSFS_LOG_START + 2) (total_segments - 1) uuid now 0 0 0 (replicate sb_reserved_len 0).

Definition root_inode (now generation : Z) : lsfs_inode :=
  let t := u64 (now * 1000000000) in
  mk_inode LSFS_ROOT_INO (Z.lor S_IFDIR 493) (u32 env_uid) (u32 env_gid) LSFS_BLOCK_SIZE 1 t t t 2 0
    ((LSFS_LOG_START + 2) :: replicate 11 0) 0 0 (replicate 64 0) generation
    (replicate i_reserved_len 0).

(** The entries [.] and [..] *)
Definition root_dir_block : option (list Z) :=
  b ← put_entry zero_block 0 12 LSFS_ROOT_INO LSFS_FT_DIR [dot];
  put_entry b 12 (LSFS_BLOCK_SIZE - 12) LSFS_ROOT_INO LSFS_FT_DIR [dot; dot].

Definition format_summary (now : Z) : list Z :=
  enc (mk_segment_header LSFS_SEGMENT_MAGIC 0 now 3 0) ++
  enc (mk_block_info LSFS_ROOT_INO 0 LSFS_BLOCK_TYPE_INODE [0; 0; 0]) ++
  enc (mk_block_info LSFS_ROOT_INO 0 LSFS_BLOCK_TYPE_DIRENT [0; 0; 0]).

Definition format_checkpoint (total_segments now : Z) : lsfs_checkpoint_header :=
  mk_checkpoint_header LSFS_CHECKPOINT_MAGIC LSFS_VERSION 1 now (LSFS_LOG_START + 3) 1
    (u32 total_segments) 0 1.

Definition root_imap : lsfs_imap_entry := mk_imap_entry LSFS_ROOT_INO 1 (LSFS_LOG_START + 1).

(** As many entries as fit in the one block that is written. *)
Definition format_usage (total_segments now : Z) : list lsfs_segment_usage :=
  mk_segment_usage 0 LSFS_SEG_FULL 2 0 now ::
  ((λ i, mk_segment_usage i LSFS_SEG_FREE 0 0 0) <$>
     seqZ 1 (Z.min total_segments (LSFS_BLOCK_SIZE / Z.of_nat (sizeof lsfs_segment_usage)) - 1)).

(** The writes of the utility, in their order, and the final [fsync], whose result is
    not looked at. *)
Definition format_blocks (total_blocks total_segments now : Z) (uuid : list Z) : Op Z :=
  junk ← ask env_mem;
  mkfs_write_block LSFS_SUPERBLOCK_BLOCK
    (over_read (enc (format_sb total_blocks total_segments now uuid)) junk) ;?
  (r ← ask env_rand;
   dir_block ← of_opt root_dir_block;
   mkfs_write_block LSFS_LOG_START (block_with (format_summary now)) ;?
   mkfs_write_block (LSFS_LOG_START + 1) (block_with (enc (root_inode now (u64 r)))) ;?
   mkfs_write_block (LSFS_LOG_START + 2) dir_block ;?
   mkfs_write_block LSFS_CHECKPOINT0_START (block_with (enc (format_checkpoint total_segments now))) ;?
   mkfs_write_block (LSFS_CHECKPOINT0_START + 1) (block_with (enc root_imap)) ;?
   mkfs_write_block LSFS_SEGTABLE_START (block_with (enc_array (format_usage total_segments now))) ;?
   (_ ← lsfs_sync; mret 0)).

(** [opened] and [extended] are whether [open] and [ftruncate] succeed; the file is
    empty when opened, and all holes when extended. *)
Definition format_filesystem (opened extended : bool) (random : option (list Z)) (size_bytes : Z) : Op Z :=
  let total_blocks := size_bytes / LSFS_BLOCK_SIZE in
  let total_segments := u64 (total_blocks - LSFS_LOG_START) / LSFS_SEGMENT_BLOCKS in
  if total_segments <? 4 then mret (-1) else
  let '(total_segments, total_blocks, size_bytes) :=
    if LSFS_MAX_SEGMENTS <? total_segments then
      let blocks := LSFS_LOG_START + LSFS_MAX_SEGMENTS * LSFS_SEGMENT_BLOCKS in
      (LSFS_MAX_SEGMENTS, blocks, blocks * LSFS_BLOCK_SIZE)
    else (total_segments, total_blocks, size_bytes) in
  if negb opened then mret (-1) else
  _ ← modify (λ s, s <| c_disk := ∅ |> <| c_disk_size := 0 |>);
  if negb extended then mret (-1) else
  _ ← modify (λ s, s <| c_disk_size := size_bytes |>);
  now ← time_now;
  uuid ← generate_uuid random;
  format_blocks total_blocks total_segments now uuid.

(** [main] with the size given to it. *)
Definition mkfs_main (opened extended : bool) (random : option (list Z)) (size_mb : Z) : Op Z :=
  if size_mb <? 16 then mret 1 else
  if 1024 <? size_mb then mret 1 else
  format_filesystem opened extended random (size_mb * 1024 * 1024).
End MkfsOps.
