(* ===== verification/MkfsView.v ===== *)
(** What [mkfs.lsfs] leaves on the image, that the daemon mounts it, and what the daemon
    then makes of the root directory. *)
From Stdlib Require Import Sorting.Sorted.
From S2P Require Import Prelude OnDisk Lru Context Io BufferPool Imap SegTable Log.
From S2P Require Import Checkpoint Crash LogView Inode FileView InodeDisk InodeCache Directory DirBlock.
From S2P Require Import DirView Gc Fuse Mount Recovery Mkfs.

(** * Blocks with a structure at their beginning *)

Lemma block_with_eq bs : (length bs <= BS)%nat → block_with bs = bs ++ replicate (BS - length bs) 0.
Proof.
  intros Hl. unfold block_with, splice, zero_block. by rewrite take_0, Nat.add_0_l, drop_replicate.
Qed.

Lemma block_with_block bs : (length bs <= BS)%nat → Forall is_byte bs → is_block (block_with bs).
Proof. intros Hl Hb. apply splice_is_block; [apply zero_block_is_block|lia|done]. Qed.

Lemma block_with_dec {A} `{!OnDisk A, !OnDiskLaws A} (a : A) :
  disk_wf a → (sizeof A <= BS)%nat → dec (block_with (enc a)) = a.
Proof. intros Ha Hs. rewrite block_with_eq by (by rewrite length_enc). by apply dec_enc. Qed.

Lemma over_read_dec {A} `{!OnDisk A, !OnDiskLaws A} (a : A) junk :
  disk_wf a → (sizeof A <= BS)%nat → dec (over_read (enc a) junk) = a.
Proof.
  intros Ha Hs. unfold over_read. rewrite take_app_ge by (by rewrite length_enc). by apply dec_enc.
Qed.

(** * The uuid *)

Lemma byte_lor a b : is_byte a → is_byte b → is_byte (Z.lor a b).
Proof.
  unfold is_byte. intros Ha Hb. split; [apply Z.lor_nonneg; lia|].
  destruct (decide (Z.lor a b = 0)) as [->|Hne]; [lia|].
  change 256 with (2 ^ 8). apply Z.log2_lt_pow2.
  - pose proof (proj2 (Z.lor_nonneg a b) ltac:(lia)). lia.
  - rewrite Z.log2_lor by lia. apply Z.max_lub_lt.
    + destruct (decide (a = 0)) as [->|]; [done|]. apply Z.log2_lt_pow2; lia.
    + destruct (decide (b = 0)) as [->|]; [done|]. apply Z.log2_lt_pow2; lia.
Qed.

Lemma byte_land a k : is_byte a → 0 <= k → is_byte (Z.land a k).
Proof.
  unfold is_byte. intros Ha Hk. split; [apply Z.land_nonneg; lia|].
  destruct (decide (Z.land a k = 0)) as [->|Hne]; [lia|].
  pose proof (proj2 (Z.land_nonneg a k) ltac:(lia)) as Hpos.
  change 256 with (2 ^ 8). apply Z.log2_lt_pow2; [lia|].
  pose proof (Z.log2_land a k ltac:(lia) Hk) as Hl.
  assert (a ≠ 0) as Ha0 by (intros ->; by rewrite Z.land_0_l in Hne).
  assert (Z.log2 a < 8) by (apply Z.log2_lt_pow2; lia). lia.
Qed.

Lemma stamp_byte_bytes k keep set uuid :
  is_bytes 16 uuid → 0 <= k < 16 → 0 <= keep → is_byte set →
  ∃ u, stamp_byte k keep set uuid = Some u ∧ is_bytes 16 u.
Proof.
  intros [Hl Hb] Hk Hkeep Hset. destruct (arr_get_Some uuid k) as [b Hget]; [rewrite Hl; lia|].
  unfold stamp_byte. rewrite Hget. cbn [mbind option_bind]. rewrite arr_set_ok by (rewrite Hl; lia).
  eexists. split; [done|]. split; [by rewrite length_insert|]. apply Forall_insert; [done|].
  apply byte_lor; [|done]. apply byte_land; [|done]. apply arr_get_lookup in Hget as [_ Hget].
  by eapply Forall_lookup_1.
Qed.

(** Only the number of questions asked changes. *)
Definition ticks (s s' : lsfs_context) : Prop := s' = s <| c_tick := c_tick s' |>.

Lemma ticks_refl s : ticks s s.
Proof. by destruct s. Qed.
#[local] Hint Resolve ticks_refl : core.

Section Format.
Context `{E : Env}.
Implicit Types s : lsfs_context.

Lemma rand_bytes_wp n s : wp (rand_bytes n) (λ bs s', is_bytes n bs ∧ ticks s s') s.
Proof.
  revert s. induction n as [|n IH]; intros s; cbn [rand_bytes]; [by apply wp_ret; split|].
  wp_step. eapply wp_intro; [done|]. wp_step. eapply wp_mono; [apply IH|]. intros bs s' [[Hl Hb] Ht].
  apply wp_ret. split; [|unfold ticks in *; by rewrite Ht]. split; [cbn; by rewrite Hl|].
  constructor; [apply (Z.mod_pos_bound _ 256); lia|done].
Qed.

Lemma generate_uuid_wp random s : wp (generate_uuid random) (λ u s', is_bytes 16 u ∧ ticks s s') s.
Proof.
  unfold generate_uuid. wp_step.
  assert (wp (match random with
     | Some bs => mret (take 16 ((u8 <$> bs) ++ replicate 16 0))
     | None => rand_bytes 16
     end) (λ u s', is_bytes 16 u ∧ ticks s s') s) as H.
  { destruct random as [bs|]; [|apply rand_bytes_wp]. apply wp_ret. split; [|apply ticks_refl]. split.
    - rewrite length_take, length_app, length_replicate. lia.
    - apply Forall_take, Forall_app. split; [|apply zeros_bytes]. apply Forall_fmap, Forall_true.
      intros x. apply (Z.mod_pos_bound x 256). lia. }
  eapply wp_mono; [exact H|]. intros u s' [Hu Ht].
  destruct (stamp_byte_bytes 6 15 64 u Hu) as (u1 & H1 & Hu1); [lia..|unfold is_byte; lia|].
  destruct (stamp_byte_bytes 8 63 128 u1 Hu1) as (u2 & H2 & Hu2); [lia..|unfold is_byte; lia|].
  eapply wp_of_opt; [|by split]. rewrite H1. exact H2.
Qed.

(** * The image *)

(** What the blocks of a formatted image hold. *)
Record formatted s (total_blocks total_segments now gen : Z) (uuid : list Z) : Prop := {
  fm_sb : ∃ k, disk_block (c_disk s) 0 =
    over_read (enc (format_sb total_blocks total_segments now uuid)) (env_mem k);
  fm_checkpoint : disk_block (c_disk s) 1 = block_with (enc (format_checkpoint total_segments now));
  fm_imap : disk_block (c_disk s) 2 = block_with (enc root_imap);
  fm_usage : disk_block (c_disk s) 513 = block_with (enc_array (format_usage total_segments now));
  fm_summary : disk_block (c_disk s) 1025 = block_with (format_summary now);
  fm_root : disk_block (c_disk s) 1026 = block_with (enc (root_inode now gen));
  fm_dir : root_dir_block = Some (disk_block (c_disk s) 1027);
  fm_rest b : b ∉ [0; 1; 2; 513; 1025; 1026; 1027] → disk_block (c_disk s) b = zero_block }.

Definition wrote_block (b : Z) (blk : list Z) s : lsfs_context :=
  s <| c_disk ::= <[b := blk]> |> <| c_trace ::= λ tr, tr ++ [IoWrite b blk] |> <| c_tick ::= S |>.

Lemma mkfs_write_ok b blk s :
  Healthy E → 0 <= b → mkfs_write_block b blk s = Some (LSFS_OK, wrote_block b blk s).
Proof.
  intros Hh Hb. unfold mkfs_write_block, sys_pwrite, ask, mbind, M_bind, gets, modify, mret, M_ret.
  rewrite (proj2 (Z.leb_le 0 (b * LSFS_BLOCK_SIZE))) by (unfold LSFS_BLOCK_SIZE; lia).
  rewrite healthy_pwrite, div_off. done.
Qed.

Lemma root_dir_recs :
  ∃ blk rs, root_dir_block = Some blk ∧ block_recs rs blk ∧
    live_recs rs = [([dot], (LSFS_ROOT_INO, LSFS_FT_DIR)); ([dot; dot], (LSFS_ROOT_INO, LSFS_FT_DIR))].
Proof.
  destruct (init_block_recs LSFS_ROOT_INO LSFS_ROOT_INO) as (blk & rs & H & Hb & Hl); [unfold LSFS_ROOT_INO; lia..|].
  exists blk, rs. by split_and!.
Qed.

Lemma format_lookup (sb sum root dir cp im use : list Z) :
  let d := <[513 := use]> (<[2 := im]> (<[1 := cp]> (<[1027 := dir]> (<[1026 := root]>
             (<[1025 := sum]> (<[0 := sb]> (∅ : gmap Z (list Z)))))))) in
  disk_block d 0 = sb ∧ disk_block d 1 = cp ∧ disk_block d 2 = im ∧ disk_block d 513 = use ∧
  disk_block d 1025 = sum ∧ disk_block d 1026 = root ∧ disk_block d 1027 = dir ∧
  ∀ b, b ∉ [0; 1; 2; 513; 1025; 1026; 1027] → disk_block d b = zero_block.
Proof.
  intros d. do 7 (split; [reflexivity|]). intros b Hb. rewrite !not_elem_of_cons in Hb. destruct_and! Hb.
  unfold disk_block, d. by rewrite !lookup_insert_ne by (intros <-; done).
Qed.

(** The image holds [d]; its size and the permission to write it are those of [s0]. *)
Definition image_is s0 (d : gmap Z (list Z)) s : Prop :=
  c_disk s = d ∧ c_disk_size s = c_disk_size s0 ∧ c_readonly s = c_readonly s0.

Lemma image_is_ticks s0 d s s' : image_is s0 d s → ticks s s' → image_is s0 d s'.
Proof. unfold image_is. by intros ? ->. Qed.

Lemma mkfs_write_step s0 d b blk (k : Op Z) Q s :
  Healthy E → 0 <= b → image_is s0 d s → (∀ s', image_is s0 (<[b := blk]> d) s' → wp k Q s') →
  wp (mkfs_write_block b blk ;? k) Q s.
Proof.
  intros Hh Hb (Hd & Hsz & Hro) Hk. eapply wp_ok_step; [by apply mkfs_write_ok|]. apply Hk.
  split_and!; [cbn; by rewrite Hd|exact Hsz|exact Hro].
Qed.

Lemma format_blocks_wp s0 s tb ts now uuid :
  Healthy E → image_is s0 ∅ s →
  wp (format_blocks tb ts now uuid) (λ r s', r = 0 ∧ c_disk_size s' = c_disk_size s0 ∧ c_readonly s' = c_readonly s0 ∧
    ∃ gen, is_u64 gen ∧ formatted s' tb ts now gen uuid) s.
Proof.
  intros Hh Hs. destruct root_dir_recs as (dir & rs & Hdir & _ & _). unfold format_blocks. wp_step.
  eapply wp_intro; [done|]. generalize (c_tick s). intros t. set (sb := over_read _ (env_mem t)).
  assert (image_is s0 ∅ (s <| c_tick ::= S |>)) as Hs1 by exact Hs. revert Hs1.
  generalize (s <| c_tick ::= S |>). clear s Hs. intros s Hs.
  eapply (mkfs_write_step s0 ∅); [done..|exact Hs|]. clear s Hs. intros s Hs. wp_step. eapply wp_intro; [done|].
  wp_step. eapply wp_of_opt; [exact Hdir|]. set (gen := u64 (env_rand (c_tick s))).
  assert (is_u64 gen) as Hgen by apply u64_range. clearbody gen.
  assert (image_is s0 (<[0 := sb]> ∅) (s <| c_tick ::= S |>)) as Hs1 by exact Hs. revert Hs1.
  generalize (s <| c_tick ::= S |>). clear s Hs. intros s Hs.
  do 6 (eapply mkfs_write_step; [done| |exact Hs|]; [done|]; clear s Hs; intros s Hs).
  wp_step. eapply wp_intro; [apply sync_ok|]. apply wp_ret. destruct Hs as (Hd & Hsz & Hro).
  split; [reflexivity|]. split; [exact Hsz|]. split; [exact Hro|]. exists gen. split; [exact Hgen|].
  destruct (format_lookup sb (block_with (format_summary now)) (block_with (enc (root_inode now gen))) dir
    (block_with (enc (format_checkpoint ts now))) (block_with (enc root_imap))
    (block_with (enc_array (format_usage ts now)))) as (H0 & H1 & H2 & H3 & H4 & H5 & H6 & H7).
  change (c_disk s = <[513 := block_with (enc_array (format_usage ts now))]>
    (<[2 := block_with (enc root_imap)]> (<[1 := block_with (enc (format_checkpoint ts now))]> (<[1027 := dir]>
    (<[1026 := block_with (enc (root_inode now gen))]>
    (<[1025 := block_with (format_summary now)]> (<[0 := sb]> ∅))))))) in Hd.
  rewrite <-Hd in *.
  split; [exists t; exact H0|exact H1|exact H2|exact H3|exact H4|exact H5| |exact H7].
  rewrite <-H6 in Hdir. exact Hdir.
Qed.

(** The image [mkfs_main] makes of [size_mb] megabytes. *)
Definition fresh_image (size_mb : Z) s : Prop :=
  c_disk_size s = size_mb * 1024 * 1024 ∧
  ∃ ts now gen uuid, 4 <= ts <= 254 ∧ LSFS_LOG_START + ts * LSFS_SEGMENT_BLOCKS <= size_mb * 256 ∧
    is_u64 now ∧ is_u64 gen ∧ is_bytes 16 uuid ∧ formatted s (size_mb * 256) ts now gen uuid.

Lemma mkfs_main_wp random size_mb s :
  Healthy E → 21 <= size_mb <= 1024 →
  wp (mkfs_main true true random size_mb) (λ r s', r = 0 ∧ c_readonly s' = c_readonly s ∧ fresh_image size_mb s') s.
Proof.
  intros Hh Hmb. unfold mkfs_main. rewrite !(proj2 (Z.ltb_ge _ _)) by lia. unfold format_filesystem.
  replace (size_mb * 1024 * 1024 / LSFS_BLOCK_SIZE) with (size_mb * 256).
  2:{ replace (size_mb * 1024 * 1024) with (size_mb * 256 * 4096) by lia. by rewrite Z.div_mul by done. }
  unfold LSFS_LOG_START, LSFS_SEGMENT_BLOCKS. rewrite u64_small by lia.
  set (ts := (size_mb * 256 - 1025) / 1024).
  pose proof (Z.div_mod (size_mb * 256 - 1025) 1024 ltac:(lia)) as Hdm.
  pose proof (Z.mod_pos_bound (size_mb * 256 - 1025) 1024 ltac:(lia)). fold ts in Hdm.
  assert (4 <= ts <= 254) as Hts by lia. clearbody ts.
  rewrite !(proj2 (Z.ltb_ge _ _)) by (unfold LSFS_MAX_SEGMENTS; lia). cbn [negb].
  do 4 wp_step. wp_step. eapply wp_mono; [apply time_now_frame|]. intros now s1 (Hf & Hd & Hnow). wp_step.
  eapply wp_mono; [apply generate_uuid_wp|]. intros uuid s2 [Huuid Ht].
  set (s0 := s <| c_disk_size := size_mb * 1024 * 1024 |>).
  eapply wp_mono; [apply (format_blocks_wp s0); [done|]|].
  { eapply image_is_ticks; [|exact Ht]. split_and!; [by rewrite Hd|by rewrite Hf..]. }
  intros r s3 (-> & Hsz & Hro & gen & Hgen & Hfm). split; [done|split; [by rewrite Hro|split; [by rewrite Hsz|]]].
  exists ts, now, gen, uuid. unfold LSFS_LOG_START, LSFS_SEGMENT_BLOCKS. split_and!; try done; lia.
Qed.
End Format.

(** * A fresh image can be mounted *)

Lemma format_sb_wf tb ts now uuid :
  0 <= tb < 2 ^ 32 → 4 <= ts <= 254 → is_u64 now → is_bytes 16 uuid → disk_wf (format_sb tb ts now uuid).
Proof.
  intros Htb Hts Hnow Hu. unfold format_sb. cbn. unfold is_u32, is_u64 in *.
  unfold LSFS_MAGIC, LSFS_VERSION, LSFS_BLOCK_SIZE, LSFS_SEGMENT_BLOCKS, LSFS_CHECKPOINT0_START,
    LSFS_CHECKPOINT1_START, LSFS_LOG_START.
  split_and!; try lia; try exact Hu. split; [apply length_replicate|apply zeros_bytes].
Qed.

Lemma format_checkpoint_wf ts now : is_u64 now → disk_wf (format_checkpoint ts now).
Proof.
  intros Hnow. pose proof (u32_range ts). cbn. unfold is_u32, is_u64 in *.
  unfold LSFS_CHECKPOINT_MAGIC, LSFS_VERSION, LSFS_LOG_START. split_and!; lia.
Qed.

Lemma root_imap_wf : disk_wf root_imap.
Proof. cbn. unfold is_u32, is_u64, LSFS_ROOT_INO, LSFS_LOG_START. split_and!; lia. Qed.

Lemma root_inode_wf `{E : Env} now gen : is_u64 gen → disk_wf (root_inode now gen).
Proof.
  intros Hg. pose proof (u64_range (now * 1000000000)). pose proof (u32_range env_uid). pose proof (u32_range env_gid).
  unfold root_inode. cbn. unfold is_u32, is_u64 in *. unfold LSFS_ROOT_INO, LSFS_BLOCK_SIZE, LSFS_LOG_START.
  split_and!; try lia; try exact Hg; try done; try (split; [apply length_replicate|apply zeros_bytes]).
  - repeat constructor; unfold is_u64; lia.
  - exact (conj (length_replicate 64 0) (zeros_bytes 64)).
Qed.

Lemma format_usage_wf ts now : 4 <= ts <= 254 → is_u64 now → Forall disk_wf (format_usage ts now).
Proof.
  intros Hts Hnow. unfold format_usage. constructor.
  - cbn. unfold is_u32, is_u64, LSFS_SEG_FULL in *. split_and!; lia.
  - apply Forall_fmap, Forall_forall. intros i [Hi1 Hi2]%elem_of_seqZ. cbn. unfold is_u32, is_u64, LSFS_SEG_FREE. split_and!; lia.
Qed.

Lemma format_summary_bytes now : is_u64 now →
  Forall is_byte (format_summary now) ∧ length (format_summary now) = 48%nat.
Proof.
  intros Hnow. unfold format_summary. cbn [enc segment_header_ondisk block_info_ondisk].
  split; [|done]. repeat (apply Forall_app; split); try apply le_bytes_bytes;
    repeat constructor; unfold is_byte; lia.
Qed.

Section Fresh.
Context `{E : Env}.
Implicit Types s : lsfs_context.

Lemma fresh_blocks size_mb s : 21 <= size_mb <= 1024 → fresh_image size_mb s → disk_ok s.
Proof.
  intros Hmb (_ & ts & now & gen & uuid & Hts & _ & Hnow & Hgen & Hu & Hf) b.
  assert (Z.of_nat BS = 4096) as HBS by done.
  destruct (decide (b ∈ [0; 1; 2; 513; 1025; 1026; 1027])) as [Hin|Hn];
    [|rewrite (fm_rest _ _ _ _ _ _ Hf) by done; apply zero_block_is_block].
  rewrite !elem_of_cons, elem_of_nil in Hin. destruct Hin as [->|[->|[->|[->|[->|[->|[->|[]]]]]]]].
  - destruct (fm_sb _ _ _ _ _ _ Hf) as [junk ->]. apply over_read_block, enc_bytes, format_sb_wf; try done. lia.
  - rewrite (fm_checkpoint _ _ _ _ _ _ Hf). pose proof (format_checkpoint_wf ts now Hnow) as Hw.
    apply block_with_block; [|by apply enc_bytes]. rewrite length_enc by done. cbn [sizeof checkpoint_header_ondisk]. lia.
  - rewrite (fm_imap _ _ _ _ _ _ Hf). apply block_with_block; [|by apply enc_bytes, root_imap_wf].
    rewrite length_enc by apply root_imap_wf. cbn [sizeof imap_entry_ondisk]. lia.
  - rewrite (fm_usage _ _ _ _ _ _ Hf). pose proof (format_usage_wf ts now Hts Hnow) as Hw.
    apply block_with_block; [|by apply enc_array_bytes]. rewrite length_enc_array by done.
    unfold format_usage. cbn [length sizeof segment_usage_ondisk]. rewrite length_fmap, length_seqZ.
    change (LSFS_BLOCK_SIZE / Z.of_nat 24) with 170. lia.
  - rewrite (fm_summary _ _ _ _ _ _ Hf). destruct (format_summary_bytes now Hnow) as [Hb Hl].
    apply block_with_block; [lia|done].
  - rewrite (fm_root _ _ _ _ _ _ Hf). pose proof (root_inode_wf now gen Hgen) as Hw.
    apply block_with_block; [|by apply enc_bytes]. rewrite length_enc by done.
    cbn [sizeof inode_ondisk]. unfold i_reserved_len. lia.
  - destruct root_dir_recs as (blk & rs & Hd & Hr & _). rewrite (fm_dir _ _ _ _ _ _ Hf) in Hd. injection Hd as ->.
    by eapply block_recs_is_block.
Qed.

Lemma fresh_sb size_mb s :
  21 <= size_mb <= 1024 → fresh_image size_mb s →
  ∃ ts now uuid, 4 <= ts <= 254 ∧ LSFS_LOG_START + ts * LSFS_SEGMENT_BLOCKS <= size_mb * 256 ∧
    dec (disk_block (c_disk s) 0) = format_sb (size_mb * 256) ts now uuid.
Proof.
  intros Hmb (_ & ts & now & gen & uuid & Hts & Hfit & Hnow & Hgen & Hu & Hf). exists ts, now, uuid. split_and!; try lia.
  destruct (fm_sb _ _ _ _ _ _ Hf) as [junk ->]. apply over_read_dec; [apply format_sb_wf; try done; lia|].
  assert (Z.of_nat BS = 4096) as HBS by done. cbn [sizeof superblock_ondisk]. unfold sb_reserved_len. lia.
Qed.

Lemma fresh_zero size_mb s b :
  fresh_image size_mb s → b ∉ [0; 1; 2; 513; 1025; 1026; 1027] → disk_block (c_disk s) b = zero_block.
Proof. intros (_ & ? & ? & ? & ? & _ & _ & _ & _ & _ & Hf). apply (fm_rest _ _ _ _ _ _ Hf). Qed.

Lemma formatted_header s tb ts now gen uuid :
  formatted s tb ts now gen uuid → is_u64 now → header_at (c_disk s) 0 = format_checkpoint ts now.
Proof.
  intros Hf Hnow. assert (Z.of_nat BS = 4096) as HBS by done. unfold header_at. change (region_start 0) with 1.
  rewrite (fm_checkpoint _ _ _ _ _ _ Hf), block_with_dec; [done|by apply format_checkpoint_wf|].
  cbn [sizeof checkpoint_header_ondisk]. lia.
Qed.

Lemma fresh_header size_mb s :
  fresh_image size_mb s →
  ∃ now, dec (disk_block (c_disk s) 1025) = mk_segment_header LSFS_SEGMENT_MAGIC 0 now 3 0 ∧
    ch_timestamp (header_at (c_disk s) 0) = now ∧ ch_log_head (header_at (c_disk s) 0) = 1028.
Proof.
  intros (_ & ts & now & gen & uuid & _ & _ & Hnow & _ & _ & Hf). exists now. split.
  - rewrite (fm_summary _ _ _ _ _ _ Hf). destruct (format_summary_bytes now Hnow) as [_ Hl].
    rewrite block_with_eq by (rewrite Hl; unfold BS, LSFS_BLOCK_SIZE; lia). unfold format_summary. rewrite <-!app_assoc.
    apply dec_enc. unfold is_u64 in Hnow. cbn. unfold is_u32, is_u64, LSFS_SEGMENT_MAGIC. split_and!; lia.
  - by rewrite (formatted_header _ _ _ _ _ _ Hf Hnow).
Qed.

Lemma fresh_sequence size_mb s : fresh_image size_mb s → ch_sequence (header_at (c_disk s) 0) = 1.
Proof.
  intros (_ & ts & now & gen & uuid & _ & _ & Hnow & _ & _ & Hf). by rewrite (formatted_header _ _ _ _ _ _ Hf Hnow).
Qed.

(** The first region holds the root, the second nothing. *)
Lemma fresh_region0 size_mb s :
  fresh_image size_mb s →
  region_holds (c_disk s) 0 (header_at (c_disk s) 0) [root_imap].
Proof.
  intros (_ & ts & now & gen & uuid & Hts & _ & Hnow & _ & _ & Hf).
  assert (Z.of_nat BS = 4096) as HBS by done. pose proof (formatted_header _ _ _ _ _ _ Hf Hnow) as Hh. rewrite Hh. split; try done.
  - constructor; [apply root_imap_wf|constructor].
  - constructor; [constructor|constructor].
  - change (region_start 0 + 1) with 2. change (Z.to_nat (imap_blocks_needed (Z.of_nat (length [root_imap])))) with 1%nat.
    unfold disk_blocks. cbn [seq fmap list_fmap concat]. change (2 + Z.of_nat 0) with 2.
    rewrite (fm_imap _ _ _ _ _ _ Hf), app_nil_r, block_with_eq.
    + unfold enc_array. cbn [fmap list_fmap concat]. rewrite app_nil_r. eauto.
    + rewrite length_enc by apply root_imap_wf. cbn [sizeof imap_entry_ondisk]. lia.
Qed.

Lemma fresh_region1 size_mb s : fresh_image size_mb s → header_valid (header_at (c_disk s) 1) = false.
Proof.
  intros Hf. unfold header_at. change (region_start 1) with 257. rewrite (fresh_zero size_mb s 257 Hf); [done|].
  rewrite !not_elem_of_cons. split_and!; [lia..|apply not_elem_of_nil].
Qed.

Lemma fresh_regions size_mb s r l :
  fresh_image size_mb s → r = 0 ∨ r = 1 → region_holds (c_disk s) r (header_at (c_disk s) r) l →
  l = [root_imap].
Proof.
  intros Hf [-> | ->] Hr; [|pose proof (rh_valid _ _ _ _ Hr) as Hv; by rewrite (fresh_region1 size_mb s Hf) in Hv].
  pose proof (fresh_region0 size_mb s Hf) as [_ _ Hc0 _ Hw0 _ [rest0 Hi0]]. destruct Hr as [_ _ Hc _ Hw _ [rest Hi]].
  rewrite Hc0 in Hc. rewrite <-Hc in Hi. rewrite Hi0 in Hi. cbn in Hc. destruct l as [|e [|]]; try (cbn in Hc; lia).
  rewrite <-(dec_array_enc [e] rest Hw), <-Hi. cbn [length]. symmetry. apply (dec_array_enc [root_imap] rest0 Hw0).
Qed.

Lemma fresh_recovers size_mb s :
  fresh_image size_mb s → recovers_to (c_disk s) 0 (header_at (c_disk s) 0) [root_imap].
Proof.
  intros Hf. split_and!; [by left|by eapply fresh_region0|]. intros Hv. change (1 - 0) with 1 in Hv.
  by rewrite (fresh_region1 size_mb s Hf) in Hv.
Qed.

(** The descriptions in the summary [mkfs] writes, the rest of the block being zero. *)
Definition fresh_infos : list lsfs_block_info :=
  [mk_block_info LSFS_ROOT_INO 0 LSFS_BLOCK_TYPE_INODE [0; 0; 0];
   mk_block_info LSFS_ROOT_INO 0 LSFS_BLOCK_TYPE_DIRENT [0; 0; 0]] ++ replicate (Z.to_nat 337) zero_info.

Lemma fresh_info size_mb s i :
  fresh_image size_mb s → 0 <= i < 339 → fresh_infos !! Z.to_nat i = Some (summary_info (c_disk s) 0 i).
Proof.
  intros (_ & ts & now & gen & uuid & _ & _ & Hnow & _ & _ & Hf) Hi. unfold summary_info.
  change (lsfs_segment_to_block 0 0) with 1025. rewrite (fm_summary _ _ _ _ _ _ Hf).
  assert (drop (sizeof lsfs_segment_header) (block_with (format_summary now)) = enc_array fresh_infos ++ replicate 4 0) as ->.
  { destruct (format_summary_bytes now Hnow) as [_ Hl]. rewrite block_with_eq by (rewrite Hl; unfold BS, LSFS_BLOCK_SIZE; lia).
    unfold format_summary. rewrite <-!app_assoc. rewrite drop_app_length' by done. unfold fresh_infos, enc_array.
    cbn [fmap list_fmap app concat]. rewrite <-!app_assoc. by do 2 f_equal. }
  assert (∃ info, fresh_infos !! Z.to_nat i = Some info) as [info Hinfo].
  { apply lookup_lt_is_Some_2. unfold fresh_infos. rewrite length_app, length_replicate. cbn [length]. lia. }
  assert (Forall disk_wf fresh_infos) as Hw.
  { apply Forall_app. split; [|apply Forall_replicate]; repeat constructor; unfold is_u32, is_u8, is_byte; try lia; done. }
  rewrite Hinfo. by erewrite dec_at_enc by done.
Qed.

(** The log says nothing but where the root is. *)
Lemma fresh_replayed size_mb s count ino loc :
  fresh_image size_mb s → count <= 254 → replayed_at (c_disk s) count ino loc → ino = LSFS_ROOT_INO ∧ loc = 1026.
Proof.
  intros Hf Hcnt (seg & i & Hseg & Hi & Hty & Hino & ->). change max_summary_entries with 339 in Hi.
  destruct (decide (seg = 0)) as [->|Hne].
  - pose proof (fresh_info size_mb s i Hf Hi) as Hinfo. change (lsfs_segment_to_block 0 0) with 1025.
    set (info := summary_info (c_disk s) 0 i) in *. clearbody info.
    destruct (Z.to_nat i) as [|[|k]] eqn:Hk; cbn in Hinfo.
    + injection Hinfo as <-. cbn in Hino. split; [done|lia].
    + by injection Hinfo as <-.
    + by apply lookup_replicate in Hinfo as [-> _].
  - unfold summary_info in Hty. rewrite segment_to_block_eq in Hty by (unfold valid_segment; lia).
    unfold LSFS_LOG_START, LSFS_SEGMENT_BLOCKS in Hty.
    rewrite (fresh_zero size_mb s _ Hf) in Hty by (rewrite !not_elem_of_cons; split_and!; try lia; apply not_elem_of_nil).
    change (drop (sizeof lsfs_segment_header) zero_block) with (drop 24 zero_block) in Hty.
    by rewrite dec_zero_info in Hty by lia.
Qed.

Lemma fresh_image_ok size_mb s : 21 <= size_mb <= 1024 → fresh_image size_mb s → image_ok s.
Proof.
  intros Hmb Hf. destruct (fresh_sb size_mb s Hmb Hf) as (ts & now & uuid & Hts & Hfit & Hsb).
  pose proof (proj1 Hf) as Hsz.
  split; unfold image_segments; rewrite ?Hsb; try done.
  - by eapply fresh_blocks.
  - cbn. unfold max_table_segments. lia.
  - unfold in_disk, LSFS_LOG_START, LSFS_BLOCK_SIZE, LSFS_SEGMENT_BLOCKS in *. cbn [sb_total_segments format_sb]. lia.
  - by left.
  - intros _. exists [root_imap]. split; [by eapply fresh_region0|]. constructor; [|constructor].
    split; [done|]. change (ie_location root_imap) with 1026.
    unfold in_disk, LSFS_LOG_START, LSFS_BLOCK_SIZE, LSFS_SEGMENT_BLOCKS in *. lia.
  - intros Hv. by rewrite (fresh_region1 size_mb s Hf) in Hv.
Qed.

Lemma fresh_segments size_mb s : 21 <= size_mb <= 1024 → fresh_image size_mb s → image_segments s <= 254.
Proof.
  intros Hmb Hf. destruct (fresh_sb size_mb s Hmb Hf) as (ts & now & uuid & Hts & Hfit & Hsb).
  unfold image_segments. rewrite Hsb. cbn. lia.
Qed.

(** Whatever recovery rolls forward, the map holds the root and nothing else. *)
Lemma fresh_rolled size_mb s m :
  21 <= size_mb <= 1024 → fresh_image size_mb s → rolled_image s m →
  ∃ ver, m = {[LSFS_ROOT_INO := (1026, ver)]}.
Proof.
  intros Hmb Hf (r & l & Hr & Hl & [Hdom Hm]). rewrite (fresh_regions size_mb s r l Hf Hr Hl) in *.
  pose proof (fresh_segments size_mb s Hmb Hf) as Hseg.
  assert (∀ ino loc ver, m !! ino = Some (loc, ver) → ino = LSFS_ROOT_INO ∧ loc = 1026) as Hall.
  { intros ino loc ver [[ver0 H0] | Hrp]%Hm; [|by eapply fresh_replayed].
    change (entries_map [root_imap]) with ({[LSFS_ROOT_INO := (1026, 1)]} : gmap Z (Z * Z)) in H0.
    apply lookup_singleton_Some in H0 as [<- [= <- _]]. done. }
  destruct (Hdom LSFS_ROOT_INO) as [[loc ver] Hroot]; [eexists; reflexivity|].
  destruct (Hall _ _ _ Hroot) as [_ ->]. exists ver. apply map_eq. intros ino.
  destruct (decide (ino = LSFS_ROOT_INO)) as [->|Hne]; [by rewrite lookup_singleton_eq|].
  rewrite lookup_singleton_ne by done. destruct (m !! ino) as [[loc' ver']|] eqn:He; [|done].
  by destruct (Hall _ _ _ He).
Qed.

Lemma fresh_image_usable size_mb s :
  21 <= size_mb <= 1024 → fresh_image size_mb s → c_readonly s = false → image_usable s.
Proof.
  intros Hmb Hf Hro. split; [done|left; apply (fresh_region0 size_mb s Hf)|].
  intros m [(ver & ->)%(fresh_rolled size_mb s) _]; [|done..]. rewrite map_size_singleton. lia.
Qed.

(** Making a file system and mounting it. *)
Definition mkfs_mount (random : option (list Z)) (size_mb : Z) : Op Z :=
  ret ← mkfs_main true true random size_mb;
  if negb (ret =? 0) then mret ret else
  ret ← lsfs_io_init true (Some (size_mb * 1024 * 1024));
  if negb (ret =? LSFS_OK) then mret ret else
  lsfs_init_fs.

(** A mounted image with nothing but the root. *)
Record fresh_root s : Prop := {
  fr_mounted : c_mounted s = true;
  fr_wf : fs_wf s;
  fr_cache : c_icache s = empty_inode_cache;
  fr_map : ∃ ver, imap_map (c_imap s) = {[LSFS_ROOT_INO := (1026, ver)]};
  fr_inode : ∃ now gen, is_u64 gen ∧ disk_block (c_disk s) 1026 = block_with (enc (root_inode now gen));
  fr_dir : root_dir_block = Some (disk_block (c_disk s) 1027) }.

Lemma mkfs_mount_wp random size_mb s :
  Healthy E → 21 <= size_mb <= 1024 → c_readonly s = false →
  wp (mkfs_mount random size_mb) (λ r s', r = LSFS_OK ∧ fresh_root s') s.
Proof.
  intros Hh Hmb Hro. unfold mkfs_mount. wp_step. eapply wp_mono; [by apply mkfs_main_wp|].
  intros r s1 (-> & Hro1 & Hf1). rewrite Z.eqb_refl. cbn [negb]. unfold lsfs_io_init. wp_step. wp_step.
  eapply wp_intro; [done|]. rewrite healthy_alloc. cbn [negb]. do 3 wp_step. apply wp_ret. cbn [negb Z.eqb LSFS_OK].
  rewrite u64_small by lia. set (s2 := (s1 <| c_tick ::= S |>) <| c_disk_size := size_mb * 1024 * 1024 |>).
  assert (fresh_image size_mb s2) as Hf2.
  { destruct Hf1 as (_ & ts & now & gen & uuid & ? & ? & ? & ? & ? & [? ? ? ? ? ? ? ?]).
    split; [done|]. exists ts, now, gen, uuid. split_and!; try done; lia. }
  assert (c_readonly s2 = false) as Hro2 by exact (eq_trans Hro1 Hro). clearbody s2.
  pose proof (fresh_image_ok size_mb s2 Hmb Hf2) as Him.
  eapply wp_mono; [by apply init_fs_wp|]. intros r s3 [H Hok].
  assert (r = LSFS_OK) as Hr by (apply Hok; split; [done|by eapply fresh_image_usable]). split; [done|].
  destruct (H Hr) as [Hm Hrec]. pose proof (fresh_rolled _ _ _ Hmb Hf2 (rd_rolled _ _ Hrec)) as Hmap.
  pose proof Hf2 as (_ & ts & now & gen & uuid & _ & _ & _ & Hgen & _ & Hfm).
  split; try done.
  - apply (recovered_fs_wf s2); [done|]. intros ino loc Hrp.
    destruct (fresh_replayed size_mb s2 _ ino loc Hf2 (fresh_segments _ _ Hmb Hf2) Hrp) as [-> _]. apply Hrec.
  - apply Hrec.
  - exists now, gen. split; [done|]. rewrite (rd_blocks _ _ Hrec) by done. apply Hfm.
  - rewrite (rd_blocks _ _ Hrec) by done. apply Hfm.
Qed.

(** The daemon does not find the root where [mkfs] put it. *)
Lemma fresh_root_lost s : Healthy E → fresh_root s → wp (get_inode FUSE_ROOT_ID) (λ r _, r = None) s.
Proof.
  intros Hh [_ Hwf Hic [ver Hmap] (now & gen & Hgen & Hblk) _]. pose proof (root_inode_wf now gen Hgen) as Hi.
  assert (length (enc (root_inode now gen)) = 296%nat) as Hlen by by rewrite length_enc.
  rewrite block_with_eq in Hblk by (rewrite Hlen; unfold BS, LSFS_BLOCK_SIZE; lia).
  change (get_inode FUSE_ROOT_ID) with (lsfs_inode_get (i_ino (root_inode now gen))).
  eapply wp_mono.
  - eapply (inode_reload_wp s (root_inode now gen) 1026 ver); try done.
    + by rewrite Hic.
    + intros p im. by rewrite Hic.
    + rewrite Hmap. apply lookup_singleton_eq.
  - intros r s' [_ H]. apply H; [done|]. rewrite Hblk. change (inode_offset (i_ino (root_inode now gen))) with 296%nat.
    unfold slice. by rewrite drop_app_length'.
Qed.
End Fresh.

(** The requests that name the root and need its inode. *)
Inductive root_request `{E : Env} : Op reply → Prop :=
  | rq_lookup name : root_request (lsfs_op_lookup FUSE_ROOT_ID name)
  | rq_getattr : root_request (lsfs_op_getattr FUSE_ROOT_ID)
  | rq_setattr attr to_set : root_request (lsfs_op_setattr FUSE_ROOT_ID attr to_set)
  | rq_readdir direntry size off : root_request (lsfs_op_readdir direntry FUSE_ROOT_ID size off)
  | rq_open : root_request (lsfs_op_open FUSE_ROOT_ID)
  | rq_read size off : root_request (lsfs_op_read FUSE_ROOT_ID size off)
  | rq_write buf off : root_request (lsfs_op_write FUSE_ROOT_ID buf off)
  | rq_create name mode : root_request (lsfs_op_create FUSE_ROOT_ID name mode)
  | rq_mkdir name mode : root_request (lsfs_op_mkdir FUSE_ROOT_ID name mode)
  | rq_unlink name : root_request (lsfs_op_unlink FUSE_ROOT_ID name)
  | rq_rmdir name : root_request (lsfs_op_rmdir FUSE_ROOT_ID name)
  | rq_rename name newparent newname : root_request (lsfs_op_rename FUSE_ROOT_ID name newparent newname).

(** * Theorems *)

(** C11. A formatted image can be mounted: on a machine without failures, for every size
    from 21 to 1024 megabytes, [mkfs.lsfs] succeeds and so does mounting what it wrote.
    Afterwards everything the daemon relies on holds, the inode map sends the root to
    block 1026 and no other inode anywhere, that block begins with the root inode, and
    the block after it holds exactly the entries [.] and [..]. *)
Theorem format_mounts `{E : Env, !Healthy E} random size_mb s :
  21 <= size_mb <= 1024 → c_readonly s = false →
  wp (mkfs_mount random size_mb) (λ r s', r = LSFS_OK ∧ fs_wf s' ∧ c_mounted s' = true ∧
    (∃ ver, imap_map (c_imap s') = {[LSFS_ROOT_INO := (1026, ver)]}) ∧
    (∃ now gen, disk_wf (root_inode now gen) ∧ dec (disk_block (c_disk s') 1026) = root_inode now gen) ∧
    (∃ rs, block_recs rs (disk_block (c_disk s') 1027) ∧
       live_recs rs = [([dot], (LSFS_ROOT_INO, LSFS_FT_DIR)); ([dot; dot], (LSFS_ROOT_INO, LSFS_FT_DIR))])) s.
Proof.
  intros Hmb Hro. eapply wp_mono; [by apply mkfs_mount_wp|].
  intros r s' [-> [Hm Hwf _ Hmap (now & gen & Hgen & Hblk) Hdir]]. split_and!; try done.
  - exists now, gen. pose proof (root_inode_wf now gen Hgen). split; [done|]. rewrite Hblk. apply block_with_dec; [done|].
    cbn [sizeof inode_ondisk]. unfold i_reserved_len, BS, LSFS_BLOCK_SIZE. lia.
  - destruct root_dir_recs as (blk & rs & Hd & Hrs). rewrite Hdir in Hd. injection Hd as <-. by exists rs.
Qed.

(** C35. The daemon does not find the root of a formatted image: once such an image is
    mounted, every request that needs the inode of the root answers [ENOENT], whatever its
    other arguments: its attributes and changing them, listing, opening, reading or writing
    it, looking a name up in it, creating, removing or renaming an entry of it.  [mkfs.lsfs] writes
    the root inode at the beginning of its block, [lsfs_inode_get] looks for inode 1 at
    offset 296. *)
Theorem fresh_root_unreachable `{E : Env, !Healthy E} random size_mb s :
  21 <= size_mb <= 1024 → c_readonly s = false →
  wp (mkfs_mount random size_mb) (λ _ s',
    ∀ request, root_request request → wp request (λ r _, r = reply_err ENOENT) s') s.
Proof.
  intros Hmb Hro. eapply wp_mono; [by apply mkfs_mount_wp|]. intros r s' [_ Hfr].
  intros request Hrq. destruct Hrq;
    (apply wp_bind; eapply wp_mono; [by apply fresh_root_lost|]; intros ? ? ->; by apply wp_ret).
Qed.
