(* ===== verification/Unmount.v ===== *)
(** Unmounting ([lsfs_cleanup_fs] of [src/main.c]) and mounting again: what a session
    leaves in memory is what the next one finds on the image. *)
From Stdlib Require Import Sorting.Sorted.
From S2P Require Import Prelude OnDisk Lru Context Io BufferPool Imap SegTable Log.
From S2P Require Import Checkpoint Crash LogView Inode FileView InodeDisk InodeCache Gc Mount.
From S2P Require Import GcSelect GcClean Recovery Mkfs MkfsView.

(** * Questions to the environment are asked one after the other *)

(** The number of the next question never decreases, and the log neither mounts nor
    unmounts. *)
Definition later (s s' : lsfs_context) : Prop := (c_tick s <= c_tick s')%nat ∧ c_mounted s' = c_mounted s.

#[export] Instance later_preorder : PreOrder later.
Proof. split; unfold later; [by intros s|]. intros s1 s2 s3 [? ?] [? ?]. split; [lia|congruence]. Qed.

Notation Advances := (Keeps later).
Ltac advancing := keeping ltac:(unfold later; cbn; split; [lia|done]).

Section AdvancesLog.
Context `{E : Env}.

#[export] Instance advances_time_now : Advances time_now.
Proof. unfold time_now. advancing. Qed.
#[export] Instance advances_write_block b blk : Advances (lsfs_write_block b blk).
Proof. unfold lsfs_write_block, sys_pwrite. advancing. Qed.
#[export] Instance advances_write_blocks b blks : Advances (lsfs_write_blocks b blks).
Proof. unfold lsfs_write_blocks, sys_pwrite. advancing. Qed.
#[export] Instance advances_sync : Advances lsfs_sync.
Proof. unfold lsfs_sync. advancing. Qed.
#[export] Instance advances_usage_update i f : Advances (usage_update i f).
Proof. unfold usage_update. advancing. Qed.
#[export] Instance advances_set_segbuf f : Advances (set_segbuf f).
Proof. unfold set_segbuf. advancing. Qed.
#[export] Instance advances_set_sb f : Advances (set_sb f).
Proof. unfold set_sb. advancing. Qed.
#[export] Instance advances_segment_alloc : Advances lsfs_segment_alloc.
Proof. unfold lsfs_segment_alloc, set_free_count. advancing. Qed.
#[export] Instance advances_write_out b now : Advances (segment_write_out b now).
Proof. unfold segment_write_out. advancing. Qed.
#[export] Instance advances_next b now : Advances (segment_next b now).
Proof. unfold segment_next, lsfs_gc_trigger. advancing. Qed.
#[export] Instance advances_imap_save b : Advances (lsfs_imap_save b).
Proof. unfold lsfs_imap_save. advancing. Qed.
#[export] Instance advances_commit : Advances checkpoint_commit.
Proof. unfold checkpoint_commit, checkpoint_prepare, checkpoint_publish. advancing. Qed.
#[export] Instance advances_needed : Advances lsfs_checkpoint_needed.
Proof. unfold lsfs_checkpoint_needed. advancing. Qed.

(** A flush that has something to write asks for the time. *)
Lemma flush_asks s r s' :
  1 < sg_block_count (c_segbuf s) → lsfs_segment_flush s = Some (r, s') → (c_tick s < c_tick s')%nat.
Proof.
  intros Hc. rewrite segment_flush_eq. unfold segment_flush_body. erewrite bind_run by done.
  rewrite (proj2 (Z.leb_gt _ _) Hc). intros (now & s1 & H1 & H2)%bind_Some_inv.
  assert (c_tick s1 = S (c_tick s)) as Ht by by injection H1 as _ <-.
  enough (later s1 s') as [? _] by lia. revert H2. generalize s1, r, s'.
  change (Advances (segment_write_out (c_segbuf s) now ;? (_ ← segment_next (c_segbuf s) now;
    needed ← lsfs_checkpoint_needed;
    if (needed : bool) then _ ← checkpoint_commit; mret LSFS_OK else mret LSFS_OK))). advancing.
Qed.

#[export] Instance advances_flush : Advances lsfs_segment_flush.
Proof.
  intros s r s' H. rewrite segment_flush_eq in H. revert s r s' H.
  change (Advances (segment_flush_body checkpoint_commit)). unfold segment_flush_body. advancing.
Qed.
#[export] Instance advances_checkpoint : Advances lsfs_checkpoint_write.
Proof. unfold lsfs_checkpoint_write, checkpoint_write_body. advancing. Qed.

Lemma log_run_mounted call s : log_wf s → log_call_ok call → wp (log_run call) (λ _ s', c_mounted s' = c_mounted s) s.
Proof.
  intros Hs Hc. destruct (wp_elim _ _ _ (log_run_wp call s Hs Hc)) as (r & s' & Hrun & _).
  eapply wp_intro; [exact Hrun|]. cut (later s s'); [by intros [_ ?]|]. clear Hs. revert s r s' Hrun.
  change (Advances (log_run call)). destruct call; cbn [log_run]; [|apply _..].
  unfold lsfs_segment_append_block. advancing.
Qed.
End AdvancesLog.

(** * Freeing the inode cache *)

Definition with_heap (heap : gmap Z lsfs_inode_mem) (s : lsfs_context) : lsfs_context :=
  s <| c_icache ::= λ c, c <| ic_heap := heap |> |>.

Lemma with_heap_self s : with_heap (ic_heap (c_icache s)) s = s.
Proof. unfold with_heap. destruct s. cbn. f_equal. match goal with |- _ = ?c => by destruct c end. Qed.
Lemma with_heap_twice heap heap' s : with_heap heap (with_heap heap' s) = with_heap heap s.
Proof. done. Qed.

Section FreeCache.
Context `{E : Env}.
Implicit Types s : lsfs_context.

(** Freeing a chain frees its inodes and no others. *)
Lemma free_chain_wp fuel first ps s :
  chain (ic_heap (c_icache s)) first ps → NoDup ps → (length ps < fuel)%nat →
  wp (free_chain fuel first) (λ _ s', ∃ heap, s' = with_heap heap s ∧
    ∀ p, heap !! p = if decide (p ∈ ps) then None else ic_heap (c_icache s) !! p) s.
Proof.
  revert first ps s. induction fuel as [|fuel IH]; intros first ps s Hc Hnd Hlen; [lia|].
  destruct ps as [|p ps]; cbn [free_chain].
  - cbn in Hc. subst first. apply wp_ret. exists (ic_heap (c_icache s)). split; [by rewrite with_heap_self|done].
  - destruct Hc as (-> & q & Hq & Hc). apply fmap_Some in Hq as (i & Hp & ->). apply NoDup_cons in Hnd as [Hn Hnd].
    wp_step. eapply wp_intro; [unfold load_inode; erewrite bind_run by done; by rewrite Hp|].
    unfold set_icache. do 2 wp_step. set (s1 := s <| c_icache ::= _ |>).
    eapply wp_mono; [apply (IH _ ps s1)|].
    + eapply chain_ext; [exact Hc|]. intros x Hx. cbn. rewrite lookup_delete_ne; [done|]. set_solver.
    + done.
    + cbn in Hlen. lia.
    + intros _ s' (heap & -> & Hh). exists heap. split; [done|]. intros x. rewrite Hh. cbn.
      destruct (decide (x = p)) as [->|Hxp]; [rewrite lookup_delete_eq|rewrite lookup_delete_ne by done];
        repeat case_decide; set_solver.
Qed.

(** Freeing the cache frees every inode, each of them once. *)
Lemma inode_cache_destroy_wp s :
  icache_wf (c_icache s) → wp lsfs_inode_cache_destroy (λ _ s', s' = with_heap ∅ s) s.
Proof.
  intros [(ch & lru & Hr) _]. pose proof Hr as [_ Hch Hnd Hmem _ _ _ _ _].
  unfold lsfs_inode_cache_destroy.
  eapply (wp_for_each _ _ (λ ks s', NoDup ks ∧ (∀ k, k ∈ ks → 0 <= k < LSFS_INODE_CACHE_BUCKETS) ∧
    ∃ heap, s' = with_heap heap s ∧ (∀ k p, k ∈ ks → p ∈ ch k → heap !! p = ic_heap (c_icache s) !! p) ∧
      (∀ p, is_Some (heap !! p) → ∃ k, k ∈ ks ∧ p ∈ ch k))).
  - split_and!; [apply NoDup_seqZ|by intros k ?%elem_of_seqZ; lia|]. exists (ic_heap (c_icache s)).
    split_and!; [by rewrite with_heap_self|done|]. intros p [im Hp].
    pose proof (inode_hash_range (i_ino (im_disk_inode im))) as Hrg.
    exists (inode_hash (i_ino (im_disk_inode im))). split; [apply elem_of_seqZ; lia|]. apply Hmem; eauto.
  - intros k ks s' (Hks & Hrg & heap & -> & Hh & Hin). apply NoDup_cons in Hks as [Hk Hks].
    destruct (Hch k (Hrg k ltac:(set_solver))) as (first & Hb & Hc). wp_step.
    eapply wp_intro; [unfold get_inode_bucket; erewrite bind_run by done; cbn; by rewrite Hb|].
    wp_step. apply wp_gets.
    assert (chain heap first (ch k)) as Hck.
    { eapply chain_ext; [exact Hc|]. intros p Hp. rewrite (Hh k); [done|set_solver|done]. }
    eapply wp_mono; [apply (free_chain_wp _ first (ch k)); [exact Hck|apply Hnd|]|].
    { unfold cache_fuel. cbn. apply Nat.lt_succ_r, nodup_heap_size; [apply Hnd|]. intros p. exact (chain_elem _ _ _ p Hck). }
    intros _ s2 (heap2 & -> & Hh2). split_and!; [done|set_solver|]. exists heap2.
    split_and!; [done|..].
    + intros k' p Hk' Hp. rewrite Hh2. rewrite decide_False; [by apply (Hh k'); set_solver|].
      intros Hp'. apply Hmem in Hp as (i & Hi & <-); [|apply Hrg; set_solver].
      apply Hmem in Hp' as (i' & Hi' & Heq); [|apply Hrg; set_solver]. set_solver.
    + intros p. rewrite Hh2. case_decide; [by intros []|]. intros Hp. apply Hin in Hp as (k' & Hk' & Hp).
      exists k'. split; [|done]. set_solver.
  - intros s' (_ & _ & heap & -> & _ & Hin). f_equal. apply map_empty. intros p.
    destruct (heap !! p) eqn:Hp; [|done]. destruct (Hin p) as (k & Hk & _); [by rewrite Hp|]. set_solver.
Qed.
End FreeCache.

(** * What unmounting leaves on the image *)

(** The entries of a map can be used when it is loaded. *)
Definition entries_ok (s : lsfs_context) (l : list lsfs_imap_entry) : Prop :=
  Forall (λ e, 0 <= ie_ino e < LSFS_MAX_INODES ∧ in_disk s (ie_location e) 1) l.

(** The summaries of the log were written before [T]. *)
Definition summaries_before (d : gmap Z (list Z)) (count T : Z) : Prop :=
  ∀ seg, 0 <= seg < count →
    let hdr := dec (disk_block d (lsfs_segment_to_block seg 0)) : lsfs_segment_header in
    sh_magic hdr = LSFS_SEGMENT_MAGIC → sh_timestamp hdr < T.

(** What is on the image when the buffer and the map of [s] have been written: the map is
    that of the newest checkpoint, the other region holds [l] or the map as well, and
    there is nothing to roll forward. *)
Record saved (s : lsfs_context) (l : list lsfs_imap_entry) (s' : lsfs_context) : Prop := {
  sv_log : log_wf s';
  sv_empty : sg_block_count (c_segbuf s') = 1;
  sv_frame : log_frame s s';
  sv_regions : ∃ a h h1 l1, recovers_to (c_disk s') a h (imap_live (c_imap s)) ∧
    region_holds (c_disk s') (1 - a) h1 l1 ∧ (l1 = l ∨ l1 = imap_live (c_imap s)) ∧
    stops_at (c_disk s') h (st_count (c_segtable s));
  sv_live a : live_addr s a → disk_block (c_disk s') a = log_view s a }.

Lemma map_entries_ok s : log_wf s → imap_ok s → entries_ok s (imap_live (c_imap s)).
Proof.
  intros Hs [Ha [[_ Hmax] Hlt]]. apply Forall_forall. intros e He.
  assert (imap_map (c_imap s) !! ie_ino e = Some (ie_location e, ie_version e)) as Hm.
  { apply list_elem_of_lookup_1 in He as [i Hi]. eapply entries_map_lookup; [|exact Hi]. apply (lw_imap s Hs). }
  pose proof (lw_imap_entries s Hs) as Hwf. rewrite Forall_forall in Hwf. destruct (Hwf e He) as (Hino & _).
  specialize (Hlt (ie_ino e) (mk_is_Some _ _ Hm)). unfold is_u32 in Hino. split; [lia|by eapply Ha].
Qed.

Lemma summaries_stop d h count T :
  summaries_before d count T → T <= ch_timestamp h → is_u64 (ch_log_head h) → stops_at d h count.
Proof.
  intros Hb Ht Hlh. unfold stops_at. destruct (lsfs_block_to_segment (ch_log_head h)) as [seg off] eqn:Hbs.
  apply block_to_segment_range in Hbs as [Hseg _]; [|done]. cbn [fst]. intros Hlt Hm.
  eapply Z.lt_le_trans; [apply Hb; [unfold valid_segment in Hseg; lia|exact Hm]|done].
Qed.

Lemma flushed_summaries s s' now blk0 blk T T' :
  log_wf s → 0 <= now < 2 ^ 64 → sg_data (c_segbuf s) !! 0%nat = Some blk0 →
  segment_summary (c_segbuf s) now blk0 = Some blk → flushed_to (c_segbuf s) blk (c_disk s) (c_disk s') →
  summaries_before (c_disk s) (st_count (c_segtable s)) T → T <= T' → now < T' →
  summaries_before (c_disk s') (st_count (c_segtable s)) T'.
Proof.
  intros Hs Hnow Hb0 Hsum [Hin Hout] Hb HT Hlt seg Hseg. cbv zeta.
  pose proof (lw_count s Hs) as Hc. pose proof (lw_data_length s Hs) as Hl.
  pose proof (live_valid s seg Hs Hseg) as Hv. pose proof (live_valid s _ Hs (lw_segment s Hs)) as Hvc.
  destruct (decide (seg = sg_segment_id (c_segbuf s))) as [->|Hne].
  - assert (disk_block (c_disk s') (lsfs_segment_to_block (sg_segment_id (c_segbuf s)) 0) = blk) as Hd.
    { rewrite <-(Hin 0%nat blk); [f_equal; lia|lia|]. apply list_lookup_insert_eq. rewrite Hl.
      unfold seg_blocks_nat, LSFS_SEGMENT_BLOCKS. lia. }
    destruct (summary_layout s now blk0 blk Hs Hnow) as (tail & -> & _); [|done|].
    { eapply Forall_lookup_1; [apply (lw_data s Hs)|exact Hb0]. }
    rewrite Hd, dec_enc by by apply flush_header_wf. intros _. exact Hlt.
  - destruct (other_segment_outside seg (sg_segment_id (c_segbuf s)) 0 (sg_block_count (c_segbuf s)))
      as [Hlo Ho]; try done; [lia|]. rewrite Hout by done. intros Hm.
    eapply Z.lt_le_trans; [by apply Hb|done].
Qed.

Section Save.
Context `{E : Env, HE : !Healthy E}.
Implicit Types s : lsfs_context.

(** The clock: the summaries on disk are from seconds before the first question asked,
    and the next questions are asked in later ones. *)
Definition clock_ahead s : Prop :=
  summaries_before (c_disk s) (st_count (c_segtable s)) (u64 (env_time (c_tick s))) ∧
  ∀ t, (c_tick s < t)%nat → u64 (env_time (c_tick s)) < u64 (env_time t).

(** The flush, and the clock of the checkpoint that follows. *)
Lemma flush_save_wp s :
  log_wf s → clock_ahead s →
  wp lsfs_segment_flush (λ r s', r = LSFS_OK →
    summaries_before (c_disk s') (st_count (c_segtable s')) (u64 (env_time (c_tick s'))) ∧
    sg_block_count (c_segbuf s') = 1 ∧ ∀ a, live_addr s a → disk_block (c_disk s') a = log_view s a) s.
Proof using Type*.
  intros Hs [Hb Hclk]. pose proof (lw_count s Hs) as Hc.
  destruct (Z.le_gt_cases (sg_block_count (c_segbuf s)) 1) as [Hle|Hgt].
  { eapply wp_intro; [by apply segment_flush_idle|]. intros _. split_and!; [done|lia|by apply idle_view]. }
  destruct (wp_elim _ _ _ (segment_flush_wp s Hs)) as (r & s' & Hrun & Hs' & Hf & Hok).
  eapply wp_intro; [exact Hrun|]. intros Hr. apply flush_asks in Hrun; [|lia].
  destruct (Hok Hr) as [Hc1 (now & blk0 & blk & -> & Hb0 & Hsum & Hto & _)]; [lia|].
  split_and!; [|done|by eapply flushed_view]. rewrite (lf_st_count _ _ Hf). specialize (Hclk _ Hrun).
  eapply (flushed_summaries s s' _ blk0 blk); [done|apply u64_range|done|done|done|exact Hb|lia|done].
Qed.

Lemma save_wp s c a h l :
  log_wf s → c_readonly s = false → imap_count (c_imap s) <= 65280 → checkpointed s c a h l →
  c_checkpoint_seq s < 2 ^ 64 - 3 → clock_ahead s →
  wp lsfs_segment_flush (λ _ s1, wp lsfs_checkpoint_write (λ _ s', saved s l s') s1) s.
Proof using Type*.
  intros Hs Hro Hcnt Hcp Hseq Hclk.
  eapply wp_mono; [apply wp_and; [apply (keeps_flush s c a h l); [done..|lia]|
    apply wp_and; [by apply flush_save_wp|by apply segment_flush_wp]]|].
  intros r s1 ((-> & Hq1 & tr & a1 & h1 & l1 & _ & _ & Hcp1 & Hl1) & Hsave & Hs1 & Hf1 & _).
  destruct (Hsave eq_refl) as (Hb1 & Hc1 & Hlive1). clear Hsave.
  pose proof (lf_imap _ _ Hf1) as Him. pose proof (lf_readonly _ _ Hf1) as Hro1.
  unfold wp, lsfs_checkpoint_write. rewrite checkpoint_write_body_idle by lia.
  fold (wp checkpoint_commit (λ _ s', saved s l s') s1).
  pose proof (lw_region s1 Hs1) as Ha1. rewrite (cp_active _ _ _ _ _ Hcp1) in Ha1.
  eapply wp_mono; [apply wp_and; [apply checkpoint_commit_ok; [done|congruence|by rewrite Him]|
    apply wp_and; [by apply (checkpoint_commit_crash s1 (cache_run c tr) a1 h1 l1)|by apply checkpoint_commit_frame]]|].
  intros r s2 (-> & (tr2 & h2 & _ & _ & Hlh & Hts & _ & Hok) & Hf2).
  destruct (Hok eq_refl) as (Hrec & _ & _ & Hold & _). rewrite Him in Hrec.
  split.
  - by eapply commit_frame_wf.
  - by rewrite (cf_segbuf _ _ Hf2).
  - eapply log_frame_trans; [exact Hf1|by apply commit_log_frame].
  - exists (1 - a1), h2, h1, l1. replace (1 - (1 - a1)) with a1 by lia. split_and!; [done|done|naive_solver|].
    rewrite (lf_st_count _ _ Hf1) in Hb1.
    eapply summaries_stop; [|by rewrite Hts|].
    + intros seg Hseg. cbv zeta. rewrite (cf_log _ _ Hf2); [by apply Hb1|].
      pose proof (live_valid s seg Hs Hseg) as Hv. rewrite segment_to_block_eq by (done || lia).
      unfold valid_segment, LSFS_SEGMENT_BLOCKS in *. lia.
    + rewrite Hlh. destruct (lw_sb s1 Hs1) as (_ & _ & _ & _ & _ & _ & _ & _ & _ & _ & _ & Hl & _). exact Hl.
  - intros b Hb. rewrite (cf_log _ _ Hf2); [by apply Hlive1|]. destruct (live_addr_log s b Hs Hb). lia.
Qed.
End Save.

(** * After the checkpoint *)

(** Only the superblock and the usage table differ. *)
Definition aside (d d' : gmap Z (list Z)) : Prop :=
  ∀ b, 1 <= b < LSFS_SEGTABLE_START ∨ LSFS_LOG_START <= b → disk_block d' b = disk_block d b.

Lemma aside_trans d1 d2 d3 : aside d1 d2 → aside d2 d3 → aside d1 d3.
Proof. intros H12 H23 b Hb. by rewrite H23, H12. Qed.

Lemma aside_region d d' r h l : r = 0 ∨ r = 1 → aside d d' → region_holds d r h l → region_holds d' r h l.
Proof.
  intros Hr Ha. apply region_holds_ext. intros b Hb. apply Ha. left. pose proof (region_starts r Hr).
  unfold in_region, LSFS_CHECKPOINT0_BLOCKS, LSFS_SEGTABLE_START in *. lia.
Qed.

Lemma aside_header d d' r : r = 0 ∨ r = 1 → aside d d' → header_at d' r = header_at d r.
Proof.
  intros Hr Ha. unfold header_at. rewrite Ha; [done|]. left. pose proof (region_starts r Hr).
  unfold LSFS_SEGTABLE_START in *. lia.
Qed.

Lemma aside_recovers d d' r h l : aside d d' → recovers_to d r h l → recovers_to d' r h l.
Proof.
  intros Ha (Hr & Hh & Ho). split_and!; [done|by eapply aside_region|].
  unfold other_older. rewrite (aside_header d d') by (lia || done). exact Ho.
Qed.

Lemma aside_stops d d' h count : is_u64 (ch_log_head h) → count <= max_table_segments →
  aside d d' → stops_at d h count → stops_at d' h count.
Proof.
  intros Hlh Hc Ha Hst. unfold stops_at in *.
  destruct (lsfs_block_to_segment (ch_log_head h)) as [seg off] eqn:Hbs.
  apply block_to_segment_range in Hbs as [Hseg _]; [|done]. cbn [fst] in *. intros Hlt. rewrite Ha; [by apply Hst|].
  right. rewrite segment_to_block_eq by (done || lia). unfold valid_segment, LSFS_SEGMENT_BLOCKS in *. lia.
Qed.

Section Unmount.
Context `{E : Env, HE : !Healthy E}.
Implicit Types s : lsfs_context.

(** A write of blocks before the log. *)
Lemma meta_write_wp s b blks :
  in_disk s b (Z.of_nat (length blks)) → c_readonly s = false → Forall is_block blks →
  wp (lsfs_write_blocks b blks) (λ _ s', s' = after_write b blks s ∧ (disk_ok s → disk_ok s')) s.
Proof using Type*.
  intros Hin Hro Hblks. pose proof (write_blocks_ok s b blks Hin Hro) as Hrun.
  eapply wp_intro; [exact Hrun|]. split; [done|]. intros Hok.
  exact (wp_run _ _ _ _ _ (write_blocks_bytes s b blks (in_disk_addressable _ _ _ Hin) Hblks Hok) Hrun).
Qed.

(** The superblock in memory is on the image afterwards. *)
Lemma write_superblock_wp s :
  log_wf s → c_readonly s = false →
  wp write_superblock (λ _ s', io_frame s s' ∧ aside (c_disk s) (c_disk s') ∧
    dec (disk_block (c_disk s') 0) = c_sb s ∧ (disk_ok s → disk_ok s')) s.
Proof using Type*.
  intros Hs Hro. unfold write_superblock. do 3 wp_step. eapply wp_intro; [done|].
  set (s1 := s <| c_tick ::= S |>). set (blk := over_read _ _).
  assert (is_block blk) as Hblk by apply over_read_block, enc_bytes, Hs.
  assert (in_disk s1 0 1) as Hin by (apply (log_in_disk s); [done|unfold LSFS_LOG_START; lia..]).
  pose proof (write_block_ok s1 0 blk Hin Hro) as Hrun. eapply wp_intro; [exact Hrun|]. split_and!; [done| | |].
  - intros b Hb. apply write_range_outside. unfold LSFS_LOG_START in Hb. cbn. lia.
  - pose proof (write_range_inside (c_disk s1) 0 [blk] 0 blk eq_refl) as Hd. change (0 + Z.of_nat 0) with 0 in Hd.
    change (c_disk (after_write 0 [blk] s1)) with (write_range 0 [blk] (c_disk s1)). rewrite Hd.
    apply over_read_dec; [apply Hs|]. assert (Z.of_nat BS = 4096) as HBS by done.
    cbn [sizeof superblock_ondisk]. unfold sb_reserved_len. lia.
  - intros Hok. exact (wp_run _ _ _ _ _ (write_block_bytes s1 0 blk (in_disk_addressable _ _ _ Hin) Hblk Hok) Hrun).
Qed.

(** Giving up the segment manager writes the usage table. *)
Lemma segment_destroy_wp s :
  log_wf s → c_readonly s = false → sg_block_count (c_segbuf s) = 1 →
  wp lsfs_segment_destroy (λ _ s', aside (c_disk s) (c_disk s') ∧
    disk_block (c_disk s') 0 = disk_block (c_disk s) 0 ∧ (disk_ok s → disk_ok s') ∧
    c_disk_size s' = c_disk_size s ∧ c_readonly s' = c_readonly s ∧ c_icache s' = c_icache s) s.
Proof using Type*.
  intros Hs Hro Hc. unfold lsfs_segment_destroy, lsfs_segment_buffer_destroy, set_segbuf, set_segtable.
  wp_step. apply wp_gets. rewrite Hc. cbn [Z.ltb]. change (1 <? 1) with false. cbv iota. wp_step. apply wp_ret. do 2 wp_step. wp_step. apply wp_gets.
  set (s1 := s <| c_segbuf ::= _ |>). change (c_segtable s1) with (c_segtable s).
  pose proof (lw_table s Hs) as [Hlen _ _ Hwf]. pose proof (lw_table_fits s Hs) as Hfits.
  unfold max_table_segments in Hfits.
  case_match eqn:Hes; [by apply wp_ret|]. rewrite <-Hes in *. wp_step. eapply wp_intro; [done|]. rewrite healthy_alloc.
  cbn [sizeof segment_usage_ondisk]. change (LSFS_SEGTABLE_BLOCKS * LSFS_BLOCK_SIZE) with 2097152.
  rewrite (proj2 (Z.ltb_ge 2097152 _)) by lia. rewrite (proj2 (Z.ltb_ge (Z.of_nat (length _)) _)) by lia. cbn [orb].
  set (blks := to_blocks _ _). assert (length blks = Z.to_nat LSFS_SEGTABLE_BLOCKS) as Hbl by apply length_chunks.
  unfold LSFS_SEGTABLE_BLOCKS in Hbl. wp_step.
  eapply wp_mono; [apply meta_write_wp; [|exact Hro|]|].
  - apply (log_in_disk s); [done|unfold LSFS_SEGTABLE_START, LSFS_LOG_START; lia..].
  - by apply to_blocks_wf, enc_array_bytes, Forall_take.
  - intros r s2 [-> Hok]. wp_steps. split_and!; [| |done..].
    + intros b Hb. apply write_range_outside. unfold LSFS_SEGTABLE_START, LSFS_LOG_START in *. lia.
    + apply write_range_outside. unfold LSFS_SEGTABLE_START. lia.
Qed.

(** What unmounting [s], checkpointed with the map [l] before, leaves: the image holds all
    of it and is marked clean, and every cached inode has been freed. *)
Record left_behind s l s' : Prop := {
  lb_mounted : c_mounted s' = false;
  lb_disk_size : c_disk_size s' = c_disk_size s;
  lb_heap : ic_heap (c_icache s') = ∅;
  lb_bytes : disk_ok s';
  lb_layout : sb_layout (dec (disk_block (c_disk s') 0)) = sb_layout (c_sb s);
  lb_clean : sb_state (dec (disk_block (c_disk s') 0)) = 0;
  lb_active : sb_active_checkpoint (dec (disk_block (c_disk s') 0)) = 0 ∨
    sb_active_checkpoint (dec (disk_block (c_disk s') 0)) = 1;
  lb_regions : ∃ a h h1 l1, recovers_to (c_disk s') a h (imap_live (c_imap s)) ∧
    region_holds (c_disk s') (1 - a) h1 l1 ∧ (l1 = l ∨ l1 = imap_live (c_imap s)) ∧
    stops_at (c_disk s') h (st_count (c_segtable s));
  lb_live a : live_addr s a → disk_block (c_disk s') a = log_view s a }.

Lemma saved_left s l s1 s' :
  log_wf s → disk_ok s → saved s l s1 → aside (c_disk s1) (c_disk s') →
  dec (disk_block (c_disk s') 0) = c_sb s1 <| sb_state := 0 |> → disk_ok s' →
  c_mounted s' = false → c_disk_size s' = c_disk_size s1 → ic_heap (c_icache s') = ∅ → left_behind s l s'.
Proof using Type.
  intros Hs Hb [Hs1 _ Hf (a & h & h1 & l1 & Hrec & Hold & Hl1 & Hstop) Hlive] Has Hsb Hok Hm Hsz Hh.
  split; rewrite ?Hsb; try done.
  - rewrite Hsz. apply (lf_disk_size _ _ Hf).
  - apply (lf_layout _ _ Hf).
  - apply (lw_region s1 Hs1).
  - pose proof (proj1 Hrec) as Ha. exists a, h, h1, l1.
    split_and!; [by eapply aside_recovers|eapply aside_region; [lia|done..]|done|].
    eapply aside_stops; [|apply (lw_table_fits s Hs)|done..].
    destruct (header_at_wf s1 a (lf_bytes _ _ Hf Hb)) as (_ & _ & _ & _ & Hlh & _).
    by rewrite (rh_header _ _ _ _ (proj1 (proj2 Hrec))) in Hlh.
  - intros b Hlb. rewrite Has; [by apply Hlive|]. right. destruct (live_addr_log s b Hs Hlb). lia.
Qed.

Lemma cleanup_wp s c a h l :
  fs_wf s → c_mounted s = true → c_readonly s = false → imap_count (c_imap s) <= 65280 →
  checkpointed s c a h l → c_checkpoint_seq s < 2 ^ 64 - 3 → clock_ahead s →
  wp lsfs_cleanup_fs (λ _ s', left_behind s l s') s.
Proof using Type*.
  intros [Hs Hic _ _ Hb] Hm Hro Hcnt Hcp Hseq Hclk. unfold lsfs_cleanup_fs. wp_step. apply wp_gets. rewrite Hm. cbn [negb].
  unfold lsfs_gc_destroy. do 2 wp_step. set (s0 := s <| c_gc_running := false |> <| c_gc_signal := true |>).
  assert (log_wf s0) as Hs0 by (destruct Hs as [? ? ? ? ? ? ? ? ? ? ? ? ? ?]; by split).
  wp_step. eapply wp_mono; [apply (save_wp s0 c a h l); try done; by apply (checkpointed_frame s)|].
  intros r s1 Hcw. wp_step. eapply wp_mono; [exact Hcw|]. clear Hcw r. intros r s2 Hsv.
  assert (saved s l s2) as Hsv2 by (destruct Hsv as [? ? [] ? ?]; by split).
  pose proof Hsv2 as [Hs2 Hc2 Hf2 _ _]. unfold set_sb. do 2 wp_step. set (s3 := s2 <| c_sb ::= _ |>).
  assert (log_wf s3) as Hs3.
  { destruct Hs2 as [? ? ? ? ? ? ? ? ? ? ? ? Hsb ?]. split; try assumption. cbn in Hsb |- *.
    destruct_and! Hsb. split_and!; try assumption. unfold is_u32. lia. }
  assert (c_readonly s3 = false) as Hro3 by (cbn; by rewrite (lf_readonly _ _ Hf2)).
  wp_step. eapply wp_mono; [by apply write_superblock_wp|]. intros r4 s4 (Hf4 & Has4 & Hsb4 & Hok4).
  wp_step. eapply wp_intro; [apply sync_ok|]. set (s5 := ticked s4 <| c_trace ::= _ |>).
  assert (log_wf s5) as Hs5 by (apply (log_wf_frame s4); [done|by apply (log_wf_frame s3)]).
  wp_step. eapply wp_mono; [apply segment_destroy_wp; [exact Hs5|cbn; by rewrite Hf4|cbn; by rewrite Hf4]|].
  intros [] s6 (Has6 & Hd6 & Hok6 & Hsz6 & _ & Hic6). unfold lsfs_imap_destroy. do 2 wp_step.
  wp_step. eapply wp_mono; [apply inode_cache_destroy_wp|].
  { cbn. rewrite Hic6. cbn. rewrite Hf4. cbn. by rewrite (lf_icache _ _ Hf2). }
  intros [] s7 ->. unfold lsfs_io_destroy. do 2 wp_step. eapply wp_intro; [apply sync_ok|]. wp_steps.
  apply (saved_left s l s2); try done.
  - by eapply (aside_trans _ (c_disk s4)).
  - cbn. rewrite Hd6. exact Hsb4.
  - apply Hok6, Hok4, (lf_bytes _ _ Hf2), Hb.
  - cbn. rewrite Hsz6. cbn. by rewrite Hf4.
Qed.
End Unmount.

(** * Mounting what was left *)

Lemma region_map_size d r h l : region_holds d r h l → Z.of_nat (size (entries_map l)) <= 65280.
Proof.
  intros Hrh. pose proof (rh_length _ _ _ _ Hrh) as Hlen. unfold entries_map.
  rewrite map_size_list_to_map; [by rewrite length_fmap|]. by apply sorted_NoDup, (rh_sorted _ _ _ _ Hrh).
Qed.

Section Remount.
Variables (s : lsfs_context) (l : list lsfs_imap_entry) (s' s0 : lsfs_context).
Hypothesis Hwf : fs_wf s.
Hypothesis Hlayout : sb_layout (c_sb s) = (LSFS_MAGIC, LSFS_VERSION, st_count (c_segtable s)).
Hypothesis Hl : entries_ok s l.
Hypothesis Hleft : left_behind s l s'.
Hypothesis Hd : c_disk s0 = c_disk s'.
Hypothesis Hsz : c_disk_size s0 = c_disk_size s.

Lemma left_layout :
  sb_magic (dec (disk_block (c_disk s0) 0)) = LSFS_MAGIC ∧
  sb_version (dec (disk_block (c_disk s0) 0)) = LSFS_VERSION ∧ image_segments s0 = st_count (c_segtable s).
Proof using Hlayout Hleft Hd.
  pose proof (lb_layout _ _ _ Hleft) as Hx. rewrite Hlayout, <-Hd in Hx. unfold sb_layout in Hx.
  unfold image_segments. by injection Hx.
Qed.

Lemma left_entries_ok l1 : l1 = l ∨ l1 = imap_live (c_imap s) → entries_ok s0 l1.
Proof using Hwf Hl Hsz.
  intros H1. unfold entries_ok, in_disk. rewrite Hsz. destruct H1 as [->| ->]; [exact Hl|].
  apply map_entries_ok; apply Hwf.
Qed.

Lemma left_region r : r = 0 ∨ r = 1 → region_ok s0 r.
Proof using Hwf Hl Hleft Hd Hsz.
  intros Hr _. destruct (lb_regions _ _ _ Hleft) as (a & h & h1 & l1 & (Ha & Hnew & _) & Hold & Hl1 & _).
  rewrite <-Hd in Hnew, Hold. destruct (decide (r = a)) as [->|Hne].
  - exists (imap_live (c_imap s)). rewrite (rh_header _ _ _ _ Hnew). split; [done|by apply left_entries_ok; right].
  - replace (1 - a) with r in Hold by lia. exists l1. rewrite (rh_header _ _ _ _ Hold).
    split; [done|by apply left_entries_ok].
Qed.

Lemma left_image_ok : image_ok s0.
Proof using All.
  destruct left_layout as (Hm & Hv & Hn). pose proof (fs_log s Hwf) as Hs.
  pose proof (lw_segment s Hs). pose proof (lw_table_fits s Hs). pose proof (lw_disk s Hs) as Hdk.
  split; [|done|done|rewrite Hn; lia| | |apply left_region; by left|apply left_region; by right].
  - intros b. rewrite Hd. apply (lb_bytes _ _ _ Hleft).
  - rewrite Hn. unfold in_disk in *. by rewrite Hsz.
  - rewrite Hd. apply (lb_active _ _ _ Hleft).
Qed.

Lemma left_image_usable : c_readonly s0 = false → image_usable s0.
Proof using Hlayout Hleft Hd.
  intros Hro. destruct left_layout as (_ & _ & Hn).
  destruct (lb_regions _ _ _ Hleft) as (a & h & h1 & l1 & Hrec & _ & _ & Hstop). rewrite <-Hd in Hrec, Hstop.
  rewrite <-Hn in Hstop. eapply recovers_usable; [done|exact Hrec|].
  rewrite stops_recovered by done. exact (region_map_size _ _ _ _ (proj1 (proj2 Hrec))).
Qed.

(** The next session starts from the map and the blocks of the last one. *)
Lemma left_mounts (E : Env) : Healthy E → c_readonly s0 = false →
  wp lsfs_init_fs (λ r s2, r = LSFS_OK ∧ c_mounted s2 = true ∧ imap_map (c_imap s2) = imap_map (c_imap s) ∧
    ∀ a, live_addr s a → disk_block (c_disk s2) a = log_view s a) s0.
Proof using All.
  intros HE Hro. pose proof (fs_log s Hwf) as Hs. destruct left_layout as (_ & _ & Hn).
  destruct (lb_regions _ _ _ Hleft) as (a & h & h1 & l1 & Hrec & _ & _ & Hstop). rewrite <-Hd in Hrec, Hstop.
  eapply wp_mono; [apply init_fs_wp, left_image_ok|]. intros r s2 [H Hok].
  assert (r = LSFS_OK) as Hr by (apply Hok; split; [done|by apply left_image_usable]).
  destruct (H Hr) as [Hm Hrd]. split_and!; [done|done| |].
  - rewrite <-Hn in Hstop. pose proof (rd_exact _ _ Hrd _ _ _ HE Hrec) as Hx. cbv zeta in Hx.
    rewrite stops_recovered in Hx by done. apply Hx.
    pose proof (region_map_size _ _ _ _ (proj1 (proj2 Hrec))). unfold LSFS_MAX_INODES. lia.
  - intros b Hb. destruct (live_addr_log s b Hs Hb). rewrite (rd_blocks _ _ Hrd), Hd by lia. by apply (lb_live _ _ _ Hleft).
Qed.
End Remount.

(** * Theorem *)

(** A state in the middle of a session: the invariants hold, the image can be written, the
    map fits in a checkpoint, and the image has the checkpoint [(h, l)] the superblock
    names. *)
Record in_session (s : lsfs_context) (h : lsfs_checkpoint_header) (l : list lsfs_imap_entry) : Prop := {
  is_fs : fs_wf s;
  is_mounted : c_mounted s = true;
  is_writable : c_readonly s = false;
  is_fits : imap_count (c_imap s) <= 65280;
  is_layout : sb_layout (c_sb s) = (LSFS_MAGIC, LSFS_VERSION, st_count (c_segtable s));
  is_checkpoint : recovers_to (c_disk s) (sb_active_checkpoint (c_sb s)) h l;
  is_entries : entries_ok s l;
  is_sequence : 0 <= ch_sequence h <= c_checkpoint_seq s ∧ c_checkpoint_seq s < 2 ^ 64 - 3 }.

Lemma in_session_checkpointed s h l :
  in_session s h l → checkpointed s (mk_cache (c_disk s) []) (sb_active_checkpoint (c_sb s)) h l.
Proof.
  intros [_ _ _ _ _ Hrec _ Hseq]. split; [done| |done|lia]. split; [by intros ?? ?%not_elem_of_nil|exact Hrec].
Qed.

(** Mounting begins a session. *)
Lemma mount_session `{E : Env} s0 r h l :
  Healthy E → image_ok s0 → c_readonly s0 = false → recovers_to (c_disk s0) r h l →
  Z.of_nat (size (recovered_map (c_disk s0) h l (image_segments s0))) <= 65280 → 0 <= ch_sequence h < 2 ^ 64 - 4 →
  wp lsfs_init_fs (λ ret s, ret = LSFS_OK ∧
    imap_map (c_imap s) = recovered_map (c_disk s0) h l (image_segments s0) ∧
    (summaries_known (c_disk s0) (image_segments s0) (imap_next_ino (c_imap s)) →
     c_checkpoint_seq s = ch_sequence h + 1 ∧ ∃ h', in_session s h' (imap_live (c_imap s)))) s0.
Proof.
  intros HE Him Hro Hrec Hsize Hseq. assert (LSFS_MAX_INODES = 65536) as Hmax by done.
  eapply wp_mono; [by apply init_fs_wp|]. intros ret s [H Hok].
  assert (ret = LSFS_OK) as Hr by (apply Hok; split; [done|by eapply recovers_usable]). destruct (H Hr) as [Hm Hrd].
  assert (imap_map (c_imap s) = recovered_map (c_disk s0) h l (image_segments s0)) as Hmap.
  { apply (rd_exact _ _ Hrd r h l HE Hrec). lia. }
  split_and!; [done|done|]. intros Hkn. pose proof (recovered_fs_wf _ _ Hrd Hkn) as Hwf.
  assert (imap_count (c_imap s) <= 65280) as Hn by (rewrite <-imap_map_size by apply Hrd; by rewrite Hmap).
  destruct (rd_checkpoint _ _ Hrd r h l HE Hro Hn Hrec ltac:(lia)) as (h' & Hrec' & Hq' & Hq).
  split; [done|]. exists h'. split; try done.
  - by rewrite (rd_readonly _ _ Hrd).
  - rewrite (rd_layout _ _ Hrd), (rd_count _ _ Hrd). unfold sb_layout. by rewrite (io_magic _ Him), (io_version _ Him).
  - apply map_entries_ok; apply Hwf.
  - lia.
Qed.

(** A call of the log goes on with it. *)
Lemma log_run_session `{E : Env} call s h l :
  Healthy E → in_session s h l → log_call_ok call → c_checkpoint_seq s < 2 ^ 64 - 5 →
  wp (log_run call) (λ _ s', c_imap s' = c_imap s ∧ c_checkpoint_seq s' <= c_checkpoint_seq s + 2 ∧
    ∃ h' l', in_session s' h' l') s.
Proof.
  intros HE Hin Hcall Hq. pose proof (in_session_checkpointed s h l Hin) as Hcp.
  destruct Hin as [Hwf Hm Hro Hcnt Hlay _ Hl Hseq]. pose proof (fs_log s Hwf) as Hs.
  eapply wp_mono; [apply wp_and; [by apply log_run_wp|apply wp_and;
    [by apply (keeps_run call s _ _ h l Hs Hcall Hro Hcnt Hcp ltac:(lia))|by apply log_run_mounted]]|].
  intros r s' ([Hs' Hf] & (Hq' & tr & a' & h' & l' & _ & _ & [Hc' Hp' Ha' Hb'] & Hcase) & Hm').
  pose proof (fs_wf_log_frame _ _ Hwf Hs' Hf) as Hwf'. split_and!; [apply (lf_imap _ _ Hf)|done|].
  assert (entries_ok s' l') as Hl'.
  { unfold entries_ok, in_disk. rewrite (lf_disk_size _ _ Hf). destruct Hcase as [(_ & _ & ->)| ->]; [exact Hl|].
    apply map_entries_ok; apply Hwf. }
  exists h', l'. split; try done.
  - congruence.
  - by rewrite (lf_readonly _ _ Hf).
  - by rewrite (lf_imap _ _ Hf).
  - by rewrite (lf_layout _ _ Hf), (lf_st_count _ _ Hf).
  - rewrite Ha', Hc'. eapply phase1_image; [rewrite <-Ha'; apply Hs'|exact Hp'|apply crash_image_full].
  - lia.
Qed.

(** C3. A session ends where the next one begins: on a machine without failures, from any
    state of a session, unmounting
    ends, frees every cached inode and marks the image clean; mounting the image again
    succeeds, with the same inode map, and every block handed out by the log, in the
    buffer or on disk, is on the image with its contents.  The clock must have moved on
    since the last summary, and between the flush and the checkpoint of the unmounting:
    the roll-forward compares seconds. *)
Theorem remount_same `{E : Env, !Healthy E} s h l :
  in_session s h l → clock_ahead s →
  wp lsfs_cleanup_fs (λ _ s', c_mounted s' = false ∧ ic_heap (c_icache s') = ∅ ∧
    sb_state (dec (disk_block (c_disk s') 0)) = 0 ∧
    ∀ E' s0, Healthy E' → c_disk s0 = c_disk s' → c_disk_size s0 = c_disk_size s → c_readonly s0 = false →
      wp (@lsfs_init_fs E') (λ r s2, r = LSFS_OK ∧ c_mounted s2 = true ∧
        imap_map (c_imap s2) = imap_map (c_imap s) ∧
        ∀ a, live_addr s a → disk_block (c_disk s2) a = log_view s a) s0) s.
Proof.
  intros Hin Hclk. pose proof (in_session_checkpointed s h l Hin) as Hcp.
  destruct Hin as [Hwf Hm Hro Hcnt Hlay _ Hl Hseq].
  eapply wp_mono; [eapply cleanup_wp; [done..|exact Hcp|lia|done]|].
  intros [] s' Hleft. split_and!; [apply Hleft..|]. intros E' s0 HE' Hd Hsz Hro0. by eapply left_mounts.
Qed.

Lemma run_calls_session `{E : Env} calls s h l :
  Healthy E → in_session s h l → Forall log_call_ok calls →
  c_checkpoint_seq s + 2 * Z.of_nat (length calls) < 2 ^ 64 - 4 →
  wp (run_calls calls) (λ _ s', c_imap s' = c_imap s ∧ ∃ h' l', in_session s' h' l') s.
Proof.
  intros HE Hin Hcalls Hq. unfold run_calls.
  eapply (wp_for_each _ _ (λ cs s', Forall log_call_ok cs ∧ c_imap s' = c_imap s ∧
    c_checkpoint_seq s' + 2 * Z.of_nat (length cs) < 2 ^ 64 - 4 ∧ ∃ h' l', in_session s' h' l')).
  - split_and!; eauto.
  - intros c cs s1 (Hcs & Him & Hq1 & h1 & l1 & Hin1). apply Forall_cons in Hcs as [Hc Hcs]. cbn [length] in Hq1.
    wp_step. eapply wp_mono; [apply (log_run_session c s1 h1 l1); [done..|lia]|].
    intros r s2 (Him2 & Hq2 & Hin2). apply wp_ret. split_and!; [done|congruence|lia|done].
  - by intros s1 (_ & Him & _ & Hin1).
Qed.

(** C9. A session keeps what the next one needs: on a machine without failures mounting an image with a
    checkpoint succeeds, with the map that recovery computes from it, and, when no summary
    names an inode that was not handed out, begins a session; whatever is appended,
    flushed and checkpointed then, the session goes on: the invariants hold, the map is as
    it was, and the image has a complete checkpoint that the superblock in memory names. *)
Theorem session_invariant `{E : Env, !Healthy E} s0 r h l calls :
  image_ok s0 → c_readonly s0 = false → recovers_to (c_disk s0) r h l →
  Z.of_nat (size (recovered_map (c_disk s0) h l (image_segments s0))) <= 65280 →
  Forall log_call_ok calls → 0 <= ch_sequence h → ch_sequence h + 2 * Z.of_nat (length calls) < 2 ^ 64 - 5 →
  wp lsfs_init_fs (λ ret s, ret = LSFS_OK ∧
    (summaries_known (c_disk s0) (image_segments s0) (imap_next_ino (c_imap s)) →
     wp (run_calls calls) (λ _ s', (∃ h' l', in_session s' h' l') ∧
       imap_map (c_imap s') = recovered_map (c_disk s0) h l (image_segments s0)) s)) s0.
Proof.
  intros Him Hro Hrec Hsize Hcalls Hq0 Hq. eapply wp_mono; [apply (mount_session s0 r h l); [done..|lia]|].
  intros ret s (Hr & Hmap & Hses). split; [done|]. intros Hkn. destruct (Hses Hkn) as [Hqs [h' Hin]].
  eapply wp_mono; [eapply run_calls_session; [done|exact Hin|done|lia]|].
  intros [] s' [Him' Hin']. split; [done|]. congruence.
Qed.
