(* ===== verification/Typed.v ===== *)
(** Every number in the context keeps to the range of its C type, from mounting on.  The
    fields that the invariants of the log, the map and the cache speak about are in range by
    those invariants; for the counters, which no invariant mentions, every operation is
    followed down to the assignments it makes. *)
From S2P Require Import Prelude OnDisk Lru Context Io BufferPool Imap SegTable Log.
From S2P Require Import Checkpoint Crash LogView Inode FileView InodeDisk InodeCache Gc Mount.
From S2P Require Import Recovery.

(** * The types *)

(** [struct lsfs_buffer] *)
Definition buffer_typed (b : lsfs_buffer) : Prop :=
  is_block (b_data b) ∧ is_u64 (b_block_num b) ∧ is_u32 (b_refcount b).

Definition pool_typed (p : lsfs_buffer_pool) : Prop := Forall buffer_typed (bp_buffers p).

(** Every number in the context is in the range of its C type, every block is one. *)
Record context_typed (s : lsfs_context) : Prop := {
  ct_sb : disk_wf (c_sb s);
  ct_imap : Forall disk_wf (imap_live (c_imap s)) ∧ is_u32 (imap_count (c_imap s)) ∧
    is_u32 (imap_capacity (c_imap s)) ∧ is_u32 (imap_next_ino (c_imap s));
  ct_table : Forall disk_wf (st_entries (c_segtable s)) ∧ is_u32 (st_count (c_segtable s)) ∧
    is_u32 (st_free_count (c_segtable s));
  ct_buffer : Forall is_block (sg_data (c_segbuf s)) ∧ Forall disk_wf (sg_block_info (c_segbuf s)) ∧
    is_u32 (sg_segment_id (c_segbuf s)) ∧ is_u32 (sg_block_count (c_segbuf s));
  ct_inodes p im : ic_heap (c_icache s) !! p = Some im →
    disk_wf (im_disk_inode im) ∧ is_u64 (im_disk_location im) ∧ is_u32 (im_refcount im) ∧ is_u32 (im_version im);
  ct_cache : is_u32 (ic_count (c_icache s));
  ct_pool : pool_typed (c_bufpool s);
  ct_checkpoint : is_u64 (c_checkpoint_seq s) ∧ is_u64 (c_last_checkpoint s) ∧ is_u32 (c_writes_since_checkpoint s);
  ct_disk : is_u64 (c_disk_size s) ∧ disk_ok s }.

(** * The counters *)

(** Each counter that is in range stays in range. *)
Record counts (s s' : lsfs_context) : Prop := {
  cn_seq : is_u64 (c_checkpoint_seq s) → is_u64 (c_checkpoint_seq s');
  cn_last : is_u64 (c_last_checkpoint s) → is_u64 (c_last_checkpoint s');
  cn_writes : is_u32 (c_writes_since_checkpoint s) → is_u32 (c_writes_since_checkpoint s');
  cn_next : is_u32 (imap_next_ino (c_imap s)) → is_u32 (imap_next_ino (c_imap s'));
  cn_pool : pool_typed (c_bufpool s) → pool_typed (c_bufpool s') }.

#[export] Instance counts_preorder : PreOrder counts.
Proof. split; [by intros s; split|]. intros s1 s2 s3 [] []. split; auto. Qed.

Notation Counts := (Keeps counts).
Ltac counting := keeping ltac:(split; cbn; intros ?; first [assumption|apply u64_range|apply u32_range|done]).

Section CountsLog.
Context `{E : Env}.

Lemma counts_run {A} (m : Op A) s r s' : Counts m → m s = Some (r, s') → counts s s'.
Proof. intros H. apply H. Qed.

Lemma time_typed s t s' : time_now s = Some (t, s') → counts s s' ∧ is_u64 t.
Proof. intros [= <- <-]. split; [by split|apply u64_range]. Qed.

#[export] Instance counts_time_now : Counts time_now.
Proof. unfold time_now. counting. Qed.
#[export] Instance counts_read_block b : Counts (lsfs_read_block b).
Proof. unfold lsfs_read_block, sys_pread. counting. Qed.
#[export] Instance counts_read_blocks b n : Counts (lsfs_read_blocks b n).
Proof. unfold lsfs_read_blocks, sys_pread. counting. Qed.
#[export] Instance counts_write_block b blk : Counts (lsfs_write_block b blk).
Proof. unfold lsfs_write_block, sys_pwrite. counting. Qed.
#[export] Instance counts_write_blocks b blks : Counts (lsfs_write_blocks b blks).
Proof. unfold lsfs_write_blocks, sys_pwrite. counting. Qed.
#[export] Instance counts_sync : Counts lsfs_sync.
Proof. unfold lsfs_sync. counting. Qed.
#[export] Instance counts_usage_update i f : Counts (usage_update i f).
Proof. unfold usage_update. counting. Qed.
#[export] Instance counts_set_segbuf f : Counts (set_segbuf f).
Proof. unfold set_segbuf. counting. Qed.
#[export] Instance counts_set_segtable t : Counts (set_segtable t).
Proof. unfold set_segtable. counting. Qed.
#[export] Instance counts_set_sb f : Counts (set_sb f).
Proof. unfold set_sb. counting. Qed.
#[export] Instance counts_segment_alloc : Counts lsfs_segment_alloc.
Proof. unfold lsfs_segment_alloc, set_free_count. counting. Qed.
#[export] Instance counts_mark_dead a : Counts (lsfs_gc_mark_block_dead a).
Proof. unfold lsfs_gc_mark_block_dead. counting. Qed.
#[export] Instance counts_write_out b now : Counts (segment_write_out b now).
Proof. unfold segment_write_out. counting. Qed.
#[export] Instance counts_next b now : Counts (segment_next b now).
Proof. unfold segment_next, lsfs_gc_trigger. counting. Qed.
#[export] Instance counts_imap_save b : Counts (lsfs_imap_save b).
Proof. unfold lsfs_imap_save. counting. Qed.
#[export] Instance counts_needed : Counts lsfs_checkpoint_needed.
Proof. unfold lsfs_checkpoint_needed. counting. Qed.
#[export] Instance counts_prepare b h : Counts (checkpoint_prepare b h).
Proof. unfold checkpoint_prepare. counting. Qed.

(** The time of the last checkpoint is that of the header. *)
Lemma counts_publish r b h : is_u64 (ch_timestamp h) → Counts (checkpoint_publish r b h).
Proof. intros Hh. unfold checkpoint_publish. counting. Qed.

#[export] Instance counts_commit : Counts checkpoint_commit.
Proof.
  unfold checkpoint_commit. apply keeps_bind; [apply _..|]. intros sb. cbv zeta.
  apply keeps_bind; [apply _|counting|]. intros [].
  apply (keeps_bind_with _ is_u64); [exact time_typed|]. intros now Hnow.
  apply (keeps_bind_with _ (λ h, is_u64 (ch_timestamp h))); [by intros s h s' [= <- <-]|]. intros h Hh.
  pose proof (counts_publish (Z.lxor (sb_active_checkpoint sb) 1)
    (region_start (Z.lxor (sb_active_checkpoint sb) 1)) h Hh). counting.
Qed.

#[export] Instance counts_flush : Counts lsfs_segment_flush.
Proof.
  intros s r s' H. rewrite segment_flush_eq in H. revert s r s' H.
  change (Counts (segment_flush_body checkpoint_commit)). unfold segment_flush_body. counting.
Qed.
#[export] Instance counts_checkpoint : Counts lsfs_checkpoint_write.
Proof. unfold lsfs_checkpoint_write, checkpoint_write_body. counting. Qed.
#[export] Instance counts_append data ino offset type : Counts (lsfs_segment_append_block data ino offset type).
Proof. unfold lsfs_segment_append_block. counting. Qed.
End CountsLog.

(** * The inode map and the inode cache *)

Lemma imap_set_next ra junk im ino loc r im' :
  imap_set ra junk im ino loc = Some (r, im') → imap_next_ino im' = imap_next_ino im.
Proof.
  unfold imap_set. intros (idx & _ & H)%bind_Some. destruct (0 <=? idx).
  { apply bind_Some in H as (e & _ & (es & _ & [= <- <-])%bind_Some). done. }
  assert (∀ g, g = (if imap_capacity im <=? imap_count im then imap_grow ra junk im else (LSFS_OK, im)) →
    imap_next_ino g.2 = imap_next_ino im) as Hg by (intros g ->; unfold imap_grow; by repeat case_match).
  destruct (if imap_capacity im <=? imap_count im then _ else _) as [ret im1]. specialize (Hg _ eq_refl). cbn in Hg.
  destruct (negb (ret =? LSFS_OK)); [by injection H as <- <-|].
  apply bind_Some in H as (pos & _ & (es & _ & (es' & _ & [= <- <-])%bind_Some)%bind_Some). done.
Qed.

Lemma imap_alloc_next im ino im' :
  imap_alloc_ino im = Some (ino, im') → is_u32 (imap_next_ino im) → is_u32 (imap_next_ino im').
Proof.
  unfold imap_alloc_ino. destruct (_ <=? _); [by intros (i & _ & [= <- <-])%bind_Some|].
  intros [= <- <-] _. apply u32_range.
Qed.

Section CountsCache.
Context `{E : Env}.

#[export] Instance counts_imap_get ino : Counts (lsfs_imap_get ino).
Proof. unfold lsfs_imap_get. counting. Qed.
#[export] Instance counts_imap_set ino loc : Counts (lsfs_imap_set ino loc).
Proof.
  intros s r s' H. unfold lsfs_imap_set in H.
  apply bind_Some_inv in H as (im & s1 & [= <- <-] & H). apply bind_Some_inv in H as (ra & s2 & [= <- <-] & H).
  apply bind_Some_inv in H as (junk & s3 & [= <- <-] & H). apply bind_Some_inv in H as ([z im'] & s4 & Hset & H).
  destruct (imap_set _ _ _ _ _) as [[z' im'']|] eqn:Heq; [|done]. injection Hset as <- <- <-.
  apply imap_set_next in Heq. injection H as <- <-. split; cbn; try done. by rewrite Heq.
Qed.
#[export] Instance counts_imap_alloc : Counts lsfs_imap_alloc_ino.
Proof.
  intros s r s' H. unfold lsfs_imap_alloc_ino in H. apply bind_Some_inv in H as (im & s1 & [= <- <-] & H).
  apply bind_Some_inv in H as ([z im'] & s4 & Hset & H).
  destruct (imap_alloc_ino _) as [[z' im'']|] eqn:Heq; [|done]. injection Hset as <- <- <-.
  injection H as <- <-. split; cbn; try done. by eapply imap_alloc_next.
Qed.

#[export] Instance counts_load_inode p : Counts (load_inode p).
Proof. unfold load_inode. counting. Qed.
#[export] Instance counts_set_icache f : Counts (set_icache f).
Proof. unfold set_icache. counting. Qed.
#[export] Instance counts_upd_inode p f : Counts (upd_inode p f).
Proof. unfold upd_inode. counting. Qed.
#[export] Instance counts_get_bucket h : Counts (get_inode_bucket h).
Proof. unfold get_inode_bucket. counting. Qed.
#[export] Instance counts_set_bucket h v : Counts (set_inode_bucket h v).
Proof. unfold set_inode_bucket. counting. Qed.
#[export] Instance counts_cache_insert h im : Counts (cache_insert h im).
Proof. unfold cache_insert. counting. Qed.
#[export] Instance counts_get_time : Counts lsfs_get_time_ns.
Proof. unfold lsfs_get_time_ns. counting. Qed.
#[export] Instance counts_inode_write p : Counts (lsfs_inode_write p).
Proof. unfold lsfs_inode_write. counting. Qed.

#[export] Instance counts_find_victim fuel cur : Counts (find_victim fuel cur).
Proof. revert cur. induction fuel as [|fuel IH]; intros cur; cbn [find_victim]; counting. Qed.
#[export] Instance counts_inode_find fuel ino cur : Counts (inode_find fuel ino cur).
Proof. revert cur. induction fuel as [|fuel IH]; intros cur; cbn [inode_find]; counting. Qed.
#[export] Instance counts_unchain_from fuel p prev : Counts (inode_unchain_from fuel p prev).
Proof. revert prev. induction fuel as [|fuel IH]; intros prev; cbn [inode_unchain_from]; counting. Qed.
#[export] Instance counts_unchain p : Counts (inode_unchain p).
Proof. unfold inode_unchain. counting. Qed.
#[export] Instance counts_evict_loop fuel : Counts (inode_cache_evict_loop fuel).
Proof. induction fuel as [|fuel IH]; cbn [inode_cache_evict_loop]; counting. Qed.
#[export] Instance counts_evict : Counts inode_cache_evict.
Proof. unfold inode_cache_evict. counting. Qed.

#[export] Instance counts_inode_get ino : Counts (lsfs_inode_get ino).
Proof. unfold lsfs_inode_get. counting. Qed.
#[export] Instance counts_inode_put p : Counts (lsfs_inode_put p).
Proof. unfold lsfs_inode_put. counting. Qed.
#[export] Instance counts_inode_alloc mode : Counts (lsfs_inode_alloc mode).
Proof. unfold lsfs_inode_alloc. counting. Qed.

#[export] Instance counts_icache_run c : Counts (icache_run c).
Proof. destruct c; cbn [icache_run]; counting. Qed.

Lemma counts_path cs s s' : icache_path cs s s' → counts s s'.
Proof. induction 1 as [|c cs s s1 s2 _ Hrun _ IH]; [done|]. etrans; [exact (keeps _ _ _ Hrun)|done]. Qed.
End CountsCache.

(** * Mounting *)

(** What is read from the image before a checkpoint is loaded. *)
Definition same_image (s s' : lsfs_context) : Prop := c_disk s' = c_disk s ∧ c_disk_size s' = c_disk_size s.

#[export] Instance same_image_preorder : PreOrder same_image.
Proof. split; unfold same_image; [by intros s|]. intros s1 s2 s3 [? ?] [? ?]. split; congruence. Qed.

Notation Looks := (Keeps same_image).
Ltac looking := keeping ltac:(split; done).

Definition counters_typed (s : lsfs_context) : Prop :=
  is_u64 (c_checkpoint_seq s) ∧ is_u64 (c_last_checkpoint s) ∧ is_u32 (c_writes_since_checkpoint s) ∧
  is_u32 (imap_next_ino (c_imap s)) ∧ pool_typed (c_bufpool s).

Lemma counts_typed s s' : counts s s' → counters_typed s → counters_typed s'.
Proof. intros [] (? & ? & ? & ? & ?). split_and!; auto. Qed.

Section MountTyped.
Context `{E : Env}.

#[export] Instance looks_read_block b : Looks (lsfs_read_block b).
Proof. unfold lsfs_read_block, sys_pread. looking. Qed.
#[export] Instance looks_read_blocks b n : Looks (lsfs_read_blocks b n).
Proof. unfold lsfs_read_blocks, sys_pread. looking. Qed.
#[export] Instance looks_time : Looks time_now.
Proof. unfold time_now. looking. Qed.
#[export] Instance looks_set_segbuf f : Looks (set_segbuf f).
Proof. unfold set_segbuf. looking. Qed.
#[export] Instance looks_set_sb f : Looks (set_sb f).
Proof. unfold set_sb. looking. Qed.
#[export] Instance looks_set_segtable t : Looks (set_segtable t).
Proof. unfold set_segtable. looking. Qed.
#[export] Instance looks_usage_update i f : Looks (usage_update i f).
Proof. unfold usage_update. looking. Qed.
#[export] Instance looks_segment_alloc : Looks lsfs_segment_alloc.
Proof. unfold lsfs_segment_alloc, set_free_count. looking. Qed.
#[export] Instance looks_pool_init : Looks lsfs_buffer_pool_init.
Proof. unfold lsfs_buffer_pool_init, set_pool. looking. Qed.
#[export] Instance looks_superblock : Looks read_superblock.
Proof. unfold read_superblock. looking. Qed.
#[export] Instance looks_cache_init : Looks lsfs_inode_cache_init.
Proof. unfold lsfs_inode_cache_init, set_icache. looking. Qed.
#[export] Instance looks_imap_init : Looks lsfs_imap_init.
Proof. unfold lsfs_imap_init. looking. Qed.
#[export] Instance looks_segment_init : Looks lsfs_segment_init.
Proof. unfold lsfs_segment_init, lsfs_segment_buffer_init, lsfs_segment_buffer_destroy. looking. Qed.
#[export] Instance looks_checkpoint_init : Looks lsfs_checkpoint_init.
Proof. unfold lsfs_checkpoint_init. looking. Qed.

#[export] Instance counts_superblock : Counts read_superblock.
Proof. unfold read_superblock. counting. Qed.
#[export] Instance counts_cache_init : Counts lsfs_inode_cache_init.
Proof. unfold lsfs_inode_cache_init. counting. Qed.
#[export] Instance counts_segment_init : Counts lsfs_segment_init.
Proof. unfold lsfs_segment_init, lsfs_segment_buffer_init, lsfs_segment_buffer_destroy. counting. Qed.
#[export] Instance counts_replay b summary i : Counts (replay_info b summary i).
Proof. unfold replay_info. counting. Qed.
#[export] Instance counts_recover_segment seg : Counts (recover_segment seg).
Proof. unfold recover_segment. counting. Qed.
#[export] Instance counts_roll_forward segs : Counts (roll_forward segs).
Proof. induction segs as [|seg segs IH]; cbn [roll_forward]; counting. Qed.
#[export] Instance counts_lock_init : Counts lock_init.
Proof. unfold lock_init. counting. Qed.
#[export] Instance counts_gc_init : Counts lsfs_gc_init.
Proof. unfold lsfs_gc_init. counting. Qed.
#[export] Instance counts_record_mount : Counts record_mount.
Proof. unfold record_mount, write_superblock. counting. Qed.

Lemma pool_init_typed s s' : lsfs_buffer_pool_init s = Some (LSFS_OK, s') → pool_typed (c_bufpool s').
Proof.
  unfold lsfs_buffer_pool_init. intros (ok & s1 & [= <- <-] & H)%bind_Some_inv. destruct (env_alloc _); [|done].
  cbn [negb] in H. injection H as <-. apply Forall_replicate. split_and!; [apply zero_block_is_block|done..].
Qed.

Lemma imap_init_typed s s' :
  lsfs_imap_init s = Some (LSFS_OK, s') → is_u32 (imap_next_ino (c_imap s')) ∧ c_bufpool s' = c_bufpool s.
Proof.
  unfold lsfs_imap_init. intros (a & s1 & [= <- <-] & H)%bind_Some_inv.
  apply bind_Some_inv in H as (l & s2 & [= <- <-] & H). unfold imap_init in H.
  destruct (env_alloc (c_tick s)), (env_alloc _); cbn [negb] in H; try done. by injection H as <-.
Qed.

Lemma checkpoint_init_typed s r s' :
  lsfs_checkpoint_init s = Some (r, s') → is_u32 (imap_next_ino (c_imap s)) → pool_typed (c_bufpool s) →
  counters_typed s'.
Proof.
  unfold lsfs_checkpoint_init. intros (now & s1 & Ht & H)%bind_Some_inv Hn Hp.
  destruct (time_typed _ _ _ Ht) as [[] Hnow]. injection H as _ <-. by split_and!; cbn; auto.
Qed.

(** The numbers of a header that is loaded come from a block of the image. *)
Lemma load_header_typed s r :
  disk_ok s → in_disk s 0 LSFS_LOG_START →
  wp (load_header (region_start r)) (λ h s', same_image s s' ∧ counts s s' ∧
    ∀ h', h = Some h' → is_u64 (ch_sequence h') ∧ is_u64 (ch_timestamp h')) s.
Proof.
  intros Hok Hd. assert (addressable s (region_start r) 1) as Ha.
  { apply in_disk_addressable. pose proof (region_start_bounds r).
    unfold in_disk, LSFS_LOG_START, LSFS_SEGTABLE_START, LSFS_BLOCK_SIZE in *. lia. }
  destruct (wp_elim _ _ _ (read_block_frame s _ Ha)) as (got & s' & Hrun & Hf & Hgot & Hdisk).
  unfold load_header. wp_step. eapply wp_intro; [exact Hrun|]. apply wp_ret.
  split_and!; [split; [done|by rewrite Hf]|exact (keeps _ _ _ Hrun)|].
  intros h Hh. destruct Hgot as [-> | ->]; [|done]. destruct (header_valid _); [|done]. injection Hh as <-.
  assert (disk_wf (dec (disk_block (c_disk s) (region_start r)) : lsfs_checkpoint_header)) as Hwf.
  { apply dec_wf; [apply (Hok _)|rewrite (proj1 (Hok _)); cbn [sizeof checkpoint_header_ondisk]; unfold BS, LSFS_BLOCK_SIZE; lia]. }
  cbn in Hwf |- *. destruct_and! Hwf. done.
Qed.

Lemma highest_ino_typed es : is_u32 (highest_ino es).
Proof.
  unfold highest_ino. assert (∀ n, is_u32 n → is_u32 (foldl (λ n e, if n <=? ie_ino e then u32 (ie_ino e + 1) else n) n es)) as H.
  { induction es as [|e es IH]; intros n Hn; [done|]. cbn [foldl]. apply IH. case_match; [apply u32_range|done]. }
  by apply H.
Qed.

#[export] Instance counts_imap_load b n : Counts (lsfs_imap_load b n).
Proof.
  unfold lsfs_imap_load.
  keeping ltac:(split; cbn; intros ?; first [assumption|apply highest_ino_typed]).
Qed.

Lemma checkpoint_load_typed s r s' :
  disk_ok s → in_disk s 0 LSFS_LOG_START → lsfs_checkpoint_load s = Some (r, s') → counts s s'.
Proof.
  intros Hok Hd (h0 & s1 & H0 & H)%bind_Some_inv.
  destruct (wp_run _ _ _ _ _ (load_header_typed s 0 Hok Hd) H0) as ([Hd1 Hsz1] & Hc1 & Ht0).
  apply bind_Some_inv in H as (h1 & s2 & H1 & H).
  assert (disk_ok s1) as Hok1 by (unfold disk_ok; by rewrite Hd1).
  assert (in_disk s1 0 LSFS_LOG_START) as Hin1 by (unfold in_disk; by rewrite Hsz1).
  destruct (wp_run _ _ _ _ _ (load_header_typed s1 1 Hok1 Hin1) H1) as (_ & Hc2 & Ht1).
  etrans; [exact Hc1|]. etrans; [exact Hc2|].
  destruct (best_header h0 h1) as [[best h]|] eqn:Hb; [|by injection H as _ <-].
  assert (is_u64 (ch_sequence h) ∧ is_u64 (ch_timestamp h)) as [Hq Ht].
  { unfold best_header in Hb. destruct h0 as [h0|], h1 as [h1|]; simplify_eq; [case_match; simplify_eq|..]; auto. }
  eapply counts_run; [|exact H]. counting.
Qed.

Lemma if_ok_run (m k : Op Z) s s' :
  (m ;? k) s = Some (LSFS_OK, s') → ∃ s1, m s = Some (LSFS_OK, s1) ∧ k s1 = Some (LSFS_OK, s').
Proof.
  unfold if_ok. intros (r & s1 & H1 & H2)%bind_Some_inv. destruct (Z.eqb_spec r LSFS_OK) as [->|Hne]; [eauto|].
  cbn [negb] in H2. injection H2 as -> _. done.
Qed.

(** The next step of mounting succeeded and left the image as it was. *)
Ltac mount_step H s H' L :=
  apply if_ok_run in H as (s & H' & H); pose proof (keeps (R := same_image) _ _ _ H') as L.

Lemma init_fs_counters s s' : image_ok s → lsfs_init_fs s = Some (LSFS_OK, s') → counters_typed s'.
Proof.
  intros Him H. unfold lsfs_init_fs in H.
  mount_step H s1 H1 L1. pose proof (pool_init_typed _ _ H1) as Hp1.
  mount_step H s2 H2 L2. apply (keeps (R := counts)) in H2 as [_ _ _ _ Hp2].
  mount_step H s3 H3 L3. apply (keeps (R := counts)) in H3 as [_ _ _ _ Hp3].
  mount_step H s4 H4 L4. destruct (imap_init_typed _ _ H4) as [Hn4 Hp4].
  mount_step H s5 H5 L5. apply (keeps (R := counts)) in H5 as [_ _ _ Hn5 Hp5].
  mount_step H s6 H6 L6. assert (counters_typed s6) as Hc6.
  { apply (checkpoint_init_typed _ _ _ H6); [by apply Hn5|]. apply Hp5. rewrite Hp4. auto. }
  assert (same_image s s6) as [Hd Hsz] by (do 5 (etrans; [eassumption|]); done).
  apply if_ok_run in H as (s7 & H7 & H). apply (counts_typed s6); [|done].
  unfold lsfs_checkpoint_recover in H7. apply if_ok_run in H7 as (s8 & H8 & H7).
  etrans; [apply (checkpoint_load_typed s6 LSFS_OK s8); [..|exact H8]|].
  { unfold disk_ok. rewrite Hd. apply (io_bytes s Him). }
  { pose proof (io_fits s Him). pose proof (io_segments s Him).
    unfold in_disk, LSFS_SEGMENT_BLOCKS, LSFS_BLOCK_SIZE, LSFS_LOG_START, LSFS_SEGTABLE_START in *. rewrite Hsz. lia. }
  etrans; [eapply counts_run; [|exact H7]|eapply counts_run; [|exact H]]; counting.
Qed.
End MountTyped.

Lemma wf_typed s :
  log_wf s → icache_wf (c_icache s) → disk_ok s → counters_typed s → context_typed s.
Proof.
  intros Hl [(ch & l & Hr) Hrg] Hb (Hq & Hla & Hw & Hn & Hp).
  pose proof Hl as [Ht Hfit _ Hdata _ Hinfo Hc Hseg _ Hd Him Hime Hsb _]. pose proof Ht as [Hlen Hcnt Hfc He].
  pose proof (count_free_bounds (st_entries (c_segtable s))). destruct Him as [_ Hic Hcap _].
  pose proof (cr_count _ _ _ Hr). pose proof (cr_small _ _ _ Hr).
  unfold LSFS_SEGMENT_BLOCKS in Hc. destruct Hd as (_ & _ & Hd). unfold LSFS_BLOCK_SIZE in Hd.
  split; unfold is_u32, is_u64 in *; try done; try (split_and!; (done || lia)).
  split; [|done]. unfold LSFS_LOG_START, LSFS_SEGTABLE_START, LSFS_SEGMENT_BLOCKS in Hd. lia.
Qed.

(** * Theorem *)

