(* ===== verification/Fsck.v ===== *)
(** The checker, [tools/fsck.lsfs.c], over the image file.  Its context is passed on
    from check to check; messages are left out, and with them the option that asks for
    more of them. *)
From S2P Require Import Prelude OnDisk Lru Context Io Log Checkpoint Inode Directory.

(** [struct fsck_context] *)
Record fsck_context := mk_fsck {
  fc_size : Z; fc_sb : lsfs_superblock; fc_errors : Z; fc_warnings : Z; fc_repair : Z; fc_verbose : Z }.
#[export] Instance eta_fsck : Eta fsck_context := λ r,
  mk_fsck (fc_size r) (fc_sb r) (fc_errors r) (fc_warnings r) (fc_repair r) (fc_verbose r).

(** A 32-bit signed value, and counting up in one *)
Definition i32_of_bytes (bs : list Z) : Z :=
  let v := le_val (take 4 bs) in if v <? 2 ^ 31 then v else v - 2 ^ 32.
Definition i32_succ (n : Z) : option Z := if n <? 2 ^ 31 - 1 then Some (n + 1) else None.

Section FsckOps.
Context `{E : Env}.

Definition fsck_read_block (block_num : Z) : Op (option (list Z)) :=
  offset ← of_opt (i64_check (to_i64 block_num * LSFS_BLOCK_SIZE));
  r ← sys_pread offset 1;
  mret (match r with Some [blk] => Some blk | _ => None end).

(** Nothing can be written to a file opened for reading. *)
Definition fsck_write_block (block_num : Z) (buf : list Z) : Op Z :=
  offset ← of_opt (i64_check (to_i64 block_num * LSFS_BLOCK_SIZE));
  readonly ← gets c_readonly;
  if (readonly : bool) then mret (-1) else
  n ← sys_pwrite offset [buf];
  mret (if n =? LSFS_BLOCK_SIZE then 0 else -1).

(** [ctx->errors++], [ctx->warnings++] *)
Definition add_error (c : fsck_context) : Op fsck_context :=
  n ← of_opt (i32_succ (fc_errors c)); mret (c <| fc_errors := n |>).
Definition add_warning (c : fsck_context) : Op fsck_context :=
  n ← of_opt (i32_succ (fc_warnings c)); mret (c <| fc_warnings := n |>).
Definition warn_if (b : bool) (c : fsck_context) : Op fsck_context :=
  if b then add_warning c else mret c.
Definition error_if (b : bool) (c : fsck_context) : Op fsck_context :=
  if b then add_error c else mret c.

(** An error that ends a check: [ctx->errors++; return -1]. *)
Definition fail_check (c : fsck_context) : Op (fsck_context * Z) :=
  c ← add_error c; mret (c, -1).

(** The block read over [ctx->sb] is longer than the superblock: the last 16 bytes are
    the four integers that follow it in the context. *)
Definition fill_context (blk : list Z) (c : fsck_context) : fsck_context :=
  let rest := drop (sizeof lsfs_superblock) blk in
  mk_fsck (fc_size c) (dec blk) (i32_of_bytes rest) (i32_of_bytes (drop 4 rest))
    (i32_of_bytes (drop 8 rest)) (i32_of_bytes (drop 12 rest)).

Definition check_superblock (c : fsck_context) : Op (fsck_context * Z) :=
  r ← fsck_read_block LSFS_SUPERBLOCK_BLOCK;
  match r with
  | None => fail_check c
  | Some blk =>
      let c := fill_context blk c in
      let sb := fc_sb c in
      if negb (sb_magic sb =? LSFS_MAGIC) then fail_check c else
      if negb (sb_version sb =? LSFS_VERSION) then fail_check c else
      if negb (sb_block_size sb =? LSFS_BLOCK_SIZE) then fail_check c else
      if negb (sb_segment_size sb =? LSFS_SEGMENT_BLOCKS) then fail_check c else
      c ← warn_if (fc_size c / LSFS_BLOCK_SIZE <? sb_total_blocks sb) c;
      c ← warn_if (negb (sb_state sb =? 0)) c;
      mret (c, 0)
  end.

(** [write_block(ctx, LSFS_SUPERBLOCK_BLOCK, &ctx->sb)]: the block holds the four
    integers behind the superblock too. *)
Definition i32_bytes (n : Z) : list Z := le_bytes 4 (u32 n).
Definition fsck_write_sb (c : fsck_context) : Op () :=
  _ ← fsck_write_block LSFS_SUPERBLOCK_BLOCK
        (enc (fc_sb c) ++ i32_bytes (fc_errors c) ++ i32_bytes (fc_warnings c) ++
         i32_bytes (fc_repair c) ++ i32_bytes (fc_verbose c));
  mret tt.

Definition check_header (cp_block : Z) : Op bool :=
  r ← fsck_read_block cp_block;
  mret (match r with Some blk => header_valid (dec blk) | None => false end).

Definition check_checkpoints (c : fsck_context) : Op (fsck_context * Z) :=
  v0 ← check_header LSFS_CHECKPOINT0_START;
  v1 ← check_header LSFS_CHECKPOINT1_START;
  if negb v0 && negb v1 then fail_check c else
  active ← of_opt (arr_get [v0; v1] (sb_active_checkpoint (fc_sb c)));
  if negb active then
    c ← add_warning c;
    if negb (fc_repair c =? 0) then
      let c := c <| fc_sb ::= λ sb, sb <| sb_active_checkpoint ::= λ a, Z.lxor a 1 |> |> in
      _ ← fsck_write_sb c;
      mret (c, 0)
    else mret (c, 0)
  else mret (c, 0).

(** One round of the loop over the segments; the number of free ones is passed on. *)
Definition check_segment (c : fsck_context) (free_segments seg : Z) : Op (fsck_context * Z) :=
  r ← fsck_read_block (u64 (LSFS_LOG_START + seg * LSFS_SEGMENT_BLOCKS));
  match r with
  | None => mret (c, free_segments)
  | Some blk =>
      let header := dec blk : lsfs_segment_header in
      if sh_magic header =? LSFS_SEGMENT_MAGIC then
        c ← warn_if (negb (sh_segment_id header =? seg)) c;
        c ← error_if (LSFS_SEGMENT_BLOCKS <? sh_block_count header) c;
        mret (c, free_segments)
      else if sh_magic header =? 0 then mret (c, u32 (free_segments + 1))
      else mret (c, free_segments)
  end.

Fixpoint check_segments_loop (segs : list Z) (c : fsck_context) (free_segments : Z)
    : Op (fsck_context * Z) :=
  match segs with
  | [] => mret (c, free_segments)
  | seg :: segs =>
      r ← check_segment c free_segments seg;
      check_segments_loop segs r.1 r.2
  end.

Definition check_segments (c : fsck_context) : Op fsck_context :=
  r ← check_segments_loop (seqZ 0 (sb_total_segments (fc_sb c))) c 0;
  let '(c, free_segments) := r in
  if negb (free_segments =? sb_free_segments (fc_sb c)) then
    c ← add_warning c;
    if negb (fc_repair c =? 0) then
      let c := c <| fc_sb ::= λ sb, sb <| sb_free_segments := free_segments |> |> in
      _ ← fsck_write_sb c;
      mret c
    else mret c
  else mret c.

Definition cp_start (c : fsck_context) : Z := region_start (sb_active_checkpoint (fc_sb c)).

Definition entries_per_block : Z := LSFS_BLOCK_SIZE / Z.of_nat (sizeof lsfs_imap_entry).

(** The [i]th entry of the block, [None] when it lies outside. *)
Definition entry_in_block (block : list Z) (i : Z) : option lsfs_imap_entry :=
  if (0 <=? i) && (i <? entries_per_block) then Some (dec_at (Z.to_nat i) block) else None.

(** The entries of one block of the inode map. *)
Fixpoint check_entries (ids : list Z) (block : list Z) (c : fsck_context) : Op fsck_context :=
  match ids with
  | [] => mret c
  | i :: ids =>
      entry ← of_opt (entry_in_block block i);
      c ← error_if (negb (ie_ino entry =? 0) &&
                    ((ie_location entry <? LSFS_LOG_START) ||
                     (sb_total_blocks (fc_sb c) <=? ie_location entry))) c;
      check_entries ids block c
  end.

Fixpoint check_imap_blocks (bs : list Z) (cp_block imap_entries blocks_needed : Z) (c : fsck_context)
    : Op fsck_context :=
  match bs with
  | [] => mret c
  | b :: bs =>
      r ← fsck_read_block (u64 (cp_block + 1 + b));
      c ← match r with
          | None => add_error c
          | Some block =>
              let entries_in_block := if b =? u32 (blocks_needed - 1)
                then u32 (imap_entries - u32 (b * entries_per_block)) else entries_per_block in
              check_entries (seqZ 0 entries_in_block) block c
          end;
      check_imap_blocks bs cp_block imap_entries blocks_needed c
  end.

Definition check_inode_map (c : fsck_context) : Op (fsck_context * Z) :=
  r ← fsck_read_block (cp_start c);
  match r with
  | None => fail_check c
  | Some blk =>
      let imap_entries := ch_imap_entries (dec blk) in
      let blocks_needed := u32 (imap_entries + entries_per_block - 1) / entries_per_block in
      c ← check_imap_blocks (seqZ 0 blocks_needed) (cp_start c) imap_entries blocks_needed c;
      mret (c, 0)
  end.

(** The location of the root inode, 0 when it is not found. *)
Fixpoint find_root (ids : list Z) (block : list Z) : option Z :=
  match ids with
  | [] => Some 0
  | i :: ids =>
      entry ← entry_in_block block i;
      if ie_ino entry =? LSFS_ROOT_INO then Some (ie_location entry) else find_root ids block
  end.

Definition check_root (c : fsck_context) : Op (fsck_context * Z) :=
  r ← fsck_read_block (cp_start c);
  match r with
  | None => fail_check c
  | Some blk =>
      let imap_entries := ch_imap_entries (dec blk) in
      r ← fsck_read_block (cp_start c + 1);
      match r with
      | None => fail_check c
      | Some block =>
          root_location ← of_opt (find_root (seqZ 0 imap_entries) block);
          if root_location =? 0 then fail_check c else
          r ← fsck_read_block root_location;
          match r with
          | None => fail_check c
          | Some block =>
              let root := dec block : lsfs_inode in
              if negb (i_ino root =? LSFS_ROOT_INO) then fail_check c else
              if negb (Z.land (i_mode root) S_IFMT =? S_IFDIR) then fail_check c else
              mret (c, 0)
          end
      end
  end.

Definition zero_superblock : lsfs_superblock := dec zero_block.

(** The checks in their order; the first two end the run when they fail. *)
Definition fsck_checks (c : fsck_context) : Op fsck_context :=
  r ← check_superblock c;
  if r.2 <? 0 then mret r.1 else
  r ← check_checkpoints r.1;
  if r.2 <? 0 then mret r.1 else
  c ← check_segments r.1;
  r ← check_inode_map c;
  r ← check_root r.1;
  mret r.1.

(** [opened] is whether [open] succeeds, [st_size] what [fstat] finds.  The file is opened
    for writing only when it is to be repaired. *)
Definition run_fsck (opened : bool) (st_size : option Z) (repair verbose : Z) : Op Z :=
  if negb opened then mret 1 else
  _ ← modify (λ s, s <| c_readonly := repair =? 0 |>);
  match st_size with
  | None => mret 1
  | Some size =>
      c ← fsck_checks (mk_fsck (u64 size) zero_superblock 0 0 repair verbose);
      _ ← (if negb (fc_repair c =? 0) && ((0 <? fc_errors c) || (0 <? fc_warnings c))
           then lsfs_sync else mret LSFS_OK);
      mret (if 0 <? fc_errors c then 1 else 0)
  end.
End FsckOps.
