(* ===== verification/FsckView.v ===== *)
(** What [fsck.lsfs] has established when it finds no error, and that it finds none on a
    formatted image. *)
From S2P Require Import Prelude OnDisk Lru Context Io Log Checkpoint Inode Directory.
From S2P Require Import DirBlock DirView Recovery Mkfs MkfsView Fsck.

(** * What holds of every result *)

Section Fsck.
Context `{E : Env}.
Implicit Types (s : lsfs_context) (c : fsck_context) (d : gmap Z (list Z)).

(** If the operation returns, [Q] holds of its result. *)
Definition wlp {A} (m : Op A) (Q : A → lsfs_context → Prop) s : Prop :=
  ∀ a s', m s = Some (a, s') → Q a s'.

Lemma wlp_bind {A B} (m : Op A) (f : A → Op B) Q s :
  wlp m (λ a s', wlp (f a) Q s') s → wlp (m ≫= f) Q s.
Proof. intros H b s' (a & s1 & H1 & H2)%bind_Some_inv. exact (H a s1 H1 b s' H2). Qed.

Lemma wlp_ret {A} (a : A) (Q : A → lsfs_context → Prop) s : Q a s → wlp (mret a) Q s.
Proof. by intros H a' s' [= <- <-]. Qed.

Lemma wlp_gets {A} (f : lsfs_context → A) (Q : A → lsfs_context → Prop) s : Q (f s) s → wlp (gets f) Q s.
Proof. by intros H a' s' [= <- <-]. Qed.

Lemma wlp_of_opt {A} (o : option A) (Q : A → lsfs_context → Prop) s :
  (∀ a, o = Some a → Q a s) → wlp (of_opt o) Q s.
Proof. intros H a s' Hr. unfold of_opt in Hr. destruct o as [x|]; [|done]. injection Hr as <- <-. by apply H. Qed.

Lemma wlp_mono {A} (m : Op A) (P Q : A → lsfs_context → Prop) s :
  wlp m P s → (∀ a s', P a s' → Q a s') → wlp m Q s.
Proof. intros H HPQ a s' Hr. by apply HPQ, H. Qed.

(** The image is [d] and the file is open for reading only. *)
Definition reading d s : Prop := c_disk s = d ∧ c_readonly s = true.

Lemma fsck_read_wlp d b s :
  reading d s → is_u64 b → wlp (fsck_read_block b) (λ r s', reading d s' ∧
    ∀ blk, r = Some blk → blk = disk_block d b) s.
Proof.
  intros [Hd Hro] Hb. unfold fsck_read_block. apply wlp_bind, wlp_of_opt. intros off Hoff.
  apply wlp_bind. intros r s' Hr. unfold sys_pread, ask, mbind, M_bind, gets, mret, M_ret in Hr. injection Hr as <- <-.
  apply wlp_ret. split; [by split|]. intros blk. cbn [c_disk field_set].
  destruct ((0 <=? off) && _) eqn:Hr; [|done]. destruct (env_pread _); [done|]. cbn. intros [= <-].
  apply andb_true_iff in Hr as [Hpos%Z.leb_le _]. rewrite Hd. f_equal.
  unfold i64_check in Hoff. case_match; [|done]. injection Hoff as <-. unfold LSFS_BLOCK_SIZE in *.
  rewrite Z.div_mul by done. rewrite Z.add_0_r. unfold to_i64 in *. rewrite (u64_small b Hb) in *.
  unfold is_u64 in Hb. destruct (Z.ltb_spec b (2 ^ 63)); lia.
Qed.

Lemma fsck_write_wlp d b blk s : reading d s → wlp (fsck_write_block b blk) (λ _ s', s' = s) s.
Proof.
  intros [_ Hro]. unfold fsck_write_block. apply wlp_bind, wlp_of_opt. intros off _.
  apply wlp_bind, wlp_gets. rewrite Hro. by apply wlp_ret.
Qed.

(** * Counting errors *)

(** The counters only go up, and when no error was added [P] holds. *)
Definition found (P : Prop) c c' : Prop :=
  fc_errors c <= fc_errors c' ∧ (fc_errors c' <= fc_errors c → P).

Lemma found_refl (P : Prop) c : P → found P c c.
Proof. by split. Qed.

Lemma found_trans (P Q : Prop) c1 c2 c3 : found P c1 c2 → found Q c2 c3 → found (P ∧ Q) c1 c3.
Proof. intros [H1 HP] [H2 HQ]. split; [lia|]. intros H. split; [apply HP|apply HQ]; lia. Qed.

Lemma found_mono (P Q : Prop) c c' : (P → Q) → found P c c' → found Q c c'.
Proof. intros HPQ [H1 HP]. split; auto. Qed.

Lemma i32_succ_inv n m : i32_succ n = Some m → m = n + 1.
Proof. unfold i32_succ. case_match; [|done]. by intros [= <-]. Qed.

Lemma found_more (P : Prop) c c' : fc_errors c' = fc_errors c + 1 → found P c c'.
Proof. intros H. split; lia. Qed.

Lemma add_error_wlp c s :
  wlp (add_error c) (λ c' s', s' = s ∧ fc_sb c' = fc_sb c ∧ fc_errors c' = fc_errors c + 1) s.
Proof. unfold add_error. apply wlp_bind, wlp_of_opt. intros n ->%i32_succ_inv. by apply wlp_ret. Qed.

Lemma fail_check_wlp c s :
  wlp (fail_check c) (λ r s', s' = s ∧ fc_sb r.1 = fc_sb c ∧ r.2 = -1 ∧ fc_errors r.1 = fc_errors c + 1) s.
Proof.
  unfold fail_check. apply wlp_bind. eapply wlp_mono; [apply add_error_wlp|]. intros c' s' (-> & Hsb & Hf).
  by apply wlp_ret.
Qed.

Lemma error_if_wlp b c s : wlp (error_if b c) (λ c' s', s' = s ∧ fc_sb c' = fc_sb c ∧ found (b = false) c c') s.
Proof.
  unfold error_if. destruct b; [|apply wlp_ret; by split_and!]. eapply wlp_mono; [apply add_error_wlp|].
  intros c' s' (-> & Hsb & He). split_and!; [done..|by apply found_more].
Qed.

Lemma warn_if_wlp b c s :
  wlp (warn_if b c) (λ c' s', s' = s ∧ fc_sb c' = fc_sb c ∧ fc_errors c' = fc_errors c ∧ fc_repair c' = fc_repair c) s.
Proof.
  unfold warn_if, add_warning. destruct b; [|by apply wlp_ret]. apply wlp_bind, wlp_of_opt. intros n _. by apply wlp_ret.
Qed.

(** * The checks *)

Definition sb_fits (sb : lsfs_superblock) : Prop :=
  sb_magic sb = LSFS_MAGIC ∧ sb_version sb = LSFS_VERSION ∧ sb_block_size sb = LSFS_BLOCK_SIZE ∧
  sb_segment_size sb = LSFS_SEGMENT_BLOCKS.

(** The number of errors the block read over the context leaves there. *)
Definition errors_on_disk d : Z := i32_of_bytes (drop (sizeof lsfs_superblock) (disk_block d 0)).

(** The flag that asks for repairs, as that block leaves it. *)
Definition repair_on_disk d : Z := i32_of_bytes (drop 8 (drop (sizeof lsfs_superblock) (disk_block d 0))).

Lemma check_superblock_wlp d c s :
  reading d s → 0 <= errors_on_disk d → fc_errors c = 0 →
  wlp (check_superblock c) (λ r s', reading d s' ∧ 0 <= fc_errors r.1 ∧
    (r.2 < 0 → 0 < fc_errors r.1) ∧
    (0 <= r.2 → fc_sb r.1 = dec (disk_block d 0) ∧ sb_fits (fc_sb r.1) ∧ fc_repair r.1 = repair_on_disk d)) s.
Proof.
  intros Hs He Hc. unfold check_superblock. apply wlp_bind.
  eapply wlp_mono; [by apply (fsck_read_wlp d 0)|]. intros r s1 (Hs1 & Hr).
  assert (∀ c0, 0 <= fc_errors c0 → wlp (fail_check c0) (λ r s', reading d s' ∧ 0 <= fc_errors r.1 ∧
    (r.2 < 0 → 0 < fc_errors r.1) ∧ (0 <= r.2 → fc_sb r.1 = dec (disk_block d 0) ∧ sb_fits (fc_sb r.1) ∧ fc_repair r.1 = repair_on_disk d)) s1) as Hfail.
  { intros c0 H0. eapply wlp_mono; [apply fail_check_wlp|]. intros r' s' (-> & _ & Hk & Hm). split_and!; [done|lia..]. }
  destruct r as [blk|]; [|apply Hfail; lia]. rewrite (Hr blk eq_refl). clear Hr.
  set (c1 := fill_context _ c). assert (0 <= fc_errors c1) as H1 by exact He. assert (fc_sb c1 = dec (disk_block d 0)) as Hsb by done.
  assert (fc_repair c1 = repair_on_disk d) as Hrep by done.
  clearbody c1. destruct (Z.eqb_spec (sb_magic (fc_sb c1)) LSFS_MAGIC); [|by apply Hfail].
  destruct (Z.eqb_spec (sb_version (fc_sb c1)) LSFS_VERSION); [|by apply Hfail].
  destruct (Z.eqb_spec (sb_block_size (fc_sb c1)) LSFS_BLOCK_SIZE); [|by apply Hfail].
  destruct (Z.eqb_spec (sb_segment_size (fc_sb c1)) LSFS_SEGMENT_BLOCKS); [|by apply Hfail]. cbn [negb].
  apply wlp_bind. eapply wlp_mono; [apply warn_if_wlp|]. intros c2 s2 (-> & Hsb2 & He2 & Hr2).
  apply wlp_bind. eapply wlp_mono; [apply warn_if_wlp|]. intros c3 s3 (-> & Hsb3 & He3 & Hr3).
  apply wlp_ret. cbn [fst snd]. rewrite Hsb3, Hsb2, Hr3, Hr2. split_and!; [done|lia|lia|]. by intros _.
Qed.

Lemma check_header_wlp d r s :
  reading d s → r = 0 ∨ r = 1 → wlp (check_header (region_start r)) (λ b s', reading d s' ∧
    (b = true → header_valid (header_at d r) = true)) s.
Proof.
  intros Hs Hr. unfold check_header. apply wlp_bind. eapply wlp_mono; [apply (fsck_read_wlp d); [done|]|].
  { by destruct Hr as [-> | ->]. }
  intros b s1 (Hs1 & Hb). apply wlp_ret. split; [done|]. destruct b as [blk|]; [|done]. by rewrite (Hb blk eq_refl).
Qed.

(** The superblock in memory: another region may have been chosen when repairs are asked for. *)
Definition same_image c (sb sb' : lsfs_superblock) : Prop :=
  sb_total_blocks sb' = sb_total_blocks sb ∧
  (sb_active_checkpoint sb' = 0 ∨ sb_active_checkpoint sb' = 1) ∧
  (fc_repair c = 0 → sb_active_checkpoint sb' = sb_active_checkpoint sb).

Lemma write_sb_wlp d c s : reading d s → wlp (fsck_write_sb c) (λ _ s', s' = s) s.
Proof. intros Hs. unfold fsck_write_sb. apply wlp_bind. eapply wlp_mono; [by eapply fsck_write_wlp|]. intros r s' ->. by apply wlp_ret. Qed.

Lemma check_checkpoints_wlp d c s :
  reading d s →
  wlp (check_checkpoints c) (λ r s', reading d s' ∧ fc_errors c <= fc_errors r.1 ∧
    (r.2 < 0 → fc_errors c < fc_errors r.1) ∧
    (0 <= r.2 → (header_valid (header_at d 0) = true ∨ header_valid (header_at d 1) = true) ∧
       same_image c (fc_sb c) (fc_sb r.1))) s.
Proof.
  intros Hs. unfold check_checkpoints. change LSFS_CHECKPOINT0_START with (region_start 0). change LSFS_CHECKPOINT1_START with (region_start 1).
  apply wlp_bind. eapply wlp_mono; [apply (check_header_wlp d); auto|]. intros v0 s1 (Hs1 & H0).
  apply wlp_bind. eapply wlp_mono; [apply (check_header_wlp d); auto|]. intros v1 s2 (Hs2 & H1).
  destruct (negb v0 && negb v1) eqn:Hv.
  { eapply wlp_mono; [apply fail_check_wlp|]. intros r s' (-> & _ & Hk & He). split_and!; [done|lia..]. }
  assert (header_valid (header_at d 0) = true ∨ header_valid (header_at d 1) = true) as Hvalid.
  { destruct v0; [auto|]. destruct v1; [auto|done]. }
  apply wlp_bind, wlp_of_opt. intros b Hb%arr_get_bound. cbn [length] in Hb.
  assert (sb_active_checkpoint (fc_sb c) = 0 ∨ sb_active_checkpoint (fc_sb c) = 1) as Hact by lia.
  assert (∀ c', fc_sb c' = fc_sb c → fc_errors c' = fc_errors c →
    wlp (mret (c', 0)) (λ r s', reading d s' ∧ fc_errors c <= fc_errors r.1 ∧ (r.2 < 0 → fc_errors c < fc_errors r.1) ∧
      (0 <= r.2 → (header_valid (header_at d 0) = true ∨ header_valid (header_at d 1) = true) ∧
       same_image c (fc_sb c) (fc_sb r.1))) s2) as Hok.
  { intros c' Hsb He. apply wlp_ret. cbn [fst snd]. rewrite Hsb. split_and!; [done|lia|lia|]. by split. }
  destruct b; cbn [negb]; [by apply Hok|]. apply wlp_bind. eapply wlp_mono; [apply (warn_if_wlp true)|].
  intros c1 s3 (-> & Hsb1 & He1 & Hr1). destruct (Z.eqb_spec (fc_repair c1) 0) as [|Hrep]; cbn [negb]; [by apply Hok|].
  apply wlp_bind. eapply wlp_mono; [by eapply write_sb_wlp|]. intros _ s4 ->. apply wlp_ret. cbn [fst snd fc_sb fc_errors field_set].
  split_and!; [done|lia|lia|]. intros _. split; [done|]. unfold same_image. cbn. rewrite Hsb1.
  split_and!; [done|destruct Hact as [-> | ->]; auto|congruence].
Qed.

(** ** Segments *)
Lemma check_segment_wlp d c n seg s :
  reading d s → wlp (check_segment c n seg) (λ r s', reading d s' ∧ fc_sb r.1 = fc_sb c ∧ fc_errors c <= fc_errors r.1) s.
Proof.
  intros Hs. unfold check_segment. apply wlp_bind. eapply wlp_mono; [apply (fsck_read_wlp d); [done|apply u64_range]|].
  intros r s1 (Hs1 & _). destruct r as [blk|]; [|by apply wlp_ret]. cbv zeta.
  destruct (sh_magic _ =? LSFS_SEGMENT_MAGIC); [|destruct (sh_magic _ =? 0); by apply wlp_ret].
  apply wlp_bind. eapply wlp_mono; [apply warn_if_wlp|]. intros c1 s2 (-> & Hsb1 & He1 & _).
  apply wlp_bind. eapply wlp_mono; [apply error_if_wlp|]. intros c2 s3 (-> & Hsb2 & He2 & _).
  apply wlp_ret. cbn. split_and!; [done|congruence|lia].
Qed.

Lemma check_segments_loop_wlp d segs c n s :
  reading d s →
  wlp (check_segments_loop segs c n) (λ r s', reading d s' ∧ fc_sb r.1 = fc_sb c ∧ fc_errors c <= fc_errors r.1) s.
Proof.
  revert c n s. induction segs as [|seg segs IH]; intros c n s Hs; cbn [check_segments_loop]; [by apply wlp_ret|].
  apply wlp_bind. eapply wlp_mono; [by apply (check_segment_wlp d)|]. intros r s1 (Hs1 & Hsb & He).
  eapply wlp_mono; [by apply IH|]. intros r' s2 (Hs2 & Hsb2 & He2). split_and!; [done|congruence|lia].
Qed.

Lemma check_segments_wlp d c s :
  reading d s → wlp (check_segments c) (λ c' s', reading d s' ∧ fc_errors c <= fc_errors c' ∧
    sb_total_blocks (fc_sb c') = sb_total_blocks (fc_sb c) ∧
    sb_active_checkpoint (fc_sb c') = sb_active_checkpoint (fc_sb c)) s.
Proof.
  intros Hs. unfold check_segments. apply wlp_bind. eapply wlp_mono; [by apply (check_segments_loop_wlp d)|].
  intros [c1 n] s1 (Hs1 & Hsb1 & He1). cbn [fst snd] in *. rewrite Hsb1.
  destruct (negb (n =? sb_free_segments (fc_sb c))); [|apply wlp_ret; by rewrite Hsb1].
  apply wlp_bind. eapply wlp_mono; [apply (warn_if_wlp true)|]. intros c2 s2 (-> & Hsb2 & He2 & _).
  destruct (negb (fc_repair c2 =? 0)); [|apply wlp_ret; rewrite Hsb2, Hsb1; split_and!; [done|lia|done..]].
  apply wlp_bind. eapply wlp_mono; [by eapply write_sb_wlp|]. intros _ s3 ->. apply wlp_ret. cbn.
  rewrite Hsb2, Hsb1. split_and!; [done|lia|done..].
Qed.

(** ** The inode map *)

(** The location of an entry lies in the log. *)
Definition entry_fits (sb : lsfs_superblock) (e : lsfs_imap_entry) : Prop :=
  ie_ino e = 0 ∨ LSFS_LOG_START <= ie_location e < sb_total_blocks sb.

Lemma check_entries_wlp d ids block c s :
  reading d s → wlp (check_entries ids block c) (λ c' s', reading d s' ∧ fc_sb c' = fc_sb c ∧
    found (∀ i, i ∈ ids → entry_fits (fc_sb c) (dec_at (Z.to_nat i) block)) c c') s.
Proof.
  revert c s. induction ids as [|i ids IH]; intros c s Hs; cbn [check_entries].
  { apply wlp_ret. split_and!; [done..|]. apply found_refl. by intros i ?%elem_of_nil. }
  apply wlp_bind, wlp_of_opt. intros e He. unfold entry_in_block in He. case_match; [|done].
  apply Some_inj in He.
  apply wlp_bind. eapply wlp_mono; [apply error_if_wlp|]. intros c1 s1 (-> & Hsb1 & Hf1).
  eapply wlp_mono; [by apply IH|]. intros c2 s2 (Hs2 & Hsb2 & Hf2). split_and!; [done|congruence|].
  eapply found_mono; [|eapply found_trans; [exact Hf1|exact Hf2]]. intros [Hb Hrest] k [->|Hk]%elem_of_cons.
  - rewrite He. unfold entry_fits.
    destruct (Z.eqb_spec (ie_ino e) 0); [by left|right]. cbn [negb andb] in Hb. apply orb_false_iff in Hb as [H1%Z.ltb_ge H2%Z.leb_gt]. lia.
  - rewrite <-Hsb1. by apply Hrest.
Qed.

(** Entry [k] of the map behind header block [cp_block]. *)
Definition map_entry d (cp_block k : Z) : lsfs_imap_entry :=
  dec_at (Z.to_nat (k mod entries_per_block)) (disk_block d (cp_block + 1 + k / entries_per_block)).

Lemma check_imap_blocks_wlp d bs cp_block n needed c s :
  reading d s → 0 <= cp_block <= 2 ^ 16 → 0 <= n → n + 255 < 2 ^ 32 → needed = (n + 255) / entries_per_block →
  (∀ b, b ∈ bs → 0 <= b < needed) →
  wlp (check_imap_blocks bs cp_block n needed c) (λ c' s', reading d s' ∧ fc_sb c' = fc_sb c ∧
    found (∀ k, 0 <= k < n → k / entries_per_block ∈ bs → entry_fits (fc_sb c) (map_entry d cp_block k)) c c') s.
Proof.
  intros Hs Hcp Hn Hn' Hneed. revert c s Hs. induction bs as [|b bs IH]; intros c s Hs Hbs; cbn [check_imap_blocks].
  { apply wlp_ret. split_and!; [done..|]. apply found_refl. by intros k _ ?%elem_of_nil. }
  assert (0 <= b < needed) as Hb by (apply Hbs; by left). unfold entries_per_block in *.
  change (LSFS_BLOCK_SIZE / Z.of_nat (sizeof lsfs_imap_entry)) with 256 in *.
  pose proof (Z.div_mod (n + 255) 256 ltac:(lia)) as Hdm. pose proof (Z.mod_pos_bound (n + 255) 256 ltac:(lia)).
  rewrite <-Hneed in Hdm. rewrite !u64_small, !u32_small by lia.
  apply wlp_bind. eapply wlp_mono; [apply (fsck_read_wlp d); [done|unfold is_u64; lia]|]. intros r s1 (Hs1 & Hr).
  apply wlp_bind. eapply wlp_mono.
  { instantiate (1 := λ c' s', reading d s' ∧ fc_sb c' = fc_sb c ∧
      found (∀ k, 0 <= k < n → k / 256 = b → entry_fits (fc_sb c) (map_entry d cp_block k)) c c').
    destruct r as [blk|].
    - eapply wlp_mono; [by apply (check_entries_wlp d)|]. intros c1 s2 (Hs2 & Hsb & Hf). split_and!; [done..|].
      eapply found_mono; [|exact Hf]. intros Hall k Hk Hkb. unfold map_entry, entries_per_block.
      change (LSFS_BLOCK_SIZE / Z.of_nat (sizeof lsfs_imap_entry)) with 256. rewrite Hkb, <-(Hr blk eq_refl).
      apply Hall, elem_of_seqZ. pose proof (Z.div_mod k 256 ltac:(lia)). pose proof (Z.mod_pos_bound k 256 ltac:(lia)).
      destruct (Z.eqb_spec b (needed - 1)); [|lia]. rewrite (u32_small (b * 256)), u32_small by lia. lia.
    - eapply wlp_mono; [apply add_error_wlp|]. intros c1 s2 (-> & Hsb & He). split_and!; [done..|]. by apply found_more. }
  intros c1 s2 (Hs2 & Hsb & Hf). eapply wlp_mono; [apply IH; [done|]|]. { intros b' Hb'. apply Hbs. by right. }
  intros c2 s3 (Hs3 & Hsb3 & Hf3). split_and!; [done|congruence|]. rewrite Hsb in Hf3.
  eapply found_mono; [|eapply found_trans; [exact Hf|exact Hf3]]. intros [H1 H2] k Hk [Hkb|Hkb]%elem_of_cons; auto.
Qed.
Lemma check_entries_mono d ids block c s :
  reading d s → wlp (check_entries ids block c) (λ c' s', reading d s' ∧ fc_sb c' = fc_sb c ∧ fc_errors c <= fc_errors c') s.
Proof. intros Hs. eapply wlp_mono; [by apply (check_entries_wlp d)|]. intros c' s' (? & ? & ? & _). done. Qed.

Lemma check_imap_blocks_mono d bs cp_block n needed c s :
  reading d s → wlp (check_imap_blocks bs cp_block n needed c) (λ c' s', reading d s' ∧ fc_sb c' = fc_sb c ∧
    fc_errors c <= fc_errors c') s.
Proof.
  revert c s. induction bs as [|b bs IH]; intros c s Hs; cbn [check_imap_blocks]; [by apply wlp_ret|].
  apply wlp_bind. eapply wlp_mono; [apply (fsck_read_wlp d); [done|apply u64_range]|]. intros r s1 (Hs1 & _).
  apply wlp_bind. eapply wlp_mono.
  { instantiate (1 := λ c' s', reading d s' ∧ fc_sb c' = fc_sb c ∧ fc_errors c <= fc_errors c').
    destruct r as [blk|]; [by apply check_entries_mono|].
    eapply wlp_mono; [apply add_error_wlp|]. intros c1 s2 (-> & Hsb & He). split_and!; [done..|lia]. }
  intros c1 s2 (Hs2 & Hsb & He). eapply wlp_mono; [by apply IH|]. intros c2 s3 (? & ? & ?).
  split_and!; [done|congruence|lia].
Qed.

Lemma cp_start_u64 c : is_u64 (cp_start c) ∧ 0 <= cp_start c <= 2 ^ 16.
Proof. unfold cp_start, is_u64. pose proof (region_start_bounds (sb_active_checkpoint (fc_sb c))). unfold LSFS_SEGTABLE_START in *. lia. Qed.

(** The region the superblock in memory names. *)
Definition region c : Z := sb_active_checkpoint (fc_sb c).

(** Every entry of the map of region [r] names a block of the log. *)
Definition map_fits d (sb : lsfs_superblock) (r : Z) : Prop :=
  let n := ch_imap_entries (header_at d r) in
  n + 255 < 2 ^ 32 → ∀ k, 0 <= k < n → entry_fits sb (map_entry d (region_start r) k).

Lemma check_inode_map_wlp d c s :
  reading d s → disk_wf (header_at d (region c)) →
  wlp (check_inode_map c) (λ r s', reading d s' ∧ fc_sb r.1 = fc_sb c ∧ found (map_fits d (fc_sb c) (region c)) c r.1) s.
Proof.
  intros Hs Hh. destruct (cp_start_u64 c) as [Hu Hcp]. unfold check_inode_map. apply wlp_bind.
  eapply wlp_mono; [by apply (fsck_read_wlp d)|]. intros r s1 (Hs1 & Hr). destruct r as [blk|].
  2:{ eapply wlp_mono; [apply fail_check_wlp|]. intros r s' (-> & Hsb & _ & He). split_and!; [done..|by apply found_more]. }
  rewrite (Hr blk eq_refl). change (dec (disk_block d (cp_start c))) with (header_at d (region c)).
  set (n := ch_imap_entries (header_at d (region c))). assert (0 <= n < 2 ^ 32) as Hn by apply Hh.
  cbv zeta. apply wlp_bind. destruct (Z.lt_ge_cases (n + 255) (2 ^ 32)) as [Hlt|Hge].
  - replace (u32 (n + entries_per_block - 1)) with (n + 255).
    2:{ change entries_per_block with 256. rewrite u32_small; lia. }
    eapply wlp_mono; [apply (check_imap_blocks_wlp d); try done; [lia|]|].
    { intros b Hb%elem_of_seqZ. lia. }
    intros c1 s2 (Hs2 & Hsb & Hf). apply wlp_ret. cbn [fst]. split_and!; [done..|]. eapply found_mono; [|exact Hf].
    intros Hall _ k Hk. apply Hall; [done|]. apply elem_of_seqZ. change entries_per_block with 256.
    split; [apply Z.div_pos; lia|]. fold n in Hk.
    pose proof (Z.div_mod k 256 ltac:(lia)). pose proof (Z.mod_pos_bound k 256 ltac:(lia)).
    pose proof (Z.div_mod (n + 255) 256 ltac:(lia)). pose proof (Z.mod_pos_bound (n + 255) 256 ltac:(lia)). lia.
  - eapply wlp_mono; [by apply (check_imap_blocks_mono d)|]. intros c1 s2 (Hs2 & Hsb & He). apply wlp_ret. cbn [fst].
    split_and!; [done..|]. split; [done|]. intros _ Hlt. fold n in Hlt. lia.
Qed.

(** ** The root *)

(** The map of region [r] names a block that begins with the inode of a directory, with
    the number of the root. *)
Definition root_fits d (r : Z) : Prop :=
  ∃ k loc, 0 <= k < ch_imap_entries (header_at d r) ∧ ie_ino (map_entry d (region_start r) k) = LSFS_ROOT_INO ∧
    ie_location (map_entry d (region_start r) k) = loc ∧ loc ≠ 0 ∧
    i_ino (dec (disk_block d loc)) = LSFS_ROOT_INO ∧ Z.land (i_mode (dec (disk_block d loc))) S_IFMT = S_IFDIR.

Lemma find_root_inv ids block loc :
  find_root ids block = Some loc → loc ≠ 0 →
  ∃ i, i ∈ ids ∧ 0 <= i < entries_per_block ∧ ie_ino (dec_at (Z.to_nat i) block) = LSFS_ROOT_INO ∧
    ie_location (dec_at (Z.to_nat i) block) = loc.
Proof.
  intros H Hne. induction ids as [|i ids IH]; cbn [find_root] in H; [congruence|].
  destruct (entry_in_block block i) as [e|] eqn:He; [|done]. cbn [mbind option_bind] in H.
  unfold entry_in_block in He. destruct ((0 <=? i) && _) eqn:Hb; [|done]. apply Some_inj in He.
  apply andb_true_iff in Hb as [H1%Z.leb_le H2%Z.ltb_lt].
  destruct (Z.eqb_spec (ie_ino e) LSFS_ROOT_INO) as [Hr|].
  - exists i. rewrite He. split_and!; [by left|done..|congruence].
  - destruct (IH H) as (k & Hk & Hrest). exists k. split; [by right|done].
Qed.

Lemma check_root_wlp d c s :
  reading d s → (∀ b, is_block (disk_block d b)) →
  wlp (check_root c) (λ r s', reading d s' ∧ found (root_fits d (region c)) c r.1) s.
Proof.
  intros Hs Hok. destruct (cp_start_u64 c) as [Hu Hcp].
  assert (∀ s1, reading d s1 → wlp (fail_check c) (λ r s', reading d s' ∧ found (root_fits d (region c)) c r.1) s1) as Hfail.
  { intros s1 Hs1. eapply wlp_mono; [apply fail_check_wlp|]. intros r s' (-> & _ & _ & He). split; [done|by apply found_more]. }
  unfold check_root. apply wlp_bind.
  eapply wlp_mono; [by apply (fsck_read_wlp d)|]. intros r s1 (Hs1 & Hr). destruct r as [blk|]; [|by apply Hfail].
  rewrite (Hr blk eq_refl). change (dec (disk_block d (cp_start c))) with (header_at d (region c)). cbv zeta.
  apply wlp_bind. eapply wlp_mono; [apply (fsck_read_wlp d); [done|unfold is_u64 in *; lia]|].
  intros r s2 (Hs2 & Hr2). destruct r as [block|]; [|by apply Hfail]. apply wlp_bind, wlp_of_opt. intros loc Hloc.
  destruct (Z.eqb_spec loc 0) as [|Hne]; [by apply Hfail|].
  destruct (find_root_inv _ _ _ Hloc Hne) as (i & Hi%elem_of_seqZ & Hib & Hino & Hl).
  rewrite (Hr2 block eq_refl) in Hino, Hl.
  assert (map_entry d (region_start (region c)) i = dec_at (Z.to_nat i) (disk_block d (cp_start c + 1))) as Hme.
  { unfold map_entry. rewrite Z.mod_small, Z.div_small, Z.add_0_r by done. done. }
  rewrite <-Hme in Hino, Hl. assert (is_u64 loc) as Hlu.
  { destruct (Hok (cp_start c + 1)) as [Hbl Hbb]. rewrite <-Hl, Hme. unfold dec_at.
    assert (disk_wf (dec (drop (Z.to_nat i * sizeof lsfs_imap_entry) (disk_block d (cp_start c + 1))) : lsfs_imap_entry)) as Hw.
    { apply dec_wf; [by apply Forall_drop|]. change entries_per_block with 256 in Hib.
      change (sizeof lsfs_imap_entry) with 16%nat. rewrite length_drop, Hbl. assert (Z.of_nat BS = 4096) by done. lia. }
    apply Hw. }
  apply wlp_bind. eapply wlp_mono; [by apply (fsck_read_wlp d)|].
  intros r s3 (Hs3 & Hr3). destruct r as [rb|]; [|by apply Hfail]. rewrite (Hr3 rb eq_refl). cbv zeta.
  destruct (Z.eqb_spec (i_ino (dec (disk_block d loc))) LSFS_ROOT_INO); [|by apply Hfail].
  destruct (Z.eqb_spec (Z.land (i_mode (dec (disk_block d loc))) S_IFMT) S_IFDIR); [|by apply Hfail].
  apply wlp_ret. split; [done|]. apply found_refl. exists i, loc. split_and!; [lia..|done|done|done|done|done].
Qed.
(** ** The whole run *)

(** What the checks look for. *)
Definition image_checked d : Prop :=
  let sb := dec (disk_block d 0) in
  sb_fits sb ∧ (header_valid (header_at d 0) = true ∨ header_valid (header_at d 1) = true) ∧
  ∃ r, (r = 0 ∨ r = 1) ∧ (repair_on_disk d = 0 → r = sb_active_checkpoint sb) ∧ map_fits d sb r ∧ root_fits d r.

Lemma fsck_checks_wlp d c s :
  reading d s → (∀ b, is_block (disk_block d b)) → 0 <= errors_on_disk d → fc_errors c = 0 →
  wlp (fsck_checks c) (λ c' s', reading d s' ∧ (fc_errors c' <= 0 → image_checked d)) s.
Proof.
  intros Hs Hok He Hc. unfold fsck_checks. apply wlp_bind. eapply wlp_mono; [by apply (check_superblock_wlp d)|].
  intros r s1 (Hs1 & H1 & Hbad & Hgood). destruct (Z.ltb_spec r.2 0) as [Hlt|Hge]; [apply wlp_ret; split; [done|lia]|].
  destruct (Hgood Hge) as (Hsb1 & Hfits & Hrep1). apply wlp_bind. eapply wlp_mono; [by apply (check_checkpoints_wlp d)|].
  intros r2 s2 (Hs2 & H2 & Hbad2 & Hgood2). destruct (Z.ltb_spec r2.2 0) as [Hlt2|Hge2]; [apply wlp_ret; split; [done|lia]|].
  destruct (Hgood2 Hge2) as (Hvalid & Htot2 & Hact2 & Hrep2).
  apply wlp_bind. eapply wlp_mono; [by apply (check_segments_wlp d)|]. intros c3 s3 (Hs3 & H3 & Htot3 & Hact3).
  assert (disk_wf (header_at d (region c3))) as Hh.
  { destruct (Hok (region_start (region c3))) as [Hl Hb]. apply dec_wf; [done|]. rewrite Hl.
    assert (Z.of_nat BS = 4096) by done. cbn [sizeof checkpoint_header_ondisk]. lia. }
  apply wlp_bind. eapply wlp_mono; [by apply (check_inode_map_wlp d)|]. intros r4 s4 (Hs4 & Hsb4 & H4 & Hmap).
  apply wlp_bind. eapply wlp_mono; [by apply (check_root_wlp d)|]. intros r5 s5 (Hs5 & H5 & Hroot).
  apply wlp_ret. split; [done|]. intros Hzero. rewrite Hsb1 in *. split_and!; [done..|].
  exists (region c3). unfold region in *. rewrite Hsb4 in Hroot. split_and!.
  - by rewrite Hact3.
  - intros Hno. rewrite Hact3. apply Hrep2. congruence.
  - intros Hn k Hk. destruct (Hmap ltac:(lia) Hn k Hk) as [|Hfit]; [by left|right].
    by rewrite Htot3, Htot2 in Hfit.
  - apply Hroot. lia.
Qed.
End Fsck.

(** * A formatted image *)

Section Clean.
Context `{E : Env, !Healthy E}.
Implicit Types (s : lsfs_context) (c : fsck_context).

(** The image and its size are those of [s0]. *)
Definition over_image (s0 s : lsfs_context) : Prop := c_disk s = c_disk s0 ∧ c_disk_size s = c_disk_size s0.

Lemma fsck_read_wp s0 s b :
  over_image s0 s → 0 <= b → (b + 1) * LSFS_BLOCK_SIZE <= c_disk_size s0 < 2 ^ 63 →
  wp (fsck_read_block b) (λ r s', over_image s0 s' ∧ r = Some (disk_block (c_disk s0) b)) s.
Proof using Type*.
  intros [Hd Hsz] Hb Hb'. unfold fsck_read_block. unfold LSFS_BLOCK_SIZE in *. wp_step.
  assert (to_i64 b = b) as ->.
  { unfold to_i64. rewrite u64_small by lia. by rewrite (proj2 (Z.ltb_lt _ _)) by lia. }
  eapply wp_of_opt; [apply i64_check_ok; lia|]. wp_step. unfold sys_pread, LSFS_BLOCK_SIZE.
  wp_step. eapply wp_intro; [done|]. do 5 wp_step. apply wp_ret. rewrite healthy_pread. cbn [c_disk c_disk_size field_set].
  rewrite (proj2 (Z.leb_le 0 _)), (proj2 (Z.leb_le (_ + _) _)) by lia. cbn [andb]. rewrite Z.div_mul by done.
  unfold disk_blocks. change (Z.to_nat 1) with 1%nat. cbn. rewrite Z.add_0_r, Hd. done.
Qed.

(** Nothing to report. *)
Definition silent (sb : lsfs_superblock) c : Prop := fc_sb c = sb ∧ fc_errors c = 0.

(** A segment that was never written begins with zeros. *)
Lemma check_segment_fresh size_mb s0 s ts c n seg :
  21 <= size_mb <= 1024 → fresh_image size_mb s0 → over_image s0 s → 0 <= n < 2 ^ 32 - 1 →
  LSFS_LOG_START + ts * LSFS_SEGMENT_BLOCKS <= size_mb * 256 → 0 <= seg < ts →
  wp (check_segment c n seg) (λ r s', over_image s0 s' ∧ r = (c, if decide (seg = 0) then n else n + 1)) s.
Proof using Type*.
  intros Hmb Hf Hs Hn Hfit Hseg. pose proof (proj1 Hf) as Hsz.
  assert (u64 (LSFS_LOG_START + seg * LSFS_SEGMENT_BLOCKS) = 1025 + seg * 1024) as Hb.
  { unfold LSFS_LOG_START, LSFS_SEGMENT_BLOCKS in *. rewrite u64_small; lia. }
  unfold LSFS_LOG_START, LSFS_SEGMENT_BLOCKS in Hfit. unfold check_segment. rewrite Hb. wp_step.
  eapply wp_mono; [apply (fsck_read_wp s0 s); [done|lia|rewrite Hsz; unfold LSFS_BLOCK_SIZE; lia]|].
  intros r s1 (Hs1 & ->). cbv zeta. case_decide as Hz.
  - subst seg. change (1025 + 0 * 1024) with 1025. destruct (fresh_header size_mb s0 Hf) as (now & -> & _).
    cbn [sh_magic sh_segment_id sh_block_count]. rewrite Z.eqb_refl. unfold warn_if, error_if. cbn [Z.eqb negb].
    wp_steps. change (LSFS_SEGMENT_BLOCKS <? 3) with false. wp_steps. done.
  - rewrite (fresh_zero size_mb s0 _ Hf) by (rewrite !not_elem_of_cons; split_and!; try lia; apply not_elem_of_nil).
    change (sh_magic (dec zero_block)) with 0. apply wp_ret. rewrite u32_small by lia. done.
Qed.

Lemma check_segments_loop_fresh size_mb s0 s ts segs c n :
  21 <= size_mb <= 1024 → fresh_image size_mb s0 → over_image s0 s → 0 <= n → n + Z.of_nat (length segs) < 2 ^ 32 →
  LSFS_LOG_START + ts * LSFS_SEGMENT_BLOCKS <= size_mb * 256 → Forall (λ seg, 0 <= seg < ts) segs →
  wp (check_segments_loop segs c n) (λ r s', over_image s0 s' ∧
    r = (c, n + Z.of_nat (length (filter (λ seg, seg ≠ 0) segs)))) s.
Proof using Type*.
  intros Hmb Hf Hs Hn Hlt Hfit Hall. revert s n Hs Hn Hlt.
  induction Hall as [|seg segs Hseg Hall IH]; intros s n Hs Hn Hlt; cbn [check_segments_loop].
  { apply wp_ret. split; [done|]. by rewrite Z.add_0_r. }
  cbn [length] in Hlt. wp_step.
  eapply wp_mono; [apply (check_segment_fresh size_mb s0 s ts); try done; lia|]. intros r s1 (Hs1 & ->). cbn [fst snd].
  eapply wp_mono; [apply IH; [done|case_decide; lia..]|]. intros r s2 (Hs2 & ->). split; [done|].
  rewrite filter_cons. repeat case_decide; try done; cbn [length]; f_equal; lia.
Qed.

Lemma length_filter_all (l : list Z) : Forall (λ seg, seg ≠ 0) l → length (filter (λ seg, seg ≠ 0) l) = length l.
Proof using Type. induction 1 as [|x l Hx _ IH]; [done|]. rewrite filter_cons_True by done. cbn. by rewrite IH. Qed.

Lemma count_segments ts : 1 <= ts → Z.of_nat (length (filter (λ seg : Z, seg ≠ 0) (seqZ 0 ts))) = ts - 1.
Proof using Type.
  intros Hts. rewrite seqZ_cons by lia. rewrite filter_cons_False by naive_solver.
  rewrite length_filter_all, length_seqZ by (apply Forall_forall; intros x Hx%elem_of_seqZ; lia). lia.
Qed.

(** The blocks that matter, as the checker decodes them. *)
Lemma fresh_decoded size_mb s :
  21 <= size_mb <= 1024 → fresh_image size_mb s →
  let d := c_disk s in ∃ ts now uuid gen,
    4 <= ts <= 254 ∧ LSFS_LOG_START + ts * LSFS_SEGMENT_BLOCKS <= size_mb * 256 ∧
    dec (disk_block d 0) = format_sb (size_mb * 256) ts now uuid ∧
    dec (disk_block d 1) = format_checkpoint ts now ∧ dec_at 0 (disk_block d 2) = root_imap ∧
    dec (disk_block d 1026) = root_inode now gen.
Proof using Type.
  intros Hmb (_ & ts & now & gen & uuid & Hts & Hfit & Hnow & Hgen & Hu & Hf) d. exists ts, now, uuid, gen.
  assert (Z.of_nat BS = 4096) as HBS by done. split_and!; try lia.
  - unfold d. destruct (fm_sb _ _ _ _ _ _ Hf) as [k ->]. apply over_read_dec; [apply format_sb_wf; try done; lia|].
    cbn [sizeof superblock_ondisk]. unfold sb_reserved_len. lia.
  - unfold d. rewrite (fm_checkpoint _ _ _ _ _ _ Hf). apply block_with_dec; [by apply format_checkpoint_wf|].
    cbn [sizeof checkpoint_header_ondisk]. lia.
  - unfold d. rewrite (fm_imap _ _ _ _ _ _ Hf). unfold dec_at. cbn [Nat.mul]. rewrite drop_0.
    apply block_with_dec; [apply root_imap_wf|]. cbn [sizeof imap_entry_ondisk]. lia.
  - unfold d. rewrite (fm_root _ _ _ _ _ _ Hf). apply block_with_dec; [by apply root_inode_wf|].
    cbn [sizeof inode_ondisk]. unfold i_reserved_len. lia.
Qed.

Lemma fresh_read size_mb s0 s b :
  21 <= size_mb <= 1024 → fresh_image size_mb s0 → over_image s0 s → 0 <= b <= 1026 →
  wp (fsck_read_block b) (λ r s', over_image s0 s' ∧ r = Some (disk_block (c_disk s0) b)) s.
Proof using Type*.
  intros Hmb Hf Hs Hb. apply fsck_read_wp; [done|lia|]. rewrite (proj1 Hf). unfold LSFS_BLOCK_SIZE. lia.
Qed.

(** The checks of an image that was just formatted, one after the other: the context
    [c] of the checker holds its superblock. *)
Section Checks.
Context (size_mb : Z) (s0 : lsfs_context) (ts now gen : Z) (uuid : list Z) (c : fsck_context).
Hypothesis Hmb : 21 <= size_mb <= 1024.
Hypothesis Hf : fresh_image size_mb s0.
Hypothesis Hts : 4 <= ts <= 254.
Hypothesis Hfit : LSFS_LOG_START + ts * LSFS_SEGMENT_BLOCKS <= size_mb * 256.
Hypothesis Hcp : dec (disk_block (c_disk s0) 1) = format_checkpoint ts now.
Hypothesis Him : dec_at 0 (disk_block (c_disk s0) 2) = root_imap.
Hypothesis Hroot : dec (disk_block (c_disk s0) 1026) = root_inode now gen.
Hypothesis Hsb : fc_sb c = format_sb (size_mb * 256) ts now uuid.

Lemma check_checkpoints_fresh s :
  over_image s0 s → wp (check_checkpoints c) (λ r s', over_image s0 s' ∧ r = (c, 0)) s.
Proof using Type*.
  intros Hs. unfold check_checkpoints, check_header. change LSFS_CHECKPOINT0_START with 1. change LSFS_CHECKPOINT1_START with 257.
  do 2 wp_step. eapply wp_mono; [by apply (fresh_read size_mb s0)|]. intros r s1 (Hs1 & ->). wp_step.
  rewrite Hcp. change (header_valid (format_checkpoint ts now)) with true.
  do 2 wp_step. eapply wp_mono; [by apply (fresh_read size_mb s0)|]. intros r s2 (Hs2 & ->). wp_step. cbn [negb andb].
  wp_step. rewrite Hsb. eapply wp_of_opt; [reflexivity|]. by apply wp_ret.
Qed.

Lemma check_segments_fresh s :
  over_image s0 s → wp (check_segments c) (λ c' s', over_image s0 s' ∧ c' = c) s.
Proof using Type*.
  intros Hs. unfold check_segments. wp_step. rewrite Hsb. cbn [sb_total_segments format_sb].
  eapply wp_mono; [apply (check_segments_loop_fresh size_mb s0 s ts); try done; [rewrite length_seqZ; lia|]|].
  { apply Forall_forall. intros x Hx%elem_of_seqZ. lia. }
  intros r s1 (Hs1 & ->). rewrite count_segments by lia. rewrite Hsb. cbn [sb_free_segments format_sb].
  rewrite Z.add_0_l, Z.eqb_refl. by apply wp_ret.
Qed.

Lemma cp_start_fresh : cp_start c = 1.
Proof using Type*. unfold cp_start. by rewrite Hsb. Qed.

Lemma entry_fresh : entry_in_block (disk_block (c_disk s0) 2) 0 = Some root_imap.
Proof using Him.
  unfold entry_in_block. change ((0 <=? 0) && (0 <? entries_per_block)) with true. change (Z.to_nat 0) with 0%nat.
  by rewrite Him.
Qed.

Lemma check_inode_map_fresh s :
  over_image s0 s → wp (check_inode_map c) (λ r s', over_image s0 s' ∧ r = (c, 0)) s.
Proof using Type*.
  intros Hs. unfold check_inode_map. rewrite cp_start_fresh. wp_step. eapply wp_mono; [by apply (fresh_read size_mb s0)|].
  intros r s1 (Hs1 & ->). cbv beta iota zeta. rewrite Hcp. cbn [ch_imap_entries format_checkpoint].
  change (u32 (1 + entries_per_block - 1) / entries_per_block) with 1. change (seqZ 0 1) with [0]. cbn [check_imap_blocks].
  do 2 wp_step. change (u64 (1 + 1 + 0)) with 2. eapply wp_mono; [by apply (fresh_read size_mb s0)|]. intros r s2 (Hs2 & ->).
  cbv beta iota zeta. change (0 =? u32 (1 - 1)) with true. cbv iota.
  change (seqZ 0 (u32 (1 - u32 (0 * entries_per_block)))) with [0]. cbn [check_entries].
  do 2 wp_step. eapply wp_of_opt; [exact entry_fresh|].
  wp_step. rewrite Hsb. cbn [ie_ino ie_location root_imap sb_total_blocks format_sb].
  assert ((LSFS_LOG_START + 1 <? LSFS_LOG_START) || (size_mb * 256 <=? LSFS_LOG_START + 1) = false) as ->.
  { apply orb_false_iff. split; [apply Z.ltb_ge|apply Z.leb_gt]; unfold LSFS_LOG_START; lia. }
  rewrite andb_false_r. by repeat wp_step.
Qed.

Lemma check_root_fresh s :
  over_image s0 s → wp (check_root c) (λ r s', over_image s0 s' ∧ r = (c, 0)) s.
Proof using Type*.
  intros Hs. unfold check_root. rewrite cp_start_fresh. wp_step. eapply wp_mono; [by apply (fresh_read size_mb s0)|].
  intros r s1 (Hs1 & ->). cbv beta iota zeta. rewrite Hcp. cbn [ch_imap_entries format_checkpoint].
  wp_step. change (1 + 1) with 2. eapply wp_mono; [by apply (fresh_read size_mb s0)|]. intros r s2 (Hs2 & ->).
  cbv beta iota. change (seqZ 0 1) with [0]. wp_step.
  assert (find_root [0] (disk_block (c_disk s0) 2) = Some 1026) as Hfind.
  { cbn [find_root]. by rewrite entry_fresh. }
  eapply wp_of_opt; [exact Hfind|]. change (1026 =? 0) with false. cbv iota.
  wp_step. eapply wp_mono; [by apply (fresh_read size_mb s0)|]. intros r s3 (Hs3 & ->). cbv beta iota zeta. rewrite Hroot.
  change (i_ino (root_inode now gen) =? LSFS_ROOT_INO) with true.
  change (Z.land (i_mode (root_inode now gen)) S_IFMT =? S_IFDIR) with true. by apply wp_ret.
Qed.
End Checks.

Lemma fsck_checks_fresh size_mb s c :
  21 <= size_mb <= 1024 → fresh_image size_mb s → fc_size c = size_mb * 1024 * 1024 →
  wp (fsck_checks c) (λ c' s', over_image s s' ∧ fc_errors c' = errors_on_disk (c_disk s)) s.
Proof using Type*.
  intros Hmb Hf Hsize. destruct (fresh_decoded size_mb s Hmb Hf) as (ts & now & uuid & gen & Hts & Hfit & H0 & H1 & H2 & H3).
  unfold fsck_checks, check_superblock. change LSFS_SUPERBLOCK_BLOCK with 0. do 2 wp_step.
  eapply wp_mono; [by apply (fresh_read size_mb s)|]. intros r s1 (Hs1 & ->). cbv beta iota zeta.
  set (c1 := fill_context (disk_block (c_disk s) 0) c).
  assert (fc_errors c1 = errors_on_disk (c_disk s)) as He1 by done. assert (fc_size c1 = size_mb * 1024 * 1024) as Hsize1 by exact Hsize.
  assert (fc_sb c1 = format_sb (size_mb * 256) ts now uuid) as Hsb by exact H0. clearbody c1.
  rewrite Hsb, Hsize1. cbn [sb_magic sb_version sb_block_size sb_segment_size sb_total_blocks sb_state format_sb].
  rewrite !Z.eqb_refl. cbn [negb]. rewrite (proj2 (Z.ltb_ge _ _)).
  2:{ apply Z.div_le_lower_bound; unfold LSFS_BLOCK_SIZE; lia. }
  unfold warn_if. cbn [Z.eqb negb]. wp_steps. cbn [fst snd Z.ltb Z.compare].
  wp_step. eapply wp_mono; [by eapply (check_checkpoints_fresh size_mb s ts now)|]. intros r s2 (Hs2 & ->). cbn [fst snd Z.ltb Z.compare].
  wp_step. eapply wp_mono; [by eapply (check_segments_fresh size_mb s ts now)|]. intros c' s3 (Hs3 & ->).
  wp_step. eapply wp_mono; [by eapply (check_inode_map_fresh size_mb s ts now)|]. intros r s4 (Hs4 & ->). cbn [fst].
  wp_step. eapply wp_mono; [by eapply (check_root_fresh size_mb s ts now)|]. intros r s5 (Hs5 & ->). by apply wp_ret.
Qed.

Lemma run_fsck_fresh size_mb s verbose :
  21 <= size_mb <= 1024 → fresh_image size_mb s →
  wp (run_fsck true (Some (size_mb * 1024 * 1024)) 0 verbose) (λ r s',
    r = (if 0 <? errors_on_disk (c_disk s) then 1 else 0) ∧ c_disk s' = c_disk s) s.
Proof using Type*.
  intros Hmb Hf. unfold run_fsck. cbn [negb]. do 2 wp_step. set (s1 := s <| c_readonly := _ |>). wp_step.
  assert (fresh_image size_mb s1) as Hf1.
  { destruct Hf as (Hsz & ts & now & gen & uuid & ? & ? & ? & ? & ? & [? ? ? ? ? ? ? ?]).
    split; [done|]. exists ts, now, gen, uuid. split_and!; try done; lia. }
  eapply wp_mono; [apply (fsck_checks_fresh size_mb s1); [done|done|cbn; rewrite u64_small; lia]|].
  intros c s2 ([Hd _] & Hc). wp_step. eapply (wp_mono _ (λ _ s', c_disk s' = c_disk s2)).
  { case_match; [|by apply wp_ret]. eapply wp_mono; [apply sync_frame|]. by intros z s' [_ ?]. }
  intros _ s3 Hd3. apply wp_ret. rewrite Hc. split; [done|]. by rewrite Hd3.
Qed.

(** The error count that the image supplies is what was behind the superblock in the
    memory of [mkfs.lsfs]. *)
Lemma fresh_errors size_mb s :
  21 <= size_mb <= 1024 → fresh_image size_mb s →
  ∃ k, errors_on_disk (c_disk s) = i32_of_bytes ((u8 <$> env_mem k) ++ zero_block).
Proof using Type.
  intros Hmb (_ & ts & now & gen & uuid & Hts & _ & Hnow & _ & Hu & Hf). unfold errors_on_disk.
  destruct (fm_sb _ _ _ _ _ _ Hf) as [k ->]. exists k. unfold over_read, i32_of_bytes.
  pose proof (length_enc _ (format_sb_wf (size_mb * 256) ts now uuid ltac:(lia) Hts Hnow Hu)) as Hl.
  rewrite skipn_firstn_comm, drop_app_length' by done. rewrite take_take. done.
Qed.
End Clean.

(** * Theorems *)


(** C39. The checker finds nothing wrong with what the format utility writes: on a machine
    without failures, for an image of 21 to 1024 megabytes that was just made, no check
    adds to the error count and the image is left as it is.  The count itself comes from
    the image: [mkfs.lsfs] writes a block of 4096 bytes from a superblock of 4080, and the
    checker reads it over its superblock and the error count behind.  So the image is
    reported clean exactly when the four bytes that lay behind the superblock in the
    memory of [mkfs.lsfs] do not spell a positive number. *)
Theorem format_fsck_verdict `{E : Env, !Healthy E} random size_mb verbose s :
  21 <= size_mb <= 1024 →
  wp (mkfs_main true true random size_mb) (λ r s1, r = 0 ∧
    (∃ k, errors_on_disk (c_disk s1) = i32_of_bytes ((u8 <$> env_mem k) ++ zero_block)) ∧
    wp (run_fsck true (Some (size_mb * 1024 * 1024)) 0 verbose) (λ r' s2,
      r' = (if 0 <? errors_on_disk (c_disk s1) then 1 else 0) ∧ c_disk s2 = c_disk s1) s1) s.
Proof.
  intros Hmb. eapply wp_mono; [by apply mkfs_main_wp|]. intros r s1 (-> & _ & Hf).
  split_and!; [done|by apply (fresh_errors size_mb)|by apply run_fsck_fresh].
Qed.
