(* ===== verification/FuseView.v ===== *)
(** Files through the handlers: what [lsfs_op_read] returns of a file, and that it returns
    what [lsfs_op_write] stored once [lsfs_op_fsync] has run. *)
From S2P Require Import Prelude OnDisk Lru Context Io Imap SegTable Log LogView.
From S2P Require Import Inode FileView InodeDisk InodeCache GcClean Directory Fuse.

(** * Files as bytes *)

(** Byte [k] of a file, whatever its size says. *)
Definition file_byte (s : lsfs_context) (i : lsfs_inode) (k : Z) : Z :=
  default 0 (file_block s i (k / LSFS_BLOCK_SIZE) !! Z.to_nat (k mod LSFS_BLOCK_SIZE)).

(** Every block of the file has left the segment buffer. *)
Record file_flushed (s : lsfs_context) (i : lsfs_inode) : Prop := {
  ff_wf : file_wf s i;
  ff_indirect : i_indirect i ≠ 0 → settled s (i_indirect i);
  ff_addr idx : 0 <= idx < file_blocks → file_addr s i idx ≠ 0 → settled s (file_addr s i idx) }.

(** What the disk holds of block [idx] of the file. *)
Definition disk_file_block (s : lsfs_context) (i : lsfs_inode) (idx : Z) : list Z :=
  if file_addr s i idx =? 0 then zero_block else disk_block (c_disk s) (file_addr s i idx).

Lemma flushed_block s i idx :
  (file_addr s i idx ≠ 0 → settled s (file_addr s i idx)) → disk_file_block s i idx = file_block s i idx.
Proof.
  intros Hset. unfold disk_file_block, file_block. destruct (Z.eqb_spec (file_addr s i idx) 0); [done|].
  symmetry. by apply settled_view, Hset.
Qed.

Lemma disk_file_block_bytes s i idx : disk_ok s → is_block (disk_file_block s i idx).
Proof. intros Hd. unfold disk_file_block. case_match; [apply zero_block_is_block|apply Hd]. Qed.

Lemma lookup_slice {A} (l : list A) o n k : (k < n)%nat → slice o n l !! k = l !! (o + k)%nat.
Proof. intros Hk. unfold slice. by rewrite lookup_take_lt, lookup_drop. Qed.

Lemma byte_in_block j o : 0 <= o < LSFS_BLOCK_SIZE →
  (j * LSFS_BLOCK_SIZE + o) / LSFS_BLOCK_SIZE = j ∧ (j * LSFS_BLOCK_SIZE + o) mod LSFS_BLOCK_SIZE = o.
Proof. unfold LSFS_BLOCK_SIZE. intros Ho. split; [symmetry|symmetry; by apply (Z.mod_unique_pos _ _ j); lia].
  apply (Z.div_unique_pos _ _ _ o); lia. Qed.

(** A part of a block of the file, as bytes of the file. *)
Lemma slice_file_block s i j o n :
  is_block (file_block s i j) → 0 <= o → 0 <= n → o + n <= LSFS_BLOCK_SIZE →
  slice (Z.to_nat o) (Z.to_nat n) (file_block s i j) = file_byte s i <$> seqZ (j * LSFS_BLOCK_SIZE + o) n.
Proof.
  intros [Hl _] Ho Hn Hle. assert (Z.of_nat BS = LSFS_BLOCK_SIZE) as HBS by done.
  apply list_eq_same_length with (Z.to_nat n).
  - by rewrite length_fmap, length_seqZ.
  - rewrite length_slice; [done|]. rewrite Hl. lia.
  - intros k x y Hk Hx Hy. rewrite lookup_slice in Hx by done.
    rewrite list_lookup_fmap, (proj2 (lookup_seqZ _ _ _ (j * LSFS_BLOCK_SIZE + o + Z.of_nat k))) in Hy by lia.
    injection Hy as <-. unfold file_byte. rewrite <-Z.add_assoc.
    destruct (byte_in_block j (o + Z.of_nat k)) as [-> ->]; [lia|].
    replace (Z.to_nat (o + Z.of_nat k)) with (Z.to_nat o + k)%nat by lia. by rewrite Hx.
Qed.

Section Reads.
Context `{E : Env, !Healthy E}.
Implicit Types s : lsfs_context.

(** Reading leaves everything but the count of questions as it is. *)
Lemma io_same_file s s' i :
  io_same s s' → (∀ idx, file_addr s' i idx = file_addr s i idx) ∧ (∀ k, file_byte s' i k = file_byte s i k) ∧
    (log_wf s → file_flushed s i → file_flushed s' i).
Proof using Type.
  intros Hio. pose proof (io_same_segbuf _ _ Hio) as Hb. pose proof (proj2 Hio) as Hd.
  assert (∀ a, log_view s' a = log_view s a) as Hv by (intros a; unfold log_view; by rewrite Hb, Hd).
  assert (∀ idx, file_addr s' i idx = file_addr s i idx) as Ha by (intros idx; unfold file_addr; by rewrite Hv).
  split_and!; [done|intros k; unfold file_byte, file_block; by rewrite Ha, Hv|].
  intros Hs [Hw Hi Hadr]. unfold settled in *. split.
  - eapply file_wf_grows; [exact Hw|]. by apply (io_same_kept s s').
  - unfold settled. by rewrite Hb.
  - intros idx. unfold settled. rewrite Ha, Hb. apply Hadr.
Qed.

Lemma read_flushed_wp s p im idx :
  log_wf s → ic_heap (c_icache s) !! p = Some im → file_wf s (im_disk_inode im) → 0 <= idx < file_blocks →
  (i_indirect (im_disk_inode im) ≠ 0 → settled s (i_indirect (im_disk_inode im))) →
  wp (lsfs_inode_read_block p idx) (λ got s', io_same s s' ∧ got = Ok (disk_file_block s (im_disk_inode im) idx)) s.
Proof using Type*.
  intros Hs Hp Hw Hidx Hset. eapply wp_mono; [by apply (inode_read_block_wp s p im)|].
  intros got s' (Hio & [-> | [_ Hn]]); [done|]. by destruct Hn.
Qed.

(** ** The loop of [lsfs_op_read] *)

Lemma next_boundary pos : 0 <= pos →
  (pos / LSFS_BLOCK_SIZE) * LSFS_BLOCK_SIZE + pos mod LSFS_BLOCK_SIZE = pos ∧ 0 <= pos mod LSFS_BLOCK_SIZE < LSFS_BLOCK_SIZE.
Proof using Type.
  intros Hp. pose proof (Z.div_mod pos LSFS_BLOCK_SIZE ltac:(done)). pose proof (Z.mod_pos_bound pos LSFS_BLOCK_SIZE ltac:(done)). lia.
Qed.

Lemma read_loop_wp fuel s p im off size buf :
  let i := im_disk_inode im in
  log_wf s → disk_ok s → ic_heap (c_icache s) !! p = Some im → file_flushed s i →
  0 <= off → off + size <= file_blocks * LSFS_BLOCK_SIZE → Z.of_nat (length buf) <= size →
  buf = file_byte s i <$> seqZ off (Z.of_nat (length buf)) → (0 < fuel)%nat →
  (Z.of_nat (length buf) < size → (off + size + 4095) / LSFS_BLOCK_SIZE - (off + Z.of_nat (length buf)) / LSFS_BLOCK_SIZE < Z.of_nat fuel) →
  wp (read_loop fuel p off size buf) (λ r s', io_same s s' ∧ r = file_byte s i <$> seqZ off size) s.
Proof using Type*.
  intros i. revert s buf. induction fuel as [|fuel IH]; intros s buf Hs Hb Hp Hf Hoff Hend Hle Heq Hfuel Hr; [lia|].
  cbn [read_loop]. destruct (Z.leb_spec size (Z.of_nat (length buf))) as [Hdone|Hgo].
  { apply wp_ret. split; [apply io_same_refl|]. rewrite Heq at 1. do 2 f_equal. lia. }
  specialize (Hr Hgo). set (n := Z.of_nat (length buf)) in *. unfold file_blocks in Hend.
  rewrite u64_small by (unfold LSFS_BLOCK_SIZE in *; lia).
  destruct (next_boundary (off + n)) as [Hpos Hmod]; [lia|].
  set (j := (off + n) / LSFS_BLOCK_SIZE) in *. set (o := (off + n) mod LSFS_BLOCK_SIZE) in *.
  set (m := Z.min (LSFS_BLOCK_SIZE - o) (size - n)) in *.
  assert (0 <= j < file_blocks) as Hj by (unfold file_blocks, LSFS_BLOCK_SIZE in *; lia).
  assert (j + 1 <= (off + size + 4095) / LSFS_BLOCK_SIZE) as Hround.
  { apply Z.div_le_lower_bound; unfold LSFS_BLOCK_SIZE in *; lia. }
  wp_step. eapply wp_mono; [by apply (read_flushed_wp s p im); [done|done|apply Hf|done|apply Hf]|].
  intros got s1 (Hio & ->). fold i. rewrite flushed_block by by apply (ff_addr s i Hf).
  assert (is_block (file_block s i j)) as Hblk.
  { rewrite <-flushed_block by by apply (ff_addr s i Hf). by apply disk_file_block_bytes. }
  rewrite slice_file_block by (done || lia). rewrite Hpos.
  destruct (io_same_file s s1 i Hio) as (Ha1 & Hby1 & Hf1).
  assert (length (buf ++ (file_byte s i <$> seqZ (off + n) m)) = Z.to_nat (n + m)) as Hlen.
  { rewrite length_app, length_fmap, length_seqZ. lia. }
  eapply wp_mono; [apply IH|].
  - by eapply io_same_wf.
  - unfold disk_ok. by rewrite (proj2 Hio).
  - by rewrite (io_same_icache _ _ Hio).
  - by apply Hf1.
  - done.
  - done.
  - rewrite Hlen. lia.
  - assert (∀ l : list Z, file_byte s1 i <$> l = file_byte s i <$> l) as Hext.
    { intros l. apply list_fmap_ext. intros _ x _. apply Hby1. }
    etrans; [|symmetry; apply Hext]. rewrite Hlen, Z2Nat.id, (seqZ_app off n m), fmap_app by lia.
    exact (f_equal (λ l, l ++ (file_byte s i <$> seqZ (off + n) m)) Heq).
  - lia.
  - rewrite Hlen, Z2Nat.id by lia. intros Hlt. assert (m = LSFS_BLOCK_SIZE - o) as Hm by lia.
    assert ((off + (n + m)) / LSFS_BLOCK_SIZE = j + 1) as ->; [|lia].
    symmetry. apply (Z.div_unique_pos _ _ _ 0); unfold LSFS_BLOCK_SIZE in *; lia.
  - intros r s2 (Hio2 & ->). split; [by eapply io_same_trans|]. apply list_fmap_ext. intros _ x _. apply Hby1.
Qed.

(** ** Inodes in the cache *)

(** Inode [ino] is cached, at [p] and nowhere else. *)
Record cached s (ino p : Z) (im : lsfs_inode_mem) : Prop := {
  ca_wf : fs_wf s;
  ca_at : ic_heap (c_icache s) !! p = Some im;
  ca_ino : i_ino (im_disk_inode im) = ino;
  ca_only q im' : ic_heap (c_icache s) !! q = Some im' → i_ino (im_disk_inode im') = ino → q = p;
  ca_count : ic_count (c_icache s) + 1 < 2 ^ 31 }.

Lemma cached_update s ino p im im' :
  cached s ino p im → fs_wf (with_inode p im' s) → i_ino (im_disk_inode im') = ino → cached (with_inode p im' s) ino p im'.
Proof using Type.
  intros [_ Hp _ Honly Hc] Hwf Hino. split; [done|apply with_inode_lookup|done| |done].
  intros q iq. cbn. destruct (decide (q = p)) as [->|Hne]; [done|]. rewrite lookup_insert_ne by done. apply Honly.
Qed.

Lemma inode_get_cached_wp s ino p im :
  cached s ino p im →
  wp (lsfs_inode_get ino) (λ r s', r = Some p ∧ cached s' ino p (referenced im) ∧
    ∃ c, s' = with_cache c s ∧ ic_heap c = <[p := referenced im]> (ic_heap (c_icache s)) ∧
      ic_count c = ic_count (c_icache s)) s.
Proof using Type.
  intros [Hs Hp Hino Honly Hc].
  destruct (wp_elim _ _ _ (inode_get_wp s ino Hs Hc)) as (r & s' & Hrun & Hs' & _ & Hgot).
  eapply wp_intro; [exact Hrun|]. unfold lsfs_inode_get in Hrun.
  destruct (fs_cache s Hs) as [(ch & l & Hr) _].
  destruct (cache_find_run s ch l ino Hr) as (first & r' & Hb & _ & Hfind & Hspec).
  erewrite bind_run in Hrun by exact Hb. erewrite bind_run in Hrun by reflexivity.
  erewrite bind_run in Hrun by exact Hfind.
  destruct r' as [p'|]; [|by destruct (Hspec p im Hp)].
  destruct Hspec as (im' & Hp' & Hino'). pose proof (Honly p' im' Hp' Hino') as ->.
  rewrite Hp in Hp'. injection Hp' as <-. erewrite bind_run in Hrun by by apply upd_inode_run.
  injection Hrun as <- <-. split; [done|]. split; [|by eexists].
  split; [done|apply with_inode_lookup|done| |exact Hc].
  intros q iq. cbn. destruct (decide (q = p)) as [->|Hne]; [done|]. rewrite lookup_insert_ne by done. apply Honly.
Qed.

Lemma get_inode_cached s ino p im : cached s ino p im → get_inode ino = lsfs_inode_get ino.
Proof using Type.
  intros [Hs Hp Hino _ _]. destruct (icache_ranges_at s p im Hs Hp) as (Hd & _).
  assert (is_u32 ino) as Hu by (rewrite <-Hino; apply Hd).
  unfold get_inode. destruct (Z.eqb_spec ino FUSE_ROOT_ID) as [->|]; [done|]. by rewrite u32_small.
Qed.

Lemma get_cached_wp s ino p im :
  cached s ino p im →
  wp (get_inode ino) (λ r s', r = Some p ∧ cached s' ino p (referenced im) ∧ ∃ c, s' = with_cache c s) s.
Proof using Type.
  intros Hca. rewrite (get_inode_cached s ino p im Hca). eapply wp_mono; [by apply inode_get_cached_wp|].
  intros r s' (-> & Hca' & c & -> & _). split_and!; [done..|by exists c].
Qed.

(** Dropping the reference and replying. *)
Lemma put_reply_wp s ino p im r :
  cached s ino p im →
  wp (put_reply [p] r) (λ r' s', r' = r ∧ ∃ n, let im' := im <| im_refcount := n |> in
    cached s' ino p im' ∧ s' = with_inode p im' s) s.
Proof using Type.
  intros Hca. pose proof Hca as [Hs Hp Hino _ _]. unfold put_reply. cbn [for_each]. do 2 wp_step.
  eapply wp_mono; [by apply inode_put_wp|]. intros [] s' [Hs' ->]. do 2 wp_step. split; [done|].
  eexists. split; [|done]. by eapply cached_update.
Qed.

(** A change of the fields that are not pointers. *)
Lemma cached_disk_update s ino p im i' dirty :
  cached s ino p im → disk_wf i' → i_ino i' = ino →
  cached (with_inode p (im <| im_disk_inode := i' |> <| im_dirty := dirty |>) s) ino p
    (im <| im_disk_inode := i' |> <| im_dirty := dirty |>).
Proof using Type.
  intros Hca Hi Hino. pose proof Hca as [Hs Hp Hino0 _ _]. destruct (icache_ranges_at s p im Hs Hp) as (_ & Hl & Hr).
  eapply cached_update; [exact Hca| |exact Hino]. eapply update_wf; try done. cbn. congruence.
Qed.

Lemma cached_io s s' ino p im : cached s ino p im → io_same s s' → cached s' ino p im.
Proof using Type.
  intros [Hs Hp Hino Ho Hc] Hio. pose proof (io_same_icache _ _ Hio) as Hic.
  split; rewrite ?Hic; try done. by apply (fs_wf_io s); [|apply Hio..].
Qed.

(** ** [lsfs_op_read] *)
Lemma op_read_wp s ino p im size off :
  let i := im_disk_inode im in
  cached s ino p im → file_flushed s i → i_size i <= file_blocks * LSFS_BLOCK_SIZE →
  0 <= off → 0 <= size → off + size < 2 ^ 64 →
  wp (lsfs_op_read ino size off) (λ r s', (∃ im', cached s' ino p im') ∧ r = reply_buf (file_byte s i <$> seqZ off (Z.min size (i_size i - off)))) s.
Proof using Type*.
  intros i Hca Hf Hsz Hoff Hsize Hend. unfold lsfs_op_read. wp_step. eapply wp_mono; [by apply get_cached_wp|].
  intros r s1 (-> & Hca1 & c & ->). pose proof (ca_at _ _ _ _ Hca1) as Hp1.
  wp_step. eapply wp_intro; [by apply load_inode_run|]. change (im_disk_inode (referenced im)) with i. cbv zeta.
  rewrite (u64_small off), (u64_small (off + size)) by lia.
  destruct (Z.leb_spec (i_size i) off) as [Hle|Hgt].
  { eapply wp_mono; [by apply put_reply_wp|]. intros r s2 [-> (n & Hca2 & _)]. rewrite seqZ_nil by lia. eauto. }
  set (n := if i_size i <? off + size then u64 (i_size i - off) else size).
  assert (n = Z.min size (i_size i - off)) as Hn.
  { unfold n. unfold file_blocks, LSFS_BLOCK_SIZE in Hsz. destruct (Z.ltb_spec (i_size i) (off + size)); [|lia]. rewrite u64_small; lia. }
  rewrite <-Hn. clearbody n. wp_step. eapply wp_intro; [done|]. rewrite healthy_alloc. cbn [negb].
  wp_step. set (s2 := with_cache c s <| c_tick ::= S |>).
  assert (io_same (with_cache c s) s2) as Hio by by split.
  destruct (io_same_file _ _ i Hio) as (_ & Hby & Hfl).
  pose proof (fs_log _ (ca_wf _ _ _ _ Hca1)) as Hlog1.
  eapply wp_mono; [apply (read_loop_wp _ s2 p (referenced im))|].
  - by eapply io_same_wf.
  - exact (fs_bytes _ (ca_wf _ _ _ _ Hca1)).
  - exact Hp1.
  - apply Hfl; [done|]. destruct Hf as [[? ? ? ?] ? ?]. by split; [split|..].
  - done.
  - lia.
  - cbn. lia.
  - done.
  - unfold transfer_fuel. pose proof (Z.div_pos n LSFS_BLOCK_SIZE). unfold LSFS_BLOCK_SIZE in *. lia.
  - cbn [length]. intros Hpos. unfold transfer_fuel. rewrite Z2Nat.id by (pose proof (Z.div_pos n LSFS_BLOCK_SIZE); unfold LSFS_BLOCK_SIZE in *; lia).
    rewrite Z.add_0_r. unfold LSFS_BLOCK_SIZE.
    pose proof (Z.div_mod n 4096 ltac:(lia)). pose proof (Z.mod_pos_bound n 4096 ltac:(lia)).
    pose proof (Z.div_mod off 4096 ltac:(lia)). pose proof (Z.mod_pos_bound off 4096 ltac:(lia)).
    pose proof (Z.div_mod (off + n + 4095) 4096 ltac:(lia)). pose proof (Z.mod_pos_bound (off + n + 4095) 4096 ltac:(lia)). lia.
  - intros r s3 (Hio3 & ->). change (im_disk_inode (referenced im)) with i.
    wp_step. eapply wp_mono; [apply get_time_frame|]. intros now s4 (Hf4 & Hd4 & Hnow).
    assert (cached s4 ino p (referenced im)) as Hca4.
    { eapply cached_io; [exact Hca1|]. eapply io_same_trans; [exact Hio|]. eapply io_same_trans; [exact Hio3|by split]. }
    wp_step. eapply wp_intro; [apply upd_disk_inode_run, Hca4|].
    eapply wp_mono; [apply put_reply_wp, (cached_disk_update s4 ino p (referenced im) (i <| i_atime := now |>) (im_dirty im) Hca4)|].
    + pose proof (icache_ranges_at _ _ _ (ca_wf _ _ _ _ Hca1) Hp1) as (Hd & _). cbn in Hd |- *. destruct_and! Hd.
      by split_and!.
    + apply Hca.
    + intros r s5 [-> (k & Hca5 & _)]. split; [eauto|done].
Qed.
End Reads.

Section Writes.
Context `{E : Env, !Healthy E}.
Implicit Types s : lsfs_context.

(** ** Appending and writing a direct block *)

Lemma wp_all_settled (m : Op Z) s :
  (∃ r s', m s = Some (r, s')) →
  (∀ a, live_addr s a → settled s a → wp m (λ _ s', settled s' a) s) →
  wp m (λ _ s', ∀ a, live_addr s a → settled s a → settled s' a) s.
Proof using Type.
  intros (r & s' & Hrun) H. eapply wp_intro; [exact Hrun|]. intros a Hl Ha. exact (wp_run _ _ _ _ _ (H a Hl Ha) Hrun).
Qed.

Lemma with_inode_twice s p im im' : with_inode p im' (with_inode p im s) = with_inode p im' s.
Proof using Type. unfold with_inode. destruct s as [? ? ? ? [? ? ? ? ?]]. cbn. by rewrite insert_insert_eq. Qed.

(** The cached inode after block [idx] was stored at [a]. *)
Definition direct_stored (im : lsfs_inode_mem) (idx a : Z) : lsfs_inode_mem :=
  im <| im_disk_inode ::= λ d, d <| i_direct := <[Z.to_nat idx := a]> (i_direct d) |>
                                <| i_blocks ::= λ b, Z.max b (u64 (idx + 1)) |> |> <| im_dirty := true |>.

Lemma write_direct_wp s ino p im idx buf :
  let i := im_disk_inode im in
  cached s ino p im → file_wf s i → 0 <= idx < LSFS_DIRECT_BLOCKS → is_block buf →
  0 < st_free_count (c_segtable s) → c_readonly s = false →
  wp (lsfs_inode_write_block p idx buf) (λ r s', r = LSFS_OK ∧ kept 1 s s' ∧ c_readonly s' = false ∧
    (∀ a, live_addr s a → settled s a → settled s' a) ∧
    ∃ a, cached s' ino p (direct_stored im idx a) ∧ live_addr s' a ∧ a ≠ 0 ∧ log_view s' a = buf) s.
Proof using Type*.
  intros i Hca Hw Hidx Hbuf Hfree Hro. pose proof Hca as [Hwf Hp Hino _ _]. pose proof (fs_log s Hwf) as Hs.
  destruct (icache_ranges_at s p im Hwf Hp) as (Hd & Hl & Href). fold i in Hd.
  pose proof (fw_direct s i Hw) as Hlen. unfold LSFS_DIRECT_BLOCKS in Hidx.
  pose proof (file_addr_u64 s i idx Hs Hw ltac:(unfold file_blocks; lia)) as Hu.
  destruct (lookup_lt_is_Some_2 (i_direct i) (Z.to_nat idx)) as [x Hx]; [lia|].
  unfold file_addr, LSFS_DIRECT_BLOCKS in Hu. rewrite (proj2 (Z.ltb_lt _ _)), Hx in Hu by lia.
  cbn [default] in Hu. unfold id in Hu. unfold lsfs_inode_write_block.
  wp_step. eapply wp_intro; [by apply load_inode_run|]. fold i. cbv zeta. unfold LSFS_DIRECT_BLOCKS.
  rewrite !(proj2 (Z.ltb_lt idx 12)) by lia.
  wp_step. eapply wp_of_opt; [apply arr_get_lookup; split; [lia|exact Hx]|].
  wp_step. eapply wp_mono; [by apply mark_if_used_kept|]. intros _ s1 (Hk1 & Hf1 & Hb1 & Hd1).
  pose proof Hk1 as (Hs1 & Hg1 & Hc1).
  assert (block_args buf (i_ino i) (u32 idx) LSFS_BLOCK_TYPE_DATA) as Hargs.
  { split_and!; [done|apply (fw_ino s i Hw)|apply u32_range|unfold is_u8, LSFS_BLOCK_TYPE_DATA; lia]. }
  assert (0 < st_free_count (c_segtable s1)) as Hfree1 by lia.
  wp_step. eapply wp_mono.
  { apply wp_and; [by apply segment_append_kept|apply wp_and].
    - by apply segment_append_nonzero.
    - apply wp_all_settled; [|intros a Hla Hsa; by apply append_settled].
      destruct (wp_elim _ _ _ (segment_append_kept s1 _ _ _ _ Hs1 Hargs Hfree1)) as (a & s' & ? & _). eauto. }
  intros a s2 ((Hs2 & Hf2 & Hg2 & Hc2 & Hnew) & Hz & Hset).
  assert (a ≠ 0) as Ha by (intros Ha; apply (Hz Ha); [done|by rewrite (lf_readonly _ _ Hf1)]). destruct (Hnew Ha) as (_ & Hlive & Hv).
  rewrite (proj2 (Z.eqb_neq _ _) Ha). pose proof (log_frame_trans _ _ _ Hf1 Hf2) as Hf.
  apply wp_if_ok. wp_step. eapply wp_of_opt; [apply arr_set_ok; lia|].
  wp_step. eapply wp_intro; [apply (upd_disk_inode_run s2 p im); by rewrite (lf_icache _ _ Hf)|]. wp_step.
  rewrite decide_True by done. wp_step. eapply wp_intro; [apply upd_inode_run, with_inode_lookup|]. wp_step.
  rewrite with_inode_twice. split_and!; [done| |by rewrite <-Hro; apply Hf| |].
  - apply kept_with_inode. split_and!; [done|by eapply log_grows_trans|lia].
  - intros b Hlb Hsb. apply (Hset b); [by apply Hg1|]. unfold settled. by rewrite Hb1.
  - exists a. split_and!; [|exact Hlive|exact Ha|exact Hv].
    assert (cached s2 ino p im) as Hca2.
    { destruct Hca as [_ _ _ Honly Hcnt]. pose proof (lf_icache _ _ Hf) as Hic.
      split; rewrite ?Hic; try done. by eapply fs_wf_log_frame. }
    apply (cached_update s2 ino p im); [exact Hca2| |exact Hino].
    apply (update_wf s2 p im); [apply Hca2|apply Hca2|done|done| |done|done].
    pose proof (direct_wf i (Z.to_nat idx) a Hd ltac:(apply (live_u64 s2); done)) as Hd'.
    cbn in Hd' |- *. destruct_and! Hd'. split_and!; try assumption.
    pose proof (u64_range (idx + 1)). unfold is_u64 in *. fold i. lia.
Qed.
(** What storing a direct block makes of the file. *)
Lemma direct_stored_file s s' im idx a buf :
  let i := im_disk_inode im in let i' := im_disk_inode (direct_stored im idx a) in
  log_wf s → file_wf s i → log_grows s s' → 0 <= idx < LSFS_DIRECT_BLOCKS →
  live_addr s' a → a ≠ 0 → log_view s' a = buf →
  file_wf s' i' ∧
  (∀ j, 0 <= j < file_blocks → file_block s' i' j = if decide (j = idx) then buf else file_block s i j) ∧
  (∀ j, 0 <= j → j ≠ idx → file_addr s' i' j = file_addr s i j).
Proof using Type.
  intros i i' Hs Hw Hg Hidx Hlive Ha Hv. pose proof (fw_direct s i Hw) as Hlen.
  assert (∀ j, 0 <= j → file_addr s' i' j = if decide (j = idx) then a else file_addr s' i j) as Haddr.
  { intros j Hj. exact (file_addr_direct s' i idx a Hidx Hlen j Hj). }
  destruct (file_updated s s' i i' idx a buf Hs Hw Hg eq_refl) as [Hw' Hb'];
    [by etrans; [apply length_insert|]| |exact Hlive|exact Ha|exact Hv|intros j Hj; apply Haddr; lia|].
  { exact (fw_indirect s' i (file_wf_grows s s' i Hw Hg)). }
  split_and!; [exact Hw'|exact Hb'|]. intros j Hj Hne. rewrite Haddr, decide_False by done.
  by apply file_addr_grows.
Qed.

Lemma lookup_splice {A} (l src : list A) o k :
  (o + length src <= length l)%nat →
  splice l o src !! k = if decide (o <= k < o + length src)%nat then src !! (k - o)%nat else l !! k.
Proof using Type.
  intros Hl. unfold splice. case_decide as Hk.
  - rewrite lookup_app_r by (rewrite length_take; lia). rewrite length_take, Nat.min_l by lia.
    by rewrite lookup_app_l by lia.
  - destruct (decide (k < o)%nat).
    + rewrite lookup_app_l by (rewrite length_take; lia). by rewrite lookup_take_lt by lia.
    + rewrite lookup_app_r by (rewrite length_take; lia). rewrite length_take, Nat.min_l by lia.
      rewrite lookup_app_r by lia. rewrite lookup_drop. f_equal. lia.
Qed.

(** ** The loop of [lsfs_op_write] *)

(** [n] bytes of [buf] have been written at [off]; the blocks that lie behind them are as
    they were and can be read. *)
Record wrote (g : Z → Z) (i0 : lsfs_inode) (ino p off : Z) (buf : list Z) (n : Z) s (im : lsfs_inode_mem) : Prop := {
  wr_cached : cached s ino p im;
  wr_file : file_wf s (im_disk_inode im);
  wr_meta : same_meta i0 (im_disk_inode im);
  wr_bytes k : 0 <= k < file_blocks * LSFS_BLOCK_SIZE →
    file_byte s (im_disk_inode im) k =
      if decide (off <= k < off + n) then default 0 (buf !! Z.to_nat (k - off)) else g k;
  wr_indirect : i_indirect (im_disk_inode im) ≠ 0 → settled s (i_indirect (im_disk_inode im));
  wr_behind j : 0 <= j < file_blocks → n = 0 ∨ off + n <= j * LSFS_BLOCK_SIZE →
    file_addr s (im_disk_inode im) j ≠ 0 → settled s (file_addr s (im_disk_inode im) j);
  wr_readonly : c_readonly s = false }.

Lemma wrote_io g i0 ino p off buf n s s' im :
  wrote g i0 ino p off buf n s im → io_same s s' → wrote g i0 ino p off buf n s' im.
Proof using Type.
  intros [Hca Hw Hm Hby Hi Hbe Hro] Hio. destruct (io_same_file s s' (im_disk_inode im) Hio) as (Ha & Hb & _).
  pose proof (io_same_segbuf _ _ Hio) as Hsb. pose proof (fs_log s (ca_wf _ _ _ _ Hca)) as Hs. split.
  - by eapply cached_io.
  - eapply file_wf_grows; [exact Hw|]. by apply (io_same_kept s s').
  - done.
  - intros k Hk. rewrite Hb. by apply Hby.
  - unfold settled. by rewrite Hsb.
  - intros j. unfold settled. rewrite Ha, Hsb. apply Hbe.
  - by rewrite (proj1 Hio).
Qed.

(** One round: the part of the buffer that belongs to one block. *)
Lemma wrote_round g i0 ino p off buf n m o s s' im a blk :
  let j := (off + n) / LSFS_BLOCK_SIZE in
  wrote g i0 ino p off buf n s im → 0 <= off → 0 <= n → 0 < m → o = (off + n) mod LSFS_BLOCK_SIZE →
  o + m <= LSFS_BLOCK_SIZE → n + m <= Z.of_nat (length buf) → j < LSFS_DIRECT_BLOCKS →
  is_block blk → (m < LSFS_BLOCK_SIZE → blk = file_block s (im_disk_inode im) j) →
  kept 1 s s' → c_readonly s' = false → (∀ a, live_addr s a → settled s a → settled s' a) →
  cached s' ino p (direct_stored im j a) → live_addr s' a → a ≠ 0 →
  log_view s' a = splice blk (Z.to_nat o) (slice (Z.to_nat n) (Z.to_nat m) buf) →
  wrote g i0 ino p off buf (n + m) s' (direct_stored im j a).
Proof using Type.
  intros j [Hca Hw Hm Hby Hi Hbe Hro] Hoff Hn Hmpos Ho Hom Hle Hj Hblk Hold (Hs' & Hg & _) Hro' Hset Hca' Hlive Ha Hv.
  pose proof (fs_log s (ca_wf _ _ _ _ Hca)) as Hs. set (i := im_disk_inode im) in *.
  destruct (next_boundary (off + n)) as [Hpos Hmod]; [lia|]. fold j in Hpos. rewrite <-Ho in *.
  assert (0 <= j) as Hj0 by (apply Z.div_pos; unfold LSFS_BLOCK_SIZE; lia).
  unfold LSFS_DIRECT_BLOCKS in Hj.
  destruct (direct_stored_file s s' im j a _ Hs Hw Hg ltac:(unfold LSFS_DIRECT_BLOCKS; lia) Hlive Ha Hv) as (Hw' & Hb' & Haddr).
  assert (Z.of_nat BS = LSFS_BLOCK_SIZE) as HBS by done. destruct Hblk as [Hbl _].
  assert (length (slice (Z.to_nat n) (Z.to_nat m) buf) = Z.to_nat m) as Hsl by (apply length_slice; lia).
  split; [done|done|done| | | |done].
  - intros k Hk. unfold file_byte at 1. rewrite Hb' by (unfold file_blocks, LSFS_BLOCK_SIZE in *; split; [apply Z.div_pos|apply Z.div_lt_upper_bound]; lia).
    destruct (next_boundary k) as [Hkp Hkm]; [lia|]. case_decide as Hkj.
    + rewrite lookup_splice by (rewrite Hsl, Hbl; lia). rewrite Hsl. case_decide as Hin.
      * rewrite decide_True by lia. rewrite lookup_slice by lia. do 2 f_equal. lia.
      * rewrite (Hold ltac:(lia)), <-Hkj.
        transitivity (file_byte s i k); [reflexivity|]. rewrite Hby by done. repeat case_decide; try done; lia.
    + transitivity (file_byte s i k); [reflexivity|]. rewrite Hby by done.
      repeat case_decide; try done; clear -Hkj Hkp Hkm Hpos Hom Hmod H H0 Hmpos; unfold LSFS_BLOCK_SIZE in *; lia.
  - intros Hne. cbn in Hne |- *. apply Hset; [by apply (fw_indirect s i Hw)|by apply Hi].
  - intros j' Hj' Hbeh. assert (j' ≠ j) as Hne by lia. rewrite Haddr by lia. intros Hnz.
    apply Hset; [by apply (fw_addr s i Hw)|]. apply Hbe; [done| |done]. right. lia.
Qed.
(** The blocks the rest of the transfer touches. *)
Definition blocks_left (off size n : Z) : Z :=
  if n <? size then (off + size + 4095) / LSFS_BLOCK_SIZE - (off + n) / LSFS_BLOCK_SIZE else 0.

Lemma blocks_left_pos off size n : 0 <= blocks_left off size n.
Proof using Type.
  unfold blocks_left. destruct (Z.ltb_spec n size); [|lia].
  pose proof (Z.div_le_mono (off + n) (off + size + 4095) LSFS_BLOCK_SIZE ltac:(done) ltac:(lia)). lia.
Qed.

Lemma blocks_left_next off size n m :
  0 <= off → 0 <= n → n < size → m = Z.min (LSFS_BLOCK_SIZE - (off + n) mod LSFS_BLOCK_SIZE) (size - n) →
  blocks_left off size (n + m) + 1 <= blocks_left off size n ∧
  (n + m < size → (off + (n + m)) mod LSFS_BLOCK_SIZE = 0).
Proof using Type.
  intros Hoff Hn Hlt Hm. destruct (next_boundary (off + n)) as [Hpos Hmod]; [lia|].
  set (j := (off + n) / LSFS_BLOCK_SIZE) in *. set (o := (off + n) mod LSFS_BLOCK_SIZE) in *.
  assert (n + m < size → off + (n + m) = (j + 1) * LSFS_BLOCK_SIZE) as Hb by lia.
  assert (j + 1 <= (off + size + 4095) / LSFS_BLOCK_SIZE) as Hround.
  { apply Z.div_le_lower_bound; unfold LSFS_BLOCK_SIZE in *; lia. }
  unfold blocks_left. rewrite (proj2 (Z.ltb_lt n size) Hlt). fold j. split.
  - destruct (Z.ltb_spec (n + m) size); [|lia]. rewrite Hb, Z.div_mul by done. lia.
  - intros H. by rewrite Hb, Z.mod_mul.
Qed.

Lemma write_loop_wp fuel g i0 ino p off buf n blk s im :
  let size := Z.of_nat (length buf) in
  wrote g i0 ino p off buf n s im → 0 <= off → 0 <= n <= size → off + size <= LSFS_DIRECT_BLOCKS * LSFS_BLOCK_SIZE →
  Forall is_byte buf → is_block blk → (n < size → n = 0 ∨ (off + n) mod LSFS_BLOCK_SIZE = 0) →
  blocks_left off size n < Z.of_nat fuel → blocks_left off size n + 2 <= st_free_count (c_segtable s) →
  wp (write_loop fuel p off buf n blk) (λ r s', r = size ∧ 2 <= st_free_count (c_segtable s') ∧
    ∃ im', wrote g i0 ino p off buf size s' im') s.
Proof using Type*.
  intros size. revert n blk s im. induction fuel as [|fuel IH];
    intros n blk s im Hwr Hoff Hn Hend Hbuf Hblk Hal Hfuel Hfree.
  { pose proof (blocks_left_pos off size n). lia. }
  cbn [write_loop]. fold size. destruct (Z.leb_spec size n) as [Hdone|Hgo].
  { apply wp_ret. assert (n = size) as -> by lia. unfold blocks_left in Hfree. rewrite Z.ltb_irrefl in Hfree.
    split_and!; [done|lia|eauto]. }
  unfold LSFS_DIRECT_BLOCKS in Hend. rewrite u64_small by (unfold LSFS_BLOCK_SIZE in *; lia).
  destruct (next_boundary (off + n)) as [Hpos Hmod]; [lia|].
  destruct (blocks_left_next off size n _ Hoff ltac:(lia) Hgo eq_refl) as [Hleft Halign].
  pose proof (blocks_left_pos off size n) as Hpos0.
  set (j := (off + n) / LSFS_BLOCK_SIZE) in *. set (o := (off + n) mod LSFS_BLOCK_SIZE) in *.
  set (m := Z.min (LSFS_BLOCK_SIZE - o) (size - n)) in *. pose proof (wr_cached _ _ _ _ _ _ _ _ _ Hwr) as Hca.
  assert (0 <= j < LSFS_DIRECT_BLOCKS) as Hj by (unfold LSFS_DIRECT_BLOCKS, LSFS_BLOCK_SIZE in *; lia).
  assert (file_addr s (im_disk_inode im) j ≠ 0 → settled s (file_addr s (im_disk_inode im) j)) as Hset.
  { apply (wr_behind _ _ _ _ _ _ _ _ _ Hwr); [unfold file_blocks, LSFS_DIRECT_BLOCKS in *; lia|].
    destruct (Hal Hgo); [by left|right; lia]. }
  assert (wp (if m <? LSFS_BLOCK_SIZE then r ← lsfs_inode_read_block p j;
              mret (match r with Ok block => block | Err _ => zero_block end) else mret blk)
    (λ b s', io_same s s' ∧ is_block b ∧ (m < LSFS_BLOCK_SIZE → b = file_block s (im_disk_inode im) j)) s) as Hrd.
  { destruct (Z.ltb_spec m LSFS_BLOCK_SIZE); [|apply wp_ret; split_and!; [apply io_same_refl|done|lia]].
    wp_step. eapply wp_mono; [apply (read_flushed_wp s p im)|].
    - apply (fs_log s), Hca.
    - apply Hca.
    - apply Hwr.
    - unfold file_blocks, LSFS_DIRECT_BLOCKS in *. lia.
    - apply Hwr.
    - intros got s' (Hio & ->). apply wp_ret. split_and!; [done| |intros _; by apply flushed_block].
      apply disk_file_block_bytes, (fs_bytes s), Hca. }
  wp_step. eapply wp_mono; [exact Hrd|]. intros b s1 (Hio & Hb & Hold).
  pose proof (wrote_io _ _ _ _ _ _ _ _ _ _ Hwr Hio) as Hwr1. pose proof (wr_cached _ _ _ _ _ _ _ _ _ Hwr1) as Hca1.
  assert (st_free_count (c_segtable s1) = st_free_count (c_segtable s)) as Hfc by by rewrite (proj1 Hio).
  assert (is_block (splice b (Z.to_nat o) (slice (Z.to_nat n) (Z.to_nat m) buf))) as Hnew.
  { assert (Z.of_nat BS = LSFS_BLOCK_SIZE) as HBS by done. apply splice_is_block; [done| |].
    - rewrite length_slice by lia. lia.
    - unfold slice. by apply Forall_take, Forall_drop. }
  wp_step. eapply wp_mono; [apply (write_direct_wp s1 ino p im); [done|apply Hwr1|done|done|lia|apply Hwr1]|].
  intros r s2 (-> & Hk & Hro & Hst & a & Hca2 & Hlive & Ha & Hv). rewrite Z.eqb_refl. cbn [negb].
  assert (m < LSFS_BLOCK_SIZE → b = file_block s1 (im_disk_inode im) j) as Hold1.
  { intros Hm. rewrite (Hold Hm). symmetry. apply file_block_grows; [apply Hwr| |unfold file_blocks, LSFS_DIRECT_BLOCKS in *; lia].
    apply (io_same_kept s s1); [apply (fs_log s), Hca|done]. }
  pose proof (wrote_round g i0 ino p off buf n m o s1 s2 im a b Hwr1 Hoff ltac:(lia) ltac:(lia) eq_refl ltac:(lia)
    ltac:(lia) (proj2 Hj) Hb Hold1 Hk Hro Hst Hca2 Hlive Ha Hv) as Hwr2.
  apply (IH (n + m) _ s2 (direct_stored im j a)); try done; [lia|auto|lia|]. destruct Hk as (_ & _ & Hk). lia.
Qed.
Lemma uninit_is_block junk : is_block (uninit_block junk).
Proof using Type.
  assert (Forall is_byte (u8 <$> junk)) as Hj.
  { apply Forall_fmap, Forall_true. intros x. apply (Z.mod_pos_bound x 256). lia. }
  destruct zero_block_is_block as [Hl Hz]. split.
  - unfold uninit_block. rewrite length_take, length_app, Hl. lia.
  - apply Forall_take, Forall_app. by split.
Qed.

(** Writing an inode out changes nothing else that a file depends on. *)
Lemma inode_write_readonly s p im :
  log_wf s → ic_heap (c_icache s) !! p = Some im → disk_wf (im_disk_inode im) → is_u64 (im_disk_location im) →
  wp (lsfs_inode_write p) (λ _ s', c_readonly s' = c_readonly s) s.
Proof using Type.
  intros Hs Hp Hi Hloc. unfold lsfs_inode_write. wp_step. eapply wp_intro; [by apply load_inode_run|].
  destruct (im_dirty im); cbn [negb]; [|by apply wp_ret]. wp_step. fold (mark_if_used (im_disk_location im)).
  eapply wp_mono; [by apply mark_if_used_kept|]. intros _ s1 (Hk1 & Hf1 & _). wp_step. eapply wp_intro; [done|].
  destruct (over_read_inode (im_disk_inode im) (env_mem (c_tick s1)) Hi) as [Hblk _]. wp_step.
  assert (log_wf (s1 <| c_tick ::= S |>)) as Hs2 by (apply (log_wf_frame s1); [done|apply Hk1]).
  eapply wp_mono; [apply segment_append_done; [exact Hs2|split_and!; [done|apply Hi|done|done]]|].
  intros loc s3 (Hs3 & Hf3 & Hlive & _). pose proof (lf_readonly _ _ Hf1) as H1. pose proof (lf_readonly _ _ Hf3) as H3. cbn in H3.
  destruct (Z.eqb_spec loc 0) as [|Hne]; [apply wp_ret; congruence|]. wp_step.
  eapply wp_mono; [apply imap_set_wp; [done|apply Hi|by apply (live_u64 s3), Hlive]|].
  intros r s4 (Hs4 & Hf4 & _). assert (c_icache s4 = c_icache s) as Hic.
  { rewrite Hf4. cbn. rewrite (lf_icache _ _ Hf3). apply (lf_icache _ _ Hf1). }
  wp_step. eapply wp_intro; [apply upd_inode_run; by rewrite Hic|]. apply wp_ret. rewrite Hf4. cbn. congruence.
Qed.

(** A file: its cached inode, its bytes and its size. *)
Record file_is s ino p (im : lsfs_inode_mem) (g : Z → Z) (size : Z) : Prop := {
  fi_cached : cached s ino p im;
  fi_wf : file_wf s (im_disk_inode im);
  fi_size : i_size (im_disk_inode im) = size;
  fi_bytes k : 0 <= k < file_blocks * LSFS_BLOCK_SIZE → file_byte s (im_disk_inode im) k = g k }.

(** Only the log grew, and the inode may have changed elsewhere. *)
Lemma file_is_grows s s' ino p im im' g size :
  file_is s ino p im g size → cached s' ino p im' → log_grows s s' →
  i_direct (im_disk_inode im') = i_direct (im_disk_inode im) →
  i_indirect (im_disk_inode im') = i_indirect (im_disk_inode im) →
  file_is s' ino p im' g (i_size (im_disk_inode im')).
Proof using Type.
  intros [Hca Hw Hsz Hby] Hca' Hg Hdir Hind. pose proof (file_wf_grows s s' _ Hw Hg) as Hw'.
  set (i := im_disk_inode im) in *. set (i' := im_disk_inode im') in *.
  assert (∀ j, file_addr s' i' j = file_addr s' i j) as Ha.
  { intros j. unfold file_addr. by rewrite Hdir, Hind. }
  assert (i_ino i' = i_ino i) as Hino.
  { etrans; [exact (ca_ino _ _ _ _ Hca')|symmetry; exact (ca_ino _ _ _ _ Hca)]. }
  split; [done| |done|].
  - destruct Hw' as [H1 H2 H3 H4]. fold i'. split; [by rewrite Hino|by rewrite Hdir|by rewrite Hind|].
    intros idx. rewrite Ha. apply H4.
  - intros k Hk. rewrite <-(Hby k Hk). fold i'. unfold file_byte, file_block. rewrite Ha.
    change ((default 0 (file_block s' i (k / LSFS_BLOCK_SIZE) !! Z.to_nat (k mod LSFS_BLOCK_SIZE))) =
            default 0 (file_block s i (k / LSFS_BLOCK_SIZE) !! Z.to_nat (k mod LSFS_BLOCK_SIZE))).
    rewrite (file_block_grows s s'); [done..|]. unfold LSFS_BLOCK_SIZE in *.
    split; [apply Z.div_pos|apply Z.div_lt_upper_bound]; lia.
Qed.

(** The bytes of a file after [buf] was written at [off]. *)
Definition updated (g : Z → Z) (off : Z) (buf : list Z) (k : Z) : Z :=
  if decide (off <= k < off + Z.of_nat (length buf)) then default 0 (buf !! Z.to_nat (k - off)) else g k.

(** ** [lsfs_op_write] *)

(** Writing a cached inode out. *)
Lemma write_out_wp s ino p im :
  cached s ino p im → im_dirty im = true → 0 < st_free_count (c_segtable s) →
  wp (lsfs_inode_write p) (λ _ s', kept 1 s s' ∧ c_readonly s' = c_readonly s ∧
    ∃ im', cached s' ino p im' ∧ im_disk_inode im' = im_disk_inode im ∧
      c_icache s' = c_icache s <| ic_heap ::= <[p := im']> |>) s.
Proof using Type.
  intros [Hs Hp Hino Honly Hcnt] Hdirty Hfree. destruct (icache_ranges_at s p im Hs Hp) as (Hd & Hl & Hr).
  eapply wp_mono.
  { apply wp_and; [by apply (inode_write_wf s p im)|apply wp_and].
    - apply (inode_write_wp s p im); [apply Hs|done..].
    - apply (inode_write_readonly s p im); [apply Hs|done..]. }
  intros r s' ((Hs' & _ & Hic) & (_ & Hk & _) & Hro). split_and!; [auto|done|].
  destruct Hic as [Hic|(loc & _ & Hic)].
  - exists im. split_and!; [by split; rewrite ?Hic|done|]. rewrite Hic. symmetry.
    destruct (c_icache s) as [h ? ? ? ?]. cbn in *. by rewrite insert_id.
  - exists (written im loc). split_and!; [|done|exact Hic]. split; rewrite ?Hic; try done; [apply lookup_insert_eq|].
    intros q iq. cbn. destruct (decide (q = p)) as [->|Hne]; [done|]. rewrite lookup_insert_ne by done. apply Honly.
Qed.

(** The handler once the data is in the log. *)
Lemma op_write_tail s ino p im g size0 end_pos r :
  file_is s ino p im g size0 → c_readonly s = false → 2 <= st_free_count (c_segtable s) → is_u64 end_pos →
  wp (_ ← upd_disk_inode p (λ d, if i_size d <? end_pos then d <| i_size := end_pos |> else d);
      now ← lsfs_get_time_ns;
      _ ← upd_inode p (λ i, i <| im_disk_inode ::= λ d, d <| i_mtime := now |> <| i_ctime := now |> |>
                              <| im_dirty := true |>);
      _ ← lsfs_inode_write p;
      put_reply [p] r)
    (λ r' s', r' = r ∧ 1 <= st_free_count (c_segtable s') ∧ c_readonly s' = false ∧
       ∃ im', file_is s' ino p im' g (Z.max size0 end_pos)) s.
Proof using Type.
  intros Hfi Hro Hfree Hend. pose proof Hfi as [Hca Hw Hsz _].
  pose proof (icache_ranges_at s p im (ca_wf _ _ _ _ Hca) (ca_at _ _ _ _ Hca)) as (Hd & _).
  set (i := im_disk_inode im) in *. wp_step. eapply wp_intro; [apply upd_disk_inode_run, Hca|]. wp_step.
  set (i1 := if i_size i <? end_pos then i <| i_size := end_pos |> else i).
  assert (disk_wf i1 ∧ i_ino i1 = i_ino i ∧ i_direct i1 = i_direct i ∧ i_indirect i1 = i_indirect i ∧
    i_size i1 = Z.max size0 end_pos) as (Hd1 & Hino1 & Hdir1 & Hind1 & Hsz1).
  { unfold i1. destruct (Z.ltb_spec (i_size i) end_pos); [|split_and!; try done; lia].
    split_and!; try done; [|cbn; lia]. cbn in Hd |- *. destruct_and! Hd. by split_and!. }
  pose proof (cached_disk_update s ino p im i1 (im_dirty im) Hca Hd1 ltac:(rewrite Hino1; apply Hca)) as Hca1.
  set (im1 := im <| im_disk_inode := i1 |> <| im_dirty := im_dirty im |>) in *.
  change (with_inode p (im <| im_disk_inode ::= _ |>) s) with (with_inode p im1 s).
  set (s1 := with_inode p im1 s) in *. eapply wp_mono; [apply get_time_frame|]. intros now s2 (Hf2 & Hd2 & Hnow).
  assert (io_same s1 s2) as Hio by by split. pose proof (cached_io _ _ _ _ _ Hca1 Hio) as Hca2.
  wp_step. eapply wp_intro; [apply upd_inode_run, Hca2|]. wp_step.
  assert (disk_wf (i1 <| i_mtime := now |> <| i_ctime := now |>)) as Hd3.
  { cbn in Hd1 |- *. destruct_and! Hd1. by split_and!. }
  pose proof (cached_disk_update s2 ino p im1 _ true Hca2 Hd3 ltac:(cbn; rewrite Hino1; apply Hca)) as Hca3.
  set (im3 := im1 <| im_disk_inode := _ |> <| im_dirty := true |>) in *.
  change (with_inode p (im1 <| im_disk_inode ::= _ |> <| im_dirty := true |>) s2) with (with_inode p im3 s2).
  assert (kept 0 s (with_inode p im3 s2)) as Hk3.
  { apply kept_with_inode, (io_same_kept s1 s2); [apply (fs_log s1), Hca1|exact Hio]. }
  eapply wp_mono; [apply (write_out_wp _ ino p im3 Hca3)|]; [done|destruct Hk3 as (_ & _ & ?); lia|].
  intros _ s4 (Hk4 & Hro4 & im4 & Hca4 & Hi4 & _). eapply wp_mono; [by apply put_reply_wp|].
  intros r' s5 (-> & n & Hca5 & ->). destruct (kept_trans 0 1 _ _ _ Hk3 Hk4) as (_ & Hg & Hc).
  split_and!; [done|cbn; lia|cbn; rewrite Hro4; cbn; by rewrite Hf2|].
  eexists. rewrite <-Hsz1. replace (i_size i1) with (i_size (im_disk_inode (im4 <| im_refcount := n |>))) by (cbn; by rewrite Hi4).
  eapply (file_is_grows s); [exact Hfi|exact Hca5|exact Hg| |]; cbn; rewrite Hi4; cbn; done.
Qed.

Lemma op_write_wp s ino p im off buf :
  let i := im_disk_inode im in let size := Z.of_nat (length buf) in
  cached s ino p im → file_flushed s i → c_readonly s = false →
  0 <= off → off + size <= LSFS_DIRECT_BLOCKS * LSFS_BLOCK_SIZE → Forall is_byte buf →
  blocks_left off size 0 + 2 <= st_free_count (c_segtable s) →
  wp (lsfs_op_write ino buf off) (λ r s', r = reply_write size ∧
    1 <= st_free_count (c_segtable s') ∧ c_readonly s' = false ∧
    ∃ im', file_is s' ino p im' (updated (file_byte s i) off buf) (Z.max (i_size i) (off + size))) s.
Proof using Type*.
  intros i size Hca Hfl Hro Hoff Hend Hbuf Hfree. assert (0 <= size) as Hs0 by lia. unfold lsfs_op_write. wp_step.
  eapply wp_mono; [by apply get_cached_wp|]. intros r s1 (-> & Hca1 & c & ->).
  wp_step. eapply wp_intro; [done|]. wp_step. set (s2 := with_cache c s <| c_tick ::= S |>).
  assert (wrote (file_byte s i) i ino p off buf 0 s2 (referenced im)) as Hwr.
  { eapply (wrote_io _ _ _ _ _ _ _ (with_cache c s)); [|by split]. destruct Hfl as [[? ? ? ?] Hfi Hfa].
    split; [exact Hca1|by split|done| |exact Hfi|intros j Hj _; exact (Hfa j Hj)|exact Hro].
    intros k Hk. by rewrite decide_False by lia. }
  eapply wp_mono; [apply (write_loop_wp _ (file_byte s i) i ino p off buf 0 _ s2 (referenced im) Hwr Hoff)|].
  - lia.
  - done.
  - done.
  - apply uninit_is_block.
  - by left.
  - unfold transfer_fuel, blocks_left. fold size. pose proof (Z.div_pos size LSFS_BLOCK_SIZE Hs0 ltac:(done)) as Hdiv.
    destruct (Z.ltb_spec 0 size) as [Hpos|]; [|lia].
    rewrite Z.add_0_r, Z2Nat.id by lia. unfold LSFS_BLOCK_SIZE.
    pose proof (Z.div_mod size 4096 ltac:(lia)). pose proof (Z.mod_pos_bound size 4096 ltac:(lia)).
    pose proof (Z.div_mod off 4096 ltac:(lia)). pose proof (Z.mod_pos_bound off 4096 ltac:(lia)).
    pose proof (Z.div_mod (off + size + 4095) 4096 ltac:(lia)). pose proof (Z.mod_pos_bound (off + size + 4095) 4096 ltac:(lia)). lia.
  - exact Hfree.
  - fold size. intros n s3 (-> & Hfree3 & im3 & [Hca3 Hw3 (Hino3 & Hmode3 & Hsz3 & _) Hby3 _ _ Hro3]).
    assert (file_is s3 ino p im3 (updated (file_byte s i) off buf) (i_size i)) as Hfi3 by by split.
    unfold LSFS_DIRECT_BLOCKS, LSFS_BLOCK_SIZE in Hend. rewrite u64_small by lia.
    eapply op_write_tail; [exact Hfi3|exact Hro3|exact Hfree3|unfold is_u64; lia].
Qed.
(** ** [lsfs_op_fsync] *)

(** Every block that was in the log is on disk. *)
Lemma fsync_wp s :
  fs_wf s → c_readonly s = false → 0 < st_free_count (c_segtable s) →
  wp lsfs_op_fsync (λ r s', r = reply_err 0 ∧ fs_wf s' ∧ c_icache s' = c_icache s ∧ log_grows s s' ∧
    ∀ a, live_addr s a → settled s' a) s.
Proof using Type*.
  intros Hwf Hro Hfree. pose proof (fs_log s Hwf) as Hs. unfold lsfs_op_fsync. wp_step.
  destruct (wp_elim _ _ _ (segment_flush_kept s Hs Hfree)) as (r & s1 & Hrun & Hs1 & Hf1 & Hg1 & Hc1 & _).
  pose proof (wp_run _ _ _ _ _ (segment_flush_ok s _ Hs Hro) Hrun) as Hok.
  eapply wp_intro; [exact Hrun|]. wp_step. eapply wp_intro; [apply sync_ok|]. apply wp_ret.
  set (s2 := _ <| c_trace ::= _ |>). assert (io_same s1 s2) as Hio by by split.
  split_and!; [done| |apply (lf_icache _ _ Hf1)| |].
  - apply (fs_wf_io s1); [by eapply fs_wf_log_frame|done..].
  - eapply log_grows_trans; [exact Hg1|]. by apply (io_same_kept s1 s2).
  - intros a Ha. exact (wp_run _ _ _ _ _ (flush_settled s a Hs Hfree Ha) Hrun (or_intror Hok)).
Qed.

Lemma cached_same s s' ino p im : cached s ino p im → fs_wf s' → c_icache s' = c_icache s → cached s' ino p im.
Proof using Type. intros [_ Hp Hino Ho Hc] Hs Hic. by split; rewrite ?Hic. Qed.

Lemma op_fsync_wp s ino p im g size :
  file_is s ino p im g size → c_readonly s = false → 0 < st_free_count (c_segtable s) →
  wp lsfs_op_fsync (λ r s', r = reply_err 0 ∧ file_is s' ino p im g size ∧ file_flushed s' (im_disk_inode im)) s.
Proof using Type*.
  intros Hfi Hro Hfree. pose proof Hfi as [Hca Hw Hsz Hby].
  eapply wp_mono; [by apply fsync_wp; [apply Hca|..]|]. intros r s2 (-> & Hs2 & Hic & Hg & Hset). split_and!; [done|..].
  - rewrite <-Hsz. eapply file_is_grows; [exact Hfi|by eapply cached_same|exact Hg|done|done].
  - split; [by eapply file_wf_grows|intros Hne; by apply Hset, (fw_indirect s _ Hw)|].
    intros idx Hidx. rewrite (file_addr_grows s s2) by done. intros Hne. by apply Hset, (fw_addr s _ Hw).
Qed.
End Writes.

(** * Theorems *)

(** C7. What is written is read: on a machine without failures, for a file that is in the
    inode cache and whose blocks have reached the disk, writing [buf] at an offset within
    the twelve direct blocks reports all of it written, and after an [fsync] every read
    returns the bytes of [buf] where they were written and the bytes the file had
    elsewhere, up to the new size of the file.  The loops of both handlers end. *)
Theorem fuse_write_fsync_read `{E : Env, !Healthy E} s ino p im off buf :
  let i := im_disk_inode im in let size := Z.of_nat (length buf) in
  cached s ino p im → file_flushed s i → c_readonly s = false →
  i_size i <= file_blocks * LSFS_BLOCK_SIZE → Forall is_byte buf →
  0 <= off → off + size <= LSFS_DIRECT_BLOCKS * LSFS_BLOCK_SIZE →
  blocks_left off size 0 + 2 <= st_free_count (c_segtable s) →
  wp (lsfs_op_write ino buf off) (λ r1 s1, r1 = reply_write size ∧
    wp lsfs_op_fsync (λ r2 s2, r2 = reply_err 0 ∧
      ∀ off' size', 0 <= off' → 0 <= size' → off' + size' < 2 ^ 64 →
        wp (lsfs_op_read ino size' off') (λ r3 _,
          r3 = reply_buf (updated (file_byte s i) off buf <$>
                 seqZ off' (Z.min size' (Z.max (i_size i) (off + size) - off')))) s2) s1) s.
Proof.
  intros i size Hca Hfl Hro Hsz Hbuf Hoff Hend Hfree. eapply wp_mono; [by apply op_write_wp|].
  intros r1 s1 (-> & Hfree1 & Hro1 & im1 & Hfi1). split; [done|].
  eapply wp_mono; [apply (op_fsync_wp s1 ino p im1 _ _ Hfi1 Hro1); lia|].
  intros r2 s2 (-> & [Hca2 Hw2 Hsz2 Hby2] & Hfl2). split; [done|]. intros off' size' Hoff' Hsize' Hend'.
  unfold i, size, file_blocks, LSFS_DIRECT_BLOCKS, LSFS_BLOCK_SIZE in *.
  eapply wp_mono; [apply (op_read_wp s2 ino p im1 size' off' Hca2 Hfl2); [|done..]|].
  - rewrite Hsz2. unfold file_blocks, LSFS_BLOCK_SIZE. lia.
  - intros r3 s3 [_ ->]. f_equal. rewrite Hsz2. apply list_fmap_ext. intros k x Hx. apply Hby2.
    apply lookup_seqZ in Hx. lia.
Qed.
