(* ===== verification/NameView.v ===== *)
(** The name space through the handlers: a file that is created is found under its name
    after an [fsync], with the attributes that the call that created it replied. *)
From S2P Require Import Prelude OnDisk Lru Context Io Imap SegTable Log LogView Inode.
From S2P Require Import FileView InodeDisk InodeCache Directory DirBlock DirView GcClean Fuse FuseView.

Section Names.
Context `{E : Env, !Healthy E}.
Implicit Types s : lsfs_context.

(** * States that differ in the cache, or in one inode *)

Lemma dir_ready_same s s' p im im' bs :
  dir_ready s p im bs → same_log s s' → log_wf s' → ic_heap (c_icache s') !! p = Some im' →
  im_disk_inode im' = im_disk_inode im → dir_ready s' p im' bs.
Proof using Type.
  intros [_ _ Hw Hset Hr] (Hd & Hb & Ht & _) Hs Hp Hi.
  assert (log_grows s s') as Hg by (apply log_grows_same; by rewrite ?Ht).
  split; [done|done|rewrite Hi; by eapply file_wf_grows| |rewrite Hi; by eapply dir_repr_grows].
  rewrite Hi. unfold file_settled, settled. rewrite Hb. destruct Hset as [Hset Hall]. split; [done|].
  intros j Hj. rewrite (file_addr_grows s s') by done. by apply Hall.
Qed.

Lemma edits_wf p s s' : fs_wf s → log_wf s' → edits p s s' → fs_wf s'.
Proof using Type.
  intros Hs Hl [Hsz Him _ Hb Hc]. destruct (fs_imap s Hs) as [Ha Hfr].
  assert (imap_ok s') as Hok.
  { split; [|by rewrite Him]. intros ino loc ver. rewrite Him. unfold in_disk. rewrite Hsz. apply Ha. }
  destruct Hc as [Hc|(im & im' & Hp & (Heq & Hino & Hd) & Hc)].
  - split; [done|rewrite Hc; apply Hs| |done|by apply Hb, Hs]. intros q iq. rewrite Hc, Him. apply Hs.
  - destruct (icache_ranges_at s p im Hs Hp) as (Hdw & Hl0 & Hcn).
    assert (fs_wf (with_inode p im' s)) as [_ Hwf Hi _ _].
    { apply (update_wf s p im); [done|done|by rewrite Heq|done|by apply Hd|by rewrite Heq|].
      split; rewrite Heq; apply Hcn. }
    split; [done|by rewrite Hc| |done|by apply Hb, Hs]. intros q iq. rewrite Hc, Him. apply Hi.
Qed.

(** Another inode changed. *)
Lemma cached_other s s' ino p im q iq iq' :
  cached s ino p im → fs_wf s' → ic_heap (c_icache s) !! q = Some iq → q ≠ p →
  i_ino (im_disk_inode iq') = i_ino (im_disk_inode iq) →
  ic_heap (c_icache s') = <[q := iq']> (ic_heap (c_icache s)) → ic_count (c_icache s') = ic_count (c_icache s) →
  cached s' ino p im.
Proof using Type.
  intros [_ Hp Hino Ho Hc] Hs Hq Hne Hiq Hic Hcn. split; rewrite ?Hic, ?Hcn; try done.
  - by rewrite lookup_insert_ne.
  - intros x ix. destruct (decide (x = q)) as [->|Hx].
    + rewrite lookup_insert_eq. intros [= <-] Hi. apply (Ho q iq); [done|congruence].
    + rewrite lookup_insert_ne by done. apply Ho.
Qed.

Lemma edits_cached s s' ino p im :
  cached s ino p im → log_wf s' → edits p s s' →
  ∃ im', cached s' ino p im' ∧ edited im im'.
Proof using Type.
  intros Hca Hl Hed. pose proof Hca as [Hs Hp Hino Ho Hc]. pose proof (edits_wf p s s' Hs Hl Hed) as Hs'.
  destruct (edits_at p s s' im Hed Hp) as (im' & Hp' & He). exists im'. split; [|done].
  split; [done|done|by rewrite (proj1 (proj2 He))| |].
  - intros q iq Hq Hi. destruct (decide (q = p)) as [->|Hne]; [done|].
    rewrite (edits_others p s s' q Hed Hne) in Hq. by eapply Ho.
  - destruct (ed_cache _ _ _ Hed) as [-> |(? & ? & _ & _ & ->)]; done.
Qed.

Lemma edits_cached_other s s' ino p im q iq :
  cached s ino p im → log_wf s' → edits q s s' → ic_heap (c_icache s) !! q = Some iq → q ≠ p → cached s' ino p im.
Proof using Type.
  intros Hca Hl Hed Hq Hne. pose proof (edits_wf q s s' (ca_wf _ _ _ _ Hca) Hl Hed) as Hs'.
  destruct (ed_cache _ _ _ Hed) as [Hc|(im1 & im' & H1 & He & Hc)].
  - destruct Hca as [_ Hp Hino Ho Hcn]. by split; rewrite ?Hc.
  - rewrite Hq in H1. injection H1 as <-. apply (cached_other s s' ino p im q iq im'); rewrite ?Hc; try done. apply He.
Qed.

(** * Steps of the handlers *)

(** Creating an inode when the cache has room and a number was never given out. *)
Lemma alloc_room_wp s mode :
  let q := ic_brk (c_icache s) in
  fs_wf s → is_u32 mode → ic_count (c_icache s) < LSFS_INODE_CACHE_SIZE →
  imap_next_ino (c_imap s) < LSFS_MAX_INODES →
  wp (lsfs_inode_alloc mode) (λ r s', r = Some q ∧ fs_wf s' ∧ same_log s s' ∧
    ic_heap (c_icache s) !! q = None ∧ ic_count (c_icache s') = ic_count (c_icache s) + 1 ∧
    ∃ iq, ic_heap (c_icache s') = <[q := iq]> (ic_heap (c_icache s)) ∧ im_dirty iq = true ∧
      i_ino (im_disk_inode iq) = imap_next_ino (c_imap s)) s.
Proof using Type*.
  intros q Hs Hmode Hroom Hnext. assert (ic_count (c_icache s) < 1024) as Hsmall by exact Hroom.
  destruct (wp_elim _ _ _ (imap_alloc_ino_wp s Hs)) as (ino & s1 & Hrun & Hs1 & Hst1 & Hc1 & Hlt & Hino).
  unfold lsfs_inode_alloc. wp_step. eapply wp_intro; [exact Hrun|].
  assert (ino = imap_next_ino (c_imap s) ∧ same_log s s1) as [-> Hsl1].
  { unfold lsfs_imap_alloc_ino, imap_alloc_ino in Hrun. erewrite bind_run in Hrun by done.
    rewrite (proj2 (Z.leb_gt _ _) Hnext) in Hrun. injection Hrun as <- <-. done. }
  pose proof (proj1 (proj2 (fs_imap s Hs))) as Hn. unfold LSFS_ROOT_INO in Hn.
  rewrite (proj2 (Z.eqb_neq _ 0)) by lia. destruct (Hino ltac:(lia)) as [Hrng Hfree].
  assert (inode_cache_evict s1 = Some (tt, s1)) as Hev.
  { unfold inode_cache_evict. erewrite bind_run by done. cbn [inode_cache_evict_loop]. unfold mbind, M_bind, gets.
    by rewrite Hc1, (proj2 (Z.ltb_lt _ _) Hroom). }
  wp_step. eapply wp_intro; [exact Hev|]. wp_step. eapply wp_intro; [done|]. rewrite healthy_alloc. cbn [negb].
  assert (fs_wf (ticked s1)) as Hs2 by by apply (fs_wf_io s1).
  apply alloc_insert_wp; [done|done|done|exact Hlt|cbn; rewrite Hc1; lia|].
  intros s3 now gen first Hs3 _ Hsl Hc3. destruct (fs_cache s Hs) as [(ch & l & Hr) _].
  cbn [ticked field_set c_icache] in *. rewrite Hc1 in *. split_and!; [done|done| | | |].
  - destruct Hsl1 as (? & ? & ? & ?), Hsl as (? & ? & ? & ?). split_and!; cbn in *; congruence.
  - apply eq_None_not_Some. intros Hq. pose proof (cr_brk _ _ _ Hr _ Hq). unfold q in *. lia.
  - rewrite Hc3. cbn. pose proof (cr_count _ _ _ Hr). apply u32_small. lia.
  - rewrite Hc3. by eexists.
Qed.

(** Writing one of two cached inodes out. *)
Lemma write_out_other s ino q iq parent p im :
  cached s ino q iq → im_dirty iq = true → cached s parent p im → q ≠ p → 0 < st_free_count (c_segtable s) →
  wp (lsfs_inode_write q) (λ _ s', kept 1 s s' ∧ c_readonly s' = c_readonly s ∧ cached s' parent p im ∧
    ∃ iq', cached s' ino q iq' ∧ im_disk_inode iq' = im_disk_inode iq) s.
Proof using Type.
  intros Hq Hd Hp Hne Hfree. eapply wp_mono; [by apply (write_out_wp s ino q iq)|].
  intros _ s' (Hk & Hro & iq' & Hq' & Hi & Hc). split_and!; [done..| |by exists iq'].
  apply (cached_other s s' parent p im q iq iq'); rewrite ?Hc; try done; [apply Hq'|apply Hq|by rewrite Hi].
Qed.

(** Giving one of two references back. *)
Lemma put_other s ino q iq parent p im :
  cached s ino q iq → cached s parent p im → q ≠ p →
  wp (lsfs_inode_put (Some q)) (λ _ s', same_log s s' ∧ c_imap s' = c_imap s ∧ cached s' parent p im ∧
    ∃ iq', cached s' ino q iq' ∧ im_disk_inode iq' = im_disk_inode iq) s.
Proof using Type.
  intros Hq Hp Hne. eapply wp_mono; [apply inode_put_wp; apply Hq|]. intros [] s' [Hs' ->]. split_and!; [done..| |].
  - eapply (cached_other s _ parent p im q iq); [done|done|apply Hq|done| |reflexivity|done]. done.
  - eexists. split; [by eapply cached_update; [..|apply Hq]|done].
Qed.

(** Looking one of two cached inodes up. *)
Lemma get_other s ino q iq parent p im :
  cached s ino q iq → cached s parent p im → q ≠ p →
  wp (lsfs_inode_get ino) (λ r s', r = Some q ∧ same_log s s' ∧ cached s' ino q (referenced iq) ∧
    cached s' parent p im) s.
Proof using Type.
  intros Hq Hp Hne. eapply wp_mono; [by apply (inode_get_cached_wp s ino q iq)|].
  intros r s' (-> & Hq' & c & -> & Hh & Hc). split_and!; [done..|].
  by apply (cached_other s _ parent p im q iq (referenced iq)); [done|apply Hq'|apply Hq|..].
Qed.

(** The first steps of the handlers on a directory: its inode, and the search for a name. *)
Lemma get_dir_wp s parent p im bs :
  cached s parent p im → dir_ready s p im bs →
  wp (get_inode parent) (λ r s', r = Some p ∧ same_log s s' ∧ c_imap s' = c_imap s ∧
    cached s' parent p (referenced im) ∧ dir_ready s' p (referenced im) bs ∧
    ic_heap (c_icache s') = <[p := referenced im]> (ic_heap (c_icache s)) ∧
    ic_count (c_icache s') = ic_count (c_icache s)) s.
Proof using Type.
  intros Hp Hr. rewrite (get_inode_cached s parent p im Hp). eapply wp_mono; [by apply inode_get_cached_wp|].
  intros r s' (-> & Hp' & c & -> & Hh & Hc). split_and!; [done..| |done|done].
  eapply dir_ready_same; [exact Hr|done|apply Hp'|apply Hp'|done].
Qed.

Lemma find_name_wp s p im bs name :
  dir_ready s p im bs → Z.of_nat (length name) <= LSFS_NAME_MAX →
  wp (lsfs_dir_lookup p name) (λ r s', io_same s s' ∧
    r = match dir_map bs !! name with Some e => Ok e | None => Err LSFS_ERR_NOENT end) s.
Proof using Type*.
  intros Hr Hn. eapply wp_mono; [by apply (dir_lookup_wp s p im bs)|]. intros r s' [Hio [[_ Hh]| ->]]; [by destruct Hh|done].
Qed.

(** What a reply says of an inode. *)
Definition entry_param (i : lsfs_inode) : fuse_entry_param :=
  mk_entry_param (i_ino i) (i_generation i) (lsfs_inode_to_stat i) 1 1.

Lemma op_lookup_found s parent p im bs name ino ty q iq :
  cached s parent p im → dir_ready s p im bs → Z.of_nat (length name) <= LSFS_NAME_MAX →
  cached s ino q iq → q ≠ p → dir_map bs !! name = Some (ino, ty) →
  wp (lsfs_op_lookup parent name) (λ r _, r = reply_entry (entry_param (im_disk_inode iq))) s.
Proof using Type*.
  intros Hp Hr Hn Hq Hne Hname. unfold lsfs_op_lookup. wp_step.
  eapply wp_mono; [by apply (get_dir_wp s parent p im bs)|].
  intros r s1 (-> & _ & _ & Hp1 & Hr1 & Hh1 & Hc1).
  assert (cached s1 ino q iq) as Hq1.
  { apply (cached_other s s1 ino q iq p im (referenced im)); try done; [apply Hp1|apply Hp]. }
  wp_step. eapply wp_mono; [by apply (find_name_wp s1 p (referenced im) bs)|]. intros r s2 [Hio ->]. rewrite Hname.
  wp_step. eapply wp_mono; [apply (put_other s2 parent p (referenced im) ino q iq); [by eapply cached_io..|done]|].
  intros [] s3 (_ & _ & Hq3 & im3 & Hp3 & _). wp_step. eapply wp_mono; [by apply (get_other s3 ino q iq parent p im3)|].
  intros r s4 (-> & _ & Hq4 & _). cbv beta iota. wp_step. eapply wp_intro; [apply load_inode_run, Hq4|].
  eapply wp_mono; [by apply put_reply_wp|]. intros r s5 (-> & _). unfold entry_param.
  by rewrite (ca_ino _ _ _ _ Hq).
Qed.

(** * Creating a file *)

Lemma file_mode_u32 mode : is_u32 (Z.lor S_IFREG (Z.land mode 511)).
Proof using Type.
  change 511 with (Z.ones 9). rewrite Z.land_ones by lia. pose proof (Z.mod_pos_bound mode (2 ^ 9) ltac:(lia)).
  set (m := mode mod 2 ^ 9) in *. assert (0 <= Z.lor S_IFREG m) as Hpos by (apply Z.lor_nonneg; unfold S_IFREG; lia).
  split; [done|]. apply (Z.lt_le_trans _ (2 ^ 16)); [|lia].
  destruct (Z.eq_dec (Z.lor S_IFREG m) 0) as [->|]; [lia|]. apply Z.log2_lt_pow2; [lia|].
  rewrite Z.log2_lor by (unfold S_IFREG; lia). apply Z.max_lub_lt; [done|].
  destruct (Z.eq_dec m 0) as [->|]; [done|]. apply (Z.lt_trans _ 9); [|lia]. apply Z.log2_lt_pow2; lia.
Qed.

(** The directory and the new inode, both cached. *)
Record pair_cached s (parent p : Z) (im : lsfs_inode_mem) (ino q : Z) (iq : lsfs_inode_mem) : Prop := {
  pc_dir : cached s parent p im;
  pc_new : cached s ino q iq;
  pc_ne : q ≠ p }.

(** Creating the inode while the directory is in use. *)
Lemma alloc_child_wp s mode parent p im bs :
  cached s parent p im → dir_ready s p im bs → is_u32 mode →
  ic_count (c_icache s) < LSFS_INODE_CACHE_SIZE → imap_next_ino (c_imap s) < LSFS_MAX_INODES →
  wp (lsfs_inode_alloc mode) (λ r s', ∃ q iq, r = Some q ∧ same_log s s' ∧ dir_ready s' p im bs ∧
    im_dirty iq = true ∧ pair_cached s' parent p im (imap_next_ino (c_imap s)) q iq) s.
Proof using Type*.
  intros Hp Hr Hmode Hroom Hnext. pose proof (ca_wf _ _ _ _ Hp) as Hs. pose proof (ca_at _ _ _ _ Hp) as Hat.
  eapply wp_mono; [by apply alloc_room_wp|].
  intros r s' (-> & Hs' & Hsl & Hfree & Hcn & iq & Hh & Hd & Hino). set (q := ic_brk (c_icache s)) in *.
  assert (q ≠ p) as Hne by (intros ->; congruence). exists q, iq.
  assert (ic_count (c_icache s') + 1 < 2 ^ 31) as Hsm by (rewrite Hcn; unfold LSFS_INODE_CACHE_SIZE in Hroom; lia).
  assert (ic_heap (c_icache s') !! p = Some im) as Hat' by (by rewrite Hh, lookup_insert_ne).
  split_and!; [done|done|eapply dir_ready_same; [exact Hr|done|apply Hs'|done|done]|done|].
  split; [split|split|done]; try done.
  - apply Hp.
  - intros x ix. rewrite Hh. destruct (decide (x = q)) as [->|Hx].
    + rewrite lookup_insert_eq. intros [= <-] Hi. pose proof (fs_inos s Hs p im Hat) as Hlt.
      rewrite (ca_ino _ _ _ _ Hp) in Hlt. lia.
    + rewrite lookup_insert_ne by done. apply Hp.
  - rewrite Hh. apply lookup_insert_eq.
  - intros x ix. rewrite Hh. destruct (decide (x = q)) as [->|Hx]; [done|]. rewrite lookup_insert_ne by done.
    intros Hix Hi. pose proof (fs_inos s Hs x ix Hix). lia.
Qed.

(** The directory holds [bs], and the file [iq] under [ino]; both are cached. *)
Record created s (parent p : Z) (bs : list (list drec)) (ino q : Z) (i : lsfs_inode) : Prop := {
  cr_pair : ∃ im iq, pair_cached s parent p im ino q iq ∧ im_disk_inode iq = i ∧
    file_wf s (im_disk_inode im) ∧ dir_repr s (im_disk_inode im) bs;
  cr_writable : c_readonly s = false }.

Lemma dir_add_name_wp s parent p im bs name ino q iq ty :
  pair_cached s parent p im ino q iq → dir_ready s p im bs → NoDup (dir_entries bs).*1 →
  dir_map bs !! name = None → name_ok name → 0 < ino < 2 ^ 32 → is_u8 ty → c_readonly s = false →
  Z.of_nat (length bs) < file_blocks → 1 < st_free_count (c_segtable s) →
  wp (lsfs_dir_add p name ino ty) (λ r s', r = LSFS_OK ∧ kept 2 s s' ∧ c_readonly s' = false ∧
    ∃ im' bs', pair_cached s' parent p im' ino q iq ∧ im_dirty im' = true ∧
      file_wf s' (im_disk_inode im') ∧ dir_repr s' (im_disk_inode im') bs' ∧
      dir_map bs' = <[name := (ino, ty)]> (dir_map bs)) s.
Proof using Type*.
  intros [Hp Hq Hne] Hr Hnd Hnone Hn Hino Hty Hro Hlen Hfree. eapply wp_mono; [by apply (dir_add_wp p im bs name ino ty)|].
  intros r s' [(_ & [e He] & _)|[_ [[_ [_ Hx]]|(-> & bs' & (Hk & Hed & im' & Hp' & Hd & Hw & Hr') & He)]]].
  { congruence. } { pose proof (Hx _ Hro). lia. }
  pose proof (proj1 Hk) as Hl. destruct (edits_cached s s' parent p im Hp Hl Hed) as (im2 & Hp2 & _).
  rewrite (ca_at _ _ _ _ Hp2) in Hp'. injection Hp' as ->.
  split_and!; [done|done|by rewrite (ed_readonly _ _ _ Hed)|]. exists im', bs'.
  split_and!; [|done|done|done|by apply (dir_map_add bs bs' name (ino, ty))].
  split; [done| |done]. eapply edits_cached_other; [exact Hq|done|exact Hed|apply Hp|done].
Qed.

Lemma put_pair_wp s parent p im ino q iq r :
  pair_cached s parent p im ino q iq →
  wp (put_reply [q; p] r) (λ r' s', r' = r ∧ same_log s s' ∧ ∃ im' iq', pair_cached s' parent p im' ino q iq' ∧
    im_disk_inode im' = im_disk_inode im ∧ im_disk_inode iq' = im_disk_inode iq) s.
Proof using Type.
  intros [Hp Hq Hne]. unfold put_reply. cbn [for_each]. do 2 wp_step.
  eapply wp_mono; [by apply (put_other s ino q iq parent p im)|].
  intros [] s1 (Hsl1 & _ & Hp1 & iq1 & Hq1 & Hi1). wp_step.
  eapply wp_mono; [by apply (put_other s1 parent p im ino q iq1)|].
  intros [] s2 (Hsl2 & _ & Hq2 & im2 & Hp2 & Hi2). do 2 wp_step. split_and!; [done| |].
  - destruct Hsl1 as (? & ? & ? & ?), Hsl2 as (? & ? & ? & ?). split_and!; congruence.
  - exists im2, iq1. by split_and!.
Qed.

(** The rest of [lsfs_op_create] once the entry is made. *)
Lemma create_tail_wp s parent p im ino q iq bs :
  pair_cached s parent p im ino q iq → im_dirty im = true → im_dirty iq = true →
  file_wf s (im_disk_inode im) → dir_repr s (im_disk_inode im) bs → c_readonly s = false →
  2 < st_free_count (c_segtable s) →
  wp (_ ← lsfs_inode_write q;
      _ ← lsfs_inode_write p;
      e ← entry_of q;
      put_reply [q; p] (reply_create e)) (λ r s', r = reply_create (entry_param (im_disk_inode iq)) ∧
    created s' parent p bs ino q (im_disk_inode iq) ∧ 0 < st_free_count (c_segtable s')) s.
Proof using Type*.
  intros [Hp Hq Hne] Hdp Hdq Hw Hr Hro Hfree. wp_step.
  eapply wp_mono; [apply (write_out_other s ino q iq parent p im); [done..|lia]|].
  intros _ s1 (Hk1 & Hro1 & Hp1 & iq1 & Hq1 & Hi1). pose proof Hk1 as (_ & Hg1 & Hc1). wp_step.
  eapply wp_mono; [apply (write_out_other s1 parent p im ino q iq1); [done..|lia]|].
  intros _ s2 (Hk2 & Hro2 & Hq2 & im2 & Hp2 & Hi2). pose proof Hk2 as (_ & Hg2 & Hc2).
  pose proof (log_grows_trans _ _ _ Hg1 Hg2) as Hg.
  unfold entry_of. wp_step. wp_step. eapply wp_intro; [apply load_inode_run, Hq2|]. wp_step. fold (entry_param (im_disk_inode iq1)).
  rewrite Hi1. eapply wp_mono; [by apply (put_pair_wp s2 parent p im2 ino q iq1)|].
  intros r s3 (-> & (Hd & Hb & Ht & Hro3) & im3 & iq3 & Hpc & Hi3 & Hiq3). split_and!; [done| |rewrite Ht; lia].
  assert (log_grows s s3) as Hg3.
  { eapply log_grows_trans; [exact Hg|]. apply log_grows_same; by rewrite ?Ht. }
  split; [|congruence]. exists im3, iq3. split_and!; [done|congruence|..]; rewrite Hi3, Hi2.
  - by eapply file_wf_grows.
  - by eapply dir_repr_grows.
Qed.

(** [lsfs_op_create] on a directory whose blocks are on disk. *)
Lemma op_create_wp s parent p im bs name mode :
  cached s parent p im → dir_ready s p im bs → NoDup (dir_entries bs).*1 → name_ok name →
  dir_map bs !! name = None → c_readonly s = false → Z.of_nat (length bs) < file_blocks →
  ic_count (c_icache s) < LSFS_INODE_CACHE_SIZE → imap_next_ino (c_imap s) < LSFS_MAX_INODES →
  4 < st_free_count (c_segtable s) →
  wp (lsfs_op_create parent name mode) (λ r s', ∃ q i bs', r = reply_create (entry_param i) ∧
    created s' parent p bs' (i_ino i) q i ∧ 0 < st_free_count (c_segtable s') ∧
    dir_map bs' = <[name := (i_ino i, LSFS_FT_REG_FILE)]> (dir_map bs)) s.
Proof using Type*.
  intros Hp Hr Hnd Hn Hnone Hro Hlen Hroom Hnext Hfree. pose proof (nk_length _ Hn) as Hl. unfold lsfs_op_create.
  wp_step. eapply wp_mono; [by apply (get_dir_wp s parent p im bs)|].
  intros r s1 (-> & (_ & _ & Ht1 & Hro1) & Him1 & Hp1 & Hr1 & _ & Hc1). wp_step.
  eapply wp_mono; [by apply (find_name_wp s1 p (referenced im) bs)|]. intros r s2 [Hio ->]. rewrite Hnone. wp_step.
  assert (c_segtable s2 = c_segtable s1 ∧ c_imap s2 = c_imap s1 ∧ c_readonly s2 = c_readonly s1) as (Ht2 & Him2 & Hro2).
  { pose proof Hio as [Hf _]. by rewrite Hf. }
  eapply wp_mono; [apply (alloc_child_wp s2 _ parent p (referenced im) bs); [by eapply cached_io|by eapply dir_ready_io|
    apply file_mode_u32|by rewrite (io_same_icache _ _ Hio), Hc1|by rewrite Him2, Him1]|].
  intros r s3 (q & iq & -> & (_ & _ & Ht3 & Hro3) & Hr3 & Hdq & Hpc). set (ino := imap_next_ino (c_imap s2)) in *.
  pose proof (ca_ino _ _ _ _ (pc_new _ _ _ _ _ _ _ Hpc)) as Hino.
  assert (0 < ino < 2 ^ 32) as Hrng.
  { pose proof (proj1 (proj2 (fs_imap s (ca_wf _ _ _ _ Hp)))). unfold ino. rewrite Him2, Him1.
    unfold LSFS_ROOT_INO, LSFS_MAX_INODES in *. lia. }
  wp_step. eapply wp_intro; [apply load_inode_run, Hpc|]. rewrite Hino. wp_step.
  eapply wp_mono; [apply (dir_add_name_wp s3 parent p (referenced im) bs name ino q iq); try done; [congruence|]|].
  { rewrite Ht3, Ht2, Ht1. lia. }
  intros r s4 (-> & (_ & _ & Hc4) & Hro4 & im4 & bs' & Hpc4 & Hd4 & Hw4 & Hr4 & Hm4). cbn [negb LSFS_OK Z.eqb].
  rewrite Ht3, Ht2, Ht1 in Hc4.
  eapply wp_mono; [apply (create_tail_wp s4 parent p im4 ino q iq bs'); try done; lia|].
  intros r s5 (-> & Hcr & Hf5). exists q, (im_disk_inode iq), bs'. by rewrite Hino.
Qed.
End Names.

(** * Theorem *)

(** C40. A file that is created is found: on a machine without failures, for a directory that
    is cached and whose blocks are on disk, creating a name it does not hold replies with a
    new inode, and after an [fsync] the directory holds that inode under the name, every
    other name as before, and looking the name up replies with what the creation replied:
    number, generation and attributes; a name the directory holds is refused with
    [EEXIST], and the directory is as before.  The cache must have room, some inode number
    must never have been given out, the directory must not have all the blocks a file can
    have, and five segments must be free. *)
Theorem create_fsync_lookup `{E : Env, !Healthy E} s parent p im bs name mode :
  cached s parent p im → dir_ready s p im bs → NoDup (dir_entries bs).*1 → name_ok name →
  c_readonly s = false → Z.of_nat (length bs) < file_blocks →
  ic_count (c_icache s) < LSFS_INODE_CACHE_SIZE → imap_next_ino (c_imap s) < LSFS_MAX_INODES →
  5 <= st_free_count (c_segtable s) →
  wp (lsfs_op_create parent name mode) (λ r1 s1,
    match dir_map bs !! name with
    | Some _ => r1 = reply_err EEXIST ∧ ∃ im', dir_ready s1 p im' bs
    | None => ∃ e, r1 = reply_create e ∧
        wp lsfs_op_fsync (λ r2 s2, r2 = reply_err 0 ∧
          (∃ im' bs', dir_ready s2 p im' bs' ∧
             dir_map bs' = <[name := (e_ino e, LSFS_FT_REG_FILE)]> (dir_map bs)) ∧
          wp (lsfs_op_lookup parent name) (λ r3 _, r3 = reply_entry e) s2) s1
    end) s.
Proof.
  intros Hp Hr Hnd Hn Hro Hlen Hroom Hnext Hfree. pose proof (nk_length _ Hn) as Hl.
  destruct (dir_map bs !! name) as [e|] eqn:Hname.
  { unfold lsfs_op_create. wp_step. eapply wp_mono; [by apply (get_dir_wp s parent p im bs)|].
    intros r s1 (-> & _ & _ & Hp1 & Hr1 & _). wp_step.
    eapply wp_mono; [by apply (find_name_wp s1 p (referenced im) bs)|]. intros r s2 [Hio ->]. rewrite Hname.
    eapply wp_mono; [eapply put_reply_wp, cached_io; [exact Hp1|exact Hio]|]. intros r s3 (-> & n & Hp3 & ->).
    split; [done|]. eexists. eapply dir_ready_same; [by eapply dir_ready_io|done|apply Hp3|apply Hp3|done]. }
  eapply wp_mono; [apply (op_create_wp s parent p im bs); try done; lia|].
  intros r s1 (q & i & bs' & -> & [(im1 & iq & [Hp1 Hq1 Hne] & <- & Hw & Hrep) Hro1] & Hf1 & Hm).
  eexists. split; [done|]. eapply wp_mono; [apply fsync_wp; [apply Hp1|done..]|].
  intros r s2 (-> & Hs2 & Hic & Hg & Hset). pose proof (cached_same _ s2 _ _ _ Hp1 Hs2 Hic) as Hp2.
  pose proof (cached_same _ s2 _ _ _ Hq1 Hs2 Hic) as Hq2.
  assert (dir_ready s2 p im1 bs') as Hr2.
  { split; [apply Hs2|apply Hp2|by eapply file_wf_grows| |by eapply dir_repr_grows].
    split; [intros Hi; by apply Hset, (fw_indirect s1 _ Hw)|]. intros j Hj. rewrite (file_addr_grows s1 s2) by done.
    intros Hi. by apply Hset, (fw_addr s1 _ Hw). }
  split_and!; [done|by exists im1, bs'|].
  apply (op_lookup_found s2 parent p im1 bs' name (i_ino (im_disk_inode iq)) LSFS_FT_REG_FILE q iq); try done.
  rewrite Hm. apply lookup_insert_eq.
Qed.
