(* ===== verification/Debug.v ===== *)
(** The inspection tool, [tools/lsfs-debug.c]: what it prints of an image.  A text is the
    list of its bytes; the output is the sequence of texts with the stream each goes to. *)
From Stdlib Require Import Strings.String Strings.Ascii.
From S2P Require Import Prelude OnDisk Lru Context Io SegTable Log Checkpoint Directory.
From S2P Require Import Fsck.

(** * The formats of [printf] that the tool uses *)

Definition text (s : string) : list Z := (λ c, Z.of_N (N_of_ascii c)) <$> list_ascii_of_string s.

(** The digit [d], letters from [a] on *)
Definition digit (a d : Z) : Z := if d <? 10 then 48 + d else a + (d - 10).

(** The digits of [n] in a base, most significant first; 64 rounds are enough for a 64-bit
    number. *)
Fixpoint digits_loop (fuel : nat) (a base n : Z) : list Z :=
  match fuel with
  | O => []
  | S fuel => if n <? base then [digit a n]
              else (digits_loop fuel a base (n / base) ++ [digit a (n mod base)])%list
  end.
Definition digits (a base n : Z) : list Z := digits_loop 64 a base n.

(** Zeros to the left, up to a width *)
Definition pad (width : nat) (t : list Z) : list Z := (replicate (width - length t) 48 ++ t)%list.

Inductive piece :=
  | Txt (s : string)
  | Chars (t : list Z)      (* %s *)
  | Dec (n : Z)             (* %u and %lu *)
  | Int (n : Z)             (* %d *)
  | Oct (n : Z)             (* %o *)
  | Hex8 (n : Z)            (* %08X *)
  | hex2 (n : Z)            (* %02x *)
  | NL.

Definition render (p : piece) : list Z :=
  match p with
  | Txt s => text s
  | Chars t => t
  | Dec n => digits 97 10 n
  | Int n => if n <? 0 then 45 :: digits 97 10 (- n) else digits 97 10 n
  | Oct n => digits 97 8 n
  | Hex8 n => pad 8 (digits 65 16 n)
  | hex2 n => pad 2 (digits 97 16 n)
  | NL => [10]
  end.

Inductive stream := Stdout | Stderr.
Definition output : Type := list (stream * list Z).
Definition printf (ps : list piece) : output := [(Stdout, concat (render <$> ps))].
Definition eprintf (ps : list piece) : output := [(Stderr, concat (render <$> ps))].

(** A C string that begins a buffer: the bytes before the first 0, if there is one. *)
Fixpoint terminated (bs : list Z) : option (list Z) :=
  match bs with
  | [] => None
  | b :: bs => if b =? 0 then Some [] else t ← terminated bs; Some (b :: t)
  end.

Section Debug.
Context `{E : Env}.

(** [localtime] and [strftime]: the text for a time, [None] when [localtime] finds no
    calendar date for it. *)
Variable calendar : Z → option (list Z).

Definition dbg_read_block (block_num : Z) : Op (option (list Z)) :=
  offset ← of_opt (i64_check (to_i64 block_num * LSFS_BLOCK_SIZE));
  r ← sys_pread offset 1;
  mret (match r with Some [blk] => Some blk | _ => None end).

Definition format_uuid (uuid : list Z) : Op (list Z) :=
  let part := λ (from n : nat), hex2 <$> slice from n uuid in
  if (length uuid <? 16)%nat then undefined else
  mret (concat (render <$>
    (part 0 4 ++ [Txt "-"] ++ part 4 2 ++ [Txt "-"] ++ part 6 2 ++ [Txt "-"] ++
     part 8 2 ++ [Txt "-"] ++ part 10 6)%nat%list)).

Definition format_time (ts : Z) : Op (list Z) := of_opt (calendar (to_i64 ts)).

Definition dump_superblock : Op output :=
  r ← dbg_read_block LSFS_SUPERBLOCK_BLOCK;
  match r with
  | None => mret (eprintf [Txt "Failed to read superblock"; NL])
  | Some blk =>
      let sb := dec blk : lsfs_superblock in
      uuid_str ← format_uuid (sb_uuid sb);
      created ← format_time (sb_created_at sb);
      mounted ← (if 0 <? sb_mounted_at sb then
                   time_str ← format_time (sb_mounted_at sb);
                   mret (printf [Txt "Last mounted:     "; Chars time_str; NL])
                 else mret []);
      mret (printf [Txt "=== SUPERBLOCK ==="; NL] ++
            printf [Txt "Magic:            0x"; Hex8 (sb_magic sb)] ++
            (if sb_magic sb =? LSFS_MAGIC then printf [Txt " (valid)"; NL] else printf [Txt " (INVALID!)"; NL]) ++
            printf [Txt "Version:          "; Dec (sb_version sb); NL] ++
            printf [Txt "Block size:       "; Dec (sb_block_size sb); Txt " bytes"; NL] ++
            printf [Txt "Segment size:     "; Dec (sb_segment_size sb); Txt " blocks"; NL] ++
            printf [Txt "Total blocks:     "; Dec (sb_total_blocks sb); NL] ++
            printf [Txt "Total segments:   "; Dec (sb_total_segments sb); NL] ++
            printf [Txt "Inode count:      "; Dec (sb_inode_count sb); NL] ++
            printf [Txt "Free segments:    "; Dec (sb_free_segments sb); NL] ++
            printf [Txt "Active checkpoint: "; Dec (sb_active_checkpoint sb); NL] ++
            printf [Txt "Log head:         "; Dec (sb_log_head sb); NL] ++
            printf [Txt "UUID:             "; Chars uuid_str; NL] ++
            printf [Txt "Created:          "; Chars created; NL] ++
            mounted ++
            printf [Txt "Mount count:      "; Dec (sb_mount_count sb); NL] ++
            printf [Txt "State:            "; Txt (if sb_state sb =? 0 then "clean" else "dirty"); NL] ++
            printf [NL])%list
  end.

Definition dump_checkpoint (which : Z) : Op output :=
  let cp_block := if which =? 0 then LSFS_CHECKPOINT0_START else LSFS_CHECKPOINT1_START in
  r ← dbg_read_block cp_block;
  match r with
  | None => mret (eprintf [Txt "Failed to read checkpoint "; Int which; NL])
  | Some block =>
      let cp := dec block : lsfs_checkpoint_header in
      let head := (printf [Txt "=== CHECKPOINT "; Int which; Txt " ==="; NL] ++
                   printf [Txt "Magic:            0x"; Hex8 (ch_magic cp)])%list in
      if negb (ch_magic cp =? LSFS_CHECKPOINT_MAGIC) then mret (head ++ printf [Txt " (INVALID!)"; NL])%list else
      time_str ← format_time (ch_timestamp cp);
      mret (head ++ printf [Txt " (valid)"; NL] ++
            printf [Txt "Version:          "; Dec (ch_version cp); NL] ++
            printf [Txt "Sequence:         "; Dec (ch_sequence cp); NL] ++
            printf [Txt "Timestamp:        "; Chars time_str; NL] ++
            printf [Txt "Log head:         "; Dec (ch_log_head cp); NL] ++
            printf [Txt "Imap entries:     "; Dec (ch_imap_entries cp); NL] ++
            printf [Txt "Segment entries:  "; Dec (ch_segment_entries cp); NL] ++
            printf [Txt "Complete:         "; Txt (if ch_complete cp =? 0 then "no" else "yes"); NL] ++
            printf [NL])%list
  end.

(** The position of the symbolic link's target in an inode *)
Definition symlink_pos : nat := 176.

(** The inode at index [offset] of the block.  Its fields up to the target are read in
    every case; the target is read to the end of the string, wherever that is. *)
Definition dump_inode (block_num offset : Z) : Op output :=
  r ← dbg_read_block block_num;
  match r with
  | None => mret (eprintf [Txt "Failed to read block "; Dec block_num; NL])
  | Some block =>
      let pos := Z.to_nat (u64 (offset * Z.of_nat (sizeof lsfs_inode))) in
      if (length block <? pos + symlink_pos)%nat then undefined else
      let inode := dec (drop pos block) : lsfs_inode in
      let type := Z.land (i_mode inode) S_IFMT in
      atime ← format_time (i_atime inode / 1000000000);
      mtime ← format_time (i_mtime inode / 1000000000);
      ctime ← format_time (i_ctime inode / 1000000000);
      link ← (if type =? S_IFLNK then
                first ← of_opt (arr_get (drop (pos + symlink_pos) block) 0);
                if negb (first =? 0) then
                  target ← of_opt (terminated (drop (pos + symlink_pos) block));
                  mret (printf [Txt "Symlink target:   "; Chars target; NL])
                else mret []
              else mret []);
      mret (printf [Txt "=== INODE "; Dec (i_ino inode); Txt " ==="; NL] ++
            printf [Txt "Mode:             0"; Oct (i_mode inode)] ++
            printf [Txt (if type =? S_IFREG then " (regular file)"
                         else if type =? S_IFDIR then " (directory)"
                         else if type =? S_IFLNK then " (symlink)" else " (other)"); NL] ++
            printf [Txt "UID/GID:          "; Dec (i_uid inode); Txt "/"; Dec (i_gid inode); NL] ++
            printf [Txt "Size:             "; Dec (i_size inode); Txt " bytes"; NL] ++
            printf [Txt "Blocks:           "; Dec (i_blocks inode); NL] ++
            printf [Txt "Links:            "; Dec (i_nlink inode); NL] ++
            printf [Txt "Access time:      "; Chars atime; NL] ++
            printf [Txt "Modify time:      "; Chars mtime; NL] ++
            printf [Txt "Change time:      "; Chars ctime; NL] ++
            printf [Txt "Direct blocks:    "] ++
            concat ((λ a, if a =? 0 then [] else printf [Dec a; Txt " "]) <$> i_direct inode) ++
            printf [NL] ++
            (if i_indirect inode =? 0 then [] else printf [Txt "Indirect:         "; Dec (i_indirect inode); NL]) ++
            (if i_double_indirect inode =? 0 then []
             else printf [Txt "Double indirect:  "; Dec (i_double_indirect inode); NL]) ++
            link ++
            printf [NL])%list
  end.

Definition type_str (type : Z) : string :=
  if type =? LSFS_BLOCK_TYPE_DATA then "data"
  else if type =? LSFS_BLOCK_TYPE_INODE then "inode"
  else if type =? LSFS_BLOCK_TYPE_INDIRECT then "indirect"
  else if type =? LSFS_BLOCK_TYPE_DIRENT then "dirent"
  else "unknown".

Definition dump_segment (segment_id : Z) : Op output :=
  let seg_start := u64 (LSFS_LOG_START + segment_id * LSFS_SEGMENT_BLOCKS) in
  r ← dbg_read_block seg_start;
  match r with
  | None => mret (eprintf [Txt "Failed to read segment "; Dec segment_id; NL])
  | Some block =>
      let header := dec block : lsfs_segment_header in
      let head := (printf [Txt "=== SEGMENT "; Dec segment_id; Txt " ==="; NL] ++
                   printf [Txt "Start block:      "; Dec seg_start; NL] ++
                   printf [Txt "Magic:            0x"; Hex8 (sh_magic header)])%list in
      if sh_magic header =? LSFS_SEGMENT_MAGIC then
        time_str ← format_time (sh_timestamp header);
        let num_entries := Z.min (u32 (sh_block_count header - 1)) max_summary_entries in
        let info := λ i, dec_at (Z.to_nat i) (drop (sizeof lsfs_segment_header) block) : lsfs_block_info in
        mret (head ++ printf [Txt " (valid)"; NL] ++
              printf [Txt "Segment ID:       "; Dec (sh_segment_id header); NL] ++
              printf [Txt "Timestamp:        "; Chars time_str; NL] ++
              printf [Txt "Block count:      "; Dec (sh_block_count header); NL] ++
              printf [Txt "Block contents:"; NL] ++
              concat ((λ i, printf [Txt "  Block "; Dec (i + 1); Txt ": ino="; Dec (bi_ino (info i)); Txt " offset=";
                                    Dec (bi_offset (info i)); Txt " type="; Txt (type_str (bi_type (info i))); NL])
                      <$> seqZ 0 (Z.min num_entries 10)) ++
              (if 10 <? num_entries then printf [Txt "  ... and "; Dec (num_entries - 10); Txt " more blocks"; NL] else []) ++
              printf [NL])%list
      else if sh_magic header =? 0 then mret (head ++ printf [Txt " (free)"; NL])%list
      else mret (head ++ printf [Txt " (INVALID!)"; NL])%list
  end.

(** ** The inode map *)

Definition imap_line (e : lsfs_imap_entry) : output :=
  if 0 <? ie_ino e
  then printf [Txt "  Inode "; Dec (ie_ino e); Txt ": block "; Dec (ie_location e); Txt ", version "; Dec (ie_version e); NL]
  else [].

(** The loop over the entries of a block; the index stays below the number of entries a
    block has room for. *)
Fixpoint dump_entries (block : list Z) (ids : list Z) : Op output :=
  match ids with
  | [] => mret []
  | i :: ids =>
      entry ← of_opt (entry_in_block block i);
      rest ← dump_entries block ids;
      mret (imap_line entry ++ rest)%list
  end.

(** The loop over the blocks; one that cannot be read is passed over. *)
Fixpoint dump_imap_blocks (cp_block entries blocks_needed : Z) (bs : list Z) : Op output :=
  match bs with
  | [] => mret []
  | b :: bs =>
      r ← dbg_read_block (u64 (cp_block + 1 + b));
      lines ← match r with
              | None => mret []
              | Some block =>
                  let entries_in_block :=
                    if b =? u32 (blocks_needed - 1) then u32 (entries - u32 (b * entries_per_block))
                    else entries_per_block in
                  dump_entries block (seqZ 0 entries_in_block)
              end;
      rest ← dump_imap_blocks cp_block entries blocks_needed bs;
      mret (lines ++ rest)%list
  end.

Definition dump_imap : Op output :=
  r ← dbg_read_block LSFS_SUPERBLOCK_BLOCK;
  match r with
  | None => mret (eprintf [Txt "Failed to read superblock"; NL])
  | Some blk =>
      let sb := dec blk : lsfs_superblock in
      let cp_block := if sb_active_checkpoint sb =? 0 then LSFS_CHECKPOINT0_START else LSFS_CHECKPOINT1_START in
      r ← dbg_read_block cp_block;
      match r with
      | None => mret (eprintf [Txt "Failed to read checkpoint"; NL])
      | Some block =>
          let cp := dec block : lsfs_checkpoint_header in
          let blocks_needed := u32 (ch_imap_entries cp + entries_per_block - 1) / entries_per_block in
          lines ← dump_imap_blocks cp_block (ch_imap_entries cp) blocks_needed (seqZ 0 blocks_needed);
          mret (printf [Txt "=== INODE MAP ==="; NL] ++
                printf [Txt "Entries: "; Dec (ch_imap_entries cp); NL; NL] ++ lines ++ printf [NL])%list
      end
  end.

(** ** The program *)

Definition usage (progname : list Z) : output :=
  (eprintf [Txt "Usage: "; Chars progname; Txt " <disk_image> <command> [args]"; NL; NL] ++
   eprintf [Txt "Commands:"; NL] ++
   eprintf [Txt "  superblock              Dump superblock"; NL] ++
   eprintf [Txt "  checkpoint [0|1]        Dump checkpoint (default: both)"; NL] ++
   eprintf [Txt "  segment <id>            Dump segment header"; NL] ++
   eprintf [Txt "  inode <block> [offset]  Dump inode at block (offset 0-15)"; NL] ++
   eprintf [Txt "  imap                    Dump inode map"; NL] ++
   eprintf [Txt "  all                     Dump all structures"; NL])%list.

(** The command with its arguments; [atoi] and [strtoull] have turned these into numbers. *)
Inductive command :=
  | CmdSuperblock
  | CmdCheckpoint (which : option Z)
  | CmdSegment (id : option Z)
  | CmdInode (block : option Z) (offset : option Z)
  | CmdImap
  | CmdAll
  | CmdOther (name : list Z).

Definition debug_command (argv0 path : list Z) (c : command) : Op (output * Z) :=
  match c with
  | CmdSuperblock => o ← dump_superblock; mret (o, 0)
  | CmdCheckpoint (Some which) => o ← dump_checkpoint which; mret (o, 0)
  | CmdCheckpoint None => o0 ← dump_checkpoint 0; o1 ← dump_checkpoint 1; mret (o0 ++ o1, 0)%list
  | CmdSegment None => mret (eprintf [Txt "Usage: "; Chars argv0; Txt " "; Chars path; Txt " segment <id>"; NL], 1)
  | CmdSegment (Some id) => o ← dump_segment (u32 id); mret (o, 0)
  | CmdInode None _ =>
      mret (eprintf [Txt "Usage: "; Chars argv0; Txt " "; Chars path; Txt " inode <block> [offset]"; NL], 1)
  | CmdInode (Some block) offset => o ← dump_inode block (u32 (default 0 offset)); mret (o, 0)
  | CmdImap => o ← dump_imap; mret (o, 0)
  | CmdAll =>
      o1 ← dump_superblock;
      o2 ← dump_checkpoint 0;
      o3 ← dump_checkpoint 1;
      o4 ← dump_imap;
      o5 ← dump_segment 0;
      mret (o1 ++ o2 ++ o3 ++ o4 ++ o5, 0)%list
  | CmdOther name =>
      mret (eprintf [Txt "Unknown command: "; Chars name; NL] ++ usage argv0, 1)%list
  end.

(** [main]: [None] for a command line of fewer than three words; [open_error] is the
    message of [perror] when the image cannot be opened. *)
Definition debug_main (argv0 : list Z) (args : option (list Z * command)) (open_error : option (list Z))
    : Op (output * Z) :=
  match args, open_error with
  | None, _ => mret (usage argv0, 1)
  | Some _, Some msg => mret (eprintf [Txt "Failed to open filesystem: "; Chars msg; NL], 1)
  | Some (path, c), None => debug_command argv0 path c
  end.
End Debug.
