(* ===== verification/DebugView.v ===== *)
(** What [lsfs-debug] prints: numbers can be read back, every command but the dump of an
    inode ends on every image whose times can be printed, and the map it lists is the one on
    the image. *)
From Stdlib Require Import Strings.String Sorting.Sorted.
From S2P Require Import Prelude OnDisk Lru Context Io Imap SegTable Log Checkpoint.
From S2P Require Import Inode Directory Fsck FsckView Debug.

(** * Numbers *)

Definition digit_value (c : Z) : Z := if c <? 58 then c - 48 else if c <? 97 then c - 55 else c - 87.
Definition number_value (base : Z) (t : list Z) : Z := foldl (λ v c, v * base + digit_value c) 0 t.

Lemma digit_value_digit a d : a = 65 ∨ a = 97 → 0 <= d < 16 → digit_value (digit a d) = d.
Proof.
  intros Ha Hd. unfold digit, digit_value. repeat zcase; lia.
Qed.

Lemma number_value_loop fuel a base n :
  a = 65 ∨ a = 97 → 2 <= base <= 16 → 0 <= n < 2 ^ Z.of_nat fuel →
  number_value base (digits_loop fuel a base n) = n.
Proof.
  intros Ha Hb. revert n. induction fuel as [|fuel IH]; intros n Hn; [cbn in *; lia|]. cbn [digits_loop].
  destruct (Z.ltb_spec n base) as [Hlt|Hge].
  - unfold number_value. cbn. rewrite digit_value_digit; lia.
  - unfold number_value in *. rewrite foldl_snoc, IH.
    + rewrite digit_value_digit; [pose proof (Z.div_mod n base); lia|done|]. pose proof (Z.mod_pos_bound n base). lia.
    + rewrite Nat2Z.inj_succ, Z.pow_succ_r in Hn by lia. split; [apply Z.div_pos; lia|].
      apply Z.div_lt_upper_bound; [lia|]. nia.
Qed.

(** What is printed as a number is that number. *)
Lemma number_value_digits a base n :
  a = 65 ∨ a = 97 → 2 <= base <= 16 → is_u64 n → number_value base (digits a base n) = n.
Proof. intros Ha Hb Hn. apply number_value_loop; [done..|]. unfold is_u64 in Hn. lia. Qed.

(** * Reading *)

Section Reads.
Context `{E : Env}.
Implicit Types s : lsfs_context.

(** The image and what was written to it are as before. *)
Definition unchanged s s' : Prop := c_disk s' = c_disk s ∧ c_disk_size s' = c_disk_size s ∧ c_trace s' = c_trace s.

Lemma unchanged_refl s : unchanged s s.
Proof. done. Qed.
Lemma unchanged_trans s1 s2 s3 : unchanged s1 s2 → unchanged s2 s3 → unchanged s1 s3.
Proof. intros (? & ? & ?) (? & ? & ?). split_and!; congruence. Qed.

Lemma dbg_read_wp s b :
  0 <= b < 2 ^ 51 →
  wp (dbg_read_block b) (λ r s', unchanged s s' ∧ (r = None ∨ r = Some (disk_block (c_disk s) b)) ∧
    (Healthy E → (b + 1) * LSFS_BLOCK_SIZE <= c_disk_size s → r ≠ None)) s.
Proof.
  intros Hb. unfold dbg_read_block, LSFS_BLOCK_SIZE. wp_step. rewrite to_i64_small by lia.
  eapply wp_of_opt; [apply i64_check_ok; lia|]. wp_step. unfold sys_pread, LSFS_BLOCK_SIZE. wp_step.
  eapply wp_intro; [done|]. do 5 wp_step. apply wp_ret. cbn [c_disk c_disk_size field_set].
  split; [done|]. destruct (Z.leb_spec 0 (b * 4096)); [|lia]. cbn [andb].
  destruct (Z.leb_spec (b * 4096 + 1 * 4096) (c_disk_size s)); [|split; [by left|lia]].
  destruct (env_pread (c_tick s)) eqn:Hp; [split; [by left|]; intros HE; by rewrite healthy_pread in Hp|].
  rewrite Z.div_mul by done. unfold disk_blocks. change (Z.to_nat 1) with 1%nat. cbn. rewrite Z.add_0_r. split; [by right|done].
Qed.
End Reads.

(** * The commands are defined *)

(** Times of this length have a calendar date. *)
Definition datable (calendar : Z → option (list Z)) : Prop := ∀ t, 0 <= t < 2 ^ 40 → is_Some (calendar t).

(** The times on the image that the tool prints, segments up to [segs]. *)
Record times_ok (s : lsfs_context) (segs : Z → Prop) : Prop := {
  to_created : 0 <= sb_created_at (dec (disk_block (c_disk s) 0)) < 2 ^ 40;
  to_mounted : 0 <= sb_mounted_at (dec (disk_block (c_disk s) 0)) < 2 ^ 40;
  to_headers r : 0 <= ch_timestamp (header_at (c_disk s) r) < 2 ^ 40;
  to_segments seg : segs seg →
    0 <= sh_timestamp (dec (disk_block (c_disk s) (LSFS_LOG_START + seg * LSFS_SEGMENT_BLOCKS))) < 2 ^ 40 }.

Section Defined.
Context `{E : Env}.
Variable calendar : Z → option (list Z).
Hypothesis Hcal : datable calendar.
Implicit Types s : lsfs_context.

Lemma format_time_wp ts (Q : list Z → lsfs_context → Prop) s :
  0 <= ts < 2 ^ 40 → (∀ t, Q t s) → wp (format_time calendar ts) Q s.
Proof using Hcal.
  intros Hts HQ. unfold format_time. rewrite to_i64_small by lia. destruct (Hcal ts Hts) as [t Ht].
  by eapply wp_of_opt.
Qed.

Lemma dump_superblock_wp s segs : disk_ok s → times_ok s segs → wp (dump_superblock calendar) (λ _ s', unchanged s s') s.
Proof using Hcal.
  intros Hok [Hc Hm _ _]. unfold dump_superblock. apply wp_bind. eapply wp_mono; [apply dbg_read_wp; done|].
  intros r s1 (Hu & [->| ->] & _); [by apply wp_ret|]. set (sb := dec (disk_block (c_disk s) _)) in *.
  assert (length (sb_uuid sb) = 16%nat) as Hl.
  { pose proof (dec_wf (A := lsfs_superblock) (disk_block (c_disk s) 0)) as Hw. destruct (Hok 0) as [Hl Hb].
    assert (Z.of_nat BS = 4096) as HBS by done.
    specialize (Hw Hb ltac:(rewrite Hl; cbn [sizeof superblock_ondisk]; unfold sb_reserved_len; lia)). cbn [disk_wf superblock_ondisk] in Hw. unfold is_bytes in Hw. naive_solver. }
  wp_step. unfold format_uuid. rewrite Hl. cbn [Nat.ltb Nat.leb]. wp_step.
  wp_step. apply format_time_wp; [done|]. intros created. wp_step.
  destruct (Z.ltb_spec 0 (sb_mounted_at sb)); [wp_step; apply format_time_wp; [done|]; intros mounted; wp_step|wp_step]; by apply wp_ret.
Qed.

Lemma dump_checkpoint_wp s segs which : times_ok s segs → wp (dump_checkpoint calendar which) (λ _ s', unchanged s s') s.
Proof using Hcal.
  intros [_ _ Hh _]. unfold dump_checkpoint. apply wp_bind.
  assert (∃ r, (if which =? 0 then LSFS_CHECKPOINT0_START else LSFS_CHECKPOINT1_START) = region_start r) as [reg ->].
  { destruct (which =? 0); [by exists 0|by exists 1]. }
  eapply wp_mono; [apply dbg_read_wp; by destruct (region_start_cases reg) as [->| ->]|].
  intros r s1 (Hu & [->| ->] & _); [by apply wp_ret|]. case_match; [by apply wp_ret|].
  wp_step. apply format_time_wp; [apply Hh|]. intros t. by apply wp_ret.
Qed.

Lemma dump_segment_wp s (segs : Z → Prop) seg :
  times_ok s segs → segs seg → 0 <= seg < 2 ^ 32 → wp (dump_segment calendar seg) (λ _ s', unchanged s s') s.
Proof using Hcal.
  intros [_ _ _ Hs] Hseg Hr. unfold dump_segment. specialize (Hs seg Hseg). unfold LSFS_LOG_START, LSFS_SEGMENT_BLOCKS in *.
  rewrite u64_small by lia. apply wp_bind.
  eapply wp_mono; [apply dbg_read_wp; lia|]. intros r s1 (Hu & [->| ->] & _); [by apply wp_ret|].
  case_match; [|case_match; by apply wp_ret]. wp_step. apply format_time_wp; [done|]. intros t. by apply wp_ret.
Qed.

(** ** Inodes *)

Lemma le_val_take_u64 bs : Forall is_byte bs → is_u64 (le_val (take 8 bs)).
Proof using Type.
  intros Hb. pose proof (le_val_range (take 8 bs) (Forall_take _ _ _ Hb)) as Hr. unfold is_u64.
  assert (256 ^ Z.of_nat (length (take 8 bs)) <= 256 ^ 8) by (apply Z.pow_le_mono_r; [lia|]; rewrite length_take; lia). lia.
Qed.

(** The times of an inode are in nanoseconds, and so always have a date. *)
Lemma inode_times bs :
  Forall is_byte bs → let i := dec bs : lsfs_inode in
  0 <= i_atime i / 1000000000 < 2 ^ 40 ∧ 0 <= i_mtime i / 1000000000 < 2 ^ 40 ∧ 0 <= i_ctime i / 1000000000 < 2 ^ 40.
Proof using Type.
  intros Hb i. assert (∀ z, is_u64 z → 0 <= z / 1000000000 < 2 ^ 40) as Hdiv.
  { unfold is_u64. intros z Hz. split; [apply Z.div_pos; lia|apply Z.div_lt_upper_bound; lia]. }
  split_and!; apply Hdiv; apply le_val_take_u64; repeat apply Forall_drop; done.
Qed.

(** Index 13 is the last one whose inode is read within the block. *)
Lemma inode_index_fits (block : list Z) offset :
  length block = BS → 0 <= offset < 2 ^ 32 →
  (length block <? Z.to_nat (u64 (offset * Z.of_nat (sizeof lsfs_inode))) + symlink_pos)%nat = negb (offset <=? 13).
Proof using Type.
  intros Hl Ho. assert (Z.of_nat BS = 4096) as HBS by done. assert (Z.of_nat (sizeof lsfs_inode) = 296) as -> by done.
  rewrite u64_small by lia. rewrite Hl. unfold symlink_pos.
  destruct (Z.leb_spec offset 13); cbn [negb]; [apply Nat.ltb_ge|apply Nat.ltb_lt]; lia.
Qed.

(** The inode at an index of a block *)
Definition inode_at s (block offset : Z) : lsfs_inode :=
  dec (drop (Z.to_nat (offset * Z.of_nat (sizeof lsfs_inode))) (disk_block (c_disk s) block)).

Lemma dump_inode_wp s block offset :
  disk_ok s → 0 <= block < 2 ^ 51 → 0 <= offset <= 13 →
  Z.land (i_mode (inode_at s block offset)) S_IFMT ≠ S_IFLNK →
  wp (dump_inode calendar block offset) (λ _ s', unchanged s s') s.
Proof using Hcal.
  intros Hok Hb Ho Ht. unfold dump_inode. apply wp_bind. eapply wp_mono; [by apply dbg_read_wp|].
  intros r s1 (Hu & [->| ->] & _); [by apply wp_ret|]. destruct (Hok block) as [Hl Hbytes].
  rewrite inode_index_fits by (done || lia). rewrite (proj2 (Z.leb_le _ _)) by lia. cbn [negb].
  assert (Z.of_nat (sizeof lsfs_inode) = 296) as Hsz by done.
  unfold inode_at in Ht. rewrite u64_small by lia. set (bs := drop _ (disk_block (c_disk s) block)) in *.
  destruct (inode_times bs) as (Ha & Hm & Hc); [by apply Forall_drop|].
  wp_step. apply format_time_wp; [exact Ha|]. intros ta. wp_step. apply format_time_wp; [exact Hm|]. intros tm.
  wp_step. apply format_time_wp; [exact Hc|]. intros tc. wp_step.
  rewrite (proj2 (Z.eqb_neq _ _) Ht). wp_step. by apply wp_ret.
Qed.

Lemma dump_inode_outside s block offset :
  Healthy E → disk_ok s → 0 <= block → (block + 1) * LSFS_BLOCK_SIZE <= c_disk_size s < 2 ^ 63 → 13 < offset < 2 ^ 32 →
  dump_inode calendar block offset s = None.
Proof using Type.
  intros HE Hok Hb Hsz Ho. assert (0 <= block < 2 ^ 51) as Hb' by (unfold LSFS_BLOCK_SIZE in *; lia).
  destruct (wp_elim _ _ _ (dbg_read_wp s block Hb')) as (r & s1 & Hrun & _ & Hr & Hok1). unfold dump_inode.
  erewrite bind_run by exact Hrun. destruct Hr as [->| ->]; [by destruct (Hok1 HE (proj1 Hsz))|].
  destruct (Hok block) as [Hl _]. rewrite inode_index_fits by (done || lia). by rewrite (proj2 (Z.leb_gt _ _)) by lia.
Qed.

(** ** The inode map *)

Lemma entries_256 : entries_per_block = 256.
Proof using Type. done. Qed.

(** No block is asked for more entries than it has. *)
Lemma entries_in_block_le n b :
  is_u32 n → let needed := u32 (n + entries_per_block - 1) / entries_per_block in
  0 <= b < needed →
  0 <= (if b =? u32 (needed - 1) then u32 (n - u32 (b * entries_per_block)) else entries_per_block) <= entries_per_block.
Proof using Type.
  rewrite entries_256. intros Hn needed Hb. unfold is_u32 in Hn.
  assert (n + 255 < 2 ^ 32) as Hsmall.
  { destruct (Z.lt_ge_cases (n + 255) (2 ^ 32)); [done|]. exfalso. subst needed.
    replace (u32 (n + 256 - 1)) with (n + 255 - 2 ^ 32) in Hb.
    2:{ unfold u32. symmetry. replace (n + 256 - 1) with (n + 255 - 2 ^ 32 + 1 * 2 ^ 32) by lia.
        rewrite Z.mod_add by lia. apply Z.mod_small. lia. }
    rewrite Z.div_small in Hb by lia. lia. }
  subst needed. rewrite (u32_small (n + 256 - 1)) in Hb |- * by lia. set (q := (n + 256 - 1) / 256) in *.
  assert (256 * q <= n + 255 < 256 * q + 256) as Hq.
  { unfold q. pose proof (Z.div_mod (n + 256 - 1) 256). pose proof (Z.mod_pos_bound (n + 256 - 1) 256). lia. }
  rewrite (u32_small (q - 1)) by lia. destruct (Z.eqb_spec b (q - 1)) as [->|]; [|lia].
  rewrite (u32_small ((q - 1) * 256)) by lia. rewrite u32_small by lia. lia.
Qed.

Lemma dump_entries_run block ids s :
  Forall (λ i, 0 <= i < entries_per_block) ids →
  dump_entries block ids s = Some (concat ((λ i, imap_line (dec_at (Z.to_nat i) block)) <$> ids), s).
Proof using Type.
  induction 1 as [|i ids Hi _ IH]; [done|]. cbn [dump_entries]. unfold entry_in_block.
  rewrite (proj2 (Z.leb_le _ _)), (proj2 (Z.ltb_lt _ _)) by lia. cbn [andb of_opt]. unfold mbind, M_bind. cbn [mret M_ret].
  rewrite IH. done.
Qed.

Lemma dump_imap_blocks_wp s0 s n bs cp_block :
  is_u32 n → 0 <= cp_block < 2 ^ 50 → unchanged s0 s →
  let needed := u32 (n + entries_per_block - 1) / entries_per_block in
  Forall (λ b, 0 <= b < needed) bs →
  wp (dump_imap_blocks cp_block n needed bs) (λ _ s', unchanged s0 s') s.
Proof using Type.
  intros Hn Hcp Hu needed Hbs. revert s Hu. induction Hbs as [|b bs Hb Hbs IH]; intros s Hu; [by apply wp_ret|].
  cbn [dump_imap_blocks]. assert (needed <= 2 ^ 32).
  { subst needed. rewrite entries_256. pose proof (u32_range (n + 256 - 1)). apply Z.div_le_upper_bound; lia. }
  rewrite (u64_small (cp_block + 1 + b)) by lia. apply wp_bind. eapply wp_mono; [apply dbg_read_wp; lia|].
  intros r s1 (Hu1 & Hr & _). pose proof (entries_in_block_le n b Hn Hb) as Hcnt. fold needed in Hcnt.
  apply wp_bind. eapply wp_mono; [|intros lines s2 Hs2; apply wp_bind; eapply wp_mono; [apply IH; exact Hs2|]; intros rest s3 Hs3; apply wp_ret; exact Hs3].
  destruct r as [block|]; [|apply wp_ret; by eapply unchanged_trans].
  eapply wp_intro; [apply dump_entries_run|by eapply unchanged_trans].
  apply Forall_forall. intros i Hi%elem_of_seqZ. lia.
Qed.

Lemma dump_imap_wp s : disk_ok s → wp dump_imap (λ _ s', unchanged s s') s.
Proof using Type.
  intros Hok. unfold dump_imap. apply wp_bind. eapply wp_mono; [by apply dbg_read_wp|].
  intros r s1 (Hu & [->| ->] & _); [by apply wp_ret|]. set (cp_block := if _ =? 0 then _ else _).
  assert (0 <= cp_block < 2 ^ 50) as Hcp by by unfold cp_block; case_match. clearbody cp_block.
  apply wp_bind. eapply wp_mono; [apply dbg_read_wp; lia|].
  intros r s2 (Hu2 & [->| ->] & _); [apply wp_ret; by eapply unchanged_trans|].
  assert (is_u32 (ch_imap_entries (dec (disk_block (c_disk s1) cp_block)))) as Hn.
  { destruct Hu as (-> & _). destruct (Hok cp_block) as [Hl Hb]. assert (Z.of_nat BS = 4096) as HBS by done.
    assert (disk_wf (dec (disk_block (c_disk s) cp_block) : lsfs_checkpoint_header)) as Hw.
    { apply dec_wf; [done|]. rewrite Hl. cbn [sizeof checkpoint_header_ondisk]. lia. }
    cbn [disk_wf checkpoint_header_ondisk] in Hw. naive_solver. }
  apply wp_bind. eapply wp_mono; [apply (dump_imap_blocks_wp s); [done|done|by eapply unchanged_trans|]|by intros; apply wp_ret].
  apply Forall_forall. intros b Hb%elem_of_seqZ. lia.
Qed.
End Defined.

(** * The list of the inode map *)

(** Entry [k] of a saved map in its block *)
Lemma region_entry d r h l k e :
  (∀ b, is_block (disk_block d b)) → region_holds d r h l → l !! k = Some e →
  dec_at (k mod 256) (disk_block d (region_start r + 1 + Z.of_nat (k / 256))) = e.
Proof.
  intros Hok [_ _ _ Hlen Hwf _ [rest Himg]] Hk. pose proof (lookup_lt_Some _ _ _ Hk) as Hlt.
  assert (Z.of_nat BS = 4096) as HBS by done.
  set (n := Z.to_nat _) in Himg. set (start := region_start r + 1) in *.
  assert (k / 256 < n)%nat as Hq.
  { unfold n, imap_blocks_needed. change imap_entries_per_block with 256. rewrite u32_small by lia.
    apply Nat2Z.inj_lt. rewrite Z2Nat.id by (apply Z.div_pos; lia). rewrite Nat2Z.inj_div.
    apply Z.lt_le_trans with (Z.of_nat k / 256 + 1); [lia|]. rewrite <-Z.div_add by lia. apply Z.div_le_mono; lia. }
  set (blks := disk_blocks d start n) in *. assert (Forall is_block blks) as Hblks.
  { apply Forall_fmap, Forall_forall. intros i _. apply Hok. }
  assert (blks !! (k / 256)%nat = Some (disk_block d (start + Z.of_nat (k / 256)))) as Hblk by by apply disk_blocks_lookup.
  assert (drop (k / 256 * BS) (concat blks) =
    disk_block d (start + Z.of_nat (k / 256)) ++ concat (drop (S (k / 256)) blks)) as Hdrop.
  { rewrite <-(take_drop (k / 256) blks) at 1. rewrite concat_app, (drop_S _ _ _ Hblk). cbn [concat].
    apply drop_app_length'. destruct (length_concat_blocks _ (Forall_take _ (k / 256) _ Hblks)) as [-> _].
    rewrite length_take. unfold blks. rewrite length_disk_blocks. lia. }
  rewrite <-(dec_at_enc l k e rest Hwf Hk), <-Himg. unfold dec_at. change (sizeof lsfs_imap_entry) with 16%nat.
  pose proof (Nat.div_mod k 256 ltac:(lia)) as Hdm. pose proof (Nat.mod_upper_bound k 256 ltac:(lia)) as Hmod.
  replace (k * 16)%nat with (k / 256 * BS + k mod 256 * 16)%nat by lia. rewrite <-drop_drop, Hdrop.
  destruct (Hok (start + Z.of_nat (k / 256))) as [Hl Hb].
  rewrite drop_app_le by lia. symmetry. apply (dec_app (A := lsfs_imap_entry)).
  - by apply Forall_drop.
  - apply length_concat_blocks. by apply Forall_drop.
  - rewrite length_drop. change (sizeof lsfs_imap_entry) with 16%nat. lia.
Qed.

Section Lists.
Context `{E : Env, !Healthy E}.
Implicit Types s : lsfs_context.

Lemma dbg_read_ok s b :
  0 <= b → (b + 1) * LSFS_BLOCK_SIZE <= c_disk_size s < 2 ^ 63 →
  ∃ s', dbg_read_block b s = Some (Some (disk_block (c_disk s) b), s') ∧ unchanged s s'.
Proof using Type*.
  intros Hb Hsz. assert (0 <= b < 2 ^ 51) as Hb' by (unfold LSFS_BLOCK_SIZE in *; lia).
  destruct (wp_elim _ _ _ (dbg_read_wp s b Hb')) as (r & s' & Hrun & Hu & Hr & Hok).
  exists s'. split; [|done]. destruct Hr as [->| ->]; [by destruct (Hok _ (proj1 Hsz))|done].
Qed.

(** The entries of block [q] of the region *)
Lemma block_lines d r h l (q cnt : nat) :
  (∀ b, is_block (disk_block d b)) → region_holds d r h l → (cnt <= 256)%nat → (256 * q + cnt <= length l)%nat →
  (λ i, imap_line (dec_at (Z.to_nat i) (disk_block d (region_start r + 1 + Z.of_nat q)))) <$> seqZ 0 (Z.of_nat cnt) =
  imap_line <$> take cnt (drop (256 * q) l).
Proof using Type.
  intros Hok Hr Hcnt Hl. apply list_eq. intros i. rewrite !list_lookup_fmap.
  destruct (decide (i < cnt)%nat) as [Hi|Hi].
  - rewrite lookup_seqZ_lt, lookup_take_lt, lookup_drop by lia.
    destruct (lookup_lt_is_Some_2 l (256 * q + i)) as [e He]; [lia|]. rewrite He. cbn. do 2 f_equal.
    pose proof (region_entry d r h l (256 * q + i) e Hok Hr He) as Hre.
    replace ((256 * q + i) mod 256)%nat with i in Hre by (rewrite Nat.mul_comm, Nat.add_comm, Nat.Div0.mod_add, Nat.mod_small; lia).
    replace ((256 * q + i) / 256)%nat with q in Hre by (rewrite Nat.mul_comm, Nat.div_add_l, Nat.div_small; lia).
    rewrite <-Hre. by replace (Z.to_nat (0 + Z.of_nat i)) with i by lia.
  - rewrite lookup_seqZ_ge, lookup_take_ge by lia. done.
Qed.

Lemma dump_imap_blocks_lists s0 r h l (m q : nat) s :
  disk_ok s0 → unchanged s0 s → region_holds (c_disk s0) r h l → LSFS_LOG_START * LSFS_BLOCK_SIZE <= c_disk_size s0 < 2 ^ 63 →
  Z.of_nat (q + m) = imap_blocks_needed (Z.of_nat (length l)) → (256 * q <= length l)%nat →
  ∃ s', dump_imap_blocks (region_start r) (Z.of_nat (length l)) (imap_blocks_needed (Z.of_nat (length l)))
      (seqZ (Z.of_nat q) (Z.of_nat m)) s = Some (concat (imap_line <$> drop (256 * q) l), s') ∧ unchanged s0 s'.
Proof using Type*.
  intros Hok Hu Hr Hsz. pose proof (rh_length _ _ _ _ Hr) as Hlen.
  assert (imap_blocks_needed (Z.of_nat (length l)) = (Z.of_nat (length l) + 255) / 256) as Hnd.
  { unfold imap_blocks_needed. change imap_entries_per_block with 256. rewrite u32_small by lia. f_equal. lia. }
  rewrite Hnd. pose proof (Z.div_mod (Z.of_nat (length l) + 255) 256 ltac:(lia)) as Hdm.
  pose proof (Z.mod_pos_bound (Z.of_nat (length l) + 255) 256 ltac:(lia)) as Hmod. set (needed := _ / 256) in *. clearbody needed.
  revert q s Hu. induction m as [|m IH]; intros q s Hu Hqm Hq.
  - exists s. rewrite Nat.add_0_r in Hqm. rewrite drop_ge by lia. done.
  - rewrite seqZ_cons by lia. cbn [dump_imap_blocks].
    assert (1 <= region_start r <= 257) as Hrs.
    { destruct (region_start_cases r) as [->| ->]; unfold LSFS_CHECKPOINT0_START, LSFS_CHECKPOINT1_START; lia. }
    rewrite (u64_small (region_start r + 1 + Z.of_nat q)) by lia.
    destruct Hu as (Hd & Hz & Htr). destruct (dbg_read_ok s (region_start r + 1 + Z.of_nat q)) as (s1 & Hread & Hu1).
    { lia. }
    { rewrite Hz. unfold LSFS_LOG_START, LSFS_BLOCK_SIZE in *. lia. }
    erewrite bind_run by exact Hread. cbv beta iota.
    set (cnt := Z.to_nat (if Z.of_nat q =? needed - 1 then Z.of_nat (length l) - Z.of_nat q * 256 else 256)).
    assert (256 * q + cnt <= length l ∧ cnt <= 256 ∧ (m ≠ 0 → cnt = 256) ∧ (m = 0 → 256 * q + cnt = length l))%nat as (Hc1 & Hc2 & Hc3 & Hc4).
    { unfold cnt. destruct (Z.eqb_spec (Z.of_nat q) (needed - 1)); lia. }
    replace (if Z.of_nat q =? u32 (needed - 1) then _ else _) with (Z.of_nat cnt).
    2:{ change entries_per_block with 256. rewrite (u32_small (needed - 1)) by lia. unfold cnt.
        destruct (Z.eqb_spec (Z.of_nat q) (needed - 1)); [|lia]. rewrite (u32_small (_ * 256)), u32_small by lia. lia. }
    erewrite bind_run.
    2:{ apply dump_entries_run. apply Forall_forall. intros i Hi%elem_of_seqZ. rewrite entries_256. lia. }
    replace (Z.succ (Z.of_nat q)) with (Z.of_nat (S q)) by lia. replace (Z.pred (Z.of_nat (S m))) with (Z.of_nat m) by lia.
    rewrite Hd. rewrite (block_lines (c_disk s0) r h l q cnt Hok Hr Hc2 Hc1).
    assert (unchanged s0 s1) as Hu01 by (eapply unchanged_trans; [|exact Hu1]; done).
    destruct m as [|m'].
    + exists s1. cbn [seqZ]. split; [|done]. change (seqZ (Z.of_nat (S q)) (Z.of_nat 0)) with ([] : list Z).
      cbn [dump_imap_blocks]. unfold mbind, M_bind, mret, M_ret. rewrite app_nil_r. do 3 f_equal.
      rewrite take_ge; [done|]. rewrite length_drop. lia.
    + destruct (IH (S q) s1 Hu01) as (s2 & Hrun & Hu2); [lia|lia|]. exists s2. split; [|done].
      erewrite bind_run by exact Hrun. unfold mret, M_ret. do 2 f_equal. rewrite <-concat_app, <-fmap_app. do 2 f_equal.
      rewrite Hc3 by done. replace (256 * S q)%nat with (256 * q + 256)%nat by lia. rewrite <-drop_drop. apply take_drop.
Qed.
End Lists.

(** What a command may be asked for: segments in [segs], inodes that lie in their block and
    are not symbolic links. *)
Definition command_ok (s : lsfs_context) (segs : Z → Prop) (c : command) : Prop :=
  match c with
  | CmdSegment (Some id) => segs (u32 id)
  | CmdAll => segs 0
  | CmdInode (Some block) offset =>
      0 <= block < 2 ^ 51 ∧ u32 (default 0 offset) <= 13 ∧
      Z.land (i_mode (inode_at s block (u32 (default 0 offset)))) S_IFMT ≠ S_IFLNK
  | _ => True
  end.

Lemma times_ok_unchanged s s' segs : times_ok s segs → unchanged s s' → times_ok s' segs.
Proof. intros [? ? ? ?] (Hd & _ & _). split; by rewrite Hd. Qed.
Lemma disk_ok_unchanged s s' : disk_ok s → unchanged s s' → disk_ok s'.
Proof. intros H (Hd & _ & _). unfold disk_ok. by rewrite Hd. Qed.

Lemma wp_unchanged {A B} (m : Op A) (f : A → Op B) s0 s :
  unchanged s0 s → wp m (λ _ s', unchanged s s') s →
  (∀ a s', unchanged s0 s' → wp (f a) (λ _ s', unchanged s0 s') s') → wp (m ≫= f) (λ _ s', unchanged s0 s') s.
Proof. intros Hu Hm Hf. apply wp_bind. eapply wp_mono; [exact Hm|]. intros a s' Hs'. apply Hf. by eapply unchanged_trans. Qed.

(** C37. The tool only looks: whichever reads fail, every command ends and leaves the image as
    it is, provided the times on the image have a calendar date and, for the dump of an
    inode, the block number is below 2^51, the index at most 13 and the inode no symbolic
    link.  The dump of an inode with a greater index reads beyond the block it has read,
    although the usage message allows 15.  Reading a superblock also overwrites the 16
    bytes behind it on the stack ([lsfs-debug.c:60] and [280]), about which nothing is
    said here. *)
Theorem debug_defined `{E : Env} calendar s segs argv0 args open_error :
  datable calendar → disk_ok s → times_ok s segs →
  match args with Some (_, c) => command_ok s segs c | None => True end →
  wp (debug_main calendar argv0 args open_error) (λ _ s', unchanged s s') s ∧
  (Healthy E → ∀ block offset, 0 <= block → (block + 1) * LSFS_BLOCK_SIZE <= c_disk_size s < 2 ^ 63 →
     13 < offset < 2 ^ 32 → dump_inode calendar block offset s = None).
Proof.
  intros Hcal Hok Ht Hc. split; [|intros; by apply dump_inode_outside]. unfold debug_main.
  destruct args as [[path c]|]; [|by apply wp_ret]. destruct open_error; [by apply wp_ret|].
  assert (∀ s', unchanged s s' → disk_ok s' ∧ times_ok s' segs) as Hun.
  { intros s' Hu. split; [by eapply disk_ok_unchanged|by eapply times_ok_unchanged]. }
  pose proof (unchanged_refl s) as Hrefl.
  assert (∀ (o : output) (k : Z) s', unchanged s s' → wp (mret (o, k)) (λ _ s', unchanged s s') s') as Hret by (intros; by apply wp_ret).
  destruct c as [|[which|]|[id|]|[block|] offset| | |name]; cbn [debug_command]; try (by apply wp_ret).
  - eapply wp_unchanged; [done|by eapply dump_superblock_wp|by auto].
  - eapply wp_unchanged; [done|by eapply dump_checkpoint_wp|by auto].
  - eapply wp_unchanged; [done|by eapply dump_checkpoint_wp|]. intros o0 s1 Hu1. destruct (Hun s1 Hu1).
    eapply wp_unchanged; [done|by eapply dump_checkpoint_wp|by auto].
  - eapply wp_unchanged; [done|eapply dump_segment_wp; [done..|apply u32_range]|by auto].
  - destruct Hc as (Hb & Ho & Hl). eapply wp_unchanged; [done|apply dump_inode_wp; [done..| |done]|by auto].
    pose proof (u32_range (default 0 offset)). lia.
  - eapply wp_unchanged; [done|by apply dump_imap_wp|by auto].
  - eapply wp_unchanged; [done|by eapply dump_superblock_wp|]. intros o1 s1 Hu1. destruct (Hun s1 Hu1) as [Hok1 Ht1].
    eapply wp_unchanged; [done|by eapply dump_checkpoint_wp|]. intros o2 s2 Hu2. destruct (Hun s2 Hu2) as [Hok2 Ht2].
    eapply wp_unchanged; [done|by eapply dump_checkpoint_wp|]. intros o3 s3 Hu3. destruct (Hun s3 Hu3) as [Hok3 Ht3].
    eapply wp_unchanged; [done|by apply dump_imap_wp|]. intros o4 s4 Hu4. destruct (Hun s4 Hu4) as [Hok4 Ht4].
    eapply wp_unchanged; [done|by eapply (dump_segment_wp calendar Hcal s4 segs 0)|by auto].
Qed.

(** * Lines determine entries *)

Definition is_digit (c : Z) : Prop := 48 <= c < 58.

Lemma digits10_digits n : is_u64 n → Forall is_digit (digits 97 10 n).
Proof.
  unfold digits. intros Hn. assert (0 <= n) as Hpos by (unfold is_u64 in Hn; lia). clear Hn.
  generalize 64%nat as fuel. intros fuel. revert n Hpos.
  induction fuel as [|fuel IH]; intros n Hpos; [constructor|]. cbn [digits_loop].
  assert (∀ d, 0 <= d < 10 → is_digit (digit 97 d)) as Hd.
  { intros d Hd. unfold is_digit, digit. rewrite (proj2 (Z.ltb_lt _ _)) by lia. lia. }
  destruct (Z.ltb_spec n 10); [repeat constructor; apply Hd; lia|].
  apply Forall_app. split; [apply IH, Z.div_pos; lia|]. repeat constructor; apply Hd, Z.mod_pos_bound; lia.
Qed.

(** A number is followed by something that is not a digit. *)
Lemma digits_end t t' c c' r r' :
  Forall is_digit t → Forall is_digit t' → ¬ is_digit c → ¬ is_digit c' →
  t ++ c :: r = t' ++ c' :: r' → t = t' ∧ r = r'.
Proof.
  intros Ht. revert t'. induction Ht as [|x t Hx Ht IH]; intros t' Ht' Hc Hc' Heq.
  - destruct Ht' as [|y t' Hy _]; [by simplify_eq/=|by simplify_eq/=].
  - destruct Ht' as [|y t' Hy Ht']; [by simplify_eq/=|]. cbn in Heq. injection Heq as -> Heq.
    by destruct (IH t' Ht' Hc Hc' Heq) as [-> ->].
Qed.

Lemma digits10_inj n n' c c' r r' :
  is_u64 n → is_u64 n' → ¬ is_digit c → ¬ is_digit c' →
  digits 97 10 n ++ c :: r = digits 97 10 n' ++ c' :: r' → n = n' ∧ r = r'.
Proof.
  intros Hn Hn' Hc Hc' Heq. apply digits_end in Heq as [Heq ->]; auto using digits10_digits. split; [|done].
  rewrite <-(number_value_digits 97 10 n), <-(number_value_digits 97 10 n') by (lia || done || auto). by rewrite Heq.
Qed.

Lemma imap_line_inj e e' :
  disk_wf e → disk_wf e' → 0 < ie_ino e → 0 < ie_ino e' → imap_line e = imap_line e' → e = e'.
Proof.
  destruct e as [i v a], e' as [i' v' a']. intros (Hi & Hv & Ha) (Hi' & Hv' & Ha') Hp Hp'.
  cbn in *. unfold imap_line. cbn [ie_ino ie_version ie_location].
  rewrite (proj2 (Z.ltb_lt _ _) Hp), (proj2 (Z.ltb_lt _ _) Hp'). intros [= Heq].
  rewrite ?app_nil_r in Heq. unfold is_u32, is_u64, is_digit in *.
  apply digits10_inj in Heq as [-> Heq]; unfold is_u64, is_digit; [|lia..]. simplify_eq/=.
  apply digits10_inj in Heq as [-> Heq]; unfold is_u64, is_digit; [|lia..]. simplify_eq/=.
  apply digits10_inj in Heq as [-> _]; unfold is_u64, is_digit; [|lia..]. done.
Qed.

(** * The theorem *)

(** C36. On an image whose active checkpoint holds the map [l], reading without failures,
    the command that dumps the inode map prints its title, the number of entries, and one
    line for each entry of [l] in order (inode number 0 is not printed); the lines of two
    different entries differ, so the listing determines the map.  The image is unchanged. *)
Theorem dump_imap_lists `{E : Env, !Healthy E} s r h l :
  disk_ok s → LSFS_LOG_START * LSFS_BLOCK_SIZE <= c_disk_size s < 2 ^ 63 → r = 0 ∨ r = 1 →
  sb_active_checkpoint (dec (disk_block (c_disk s) 0)) = r → region_holds (c_disk s) r h l →
  (∃ s', dump_imap s = Some (printf [Txt "=== INODE MAP ==="; NL] ++
      printf [Txt "Entries: "; Dec (Z.of_nat (length l)); NL; NL] ++ concat (imap_line <$> l) ++ printf [NL], s') ∧
    unchanged s s') ∧
  ∀ e e', e ∈ l → e' ∈ l → 0 < ie_ino e → 0 < ie_ino e' → imap_line e = imap_line e' → e = e'.
Proof.
  intros Hok Hsz Hr Hact Hreg. unfold LSFS_LOG_START, LSFS_BLOCK_SIZE in Hsz. split.
  - unfold dump_imap. destruct (dbg_read_ok s 0) as (s1 & Hread & Hu1); [lia|unfold LSFS_BLOCK_SIZE; lia|].
    erewrite bind_run by exact Hread. cbv beta iota. rewrite Hact.
    replace (if r =? 0 then _ else _) with (region_start r) by (by destruct Hr as [->| ->]).
    assert (1 <= region_start r <= 257) as Hrs by (by destruct Hr as [->| ->]).
    destruct (dbg_read_ok s1 (region_start r)) as (s2 & Hread2 & Hu2).
    { lia. }
    { destruct Hu1 as (_ & -> & _). unfold LSFS_BLOCK_SIZE. lia. }
    erewrite bind_run by exact Hread2. cbv beta iota. destruct Hu1 as (Hd1 & Hz1 & Ht1). rewrite Hd1.
    change (dec (disk_block (c_disk s) (region_start r))) with (header_at (c_disk s) r).
    rewrite (rh_header _ _ _ _ Hreg), (rh_count _ _ _ _ Hreg).
    change (u32 (Z.of_nat (length l) + entries_per_block - 1) / entries_per_block) with (imap_blocks_needed (Z.of_nat (length l))).
    assert (0 <= imap_blocks_needed (Z.of_nat (length l))) as Hnn.
    { unfold imap_blocks_needed. apply Z.div_pos; [apply u32_range|done]. }
    destruct (dump_imap_blocks_lists s r h l (Z.to_nat (imap_blocks_needed (Z.of_nat (length l)))) 0 s2) as (s3 & Hrun & Hu3).
    { done. }
    { eapply unchanged_trans; [|exact Hu2]. done. }
    { done. }
    { done. }
    { rewrite Nat.add_0_l, Z2Nat.id; done. }
    { lia. }
    rewrite Z2Nat.id in Hrun by done. exists s3. split; [|done]. erewrite bind_run by exact Hrun. done.
  - intros e e' He He'. pose proof (rh_entries _ _ _ _ Hreg) as Hwf. rewrite Forall_forall in Hwf.
    apply imap_line_inj; by apply Hwf.
Qed.
