(* ===== verification/Cli.v ===== *)
(** The command lines: what [getopt_long], [strtoull] and [atoi] make of the words, and the
    main functions of [src/main.c] and of the tools, from the words to the operations the
    other files model.  A word is the list of its bytes, without the final 0. *)
From Stdlib Require Import Strings.String.
From S2P Require Import Prelude OnDisk Lru Context Io SegTable Log Checkpoint Mount Mkfs Fsck Debug DebugView.

(** * The library functions *)

Definition is_space (c : Z) : bool := (c =? 32) || ((9 <=? c) && (c <=? 13)).
Definition is_decimal (c : Z) : bool := (48 <=? c) && (c <=? 57).

Fixpoint skip_spaces (w : list Z) : list Z :=
  match w with
  | c :: w' => if is_space c then skip_spaces w' else w
  | [] => []
  end.

(** The number the digits at the beginning of a word stand for. *)
Fixpoint read_digits (acc : Z) (w : list Z) : Z :=
  match w with
  | c :: w => if is_decimal c then read_digits (acc * 10 + (c - 48)) w else acc
  | [] => acc
  end.

(** An optional sign: whether it is a minus, and the rest. *)
Definition read_sign (w : list Z) : bool * list Z :=
  match w with
  | c :: w' => if c =? 45 then (true, w') else if c =? 43 then (false, w') else (false, w)
  | [] => (false, [])
  end.

(** [strtoull(w, NULL, 10)]: too large a number gives [ULLONG_MAX], a minus sign negates
    the result as an unsigned number. *)
Definition strtoull (w : list Z) : Z :=
  let '(neg, w) := read_sign (skip_spaces w) in
  let n := read_digits 0 w in
  if 2 ^ 64 <=? n then 2 ^ 64 - 1 else if neg then u64 (- n) else n.

(** [atoi(w)], undefined when the number is no [int]. *)
Definition atoi (w : list Z) : option Z :=
  let '(neg, w) := read_sign (skip_spaces w) in
  let n := if neg then - read_digits 0 w else read_digits 0 w in
  if (- 2 ^ 31 <=? n) && (n <? 2 ^ 31) then Some n else None.

(** What one call of [getopt_long] answers: an option with its argument, or a complaint. *)
Inductive answer :=
  | Option (c : Z) (optarg : option (list Z))
  | Complaint.

(** The options of a program: short ones, with whether they take an argument, and the long
    ones with the short option each stands for. *)
Record options := mk_options {
  short_options : list (Z * bool);
  long_options : list (list Z * Z) }.

Definition takes_argument (o : options) (c : Z) : option bool :=
  match filter (λ x, x.1 = c) (short_options o) with
  | x :: _ => Some x.2
  | [] => None
  end.

(** A long option may be abbreviated as long as it is the only one meant. *)
Definition find_long (o : options) (name : list Z) : option Z :=
  match filter (λ x, x.1 = name) (long_options o) with
  | x :: _ => Some x.2
  | [] => match filter (λ x, name `prefix_of` x.1) (long_options o) with
          | [x] => Some x.2
          | _ => None
          end
  end.

(** [name=value] *)
Fixpoint split_value (w : list Z) : list Z * option (list Z) :=
  match w with
  | [] => ([], None)
  | c :: w => if c =? 61 then ([], Some w) else let '(n, v) := split_value w in (c :: n, v)
  end.

Inductive word :=
  | Operand
  | EndOfOptions
  | LongOption (name : list Z)
  | ShortOptions (cs : list Z).

Definition classify (w : list Z) : word :=
  match w with
  | c1 :: c2 :: rest =>
      if negb (c1 =? 45) then Operand
      else if negb (c2 =? 45) then ShortOptions (c2 :: rest)
      else match rest with [] => EndOfOptions | _ => LongOption rest end
  | _ => Operand
  end.

(** The options in one word, and the last of them when its argument is the next word. *)
Fixpoint short_answers (o : options) (cs : list Z) : list answer * option Z :=
  match cs with
  | [] => ([], None)
  | c :: cs =>
      match takes_argument o c with
      | Some true => match cs with [] => ([], Some c) | _ => ([Option c (Some cs)], None) end
      | Some false => let '(l, last) := short_answers o cs in (Option c None :: l, last)
      | None => let '(l, last) := short_answers o cs in (Complaint :: l, last)
      end
  end.

Definition long_answer (o : options) (name : list Z) : list answer * option Z :=
  let '(name, value) := split_value name in
  match find_long o name with
  | None => ([Complaint], None)
  | Some c => match takes_argument o c, value with
              | Some true, None => ([], Some c)
              | Some true, Some v => ([Option c (Some v)], None)
              | _, None => ([Option c None], None)
              | _, Some _ => ([Complaint], None)
              end
  end.

(** The answers of all calls, and the words from [optind] on: the operands, which
    [getopt_long] moves behind the options. *)
Fixpoint getopt_long (o : options) (args : list (list Z)) : list answer * list (list Z) :=
  match args with
  | [] => ([], [])
  | w :: args =>
      let with_options := λ found : list answer * option Z,
        match found with
        | (l, None) => let '(l', operands) := getopt_long o args in ((l ++ l')%list, operands)
        | (l, Some c) => match args with
                         | [] => ((l ++ [Complaint])%list, [])
                         | a :: args => let '(l', operands) := getopt_long o args in
                                        ((l ++ Option c (Some a) :: l')%list, operands)
                         end
        end in
      match classify w with
      | Operand => let '(l, operands) := getopt_long o args in (l, w :: operands)
      | EndOfOptions => ([], args)
      | LongOption name => with_options (long_answer o name)
      | ShortOptions cs => with_options (short_answers o cs)
      end
  end.

(** * The programs *)

(** The loop over the options ends with the options, or with the usage message and the
    code the program exits with. *)
Inductive parsed (A : Type) :=
  | Exit (code : Z)
  | Parsed (a : A).
Arguments Exit {A} code.
Arguments Parsed {A} a.

(** ** [lsfs] *)

Definition lsfs_usage (progname : list Z) : output :=
  (eprintf [Txt "Usage: "; Chars progname; Txt " [options] <disk_image> <mount_point>"; NL; NL] ++
   eprintf [Txt "Options:"; NL] ++
   eprintf [Txt "  -f, --foreground    Run in foreground"; NL] ++
   eprintf [Txt "  -d, --debug         Enable debug output"; NL] ++
   eprintf [Txt "  -o <options>        FUSE mount options"; NL] ++
   eprintf [Txt "  -h, --help          Show this help"; NL] ++
   eprintf [NL] ++
   eprintf [Txt "Example:"; NL] ++
   eprintf [Txt "  "; Chars progname; Txt " -f disk.img /mnt/lsfs"; NL])%list.

Definition opt_f : Z := 102.
Definition opt_d : Z := 100.
Definition opt_o : Z := 111.
Definition opt_h : Z := 104.
Definition opt_s : Z := 115.
Definition opt_r : Z := 114.
Definition opt_v : Z := 118.

Definition lsfs_options : options := mk_options
  [(opt_f, false); (opt_d, false); (opt_o, true); (opt_h, false)]
  [(text "foreground", opt_f); (text "debug", opt_d); (text "help", opt_h)].

Record lsfs_settings := mk_settings {
  set_foreground : bool;
  set_debug : bool;
  set_fuse_args : list (list Z) }.

Fixpoint lsfs_parse (o : lsfs_settings) (l : list answer) : parsed lsfs_settings :=
  match l with
  | [] => Parsed o
  | Option c optarg :: l =>
      if c =? opt_f then lsfs_parse (mk_settings true (set_debug o) (set_fuse_args o)) l
      else if c =? opt_d then lsfs_parse (mk_settings true true (set_fuse_args o)) l
      else if c =? opt_o then
        lsfs_parse (mk_settings (set_foreground o) (set_debug o)
          (set_fuse_args o ++ [text "-o"; default [] optarg])%list) l
      else if c =? opt_h then Exit 0 else Exit 1
  | Complaint :: _ => Exit 1
  end.

(** The words handed to [fuse_session_new]. *)
Definition fuse_args (argv0 : list Z) (o : lsfs_settings) (mount_point : list Z) : list (list Z) :=
  (set_fuse_args o ++ [argv0] ++ (if set_foreground o then [text "-f"] else []) ++
   (if set_debug o then [text "-d"] else []) ++ [mount_point])%list.

Section Programs.
Context `{E : Env}.

(** [daemonize] is the answer of [fuse_daemonize], [session_loop] serves the requests; the
    messages of the operations are left out. *)
Definition lsfs_program (argv0 : list Z) (args : list (list Z)) (opened : bool) (st_size : option Z)
    (session_new : list (list Z) → bool) (session_mount : bool) (daemonize : Z) (session_loop : Op Z)
    : Op (output * Z) :=
  let '(l, operands) := getopt_long lsfs_options args in
  match lsfs_parse (mk_settings false false []) l with
  | Exit code => mret (lsfs_usage argv0, code)
  | Parsed o =>
      match operands with
      | [disk_path; mount_point] =>
          let session := if set_foreground o || (daemonize =? 0) then session_loop else mret daemonize in
          ret ← lsfs_main opened st_size (session_new (fuse_args argv0 o mount_point)) session_mount session;
          mret ([], ret)
      | _ => mret (lsfs_usage argv0, 1)
      end
  end.

(** ** [mkfs.lsfs] *)

Definition DEFAULT_SIZE_MB : Z := 256.

Definition mkfs_usage (progname : list Z) : output :=
  (eprintf [Txt "Usage: "; Chars progname; Txt " [options] <disk_image>"; NL; NL] ++
   eprintf [Txt "Options:"; NL] ++
   eprintf [Txt "  -s, --size <MB>     Filesystem size in MB (default: "; Int DEFAULT_SIZE_MB; Txt ")"; NL] ++
   eprintf [Txt "  -h, --help          Show this help"; NL] ++
   eprintf [NL] ++
   eprintf [Txt "Example:"; NL] ++
   eprintf [Txt "  "; Chars progname; Txt " -s 512 disk.img"; NL])%list.

Definition mkfs_options : options := mk_options
  [(opt_s, true); (opt_h, false)] [(text "size", opt_s); (text "help", opt_h)].

Fixpoint mkfs_parse (size_mb : Z) (l : list answer) : parsed Z :=
  match l with
  | [] => Parsed size_mb
  | Option c optarg :: l =>
      if c =? opt_s then mkfs_parse (strtoull (default [] optarg)) l
      else if c =? opt_h then Exit 0 else Exit 1
  | Complaint :: _ => Exit 1
  end.

Definition mkfs_program (argv0 : list Z) (args : list (list Z)) (opened extended : bool) (random : option (list Z))
    : Op (output * Z) :=
  let '(l, operands) := getopt_long mkfs_options args in
  match mkfs_parse DEFAULT_SIZE_MB l, operands with
  | Exit code, _ => mret (mkfs_usage argv0, code)
  | Parsed _, [] => mret (mkfs_usage argv0, 1)
  | Parsed size_mb, path :: _ =>
      ret ← mkfs_main opened extended random size_mb;
      mret (if size_mb <? 16 then eprintf [Txt "Error: Minimum size is 16 MB"; NL]
            else if 1024 <? size_mb then eprintf [Txt "Error: Maximum size is 1024 MB (1 GB)"; NL]
            else [], ret)
  end.

(** ** [fsck.lsfs] *)

Definition fsck_usage (progname : list Z) : output :=
  (eprintf [Txt "Usage: "; Chars progname; Txt " [options] <disk_image>"; NL; NL] ++
   eprintf [Txt "Options:"; NL] ++
   eprintf [Txt "  -r, --repair        Attempt to repair errors"; NL] ++
   eprintf [Txt "  -v, --verbose       Verbose output"; NL] ++
   eprintf [Txt "  -h, --help          Show this help"; NL])%list.

Definition fsck_options : options := mk_options
  [(opt_r, false); (opt_v, false); (opt_h, false)]
  [(text "repair", opt_r); (text "verbose", opt_v); (text "help", opt_h)].

Fixpoint fsck_parse (repair verbose : Z) (l : list answer) : parsed (Z * Z) :=
  match l with
  | [] => Parsed (repair, verbose)
  | Option c _ :: l =>
      if c =? opt_r then fsck_parse 1 verbose l
      else if c =? opt_v then fsck_parse repair 1 l
      else if c =? opt_h then Exit 0 else Exit 1
  | Complaint :: _ => Exit 1
  end.

Definition fsck_program (argv0 : list Z) (args : list (list Z)) (opened : bool) (st_size : option Z)
    : Op (output * Z) :=
  let '(l, operands) := getopt_long fsck_options args in
  match fsck_parse 0 0 l, operands with
  | Exit code, _ => mret (fsck_usage argv0, code)
  | Parsed _, [] => mret (fsck_usage argv0, 1)
  | Parsed (repair, verbose), path :: _ => ret ← run_fsck opened st_size repair verbose; mret ([], ret)
  end.

(** ** [lsfs-debug] *)

(** The command and its arguments; undefined when [atoi] is. *)
Definition debug_parse (name : list Z) (args : list (list Z)) : option command :=
  if decide (name = text "superblock") then Some CmdSuperblock
  else if decide (name = text "checkpoint") then
    match args with
    | [] => Some (CmdCheckpoint None)
    | a :: _ => which ← atoi a; Some (CmdCheckpoint (Some which))
    end
  else if decide (name = text "segment") then
    match args with
    | [] => Some (CmdSegment None)
    | a :: _ => id ← atoi a; Some (CmdSegment (Some id))
    end
  else if decide (name = text "inode") then
    match args with
    | [] => Some (CmdInode None None)
    | [a] => Some (CmdInode (Some (strtoull a)) None)
    | a :: b :: _ => offset ← atoi b; Some (CmdInode (Some (strtoull a)) (Some offset))
    end
  else if decide (name = text "imap") then Some CmdImap
  else if decide (name = text "all") then Some CmdAll
  else Some (CmdOther name).

Definition debug_program (calendar : Z → option (list Z)) (argv0 : list Z) (args : list (list Z))
    (open_error : option (list Z)) : Op (output * Z) :=
  match args, open_error with
  | path :: name :: args, None =>
      c ← of_opt (debug_parse name args);
      debug_main calendar argv0 (Some (path, c)) None
  | path :: name :: _, Some _ => debug_main calendar argv0 (Some (path, CmdOther name)) open_error
  | _, _ => debug_main calendar argv0 None open_error
  end.
End Programs.

(** * Numbers on the command line *)

Lemma read_digits_value acc w :
  Forall is_digit w → read_digits acc w = foldl (λ v c, v * 10 + digit_value c) acc w.
Proof.
  intros Hw. revert acc. induction Hw as [|c w Hc Hw IH]; intros acc; [done|]. cbn [read_digits foldl].
  unfold is_digit in Hc. unfold is_decimal, digit_value at 2.
  rewrite (proj2 (Z.leb_le _ _)), (proj2 (Z.leb_le _ _)), (proj2 (Z.ltb_lt _ _)) by lia. cbn [andb].
  rewrite IH. done.
Qed.

Lemma digits_cons n : is_u64 n → ∃ c t, digits 97 10 n = c :: t ∧ is_digit c ∧ Forall is_digit t.
Proof.
  intros Hn. pose proof (digits10_digits n Hn) as Hd. destruct (digits 97 10 n) as [|c t] eqn:He.
  - exfalso. unfold digits in He. cbn [digits_loop] in He. destruct (n <? 10); [done|].
    by destruct (app_cons_not_nil _ _ _ (eq_sym He)).
  - apply Forall_cons in Hd as [Hc Ht]. eauto.
Qed.

(** What is printed as a number is read as that number. *)
Lemma strtoull_digits n : is_u64 n → strtoull (digits 97 10 n) = n.
Proof.
  intros Hn. destruct (digits_cons n Hn) as (c & t & He & Hc & Ht).
  assert (read_digits 0 (digits 97 10 n) = n) as Hv.
  { rewrite read_digits_value by by apply digits10_digits. by apply (number_value_digits 97 10); [right|lia|]. }
  unfold strtoull. unfold is_digit in Hc. rewrite He in *. cbn [skip_spaces]. unfold is_space.
  rewrite (proj2 (Z.eqb_neq c 32)), (proj2 (Z.leb_gt c 13)), andb_false_r by lia. cbn [orb read_sign].
  rewrite (proj2 (Z.eqb_neq c 45)), (proj2 (Z.eqb_neq c 43)) by lia. rewrite Hv.
  unfold is_u64 in Hn. by rewrite (proj2 (Z.leb_gt _ _)) by lia.
Qed.

(** * Theorem *)

(** A word that is no option *)
Definition operand (w : list Z) : Prop := classify w = Operand.

(** Six ways to give the size, before or after the image. *)
Definition size_spellings (n : Z) (path : list Z) : list (list (list Z)) :=
  let num := digits 97 10 n in
  [[text "-s"; num; path]; [path; text "-s"; num]; [(text "-s" ++ num)%list; path];
   [text "--size"; num; path]; [path; (text "--size=" ++ num)%list]; [text "--si"; num; path]].

(** The size option of [mkfs.lsfs]: in the spellings above, the size in decimal digits makes
    the program format an image of that size. *)
Theorem mkfs_size_option `{E : Env} argv0 args path n opened extended random s :
  is_u64 n → operand path → args ∈ size_spellings n path →
  mkfs_program argv0 args opened extended random s =
    (ret ← mkfs_main opened extended random n;
     mret (if n <? 16 then eprintf [Txt "Error: Minimum size is 16 MB"; NL]
           else if 1024 <? n then eprintf [Txt "Error: Maximum size is 1024 MB (1 GB)"; NL]
           else [], ret)) s.
Proof.
  intros Hn Hp Hargs. pose proof (strtoull_digits n Hn) as Hnum. destruct (digits_cons n Hn) as (c & t & He & Hc & Ht).
  assert (getopt_long mkfs_options args = ([Option opt_s (Some (digits 97 10 n))], [path])) as Hget.
  { unfold operand in Hp. unfold size_spellings in Hargs. cbv zeta in Hargs. rewrite He in *.
    repeat (apply elem_of_cons in Hargs as [->|Hargs]); [..|by apply not_elem_of_nil in Hargs];
      cbn; rewrite ?Hp; cbn; rewrite ?Hp; done. }
  unfold mkfs_program. rewrite Hget. cbn [mkfs_parse default]. unfold id. by rewrite Hnum.
Qed.
