(* ===== verification/Demo.v ===== *)
(** A concrete filesystem of four segments with two files, and the theorems of the
    other files applied to it: their hypotheses can be met together. *)
From Stdlib Require Import Sorting.Sorted Strings.String.
From S2P Require Import Prelude OnDisk Lru Context Io BufferPool PoolView Imap SegTable Log.
From S2P Require Import Checkpoint Crash LogView Inode FileView InodeDisk InodeCache Directory DirBlock DirView.
From S2P Require Import Gc GcSelect GcClean Fuse Mount Recovery Mkfs MkfsView Unmount Typed Fsck.
From S2P Require Import FsckView FuseView NameView Debug DebugView Cli.

Definition demo_sb : lsfs_superblock :=
  mk_superblock LSFS_MAGIC LSFS_VERSION 4096 1024 5121 4 2 1 257 0 0 1025 3
    (replicate 16 0) 0 0 0 0 (replicate sb_reserved_len 0).

Definition demo_e1 : lsfs_imap_entry := mk_imap_entry 1 1 1026.
Definition demo_e2 : lsfs_imap_entry := mk_imap_entry 7 3 1030.
Definition demo_imap : lsfs_imap := mk_imap [demo_e1; demo_e2; zero_entry] 3 2 8.

Definition demo_table : lsfs_segment_table :=
  mk_segment_table (mk_segment_usage 0 LSFS_SEG_ACTIVE 0 0 5 :: replicate 3 zero_usage) 4 3.

(** The checkpoint on disk: sequence 9, one inode; region 1 is empty. *)
Definition demo_header : lsfs_checkpoint_header :=
  mk_checkpoint_header LSFS_CHECKPOINT_MAGIC LSFS_VERSION 9 5 1025 1 4 0 1.
Definition demo_disk : disk :=
  write_range 1 (header_block demo_header :: to_blocks 1 (enc_array [demo_e1])) ∅.

Definition demo_ctx (b : lsfs_segment_buffer) : lsfs_context :=
  mk_ctx demo_disk [] ((LSFS_LOG_START + 4 * LSFS_SEGMENT_BLOCKS) * LSFS_BLOCK_SIZE) demo_sb
    (mk_inode_cache ∅ 0 [] lru_empty 0) demo_imap demo_table b
    (mk_buffer_pool [] [] lru_empty) 9 5 0 true false true false 0.

Definition demo_cache : cache := mk_cache demo_disk [].

(** * The pieces are well-formed *)

Lemma demo_sb_wf : disk_wf demo_sb.
Proof.
  cbn [disk_wf superblock_ondisk demo_sb sb_magic sb_version sb_block_size sb_segment_size
    sb_total_blocks sb_total_segments sb_inode_count sb_checkpoint_region0 sb_checkpoint_region1
    sb_active_checkpoint sb_padding1 sb_log_head sb_free_segments sb_uuid sb_created_at sb_mounted_at
    sb_mount_count sb_state sb_reserved].
  unfold is_u32, is_u64, is_bytes, LSFS_MAGIC, LSFS_VERSION.
  split_and!; try lia; auto using zeros_bytes, length_replicate.
Qed.

Lemma demo_entries_wf : Forall disk_wf [demo_e1; demo_e2].
Proof. repeat constructor; cbn; unfold is_u32, is_u64; lia. Qed.

Lemma demo_entries_sorted : StronglySorted by_ino [demo_e1; demo_e2].
Proof. repeat constructor; unfold by_ino; cbn; lia. Qed.

Lemma demo_imap_wf : imap_wf demo_imap.
Proof.
  split; [done|cbn; lia..|]. change (imap_live demo_imap) with [demo_e1; demo_e2].
  apply demo_entries_sorted.
Qed.

Lemma demo_table_wf : segtable_wf demo_table.
Proof.
  split; [done|cbn; lia|done|]. cbn [st_entries demo_table].
  constructor; [cbn; unfold is_u32, is_u64, LSFS_SEG_ACTIVE; lia|].
  apply Forall_replicate, zero_usage_wf.
Qed.

Lemma demo_segbuf_wf b :
  length (sg_data b) = seg_blocks_nat → Forall is_block (sg_data b) →
  length (sg_block_info b) = seg_blocks_nat → Forall disk_wf (sg_block_info b) →
  1 <= sg_block_count b <= LSFS_SEGMENT_BLOCKS → sg_segment_id b = 0 → log_wf (demo_ctx b).
Proof.
  intros. split; cbn [c_segtable c_segbuf c_imap c_sb demo_ctx]; try assumption.
  - apply demo_table_wf.
  - cbn. unfold max_table_segments. lia.
  - cbn. lia.
  - by replace (sg_segment_id b) with 0.
  - unfold in_disk. cbn [c_disk_size demo_ctx st_count demo_table].
    unfold LSFS_LOG_START, LSFS_SEGMENT_BLOCKS, LSFS_BLOCK_SIZE. lia.
  - apply demo_imap_wf.
  - apply demo_entries_wf.
  - apply demo_sb_wf.
  - by left.
Qed.

Lemma zero_info_wf : disk_wf zero_info.
Proof.
  cbn. unfold is_u32, is_u8, is_bytes. split_and!; [lia..|done|]. repeat constructor; unfold is_byte; lia.
Qed.

Lemma demo_idle_wf : log_wf (demo_ctx (fresh_segbuf 0)).
Proof.
  apply demo_segbuf_wf; cbn [fresh_segbuf sg_data sg_block_info sg_block_count sg_segment_id].
  - apply length_replicate.
  - apply Forall_replicate, zero_block_is_block.
  - apply length_replicate.
  - apply Forall_replicate, zero_info_wf.
  - unfold LSFS_SEGMENT_BLOCKS. lia.
  - done.
Qed.

(** The same with one data block in the buffer. *)
Definition demo_busy : lsfs_context :=
  after_append zero_block (new_info zero_info 7 0 LSFS_BLOCK_TYPE_DATA) (demo_ctx (fresh_segbuf 0)).

Lemma demo_busy_wf : log_wf demo_busy.
Proof.
  apply after_append_wf; [apply demo_idle_wf|apply zero_block_is_block| |done].
  destruct zero_info_wf as (_ & _ & _ & Hres).
  split; [|split; [|split; [|exact Hres]]]; cbn; unfold is_u32, is_u8, LSFS_BLOCK_TYPE_DATA; lia.
Qed.

Lemma demo_args : block_args zero_block 7 0 LSFS_BLOCK_TYPE_DATA.
Proof.
  split; [apply zero_block_is_block|]. unfold is_u32, is_u8, LSFS_BLOCK_TYPE_DATA. lia.
Qed.

Lemma demo_header_wf : disk_wf demo_header.
Proof. cbn. unfold is_u32, is_u64, LSFS_CHECKPOINT_MAGIC, LSFS_VERSION. lia. Qed.

Lemma demo_recovers : recovers_to demo_disk 0 demo_header [demo_e1].
Proof.
  split_and!; [by left|split|].
  - unfold header_at, demo_disk. change (region_start 0) with (1 + Z.of_nat 0).
    erewrite write_range_inside by done. apply dec_enc, demo_header_wf.
  - done.
  - done.
  - cbn. lia.
  - repeat constructor; cbn; unfold is_u32, is_u64; lia.
  - repeat constructor.
  - destruct (imap_image_fits [demo_e1]) as [_ Himg].
    { repeat constructor; cbn; unfold is_u32, is_u64; lia. } { cbn. lia. }
    eexists. rewrite <-Himg. apply (f_equal (@concat Z)).
    change (Z.to_nat (imap_blocks_needed (Z.of_nat (length [demo_e1])))) with 1%nat.
    unfold disk_blocks. cbn [seq fmap list_fmap].
    change (region_start 0 + 1 + Z.of_nat 0) with (1 + Z.of_nat 1). unfold demo_disk.
    by erewrite write_range_inside by done.
  - unfold other_older, header_at, demo_disk. change (region_start (1 - 0)) with 257.
    rewrite write_range_outside by (cbn; lia). unfold disk_block. rewrite lookup_empty. cbn [default].
    cbn [dec checkpoint_header_ondisk]. unfold get_le, header_valid, zero_block.
    rewrite !drop_replicate, !take_replicate, !le_val_zeros. done.
Qed.

Lemma demo_checkpointed s :
  c_disk s = demo_disk → sb_active_checkpoint (c_sb s) = 0 → c_checkpoint_seq s = 9 →
  checkpointed s demo_cache 0 demo_header [demo_e1].
Proof.
  intros Hd Ha Hs. split; [by rewrite Hd|split|done|rewrite Hs; cbn; lia].
  - by intros ?? ?%not_elem_of_nil.
  - apply demo_recovers.
Qed.

(** * The theorems at the example *)

#[local] Instance demo_env : Env := still_env 100.

Lemma struct_sizes_witness :
  Z.of_nat (length (enc demo_sb)) = 4080 ∧ 4080 ≠ LSFS_BLOCK_SIZE ∧ ∃ i : lsfs_inode,
  Z.of_nat (length (enc i)) = 296 ∧ 296 ≠ 256.
Proof.
  set (i := dec (replicate 296 0) : lsfs_inode).
  destruct (struct_sizes demo_sb i demo_sb_wf) as (H1 & H2 & H3 & H4).
  { apply dec_wf; [apply zeros_bytes|]. rewrite length_replicate. cbn [sizeof inode_ondisk]. unfold i_reserved_len. lia. }
  split_and!; [exact H1|exact H2|]. exists i. split; [exact H3|exact H4].
Defined.

Lemma write_failure_contained_witness :
  wp (lsfs_write_blocks 4 [zero_block]) (λ r s', io_frame (demo_ctx (fresh_segbuf 0)) s' ∧
    (r ≠ LSFS_OK → r = LSFS_ERR_IO) ∧
    (∀ b', ¬ 4 <= b' < 4 + Z.of_nat (length [zero_block]) →
       disk_block (c_disk s') b' = disk_block (c_disk (demo_ctx (fresh_segbuf 0))) b') ∧
    (c_readonly (demo_ctx (fresh_segbuf 0)) = true ∨
     c_disk_size (demo_ctx (fresh_segbuf 0)) < (4 + Z.of_nat (length [zero_block])) * LSFS_BLOCK_SIZE →
       r = LSFS_ERR_IO ∧ s' = demo_ctx (fresh_segbuf 0))) (demo_ctx (fresh_segbuf 0)).
Proof. apply write_failure_contained. apply log_addressable; [apply demo_idle_wf|done..]. Defined.

Lemma write_read_blocks_witness :
  let s := demo_ctx (fresh_segbuf 0) in
  ∃ s1 s2, lsfs_write_blocks 4 [zero_block] s = Some (LSFS_OK, s1) ∧
    lsfs_read_blocks 4 1 s1 = Some (Ok [zero_block], s2).
Proof.
  intros s. pose proof (log_in_disk s 4 1 demo_idle_wf) as Hd.
  specialize (Hd ltac:(lia) ltac:(lia) ltac:(done)).
  pose proof (write_blocks_ok s 4 [zero_block] Hd eq_refl) as Hw.
  set (s1 := after_write 4 [zero_block] s) in *.
  assert (in_disk s1 4 1) as Hd1 by exact Hd.
  pose proof (read_blocks_ok s1 4 1 Hd1) as Hr.
  destruct (write_read_blocks s 4 [zero_block] s1 _ _ (in_disk_addressable _ _ _ Hd) Hw Hr)
    as (Hgot & _).
  exists s1, (ticked s1). split; [exact Hw|]. rewrite Hr, Hgot. reflexivity.
Defined.

(** An empty image of the size of the file system, and the pool over it. *)
Definition demo_blank : lsfs_context := demo_ctx (fresh_segbuf 0) <| c_disk := ∅ |>.

Lemma demo_blank_ok : disk_ok demo_blank.
Proof. intros b. apply zero_block_is_block. Qed.

Lemma demo_blank_size : 0 <= c_disk_size demo_blank < 2 ^ 63.
Proof. done. Qed.

Lemma demo_blank_block : in_disk demo_blank 5 1.
Proof. done. Qed.

Lemma pool_safe_witness :
  wp (pool_run (PoolGet 5)) (λ _ s', pool_wf s') (with_pool fresh_pool (ticked demo_blank)).
Proof.
  destruct (pool_safe demo_blank (with_pool fresh_pool (ticked demo_blank)) (PoolGet 5)) as [_ H].
  - exact demo_blank_ok.
  - exact demo_blank_size.
  - apply reach_init. reflexivity.
  - exact (in_disk_addressable _ _ _ demo_blank_block).
  - eapply wp_mono; [exact H|]. by intros r s' [H' _].
Defined.

Lemma pool_transparent_witness :
  ∃ out s1, (out ← serve through_pool [BlockWrite 5 zero_block; BlockRead 5]; _ ← lsfs_buffer_flush; mret out)
    (with_pool fresh_pool demo_blank) = Some (out, s1).
Proof.
  destruct (pool_transparent (with_pool fresh_pool demo_blank) [BlockWrite 5 zero_block; BlockRead 5])
    as (out & s1 & _ & H & _).
  - exact (fresh_pool_wf _ demo_blank_ok demo_blank_size).
  - intros i b Hb. rewrite (fresh_buf i b Hb). reflexivity.
  - reflexivity.
  - intros n. eapply shows_eq; [apply fresh_pool_repr|]. apply shows_disk. intros i b (Hb & Hv & _).
    rewrite (fresh_buf i b Hb) in Hv. discriminate.
  - constructor; [split; [exact demo_blank_block|exact zero_block_is_block]|].
    constructor; [exact demo_blank_block|constructor].
  - exists out, s1. exact H.
Defined.

Lemma imap_refines_map_witness :
  ∃ rs im', imap_runs demo_imap [(CallGet 7, (true, [])); (CallRemove 1, (true, []))] = Some (rs, im') ∧
    imap_wf im' ∧ map_steps (imap_map demo_imap)
      [(CallGet 7); (CallRemove 1)] rs (imap_map im').
Proof.
  destruct (imap_refines_map demo_imap [(CallGet 7, (true, [])); (CallRemove 1, (true, []))] demo_imap_wf)
    as (rs & im' & H). exists rs, im'. exact H.
Defined.

Lemma demo_fresh : imap_fresh demo_imap.
Proof.
  split; [cbn; unfold LSFS_ROOT_INO, LSFS_MAX_INODES; lia|]. intros ino [v Hv].
  apply entries_map_Some in Hv as (i & e & Hi & <- & _); [|apply demo_entries_sorted].
  change (imap_live demo_imap) with [demo_e1; demo_e2] in Hi.
  destruct i as [|[|i]]; simplify_eq/=; lia.
Qed.

Lemma imap_alloc_fresh_witness :
  ∃ ino im', imap_alloc_ino demo_imap = Some (ino, im') ∧ imap_wf im' ∧ imap_fresh im' ∧
    imap_map im' = imap_map demo_imap ∧
    (ino = 0 ↔ ∀ i, LSFS_ROOT_INO < i < LSFS_MAX_INODES → is_Some (imap_map demo_imap !! i)) ∧
    (ino ≠ 0 → LSFS_ROOT_INO < ino < LSFS_MAX_INODES ∧ imap_map demo_imap !! ino = None).
Proof. exact (imap_alloc_fresh demo_imap demo_imap_wf demo_fresh). Defined.

Lemma imap_save_load_witness :
  let s := demo_ctx (fresh_segbuf 0) in
  wp (lsfs_imap_save 258) (λ r1 s1, r1 = LSFS_OK ∧
    wp (lsfs_imap_load 258 (imap_count (c_imap s))) (λ r2 s2,
      r2 = LSFS_OK ∧ imap_wf (c_imap s2) ∧ imap_map (c_imap s2) = imap_map (c_imap s) ∧
      imap_fresh (c_imap s2)) (s1 <| c_imap := demo_imap |>)) s.
Proof.
  apply imap_save_load.
  - apply demo_imap_wf.
  - apply demo_entries_wf.
  - repeat constructor; cbn; unfold LSFS_MAX_INODES; lia.
  - cbn. lia.
  - change (imap_blocks_needed _) with 1. apply log_in_disk; [apply demo_idle_wf|lia|lia|done].
  - reflexivity.
  - apply demo_imap_wf.
Defined.

Lemma segment_address_roundtrip_witness :
  lsfs_block_to_segment (lsfs_segment_to_block 3 17) = (3, 17).
Proof.
  destruct (segment_address_roundtrip 3 17) as [H _].
  - unfold valid_segment. lia.
  - unfold LSFS_SEGMENT_BLOCKS. lia.
  - exact H.
Defined.

Lemma segtable_refines_free_set_witness :
  let s := demo_ctx (fresh_segbuf 0) in
  wp (seg_run SegAlloc) (λ r s',
    segtable_wf (c_segtable s') ∧
    st_free_count (c_segtable s') = Z.of_nat (size (free_set (c_segtable s'))) ∧
    seg_step (st_count (c_segtable s)) (free_set (c_segtable s)) SegAlloc r (free_set (c_segtable s'))) s.
Proof. apply segtable_refines_free_set; [apply demo_table_wf|by rewrite size_free_set|exact I]. Defined.

Definition demo_calls : list log_call :=
  [LogAppend zero_block 7 0 LSFS_BLOCK_TYPE_DATA; LogFlush; LogCheckpoint].

Lemma log_operations_safe_witness :
  wp (for_each demo_calls (λ c, _ ← log_run c; mret tt))
    (λ _ s', log_wf s' ∧ log_frame (demo_ctx (fresh_segbuf 0)) s') (demo_ctx (fresh_segbuf 0)).
Proof.
  apply log_operations_safe; [apply demo_idle_wf|].
  constructor; [apply demo_args|]. repeat constructor.
Defined.

Lemma append_flush_read_witness :
  wp (lsfs_segment_append_block zero_block 7 0 LSFS_BLOCK_TYPE_DATA) (λ addr s1, addr ≠ 0 →
    wp lsfs_segment_flush (λ r s2, r = LSFS_OK →
      wp (lsfs_read_block addr) (λ got _, got = Ok zero_block ∨ got = Err LSFS_ERR_IO) s2) s1)
    (demo_ctx (fresh_segbuf 0)).
Proof. apply append_flush_read; [apply demo_idle_wf|apply demo_args]. Defined.

Lemma flush_summary_readback_witness :
  wp lsfs_segment_flush (λ r s', r = LSFS_OK →
    ∃ now, dec (disk_block (c_disk s') (lsfs_segment_to_block 0 0)) =
      mk_segment_header LSFS_SEGMENT_MAGIC 0 now 2 0) demo_busy.
Proof.
  eapply wp_mono; [apply flush_summary_readback|].
  - apply demo_busy_wf.
  - reflexivity.
  - cbn. lia.
  - intros r s' H Hr. exact (proj1 (H Hr)).
Defined.

Lemma append_survives_witness :
  wp (lsfs_segment_append_block zero_block 7 0 LSFS_BLOCK_TYPE_DATA) (λ a s1, a ≠ 0 →
    ¬ live_addr demo_busy a ∧
    wp (run_calls [LogCheckpoint]) (λ _ s2,
      log_view s2 a = zero_block ∧
      wp lsfs_segment_flush (λ r s3, r = LSFS_OK → disk_block (c_disk s3) a = zero_block) s2) s1) demo_busy.
Proof.
  apply append_survives; [apply demo_busy_wf|apply demo_args|repeat constructor|cbn; lia].
Defined.

(** A log of one segment, which is in use. *)
Definition demo_full : lsfs_context :=
  demo_busy <| c_segtable := mk_segment_table [mk_segment_usage 0 LSFS_SEG_ACTIVE 0 0 5] 1 0 |>.

Lemma demo_full_wf : log_wf demo_full.
Proof.
  destruct demo_busy_wf as [? ? ? ? ? ? ? ? ? Hd ? ? ? ?]. split; try assumption.
  - split; [done|cbn; lia|done|]. cbn [st_entries demo_full c_segtable field_set].
    repeat constructor; cbn; unfold is_u32, is_u64, LSFS_SEG_ACTIVE; lia.
  - unfold in_disk in *. cbn [c_disk_size demo_full field_set st_count c_segtable] in *.
    unfold LSFS_LOG_START, LSFS_SEGMENT_BLOCKS, LSFS_BLOCK_SIZE in *. cbn in *. lia.
Qed.

Lemma full_log_overwrites_witness :
  wp lsfs_segment_flush (λ r s1, r = LSFS_OK →
    wp (lsfs_segment_append_block zero_block 7 0 LSFS_BLOCK_TYPE_DATA) (λ a s2,
      a = lsfs_segment_to_block 0 1 ∧
      live_addr demo_full a ∧ disk_block (c_disk s1) a = log_view demo_full a ∧
      log_view s2 a = zero_block) s1) demo_full.
Proof.
  apply (full_log_overwrites demo_full); [apply demo_full_wf|apply demo_args|reflexivity|cbn; lia].
Defined.

(** The same with an open file: inode 7, empty, cached at address 1. *)
Definition demo_inode : lsfs_inode := zero_inode <| i_ino := 7 |>.
Definition demo_im : lsfs_inode_mem := mk_inode_mem demo_inode 1030 3 1 false None.
Definition demo_open : lsfs_context := with_inode 1 demo_im demo_busy.

Lemma demo_open_wf : log_wf demo_open.
Proof. apply log_wf_icache, demo_busy_wf. Qed.

Lemma demo_file_wf s : file_wf s demo_inode.
Proof.
  split; [cbn; unfold is_u32; lia|done|by intros []|]. intros idx Hidx Hne. destruct Hne. unfold file_addr.
  destruct (idx <? LSFS_DIRECT_BLOCKS); [|done]. cbn [i_direct demo_inode field_set zero_inode].
  destruct (_ !! _) as [x|] eqn:Hx; [|done].
  apply lookup_replicate in Hx as [-> _]. done.
Qed.

(** A block of ones. *)
Definition demo_data : list Z := replicate (Z.to_nat LSFS_BLOCK_SIZE) 1.

Lemma demo_data_block : is_block demo_data.
Proof. split; [apply length_replicate|]. apply Forall_replicate. unfold is_byte. lia. Qed.


Lemma file_write_flush_read_witness :
  wp (lsfs_inode_write_block 1 20 demo_data) (λ r s1, r = LSFS_OK →
    wp lsfs_segment_flush (λ f s2, f = LSFS_OK → ∀ j, 0 <= j < file_blocks →
      wp (lsfs_inode_read_block 1 j) (λ got _,
        got = Ok (if decide (j = 20) then demo_data else file_block demo_open demo_inode j) ∨
        got = Err LSFS_ERR_IO) s2) s1) demo_open.
Proof.
  apply (file_write_flush_read demo_open 1 demo_im).
  - apply demo_open_wf.
  - cbn. lia.
  - apply with_inode_lookup.
  - apply demo_file_wf.
  - intros []. reflexivity.
  - lia.
  - apply demo_data_block.
Defined.

Lemma unflushed_write_invisible_witness :
  wp (lsfs_inode_write_block 1 3 demo_data) (λ r s1, r = LSFS_OK ∧
    wp (lsfs_inode_read_block 1 3) (λ got _,
      got = Ok (disk_block demo_disk (next_addr demo_open)) ∨ got = Err LSFS_ERR_IO) s1) demo_open.
Proof.
  apply (unflushed_write_invisible demo_open 1 demo_im).
  - apply demo_open_wf.
  - cbn. lia.
  - apply with_inode_lookup.
  - apply demo_file_wf.
  - intros []. reflexivity.
  - unfold LSFS_DIRECT_BLOCKS. lia.
  - apply demo_data_block.
  - unfold LSFS_SEGMENT_BLOCKS. cbn. lia.
Defined.

Lemma indirect_write_lost_witness :
  wp (lsfs_inode_write_block 1 12 demo_data) (λ r1 s1, r1 = LSFS_OK ∧
    wp (lsfs_inode_write_block 1 13 demo_data) (λ r2 s2, r2 = LSFS_OK ∧
      ∃ im2, ic_heap (c_icache s2) !! 1 = Some im2 ∧
        file_block s2 (im_disk_inode im2) 12 = zero_block) s1) demo_open.
Proof.
  apply (indirect_write_lost demo_open 1 demo_im).
  - apply demo_open_wf.
  - apply with_inode_lookup.
  - cbn. unfold is_u32. lia.
  - reflexivity.
  - apply demo_data_block.
  - apply demo_data_block.
  - unfold LSFS_SEGMENT_BLOCKS. cbn. lia.
  - change (disk_block demo_disk 1028 = zero_block). unfold demo_disk.
    rewrite write_range_outside by (cbn; lia). reflexivity.
Defined.

(** * A directory on an image of eight segments *)

Definition demo_table8 : lsfs_segment_table :=
  mk_segment_table (mk_segment_usage 0 LSFS_SEG_ACTIVE 0 0 5 :: mk_segment_usage 1 LSFS_SEG_FULL 1 0 5 ::
    replicate 6 zero_usage) 8 6.

(** One file, called [a]. *)
Definition demo_rec : drec := mk_drec 9 LSFS_FT_REG_FILE [97] (replicate (Z.to_nat 4087) 0).
Definition demo_dir_block : list Z := recs_bytes [demo_rec].

Lemma demo_rec_size : rec_size demo_rec = 4096.
Proof. unfold rec_size. cbn [demo_rec r_name r_pad]. rewrite length_replicate. done. Qed.

Lemma demo_name : name_ok [97].
Proof. split; [done|]. repeat constructor; unfold is_byte; lia. Qed.

Lemma demo_block_recs : block_recs [demo_rec] demo_dir_block.
Proof.
  split; [done| |by rewrite recs_size_cons, demo_rec_size].
  constructor; [|constructor]. assert (is_u8 LSFS_FT_REG_FILE) as Ht by (unfold is_u8, LSFS_FT_REG_FILE; lia).
  apply (fresh_wf [97] 9 LSFS_FT_REG_FILE demo_name ltac:(lia) Ht).
  - apply zeros_bytes.
  - fold demo_rec. rewrite demo_rec_size. by split.
Qed.

Definition demo_ctx8 (d : disk) : lsfs_context :=
  demo_ctx (fresh_segbuf 0) <| c_disk := d |>
    <| c_disk_size := (LSFS_LOG_START + 8 * LSFS_SEGMENT_BLOCKS) * LSFS_BLOCK_SIZE |>
    <| c_segtable := demo_table8 |>.

Lemma demo_ctx8_wf d : log_wf (demo_ctx8 d).
Proof.
  destruct demo_idle_wf as [? ? ? ? ? ? ? ? ? ? ? ? ? ?]. split; try assumption.
  - split; [done|cbn; lia|done|]. cbn [st_entries demo_ctx8 c_segtable field_set demo_table8].
    constructor; [cbn; unfold is_u32, is_u64, LSFS_SEG_ACTIVE; lia|].
    constructor; [cbn; unfold is_u32, is_u64, LSFS_SEG_FULL; lia|]. apply Forall_replicate, zero_usage_wf.
Qed.

(** The inode of the directory, whose only block is at [a]. *)
Definition demo_dir_inode (a : Z) : lsfs_inode :=
  zero_inode <| i_ino := 7 |> <| i_mode := S_IFDIR |> <| i_size := 4096 |> <| i_direct := a :: replicate 11 0 |>.
Definition demo_dir_im (a : Z) : lsfs_inode_mem := mk_inode_mem (demo_dir_inode a) 1030 3 1 false None.

Lemma demo_dir_addr s a j : 0 <= j < file_blocks → file_addr s (demo_dir_inode a) j = if decide (j = 0) then a else 0.
Proof.
  intros Hj. unfold file_addr. cbn [demo_dir_inode i_direct i_indirect field_set zero_inode].
  destruct (j <? LSFS_DIRECT_BLOCKS) eqn:Hd; [|case_decide; [by subst j|done]]. case_decide as H0; [by subst j|].
  destruct (Z.to_nat j) as [|n] eqn:Hn; [lia|]. cbn [lookup list_lookup].
  destruct (replicate 11 0 !! n) as [x|] eqn:Hx; [|done]. by apply lookup_replicate in Hx as [-> _].
Qed.

Lemma demo_dir_file s a : live_addr s a → file_wf s (demo_dir_inode a).
Proof.
  intros Ha. split; [cbn; unfold is_u32; lia|done|by intros []|]. intros j Hj. rewrite demo_dir_addr by done.
  by case_decide.
Qed.

Lemma demo_dir_repr s a :
  a ≠ 0 → log_view s a = demo_dir_block → dir_repr s (demo_dir_inode a) [[demo_rec]].
Proof.
  intros Ha Hv. split; [done|done|done|]. intros [|k] rs Hk; [|done]. injection Hk as <-.
  unfold file_block. rewrite demo_dir_addr by done. rewrite decide_True by done.
  rewrite (proj2 (Z.eqb_neq _ _) Ha), Hv. apply demo_block_recs.
Qed.

(** On disk, in segment 1. *)
Definition demo_dir : lsfs_context :=
  with_inode 1 (demo_dir_im 2050) (demo_ctx8 (<[2050 := demo_dir_block]> demo_disk)).

Lemma demo_live_2050 : live_addr demo_dir 2050.
Proof. exists 1, 1. split_and!; try done; cbn; lia. Qed.

Lemma demo_dir_ready : dir_ready demo_dir 1 (demo_dir_im 2050) [[demo_rec]].
Proof.
  split.
  - apply log_wf_icache, demo_ctx8_wf.
  - apply with_inode_lookup.
  - apply demo_dir_file, demo_live_2050.
  - split; [by intros []|]. intros j Hj. cbn [demo_dir_im im_disk_inode]. rewrite demo_dir_addr by done.
    by case_decide.
  - apply demo_dir_repr; [done|]. rewrite settled_view by done.
    exact (disk_block_insert demo_disk 2050 demo_dir_block 2050).
Qed.

Lemma dir_refines_map_witness :
  wp (dir_run 1 (DirAdd [98] 12 LSFS_FT_REG_FILE)) (λ reply s1,
    reply ≠ DirCode LSFS_ERR_IO ∧ ∃ bs', NoDup (dir_entries bs').*1 ∧
    dir_step (dir_map [[demo_rec]]) (DirAdd [98] 12 LSFS_FT_REG_FILE) reply (dir_map bs') ∧
    wp lsfs_segment_flush (λ f s2, f = LSFS_OK → ∃ im', dir_ready s2 1 im' bs') s1) demo_dir.
Proof.
  eapply wp_mono; [apply (dir_refines_map demo_dir 1 (demo_dir_im 2050) [[demo_rec]])|].
  - apply demo_dir_ready.
  - apply NoDup_singleton.
  - cbn. lia.
  - split; [|split; [lia|unfold is_u8, LSFS_FT_REG_FILE; lia]].
    split; [done|]. repeat constructor; unfold is_byte; lia.
  - intros reply s1 [Hio H]. split; [by apply Hio|exact H].
Defined.


Lemma dir_init_creates_witness :
  wp (lsfs_dir_init 1 1) (λ r s1, (r = LSFS_OK ∨ r = LSFS_ERR_IO) ∧ (r = LSFS_OK →
    wp lsfs_segment_flush (λ f s2, f = LSFS_OK → ∃ im' bs', dir_ready s2 1 im' bs' ∧
      dir_map bs' = {[ [dot] := (7, LSFS_FT_DIR); [dot; dot] := (1, LSFS_FT_DIR) ]}) s1)) demo_dir.
Proof.
  apply (dir_init_creates demo_dir 1 (demo_dir_im 2050)).
  - apply log_wf_icache, demo_ctx8_wf.
  - cbn. lia.
  - apply with_inode_lookup.
  - apply demo_dir_file, demo_live_2050.
  - by intros [].
  - reflexivity.
  - cbn. lia.
  - lia.
Defined.

(** The same directory with its block still in the segment buffer. *)
Definition demo_stale : lsfs_context :=
  with_inode 1 (demo_dir_im 1026)
    (after_append demo_dir_block (new_info zero_info 7 0 LSFS_BLOCK_TYPE_DATA) (demo_ctx8 demo_disk)).

Lemma demo_stale_wf : log_wf demo_stale.
Proof.
  apply log_wf_icache, after_append_wf; [apply demo_ctx8_wf|apply (block_recs_is_block [demo_rec]), demo_block_recs| |done].
  destruct zero_info_wf as (_ & _ & _ & Hres).
  split; [|split; [|split; [|exact Hres]]]; cbn; unfold is_u32, is_u8, LSFS_BLOCK_TYPE_DATA; lia.
Qed.

Lemma demo_dir_stale : dir_stale demo_stale 1 (demo_dir_im 1026) [demo_rec].
Proof.
  destruct (log_grows_append (demo_ctx8 demo_disk) demo_dir_block (new_info zero_info 7 0 LSFS_BLOCK_TYPE_DATA)
    (demo_ctx8_wf _) eq_refl) as (_ & Hlive & Hview & _).
  split; [split| |].
  - apply demo_stale_wf.
  - apply with_inode_lookup.
  - apply demo_dir_file. exact Hlive.
  - by intros [].
  - apply demo_dir_repr; [done|exact Hview].
  - cbn [demo_dir_im im_disk_inode]. by rewrite demo_dir_addr by (unfold file_blocks; lia).
  - cbn [demo_dir_im im_disk_inode]. rewrite demo_dir_addr by (unfold file_blocks; lia). rewrite decide_True by done.
    change (disk_block demo_disk 1026 = zero_block). unfold demo_disk.
    rewrite write_range_outside by (cbn; lia). reflexivity.
Qed.

Lemma stale_add_destroys_witness :
  wp (lsfs_dir_add 1 [98] 12 LSFS_FT_REG_FILE) (λ r s',
    r = LSFS_ERR_IO ∨
    (r = LSFS_OK ∧ ∃ bs' im', ic_heap (c_icache s') !! 1 = Some im' ∧
       dir_repr s' (im_disk_inode im') bs' ∧ dir_map bs' = {[ [98] := (12, LSFS_FT_REG_FILE) ]})) demo_stale.
Proof.
  apply (stale_add_destroys demo_stale 1 (demo_dir_im 1026) [demo_rec]).
  - apply demo_dir_stale.
  - cbn. lia.
  - split; [done|]. repeat constructor; unfold is_byte; lia.
  - lia.
  - unfold is_u8, LSFS_FT_REG_FILE. lia.
Defined.

Lemma demo_disk_bytes b : is_block (disk_block demo_disk b).
Proof.
  unfold demo_disk, write_range.
  destruct (updates_block ∅ (place 1 (header_block demo_header :: to_blocks 1 (enc_array [demo_e1]))) b)
    as [-> |H]; [apply zero_block_is_block|].
  revert H. generalize (disk_block (apply_updates ∅
    (place 1 (header_block demo_header :: to_blocks 1 (enc_array [demo_e1])))) b).
  intros x. cbn [place to_blocks chunks]. rewrite elem_of_cons, list_elem_of_singleton.
  intros [[= _ ->]|[= _ ->]].
  - apply splice_is_block; [apply zero_block_is_block| |apply enc_bytes, demo_header_wf].
    rewrite length_enc by apply demo_header_wf. cbn. unfold LSFS_BLOCK_SIZE. lia.
  - pose proof (to_blocks_wf 1 (enc_array [demo_e1])) as Hw.
    apply Forall_inv in Hw; [exact Hw|]. apply enc_array_bytes.
    pose proof demo_entries_wf as Hwf. apply Forall_cons in Hwf as [He _]. by constructor.
Qed.

Lemma segment_init_establishes_witness :
  wp lsfs_segment_init (λ r s', r = LSFS_OK → log_wf s') (demo_ctx (fresh_segbuf 0)).
Proof.
  apply segment_init_establishes. split.
  - apply demo_sb_wf.
  - left. reflexivity.
  - cbn. unfold max_table_segments. lia.
  - apply (lw_disk _ demo_idle_wf).
  - apply demo_disk_bytes.
  - apply demo_imap_wf.
  - apply demo_entries_wf.
Defined.

Lemma checkpoint_crash_atomic_witness :
  let s := demo_ctx (fresh_segbuf 0) in
  wp lsfs_checkpoint_write (λ r s', ∃ tr, c_trace s' = c_trace s ++ tr ∧
    crash_safe demo_cache tr (λ d,
      mounts d (entries_map [demo_e1]) 9 1025 ∨ mounts d (imap_map demo_imap) 10 1025) ∧
    (r = LSFS_OK → mounts (c_disk s') (imap_map demo_imap) 10 1025)) s.
Proof.
  apply (checkpoint_crash_atomic (demo_ctx (fresh_segbuf 0)) demo_cache 0 demo_header [demo_e1]).
  - apply demo_idle_wf.
  - cbn. lia.
  - apply demo_checkpointed; reflexivity.
Defined.

Lemma log_crash_safe_witness :
  let s := demo_busy in
  wp (log_run LogCheckpoint) (λ _ s', log_wf s' ∧ ∃ tr a' h' l', c_trace s' = c_trace s ++ tr ∧
    crash_safe demo_cache tr (λ d,
      mounts d (entries_map [demo_e1]) 9 1025 ∨
      ∃ seq log_head, mounts d (imap_map (c_imap s)) seq log_head) ∧
    checkpointed s' (cache_run demo_cache tr) a' h' l' ∧
    (l' = [demo_e1] ∨ entries_map l' = imap_map (c_imap s))) s.
Proof.
  apply (log_crash_safe LogCheckpoint demo_busy demo_cache 0 demo_header [demo_e1]).
  - apply demo_busy_wf.
  - exact I.
  - reflexivity.
  - cbn. lia.
  - apply demo_checkpointed; reflexivity.
  - cbn. lia.
Defined.

Lemma imap_save_limit_witness :
  let s := demo_ctx (fresh_segbuf 0) <| c_imap := mk_imap [] 0 65281 0 |> in
  lsfs_imap_save 258 s = Some (LSFS_ERR_NOSPC, s).
Proof. apply imap_save_limit. cbn. lia. Defined.

(** * A filesystem with an empty inode cache and one inode on disk, number 16 *)

Definition demo_inode16 : lsfs_inode := zero_inode <| i_ino := 16 |> <| i_nlink := 1 |>.
Definition demo_imap16 : lsfs_imap :=
  mk_imap [demo_e1; mk_imap_entry 16 2 1030; zero_entry] 3 2 17.
Definition demo_block16 : list Z := over_read (enc demo_inode16) [].
Definition demo_fs : lsfs_context :=
  with_imap demo_imap16 (demo_ctx (fresh_segbuf 0)) <| c_icache := empty_inode_cache |>
    <| c_disk ::= <[1030 := demo_block16]> |>.

Lemma demo_inode16_wf : disk_wf demo_inode16.
Proof.
  cbn [disk_wf inode_ondisk demo_inode16 zero_inode field_set i_ino i_mode i_uid i_gid i_size i_blocks i_atime i_mtime
    i_ctime i_nlink i_flags i_direct i_indirect i_double_indirect i_symlink i_generation i_reserved].
  unfold is_u32, is_u64, is_bytes. split_and!; try lia; auto using zeros_bytes, length_replicate.
  apply Forall_replicate. lia.
Qed.

Lemma demo_imap16_map : imap_map demo_imap16 = {[ 1 := (1026, 1); 16 := (1030, 2) ]}.
Proof. reflexivity. Qed.

Lemma demo_imap16_wf : imap_wf demo_imap16.
Proof.
  split; [done|cbn; lia..|]. change (imap_live demo_imap16) with [demo_e1; mk_imap_entry 16 2 1030].
  repeat constructor; unfold by_ino; cbn; lia.
Qed.

Lemma demo_fs_wf : fs_wf demo_fs.
Proof.
  assert (∀ ino loc ver, imap_map demo_imap16 !! ino = Some (loc, ver) →
    (ino = 1 ∧ loc = 1026 ∧ ver = 1) ∨ (ino = 16 ∧ loc = 1030 ∧ ver = 2)) as Hcases.
  { intros ino loc ver. rewrite demo_imap16_map, lookup_insert_Some, lookup_singleton_Some. naive_solver. }
  split.
  - apply (log_wf_frame (with_cache empty_inode_cache (with_imap demo_imap16 (demo_ctx (fresh_segbuf 0))))); [done|].
    apply with_cache_wf, with_imap_wf; [apply demo_idle_wf|apply demo_imap16_wf|].
    intros ino loc ver [(-> & -> & ->)|(-> & -> & ->)]%Hcases; unfold is_u32, is_u64; lia.
  - apply empty_inode_cache_wf.
  - intros p im Hp. cbn in Hp. by rewrite lookup_empty in Hp.
  - split.
    + intros ino loc ver [(-> & -> & ->)|(-> & -> & ->)]%Hcases;
        unfold in_disk, LSFS_BLOCK_SIZE; cbn; unfold LSFS_LOG_START, LSFS_SEGMENT_BLOCKS, LSFS_BLOCK_SIZE; lia.
    + split; [cbn; unfold LSFS_ROOT_INO, LSFS_MAX_INODES; lia|].
      intros ino [[loc ver] [(-> & _)|(-> & _)]%Hcases]; cbn; lia.
  - intros b. cbn [demo_fs c_disk field_set with_imap]. rewrite disk_block_insert. case_decide; [|apply demo_disk_bytes].
    apply over_read_block, enc_bytes, demo_inode16_wf.
Qed.

Lemma inode_reload_witness :
  wp (lsfs_inode_get 16) (λ r s', ∃ p next, r = Some p ∧
    ic_heap (c_icache s') !! p = Some (mk_inode_mem demo_inode16 1030 2 1 false next)) demo_fs.
Proof.
  destruct (over_read_inode demo_inode16 [] demo_inode16_wf) as [_ [rest Hrest]].
  eapply wp_mono; [apply (inode_reload demo_fs demo_inode16 1030 2 rest)|].
  - apply demo_fs_wf.
  - cbn. unfold LSFS_INODE_CACHE_SIZE. lia.
  - intros p im Hp. cbn in Hp. by rewrite lookup_empty in Hp.
  - reflexivity.
  - apply demo_inode16_wf.
  - rewrite <-Hrest. exact (disk_block_insert demo_disk 1030 demo_block16 1030).
  - intros r s' [H _]. apply H. reflexivity.
Defined.

(** The same with a new, dirty inode in the cache. *)
Definition demo_new : lsfs_inode_mem := mk_inode_mem demo_inode16 0 0 1 true None.
Definition demo_cached : lsfs_context := with_cache (inserted empty_inode_cache 16 None demo_new) demo_fs.

Lemma demo_cached_wf : fs_wf demo_cached.
Proof.
  apply (insert_wf demo_fs None demo_new); try done.
  - apply demo_fs_wf.
  - apply demo_inode16_wf.
Qed.

Lemma demo_cached_lookup : ic_heap (c_icache demo_cached) !! 1 = Some demo_new.
Proof. reflexivity. Qed.

Lemma inode_write_persists_witness :
  wp (lsfs_inode_write 1) (λ r s1,
    (r = LSFS_ERR_NOSPC ∧ c_icache s1 = c_icache demo_cached ∧ c_imap s1 = demo_imap16) ∨
    (r = LSFS_OK ∧ ∃ loc, ic_heap (c_icache s1) !! 1 = Some (written demo_new loc) ∧
       (imap_entered demo_cached 16 loc s1 ∨ imap_refused demo_cached 16 s1) ∧
       wp lsfs_segment_flush (λ f s2, f = LSFS_OK →
         c_imap s2 = c_imap s1 ∧ c_icache s2 = c_icache s1 ∧
         dec (disk_block (c_disk s2) loc) = demo_inode16) s1)) demo_cached.
Proof.
  apply (inode_write_persists demo_cached 1 demo_new).
  - apply demo_cached_wf.
  - cbn. lia.
  - apply demo_cached_lookup.
  - apply demo_inode16_wf.
  - cbn. unfold is_u64. lia.
  - reflexivity.
Defined.

Lemma inode_cache_safe_witness :
  ∃ s', icache_run (CacheGet 16) demo_cached = Some (tt, s') ∧ fs_wf s' ∧
    ∃ im', ic_heap (c_icache s') !! 1 = Some im' ∧ im_disk_inode im' = demo_inode16 ∧ 1 <= im_refcount im'.
Proof.
  destruct (wp_elim _ _ _ (icache_run_safe demo_cached (CacheGet 16) demo_cached_wf I eq_refl))
    as ([] & s' & Hrun & _).
  exists s'. split; [exact Hrun|].
  destruct (inode_cache_safe [CacheGet 16] demo_cached s') as (Hwf & _ & H).
  - apply demo_cached_wf.
  - econstructor; [exact I|exact Hrun|constructor].
  - reflexivity.
  - split; [exact Hwf|]. apply (H 1 demo_new).
    + apply demo_cached_lookup.
    + cbn. lia.
    + cbn. lia.
    + by intros [?|?%elem_of_nil]%elem_of_cons.
Defined.

(** * A segment to clean: segment 1 is full, its summary carries no descriptions *)

Definition demo_seg_header : lsfs_segment_header := mk_segment_header LSFS_SEGMENT_MAGIC 1 5 500 0.
Definition demo_summary : list Z := enc demo_seg_header ++ replicate (BS - 24) 0.
Definition demo_gc : lsfs_context :=
  demo_fs <| c_segtable := demo_table8 |>
    <| c_disk_size := (LSFS_LOG_START + 8 * LSFS_SEGMENT_BLOCKS) * LSFS_BLOCK_SIZE |>
    <| c_disk := <[2049 := demo_summary]> ∅ |>.

Lemma demo_seg_header_wf : disk_wf demo_seg_header.
Proof. cbn. unfold is_u32, is_u64, LSFS_SEGMENT_MAGIC. lia. Qed.

Lemma demo_summary_block : is_block demo_summary.
Proof.
  unfold demo_summary. split.
  - rewrite length_app, length_replicate, (length_enc demo_seg_header demo_seg_header_wf).
    change (sizeof lsfs_segment_header) with 24%nat. assert (Z.of_nat BS = 4096) by done. lia.
  - apply Forall_app. split; [apply (enc_bytes demo_seg_header demo_seg_header_wf)|apply zeros_bytes].
Qed.

Lemma demo_gc_wf : fs_wf demo_gc.
Proof.
  destruct demo_fs_wf as [Hl Hc Hi [Ha Hf] Hb]. split; try done.
  - destruct (demo_ctx8_wf demo_disk) as [? ? ? ? ? ? ? ? ? ? _ _ ? ?], Hl as [_ _ _ _ _ _ _ _ _ _ ? ? _ _]. by split.
  - split; [|done]. intros ino loc ver H%Ha. unfold in_disk in *. cbn in *.
    unfold LSFS_LOG_START, LSFS_SEGMENT_BLOCKS, LSFS_BLOCK_SIZE in *. lia.
  - intros b. cbn [demo_gc c_disk field_set]. rewrite disk_block_insert. case_decide; [apply demo_summary_block|].
    unfold disk_block. rewrite lookup_empty. apply zero_block_is_block.
Qed.


Lemma gc_clean_safe_witness :
  wp (lsfs_gc_clean_segment 1) (λ r s', fs_wf s' ∧ (r = LSFS_OK → free_at (st_entries (c_segtable s')) 1 = true)) demo_gc.
Proof.
  eapply wp_mono; [apply (gc_clean_safe demo_gc 1)|].
  - apply demo_gc_wf.
  - lia.
  - discriminate.
  - cbn. unfold LSFS_SEGMENT_BLOCKS. lia.
  - intros r s' (Hwf & _ & H). split; [exact Hwf|]. intros Hr. destruct (H _ eq_refl) as [_ Hok]. by apply Hok.
Defined.

Lemma concat_zero_blocks n : concat (replicate n zero_block) = replicate (n * BS) 0.
Proof. induction n as [|n IH]; [done|]. cbn [replicate concat Nat.mul]. rewrite IH. symmetry. apply replicate_add. Qed.

Lemma demo_gc_data :
  concat (disk_blocks (c_disk demo_gc) 2049 (Z.to_nat LSFS_SEGMENT_BLOCKS)) =
    enc demo_seg_header ++ replicate (BS - 24 + Z.to_nat 1023 * BS) 0.
Proof.
  assert (disk_blocks (c_disk demo_gc) 2049 (Z.to_nat LSFS_SEGMENT_BLOCKS) =
    demo_summary :: replicate (Z.to_nat 1023) zero_block) as ->.
  { apply list_eq_same_length with (Z.to_nat LSFS_SEGMENT_BLOCKS);
      [|by rewrite length_disk_blocks|]; [cbn [length]; rewrite length_replicate; unfold LSFS_SEGMENT_BLOCKS; lia|].
    intros i x y Hi Hx Hy. rewrite disk_blocks_lookup in Hx by done. injection Hx as <-.
    cbn [demo_gc c_disk field_set]. rewrite disk_block_insert. destruct i as [|i].
    - injection Hy as <-. by rewrite decide_True by lia.
    - cbn in Hy. apply lookup_replicate in Hy as [-> _]. rewrite decide_False by lia.
      unfold disk_block. by rewrite lookup_empty. }
  cbn [concat]. rewrite concat_zero_blocks, replicate_add, app_assoc. reflexivity.
Qed.

Lemma bi_ino_zeros n : bi_ino (dec (replicate n 0) : lsfs_block_info) = 0.
Proof.
  cbn [dec block_info_ondisk]. unfold get_le at 1. rewrite take_replicate, le_val_zeros.
  repeat (destruct (get_le _ _) || destruct (get_bytes _ _)). done.
Qed.

Lemma gc_frees_unmoved_witness :
  ∃ s', lsfs_gc_clean_segment 1 demo_gc = Some (LSFS_OK, s') ∧
    c_segbuf s' = c_segbuf demo_gc ∧ c_imap s' = c_imap demo_gc ∧ c_icache s' = c_icache demo_gc ∧
    c_disk s' = c_disk demo_gc ∧ free_at (st_entries (c_segtable s')) 1 = true ∧
    st_free_count (c_segtable s') = 7.
Proof.
  apply (gc_frees_unmoved demo_gc 1 (mk_segment_usage 1 LSFS_SEG_FULL 1 0 5)).
  - apply demo_gc_wf.
  - discriminate.
  - reflexivity.
  - reflexivity.
  - discriminate.
  - change (lsfs_segment_to_block 1 0) with 2049. rewrite demo_gc_data.
    by rewrite (dec_enc demo_seg_header _ demo_seg_header_wf).
  - change (lsfs_segment_to_block 1 0) with 2049. intros i Hi. left. unfold gc_info, dec_at. rewrite demo_gc_data.
    rewrite drop_app_length' by (by rewrite (length_enc demo_seg_header demo_seg_header_wf)).
    rewrite drop_replicate. apply bi_ino_zeros.
Defined.

(** * A formatted image *)

(** A context that may write, and what formatting 21 megabytes from it leaves. *)
Definition demo_start : lsfs_context := demo_fs <| c_readonly := false |>.
Definition demo_image : lsfs_context :=
  match mkfs_main true true None 21 demo_start with
  | Some (_, s) => s
  | None => demo_start
  end.

Lemma demo_image_fresh : fresh_image 21 demo_image ∧ c_readonly demo_image = false.
Proof.
  destruct (wp_elim _ _ _ (mkfs_main_wp None 21 demo_start _ ltac:(lia))) as (r & s & Hrun & _ & Hro & Hf).
  assert (demo_image = s) as -> by (unfold demo_image; by rewrite Hrun). split; [exact Hf|exact Hro].
Qed.

Lemma demo_image_ok : image_ok demo_image.
Proof. apply (fresh_image_ok 21); [lia|apply demo_image_fresh]. Qed.

Lemma demo_image_usable : image_usable demo_image.
Proof. destruct demo_image_fresh as [Hf Hro]. apply (fresh_image_usable 21); [lia|exact Hf|exact Hro]. Qed.

Lemma mount_establishes_witness : wp lsfs_init_fs (λ r s', r = LSFS_OK → fs_wf s') demo_image.
Proof.
  eapply wp_mono; [apply (mount_establishes demo_image demo_image_ok)|].
  intros r s' H Hr. destruct (H Hr) as (_ & _ & _ & _ & _ & _ & Hn & Hwf). apply Hwf. intros ino loc Hrp.
  destruct demo_image_fresh as [Hf _].
  destruct (fresh_replayed 21 demo_image _ ino loc Hf (fresh_segments 21 _ ltac:(lia) Hf) Hrp) as [-> _]. exact Hn.
Defined.

Lemma mount_succeeds_witness : wp lsfs_init_fs (λ r s', r = LSFS_OK ∧ c_mounted s' = true) demo_image.
Proof. apply (mount_succeeds demo_image); [exact demo_image_ok|exact demo_image_usable]. Defined.

Lemma demo_image_recovered :
  ∃ ver, recovered_map (c_disk demo_image) (header_at (c_disk demo_image) 0) [root_imap] (image_segments demo_image) =
    {[LSFS_ROOT_INO := (1026, ver)]}.
Proof.
  destruct demo_image_fresh as [Hf _]. destruct (fresh_header 21 demo_image Hf) as (now & _ & _ & Hlh).
  apply (fresh_rolled 21 demo_image); [lia|exact Hf|]. exists 0, [root_imap]. split_and!; [by left|by eapply fresh_region0|].
  apply recovered_rolled. rewrite Hlh. unfold is_u64. lia.
Qed.

Lemma demo_image_fits :
  Z.of_nat (size (recovered_map (c_disk demo_image) (header_at (c_disk demo_image) 0) [root_imap]
    (image_segments demo_image))) <= 65280.
Proof. destruct demo_image_recovered as [ver ->]. rewrite map_size_singleton. lia. Qed.

Lemma mount_replays_log_witness :
  wp lsfs_init_fs (λ r s', r = LSFS_OK ∧ ∃ ver, imap_map (c_imap s') = {[LSFS_ROOT_INO := (1026, ver)]}) demo_image.
Proof.
  destruct demo_image_fresh as [Hf Hro].
  eapply wp_mono; [apply (mount_replays_log demo_image 0 (header_at (c_disk demo_image) 0) [root_imap])|].
  - exact demo_image_ok.
  - exact Hro.
  - exact (fresh_recovers 21 demo_image Hf).
  - exact demo_image_fits.
  - intros r s' (Hr & _ & Hm). split; [exact Hr|]. rewrite Hm. exact demo_image_recovered.
Defined.

(** The root was written in the second of the checkpoint: it is replayed. *)
Lemma flushed_inode_returns_witness :
  wp lsfs_init_fs (λ r s', r = LSFS_OK ∧ is_Some (imap_map (c_imap s') !! LSFS_ROOT_INO)) demo_image.
Proof.
  destruct demo_image_fresh as [Hf Hro]. destruct (fresh_header 21 demo_image Hf) as (now & Hh & Ht & Hlh).
  pose proof (fresh_info 21 demo_image 0 Hf ltac:(lia)) as Hi. change (fresh_infos !! Z.to_nat 0) with
    (Some (mk_block_info LSFS_ROOT_INO 0 LSFS_BLOCK_TYPE_INODE [0; 0; 0])) in Hi. apply (inj Some) in Hi.
  pose proof (flushed_inode_returns demo_image 0 (header_at (c_disk demo_image) 0) [root_imap] 0 3 0) as H.
  cbv zeta in H. change (lsfs_segment_to_block 0 0) with 1025 in H. rewrite Hh, <-Hi, Hlh, Ht in H. apply H.
  - exact demo_image_ok.
  - exact Hro.
  - exact (fresh_recovers 21 demo_image Hf).
  - exact demo_image_fits.
  - reflexivity.
  - pose proof (io_segments demo_image demo_image_ok) as [Hseg _]. exact Hseg.
  - reflexivity.
  - reflexivity.
  - change (summary_entries _) with 2. lia.
  - reflexivity.
  - reflexivity.
Defined.


Lemma format_mounts_witness :
  wp (mkfs_mount None 21) (λ r s', r = LSFS_OK ∧ fs_wf s' ∧ c_mounted s' = true) demo_start.
Proof.
  eapply wp_mono; [apply (format_mounts None 21 demo_start); [lia|reflexivity]|].
  intros r s' (Hr & Hwf & Hm & _). exact (conj Hr (conj Hwf Hm)).
Defined.

Lemma fresh_root_unreachable_witness :
  wp (mkfs_mount None 21) (λ _ s', wp (lsfs_op_getattr FUSE_ROOT_ID) (λ r _, r = reply_err ENOENT) s') demo_start.
Proof.
  eapply wp_mono; [apply (fresh_root_unreachable None 21 demo_start); [lia|reflexivity]|].
  intros r s' H. apply H. constructor.
Defined.

(** * A file through the handlers *)

Lemma demo_cached_file : cached demo_cached 16 1 demo_new.
Proof.
  split; [apply demo_cached_wf|reflexivity|reflexivity| |reflexivity].
  intros q im' Hq _. cbn in Hq. apply lookup_insert_Some in Hq as [[<- _]|[_ Hq]]; [done|].
  by rewrite lookup_empty in Hq.
Qed.

Lemma demo_cached_flushed : file_flushed demo_cached demo_inode16.
Proof.
  assert (∀ idx, file_addr demo_cached demo_inode16 idx = 0) as Hz.
  { intros idx. unfold file_addr. destruct (idx <? LSFS_DIRECT_BLOCKS); [|reflexivity].
    cbn [i_direct demo_inode16 field_set zero_inode]. destruct (_ !! _) as [x|] eqn:Hx; [|reflexivity].
    apply lookup_replicate in Hx as [-> _]. reflexivity. }
  split.
  - split; [cbn; unfold is_u32; lia|reflexivity|by intros []|]. intros idx _ Hne. by destruct Hne.
  - by intros [].
  - intros idx _ Hne. by destruct Hne.
Qed.

(** Two bytes at offset 3 of an empty file. *)
Lemma fuse_write_fsync_read_witness :
  wp (lsfs_op_write 16 [104; 105] 3) (λ r1 s1, r1 = reply_write 2 ∧
    wp lsfs_op_fsync (λ r2 s2, r2 = reply_err 0 ∧
      wp (lsfs_op_read 16 4096 2) (λ r3 _,
        r3 = reply_buf [file_byte demo_cached demo_inode16 2; 104; 105]) s2) s1) demo_cached.
Proof.
  eapply wp_mono; [apply (fuse_write_fsync_read demo_cached 16 1 demo_new 3 [104; 105])|].
  - exact demo_cached_file.
  - exact demo_cached_flushed.
  - reflexivity.
  - cbn. unfold file_blocks, LSFS_BLOCK_SIZE. lia.
  - repeat constructor; unfold is_byte; lia.
  - lia.
  - cbn. unfold LSFS_DIRECT_BLOCKS, LSFS_BLOCK_SIZE. lia.
  - apply Z.leb_le. reflexivity.
  - intros r1 s1 [Hr1 H]. split; [exact Hr1|]. eapply wp_mono; [exact H|].
    intros r2 s2 [Hr2 H2]. split; [exact Hr2|]. eapply wp_mono; [apply (H2 2 4096); lia|].
    intros r3 s3 Hr3. rewrite Hr3. reflexivity.
Defined.

(** * A name through the handlers *)

(** The directory above, number 7, as the only cached inode. *)
Definition demo_names0 : lsfs_context :=
  demo_ctx8 (<[2050 := demo_dir_block]> demo_disk) <| c_icache := empty_inode_cache |>.
Definition demo_names : lsfs_context :=
  with_cache (inserted empty_inode_cache 7 None (demo_dir_im 2050)) demo_names0.

Lemma demo_dir_inode_wf : disk_wf (demo_dir_inode 2050).
Proof.
  cbn [disk_wf inode_ondisk demo_dir_inode zero_inode field_set i_ino i_mode i_uid i_gid i_size i_blocks i_atime i_mtime
    i_ctime i_nlink i_flags i_direct i_indirect i_double_indirect i_symlink i_generation i_reserved].
  unfold is_u32, is_u64, is_bytes, S_IFDIR. split_and!; try lia; auto using zeros_bytes, length_replicate.
  constructor; [lia|]. apply Forall_replicate. lia.
Qed.

Lemma demo_names0_wf : fs_wf demo_names0.
Proof.
  split.
  - apply log_wf_icache, demo_ctx8_wf.
  - apply empty_inode_cache_wf.
  - intros p im. cbn. by rewrite lookup_empty.
  - split.
    + intros ino loc ver. change (imap_map (c_imap demo_names0)) with (entries_map [demo_e1; demo_e2]). cbn.
      intros [[<- [= <- <-]]|[_ [[<- [= <- <-]]|[_ Hm]]%lookup_insert_Some]]%lookup_insert_Some;
        [..|by rewrite lookup_empty in Hm]; unfold in_disk; cbn;
        unfold LSFS_LOG_START, LSFS_SEGMENT_BLOCKS, LSFS_BLOCK_SIZE; lia.
    + split; [cbn; unfold LSFS_ROOT_INO, LSFS_MAX_INODES; lia|]. intros ino [[loc ver] Hm].
      change (imap_map (c_imap demo_names0)) with (entries_map [demo_e1; demo_e2]) in Hm. cbn in Hm |- *.
      apply lookup_insert_Some in Hm as [[<- _]|[_ [[<- _]|[_ Hm]]%lookup_insert_Some]]; [lia..|].
      by rewrite lookup_empty in Hm.
  - intros b. change (c_disk demo_names0) with (<[2050 := demo_dir_block]> demo_disk).
    rewrite disk_block_insert. case_decide; [|apply demo_disk_bytes].
    by eapply block_recs_is_block, demo_block_recs.
Qed.

(** * The checker *)

Lemma demo_image_errors : errors_on_disk (c_disk demo_image) = 0.
Proof. destruct (fresh_errors 21 demo_image) as [k Hk]; [lia|apply demo_image_fresh|]. rewrite Hk. reflexivity. Qed.


Lemma format_fsck_verdict_witness :
  wp (mkfs_main true true None 21) (λ r s1, r = 0 ∧
    wp (run_fsck true (Some (21 * 1024 * 1024)) 0 1) (λ r' s2, r' = 0 ∧ c_disk s2 = c_disk s1) s1) demo_start.
Proof.
  eapply wp_mono; [apply (format_fsck_verdict None 21 1 demo_start); lia|]. intros r s1 (Hr & (k & Hk) & H).
  split; [exact Hr|]. rewrite Hk in H. exact H.
Defined.

(** * The inspection tool *)

Definition demo_calendar (t : Z) : option (list Z) := Some (text "2026-01-01 00:00:00").

Lemma demo_blank_times : times_ok demo_blank (λ _, True).
Proof. split; intros; done. Qed.

Lemma debug_defined_witness :
  wp (debug_main demo_calendar [] (Some ([], CmdAll)) None) (λ _ s', c_disk s' = c_disk demo_blank) demo_blank.
Proof.
  destruct (debug_defined demo_calendar demo_blank (λ _, True) [] (Some ([], CmdAll)) None) as [H _].
  - intros t _. eexists. reflexivity.
  - exact demo_blank_ok.
  - exact demo_blank_times.
  - exact I.
  - eapply wp_mono; [exact H|]. intros r s' Hu. exact (proj1 Hu).
Defined.

Lemma demo_image_active : sb_active_checkpoint (dec (disk_block (c_disk demo_image) 0)) = 0.
Proof.
  destruct (fresh_sb 21 demo_image ltac:(lia) (proj1 demo_image_fresh)) as (ts & now & uuid & _ & _ & ->). reflexivity.
Qed.

Lemma dump_imap_lists_witness : ∃ out s', dump_imap demo_image = Some (out, s') ∧ c_disk s' = c_disk demo_image.
Proof.
  destruct (dump_imap_lists demo_image 0 (header_at (c_disk demo_image) 0) [root_imap]) as [(s' & H & Hu) _].
  - exact (io_bytes demo_image demo_image_ok).
  - destruct demo_image_fresh as [[Hsz _] _]. rewrite Hsz. unfold LSFS_LOG_START, LSFS_BLOCK_SIZE. lia.
  - left. reflexivity.
  - exact demo_image_active.
  - exact (fresh_region0 21 demo_image (proj1 demo_image_fresh)).
  - exists (printf [Txt "=== INODE MAP ==="; NL] ++ printf [Txt "Entries: "; Dec 1; NL; NL] ++
      concat (imap_line <$> [root_imap]) ++ printf [NL]), s'. split; [exact H|exact (proj1 Hu)].
Defined.

(** * Unmounting with a cached inode and a block in the buffer, at a clock that moves on *)

Definition demo_clock : Env := {|
  env_time t := if (t =? 0)%nat then 100 else 200; env_clock _ := (200, 0);
  env_pread _ := None; env_pwrite _ := None; env_fsync _ := true; env_alloc _ := true;
  env_mem _ := zero_block; env_rand _ := 0; env_uid := 0; env_gid := 0 |}.

#[local] Instance demo_clock_healthy : Healthy demo_clock.
Proof. by split. Qed.

Definition demo_session : lsfs_context :=
  after_append zero_block (new_info zero_info 16 0 LSFS_BLOCK_TYPE_DATA) demo_cached.

Lemma demo_session_wf : fs_wf demo_session.
Proof.
  apply (fs_wf_log_frame demo_cached); [apply demo_cached_wf| |apply after_append_frame].
  apply after_append_wf; [apply demo_cached_wf|apply zero_block_is_block| |done].
  destruct zero_info_wf as (_ & _ & _ & Hres).
  split; [|split; [|split; [|exact Hres]]]; cbn; unfold is_u32, is_u8, LSFS_BLOCK_TYPE_DATA; lia.
Qed.

Lemma demo_session_disk b : b ≠ 1030 → disk_block (c_disk demo_session) b = disk_block demo_disk b.
Proof. intros Hb. exact (eq_trans (disk_block_insert demo_disk 1030 demo_block16 b) (decide_False _ _ (not_eq_sym Hb))). Qed.

Lemma demo_session_recovers : recovers_to (c_disk demo_session) 0 demo_header [demo_e1].
Proof.
  destruct demo_recovers as (Hr & Hh & Ho). split_and!; [done| |].
  - eapply region_holds_ext; [|exact Hh]. intros b [Hb1 Hb2]. apply demo_session_disk.
    change (region_start 0) with 1 in *. unfold LSFS_CHECKPOINT0_BLOCKS in *. lia.
  - unfold other_older, header_at in *. rewrite demo_session_disk by done. exact Ho.
Qed.

Lemma demo_session_summaries T : summaries_before (c_disk demo_session) 4 T.
Proof.
  intros seg Hseg. cbv zeta. rewrite segment_to_block_eq by (unfold valid_segment; lia).
  unfold LSFS_LOG_START, LSFS_SEGMENT_BLOCKS. rewrite demo_session_disk by lia.
  unfold demo_disk. rewrite write_range_outside by (cbn; lia). unfold disk_block. rewrite lookup_empty. cbn [default].
  cbn [dec segment_header_ondisk]. unfold get_le, zero_block.
  rewrite !drop_replicate, !take_replicate, !le_val_zeros. done.
Qed.

Lemma remount_same_witness :
  wp (@lsfs_cleanup_fs demo_clock) (λ _ s',
    wp (@lsfs_init_fs demo_clock) (λ r s2, r = LSFS_OK ∧ imap_map (c_imap s2) = imap_map demo_imap16)
      (demo_start <| c_disk := c_disk s' |> <| c_disk_size := c_disk_size demo_session |>)) demo_session.
Proof.
  eapply wp_mono; [apply (remount_same demo_session demo_header [demo_e1])|].
  - split; [apply demo_session_wf|reflexivity|reflexivity|cbn; lia|reflexivity|apply demo_session_recovers| |cbn; lia].
    repeat constructor; cbn; unfold LSFS_MAX_INODES, LSFS_LOG_START, LSFS_SEGMENT_BLOCKS, LSFS_BLOCK_SIZE; lia.
  - split; [apply demo_session_summaries|]. intros [|t] Ht; [cbn in Ht; lia|done].
  - intros [] s' (_ & _ & _ & H). eapply wp_mono; [apply H; [apply _|reflexivity..]|].
    intros r s2 (Hr & _ & Hm & _). exact (conj Hr Hm).
Defined.

Lemma mkfs_size_option_witness :
  mkfs_program (text "mkfs.lsfs") [text "disk.img"; text "--size=64"] true true None demo_start =
    (ret ← mkfs_main true true None 64; mret ([], ret)) demo_start.
Proof.
  apply (mkfs_size_option (text "mkfs.lsfs") [text "disk.img"; text "--size=64"] (text "disk.img") 64 true true None demo_start).
  - unfold is_u64. lia.
  - reflexivity.
  - do 4 right. left.
Defined.

Lemma session_invariant_witness :
  wp lsfs_init_fs (λ ret s, ret = LSFS_OK ∧
    wp (run_calls [LogAppend zero_block 7 0 LSFS_BLOCK_TYPE_DATA; LogFlush; LogCheckpoint])
      (λ _ s', ∃ h' l', in_session s' h' l') s) demo_image.
Proof.
  destruct demo_image_fresh as [Hf Hro].
  eapply wp_mono; [apply wp_and; [apply (session_invariant demo_image 0 (header_at (c_disk demo_image) 0) [root_imap]
    [LogAppend zero_block 7 0 LSFS_BLOCK_TYPE_DATA; LogFlush; LogCheckpoint])|apply (init_fs_wp demo_image demo_image_ok)]|].
  - exact demo_image_ok.
  - exact Hro.
  - exact (fresh_recovers 21 demo_image Hf).
  - exact demo_image_fits.
  - repeat constructor; apply demo_args.
  - rewrite (fresh_sequence 21 demo_image Hf). lia.
  - rewrite (fresh_sequence 21 demo_image Hf). cbn [length]. lia.
  - intros ret s [[Hr H] [Hrd _]]. destruct (Hrd Hr) as [_ Hrec]. split; [exact Hr|].
    eapply wp_mono; [apply H|]; [|intros [] s' [Hin _]; exact Hin].
    intros ino loc Hrp. destruct (fresh_replayed 21 demo_image _ ino loc Hf (fresh_segments 21 _ ltac:(lia) Hf) Hrp) as [-> _].
    apply (rd_next _ _ Hrec).
Defined.
